(* ===== verification/_CoqProject ===== *)
-Q . S2P
Prelude.v
Bitfields.v
Extern.v
Paths.v
AddrText.v
PathText.v
Serialisation.v
Framing.v
Serde.v
Promises.v
Lifecycle.v
References.v
Scheduling.v
Dedicated.v
PathTrie.v
Routing.v
ActorStore.v
ChunkLease.v
Frames.v
Buffers.v
DecodeBuffer.v
EncodeBuffer.v
Messages.v
Serialisers.v
MatchDeser.v
Timers.v
Component.v
Derive.v
Blocking.v
Tasks.v
Reports.v
Supervision.v
System.v
Ports.v
Config.v
Startup.v
BlockList.v
Contexts.v
QueueManager.v
Dispatcher.v
Delivery.v
Registration.v
Channel.v
Session.v
Udp.v
NetworkThread.v
Boot.v
ThreadSafety.v
ThreadBehaviour.v
