(* ===== verification/Prelude.v ===== *)
(** * Kompact in Rocq

    A shallow embedding of the core of Kompact, a Rust framework that combines
    the Kompics component model with actors.  Rust functions are Rocq functions
    with the names of the source; mutation is state passing; [Result] and panics
    are values of [res] (this file); atomics shared between threads are
    transition systems.

    ** The program

    A component owns a queue of control events, a queue of actor messages and
    its ports, and one atomic word that packs its lifecycle state with the count
    of outstanding work ([core/src/component]).  Producers push work, increment
    the count and, when it was zero, hand the component to a scheduler; the
    thread that executes it takes events off the queues, subtracts what it did
    and decides whether the component must be scheduled again.  Actors are
    addressed by paths ([core/src/actors/paths.rs]); a dispatcher resolves local
    paths in a lookup table ([core/src/dispatch/lookup]) that also knows routing
    groups ([core/src/routing]) and sends to other systems over the network
    ([network/src]).  On the way out a message is serialised into a framed chain
    of leases on pooled chunks ([core/src/net/buffers], [core/src/net/frames.rs],
    [core/src/serialisation/ser_helpers.rs]); on the way in frames are cut out of
    whatever bytes arrive, and become messages again.  One network thread per
    system owns the sockets: it polls them, runs a handshake per connection,
    bounds their number and keeps a block list ([network/src/transport]).  Timers,
    ports and the supervisor connect components within a system.

    ** Files

    - [Prelude]: outcomes of Rust code and their monad, stateful code as a monad
      whose changes survive errors ([St]), relations such code keeps ([respects],
      with a tactic that walks through it), machine integers, list lemmas, tactics
      and hint databases.
    - [Bitfields] ([messaging/bitfields.rs]): bit fields in a byte slice.
    - [Extern]: what is relied on of the [bytes] and [uuid] crates, as classes with
      laws and an instance each; addresses of the standard library.
    - [Paths] and [PathText] ([actors/paths.rs]), the latter with [AddrText], what the
      standard library does with the text of addresses; [Serialisation] ([serialisation/core.rs],
      [default_serialisers.rs]) with the class [Codec] that a serialiser owes its
      users, [Framing] ([messaging/framing.rs]): paths and their wire format;
      [Serde] ([serialisation/serde_serialisers.rs]): values of serde's data model.
    - [Promises] ([utils/mod.rs]): promises, futures and waiting for them;
      [References] ([actors/refs.rs], [utils/ask.rs]): references to actors and asks,
      with the ownership of their promises.
    - [Lifecycle] ([component/lifecycle.rs]): the lifecycle word; [Scheduling]
      ([component/actual_component.rs], the enqueueing references,
      [runtime/scheduler.rs]): the protocol around it as labelled steps; [Dedicated]
      ([dedicated_scheduler.rs]): the same for a component with a thread of its own;
      [Blocking] ([future_task.rs], [context.rs]): the same for one that blocks on
      futures, with their wakers and the mutex around the definition.
    - [PathTrie] ([dispatch/lookup/path_trie.rs]), [Routing] ([routing/groups.rs],
      [utils/iter_extras.rs]), [ActorStore] ([dispatch/lookup/mod.rs], [gc.rs] and
      the registration handlers of [network/src/dispatcher.rs]): local lookup.
    - [ChunkLease] ([net/buffers/chunk_lease.rs], [chunk_ref.rs]), [Frames]
      ([net/frames.rs]), [Buffers] ([net/buffers/mod.rs], [buffer_pool.rs]),
      [DecodeBuffer], [EncodeBuffer] (the files of those names): bytes on the
      wire and the memory they live in.
    - [Messages] ([serialisation/ser_helpers.rs], [messaging/net_message.rs],
      [messaging/dispatch.rs]): messages as frames and back; [Serialisers]
      ([serialisation/core.rs], [mod.rs], [protobuf_serialisers.rs]): values sent with a
      serialiser, one-off buffers, protobuf messages, widths of ids; [MatchDeser]
      ([messaging/deser_macro.rs]): the macro that dispatches on their content.
    - [Timers] ([timer/timer_manager.rs], the timer methods of
      [component/definition.rs] and [context.rs]), [Component]
      ([component/actual_component.rs], [context.rs], [core.rs]): one execution of a
      component, with the handlers as scripts of what they do and return; [Derive]
      ([macros/component-definition-derive], [macros/actor-derive]): the code the derive
      macros generate; [Tasks] ([definition.rs], [future_task.rs], [context.rs]): the
      futures that run on a component; [Contexts] ([runtime/system.rs], [component]):
      how a component is made, and its context with the buffers;
      [Reports] (what an execution tells the supervisor); [Supervision]
      ([supervision.rs]); [System] ([runtime/system.rs], [runtime/scheduler.rs], the
      start and end of the system components in [default_components.rs]): components,
      their supervisor and the threads that run them, as one transition system;
      [Ports] ([ports.rs], the connecting functions of [utils/mod.rs]).
    - [Config] ([config], [runtime/config.rs]): configuration documents, typed entries,
      and the settings of a system; [Startup] ([runtime/system.rs]): waiting until a
      system is up.
    - [QueueManager] ([network/src/queue_manager.rs]), [Dispatcher]
      ([network/src/dispatcher.rs], the bridge of [network/src/transport/mod.rs]):
      connections to other systems; [Delivery] ([default_components.rs], the local
      handlers of [network/src/dispatcher.rs], [actors/paths_dispatch.rs],
      [actors/distributed.rs], [messaging/registration.rs]): messages and
      registrations that stay within a system; [Registration] ([runtime/system.rs], the
      registration methods).
    - [BlockList] ([network/src/transport/network_thread.rs], the rules), [Channel]
      ([network_channel.rs]), [Session] (two channels and the bytes in flight between
      them), [Udp] ([udp_state.rs]), [NetworkThread] (all handlers of
      [network_thread.rs]), [Boot] ([network/src/dispatcher.rs], the configuration;
      [network/src/transport/mod.rs], the start of the bridge), [ThreadSafety] and [ThreadBehaviour] (what every run and
      what particular runs of the thread do).

    Files are relative to [core/src] where no crate is named.

    ** What the theorems show

    - Scheduling, for components that do not block on futures: in every interleaving
      of producers, timers, schedulers and executions a component with outstanding
      work is scheduled or running, is never run twice at once, its count is the
      queued work and the cancelled timeouts that were taken off their queue without
      being counted, and a started component drains its queues, up to a count of those
      timeouts that is left over.  The word with its flags refines a pair of a state
      and a number.  The thread of a dedicated component is awake while there is work
      that was announced to it, and ends with its component; what timers and ports
      announce goes to the pool instead.  A component that blocks on futures loses
      neither work nor wake-ups while it is neither killed nor faulty.  Futures
      spawned on a component are polled when they are woken and not after they are
      done.
    - Paths: the text of a valid IPv4 path parses to the path, any text parses to an
      error or a valid path; serialised IPv4 paths of unique actors and of names that are
      not empty, have no slash within a segment and fit the length prefix are read back.
    - Asking: an unresolved promise is in exactly one message, so asks are never
      forgotten; references of all kinds agree; collections of futures agree.
    - Lookup: the trie is a finite map and stays trimmed; the store refines a
      finite map of uuids and paths through all operations, registration reports
      exactly the documented errors, group lookups return exactly the live
      members below the path; policies deliver fairly.
    - Buffers: the pool never reuses a chunk with live leases; chains of leases
      behave as the concatenation of their slices; encoding writes exactly the
      bytes put, over any number of chunks, and leaves leased bytes alone when no more
      than the reserved bytes are padded;
      decoding yields the frames sent for every split of the stream into reads
      and chunks.
    - Messages: serialising, preserialising and forwarding a message between such paths
      give a frame from which the receiver gets the same sender, receiver and value.  Values of
      serde's data model round trip through its serialiser.  A [match_deser!] block
      runs the first arm for the id of a message.  A value sent with a serialiser of
      its own arrives as the value.
    - Delivery: an actor that is registered receives the messages sent to it while the
      dispatcher has not panicked, the sending methods agree, and dispatching to a group is routing through its
      policy; every request to register is answered once.
    - Dispatcher: while the network thread is there and requests are of the kinds it
      supports it refines one independent link per remote address; messages to an
      address leave in order without loss or duplication unless the address is blocked
      or given up; queued messages are always retried, and
      retries are given up after exactly the configured number.
    - Execution: one execution of a component subtracts exactly the work it took
      off the queues, receives messages in order within its budget, returns when
      control handlers do not feed the control queue, and contains panics, which it
      reports once unless the recovery function panics as well; the generated
      execution of the ports ends, counts what it took and serves the ports in turn
      while their handlers neither block nor fail; a new component knows its context, scheduler and supervisor, and makes its
      buffers once; only
      live timers run their actions; the supervisor refines a set of children with
      promises, and a shutdown completes; ports refine a multigraph of links along
      which every event arrives once per link and in order.
    - System: in every sequence of calls and thread steps the supervisor is informed of
      all an execution reports, once and in order; a component that has ended has said
      so, or its recovery function has panicked; notifications about starting, stopping
      and killing tracked components are not lost; the shutdown of a system can always
      proceed while no component is blocked or has a recovery function that panicked.
    - Connections: while a connection is not lost and buffers have room, in every
      interleaving, delivery and outcome of socket calls the handshake of two channels
      agrees on one session, and an endpoint reads the data frames in the order in which
      the other handed them over, all of them once it has read the farewell; what is
      queued behind a farewell is rejected.  Datagrams that fit a packet carry whole
      frames; the network thread stays within its hard limit and keeps its tables
      consistent whatever arrives; two hosts whose requests cross keep the same session;
      the block list follows its documented rules for addresses that are not named by
      both kinds of request.
    - Configuration: the setting made last wins and disturbs no other; a dotted
      lookup is the chain of its steps, errors included; whatever the sources, the
      settings of a system are legal or an error is returned.  A system is handed out
      when its components are ready; the network has a bridge exactly when its thread
      runs, but for one race.
    - Faults of the code found on the way are theorems too: IPv6 paths cannot be
      decoded, a zero-length data frame and an empty last path segment panic, a
      failed reservation loses chunks, a failed pad moves the write position into
      leased bytes, a forwarded reflected message carries its old headers, a
      passive component with messages spins and so does one with a cancelled
      timeout, a recovery function that panics keeps the supervisor waiting, timers
      schedule a dedicated component on the pool, a rule of the block list against
      an older one only withdraws it, a killed component can be started again, killing a component that
      never started loses its listener, a frame that was partly written is given
      back without its head, frames sent before the handshake panic the network
      thread, small free space makes a channel loop, a truncated datagram puts the
      receiver out of step, two concurrent shutdowns fail, a component whose start
      is not yet reported survives a shutdown, the text of an IPv6 path is refused,
      recipients of dead components are equal, a parked dedicated thread does not see
      that it is told to stop and that of a faulty component never ends, a port whose
      handler blocks starves the others, a blocking future that completes with another
      one is never polled, a component that comes out of blocking can be executed by two
      threads, a local future that spawns another one uses a waker in freed memory, a
      component with a waiting future is never freed, a connection limit of zero is
      refused only by a panic of the network thread.

    ** Choices

    Integers are [Z] with their wrap-around written out where the code depends on
    the width (lifecycle word, round-robin offset, lengths on the wire), and [nat]
    with checked subtraction ([csub]) for sizes and positions in memory.  Bytes
    are [Z] in [0, 256).  Loops that are not structural have fuel, and the
    theorems that use them prove that the fuel given is enough: the number of
    slices for chain walks, one unit per byte and per chunk for the encoder and
    the decoder, the number of nodes for the trie iterator, the queue length for
    draining, the length of the control queue for the control loop, one more than
    the number of scripted outcomes for loops over a socket, the bytes that are
    left to read for frames of a channel.  A socket is a script of the outcomes of
    the calls on it, chosen by the environment, with the bytes written and still
    to be read; the theorems hold for every script.  A channel shared through [Rc]
    is a token into the thread's table, and a set of tokens records who is
    borrowed.  The liveness of weak references and the leases alive on a chunk
    are questions to the environment ([alive], [Refs]).  The hash function and the
    way a serialiser splits its output into calls are parameters, and so are the
    LRU set, networks of addresses and the generation of uuids, as classes with
    the laws that are used and an instance each.

    ** Not modelled

    The system calls behind sockets and polling, the third-party executors, timer
    wheel, hash tables and serialisation libraries, TOML parsing: code of others, whose
    documented behaviour is a parameter.  Logging, the texts of errors and the [Debug] and
    [Display] implementations, which nothing depends on.  The methods of the system, of
    its handle in a context and of the dynamically typed views of components that forward
    to a method that is modelled or return a field.  Pinning threads to cores.  Tests,
    benchmarks and the example programs of the documentation, which are clients of the
    library. *)

From stdpp Require Export base tactics list gmap strings numbers option.
From Stdlib Require Export ZArith Lia Ascii String.
From stdpp Require Export strings.
#[global] Open Scope list_scope.
#[global] Open Scope nat_scope.

#[global] Set Default Proof Using "Type".

(** ** Outcomes of Rust code

    A Rust function that returns [Result<A, E>] and may panic is a function
    into [res E A].  Code that cannot return an error uses [E := Empty_set]. *)
Inductive res (E A : Type) : Type :=
| Ok (a : A)
| Err (e : E)
| Panic.
Arguments Ok {E A} a.
Arguments Err {E A} e.
Arguments Panic {E A}.

#[global] Instance res_eq_dec E A `{EqDecision E, EqDecision A} : EqDecision (res E A).
Proof. solve_decision. Defined.

#[global] Instance res_ret E : MRet (res E) := λ A a, Ok a.
#[global] Instance res_bind E : MBind (res E) := λ A B f m,
  match m with Ok a => f a | Err e => Err e | Panic => Panic end.
#[global] Instance res_fmap E : FMap (res E) := λ A B f m,
  match m with Ok a => Ok (f a) | Err e => Err e | Panic => Panic end.

(** [Result::map_err]. *)
Definition map_err {E E' A} (f : E → E') (m : res E A) : res E' A :=
  match m with Ok a => Ok a | Err e => Err (f e) | Panic => Panic end.

(** [Result::ok_or] / [Option::ok_or_else]. *)
Definition ok_or {E A} (e : E) (o : option A) : res E A :=
  match o with Some a => Ok a | None => Err e end.

(** [Result::expect] / [Result::unwrap]: an error becomes a panic. *)
Definition expect {E E' A} (m : res E A) : res E' A :=
  match m with Ok a => Ok a | Err _ => Panic | Panic => Panic end.

(** [Option::unwrap] / indexing: absence becomes a panic. *)
Definition unwrap {E A} (o : option A) : res E A :=
  match o with Some a => Ok a | None => Panic end.

(** [assert!(b)]. *)
Definition assert_ {E} (b : bool) : res E () := if b then Ok () else Panic.

(** [usize] subtraction with overflow checks. *)
Definition csub {E} (a b : nat) : res E nat :=
  if decide (b ≤ a) then Ok (a - b) else Panic.

(** A [for] loop whose body threads a state. *)
Fixpoint for_each {E A S} (l : list A) (f : A → S → res E S) (s : S) : res E S :=
  match l with
  | [] => Ok s
  | x :: l => s' ← f x s; for_each l f s'
  end.

(** ** Stateful code

    Methods that change a state and may fail: the changes made before an error
    or a panic remain. *)
Definition St (S E A : Type) : Type := S → S * res E A.

#[global] Instance st_ret S E : MRet (St S E) := λ A a s, (s, Ok a).
#[global] Instance st_bind S E : MBind (St S E) := λ A B f m s,
  match m s with
  | (s, Ok a) => f a s
  | (s, Err e) => (s, Err e)
  | (s, Panic) => (s, Panic)
  end.

Definition st_get {S E} : St S E S := λ s, (s, Ok s).
Definition st_modify {S E} (f : S → S) : St S E () := λ s, (f s, Ok ()).
Definition st_lift {S E A} (r : res E A) : St S E A := λ s, (s, r).
Definition st_panic {S E A} : St S E A := st_lift Panic.
Definition st_when {S E} (b : bool) (m : St S E ()) : St S E () := if b then m else mret ().

(** The outcome of [m] as a value, for [match m { .. }]; panics propagate. *)
Definition st_try {S E A} (m : St S E A) : St S E (A + E) := λ s,
  match m s with
  | (s, Ok a) => (s, Ok (inl a))
  | (s, Err e) => (s, Ok (inr e))
  | (s, Panic) => (s, Panic)
  end.

(** [for x in l { f(x) }]. *)
Fixpoint st_for {S E A} (l : list A) (f : A → St S E ()) : St S E () :=
  match l with
  | [] => mret ()
  | x :: l => _ ← f x; st_for l f
  end.

(** ** Automation *)
Create HintDb kompact.

Lemma bind_Ok {E A B} (f : A → res E B) (m : res E A) b :
  m ≫= f = Ok b ↔ ∃ a, m = Ok a ∧ f a = Ok b.
Proof. destruct m; naive_solver. Qed.

Lemma bind_ret_l {E A B} (f : A → res E B) a : (Ok a : res E A) ≫= f = f a.
Proof. done. Qed.

Lemma csub_Ok {E} a b : b ≤ a → csub (E:=E) a b = Ok (a - b).
Proof. intros. unfold csub. by rewrite decide_True. Qed.

Lemma csub_Panic {E} a b : a < b → csub (E:=E) a b = Panic.
Proof. intros. unfold csub. rewrite decide_False; [done|lia]. Qed.

Lemma assert_true {E} : assert_ (E:=E) true = Ok ().
Proof. done. Qed.

#[export] Hint Rewrite @bind_ret_l @assert_true : kompact.
#[export] Hint Rewrite @csub_Ok using lia : kompact.

(** Step through a definition in the outcome monad: inverts every successful
    bind of a hypothesis. *)
Ltac inv_ok :=
  repeat match goal with
  | H : _ ≫= _ = Ok _ |- _ =>
      apply bind_Ok in H; destruct H as (? & ? & H)
  | H : Ok _ = Ok _ |- _ => injection H as H; try subst
  | H : mret _ = Ok _ |- _ => injection H as H; try subst
  | H : Ok _ = Err _ |- _ => discriminate H
  | H : Err _ = Ok _ |- _ => discriminate H
  | H : Panic = Ok _ |- _ => discriminate H
  | H : (let '(_, _) := ?p in _) = Ok _ |- _ => destruct p eqn:?
  end.

Lemma for_each_app {E A S} (l1 l2 : list A) (f : A → S → res E S) s :
  for_each (l1 ++ l2) f s = (s' ← for_each l1 f s; for_each l2 f s').
Proof.
  revert s. induction l1 as [|x l1 IH]; intros s; simpl; [done|].
  destruct (f x s); simpl; auto.
Qed.

(** Loop rule: an invariant indexed by the part of the list already visited
    that every body step re-establishes holds of the result, and the loop
    neither fails nor panics. *)
Lemma for_each_inv {E A S} (I : list A → S → Prop) (f : A → S → res E S) l s :
  I [] s →
  (∀ done x rest s, l = done ++ x :: rest → I done s →
     ∃ s', f x s = Ok s' ∧ I (done ++ [x]) s') →
  ∃ s', for_each l f s = Ok s' ∧ I l s'.
Proof.
  intros H0 Hstep.
  cut (∀ rest done s, l = done ++ rest → I done s →
         ∃ s', for_each rest f s = Ok s' ∧ I l s').
  { intros H. by apply (H l []). }
  induction rest as [|x rest IH]; intros dn s0 Hl HI; simpl.
  - rewrite app_nil_r in Hl. subst. eauto.
  - destruct (Hstep dn x rest s0 Hl HI) as (s1 & -> & HI1). simpl.
    apply (IH (dn ++ [x])); [|done]. by rewrite <-app_assoc.
Qed.

(** ** Relations that stateful code respects

    [respects R m]: unless it panics, [m] leads from a state to one related to it
    by [R].  For a preorder this is preserved by the control structures. *)
Definition respects {S E A} (R : S → S → Prop) (m : St S E A) : Prop := ∀ s, (m s).2 ≠ Panic → R s (m s).1.

Lemma st_bind_Ok {S E A A'} (m : St S E A) (f : A → St S E A') s b : ((m ≫= f) s).2 = Ok b →
  ∃ s1 a, m s = (s1, Ok a) ∧ (m ≫= f) s = f a s1.
Proof. unfold mbind, st_bind. destruct (m s) as [s1 [a|e|]]; cbn; try done. eauto. Qed.

Section Respects.
Context {S E : Type} (R : S → S → Prop) `{!PreOrder R}.

Lemma respects_ret {A} (a : A) : respects R (mret a : St S E A).
Proof using PreOrder0. intros s _. cbn. reflexivity. Qed.

Lemma respects_get : respects R (st_get : St S E S).
Proof using PreOrder0. intros s _. cbn. reflexivity. Qed.

Lemma respects_lift {A} (r : res E A) : respects R (st_lift r).
Proof using PreOrder0. intros s _. cbn. reflexivity. Qed.

Lemma respects_modify (f : S → S) : (∀ s, R s (f s)) → respects R (st_modify f : St S E ()).
Proof using Type. intros Hf s _. apply Hf. Qed.

Lemma respects_panic {A} : respects R (st_panic : St S E A).
Proof using PreOrder0. apply respects_lift. Qed.

Lemma respects_bind {A A'} (m : St S E A) (f : A → St S E A') :
  respects R m → (∀ a, respects R (f a)) → respects R (m ≫= f).
Proof using PreOrder0.
  intros Hm Hf s Hp. specialize (Hm s). unfold mbind, st_bind in *. destruct (m s) as [s1 [a|e|]]; cbn in *; try done.
  - etrans; [by apply Hm|]. by apply Hf.
  - by apply Hm.
Qed.

Lemma respects_try {A} (m : St S E A) : respects R m → respects R (st_try m).
Proof using Type.
  intros Hm s Hp. specialize (Hm s). unfold st_try in *. destruct (m s) as [s1 [a|e|]]; cbn in *; try done; by apply Hm.
Qed.

Lemma respects_when b (m : St S E ()) : respects R m → respects R (st_when b m).
Proof using PreOrder0. intros Hm. destruct b; [done|]. apply respects_ret. Qed.

Lemma respects_for {A} (l : list A) (f : A → St S E ()) : (∀ a, respects R (f a)) → respects R (st_for l f).
Proof using PreOrder0.
  intros Hf. induction l as [|x l IH]; cbn [st_for]; [apply respects_ret|]. by apply respects_bind.
Qed.
End Respects.

(** Decompose a piece of stateful code; what remains are its basic operations. *)
Ltac respects :=
  repeat first
    [ progress intros
    | solve [eauto 2 with kompact]
    | apply respects_ret; exact _ | apply respects_get; exact _ | apply respects_panic; exact _ | apply respects_lift; exact _
    | apply respects_bind; [exact _| |] | apply respects_try | apply respects_when; [exact _|] | apply respects_for; [exact _|]
    | match goal with |- respects _ (match ?x with _ => _ end) => destruct x end
    | match goal with |- respects _ (let '_ := ?x in _) => destruct x end ].

(** ** Machine integers *)
Definition wrap (w : Z) (z : Z) : Z := z mod 2 ^ w.
Abbreviation byte := Z (only parsing).
Definition is_byte (b : Z) : Prop := (0 ≤ b < 256)%Z.
Definition in_u (w z : Z) : Prop := (0 ≤ z < 2 ^ w)%Z.

Lemma wrap_small w z : in_u w z → wrap w z = z.
Proof. unfold in_u, wrap. intros. by apply Z.mod_small. Qed.

Lemma wrap_in_u w z : (0 ≤ w)%Z → in_u w (wrap w z).
Proof. unfold in_u, wrap. intros. apply Z.mod_pos_bound. apply Z.pow_pos_nonneg; lia. Qed.

(** ** Big-endian integers

    Reference functions for the network byte order used by every encoder. *)
Fixpoint be_bytes (n : nat) (v : Z) : list byte :=
  match n with
  | O => []
  | S n => ((v / 256 ^ Z.of_nat n) mod 256)%Z :: be_bytes n v
  end.

Definition be_value (bs : list byte) : Z := foldl (λ acc b, acc * 256 + b)%Z 0%Z bs.

Lemma length_be_bytes n v : length (be_bytes n v) = n.
Proof. induction n; simpl; auto. Qed.

Lemma be_bytes_is_byte n v : Forall is_byte (be_bytes n v).
Proof. induction n; simpl; constructor; auto. unfold is_byte. apply Z.mod_pos_bound. lia. Qed.

Lemma be_value_acc bs acc :
  foldl (λ acc b, acc * 256 + b)%Z acc bs
  = (acc * 256 ^ Z.of_nat (length bs) + be_value bs)%Z.
Proof.
  unfold be_value. revert acc. induction bs as [|b bs IH]; intros acc.
  - simpl. lia.
  - cbn [foldl length]. rewrite (IH (acc * 256 + b)%Z), (IH (0 * 256 + b)%Z).
    rewrite Nat2Z.inj_succ, Z.pow_succ_r by lia. ring.
Qed.

Lemma be_value_cons b bs :
  be_value (b :: bs) = (b * 256 ^ Z.of_nat (length bs) + be_value bs)%Z.
Proof. unfold be_value at 1. cbn [foldl]. rewrite be_value_acc. lia. Qed.

Lemma be_value_be_bytes n v :
  (be_value (be_bytes n v) = v mod 256 ^ Z.of_nat n)%Z.
Proof.
  induction n as [|n IH]; [cbn; by rewrite Z.mod_1_r|].
  cbn [be_bytes]. rewrite be_value_cons, IH, length_be_bytes, Nat2Z.inj_succ.
  rewrite Z.pow_succ_r by lia. set (p := (256 ^ Z.of_nat n)%Z).
  assert (0 < p)%Z by (subst p; apply Z.pow_pos_nonneg; lia).
  rewrite (Z.mul_comm 256 p), Z.rem_mul_r by lia. lia.
Qed.

(** The big-endian round trip for a value of [n] bytes. *)
Lemma be_round_trip n v :
  (0 ≤ v < 256 ^ Z.of_nat n)%Z → be_value (be_bytes n v) = v.
Proof. intros. rewrite be_value_be_bytes. by apply Z.mod_small. Qed.

Lemma be_value_bound bs :
  Forall is_byte bs → (0 ≤ be_value bs < 256 ^ Z.of_nat (length bs))%Z.
Proof.
  induction 1 as [|b bs Hb _ IH]; [by cbn|].
  rewrite be_value_cons. cbn [length]. rewrite Nat2Z.inj_succ, Z.pow_succ_r by lia.
  unfold is_byte in Hb. nia.
Qed.

(** ** Strings *)
Lemma string_app_cons a s t : String a s +:+ t = String a (s +:+ t).
Proof. done. Qed.
Lemma string_app_nil_r s : s +:+ "" = s.
Proof. induction s as [|a s IH]; [done|]. by rewrite string_app_cons, IH. Qed.
Lemma string_app_assoc s t u : s +:+ (t +:+ u) = (s +:+ t) +:+ u.
Proof. induction s as [|a s IH]; [done|]. by rewrite !string_app_cons, IH. Qed.

(** ** List helpers *)
Lemma take_app_length_eq {A} (l1 l2 : list A) n :
  n = length l1 → take n (l1 ++ l2) = l1.
Proof. intros ->. apply take_app_length. Qed.

Lemma drop_app_length_eq {A} (l1 l2 : list A) n :
  n = length l1 → drop n (l1 ++ l2) = l2.
Proof. intros ->. apply drop_app_length. Qed.
