(* ===== verification/Bitfields.v ===== *)
(** * Sub-byte bit fields

    Model of [core/src/messaging/bitfields.rs]: the bit-twiddling helpers on a
    [u8] and the [BitFieldExt] trait for byte slices.  A [u8] is a [Z] in
    [0, 256); a slice is a [list Z]; shifts by eight or more positions panic,
    as the source documents. *)

From S2P Require Import Prelude.

(** Errors that can occur when assembling bit fields. *)
Inductive Error := Overflow | TryFromErr.

#[global] Instance Error_eq_dec : EqDecision Error.
Proof. solve_decision. Defined.

Definition BITS_PER_BYTE : nat := 8.

Section bit_twiddles.
Context {E : Type}.

Definition byte_bit_offset (idx : nat) : nat * nat :=
  (idx / BITS_PER_BYTE, idx mod BITS_PER_BYTE).

(** A shift of a [u8] by [pos] positions panics unless [pos < 8]. *)
Definition shift_ok (pos : nat) : res E () := assert_ (bool_decide (pos < 8)).

Definition get_bit (target : byte) (pos : nat) : res E byte :=
  _ ← shift_ok pos;
  Ok (Z.land (Z.shiftr target (Z.of_nat pos)) 1).

Definition test_bit (target : byte) (pos : nat) : res E bool :=
  b ← get_bit target pos; Ok (bool_decide (b = 1%Z)).

(** [u8] shift left, dropping the bits beyond the eighth. *)
Definition shl8 (v : byte) (pos : nat) : byte := wrap 8 (Z.shiftl v (Z.of_nat pos)).
(** [u8] complement. *)
Definition not8 (v : byte) : byte := Z.lxor v 255.

Definition set_bit (target : byte) (pos : nat) : res E byte :=
  _ ← shift_ok pos; Ok (Z.lor target (shl8 1 pos)).

Definition set_bit_to (target : byte) (pos : nat) (val : byte) : res E byte :=
  _ ← shift_ok pos;
  Ok (Z.lor (Z.land target (not8 (shl8 1 pos))) (shl8 val pos)).

Definition unset_bit (target : byte) (pos : nat) : res E byte :=
  _ ← shift_ok pos; Ok (Z.land target (not8 (shl8 1 pos))).

Definition toggle_bit (target : byte) (pos : nat) : res E byte :=
  _ ← shift_ok pos; Ok (Z.lxor target (shl8 1 pos)).
End bit_twiddles.

(** The [BitField] trait, with the [Into<u8>] and [TryFrom<u8>] bounds that
    [store] and [get_as] ask of the field type. *)
Class BitField (Field : Type) := {
  POS : nat;
  WIDTH : nat;
  into_u8 : Field → byte;
  try_from_u8 : byte → option Field;
}.
Arguments POS Field {_}.
Arguments WIDTH Field {_}.

Section BitFieldExt.
Context (Field : Type) {BF : BitField Field}.

Definition check_field (self : list byte) : res Error () :=
  if decide (BITS_PER_BYTE < WIDTH Field) then Err Overflow
  else
    let supported_bits := BITS_PER_BYTE * length self in
    if decide (supported_bits < POS Field + WIDTH Field) then Err Overflow
    else Ok ().

(** One iteration of the loop of [store]. *)
Definition store_bit (repr : byte) (i : nat) (self : list byte) : res Error (list byte) :=
  let idx := POS Field + i in
  let byte := idx / 8 in
  let bit := idx mod 8 in
  old ← unwrap (self !! byte);
  v ← get_bit repr i;
  new ← set_bit_to old bit v;
  Ok (<[byte := new]> self).

Definition store (self : list byte) (field : Field) : res Error (list byte) :=
  _ ← check_field self;
  let repr := into_u8 field in
  for_each (seq 0 (WIDTH Field)) (store_bit repr) self.

(** One iteration of the loop of [get_as]. *)
Definition get_bit_into (self : list byte) (i : nat) (repr : byte) : res Error byte :=
  let idx := POS Field + i in
  let byte := idx / 8 in
  let bit := idx mod 8 in
  b ← unwrap (self !! byte);
  v ← get_bit b bit;
  set_bit_to repr i v.

Definition get_as (self : list byte) : res Error Field :=
  _ ← check_field self;
  repr ← for_each (seq 0 (WIDTH Field)) (get_bit_into self) 0%Z;
  ok_or TryFromErr (try_from_u8 repr).
End BitFieldExt.

(** ** Reference view: a slice is a sequence of bits *)
Definition bit_of (self : list byte) (k : nat) : bool :=
  Z.testbit (default 0%Z (self !! (k / 8))) (Z.of_nat (k mod 8)).

(** ** Lemmas on bytes *)
Lemma testbit_byte_high b k : is_byte b → (8 ≤ k)%Z → Z.testbit b k = false.
Proof.
  intros [? ?] ?. destruct (decide (b = 0%Z)) as [->|]; [by rewrite Z.testbit_0_l|].
  apply Z.bits_above_log2; [lia|]. assert (Z.log2 b < 8)%Z; [|lia].
  apply Z.log2_lt_pow2; lia.
Qed.

Lemma byte_of_bits b : (0 ≤ b)%Z → (∀ k, (8 ≤ k)%Z → Z.testbit b k = false) → is_byte b.
Proof.
  intros H0 H. split; [done|]. destruct (decide (b = 0%Z)) as [->|]; [lia|].
  change 256%Z with (2 ^ 8)%Z. apply Z.log2_lt_pow2; [lia|].
  destruct (decide (Z.log2 b < 8)%Z); [done|].
  pose proof (Z.bit_log2 b ltac:(lia)) as Hb. rewrite H in Hb; [done|lia].
Qed.

Lemma get_bit_spec {E} t p :
  p < 8 → get_bit (E:=E) t p = Ok (Z.b2z (Z.testbit t (Z.of_nat p))).
Proof.
  intros. unfold get_bit, shift_ok. rewrite bool_decide_true by done. simpl. f_equal.
  change 1%Z with (Z.ones 1). rewrite Z.land_ones by lia.
  rewrite <-Z.bit0_mod, Z.shiftr_spec by lia. done.
Qed.

Lemma testbit_b2z b k : Z.testbit (Z.b2z b) k = b && bool_decide (k = 0%Z).
Proof.
  destruct (decide (k = 0%Z)) as [->|?].
  - rewrite bool_decide_true by done. rewrite Z.b2z_bit0. by destruct b.
  - rewrite bool_decide_false by done. rewrite andb_false_r.
    destruct (decide (k < 0)%Z); [by apply Z.testbit_neg_r|].
    destruct b; [apply Z.bits_above_log2; cbn; lia|apply Z.testbit_0_l].
Qed.

Lemma testbit_shl8 v p k :
  (0 ≤ k)%Z →
  Z.testbit (shl8 v p) k = bool_decide (k < 8)%Z && Z.testbit v (k - Z.of_nat p).
Proof.
  intros. unfold shl8, wrap. destruct (decide (k < 8)%Z).
  - rewrite bool_decide_true by done. rewrite Z.mod_pow2_bits_low by lia.
    by rewrite Z.shiftl_spec by lia.
  - rewrite bool_decide_false by done. by rewrite Z.mod_pow2_bits_high by lia.
Qed.

Lemma testbit_not8 v k :
  (0 ≤ k)%Z → Z.testbit (not8 v) k = xorb (Z.testbit v k) (bool_decide (k < 8)%Z).
Proof.
  intros. unfold not8. rewrite Z.lxor_spec. f_equal. change 255%Z with (Z.ones 8).
  destruct (decide (k < 8)%Z).
  - rewrite bool_decide_true by done. by rewrite Z.ones_spec_low by lia.
  - rewrite bool_decide_false by done. by rewrite Z.ones_spec_high by lia.
Qed.

(** Writing one bit changes that bit and no other. *)
Lemma set_bit_to_spec {E} t p b :
  p < 8 → is_byte t →
  ∃ t', set_bit_to (E:=E) t p (Z.b2z b) = Ok t' ∧ is_byte t' ∧
    ∀ k, (0 ≤ k)%Z →
      Z.testbit t' k = if decide (k = Z.of_nat p) then b else Z.testbit t k.
Proof.
  intros Hp Ht. unfold set_bit_to, shift_ok. rewrite bool_decide_true by done. simpl.
  eexists; split; [done|].
  assert (Hbits : ∀ k, (0 ≤ k)%Z →
    Z.testbit (Z.lor (Z.land t (not8 (shl8 1 p))) (shl8 (Z.b2z b) p)) k
    = if decide (k = Z.of_nat p) then b else Z.testbit t k).
  { intros k Hk. rewrite Z.lor_spec, Z.land_spec, testbit_not8, !testbit_shl8 by done.
    change 1%Z with (Z.b2z true). rewrite !testbit_b2z. case_decide as Hkp.
    - subst k. rewrite !bool_decide_true by lia. simpl.
      by rewrite andb_false_r, andb_true_r.
    - rewrite (bool_decide_false (k - Z.of_nat p = 0)%Z) by lia.
      rewrite !andb_false_r, orb_false_r. destruct (decide (k < 8)%Z).
      + rewrite bool_decide_true by done. simpl. by rewrite andb_true_r.
      + rewrite (testbit_byte_high t k) by (done || lia). done. }
  split; [|done]. apply byte_of_bits.
  - apply Z.lor_nonneg. split; [apply Z.land_nonneg; left; apply Ht|].
    unfold shl8. by apply (wrap_in_u 8).
  - intros k Hk. rewrite Hbits by lia. rewrite decide_False by lia.
    apply testbit_byte_high; [done|lia].
Qed.

Lemma bytes_lookup s i :
  Forall is_byte s → i < length s → ∃ b, s !! i = Some b ∧ is_byte b.
Proof.
  intros Hs Hi. destruct (lookup_lt_is_Some_2 s i Hi) as [b Hb].
  exists b. split; [done|]. by eapply Forall_lookup_1.
Qed.

Lemma div8_mod8 a b : a = b ↔ a / 8 = b / 8 ∧ a mod 8 = b mod 8.
Proof.
  split; [by intros ->|]. intros [? ?].
  rewrite (Nat.div_mod_eq a 8), (Nat.div_mod_eq b 8). lia.
Qed.

Section field_lemmas.
Context (Field : Type) {BF : BitField Field}.

Definition fits (s : list byte) : Prop :=
  WIDTH Field ≤ 8 ∧ POS Field + WIDTH Field ≤ 8 * length s.

Lemma check_field_Ok s : fits s → check_field Field s = Ok ().
Proof.
  intros [? ?]. unfold check_field, BITS_PER_BYTE.
  by rewrite !decide_False by lia.
Qed.

Lemma check_field_Err s : ¬ fits s → check_field Field s = Err Overflow.
Proof.
  unfold fits, check_field, BITS_PER_BYTE. intros.
  repeat case_decide; try done. exfalso. lia.
Qed.

Lemma store_bit_spec repr i s :
  fits s → i < WIDTH Field → Forall is_byte s →
  ∃ s', store_bit Field repr i s = Ok s' ∧ length s' = length s ∧ Forall is_byte s' ∧
    ∀ k, k < 8 * length s →
      bit_of s' k = if decide (k = POS Field + i) then Z.testbit repr (Z.of_nat i)
                    else bit_of s k.
Proof.
  intros [Hw Hp] Hi Hs. unfold store_bit.
  set (idx := POS Field + i).
  assert (Hb : idx / 8 < length s) by (apply Nat.Div0.div_lt_upper_bound; lia).
  destruct (bytes_lookup s (idx / 8) Hs Hb) as (old & Hold & Hbo).
  rewrite Hold. cbn [unwrap mbind res_bind]. rewrite get_bit_spec by lia. cbn [mbind res_bind].
  destruct (set_bit_to_spec (E:=Error) old (idx mod 8) (Z.testbit repr (Z.of_nat i)))
    as (new & -> & Hbn & Hnew); [apply Nat.mod_upper_bound; lia|done|].
  cbn [mbind res_bind]. eexists; split; [done|]. rewrite length_insert. split; [done|].
  split; [by apply Forall_insert|]. intros k Hk. unfold bit_of.
  destruct (decide (k / 8 = idx / 8)) as [Heq|Hne].
  - rewrite Heq, list_lookup_insert_eq by done. rewrite Hold. simpl. rewrite Hnew by lia.
    destruct (decide (k = idx)) as [->|Hk']; [by rewrite decide_True|].
    rewrite decide_False; [done|]. intros Hm%Nat2Z.inj. by apply Hk', div8_mod8.
  - rewrite list_lookup_insert_ne by done. rewrite decide_False; [done|].
    intros ->. done.
Qed.

Definition in_field (k : nat) : Prop := POS Field ≤ k < POS Field + WIDTH Field.
#[global] Instance in_field_dec k : Decision (in_field k).
Proof. unfold in_field. apply _. Defined.

(** [store] succeeds on a slice that is wide enough; it replaces exactly the
    bits of the field by those of the representation. *)
Lemma store_spec s f :
  fits s → Forall is_byte s →
  ∃ s', store Field s f = Ok s' ∧ length s' = length s ∧ Forall is_byte s' ∧
    ∀ k, k < 8 * length s →
      bit_of s' k = if decide (in_field k)
                    then Z.testbit (into_u8 f) (Z.of_nat (k - POS Field))
                    else bit_of s k.
Proof.
  intros Hf Hs. unfold store. rewrite check_field_Ok by done. cbn [mbind res_bind].
  destruct (for_each_inv (E:=Error) (λ dn s',
    length s' = length s ∧ Forall is_byte s' ∧ ∀ k, k < 8 * length s →
      bit_of s' k = if decide (POS Field ≤ k < POS Field + length dn)
                    then Z.testbit (into_u8 f) (Z.of_nat (k - POS Field))
                    else bit_of s k) (store_bit Field (into_u8 f))
    (seq 0 (WIDTH Field)) s) as (s' & Hs' & Hl & Hb & Hk).
  - split; [done|]. split; [done|]. intros k _. simpl. rewrite decide_False by lia. done.
  - intros dn x rest s0 Hseq (Hl & Hb & Hk).
    assert (x = length dn ∧ length dn < WIDTH Field) as [Hx ?].
    { assert (seq 0 (WIDTH Field) !! length dn = Some x) as Hlk.
      { rewrite Hseq. by apply list_lookup_middle. }
      apply lookup_seq in Hlk. lia. }
    destruct (store_bit_spec (into_u8 f) x s0) as (s1 & Hs1 & Hl1 & Hb1 & Hk1);
      [unfold fits in *; by rewrite Hl|lia|done|].
    exists s1. split; [done|]. split; [congruence|]. split; [done|].
    intros k Hlt. rewrite Hk1 by lia. rewrite length_app. simpl.
    case_decide as Hkx.
    + rewrite decide_True by lia. f_equal. lia.
    + rewrite Hk by done. repeat case_decide; try done; lia.
  - exists s'. rewrite length_seq in Hk. unfold in_field. eauto.
Qed.

(** The loop of [get_as] assembles the bits of the field, lowest first. *)
Lemma get_bits_spec s :
  fits s → Forall is_byte s →
  ∃ repr, for_each (seq 0 (WIDTH Field)) (get_bit_into Field s) 0%Z = Ok repr ∧
    is_byte repr ∧
    ∀ k, (0 ≤ k)%Z → Z.testbit repr k =
      bool_decide (k < Z.of_nat (WIDTH Field))%Z && bit_of s (POS Field + Z.to_nat k).
Proof.
  intros [Hw Hp] Hs.
  destruct (for_each_inv (E:=Error) (λ dn repr,
    is_byte repr ∧ ∀ k, (0 ≤ k)%Z → Z.testbit repr k =
      bool_decide (k < Z.of_nat (length dn))%Z && bit_of s (POS Field + Z.to_nat k))
    (get_bit_into Field s) (seq 0 (WIDTH Field)) 0%Z) as (r & Hr & Hb & Hk).
  - split; [unfold is_byte; lia|]. intros k Hk. rewrite Z.testbit_0_l.
    by rewrite bool_decide_false by (simpl; lia).
  - intros dn x rest r Hseq (Hb & Hk).
    assert (x = length dn ∧ length dn < WIDTH Field) as [-> ?].
    { assert (seq 0 (WIDTH Field) !! length dn = Some x) as Hlk.
      { rewrite Hseq. by apply list_lookup_middle. }
      apply lookup_seq in Hlk. lia. }
    unfold get_bit_into. set (idx := POS Field + length dn).
    assert (Hlt : idx / 8 < length s) by (apply Nat.Div0.div_lt_upper_bound; lia).
    destruct (bytes_lookup s (idx / 8) Hs Hlt) as (b & Hlk & Hbb).
    rewrite Hlk. cbn [unwrap mbind res_bind].
    rewrite get_bit_spec by (apply Nat.mod_upper_bound; lia). cbn [mbind res_bind].
    destruct (set_bit_to_spec (E:=Error) r (length dn) (Z.testbit b (Z.of_nat (idx mod 8))))
      as (r' & Hr' & Hb' & Hk'); [lia|done|].
    exists r'. split; [done|]. split; [done|]. intros k Hk0. rewrite Hk' by done.
    rewrite length_app. simpl. case_decide as Hkd.
    + subst k. rewrite bool_decide_true by lia. simpl. rewrite Nat2Z.id.
      unfold bit_of. fold idx. by rewrite Hlk.
    + rewrite Hk by done. f_equal. apply bool_decide_ext. lia.
  - exists r. rewrite length_seq in Hk. eauto.
Qed.
End field_lemmas.

(** Two assembled representations with the same field bits are equal. *)
Lemma get_as_ext (G : Type) {BG : BitField G} s s' :
  fits G s → fits G s' → Forall is_byte s → Forall is_byte s' →
  (∀ k, in_field G k → bit_of s k = bit_of s' k) →
  get_as G s = get_as G s'.
Proof.
  intros Hf Hf' Hs Hs' Hbits. unfold get_as.
  rewrite !check_field_Ok by done. cbn [mbind res_bind].
  destruct (get_bits_spec G s Hf Hs) as (r & -> & [? _] & Hr).
  destruct (get_bits_spec G s' Hf' Hs') as (r' & -> & [? _] & Hr').
  cbn [mbind res_bind]. do 2 f_equal. apply Z.bits_inj'. intros k Hk.
  rewrite Hr, Hr' by done. destruct (decide (k < Z.of_nat (WIDTH G))%Z).
  - rewrite bool_decide_true by done. simpl. apply Hbits. unfold in_field. lia.
  - by rewrite bool_decide_false.
Qed.

(** The representation read back right after a store is the stored one. *)
Lemma get_as_store (F : Type) {BF : BitField F} s s' f :
  fits F s → Forall is_byte s → in_u (Z.of_nat (WIDTH F)) (into_u8 f) →
  store F s f = Ok s' → get_as F s' = ok_or TryFromErr (try_from_u8 (into_u8 f)).
Proof.
  intros Hf Hs Hr Hst.
  destruct (store_spec F s f Hf Hs) as (s1 & Hs1 & Hl & Hb & Hk).
  assert (s1 = s') as -> by congruence.
  assert (Hf' : fits F s') by (unfold fits in *; by rewrite Hl).
  unfold get_as. rewrite check_field_Ok by done. cbn [mbind res_bind].
  destruct (get_bits_spec F s' Hf' Hb) as (r & -> & [? _] & Hbits).
  cbn [mbind res_bind]. do 2 f_equal. apply Z.bits_inj'. intros k Hk0.
  rewrite Hbits by done. destruct Hf as [Hw Hp]. unfold in_u in Hr.
  destruct (decide (k < Z.of_nat (WIDTH F))%Z).
  - rewrite bool_decide_true by done. simpl. rewrite Hk by lia.
    rewrite decide_True by (unfold in_field; lia). f_equal. lia.
  - rewrite bool_decide_false by done. simpl. symmetry.
    destruct (decide (into_u8 f = 0%Z)) as [->|]; [apply Z.testbit_0_l|].
    apply Z.bits_above_log2; [lia|].
    assert (Z.log2 (into_u8 f) < Z.of_nat (WIDTH F))%Z; [|lia].
    apply Z.log2_lt_pow2; lia.
Qed.

(** ** Properties *)

(** storing a field and reading it back returns the field, for every slice
    that has room for it and every field whose representation fits its
    declared width and is accepted by its own [TryFrom]. *)
Theorem store_get_as (F : Type) {BF : BitField F} (s : list byte) (f : F) :
  fits F s → Forall is_byte s →
  in_u (Z.of_nat (WIDTH F)) (into_u8 f) → try_from_u8 (into_u8 f) = Some f →
  ∃ s', store F s f = Ok s' ∧ length s' = length s ∧ get_as F s' = Ok f.
Proof.
  intros Hf Hs Hr Ht.
  destruct (store_spec F s f Hf Hs) as (s' & Hst & Hl & _ & _).
  exists s'. split; [done|]. split; [done|].
  by rewrite (get_as_store F s s' f), Ht by done.
Qed.

(** a store into one field leaves every field at disjoint bit positions
    readable with the value it had. *)
Theorem store_disjoint (F G : Type) {BF : BitField F} {BG : BitField G}
    (s s' : list byte) (f : F) :
  fits G s → Forall is_byte s →
  (POS F + WIDTH F ≤ POS G ∨ POS G + WIDTH G ≤ POS F) →
  store F s f = Ok s' → get_as G s' = get_as G s.
Proof.
  intros HG Hs Hd Hst.
  destruct (decide (fits F s)) as [HF|HF].
  2:{ unfold store in Hst. rewrite check_field_Err in Hst by done. done. }
  destruct (store_spec F s f HF Hs) as (s1 & Hs1 & Hl & Hb & Hk).
  assert (s1 = s') as -> by congruence.
  apply get_as_ext; try done; [unfold fits in *; by rewrite Hl|].
  intros k Hin. unfold in_field in *. destruct HG. rewrite Hk by lia.
  rewrite decide_False; [done|]. unfold in_field. lia.
Qed.

(** on a slice of bytes, [store] and [get_as] never panic: they report
    [Overflow] exactly when the field is wider than a byte or does not fit the
    slice, and otherwise [store] succeeds and [get_as] succeeds or reports a
    failed conversion. *)
Theorem bitfield_outcomes (F : Type) {BF : BitField F} (s : list byte) (f : F) :
  Forall is_byte s →
  (store F s f = Err Overflow ↔ ¬ fits F s) ∧
  (get_as F s = Err Overflow ↔ ¬ fits F s) ∧
  (fits F s → ∃ s', store F s f = Ok s') ∧
  (fits F s → ∃ r, get_as F s = ok_or TryFromErr (try_from_u8 r)).
Proof.
  intros Hs. destruct (decide (fits F s)) as [HF|HF].
  - destruct (store_spec F s f HF Hs) as (s' & Hst & _).
    destruct (get_bits_spec F s HF Hs) as (r & Hr & _).
    assert (Hg : get_as F s = ok_or TryFromErr (try_from_u8 r)).
    { unfold get_as. rewrite check_field_Ok by done. cbn [mbind res_bind].
      by rewrite Hr. }
    rewrite Hst, Hg. split_and!; eauto.
    + split; [done|]. by intros [].
    + split; [by destruct (try_from_u8 r)|]. by intros [].
  - unfold store, get_as. rewrite check_field_Err by done.
    split_and!; try done; by intros []%HF.
Qed.
