(* ===== verification/Extern.v ===== *)
(** * Interfaces to code outside the repository

    The [bytes] and [uuid] crates are not part of the repository.  What the
    sources rely on is stated here as two type classes whose laws are the
    documented behaviour of those crates; every component is parameterised by
    them, and [be_bytes_api] and [uuid128_api] show that both can be inhabited.
    The network addresses of the Rust standard library are modelled directly. *)

From S2P Require Import Prelude.

(** ** Integer accessors of [bytes::Buf] and [bytes::BufMut]

    [put_uint n v] are the bytes that [put_u8], [put_u16], [put_u32], [put_u128]
    ([n] = 1, 2, 4, 16) append; [get_uint n bs] is the integer the matching
    [get_*] reads from [n] bytes.  Both are documented as big-endian. *)
Class BytesApi := {
  put_uint : nat → Z → list byte;
  get_uint : nat → list byte → Z;
  put_uint_be : ∀ n v, put_uint n v = be_bytes n v;
  get_uint_be : ∀ n bs, length bs = n → get_uint n bs = be_value bs;
}.

#[global] Instance be_bytes_api : BytesApi := {
  put_uint := be_bytes;
  get_uint := λ _, be_value;
  put_uint_be := λ _ _, eq_refl;
  get_uint_be := λ _ _ _, eq_refl;
}.

Section buf.
Context {B : BytesApi} {E : Type}.

(** [Buf::get_uN]: panics when fewer than [n] bytes remain. *)
Definition get_int (n : nat) (buf : list byte) : res E (Z * list byte) :=
  if decide (length buf < n) then Panic
  else Ok (get_uint n (take n buf), drop n buf).

(** [Buf::copy_to_slice] into an array of length [n]. *)
Definition copy_to_slice (n : nat) (buf : list byte) : res E (list byte * list byte) :=
  if decide (length buf < n) then Panic else Ok (take n buf, drop n buf).

Lemma get_int_put n v rest :
  (0 ≤ v < 256 ^ Z.of_nat n)%Z → get_int n (put_uint n v ++ rest) = Ok (v, rest).
Proof.
  intros. unfold get_int. rewrite put_uint_be.
  rewrite decide_False by (rewrite length_app, length_be_bytes; lia).
  rewrite take_app_length_eq, drop_app_length_eq by (by rewrite length_be_bytes).
  rewrite get_uint_be by apply length_be_bytes. by rewrite be_round_trip.
Qed.

Lemma get_int_be n v rest :
  (0 ≤ v < 256 ^ Z.of_nat n)%Z → get_int n (be_bytes n v ++ rest) = Ok (v, rest).
Proof. intros. rewrite <-put_uint_be. by apply get_int_put. Qed.

Lemma copy_to_slice_app n bs rest :
  length bs = n → copy_to_slice n (bs ++ rest) = Ok (bs, rest).
Proof.
  intros. unfold copy_to_slice. rewrite decide_False by (rewrite length_app; lia).
  by rewrite take_app_length_eq, drop_app_length_eq.
Qed.

Lemma get_int_short n buf : length buf < n → get_int n buf = Panic.
Proof. intros. unfold get_int. by rewrite decide_True. Qed.
End buf.

Lemma length_put_uint {B : BytesApi} n v : length (put_uint n v) = n.
Proof. rewrite put_uint_be. apply length_be_bytes. Qed.

(** ** The [uuid] crate

    A [Uuid] is an opaque 128-bit identifier with lossless conversions to
    sixteen bytes and to a [u128]. *)
Class UuidApi := {
  Uuid : Type;
  Uuid_eq_dec :: EqDecision Uuid;
  Uuid_countable :: Countable Uuid;
  uuid_as_bytes : Uuid → list byte;
  uuid_from_bytes : list byte → Uuid;
  uuid_as_u128 : Uuid → Z;
  uuid_from_u128 : Z → Uuid;
  uuid_as_bytes_len : ∀ u, length (uuid_as_bytes u) = 16;
  uuid_from_as_bytes : ∀ u, uuid_from_bytes (uuid_as_bytes u) = u;
  uuid_as_u128_range : ∀ u, in_u 128 (uuid_as_u128 u);
  uuid_from_as_u128 : ∀ u, uuid_from_u128 (uuid_as_u128 u) = u;
}.

(** A concrete [Uuid]: a number below [2^128]. *)
Definition uuid128 : Type := dsig (in_u 128).

#[global] Instance in_u_dec w z : Decision (in_u w z).
Proof. unfold in_u. apply _. Defined.

Definition mk_uuid128 (z : Z) : uuid128 :=
  dexist (wrap 128 z) (wrap_in_u 128 z ltac:(lia)).

Lemma mk_uuid128_proj (u : uuid128) : mk_uuid128 (`u) = u.
Proof. apply dsig_eq. simpl. apply wrap_small. apply (proj2_dsig u). Qed.

#[global, program] Instance uuid128_api : UuidApi := {
  Uuid := uuid128;
  uuid_as_bytes := λ u, be_bytes 16 (`u);
  uuid_from_bytes := λ bs, mk_uuid128 (be_value bs);
  uuid_as_u128 := λ u, `u;
  uuid_from_u128 := mk_uuid128;
}.
Next Obligation. intros u. apply length_be_bytes. Qed.
Next Obligation.
  intros u. cbn beta. rewrite be_round_trip; [apply mk_uuid128_proj|].
  apply (proj2_dsig u).
Qed.
Next Obligation. intros u. apply (proj2_dsig u). Qed.
Next Obligation. intros u. apply mk_uuid128_proj. Qed.

(** ** Network addresses of the standard library

    An [Ipv4Addr] is its [u32], an [Ipv6Addr] its [u128], both in network
    order. *)
Inductive IpAddr := V4 (ip : Z) | V6 (ip : Z).

#[global] Instance IpAddr_eq_dec : EqDecision IpAddr.
Proof. solve_decision. Defined.

#[global, program] Instance IpAddr_countable : Countable IpAddr :=
  inj_countable' (λ a, match a with V4 i => inl i | V6 i => inr i end)
                 (λ s, match s with inl i => V4 i | inr i => V6 i end) _.
Next Obligation. by intros []. Qed.

Definition wf_ip (a : IpAddr) : Prop :=
  match a with V4 i => in_u 32 i | V6 i => in_u 128 i end.

(** [Ipv4Addr::octets] and [Ipv6Addr::octets]. *)
Definition octets (a : IpAddr) : list byte :=
  match a with V4 i => be_bytes 4 i | V6 i => be_bytes 16 i end.

(** [IpAddr::from([u8; 4])] and [IpAddr::from([u8; 16])]. *)
Definition ip_from_4 (bs : list byte) : IpAddr := V4 (be_value bs).
Definition ip_from_16 (bs : list byte) : IpAddr := V6 (be_value bs).

Record SocketAddr := MkSocketAddr { sa_ip : IpAddr; sa_port : Z }.

#[global] Instance SocketAddr_eq_dec : EqDecision SocketAddr.
Proof. solve_decision. Defined.

#[global, program] Instance SocketAddr_countable : Countable SocketAddr :=
  inj_countable' (λ a, (sa_ip a, sa_port a)) (λ p, MkSocketAddr p.1 p.2) _.
Next Obligation. by intros []. Qed.

Definition wf_socket (a : SocketAddr) : Prop := wf_ip (sa_ip a) ∧ in_u 16 (sa_port a).

Lemma length_octets a : length (octets a) = match a with V4 _ => 4 | V6 _ => 16 end.
Proof. destruct a; apply length_be_bytes. Qed.

Lemma ip_from_4_octets i : in_u 32 i → ip_from_4 (be_bytes 4 i) = V4 i.
Proof. intros. unfold ip_from_4. rewrite be_round_trip; [done|apply H]. Qed.

Lemma ip_from_16_octets i : in_u 128 i → ip_from_16 (be_bytes 16 i) = V6 i.
Proof. intros. unfold ip_from_16. rewrite be_round_trip; [done|apply H]. Qed.
