(* ===== verification/Paths.v ===== *)
(** * Actor paths

    Model of [core/src/actors/paths.rs]: transports, system paths, unique and
    named actor paths, and the validation of path segments.  A Rust [String] is
    the [string] of its UTF-8 bytes: every character the code compares with is
    ASCII, so comparing [char]s and comparing bytes agree. *)

From S2P Require Import Prelude Extern.

(** Transport protocol used for delivering messages. *)
Inductive Transport := Local | Tcp | Udp.

#[global] Instance Transport_eq_dec : EqDecision Transport.
Proof. solve_decision. Defined.

Definition is_local (t : Transport) : bool :=
  match t with Local => true | _ => false end.
Definition is_remote (t : Transport) : bool := negb (is_local t).

Definition transport_fmt (t : Transport) : string :=
  match t with Local => "local" | Tcp => "tcp" | Udp => "udp" end.

(** Errors of path parsing; the payload of [PathTransport] is a unit struct in
    the source and that of [PathAddr] an error of the standard library. *)
Inductive PathParseError :=
| Form (s : string)
| PathTransport
| PathAddr
| IllegalCharacter (c : ascii).

#[global] Instance PathParseError_eq_dec : EqDecision PathParseError.
Proof. solve_decision. Defined.

Definition transport_from_str (s : string) : res PathParseError Transport :=
  if decide (s = "local") then Ok Local
  else if decide (s = "tcp") then Ok Tcp
  else if decide (s = "udp") then Ok Udp
  else Err PathTransport.

Definition PATH_SEP : ascii := "/"%char.
Definition UNIQUE_PATH_SEP : ascii := "#"%char.
Definition BROADCAST_MARKER : ascii := "*"%char.
Definition SELECT_MARKER : ascii := "?"%char.

Record SystemPath := MkSystemPath {
  sp_protocol : Transport;
  sp_address : IpAddr;
  sp_port : Z;
}.

#[global] Instance SystemPath_eq_dec : EqDecision SystemPath.
Proof. solve_decision. Defined.

Definition wf_system (s : SystemPath) : Prop := wf_ip (sp_address s) ∧ in_u 16 (sp_port s).

(** [SystemPath::with_socket] and [SystemPath::socket_address]. *)
Definition with_socket (protocol : Transport) (socket : SocketAddr) : SystemPath :=
  MkSystemPath protocol (sa_ip socket) (sa_port socket).
Definition socket_address (s : SystemPath) : SocketAddr :=
  MkSocketAddr (sp_address s) (sp_port s).

(** ** Splitting and joining *)

(** [str::split(c)]: always yields at least one piece. *)
Fixpoint split_char (c : ascii) (s : string) : list string :=
  match s with
  | EmptyString => [EmptyString]
  | String a s =>
      if decide (a = c) then EmptyString :: split_char c s
      else match split_char c s with
           | [] => [String a EmptyString]
           | p :: ps => String a p :: ps
           end
  end.

(** [<[String]>::join("/")]. *)
Fixpoint join_sep (c : ascii) (path : list string) : string :=
  match path with
  | [] => EmptyString
  | [p] => p
  | p :: ps => p +:+ String c (join_sep c ps)
  end.

Definition parse_path (s : string) : list string := split_char PATH_SEP s.

(** ** Validation *)

(** The loop over the characters of a segment in
    [validate_lookup_path_segment]; [len] is the length of the segment. *)
Fixpoint lookup_chars (is_last : bool) (len : nat) (s : string) : res PathParseError () :=
  match s with
  | EmptyString => Ok ()
  | String c s =>
      if decide (c = PATH_SEP) then Err (IllegalCharacter PATH_SEP)
      else if bool_decide (c = BROADCAST_MARKER) && negb is_last && bool_decide (len = 1)
           then Err (IllegalCharacter BROADCAST_MARKER)
      else if bool_decide (c = SELECT_MARKER) && negb is_last && bool_decide (len = 1)
           then Err (IllegalCharacter SELECT_MARKER)
      else if decide (c = UNIQUE_PATH_SEP) then Err (IllegalCharacter UNIQUE_PATH_SEP)
      else lookup_chars is_last len s
  end.

Definition empty_segment : PathParseError := Form "Path segments may not be empty!".

Definition validate_lookup_path_segment (segment : string) (is_last : bool)
    : res PathParseError () :=
  if decide (segment = "") then Err empty_segment
  else lookup_chars is_last (String.length segment) segment.

Fixpoint insert_chars (s : string) : res PathParseError () :=
  match s with
  | EmptyString => Ok ()
  | String c s =>
      if decide (c = PATH_SEP) then Err (IllegalCharacter PATH_SEP)
      else if decide (c = BROADCAST_MARKER) then Err (IllegalCharacter BROADCAST_MARKER)
      else if decide (c = SELECT_MARKER) then Err (IllegalCharacter SELECT_MARKER)
      else if decide (c = UNIQUE_PATH_SEP) then Err (IllegalCharacter UNIQUE_PATH_SEP)
      else insert_chars s
  end.

Definition validate_insert_path_segment (segment : string) : res PathParseError () :=
  if decide (segment = "") then Err empty_segment else insert_chars segment.

(** [for (index, segment) in path.iter().enumerate()]. *)
Fixpoint lookup_segments (index len : nat) (path : list string) : res PathParseError () :=
  match path with
  | [] => Ok ()
  | segment :: path =>
      _ ← validate_lookup_path_segment segment (bool_decide (index + 1 = len));
      lookup_segments (index + 1) len path
  end.

Definition validate_lookup_path (path : list string) : res PathParseError () :=
  lookup_segments 0 (length path) path.

Fixpoint validate_insert_path (path : list string) : res PathParseError () :=
  match path with
  | [] => Ok ()
  | segment :: path => _ ← validate_insert_path_segment segment; validate_insert_path path
  end.

(** ** Paths *)
Section paths.
Context {U : UuidApi}.

Record UniquePath := MkUniquePath { up_system : SystemPath; up_id : Uuid }.
Record NamedPath := MkNamedPath { np_system : SystemPath; np_path : list string }.
Inductive ActorPath := Unique (up : UniquePath) | Named (np : NamedPath).

#[global] Instance UniquePath_eq_dec : EqDecision UniquePath.
Proof. solve_decision. Defined.
#[global] Instance NamedPath_eq_dec : EqDecision NamedPath.
Proof. solve_decision. Defined.
#[global] Instance ActorPath_eq_dec : EqDecision ActorPath.
Proof. solve_decision. Defined.

(** [SystemField::system] for an actor path. *)
Definition ap_system (p : ActorPath) : SystemPath :=
  match p with Unique up => up_system up | Named np => np_system np end.

(** [ActorPath::set_protocol] and the [via_*] methods. *)
Definition set_system_protocol (proto : Transport) (s : SystemPath) : SystemPath :=
  MkSystemPath proto (sp_address s) (sp_port s).
Definition set_protocol (proto : Transport) (p : ActorPath) : ActorPath :=
  match p with
  | Unique up => Unique (MkUniquePath (set_system_protocol proto (up_system up)) (up_id up))
  | Named np => Named (MkNamedPath (set_system_protocol proto (np_system np)) (np_path np))
  end.
Definition via_udp := set_protocol Udp.
Definition via_tcp := set_protocol Tcp.
Definition via_local := set_protocol Local.

Definition named (p : ActorPath) : option NamedPath :=
  match p with Named np => Some np | _ => None end.
Definition unwrap_named {E} (p : ActorPath) : res E NamedPath := unwrap (named p).
Definition unique (p : ActorPath) : option UniquePath :=
  match p with Unique up => Some up | _ => None end.
Definition unwrap_unique {E} (p : ActorPath) : res E UniquePath := unwrap (unique p).

(** [SystemPath::into_named_with_vec], [into_named_with_string], [into_unique]. *)
Definition into_named_with_vec (s : SystemPath) (path : list string)
    : res PathParseError NamedPath :=
  _ ← validate_lookup_path path; Ok (MkNamedPath s path).
Definition into_named_with_string (s : SystemPath) (path : string)
    : res PathParseError NamedPath :=
  into_named_with_vec s (parse_path path).
Definition into_unique (s : SystemPath) (id : Uuid) : UniquePath := MkUniquePath s id.

(** The check [push] and [append] make on the segment they extend. *)
Definition check_last (path : list string) : res PathParseError () :=
  match last path with
  | Some last_segment => validate_lookup_path_segment last_segment false
  | None => Ok ()
  end.

Definition push (np : NamedPath) (segment : string) : res PathParseError NamedPath :=
  _ ← check_last (np_path np);
  _ ← validate_lookup_path_segment segment true;
  Ok (MkNamedPath (np_system np) (np_path np ++ [segment])).

Definition append (np : NamedPath) (path : string) : res PathParseError NamedPath :=
  _ ← check_last (np_path np);
  let segments := parse_path path in
  let np_path' := np_path np ++ segments in
  _ ← validate_lookup_path np_path';
  Ok (MkNamedPath (np_system np) np_path').

(** [path / "segment"] and [path / '*']. *)
Definition div_str {E} (np : NamedPath) (rhs : string) : res E NamedPath :=
  expect (append np rhs).
Definition div_char {E} (np : NamedPath) (rhs : ascii) : res E NamedPath :=
  expect (push np (String rhs EmptyString)).
End paths.

(** ** Specification of valid paths *)

Fixpoint chars (s : string) : list ascii :=
  match s with EmptyString => [] | String c s => c :: chars s end.

Definition no_char (c : ascii) (s : string) : Prop := c ∉ chars s.

(** What [validate_lookup_path_segment] accepts. *)
Definition lookup_segment_ok (s : string) (is_last : bool) : Prop :=
  s ≠ "" ∧ no_char PATH_SEP s ∧ no_char UNIQUE_PATH_SEP s ∧
  (is_last = false → s ≠ "*" ∧ s ≠ "?").

(** What [validate_insert_path_segment] accepts. *)
Definition insert_segment_ok (s : string) : Prop :=
  s ≠ "" ∧ no_char PATH_SEP s ∧ no_char UNIQUE_PATH_SEP s ∧
  no_char BROADCAST_MARKER s ∧ no_char SELECT_MARKER s.

Definition lookup_path_ok (path : list string) : Prop :=
  ∀ i s, path !! i = Some s → lookup_segment_ok s (bool_decide (i + 1 = length path)).

Lemma chars_nil s : chars s = [] ↔ s = "".
Proof. by destruct s. Qed.

Lemma insert_chars_Ok s :
  insert_chars s = Ok () ↔
  no_char PATH_SEP s ∧ no_char UNIQUE_PATH_SEP s ∧
  no_char BROADCAST_MARKER s ∧ no_char SELECT_MARKER s.
Proof.
  unfold no_char. induction s as [|c s IH]; simpl.
  { split; [|done]. intros _. split_and!; apply not_elem_of_nil. }
  rewrite !not_elem_of_cons. repeat case_decide; naive_solver.
Qed.

(** The marker tests of the loop only ever fire on a one-byte segment. *)
Lemma lookup_chars_Ok is_last len s :
  lookup_chars is_last len s = Ok () ↔
  no_char PATH_SEP s ∧ no_char UNIQUE_PATH_SEP s ∧
  (is_last = false → len = 1 → no_char BROADCAST_MARKER s ∧ no_char SELECT_MARKER s).
Proof.
  unfold no_char. induction s as [|c s IH]; simpl.
  { split; [|done]. intros _. split_and!; try apply not_elem_of_nil.
    intros _ _. split; apply not_elem_of_nil. }
  rewrite !not_elem_of_cons. case_decide as H1; [naive_solver|].
  destruct is_last; simpl; rewrite ?andb_false_r; simpl.
  { case_decide; naive_solver. }
  rewrite !andb_true_r. destruct (decide (len = 1)) as [->|?]; simpl.
  2:{ rewrite (bool_decide_false (len = 1)) by done. rewrite !andb_false_r.
      case_decide; naive_solver. }
  rewrite ?(bool_decide_true (1 = 1)) by done. rewrite ?andb_true_r.
  case_bool_decide; [naive_solver|]. case_bool_decide; [naive_solver|].
  case_decide; naive_solver.
Qed.

Lemma validate_lookup_segment_Ok s is_last :
  validate_lookup_path_segment s is_last = Ok () ↔ lookup_segment_ok s is_last.
Proof.
  unfold validate_lookup_path_segment, lookup_segment_ok.
  case_decide as Hs; [naive_solver|]. rewrite lookup_chars_Ok.
  split; [intros (H1 & H2 & H3)|intros (_ & H1 & H2 & H3)]; split_and!; try done.
  - intros Hl. destruct s as [|c [|c' s]]; [done| |split; congruence].
    destruct (H3 Hl eq_refl) as [Hb Hq]. unfold no_char in *. simpl in *.
    rewrite list_elem_of_singleton in Hb, Hq. unfold BROADCAST_MARKER, SELECT_MARKER in *.
    split; congruence.
  - intros Hl Hlen. destruct (H3 Hl) as [Hb Hq].
    destruct s as [|c [|c' s]]; [done| |done]. unfold no_char. simpl.
    rewrite !list_elem_of_singleton. split; intros <-; done.
Qed.

Lemma validate_insert_segment_Ok s :
  validate_insert_path_segment s = Ok () ↔ insert_segment_ok s.
Proof.
  unfold validate_insert_path_segment, insert_segment_ok.
  case_decide; [naive_solver|]. rewrite insert_chars_Ok. naive_solver.
Qed.

Lemma bind_Ok_unit {E B} (m : res E ()) (k : res E B) b :
  (m ≫= λ _, k) = Ok b ↔ m = Ok () ∧ k = Ok b.
Proof. destruct m as [[]| |]; naive_solver. Qed.

Lemma lookup_segments_Ok index len path :
  lookup_segments index len path = Ok () ↔
  ∀ i s, path !! i = Some s → lookup_segment_ok s (bool_decide (index + i + 1 = len)).
Proof.
  revert index. induction path as [|s path IH]; intros index; simpl.
  { split; [|done]. intros _ i s Hi. by rewrite lookup_nil in Hi. }
  rewrite bind_Ok_unit, validate_lookup_segment_Ok, IH. split.
  - intros [Hs Hp] [|i] s' Hi; simpl in Hi; simplify_eq.
    + by rewrite Nat.add_0_r.
    + replace (index + S i + 1) with (index + 1 + i + 1) by lia. auto.
  - intros H. split; [specialize (H 0 s eq_refl); by rewrite Nat.add_0_r in H|].
    intros i s' Hi. specialize (H (S i) s' Hi).
    by replace (index + 1 + i + 1) with (index + S i + 1) by lia.
Qed.

Lemma validate_lookup_path_Ok path :
  validate_lookup_path path = Ok () ↔ lookup_path_ok path.
Proof. apply lookup_segments_Ok. Qed.

Lemma validate_insert_path_Ok path :
  validate_insert_path path = Ok () ↔ Forall insert_segment_ok path.
Proof.
  induction path as [|s path IH]; simpl; [by split|].
  by rewrite bind_Ok_unit, validate_insert_segment_Ok, IH, Forall_cons.
Qed.

(** ** Splitting and joining are inverse *)
Lemma split_char_nonnil c s : split_char c s ≠ [].
Proof. destruct s; simpl; [done|]. case_decide; [done|]. by destruct (split_char c s). Qed.

Lemma join_sep_cons c p ps : ps ≠ [] → join_sep c (p :: ps) = p +:+ String c (join_sep c ps).
Proof. by destruct ps. Qed.

Lemma join_split c s : join_sep c (split_char c s) = s.
Proof.
  induction s as [|a s IH]; simpl; [done|]. pose proof (split_char_nonnil c s).
  case_decide as Ha.
  - subst. rewrite join_sep_cons by done. simpl. by rewrite IH.
  - destruct (split_char c s) as [|p ps]; [done|]. rewrite <-IH.
    destruct ps; reflexivity.
Qed.

Lemma split_char_app c p s :
  no_char c p → split_char c (p +:+ String c s) = p :: split_char c s.
Proof.
  unfold no_char. induction p as [|a p IH]; simpl; intros H.
  - by rewrite decide_True.
  - rewrite not_elem_of_cons in H. rewrite decide_False by naive_solver.
    by rewrite IH by naive_solver.
Qed.

Lemma split_char_none c p : no_char c p → split_char c p = [p].
Proof.
  unfold no_char. induction p as [|a p IH]; simpl; intros H; [done|].
  rewrite not_elem_of_cons in H. rewrite decide_False by naive_solver.
  by rewrite IH by naive_solver.
Qed.

Lemma split_char_no_char c s : Forall (no_char c) (split_char c s).
Proof.
  unfold no_char. induction s as [|a s IH]; simpl.
  { repeat constructor. simpl. apply not_elem_of_nil. }
  case_decide; [constructor; [apply not_elem_of_nil|done]|].
  destruct (split_char c s) as [|p ps]; inversion IH; subst; constructor; try done.
  - simpl. rewrite list_elem_of_singleton. congruence.
  - simpl. rewrite not_elem_of_cons. naive_solver.
Qed.

Lemma split_join c path :
  path ≠ [] → Forall (no_char c) path → split_char c (join_sep c path) = path.
Proof.
  induction path as [|p path IH]; [done|]. intros _ Hf. inversion Hf; subst.
  destruct path as [|q path]; [by apply split_char_none|].
  rewrite join_sep_cons by done. rewrite split_char_app by done. by rewrite IH.
Qed.

Lemma lookup_path_no_sep path : lookup_path_ok path → Forall (no_char PATH_SEP) path.
Proof.
  intros H. apply Forall_lookup_2. intros i s Hi. by destruct (H i s Hi) as (_ & ? & _).
Qed.

Lemma lookup_segment_weaken s b : lookup_segment_ok s false → lookup_segment_ok s b.
Proof. unfold lookup_segment_ok. naive_solver. Qed.

Lemma lookup_path_ok_snoc path s :
  lookup_path_ok (path ++ [s]) ↔
  (∀ i s', path !! i = Some s' → lookup_segment_ok s' false) ∧ lookup_segment_ok s true.
Proof.
  unfold lookup_path_ok. rewrite length_app. simpl. split.
  - intros H. split.
    + intros i s' Hi. pose proof (lookup_lt_Some _ _ _ Hi).
      specialize (H i s'). rewrite lookup_app_l, bool_decide_false in H by lia. auto.
    + specialize (H (length path) s). rewrite list_lookup_middle in H by done.
      rewrite bool_decide_true in H by done. auto.
  - intros [Hp Hs] i s' Hi. apply lookup_app_Some in Hi as [Hi|[Hle Hi]].
    + pose proof (lookup_lt_Some _ _ _ Hi). rewrite bool_decide_false by lia. eauto.
    + apply list_lookup_singleton_Some in Hi as [Hi ->].
      rewrite bool_decide_true by lia. done.
Qed.

(** ** Properties *)

(** [validate_lookup_path] accepts exactly the paths whose segments are
    non-empty, contain neither ['/'] nor ['#'], and are not a bare routing
    marker before the last position; [validate_insert_path] accepts exactly the
    paths whose segments are non-empty and free of all four special
    characters, so every insert path is also a lookup path. *)
Theorem validate_path_spec (path : list string) :
  (validate_lookup_path path = Ok () ↔ lookup_path_ok path) ∧
  (validate_insert_path path = Ok () ↔ Forall insert_segment_ok path) ∧
  (validate_insert_path path ≠ Ok () ∨ validate_lookup_path path = Ok ()).
Proof.
  split_and!; [apply validate_lookup_path_Ok|apply validate_insert_path_Ok|].
  destruct (decide (validate_insert_path path = Ok ())) as [Hi|]; [right|by left].
  apply validate_lookup_path_Ok. intros i s Hs.
  rewrite validate_insert_path_Ok in Hi.
  destruct (Forall_lookup_1 _ _ _ _ Hi Hs) as (? & ? & ? & Hb & Hq).
  split_and!; try done. intros _. split; intros ->.
  - apply Hb. by left.
  - apply Hq. by left.
Qed.

Section path_properties.
Context {U : UuidApi}.

(** a named path that is a valid lookup path stays one under [push] and
    [append], and [into_named_with_vec] only builds valid lookup paths; the
    system part is never changed. *)
Theorem named_path_valid (np np' : NamedPath) (arg : string) (segs : list string) :
  lookup_path_ok (np_path np) →
  push np arg = Ok np' ∨ append np arg = Ok np' ∨
    into_named_with_vec (np_system np) segs = Ok np' →
  lookup_path_ok (np_path np') ∧ np_system np' = np_system np.
Proof.
  intros Hok [Hp|[Ha|Hv]].
  - unfold push in Hp. rewrite !bind_Ok_unit in Hp. destruct Hp as (Hl & Hs & Hp).
    injection Hp as <-. simpl. split; [|done].
    apply validate_lookup_segment_Ok in Hs. apply lookup_path_ok_snoc. split; [|done].
    intros i s Hi. destruct (decide (i + 1 = length (np_path np))) as [Hlast|Hlast].
    + unfold check_last in Hl. rewrite last_lookup in Hl.
      replace (pred (length (np_path np))) with i in Hl by lia. rewrite Hi in Hl.
      by apply validate_lookup_segment_Ok.
    + specialize (Hok i s Hi). by rewrite bool_decide_false in Hok.
  - unfold append in Ha. rewrite !bind_Ok_unit in Ha. destruct Ha as (_ & Hv & Ha).
    injection Ha as <-. by apply validate_lookup_path_Ok in Hv.
  - unfold into_named_with_vec in Hv. rewrite bind_Ok_unit in Hv.
    destruct Hv as [Hv Heq]. injection Heq as <-. by apply validate_lookup_path_Ok in Hv.
Qed.
End path_properties.

Definition example_system : SystemPath := MkSystemPath Tcp (V4 2130706433) 8080.

Lemma named_path_valid_witness :
  push (MkNamedPath example_system ["a"; "b"]) "*"
    = Ok (MkNamedPath example_system ["a"; "b"; "*"]) ∧
  lookup_path_ok ["a"; "b"; "*"] ∧
  np_system (MkNamedPath example_system ["a"; "b"; "*"]) = example_system.
Proof.
  split; [reflexivity|].
  apply (named_path_valid (MkNamedPath example_system ["a"; "b"])
           (MkNamedPath example_system ["a"; "b"; "*"]) "*" []).
  - apply validate_lookup_path_Ok. reflexivity.
  - left. reflexivity.
Defined.
