(* ===== verification/AddrText.v ===== *)
(** * Text of network addresses

    What the sources use of the Rust standard library to print and parse
    addresses: [Display] of [Ipv4Addr] and [Ipv6Addr], and [FromStr] of [SocketAddr]
    with the recursive-descent parser behind it.  A parser takes the text that is
    left and returns a value with the rest, or [None] and consumes nothing.  The
    scope of an IPv6 socket address is read but not kept: no path stores it. *)

From S2P Require Import Prelude Extern Paths.

#[local] Open Scope Z_scope.

(** ** Numbers *)

(** The digit [char::from_digit] gives for a number below sixteen. *)
Definition digit (z : Z) : ascii :=
  ascii_of_nat (Z.to_nat (if decide (z < 10) then 48 + z else 87 + z)).

(** [char::to_digit]. *)
Definition to_digit (radix : Z) (c : ascii) : option Z :=
  let n := Z.of_nat (nat_of_ascii c) in
  let d := if decide (48 ≤ n ≤ 57) then Some (n - 48)
           else if decide (97 ≤ n ≤ 102) then Some (n - 87)
           else if decide (65 ≤ n ≤ 70) then Some (n - 55)
           else None in
  d ≫= λ d, if decide (d < radix) then Some d else None.

(** The digits of [z], most significant first; [fuel] bounds their number. *)
Fixpoint digits (radix : Z) (fuel : nat) (z : Z) (acc : list Z) : list Z :=
  match fuel with
  | O => acc
  | S fuel =>
      let acc := z mod radix :: acc in
      if decide (z < radix) then acc else digits radix fuel (z / radix) acc
  end.

Definition digits_text (ds : list Z) : string :=
  foldr (λ d s, String (digit d) s) EmptyString ds.

(** Numbers of up to sixteen bits, in decimal or hexadecimal. *)
Definition num_text (radix z : Z) : string := digits_text (digits radix 5 z []).

Fixpoint span_digits (radix : Z) (s : string) : list Z * string :=
  match s with
  | EmptyString => ([], EmptyString)
  | String c s' =>
      match to_digit radix c with
      | Some d => let '(ds, rest) := span_digits radix s' in (d :: ds, rest)
      | None => ([], s)
      end
  end.

Definition from_digits (radix : Z) (ds : list Z) : Z :=
  fold_left (λ n d, n * radix + d) ds 0.

(** [Parser::read_number] for a type with largest value [bound]. *)
Definition read_number (radix bound : Z) (max_digits : option nat) (allow_zero_prefix : bool)
    (s : string) : option (Z * string) :=
  let '(ds, rest) := span_digits radix s in
  let n := from_digits radix ds in
  if decide (ds = []) then None
  else if from_option (λ m, bool_decide (m < length ds)%nat) false max_digits then None
  else if negb allow_zero_prefix && bool_decide (head ds = Some 0) && bool_decide (1 < length ds)%nat
       then None
  else if decide (n ≤ bound) then Some (n, rest) else None.

Definition read_given_char (c : ascii) (s : string) : option string :=
  match s with
  | String a s => if decide (a = c) then Some s else None
  | EmptyString => None
  end.

(** [Parser::read_separator]: the separator stands before all items but the first. *)
Definition read_separator {A} (sep : ascii) (first : bool) (inner : string → option (A * string))
    (s : string) : option (A * string) :=
  if first then inner s else read_given_char sep s ≫= inner.

(** ** Addresses *)

Definition read_octet : string → option (Z * string) := read_number 10 255 (Some 3%nat) false.

(** [Parser::read_ipv4_addr], as the list of octets. *)
Fixpoint read_octets (n : nat) (first : bool) (s : string) : option (list Z * string) :=
  match n with
  | O => Some ([], s)
  | S n =>
      '(o, s) ← read_separator "."%char first read_octet s;
      '(os, s) ← read_octets n false s;
      Some (o :: os, s)
  end.
Definition read_ipv4_addr (s : string) : option (list Z * string) := read_octets 4 true s.

(** [read_groups] of [Parser::read_ipv6_addr]: at most [limit] more groups, with
    an embedded IPv4 address where two are left, and whether there was one. *)
Fixpoint read_groups (limit : nat) (first : bool) (s : string) : list Z * bool * string :=
  match limit with
  | O => ([], false, s)
  | S limit =>
      match (if decide (limit = O) then None else read_separator ":"%char first read_ipv4_addr s) with
      | Some ([a; b; c; d], s) => ([a * 256 + b; c * 256 + d], true, s)
      | _ =>
          match read_separator ":"%char first (read_number 16 65535 (Some 4%nat) true) s with
          | Some (g, s) => let '(gs, v4, s) := read_groups limit false s in (g :: gs, v4, s)
          | None => ([], false, s)
          end
      end
  end.

(** The eight groups of an address as its number. *)
Definition groups_value (gs : list Z) : Z := fold_left (λ n g, n * 65536 + g) gs 0.

Definition read_ipv6_addr (s : string) : option (Z * string) :=
  let '(head, head_ipv4, s) := read_groups 8 true s in
  if decide (length head = 8%nat) then Some (groups_value head, s)
  else if head_ipv4 : bool then None
  else
    s ← read_given_char ":"%char s;
    s ← read_given_char ":"%char s;
    let '(tail, _, s) := read_groups (8 - (length head + 1)) true s in
    let zeroes := replicate (8 - length head - length tail) 0 in
    Some (groups_value (head ++ zeroes ++ tail), s).

Definition read_port (s : string) : option (Z * string) :=
  s ← read_given_char ":"%char s; read_number 10 65535 None true s.

Definition read_socket_addr_v4 (s : string) : option (SocketAddr * string) :=
  '(os, s) ← read_ipv4_addr s;
  '(port, s) ← read_port s;
  Some (MkSocketAddr (V4 (be_value os)) port, s).

(** [read_scope_id().unwrap_or(0)], of which only the text behind matters. *)
Definition skip_scope_id (s : string) : string :=
  match (s ← read_given_char "%"%char s; read_number 10 4294967295 None true s) with
  | Some (_, s) => s
  | None => s
  end.

Definition read_socket_addr_v6 (s : string) : option (SocketAddr * string) :=
  s ← read_given_char "["%char s;
  '(ip, s) ← read_ipv6_addr s;
  s ← read_given_char "]"%char (skip_scope_id s);
  '(port, s) ← read_port s;
  Some (MkSocketAddr (V6 ip) port, s).

Definition read_socket_addr (s : string) : option (SocketAddr * string) :=
  match read_socket_addr_v4 s with Some r => Some r | None => read_socket_addr_v6 s end.

(** [SocketAddr::from_str]: all of the text must have been read. *)
Definition socket_from_str (s : string) : option SocketAddr :=
  match read_socket_addr s with Some (a, EmptyString) => Some a | _ => None end.

(** [Display] of [Ipv4Addr]. *)
Definition ipv4_text (ip : Z) : string := join_sep "."%char (num_text 10 <$> be_bytes 4 ip).

(** [Ipv6Addr::segments]. *)
Fixpoint segments (n : nat) (ip : Z) : list Z :=
  match n with O => [] | S n => (ip / 65536 ^ Z.of_nat n) mod 65536 :: segments n ip end.

(** The longest run of zeroes, the first of several: its start and its length.
    [cur] is the run that ends before position [i]. *)
Fixpoint longest_zeroes (i : nat) (cur best : nat * nat) (l : list Z) : nat * nat :=
  match l with
  | [] => best
  | x :: l =>
      if decide (x = 0) then
        let cur := if decide (cur.2 = O) then (i, 1%nat) else (cur.1, S cur.2) in
        longest_zeroes (S i) cur (if decide (best.2 < cur.2)%nat then cur else best) l
      else longest_zeroes (S i) (O, O) best l
  end.

Definition hex_groups (gs : list Z) : string := join_sep ":"%char (num_text 16 <$> gs).

(** [Display] of [Ipv6Addr]. *)
Definition ipv6_text (ip : Z) : string :=
  let gs := segments 8 ip in
  if decide (take 6 gs = [0; 0; 0; 0; 0; 65535]) then "::ffff:" +:+ ipv4_text (ip mod 2 ^ 32)
  else
    let '(start, len) := longest_zeroes 0 (O, O) (O, O) gs in
    if decide (1 < len)%nat
    then hex_groups (take start gs) +:+ "::" +:+ hex_groups (drop (start + len) gs)
    else hex_groups gs.

Definition ip_text (a : IpAddr) : string :=
  match a with V4 ip => ipv4_text ip | V6 ip => ipv6_text ip end.

Example text_127 : ip_text (V4 2130706433) = "127.0.0.1".
Proof. vm_compute. reflexivity. Qed.
Example text_v6 : ip_text (V6 (2 ^ 112 * 8193 + 2 ^ 96 * 3512 + 1)) = "2001:db8::1".
Proof. vm_compute. reflexivity. Qed.
Example parse_v4 : socket_from_str "127.0.0.1:0080" = Some (MkSocketAddr (V4 2130706433) 80).
Proof. vm_compute. reflexivity. Qed.
Example parse_v6 : socket_from_str "[::ffff:1.2.3.4%7]:80" = Some (MkSocketAddr (V6 281470698652420) 80).
Proof. vm_compute. reflexivity. Qed.
Example parse_bad : socket_from_str "127.0.0.01:80" = None ∧ socket_from_str "1.2.3.4" = None ∧
  socket_from_str "1.2.3.256:1" = None ∧ socket_from_str "1.2.3.4:65536" = None ∧ socket_from_str "::1:80" = None.
Proof. vm_compute. done. Qed.

(** ** Numbers round trip *)

Definition is_digit (radix d : Z) : Prop := 0 ≤ d < radix.

Lemma to_digit_digit radix d : radix ≤ 16 → is_digit radix d → to_digit radix (digit d) = Some d.
Proof.
  unfold is_digit, to_digit, digit. intros Hr Hd.
  rewrite nat_ascii_embedding by (case_decide; lia).
  destruct (decide (d < 10)).
  - rewrite Z2Nat.id by lia. rewrite decide_True by lia. simpl.
    rewrite decide_True by lia. f_equal. lia.
  - rewrite Z2Nat.id by lia. rewrite decide_False, decide_True by lia. simpl.
    rewrite decide_True by lia. f_equal. lia.
Qed.

(** Text that does not go on with a digit. *)
Definition no_digit_first (radix : Z) (s : string) : Prop :=
  match s with EmptyString => True | String c _ => to_digit radix c = None end.

Lemma span_digits_none radix s : no_digit_first radix s → span_digits radix s = ([], s).
Proof. destruct s as [|c s]; simpl; [done|]. by intros ->. Qed.

Lemma span_digits_text radix ds s :
  radix ≤ 16 → Forall (is_digit radix) ds → no_digit_first radix s →
  span_digits radix (digits_text ds +:+ s) = (ds, s).
Proof.
  intros Hr Hds Hs. induction Hds as [|d ds Hd _ IH]; simpl; [by apply span_digits_none|].
  by rewrite to_digit_digit, IH.
Qed.

Lemma digits_range radix fuel z acc :
  0 < radix → Forall (is_digit radix) acc → Forall (is_digit radix) (digits radix fuel z acc).
Proof.
  intros Hr. revert z acc. induction fuel as [|fuel IH]; intros z acc Hacc; simpl; [done|].
  assert (Forall (is_digit radix) (z mod radix :: acc)).
  { constructor; [by apply Z.mod_pos_bound|done]. }
  case_decide; auto.
Qed.

Lemma digits_value radix fuel z acc :
  1 < radix → 0 ≤ z < radix ^ Z.of_nat fuel → (0 < fuel)%nat →
  from_digits radix (digits radix fuel z acc) = fold_left (λ n d, n * radix + d) acc z.
Proof.
  intros Hr. revert z acc. induction fuel as [|fuel IH]; intros z acc Hz Hf; [lia|].
  simpl. case_decide as Hlt.
  { unfold from_digits. simpl. f_equal. rewrite Z.mod_small; lia. }
  rewrite Nat2Z.inj_succ, Z.pow_succ_r in Hz by lia.
  destruct fuel as [|fuel].
  { simpl in Hz. lia. }
  rewrite IH; [|split|lia].
  - simpl. f_equal. pose proof (Z.div_mod z radix). lia.
  - apply Z.div_pos; lia.
  - apply Z.div_lt_upper_bound; lia.
Qed.

(** No leading zeroes, except for zero itself. *)
Lemma digits_head radix fuel z acc :
  1 < radix → 0 ≤ z < radix ^ Z.of_nat fuel → (0 < fuel)%nat →
  ∃ d ds, digits radix fuel z acc = d :: ds ∧ (d = 0 → z = 0 ∧ ds = acc).
Proof.
  intros Hr. revert z acc. induction fuel as [|fuel IH]; intros z acc Hz Hf; [lia|].
  simpl. case_decide as Hlt.
  { eexists _, _. split; [done|]. rewrite Z.mod_small by lia. auto. }
  rewrite Nat2Z.inj_succ, Z.pow_succ_r in Hz by lia.
  destruct fuel as [|fuel]; [simpl in Hz; lia|].
  assert (1 ≤ z / radix) by (apply Z.div_le_lower_bound; lia).
  assert (z / radix < radix ^ Z.of_nat (S fuel)) by (apply Z.div_lt_upper_bound; lia).
  destruct (IH (z / radix) (z mod radix :: acc)) as (d & ds & -> & Hd); [lia..|].
  eexists _, _. split; [done|]. intros Hd0. destruct (Hd Hd0). lia.
Qed.

Lemma digits_length radix fuel k z acc :
  1 < radix → 0 ≤ z < radix ^ Z.of_nat k → (0 < k)%nat →
  (length (digits radix fuel z acc) ≤ k + length acc)%nat.
Proof.
  intros Hr. revert k z acc. induction fuel as [|fuel IH]; intros k z acc Hz Hk; simpl; [lia|].
  case_decide as Hlt; [simpl; lia|]. destruct k as [|[|k]]; [lia|simpl in Hz; lia|].
  rewrite Nat2Z.inj_succ, Z.pow_succ_r in Hz by lia.
  etrans; [apply (IH (S k))|simpl; lia]; [|lia].
  split; [apply Z.div_pos; lia|apply Z.div_lt_upper_bound; lia].
Qed.

(** A printed number is read back by every reader of a type that holds it. *)
Lemma read_number_text radix bound max_digits allow k z s :
  1 < radix ≤ 16 → 0 ≤ z ≤ bound → z < radix ^ Z.of_nat k → (0 < k ≤ 5)%nat →
  from_option (λ m, k ≤ m)%nat True max_digits → no_digit_first radix s →
  read_number radix bound max_digits allow (num_text radix z +:+ s) = Some (z, s).
Proof.
  intros Hr Hz Hk Hk5 Hmax Hs. unfold read_number, num_text.
  assert (z < radix ^ Z.of_nat 5).
  { eapply Z.lt_le_trans; [done|]. apply Z.pow_le_mono_r; lia. }
  rewrite span_digits_text; [|lia|apply digits_range; [lia|done]|done].
  rewrite digits_value by lia. simpl fold_left.
  destruct (digits_head radix 5 z []) as (d & ds & Heq & Hd); [lia..|].
  pose proof (digits_length radix 5 k z [] ltac:(lia) ltac:(lia) ltac:(lia)) as Hlen.
  rewrite Heq in *. simpl in Hlen. rewrite decide_False by done.
  assert (from_option (λ m, bool_decide (m < length (d :: ds))%nat) false max_digits = false) as ->.
  { destruct max_digits as [m|]; simpl in *; [|done]. apply bool_decide_false. lia. }
  rewrite decide_True by lia.
  destruct (decide (d = 0)) as [->|]; [destruct (Hd eq_refl) as [_ ->]; by rewrite andb_false_r|].
  rewrite (bool_decide_false (head (d :: ds) = Some 0)) by (simpl; congruence).
  by rewrite andb_false_r.
Qed.

Lemma to_digit_nonneg radix c d : to_digit radix c = Some d → 0 ≤ d.
Proof. unfold to_digit. intros H. repeat case_decide; simplify_eq/=; try lia; case_decide; simplify_eq; lia. Qed.

Lemma span_digits_nonneg radix s : Forall (λ d, 0 ≤ d) (span_digits radix s).1.
Proof.
  induction s as [|c s IH]; simpl; [done|]. destruct (to_digit radix c) eqn:Hc; [|done].
  destruct (span_digits radix s). constructor; [by eapply to_digit_nonneg|done].
Qed.

Lemma from_digits_nonneg radix ds n :
  0 ≤ radix → Forall (λ d, 0 ≤ d) ds → 0 ≤ n → 0 ≤ fold_left (λ n d, n * radix + d) ds n.
Proof. intros Hr H. revert n. induction H; intros n Hn; simpl; [done|]. apply IHForall. nia. Qed.

Lemma read_number_range radix bound max_digits allow s n rest :
  0 ≤ radix → read_number radix bound max_digits allow s = Some (n, rest) → 0 ≤ n ≤ bound.
Proof.
  intros Hr. unfold read_number. pose proof (span_digits_nonneg radix s) as Hd.
  destruct (span_digits radix s) as [ds rest']. simpl in Hd.
  destruct (decide (ds = [])); [done|]. destruct (from_option _ _ _); [done|].
  destruct (_ && _); [done|]. case_decide; [|done]. intros [= <- _]. split; [|done].
  by apply from_digits_nonneg.
Qed.

(** ** IPv4 sockets round trip *)

Lemma read_octet_text z s :
  is_byte z → no_digit_first 10 s → read_octet (num_text 10 z +:+ s) = Some (z, s).
Proof.
  intros [H1 H2] Hs. apply (read_number_text _ _ _ _ 3); try done; simpl; lia.
Qed.

Lemma read_octets_text os first s :
  Forall is_byte os → os ≠ [] → no_digit_first 10 s →
  read_octets (length os) first
    ((if first then "" else ".") +:+ join_sep "."%char (num_text 10 <$> os) +:+ s) = Some (os, s).
Proof.
  intros Hos Hne Hs. revert first. induction Hos as [|o os Ho _ IH]; intros first; [done|].
  assert (∀ rest, no_digit_first 10 rest →
    read_separator "."%char first read_octet
      ((if first then "" else ".") +:+ num_text 10 o +:+ rest) = Some (o, rest)) as Hsep.
  { intros rest Hrest. destruct first; simpl; by apply read_octet_text. }
  cbn [length read_octets]. destruct os as [|o' os].
  - cbn [fmap list_fmap join_sep]. rewrite Hsep by done. done.
  - specialize (IH ltac:(done) false).
    rewrite fmap_cons, join_sep_cons by done. rewrite <-string_app_assoc.
    rewrite Hsep by done. cbn [mbind option_bind].
    change (String "." ?t +:+ s) with ("." +:+ t +:+ s). by rewrite IH.
Qed.

Lemma socket_v4_text ip port :
  in_u 32 ip → in_u 16 port →
  socket_from_str (ipv4_text ip +:+ ":" +:+ num_text 10 port) = Some (MkSocketAddr (V4 ip) port).
Proof.
  intros Hip [Hp1 Hp2]. unfold socket_from_str, read_socket_addr, read_socket_addr_v4, read_ipv4_addr.
  unfold ipv4_text.
  pose proof (read_octets_text (be_bytes 4 ip) true (":" +:+ num_text 10 port)
                (be_bytes_is_byte 4 ip) ltac:(done) eq_refl) as Hr.
  rewrite length_be_bytes in Hr. change ("" +:+ ?x) with x in Hr.
  rewrite Hr. cbn [mbind option_bind]. unfold read_port.
  change (":" +:+ ?t) with (String ":" t). cbn [read_given_char].
  rewrite decide_True by done. cbn [mbind option_bind].
  rewrite <-(string_app_nil_r (num_text 10 port)).
  rewrite (read_number_text _ _ _ _ 5); [|lia|lia|change (10 ^ Z.of_nat 5) with 100000; lia|lia|exact I|exact I].
  cbn [mbind option_bind]. rewrite be_round_trip; [done|]. exact Hip.
Qed.

(** ** Parsed addresses are in range *)

Lemma read_separator_inner {A} sep first (inner : string → option (A * string)) s x rest :
  read_separator sep first inner s = Some (x, rest) → ∃ t, inner t = Some (x, rest).
Proof.
  unfold read_separator. destruct first; [eauto|]. destruct (read_given_char _ _); [eauto|done].
Qed.

Lemma read_octets_range n first s os rest :
  read_octets n first s = Some (os, rest) → length os = n ∧ Forall is_byte os.
Proof.
  revert first s os rest. induction n as [|n IH]; intros first s os rest; cbn [read_octets].
  { intros [= <- <-]. by split. }
  destruct (read_separator _ _ _ _) as [[o s']|] eqn:Hsep; [|done]. cbn [mbind option_bind].
  destruct (read_octets n false s') as [[os' s'']|] eqn:Hos; [|done]. cbn [mbind option_bind].
  intros [= <- <-]. destruct (IH _ _ _ _ Hos) as [<- ?]. split; [done|].
  constructor; [|done]. destruct (read_separator_inner _ _ _ _ _ _ Hsep) as [t Ht].
  apply read_number_range in Ht; [|done]. unfold is_byte. lia.
Qed.

Definition is_group (g : Z) : Prop := 0 ≤ g < 65536.

Lemma read_groups_range limit first s gs v4 rest :
  read_groups limit first s = (gs, v4, rest) → Forall is_group gs ∧ (length gs ≤ limit)%nat.
Proof.
  revert first s gs v4 rest. induction limit as [|limit IH]; intros first s gs v4 rest; cbn [read_groups].
  { intros [= <- <- <-]. split; [done|simpl; lia]. }
  assert (∀ gs v4 rest,
    match read_separator ":"%char first (read_number 16 65535 (Some 4%nat) true) s with
    | Some (g, s) => let '(gs, v4, s) := read_groups limit false s in (g :: gs, v4, s)
    | None => ([], false, s)
    end = (gs, v4, rest) → Forall is_group gs ∧ (length gs ≤ S limit)%nat) as Hplain.
  { clear gs v4 rest. intros gs v4 rest. destruct (read_separator _ _ _ _) as [[g s']|] eqn:Hsep.
    2:{ intros [= <- <- <-]. split; [done|simpl; lia]. }
    destruct (read_groups limit false s') as [[gs' v4'] s''] eqn:Hgs. intros [= <- <- <-].
    destruct (IH _ _ _ _ _ Hgs). split; [|simpl; lia]. constructor; [|done].
    destruct (read_separator_inner _ _ _ _ _ _ Hsep) as [t Ht].
    apply read_number_range in Ht; [|done]. unfold is_group. lia. }
  destruct (decide (limit = O)) as [|Hl]; [by apply Hplain|].
  destruct (read_separator _ _ read_ipv4_addr _) as [[os s']|] eqn:Hsep; [|by apply Hplain].
  destruct (read_separator_inner _ _ _ _ _ _ Hsep) as [t Ht].
  destruct (read_octets_range _ _ _ _ _ Ht) as [Hlen Hos].
  destruct os as [|a [|b [|c [|d [|]]]]]; try done. intros [= <- <- <-].
  rewrite !Forall_cons in Hos. unfold is_byte in Hos. split; [|simpl; lia].
  rewrite !Forall_cons. unfold is_group. split_and!; try done; lia.
Qed.

Lemma groups_value_bound gs n k :
  Forall is_group gs → 0 ≤ n < 65536 ^ k → 0 ≤ k →
  0 ≤ fold_left (λ n g, n * 65536 + g) gs n < 65536 ^ (k + Z.of_nat (length gs)).
Proof.
  intros H. revert n k. induction H as [|g gs Hg _ IH]; intros n k Hn Hk; simpl.
  { by rewrite Z.add_0_r. }
  replace (k + Z.of_nat (S (length gs))) with (Z.succ k + Z.of_nat (length gs)) by lia.
  apply IH; [|lia]. rewrite Z.pow_succ_r by done. unfold is_group in Hg. nia.
Qed.

Lemma read_ipv6_range s ip rest : read_ipv6_addr s = Some (ip, rest) → in_u 128 ip.
Proof.
  assert (∀ gs, Forall is_group gs → length gs = 8%nat → in_u 128 (groups_value gs)) as Hval.
  { intros gs Hgs Hlen. pose proof (groups_value_bound gs 0 0 Hgs) as Hb. rewrite Hlen in Hb.
    apply Hb; simpl; lia. }
  unfold read_ipv6_addr. destruct (read_groups 8 true s) as [[gs v4] s'] eqn:Hgs.
  destruct (read_groups_range _ _ _ _ _ _ Hgs). case_decide; [intros [= <- <-]; auto|].
  destruct v4; [done|]. destruct (read_given_char _ s') as [s1|]; [|done]. cbn [mbind option_bind].
  destruct (read_given_char _ s1) as [s2|]; [|done]. cbn [mbind option_bind].
  destruct (read_groups _ true s2) as [[gs' v4'] s3] eqn:Hgs'.
  destruct (read_groups_range _ _ _ _ _ _ Hgs') as [? Hlen']. intros [= <- <-]. apply Hval.
  - rewrite !Forall_app. split_and!; try done. apply Forall_replicate. done.
  - rewrite !length_app, length_replicate. lia.
Qed.

Lemma socket_from_str_range s a :
  socket_from_str s = Some a → wf_ip (sa_ip a) ∧ in_u 16 (sa_port a).
Proof.
  assert (∀ t p r, read_port t = Some (p, r) → in_u 16 p) as Hport.
  { unfold read_port. intros t p r. destruct (read_given_char _ t); [|done]. cbn [mbind option_bind].
    intros H. apply read_number_range in H; [|done]. unfold in_u. simpl. lia. }
  unfold socket_from_str, read_socket_addr. destruct (read_socket_addr_v4 s) as [[b r]|] eqn:H4.
  - intros Heq. assert (a = b) as -> by (destruct r; congruence).
    unfold read_socket_addr_v4 in H4. destruct (read_ipv4_addr s) as [[os s1]|] eqn:Hip; [|done].
    cbn [mbind option_bind] in H4. destruct (read_port s1) as [[p s2]|] eqn:Hp; [|done].
    cbn [mbind option_bind] in H4. injection H4 as <- _. simpl. split; [|eauto].
    destruct (read_octets_range _ _ _ _ _ Hip) as [Hlen Hos]. apply be_value_bound in Hos.
    rewrite Hlen in Hos. exact Hos.
  - destruct (read_socket_addr_v6 s) as [[b r]|] eqn:H6; [|done].
    intros Heq. assert (a = b) as -> by (destruct r; congruence).
    unfold read_socket_addr_v6 in H6. destruct (read_given_char _ s) as [s1|]; [|done].
    cbn [mbind option_bind] in H6. destruct (read_ipv6_addr s1) as [[ip s2]|] eqn:Hip; [|done].
    cbn [mbind option_bind] in H6. destruct (read_given_char _ (skip_scope_id s2)) as [s3|]; [|done].
    cbn [mbind option_bind] in H6. destruct (read_port s3) as [[p s4]|] eqn:Hp; [|done].
    cbn [mbind option_bind] in H6. injection H6 as <- _. simpl. split; [|eauto].
    by eapply read_ipv6_range.
Qed.

(** ** What printed addresses look like *)

Definition is_hex (c : ascii) : Prop := is_Some (to_digit 16 c).
Definition is_addr_char (c : ascii) : Prop := is_hex c ∨ c = "."%char ∨ c = ":"%char.

Lemma chars_app s t : chars (s +:+ t) = chars s ++ chars t.
Proof. induction s as [|c s IH]; simpl; [done|]. by rewrite IH. Qed.

Lemma chars_join P c path :
  P c → Forall (λ s, Forall P (chars s)) path → Forall P (chars (join_sep c path)).
Proof.
  intros Hc H. induction H as [|s path Hs H IH]; [done|]. destruct path as [|s' path]; [done|].
  rewrite join_sep_cons, chars_app by done. apply Forall_app_2; [done|]. by constructor.
Qed.

Lemma num_text_hex radix z : 0 < radix ≤ 16 → Forall is_hex (chars (num_text radix z)).
Proof.
  intros Hr. unfold num_text.
  assert (Forall (is_digit radix) (digits radix 5 z [])) as H by (apply digits_range; [lia|done]).
  induction H as [|d ds Hd _ IH]; simpl; [done|]. constructor; [|done].
  eexists. apply to_digit_digit; [done|]. unfold is_digit in *. lia.
Qed.

Lemma addr_chars_hex s : Forall is_hex (chars s) → Forall is_addr_char (chars s).
Proof. intros H. eapply Forall_impl; [done|]. by left. Qed.

Lemma ipv4_text_chars ip : Forall is_addr_char (chars (ipv4_text ip)).
Proof.
  apply chars_join; [by right; left|]. apply Forall_fmap, Forall_true.
  intros z. by apply addr_chars_hex, num_text_hex.
Qed.

Lemma hex_groups_chars gs : Forall is_addr_char (chars (hex_groups gs)).
Proof.
  apply chars_join; [by right; right|]. apply Forall_fmap, Forall_true.
  intros z. by apply addr_chars_hex, num_text_hex.
Qed.

Lemma ip_text_chars a : Forall is_addr_char (chars (ip_text a)).
Proof.
  destruct a as [ip|ip]; simpl; [apply ipv4_text_chars|]. unfold ipv6_text. case_decide.
  - rewrite chars_app. apply Forall_app_2; [|apply ipv4_text_chars].
    repeat (constructor; [first [by right; right|left; eexists; reflexivity]|]). done.
  - destruct (longest_zeroes _ _ _ _) as [start len]. case_decide; [|apply hex_groups_chars].
    rewrite !chars_app. apply Forall_app_2; [apply hex_groups_chars|].
    apply Forall_app_2; [|apply hex_groups_chars]. repeat (constructor; [by right; right|]). done.
Qed.

(** ** IPv6 addresses are not read back

    Between the brackets that [SocketAddr] expects an IPv6 address would be read;
    the text of the address alone starts with at most four hexadecimal digits and a
    colon. *)

Lemma hex_groups_colon gs t :
  ∃ p r, Forall is_hex (chars p) ∧ hex_groups gs +:+ String ":" t = p +:+ String ":" r.
Proof.
  unfold hex_groups. destruct gs as [|g [|g' gs]].
  - by exists "", t.
  - exists (num_text 16 g), t. split; [by apply num_text_hex|done].
  - eexists (num_text 16 g), _. split; [by apply num_text_hex|].
    rewrite !fmap_cons, join_sep_cons by done. by rewrite <-string_app_assoc.
Qed.

Lemma ipv6_text_colon ip t :
  ∃ p r, Forall is_hex (chars p) ∧ ipv6_text ip +:+ String ":" t = p +:+ String ":" r.
Proof.
  unfold ipv6_text. case_decide; [eexists "", _; by split|].
  destruct (longest_zeroes _ _ _ _) as [start len]. case_decide; [|apply hex_groups_colon].
  rewrite <-string_app_assoc. apply hex_groups_colon.
Qed.

Lemma span_digits_hex p r :
  Forall is_hex (chars p) →
  ∃ ds p', Forall is_hex (chars p') ∧ span_digits 10 (p +:+ String ":" r) = (ds, p' +:+ String ":" r).
Proof.
  induction p as [|c p IH]; simpl; intros Hp; [by exists [], ""|].
  apply Forall_cons in Hp as Hp'. destruct Hp' as [Hc Hp']. destruct (to_digit 10 c).
  - destruct (IH Hp') as (ds & p' & ? & ->). by eexists _, p'.
  - by exists [], (String c p).
Qed.

Lemma read_octet_hex p r o s :
  Forall is_hex (chars p) → read_octet (p +:+ String ":" r) = Some (o, s) →
  ∃ p', Forall is_hex (chars p') ∧ s = p' +:+ String ":" r.
Proof.
  intros Hp. unfold read_octet, read_number.
  destruct (span_digits_hex p r Hp) as (ds & p' & Hp' & ->).
  repeat case_match; intros; simplify_eq; eauto.
Qed.

Lemma not_given_char c p r :
  to_digit 16 c = None → c ≠ ":"%char → Forall is_hex (chars p) →
  read_given_char c (p +:+ String ":" r) = None.
Proof.
  intros Hc Hne Hp. destruct p as [|a p]; simpl.
  - by rewrite decide_False.
  - apply Forall_cons in Hp as [[d Hd] _]. rewrite decide_False; [done|]. intros ->. congruence.
Qed.

Lemma socket_v6_text_rejected p r :
  Forall is_hex (chars p) → socket_from_str (p +:+ String ":" r) = None.
Proof.
  intros Hp. unfold socket_from_str, read_socket_addr.
  assert (read_ipv4_addr (p +:+ String ":" r) = None) as H4.
  { unfold read_ipv4_addr. cbn [read_octets]. unfold read_separator.
    destruct (read_octet (p +:+ String ":" r)) as [[o s]|] eqn:Ho; [|done]. cbn [mbind option_bind].
    destruct (read_octet_hex _ _ _ _ Hp Ho) as (p' & Hp' & ->).
    by rewrite (not_given_char "."%char). }
  unfold read_socket_addr_v4. rewrite H4. cbn [mbind option_bind].
  unfold read_socket_addr_v6. by rewrite (not_given_char "["%char).
Qed.
