(* ===== verification/PathText.v ===== *)
(** * Text of actor paths

    [Display] and [FromStr] of the paths of [core/src/actors/paths.rs]:
    [tcp://127.0.0.1:8080/a/b] for a named path, with [#] and the id for a unique
    one.  The text of a [Uuid] belongs to the [uuid] crate and is a class with the
    two facts that are used. *)

From S2P Require Import Prelude Extern Paths AddrText.

(** [Display] prints the hyphenated form, and [FromStr] reads it back. *)
Class UuidText {U : UuidApi} := {
  uuid_fmt : Uuid → string;
  uuid_from_str : string → option Uuid;
  uuid_text_round_trip : ∀ u, uuid_from_str (uuid_fmt u) = Some u;
  uuid_fmt_chars : ∀ u, Forall (λ c, is_hex c ∨ c = "-"%char) (chars (uuid_fmt u));
}.

(** [str::split("://")]. *)
Definition cons_first (c : ascii) (parts : list string) : list string :=
  match parts with p :: ps => String c p :: ps | [] => [String c EmptyString] end.

Fixpoint split_scheme (s : string) : list string :=
  match s with
  | EmptyString => [EmptyString]
  | String c s1 =>
      match s1 with
      | String c1 (String c2 rest) =>
          if decide (c = ":"%char ∧ c1 = "/"%char ∧ c2 = "/"%char)
          then EmptyString :: split_scheme rest
          else cons_first c (split_scheme s1)
      | _ => cons_first c (split_scheme s1)
      end
  end.

(** [str::contains(char)]. *)
Definition contains_char (c : ascii) (s : string) : bool := bool_decide (c ∈ chars s).

(** [Display] of [SystemPath]. *)
Definition system_fmt (s : SystemPath) : string :=
  transport_fmt (sp_protocol s) +:+ "://" +:+ ip_text (sp_address s) +:+ ":" +:+ num_text 10 (sp_port s).

Section text.
Context {U : UuidApi} {T : UuidText}.

(** [Display] of [ActorPath]. *)
Definition segments_text (path : list string) : string :=
  foldl (λ acc arg, (acc +:+ String PATH_SEP EmptyString) +:+ arg) EmptyString path.

Definition actor_fmt (p : ActorPath) : string :=
  match p with
  | Named np => system_fmt (np_system np) +:+ segments_text (np_path np)
  | Unique up => system_fmt (up_system up) +:+ String UNIQUE_PATH_SEP (uuid_fmt (up_id up))
  end.

(** Constructors; those of [NamedPath] assert that the path is valid. *)
Definition unique_new (protocol : Transport) (address : IpAddr) (port : Z) (id : Uuid) : UniquePath :=
  MkUniquePath (MkSystemPath protocol address port) id.
Definition unique_with_system (system : SystemPath) (id : Uuid) : UniquePath := MkUniquePath system id.
Definition unique_with_socket (protocol : Transport) (socket : SocketAddr) (id : Uuid) : UniquePath :=
  MkUniquePath (with_socket protocol socket) id.

Definition named_with_system {E} (system : SystemPath) (path : list string) : res E NamedPath :=
  _ ← assert_ (bool_decide (validate_lookup_path path = Ok ()));
  Ok (MkNamedPath system path).
Definition named_with_socket {E} (protocol : Transport) (socket : SocketAddr) (path : list string)
    : res E NamedPath :=
  _ ← assert_ (bool_decide (validate_lookup_path path = Ok ()));
  Ok (MkNamedPath (with_socket protocol socket) path).
Definition named_new {E} (protocol : Transport) (address : IpAddr) (port : Z) (path : list string)
    : res E NamedPath :=
  _ ← assert_ (bool_decide (validate_lookup_path path = Ok ()));
  Ok (MkNamedPath (MkSystemPath protocol address port) path).

(** [UniquePath::from_str]. *)
Definition unique_from_str (s : string) : res PathParseError UniquePath :=
  match split_scheme s with
  | [scheme; rest] =>
      proto ← transport_from_str scheme;
      match split_char UNIQUE_PATH_SEP rest with
      | [addr; id] =>
          socket ← ok_or PathAddr (socket_from_str addr);
          uuid ← ok_or (Form s) (uuid_from_str id);
          Ok (unique_with_socket proto socket uuid)
      | _ => Err (Form s)
      end
  | _ => Err (Form s)
  end.

(** [NamedPath::from_str]. *)
Definition named_from_str (s : string) : res PathParseError NamedPath :=
  match split_scheme s with
  | [scheme; rest] =>
      proto ← transport_from_str scheme;
      match split_char PATH_SEP rest with
      | addr :: path =>
          socket ← ok_or PathAddr (socket_from_str addr);
          _ ← validate_lookup_path path;
          named_with_socket proto socket path
      | [] => Err (Form s)
      end
  | _ => Err (Form s)
  end.

(** [ActorPath::from_str]. *)
Definition actor_from_str (s : string) : res PathParseError ActorPath :=
  if contains_char UNIQUE_PATH_SEP s then p ← unique_from_str s; Ok (Unique p)
  else p ← named_from_str s; Ok (Named p).

(** [TryFrom<String>]. *)
Definition unique_try_from (s : string) : res PathParseError UniquePath := unique_from_str s.
Definition named_try_from (s : string) : res PathParseError NamedPath := named_from_str s.
Definition actor_try_from (s : string) : res PathParseError ActorPath := p ← actor_from_str s; Ok p.
End text.

(** ** Splitting off the scheme *)

(** Text without two slashes in a row, in which no scheme ends. *)
Fixpoint single_slashes (s : string) : Prop :=
  match s with
  | EmptyString => True
  | String c s =>
      (c = PATH_SEP → match s with String c' _ => c' ≠ PATH_SEP | EmptyString => True end) ∧
      single_slashes s
  end.

Lemma split_scheme_step c s :
  c ≠ ":"%char ∨ single_slashes s →
  split_scheme (String c s) = cons_first c (split_scheme s).
Proof.
  intros H. destruct s as [|c1 [|c2 s]]; try done. simpl. rewrite decide_False; [done|].
  intros (-> & -> & ->). destruct H as [|[H _]]; [done|]. by apply H.
Qed.

Lemma split_scheme_single s : single_slashes s → split_scheme s = [s].
Proof.
  induction s as [|c s IH]; intros Hs; [done|]. destruct Hs as [_ Hs].
  rewrite split_scheme_step by auto. by rewrite IH.
Qed.

Lemma split_scheme_app p s :
  ":"%char ∉ chars p → split_scheme (p +:+ "://" +:+ s) = p :: split_scheme s.
Proof.
  induction p as [|c p IH]; intros Hp; [done|]. simpl in Hp. apply not_elem_of_cons in Hp as [Hc Hp].
  change (String c p +:+ ?t) with (String c (p +:+ t)).
  rewrite split_scheme_step by (left; congruence). by rewrite IH.
Qed.

Lemma single_slashes_none s : no_char PATH_SEP s → single_slashes s.
Proof.
  unfold no_char. induction s as [|c s IH]; simpl; [done|]. rewrite not_elem_of_cons.
  intros [Hc Hs]. split; [congruence|auto].
Qed.

Lemma single_slashes_app s t :
  no_char PATH_SEP s → single_slashes t → single_slashes (s +:+ t).
Proof.
  unfold no_char. intros Hs Ht. induction s as [|c s IH]; simpl; [done|].
  simpl in Hs. apply not_elem_of_cons in Hs as [Hc Hs]. split; [congruence|auto].
Qed.

Lemma single_slashes_path base path :
  no_char PATH_SEP base → Forall (λ s, s ≠ "" ∧ no_char PATH_SEP s) path →
  single_slashes (join_sep PATH_SEP (base :: path)).
Proof.
  intros Hb Hp. revert base Hb. induction Hp as [|s path [Hne Hs] _ IH]; intros base Hb.
  { by apply single_slashes_none. }
  rewrite join_sep_cons by done. apply single_slashes_app; [done|]. split; [|by apply IH].
  intros _. destruct s as [|c s]; [done|]. unfold no_char in Hs. simpl in Hs.
  apply not_elem_of_cons in Hs as [Hc _]. destruct path; simpl; congruence.
Qed.

Lemma segments_text_join base path :
  base +:+ segments_text path = join_sep PATH_SEP (base :: path).
Proof.
  assert (∀ path acc, foldl (λ acc arg, (acc +:+ String PATH_SEP EmptyString) +:+ arg) acc path
                      = acc +:+ segments_text path) as Hacc.
  { intros l. induction l as [|s l IH] using rev_ind; intros acc.
    - by rewrite string_app_nil_r.
    - unfold segments_text. rewrite !foldl_app. simpl. by rewrite IH, !string_app_assoc. }
  revert base. induction path as [|s path IH]; intros base.
  { by rewrite string_app_nil_r. }
  rewrite join_sep_cons by done. rewrite <-IH. unfold segments_text. simpl foldl.
  change (EmptyString +:+ ?x) with x. change (String PATH_SEP "" +:+ s) with (String PATH_SEP s).
  by rewrite (Hacc path (String PATH_SEP s)).
Qed.

(** ** Parsing printed paths *)

Definition socket_text (s : SystemPath) : string :=
  ip_text (sp_address s) +:+ ":" +:+ num_text 10 (sp_port s).

Lemma system_fmt_eq s : system_fmt s = transport_fmt (sp_protocol s) +:+ "://" +:+ socket_text s.
Proof. done. Qed.

Lemma not_addr_char c : to_digit 16 c = None → c ≠ "."%char → c ≠ ":"%char → ¬ is_addr_char c.
Proof. intros Hc ?? [[d Hd]|[->| ->]]; congruence. Qed.

Lemma socket_text_chars s : Forall is_addr_char (chars (socket_text s)).
Proof.
  unfold socket_text. rewrite !chars_app. apply Forall_app_2; [apply ip_text_chars|].
  apply Forall_app_2; [by repeat constructor; right; right|]. by apply addr_chars_hex, num_text_hex.
Qed.

Lemma socket_text_no_char c s :
  to_digit 16 c = None → c ≠ "."%char → c ≠ ":"%char → no_char c (socket_text s).
Proof.
  intros Hc Hd Hn Hin. eapply not_addr_char; [done..|].
  by apply (Forall_forall is_addr_char (chars (socket_text s))); [apply socket_text_chars|].
Qed.

Lemma transport_round_trip t : transport_from_str (transport_fmt t) = Ok t.
Proof. by destruct t. Qed.

Lemma split_printed t rest :
  single_slashes rest → split_scheme (transport_fmt t +:+ "://" +:+ rest) = [transport_fmt t; rest].
Proof.
  intros Hr. rewrite split_scheme_app, split_scheme_single by (done || destruct t; compute_done).
  done.
Qed.

Lemma contains_false c s : contains_char c s = false ↔ no_char c s.
Proof. unfold contains_char. by rewrite bool_decide_eq_false. Qed.

Lemma no_char_app c s t : no_char c (s +:+ t) ↔ no_char c s ∧ no_char c t.
Proof. unfold no_char. rewrite chars_app, not_elem_of_app. done. Qed.

Lemma no_char_forall c s : no_char c s ↔ Forall (λ a, a ≠ c) (chars s).
Proof. unfold no_char. rewrite Forall_forall. naive_solver. Qed.

Lemma system_fmt_no_hash s : no_char UNIQUE_PATH_SEP (system_fmt s).
Proof.
  rewrite system_fmt_eq, !no_char_app. split_and!.
  - destruct (sp_protocol s); compute_done.
  - compute_done.
  - by apply socket_text_no_char.
Qed.

Lemma validate_lookup_path_no_panic path : validate_lookup_path path ≠ Panic.
Proof.
  assert (∀ is_last len s, lookup_chars is_last len s ≠ Panic) as Hc.
  { intros is_last len s. induction s as [|c s IH]; [done|]. simpl. by repeat case_match. }
  unfold validate_lookup_path. generalize 0 (length path). intros index len. revert index.
  induction path as [|s path IH]; intros index; [done|]. simpl. unfold validate_lookup_path_segment.
  case_decide; [done|]. specialize (Hc (bool_decide (index + 1 = len)) (String.length s) s).
  destruct (lookup_chars _ _ s) as [[]| |]; [|done..]. cbn. apply IH.
Qed.

Section printed.
Context {U : UuidApi} {T : UuidText}.

Lemma lookup_path_segments path :
  lookup_path_ok path → Forall (λ s, s ≠ "" ∧ no_char PATH_SEP s ∧ no_char UNIQUE_PATH_SEP s) path.
Proof.
  intros H. apply Forall_lookup_2. intros i s Hi. destruct (H i s Hi) as (? & ? & ? & _). done.
Qed.

(** Reading the text of a named path reads its socket and keeps the rest. *)
Lemma printed_named np :
  lookup_path_ok (np_path np) →
  actor_from_str (actor_fmt (Named np)) =
    (socket ← ok_or PathAddr (socket_from_str (socket_text (np_system np)));
     Ok (Named (MkNamedPath (with_socket (sp_protocol (np_system np)) socket) (np_path np)))).
Proof.
  destruct np as [sys path]. simpl. intros Hok. pose proof (lookup_path_segments _ Hok) as Hseg.
  assert (no_char UNIQUE_PATH_SEP (system_fmt sys +:+ segments_text path)) as Hhash.
  { apply no_char_app. split; [apply system_fmt_no_hash|].
    pose proof (segments_text_join "" path) as Hj. change ("" +:+ ?x) with x in Hj. rewrite Hj.
    apply no_char_forall, chars_join; [done|]. constructor; [done|].
    eapply Forall_impl; [done|]. intros s (_ & _ & ?). by apply no_char_forall. }
  assert (no_char PATH_SEP (socket_text sys)) as Hsock by by apply socket_text_no_char.
  unfold actor_from_str. rewrite (proj2 (contains_false _ _) Hhash). unfold named_from_str.
  rewrite system_fmt_eq, <-!string_app_assoc, segments_text_join.
  rewrite split_printed.
  2:{ apply single_slashes_path; [done|]. eapply Forall_impl; [done|]. naive_solver. }
  rewrite transport_round_trip, split_join; [|done|].
  2:{ constructor; [done|]. by apply lookup_path_no_sep. }
  apply validate_lookup_path_Ok in Hok. cbn [mbind res_bind].
  destruct (socket_from_str _) as [socket|]; [|done]. cbn. rewrite Hok. cbn.
  unfold named_with_socket. by rewrite bool_decide_true.
Qed.

Lemma uuid_no_char c u : to_digit 16 c = None → c ≠ "-"%char → no_char c (uuid_fmt u).
Proof.
  intros Hc Hne Hin. pose proof (uuid_fmt_chars u) as H. rewrite Forall_forall in H.
  destruct (H c Hin) as [[d Hd]|]; congruence.
Qed.

Lemma printed_unique up :
  actor_from_str (actor_fmt (Unique up)) =
    (socket ← ok_or PathAddr (socket_from_str (socket_text (up_system up)));
     Ok (Unique (MkUniquePath (with_socket (sp_protocol (up_system up)) socket) (up_id up)))).
Proof.
  destruct up as [sys id]. simpl.
  assert (no_char PATH_SEP (socket_text sys)) by by apply socket_text_no_char.
  assert (no_char UNIQUE_PATH_SEP (socket_text sys)) by by apply socket_text_no_char.
  assert (no_char PATH_SEP (uuid_fmt id)) by by apply uuid_no_char.
  assert (no_char UNIQUE_PATH_SEP (uuid_fmt id)) by by apply uuid_no_char.
  unfold actor_from_str, contains_char. rewrite bool_decide_true.
  2:{ rewrite chars_app. apply elem_of_app. right. by left. }
  unfold unique_from_str. rewrite system_fmt_eq, <-!string_app_assoc.
  rewrite split_printed.
  2:{ apply single_slashes_none, no_char_app. split; [done|].
      unfold no_char. simpl. apply not_elem_of_cons. done. }
  rewrite transport_round_trip. cbn [mbind res_bind].
  rewrite split_char_app, split_char_none by done.
  destruct (socket_from_str _) as [socket|]; [|done]. cbn. by rewrite uuid_text_round_trip.
Qed.

(** The named paths that the constructors build. *)
Definition path_valid (p : ActorPath) : Prop :=
  match p with Named np => lookup_path_ok (np_path np) | Unique _ => True end.

Definition is_v4 (a : IpAddr) : bool := match a with V4 _ => true | V6 _ => false end.

Lemma printed_actor p :
  path_valid p →
  ∀ socket, socket_from_str (socket_text (ap_system p)) = Some socket →
  with_socket (sp_protocol (ap_system p)) socket = ap_system p →
  actor_from_str (actor_fmt p) = Ok p.
Proof.
  destruct p as [[sys id]|[sys path]]; intros Hv socket Hs Heq.
  - rewrite printed_unique. simpl in *. rewrite Hs. cbn. by rewrite Heq.
  - rewrite printed_named by done. simpl in *. rewrite Hs. cbn. by rewrite Heq.
Qed.

Lemma printed_v4 p :
  is_v4 (sp_address (ap_system p)) = true → wf_system (ap_system p) → path_valid p →
  actor_from_str (actor_fmt p) = Ok p.
Proof.
  intros H4 [Hip Hport] Hv. destruct (ap_system p) as [proto [ip|ip] port] eqn:Hsys; [|done].
  eapply printed_actor; [done|..]; rewrite Hsys; [by apply socket_v4_text|done].
Qed.

Lemma printed_v6 p :
  is_v4 (sp_address (ap_system p)) = false → path_valid p →
  actor_from_str (actor_fmt p) = Err PathAddr.
Proof.
  intros H4 Hv.
  assert (socket_from_str (socket_text (ap_system p)) = None) as Hs.
  { destruct (ap_system p) as [proto [ip|ip] port]; [done|]. unfold socket_text. simpl.
    destruct (ipv6_text_colon ip (num_text 10 port)) as (q & r & Hq & Heq).
    change (":" +:+ ?t) with (String ":" t). rewrite Heq. by apply socket_v6_text_rejected. }
  destruct p as [up|np].
  - rewrite printed_unique. simpl in Hs. by rewrite Hs.
  - rewrite printed_named by done. simpl in Hs. by rewrite Hs.
Qed.

(** What [UniquePath::from_str] goes through. *)
Lemma unique_from_str_inv s :
  (∃ e, unique_from_str s = Err e) ∨
  (∃ up a, unique_from_str s = Ok up ∧ socket_from_str a = Some (socket_address (up_system up))).
Proof.
  unfold unique_from_str. destruct (split_scheme s) as [|a [|b []]]; eauto.
  destruct (transport_from_str a) as [t|e|] eqn:Ht; [|by eauto|].
  2:{ unfold transport_from_str in Ht. repeat case_decide; done. }
  cbn [mbind res_bind]. destruct (split_char _ b) as [|x [|y []]]; eauto.
  destruct (socket_from_str x) as [[ip port]|] eqn:Hx; [|cbn; by eauto]. cbn.
  destruct (uuid_from_str y) as [u|]; [|cbn; by eauto]. cbn. right. by eexists _, x.
Qed.

(** What [NamedPath::from_str] goes through. *)
Lemma named_from_str_inv s :
  (∃ e, named_from_str s = Err e) ∨
  (∃ np a, named_from_str s = Ok np ∧ lookup_path_ok (np_path np) ∧
    socket_from_str a = Some (socket_address (np_system np))).
Proof.
  unfold named_from_str. destruct (split_scheme s) as [|a [|b []]]; eauto.
  destruct (transport_from_str a) as [t|e|] eqn:Ht; [|by eauto|].
  2:{ unfold transport_from_str in Ht. repeat case_decide; done. }
  cbn [mbind res_bind]. destruct (split_char _ b) as [|x path]; [by eauto|].
  destruct (socket_from_str x) as [[ip port]|] eqn:Hx; [|cbn; by eauto]. cbn.
  destruct (validate_lookup_path path) as [[]|e|] eqn:Hv; cbn; [|by eauto|].
  - right. unfold named_with_socket. rewrite bool_decide_true by done. cbn.
    eexists _, x. split; [done|]. split; [by apply validate_lookup_path_Ok|done].
  - by destruct (validate_lookup_path_no_panic path).
Qed.

(** C23: The text of an actor path whose named part is a valid lookup path parses back to
    the path when its address is an IPv4 address, for unique and for named paths; for
    an IPv6 address it is always refused, since the address is printed without the
    brackets that the parser of socket addresses wants. *)
Theorem path_text_round_trip (p : ActorPath) :
  wf_system (ap_system p) → path_valid p →
  actor_from_str (actor_fmt p) = if is_v4 (sp_address (ap_system p)) then Ok p else Err PathAddr.
Proof.
  intros Hw Hv. destruct (is_v4 _) eqn:H4; [by apply printed_v4|by apply printed_v6].
Qed.

(** Parsing any text whatever gives an error or a path, never a panic; a path that is
    parsed has an address and a port in range and a named part that is a valid lookup
    path, and printing it gives a text that stands for the same path (IPv4). *)
Theorem parsed_path_valid (s : string) :
  match actor_from_str s with
  | Ok p => path_valid p ∧ wf_system (ap_system p) ∧
            (is_v4 (sp_address (ap_system p)) = true → actor_from_str (actor_fmt p) = Ok p)
  | Err e => True
  | Panic => False
  end.
Proof.
  unfold actor_from_str at 1. destruct (contains_char _ s).
  - destruct (unique_from_str_inv s) as [[e ->]|(up & a & -> & Ha)]; [done|].
    apply socket_from_str_range in Ha as Hw. split; [done|]. split; [done|].
    intros. by apply printed_v4.
  - destruct (named_from_str_inv s) as [[e ->]|(np & a & -> & Hv & Ha)]; [done|].
    apply socket_from_str_range in Ha as Hw. split; [done|]. split; [done|].
    intros. by apply printed_v4.
Qed.
End printed.

(** ** Concrete ids

    Sixteen bytes in hexadecimal, with hyphens after the fourth, sixth, eighth and
    tenth; reading skips hyphens. *)
Definition byte_text (b : Z) : string := String (digit (b / 16)) (String (digit (b mod 16)) EmptyString).
Definition bytes_text (bs : list Z) : string := foldr (λ b s, byte_text b +:+ s) EmptyString bs.

Definition hyphenated (bs : list Z) : string :=
  bytes_text (take 4 bs) +:+ "-" +:+ bytes_text (take 2 (drop 4 bs)) +:+ "-" +:+
  bytes_text (take 2 (drop 6 bs)) +:+ "-" +:+ bytes_text (take 2 (drop 8 bs)) +:+ "-" +:+
  bytes_text (drop 10 bs).

Fixpoint read_bytes (s : string) : option (list Z) :=
  match s with
  | EmptyString => Some []
  | String a s1 =>
      if decide (a = "-"%char) then read_bytes s1
      else match s1 with
           | String b s2 =>
               h ← to_digit 16 a; l ← to_digit 16 b; bs ← read_bytes s2; Some ((h * 16 + l)%Z :: bs)
           | EmptyString => None
           end
  end.

Lemma digit_not_hyphen d : is_digit 16 d → digit d ≠ "-"%char.
Proof. intros Hd He. pose proof (to_digit_digit 16 d ltac:(done) Hd) as H. by rewrite He in H. Qed.

Lemma byte_digits b : is_byte b → is_digit 16 (b / 16) ∧ is_digit 16 (b mod 16).
Proof.
  unfold is_byte, is_digit. intros Hb. split; [|by apply Z.mod_pos_bound].
  split; [apply Z.div_pos; lia|apply Z.div_lt_upper_bound; lia].
Qed.

Lemma read_bytes_text bs s :
  Forall is_byte bs → read_bytes (bytes_text bs +:+ s) = (λ bs', bs ++ bs') <$> read_bytes s.
Proof.
  induction 1 as [|b bs Hb _ IH]; simpl.
  { change ("" +:+ s) with s. by destruct (read_bytes s). }
  destruct (byte_digits b Hb) as [Hh Hl]. rewrite decide_False by by apply digit_not_hyphen.
  rewrite !to_digit_digit by done. cbn. change ("" +:+ ?x) with x.
  rewrite IH. destruct (read_bytes s) as [bs'|]; cbn; [|done].
  do 2 f_equal. pose proof (Z.div_mod b 16). lia.
Qed.

Lemma read_bytes_hyphen s : read_bytes ("-" +:+ s) = read_bytes s.
Proof. done. Qed.

Lemma read_hyphenated bs : Forall is_byte bs → length bs = 16 → read_bytes (hyphenated bs) = Some bs.
Proof.
  intros Hb Hlen. unfold hyphenated.
  do 4 (rewrite read_bytes_text by auto using Forall_take, Forall_drop; rewrite read_bytes_hyphen).
  rewrite <-(string_app_nil_r (bytes_text (drop 10 bs))).
  rewrite read_bytes_text by auto using Forall_drop. cbn. rewrite app_nil_r.
  do 17 (destruct bs as [|? bs]; try done).
Qed.

Lemma bytes_text_chars bs : Forall is_byte bs → Forall is_hex (chars (bytes_text bs)).
Proof.
  induction 1 as [|b bs Hb _ IH]; simpl; [done|]. destruct (byte_digits b Hb).
  repeat constructor; [by eexists; apply to_digit_digit..|done].
Qed.

#[global, program] Instance uuid128_text : UuidText (U := uuid128_api) := {
  uuid_fmt := λ u, hyphenated (uuid_as_bytes u);
  uuid_from_str := λ s,
    bs ← read_bytes s; if decide (length bs = 16) then Some (uuid_from_bytes bs) else None;
}.
Next Obligation.
  intros u. cbn beta. rewrite read_hyphenated by (apply be_bytes_is_byte || apply uuid_as_bytes_len).
  cbn [mbind option_bind]. rewrite decide_True by apply uuid_as_bytes_len.
  f_equal. apply uuid_from_as_bytes.
Qed.
Next Obligation.
  intros u. cbn beta. unfold hyphenated. rewrite !chars_app.
  assert (Forall is_byte (uuid_as_bytes u)) as Hb by apply be_bytes_is_byte.
  assert (∀ bs, Forall is_byte bs → Forall (λ c, is_hex c ∨ c = "-"%char) (chars (bytes_text bs))) as Ht.
  { intros bs H. eapply Forall_impl; [by apply bytes_text_chars|]. by left. }
  repeat (apply Forall_app_2); try (by apply Ht; auto using Forall_take, Forall_drop);
    by repeat constructor; right.
Qed.

Lemma path_text_round_trip_witness :
  actor_fmt (Named (MkNamedPath example_system ["a"; "*"])) = "tcp://127.0.0.1:8080/a/*" ∧
  actor_from_str (actor_fmt (Named (MkNamedPath example_system ["a"; "*"])))
    = Ok (Named (MkNamedPath example_system ["a"; "*"])) ∧
  actor_from_str (actor_fmt (Named (MkNamedPath (MkSystemPath Tcp (V6 1) 80) ["a"]))) = Err PathAddr.
Proof.
  split; [vm_compute; reflexivity|].
  split; [apply (path_text_round_trip (Named (MkNamedPath example_system ["a"; "*"])))
         |apply (path_text_round_trip (Named (MkNamedPath (MkSystemPath Tcp (V6 1) 80) ["a"])))];
    try (apply validate_lookup_path_Ok; reflexivity); split; vm_compute; split; congruence.
Defined.
