(* ===== verification/Serialisation.v ===== *)
(** * Serialisation traits and the built-in serialisers

    Model of [core/src/serialisation/core.rs] (error kinds and the
    [Serialisable] / [Deserialiser] traits), [serialisation/mod.rs] (the
    serialisation id on the wire, default width) and
    [serialisation/default_serialisers.rs] ([String], [u64], [()]).
    A serialiser only ever appends to its buffer, so it is modelled by the
    bytes it appends; a deserialiser returns the bytes it leaves unread. *)

From S2P Require Import Prelude Extern.

(** The stable categories of [SerError]; messages and locations are dropped. *)
Inductive SerError :=
| InvalidData | InvalidType | Buffer | NoBuffersAvailable | NoClone | ThirdParty | Unknown.

#[global] Instance SerError_eq_dec : EqDecision SerError.
Proof. solve_decision. Defined.

Abbreviation SerId := Z (only parsing).

Module serialisation_ids.
Definition UNKNOWN : SerId := 0%Z.
Definition DISPATCH_ENVELOPE : SerId := 1%Z.
Definition UNIQUE_PATH : SerId := 2%Z.
Definition NAMED_PATH : SerId := 3%Z.
Definition SYSTEM_PATH : SerId := 5%Z.
Definition ACTOR_PATH : SerId := 6%Z.
Definition STR : SerId := 6%Z.
Definition U64 : SerId := 7%Z.
Definition UNIT : SerId := 8%Z.
Definition SERDE : SerId := 19%Z.
Definition PBUF : SerId := 20%Z.
End serialisation_ids.

(** The trait [Serialisable]. *)
Class Serialisable (T : Type) := {
  ser_id : T → SerId;
  size_hint : T → option nat;
  serialise : T → res SerError (list byte);
}.

(** The trait [Deserialiser]. *)
Class Deserialiser (T : Type) := {
  SER_ID : SerId;
  deserialise : list byte → res SerError (T * list byte);
}.
Arguments SER_ID T {_}.
Arguments deserialise T {_} _.

(** The law a pair of the two owes its users, for the values in [ok]. *)
Class Codec (T : Type) `{Serialisable T} `{Deserialiser T} (ok : T → Prop) := {
  codec_id : ∀ t, ser_id t = SER_ID T;
  codec_round_trip : ∀ t rest, ok t →
    ∃ bs, serialise t = Ok bs ∧ deserialise T (bs ++ rest) = Ok (t, rest);
}.

(** ** Strings as UTF-8 bytes *)
Fixpoint str_bytes (s : string) : list byte :=
  match s with
  | EmptyString => []
  | String c s => Z.of_N (N_of_ascii c) :: str_bytes s
  end.

Fixpoint bytes_str (bs : list byte) : string :=
  match bs with
  | [] => EmptyString
  | b :: bs => String (ascii_of_N (Z.to_N b)) (bytes_str bs)
  end.

Definition between (lo hi x : Z) : bool := (lo <=? x)%Z && (x <=? hi)%Z.
Definition utf8_cont (b : byte) : bool := between 128 191 b.

(** The test of [String::from_utf8]: well-formed UTF-8 byte sequences. *)
Fixpoint utf8_valid (bs : list byte) : bool :=
  match bs with
  | [] => true
  | a :: bs1 =>
      if between 0 127 a then utf8_valid bs1
      else match bs1 with
      | [] => false
      | b :: bs2 =>
          if between 194 223 a then utf8_cont b && utf8_valid bs2
          else match bs2 with
          | [] => false
          | c :: bs3 =>
              if between 224 239 a then
                (if (a =? 224)%Z then between 160 191 b
                 else if (a =? 237)%Z then between 128 159 b else utf8_cont b)
                && utf8_cont c && utf8_valid bs3
              else match bs3 with
              | [] => false
              | d :: bs4 =>
                  (if (a =? 240)%Z then between 144 191 b
                   else if (a =? 244)%Z then between 128 143 b
                   else between 241 243 a && utf8_cont b)
                  && utf8_cont c && utf8_cont d && utf8_valid bs4
              end
          end
      end
  end.

(** A Rust [String] is always valid UTF-8. *)
Definition wf_string (s : string) : Prop := utf8_valid (str_bytes s) = true.

Lemma bytes_str_bytes s : bytes_str (str_bytes s) = s.
Proof. induction s as [|c s IH]; simpl; [done|]. by rewrite N2Z.id, ascii_N_embedding, IH. Qed.

Lemma str_bytes_is_byte s : Forall is_byte (str_bytes s).
Proof.
  induction s as [|c s IH]; simpl; constructor; auto.
  unfold is_byte. pose proof (N_ascii_bounded c). lia.
Qed.

Lemma length_str_bytes s : length (str_bytes s) = String.length s.
Proof. induction s; simpl; auto. Qed.

Section serialisers.
Context {B : BytesApi}.

(** [put_ser_id] / [get_ser_id], default width. *)
Definition put_ser_id (id : SerId) : list byte := put_uint 8 id.
Definition get_ser_id (buf : list byte) : res SerError (SerId * list byte) := get_int 8 buf.

#[global] Instance String_serialisable : Serialisable string := {
  ser_id := λ _, serialisation_ids.STR;
  size_hint := λ s, Some (String.length s + 8);
  serialise := λ s,
    let slice := str_bytes s in
    let len_u64 := Z.of_nat (length slice) in
    Ok (put_uint 8 len_u64 ++ slice);
}.

#[global] Instance String_deserialiser : Deserialiser string := {
  SER_ID := serialisation_ids.STR;
  deserialise := λ buf,
    '(len_u64, buf) ← get_int 8 buf;
    let len := Z.to_nat len_u64 in
    '(data, buf) ← copy_to_slice len buf;
    if utf8_valid data then Ok (bytes_str data, buf) else Err Unknown;
}.

#[global] Instance u64_serialisable : Serialisable Z := {
  ser_id := λ _, serialisation_ids.U64;
  size_hint := λ _, Some 8;
  serialise := λ v, Ok (put_uint 8 v);
}.

#[global] Instance u64_deserialiser : Deserialiser Z := {
  SER_ID := serialisation_ids.U64;
  deserialise := λ buf, get_int 8 buf;
}.

#[global] Instance unit_serialisable : Serialisable () := {
  ser_id := λ _, serialisation_ids.UNIT;
  size_hint := λ _, Some 0;
  serialise := λ _, Ok [];
}.

#[global] Instance unit_deserialiser : Deserialiser () := {
  SER_ID := serialisation_ids.UNIT;
  deserialise := λ buf, Ok ((), buf);
}.

Definition ok_string (s : string) : Prop :=
  wf_string s ∧ in_u 64 (Z.of_nat (String.length s)).

#[global] Instance String_codec : Codec string ok_string.
Proof.
  split; [done|]. intros s rest [Hs Hl]. eexists; split; [done|].
  cbn [deserialise String_deserialiser]. rewrite <-app_assoc, length_str_bytes.
  rewrite get_int_put by apply Hl. cbn [mbind res_bind].
  rewrite Nat2Z.id, copy_to_slice_app by apply length_str_bytes. cbn [mbind res_bind].
  unfold wf_string in Hs. by rewrite Hs, bytes_str_bytes.
Qed.

#[global] Instance u64_codec : Codec Z (in_u 64).
Proof. split; [done|]. intros v rest Hv. eexists; split; [done|]. by apply get_int_put. Qed.

#[global] Instance unit_codec : Codec () (λ _, True).
Proof. split; [done|]. intros [] rest _. by exists []. Qed.
End serialisers.
