(* ===== verification/Framing.v ===== *)
(** * Serialised system and actor paths

    Model of [core/src/messaging/framing.rs]: the one-byte header that packs
    path type, transport and address type with the bit fields of
    [Bitfields], and the wire format of [SystemPath] and [ActorPath]. *)

From S2P Require Import Prelude Extern Bitfields Paths Serialisation.

Inductive AddressType := IPv4 | IPv6 | Domain.
Inductive PathType := PUnique | PNamed.

#[global] Instance AddressType_eq_dec : EqDecision AddressType.
Proof. solve_decision. Defined.
#[global] Instance PathType_eq_dec : EqDecision PathType.
Proof. solve_decision. Defined.

(** [AddressType::try_from]: the [Domain] discriminant is not accepted. *)
Definition address_type_try_from (x : byte) : option AddressType :=
  if decide (x = 0%Z) then Some IPv4 else if decide (x = 1%Z) then Some IPv6 else None.

Definition path_type_try_from (x : byte) : option PathType :=
  if decide (x = 0%Z) then Some PUnique else if decide (x = 1%Z) then Some PNamed else None.

Definition transport_try_from (x : byte) : option Transport :=
  if decide (x = 0%Z) then Some Local
  else if decide (x = 2%Z) then Some Udp
  else if decide (x = 1%Z) then Some Tcp else None.

#[global] Instance AddressType_field : BitField AddressType := {
  POS := 2; WIDTH := 2;
  into_u8 := λ a, match a with IPv4 => 0 | IPv6 => 1 | Domain => 2 end%Z;
  try_from_u8 := address_type_try_from;
}.

#[global] Instance PathType_field : BitField PathType := {
  POS := 7; WIDTH := 1;
  into_u8 := λ a, match a with PUnique => 0 | PNamed => 1 end%Z;
  try_from_u8 := path_type_try_from;
}.

#[global] Instance Transport_field : BitField Transport := {
  POS := 0; WIDTH := 5;
  into_u8 := λ a, match a with Local => 0 | Tcp => 1 | Udp => 2 end%Z;
  try_from_u8 := transport_try_from;
}.

(** [AddressType::from(&IpAddr)]. *)
Definition address_type_of (a : IpAddr) : AddressType :=
  match a with V4 _ => IPv4 | V6 _ => IPv6 end.

Record SystemPathHeader := MkHeader {
  h_storage : list byte;
  h_path_type : PathType;
  h_protocol : Transport;
  h_address_type : AddressType;
}.

(** The common body of [from_path] and [from_system]: three stores, in this
    order, each of which [expect]s success. *)
Definition make_header {E} (path_type : PathType) (sys : SystemPath) : res E SystemPathHeader :=
  let address_type := address_type_of (sp_address sys) in
  let storage := [0%Z] in
  storage ← expect (store PathType storage path_type);
  storage ← expect (store Transport storage (sp_protocol sys));
  storage ← expect (store AddressType storage address_type);
  Ok (MkHeader storage path_type (sp_protocol sys) address_type).

Definition from_system {E} (sys : SystemPath) : res E SystemPathHeader :=
  make_header PUnique sys.

(** [TryFrom<u8> for SystemPathHeader]. *)
Definition header_try_from (value : byte) : res SerError SystemPathHeader :=
  let storage := [value] in
  path_type ← map_err (λ _, InvalidData) (get_as PathType storage);
  protocol ← map_err (λ _, InvalidData) (get_as Transport storage);
  address_type ← map_err (λ _, InvalidData) (get_as AddressType storage);
  Ok (MkHeader storage path_type protocol address_type).

Section framing.
Context {B : BytesApi} {U : UuidApi}.

Definition from_path {E} (p : ActorPath) : res E SystemPathHeader :=
  let path_type := match p with Unique _ => PUnique | Named _ => PNamed end in
  make_header path_type (ap_system p).

(** [SystemPathHeader::put_into]: the single storage byte. *)
Definition put_header {E} (h : SystemPathHeader) : res E (list byte) :=
  b ← unwrap (h_storage h !! 0); Ok (put_uint 1 b).

Definition system_path_put_into_buf (path : SystemPath) : list byte :=
  octets (sp_address path) ++ put_uint 2 (sp_port path).

Definition system_path_size_hint (path : SystemPath) : option nat :=
  let size := 0 in
  let size := size + 1 in
  let size := size + match sp_address path with V4 _ => 4 | V6 _ => 16 end in
  let size := size + 2 in
  Some size.

#[global] Instance SystemPath_serialisable : Serialisable SystemPath := {
  ser_id := λ _, serialisation_ids.SYSTEM_PATH;
  size_hint := system_path_size_hint;
  serialise := λ path,
    header ← from_system path;
    hd ← put_header header;
    Ok (hd ++ system_path_put_into_buf path);
}.

Definition system_path_from_buf (buf : list byte)
    : res SerError (SystemPathHeader * SystemPath * list byte) :=
  '(fields, buf) ← get_int 1 buf;
  header ← header_try_from fields;
  '(address, buf) ←
    match h_address_type header with
    | IPv4 =>
        if decide (length buf < 4) then Err InvalidData
        else '(ip_bytes, buf) ← copy_to_slice 4 buf; Ok (ip_from_4 ip_bytes, buf)
    | IPv6 =>
        if decide (length buf < 16) then Err InvalidData
        else '(ip_bytes, buf) ← copy_to_slice 16 buf; Ok (ip_from_16 ip_bytes, buf)
    | Domain => Panic
    end;
  '(port, buf) ← get_int 2 buf;
  Ok (header, MkSystemPath (h_protocol header) address port, buf).

#[global] Instance SystemPath_deserialiser : Deserialiser SystemPath := {
  SER_ID := serialisation_ids.SYSTEM_PATH;
  deserialise := λ buf,
    '(_, path, buf) ← system_path_from_buf buf; Ok (path, buf);
}.

(** [u16::try_from(n).ok()]. *)
Definition u16_try_from (n : nat) : option Z :=
  if decide (Z.of_nat n < 65536)%Z then Some (Z.of_nat n) else None.
(** [u16::checked_add]. *)
Definition u16_checked_add (a b : Z) : option Z :=
  if decide (a + b < 65536)%Z then Some (a + b)%Z else None.

Definition actor_path_size_hint (p : ActorPath) : option nat :=
  size ← system_path_size_hint (ap_system p);
  add ← match p with
        | Unique _ => Some 16
        | Named np =>
            let path_len := 2%Z in
            name_len ← u16_try_from (length (np_path np) * 5);
            Z.to_nat <$> u16_checked_add path_len name_len
        end;
  Some (size + add).

Definition actor_path_serialise (p : ActorPath) : res SerError (list byte) :=
  header ← from_path p;
  hd ← put_header header;
  let sys := system_path_put_into_buf (ap_system p) in
  match p with
  | Unique up => Ok (hd ++ sys ++ uuid_as_bytes (up_id up))
  | Named np =>
      let path := join_sep PATH_SEP (np_path np) in
      let data := str_bytes path in
      name_len ← ok_or InvalidData (u16_try_from (length data));
      Ok (hd ++ sys ++ put_uint 2 name_len ++ data)
  end.

#[global] Instance ActorPath_serialisable : Serialisable ActorPath := {
  ser_id := λ _, serialisation_ids.ACTOR_PATH;
  size_hint := actor_path_size_hint;
  serialise := actor_path_serialise;
}.

Definition actor_path_deserialise (buf : list byte) : res SerError (ActorPath * list byte) :=
  '(header, system_path, buf) ← system_path_from_buf buf;
  match h_path_type header with
  | PUnique =>
      if decide (length buf < 16) then Err InvalidData
      else
        '(uuid_bytes, buf) ← copy_to_slice 16 buf;
        Ok (Unique (MkUniquePath system_path (uuid_from_bytes uuid_bytes)), buf)
  | PNamed =>
      '(name_len, buf) ← get_int 2 buf;
      let name_len := Z.to_nat name_len in
      if decide (length buf < name_len) then Err InvalidData
      else
        '(name_bytes, buf) ← copy_to_slice name_len buf;
        let name := bytes_str name_bytes in
        let parts := split_char PATH_SEP name in
        if decide (parts = []) then Err InvalidData
        else Ok (Named (MkNamedPath system_path parts), buf)
  end.

#[global] Instance ActorPath_deserialiser : Deserialiser ActorPath := {
  SER_ID := serialisation_ids.ACTOR_PATH;
  deserialise := actor_path_deserialise;
}.
End framing.

(** ** The header byte *)

Lemma header_v4 {E} pt proto ip port :
  ∃ b, make_header (E:=E) pt (MkSystemPath proto (V4 ip) port)
         = Ok (MkHeader [b] pt proto IPv4) ∧ is_byte b ∧
       header_try_from b = Ok (MkHeader [b] pt proto IPv4).
Proof. destruct pt, proto; eexists; (split_and!; [reflexivity|by vm_compute|reflexivity]). Qed.

Lemma header_v6 {E} pt proto ip port :
  ∃ b, make_header (E:=E) pt (MkSystemPath proto (V6 ip) port)
         = Ok (MkHeader [b] pt proto IPv6) ∧ is_byte b ∧
       header_try_from b = Err InvalidData.
Proof. destruct pt, proto; eexists; (split_and!; [reflexivity|by vm_compute|reflexivity]). Qed.

Section framing_lemmas.
Context {B : BytesApi} {U : UuidApi}.

Lemma put_header_one {E} b pt proto at_ :
  put_header (E:=E) (MkHeader [b] pt proto at_) = Ok (put_uint 1 b).
Proof. done. Qed.

Lemma get_header_byte b rest :
  is_byte b → get_int (E:=SerError) 1 (put_uint 1 b ++ rest) = Ok (b, rest).
Proof. intros Hb. apply get_int_put. apply Hb. Qed.

(** Reading back the system part of an IPv4 path. *)
Lemma system_path_from_buf_v4 pt proto ip port rest :
  in_u 32 ip → in_u 16 port →
  ∃ b, make_header (E:=SerError) pt (MkSystemPath proto (V4 ip) port)
         = Ok (MkHeader [b] pt proto IPv4) ∧
    system_path_from_buf (put_uint 1 b ++
      system_path_put_into_buf (MkSystemPath proto (V4 ip) port) ++ rest)
    = Ok (MkHeader [b] pt proto IPv4, MkSystemPath proto (V4 ip) port, rest).
Proof.
  intros Hip Hport. destruct (header_v4 (E:=SerError) pt proto ip port) as (b & Hm & Hb & Ht).
  exists b. split; [done|]. unfold system_path_from_buf, system_path_put_into_buf.
  rewrite get_header_byte by done. cbn [mbind res_bind]. rewrite Ht.
  cbn [mbind res_bind h_address_type h_protocol sp_address sp_port octets].
  rewrite <-app_assoc, decide_False by (rewrite length_app, length_be_bytes; lia).
  rewrite copy_to_slice_app by apply length_be_bytes. cbn [mbind res_bind].
  rewrite ip_from_4_octets by done. by rewrite get_int_put by apply Hport.
Qed.

Lemma u16_try_from_Some n : (Z.of_nat n < 65536)%Z → u16_try_from n = Some (Z.of_nat n).
Proof. intros. unfold u16_try_from. by rewrite decide_True. Qed.

Definition is_v4 (a : IpAddr) : Prop := match a with V4 _ => True | V6 _ => False end.

(** The actor paths the wire format can carry. *)
Definition path_fits (p : ActorPath) : Prop :=
  wf_system (ap_system p) ∧ is_v4 (sp_address (ap_system p)) ∧
  match p with
  | Unique _ => True
  | Named np =>
      np_path np ≠ [] ∧ Forall (no_char PATH_SEP) (np_path np) ∧
      (Z.of_nat (String.length (join_sep PATH_SEP (np_path np))) < 65536)%Z
  end.

Lemma actor_path_round_trip_lemma p rest :
  path_fits p →
  ∃ bs, actor_path_serialise p = Ok bs ∧
        actor_path_deserialise (bs ++ rest) = Ok (p, rest).
Proof.
  intros ((Hip & Hport) & Hv4 & Hp).
  destruct (ap_system p) as [proto [ip|ip] port] eqn:Hsys; [|done].
  simpl in Hip, Hport. unfold actor_path_serialise, actor_path_deserialise, from_path.
  rewrite Hsys. destruct p as [[sys id]|[sys path]]; simpl in Hsys; subst sys.
  - destruct (system_path_from_buf_v4 PUnique proto ip port (uuid_as_bytes id ++ rest) Hip Hport)
      as (b & -> & Hd). cbn [mbind res_bind]. rewrite put_header_one. cbn [mbind res_bind].
    cbn [ap_system up_system np_system up_id np_path].
    eexists; split; [done|]. rewrite <-!app_assoc, Hd. cbn [mbind res_bind h_path_type].
    rewrite decide_False by (rewrite length_app, uuid_as_bytes_len; lia).
    rewrite copy_to_slice_app by apply uuid_as_bytes_len. cbn [mbind res_bind up_id].
    by rewrite uuid_from_as_bytes.
  - destruct Hp as (Hne & Hsep & Hlen). cbn [np_path] in *.
    set (data := str_bytes (join_sep PATH_SEP path)).
    assert (Hdl : length data = String.length (join_sep PATH_SEP path))
      by apply length_str_bytes.
    destruct (system_path_from_buf_v4 PNamed proto ip port
      (put_uint 2 (Z.of_nat (length data)) ++ data ++ rest) Hip Hport) as (b & -> & Hd).
    cbn [mbind res_bind]. rewrite put_header_one. cbn [mbind res_bind].
    rewrite u16_try_from_Some by (rewrite Hdl; done). cbn [ok_or mbind res_bind].
    cbn [ap_system up_system np_system up_id np_path].
    eexists; split; [done|]. rewrite <-!app_assoc, Hd. cbn [mbind res_bind h_path_type].
    rewrite get_int_put by (rewrite Hdl; change (256 ^ Z.of_nat 2)%Z with 65536%Z; lia).
    cbn [mbind res_bind]. rewrite Nat2Z.id.
    rewrite decide_False by (rewrite length_app; lia).
    rewrite copy_to_slice_app by done. cbn [mbind res_bind].
    subst data. rewrite bytes_str_bytes, split_join by done. by rewrite decide_False.
Qed.

#[global] Instance ActorPath_codec : Codec ActorPath path_fits.
Proof. split; [done|]. intros p rest Hp. by apply actor_path_round_trip_lemma. Qed.

(** ** Properties *)

(** C22: serialising an actor path over IPv4 that is unique, or named with at least one
    segment, no slash in a segment and a text that fits the two-byte length prefix, and
    deserialising the bytes, followed by arbitrary further data, returns the same path and
    leaves exactly that further data unread. *)
Theorem actor_path_round_trip (p : ActorPath) (rest : list byte) :
  path_fits p →
  ∃ bs, actor_path_serialise p = Ok bs ∧
        actor_path_deserialise (bs ++ rest) = Ok (p, rest).
Proof. apply actor_path_round_trip_lemma. Qed.

(** a path with an IPv6 address is serialised without an error, but the
    result can never be read back: the address type occupies bits of the
    transport field, so every decoder rejects the header. *)
Theorem ipv6_path_undecodable (p : ActorPath) (ip : Z) (bs rest : list byte) :
  sp_address (ap_system p) = V6 ip →
  actor_path_serialise p = Ok bs →
  actor_path_deserialise (bs ++ rest) = Err InvalidData ∧
  deserialise SystemPath (bs ++ rest) = Err InvalidData.
Proof.
  intros Hv6 Hs.
  assert (∃ b tl, bs = put_uint 1 b ++ tl ∧ is_byte b ∧ header_try_from b = Err InvalidData)
    as (b & tl & -> & Hb & Hh).
  { unfold actor_path_serialise, from_path in Hs.
    destruct (ap_system p) as [proto addr port] eqn:Hsys. simpl in Hv6. subst addr.
    set (pt := match p with Unique _ => PUnique | Named _ => PNamed end) in *.
    destruct (header_v6 (E:=SerError) pt proto ip port) as (b & Hm & Hb & Ht).
    rewrite Hm in Hs. cbn [mbind res_bind] in Hs. rewrite put_header_one in Hs.
    cbn [mbind res_bind] in Hs. exists b. destruct p; inv_ok; eauto. }
  cbn [deserialise SystemPath_deserialiser]. unfold actor_path_deserialise, system_path_from_buf.
  rewrite <-!app_assoc, get_header_byte by done. cbn [mbind res_bind]. by rewrite Hh.
Qed.

(** the empty named path, which denotes the dead letter box, is not
    preserved by the wire format: it comes back as a path with one empty
    segment, which is not a valid lookup path. *)
Theorem empty_named_path_lost (proto : Transport) (ip port : Z) (rest : list byte) :
  in_u 32 ip → in_u 16 port →
  let sys := MkSystemPath proto (V4 ip) port in
  ∃ bs, actor_path_serialise (Named (MkNamedPath sys [])) = Ok bs ∧
    actor_path_deserialise (bs ++ rest) = Ok (Named (MkNamedPath sys [""]), rest) ∧
    validate_lookup_path [""] = Err empty_segment.
Proof.
  intros Hip Hport sys.
  destruct (actor_path_round_trip_lemma (Named (MkNamedPath sys [""])) rest)
    as (bs & Hs & Hd).
  { split_and!; try done. repeat constructor. apply not_elem_of_nil. }
  exists bs. split; [|split; [exact Hd|reflexivity]]. exact Hs.
Qed.

(** the size hints are exact where the source can compute them: a system
    path and a unique path occupy exactly as many bytes as announced. *)
Theorem size_hint_exact (p : ActorPath) (bs : list byte) :
  actor_path_serialise p = Ok bs →
  match p with
  | Unique up => actor_path_size_hint p = Some (length bs) ∧
      (∃ sb, serialise (up_system up) = Ok sb ∧ size_hint (up_system up) = Some (length sb))
  | Named np => length bs =
      default 0 (system_path_size_hint (np_system np)) + 2
      + String.length (join_sep PATH_SEP (np_path np))
  end.
Proof.
  assert (Hh : ∀ pt sys, ∃ b, make_header (E:=SerError) pt sys
    = Ok (MkHeader [b] pt (sp_protocol sys) (address_type_of (sp_address sys)))).
  { intros pt [proto [ip|ip] port];
      [destruct (header_v4 (E:=SerError) pt proto ip port) as (b & ? & _)
      |destruct (header_v6 (E:=SerError) pt proto ip port) as (b & ? & _)]; eauto. }
  unfold actor_path_serialise, from_path. intros Hs. destruct p as [[sys id]|[sys path]];
    cbn [ap_system up_system np_system np_path up_id] in *.
  - destruct (Hh PUnique sys) as (b & Hm). rewrite Hm in Hs. cbn [mbind res_bind] in Hs.
    rewrite put_header_one in Hs. inv_ok. split.
    + unfold actor_path_size_hint, system_path_size_hint, system_path_put_into_buf. simpl.
      rewrite !length_app, !length_put_uint, length_octets, uuid_as_bytes_len.
      by destruct (sp_address sys).
    + cbn [serialise size_hint SystemPath_serialisable]. unfold from_system. rewrite Hm.
      eexists; split; [done|]. unfold system_path_size_hint, system_path_put_into_buf.
      rewrite !length_app, !length_put_uint, length_octets.
      by destruct (sp_address sys).
  - destruct (Hh PNamed sys) as (b & Hm). rewrite Hm in Hs. cbn [mbind res_bind] in Hs.
    rewrite put_header_one in Hs. inv_ok. unfold system_path_put_into_buf.
    rewrite !length_app, !length_put_uint, length_octets, length_str_bytes. simpl.
    destruct (sp_address sys); lia.
Qed.
End framing_lemmas.

(** ** Witnesses *)

Definition example_named : ActorPath := Named (MkNamedPath example_system ["test"; "me"; "please"]).

Lemma store_get_as_witness :
  store Transport [0%Z] Udp = Ok [2%Z] ∧
  ∃ s', store Transport [0%Z] Udp = Ok s' ∧ length s' = length [0%Z] ∧ get_as Transport s' = Ok Udp.
Proof.
  split; [reflexivity|]. apply (store_get_as Transport [0%Z] Udp).
  - split; simpl; lia.
  - repeat constructor; lia.
  - split; simpl; lia.
  - reflexivity.
Defined.

Lemma store_disjoint_witness :
  store PathType [2%Z] PNamed = Ok [130%Z] ∧ get_as Transport [130%Z] = get_as Transport [2%Z].
Proof.
  split; [reflexivity|]. apply (store_disjoint PathType Transport [2%Z] [130%Z] PNamed).
  - split; simpl; lia.
  - repeat constructor; lia.
  - right. simpl. lia.
  - reflexivity.
Defined.

Lemma bitfield_outcomes_witness :
  (store Transport [] Tcp = Err Overflow ↔ ¬ fits Transport []) ∧
  (get_as Transport [] = Err Overflow ↔ ¬ fits Transport []) ∧
  (fits Transport [] → ∃ s', store Transport [] Tcp = Ok s') ∧
  (fits Transport [] → ∃ r, get_as Transport [] = ok_or TryFromErr (try_from_u8 r)).
Proof. apply (bitfield_outcomes Transport [] Tcp). constructor. Defined.

Lemma actor_path_round_trip_witness :
  path_fits example_named ∧
  ∃ bs, actor_path_serialise example_named = Ok bs ∧
        actor_path_deserialise (bs ++ [7%Z]) = Ok (example_named, [7%Z]).
Proof.
  assert (H : path_fits example_named).
  { split_and!; try (vm_compute; done).
    repeat constructor; apply (bool_decide_unpack _); vm_compute; exact I. }
  split; [exact H|]. apply (actor_path_round_trip example_named [7%Z]). exact H.
Defined.

Definition example_v6 : ActorPath :=
  Unique (MkUniquePath (MkSystemPath Tcp (V6 1) 8080) (uuid_from_u128 7)).

Lemma ipv6_path_undecodable_witness :
  ∃ bs, actor_path_serialise example_v6 = Ok bs ∧
    actor_path_deserialise (bs ++ []) = Err InvalidData ∧
    deserialise SystemPath (bs ++ []) = Err InvalidData.
Proof.
  eexists. split; [vm_compute; reflexivity|].
  apply (ipv6_path_undecodable example_v6 1); vm_compute; reflexivity.
Defined.

Lemma empty_named_path_lost_witness :
  ∃ bs, actor_path_serialise (Named (MkNamedPath (MkSystemPath Tcp (V4 1) 80) [])) = Ok bs ∧
    actor_path_deserialise (bs ++ []) = Ok (Named (MkNamedPath (MkSystemPath Tcp (V4 1) 80) [""]), []) ∧
    validate_lookup_path [""] = Err empty_segment.
Proof. apply (empty_named_path_lost Tcp 1 80 []); vm_compute; split; congruence. Defined.

Lemma size_hint_exact_witness :
  ∃ bs, actor_path_serialise example_named = Ok bs ∧ length bs = 7 + 2 + 14.
Proof.
  eexists. split; [vm_compute; reflexivity|].
  apply (size_hint_exact example_named). vm_compute. reflexivity.
Defined.
