(* ===== verification/Serde.v ===== *)
(** * The binary format for serde

    Model of [core/src/serialisation/serde_serialisers.rs]: the [Serializer] and
    the [Deserializer] behind the serialiser [Serde].

    Implementations of [Serialize] and [Deserialize] are clients of these two and
    not part of the repository.  A client that serialises is the tree of calls it
    makes, a term of serde's data model ([Value]); a client that deserialises is
    the tree of requests it makes ([Shape]), with the visitors that the data
    model documents: a sequence or a map takes elements until there are none,
    a tuple or a struct takes as many as it has fields, an enum reads the index
    of the variant.  The theorems hold for all trees.

    Floating-point numbers are their bits, characters their code points.  What
    is serialised is appended to the buffer; deserialising is code on the bytes
    that remain. *)

From S2P Require Import Prelude Extern Paths Serialisation Framing.

Section Serde.
Context {B : BytesApi}.

(** [put_i8] and the like write two's complement. *)
Definition put_signed (n : nat) (v : Z) : list byte := put_uint n (wrap (8 * Z.of_nat n) v).
Definition to_signed (w : Z) (u : Z) : Z := if (u <? 2 ^ (w - 1))%Z then u else (u - 2 ^ w)%Z.

(** ** The serializer *)
Definition serialize_bool (v : bool) : list byte := let num := if v then 1%Z else 0%Z in put_uint 1 num.
Definition serialize_i8 (v : Z) : list byte := put_signed 1 v.
Definition serialize_i16 (v : Z) : list byte := put_signed 2 v.
Definition serialize_i32 (v : Z) : list byte := put_signed 4 v.
Definition serialize_i64 (v : Z) : list byte := put_signed 8 v.
Definition serialize_u8 (v : Z) : list byte := put_uint 1 v.
Definition serialize_u16 (v : Z) : list byte := put_uint 2 v.
Definition serialize_u32 (v : Z) : list byte := put_uint 4 v.
Definition serialize_u64 (v : Z) : list byte := put_uint 8 v.
Definition serialize_f32 (bits : Z) : list byte := put_uint 4 bits.
Definition serialize_f64 (bits : Z) : list byte := put_uint 8 bits.
Definition serialize_char (v : Z) : list byte := put_uint 4 v.
Definition serialize_str (v : string) : list byte :=
  let bytes := str_bytes v in
  put_uint 8 (Z.of_nat (length bytes)) ++ bytes.
Definition serialize_bytes (v : list byte) : list byte := put_uint 8 (Z.of_nat (length v)) ++ v.
Definition serialize_none : list byte := put_uint 1 0.
Definition serialize_some (value : list byte) : list byte := put_uint 1 1 ++ value.
Definition serialize_unit : list byte := [].
Definition serialize_unit_struct : list byte := [].
Definition serialize_unit_variant (variant_index : Z) : list byte := put_uint 4 variant_index.
Definition serialize_newtype_struct (value : list byte) : list byte := value.
Definition serialize_newtype_variant (variant_index : Z) (value : list byte) : list byte := put_uint 4 variant_index ++ value.
Definition serialize_seq (len : option nat) : res SerError (list byte) :=
  len ← ok_or InvalidData len;
  Ok (put_uint 8 (Z.of_nat len)).
Definition serialize_tuple : list byte := [].
Definition serialize_tuple_struct : list byte := [].
Definition serialize_tuple_variant (variant_index : Z) : list byte := put_uint 4 variant_index.
Definition serialize_map (len : option nat) : res SerError (list byte) :=
  len ← ok_or InvalidData len;
  Ok (put_uint 8 (Z.of_nat len)).
Definition serialize_struct : list byte := [].
Definition serialize_struct_variant (variant_index : Z) : list byte := put_uint 4 variant_index.

(** The calls of a client: one constructor for each method of [Serializer]. *)
Inductive Value :=
| VBool (v : bool)
| VI8 (v : Z) | VI16 (v : Z) | VI32 (v : Z) | VI64 (v : Z)
| VU8 (v : Z) | VU16 (v : Z) | VU32 (v : Z) | VU64 (v : Z)
| VF32 (bits : Z) | VF64 (bits : Z)
| VChar (v : Z)
| VStr (v : string)
| VBytes (v : list byte)
| VNone | VSome (value : Value)
| VUnit | VUnitStruct
| VNewtypeStruct (value : Value)
| VSeq (len : option nat) (elements : list Value)
| VTuple (elements : list Value) | VTupleStruct (fields : list Value)
| VMap (len : option nat) (entries : list (Value * Value))
| VStruct (fields : list Value)
| VUnitVariant (variant_index : Z)
| VNewtypeVariant (variant_index : Z) (value : Value)
| VTupleVariant (variant_index : Z) (fields : list Value)
| VStructVariant (variant_index : Z) (fields : list Value).

(** [serialize_element], [serialize_field], [serialize_key] and [serialize_value]
    serialise into the same buffer, and [end] does nothing. *)
Section Elements.
Context {A : Type} (serialize_element : A → res SerError (list byte)).
Fixpoint serialize_elements (l : list A) : res SerError (list byte) :=
  match l with
  | [] => Ok []
  | x :: l => bs ← serialize_element x; rest ← serialize_elements l; Ok (bs ++ rest)
  end.
End Elements.

Definition serialize_entry (key value : res SerError (list byte)) : res SerError (list byte) :=
  k ← key; v ← value; Ok (k ++ v).

Fixpoint value_serialize (v : Value) : res SerError (list byte) :=
  match v with
  | VBool v => Ok (serialize_bool v)
  | VI8 v => Ok (serialize_i8 v) | VI16 v => Ok (serialize_i16 v) | VI32 v => Ok (serialize_i32 v) | VI64 v => Ok (serialize_i64 v)
  | VU8 v => Ok (serialize_u8 v) | VU16 v => Ok (serialize_u16 v) | VU32 v => Ok (serialize_u32 v) | VU64 v => Ok (serialize_u64 v)
  | VF32 v => Ok (serialize_f32 v) | VF64 v => Ok (serialize_f64 v)
  | VChar v => Ok (serialize_char v)
  | VStr v => Ok (serialize_str v)
  | VBytes v => Ok (serialize_bytes v)
  | VNone => Ok serialize_none
  | VSome value => serialize_some <$> value_serialize value
  | VUnit => Ok serialize_unit | VUnitStruct => Ok serialize_unit_struct
  | VNewtypeStruct value => serialize_newtype_struct <$> value_serialize value
  | VSeq len l => start ← serialize_seq len; bs ← serialize_elements value_serialize l; Ok (start ++ bs)
  | VTuple l => bs ← serialize_elements value_serialize l; Ok (serialize_tuple ++ bs)
  | VTupleStruct l => bs ← serialize_elements value_serialize l; Ok (serialize_tuple_struct ++ bs)
  | VMap len l =>
      start ← serialize_map len;
      bs ← serialize_elements (λ e, serialize_entry (value_serialize e.1) (value_serialize e.2)) l;
      Ok (start ++ bs)
  | VStruct l => bs ← serialize_elements value_serialize l; Ok (serialize_struct ++ bs)
  | VUnitVariant i => Ok (serialize_unit_variant i)
  | VNewtypeVariant i value => serialize_newtype_variant i <$> value_serialize value
  | VTupleVariant i l => bs ← serialize_elements value_serialize l; Ok (serialize_tuple_variant i ++ bs)
  | VStructVariant i l => bs ← serialize_elements value_serialize l; Ok (serialize_struct_variant i ++ bs)
  end.

(** ** The deserializer *)
Abbreviation Rd := (St (list byte) SerError).

(** A read of [bytes::Buf]. *)
Definition rd {A} (f : list byte → res SerError (A * list byte)) : Rd A := λ buf,
  match f buf with Ok (a, buf) => (buf, Ok a) | Err e => (buf, Err e) | Panic => (buf, Panic) end.
Definition get_signed (n : nat) : Rd Z := u ← rd (get_int n); mret (to_signed (8 * Z.of_nat n) u).

Section Methods.
Context {V : Type}.

Definition deserialize_any : Rd V := st_panic.
Definition deserialize_ignored_any : Rd V := st_panic.
Definition deserialize_bool (visit : bool → res SerError V) : Rd V := num ← rd (get_int 1); st_lift (visit (bool_decide (num ≠ 0%Z))).
Definition deserialize_i8 (visit : Z → res SerError V) : Rd V := num ← get_signed 1; st_lift (visit num).
Definition deserialize_i16 (visit : Z → res SerError V) : Rd V := num ← get_signed 2; st_lift (visit num).
Definition deserialize_i32 (visit : Z → res SerError V) : Rd V := num ← get_signed 4; st_lift (visit num).
Definition deserialize_i64 (visit : Z → res SerError V) : Rd V := num ← get_signed 8; st_lift (visit num).
Definition deserialize_u8 (visit : Z → res SerError V) : Rd V := num ← rd (get_int 1); st_lift (visit num).
Definition deserialize_u16 (visit : Z → res SerError V) : Rd V := num ← rd (get_int 2); st_lift (visit num).
Definition deserialize_u32 (visit : Z → res SerError V) : Rd V := num ← rd (get_int 4); st_lift (visit num).
Definition deserialize_u64 (visit : Z → res SerError V) : Rd V := num ← rd (get_int 8); st_lift (visit num).
Definition deserialize_f32 (visit : Z → res SerError V) : Rd V := num ← rd (get_int 4); st_lift (visit num).
Definition deserialize_f64 (visit : Z → res SerError V) : Rd V := num ← rd (get_int 8); st_lift (visit num).

(** [char::from_u32]. *)
Definition is_char (num : Z) : bool := between 0 55295 num || between 57344 1114111 num.
Definition deserialize_char (visit : Z → res SerError V) : Rd V :=
  num ← rd (get_int 4);
  if is_char num then st_lift (visit num) else st_lift (Err Unknown).

(** [u64] to [usize] on a 64-bit machine. *)
Definition deserialize_string (visit : string → res SerError V) : Rd V :=
  len_u64 ← rd (get_int 8);
  let len := Z.to_nat len_u64 in
  data ← rd (copy_to_slice len);
  if utf8_valid data then st_lift (visit (bytes_str data)) else st_lift (Err Unknown).
Definition deserialize_str (visit : string → res SerError V) : Rd V := deserialize_string visit.
Definition deserialize_byte_buf (visit : list byte → res SerError V) : Rd V :=
  len_u64 ← rd (get_int 8);
  let len := Z.to_nat len_u64 in
  data ← rd (copy_to_slice len);
  st_lift (visit data).
Definition deserialize_bytes (visit : list byte → res SerError V) : Rd V := deserialize_byte_buf visit.

Definition deserialize_option (visit_none : res SerError V) (visit_some : Rd V) : Rd V :=
  num ← rd (get_int 1);
  if decide (num = 0%Z) then st_lift visit_none else visit_some.
Definition deserialize_unit (visit_unit : res SerError V) : Rd V := st_lift visit_unit.
Definition deserialize_unit_struct (visit_unit : res SerError V) : Rd V := st_lift visit_unit.
Definition deserialize_newtype_struct (visit_newtype_struct : Rd V) : Rd V := visit_newtype_struct.

(** [ElementCounting]: access to the elements of a compound. *)
Record ElementCounting := mkCounting { ec_len : nat; ec_count : nat }.
Definition counting (len : nat) : ElementCounting := mkCounting len 0.

Definition deserialize_seq (visit_seq : ElementCounting → Rd V) : Rd V :=
  len_u64 ← rd (get_int 8);
  visit_seq (counting (Z.to_nat len_u64)).
Definition deserialize_tuple (len : nat) (visit_seq : ElementCounting → Rd V) : Rd V := visit_seq (counting len).
Definition deserialize_tuple_struct (len : nat) (visit_seq : ElementCounting → Rd V) : Rd V := visit_seq (counting len).
Definition deserialize_map (visit_map : ElementCounting → Rd V) : Rd V :=
  len_u64 ← rd (get_int 8);
  visit_map (counting (Z.to_nat len_u64)).
Definition deserialize_struct (fields : nat) (visit_seq : ElementCounting → Rd V) : Rd V := visit_seq (counting fields).
Definition deserialize_enum (visit_enum : Rd V) : Rd V := visit_enum.
Definition deserialize_identifier (visit : Z → res SerError V) : Rd V := deserialize_u32 visit.

Definition next_element_seed (seed : Rd V) (a : ElementCounting) : Rd (option V * ElementCounting) :=
  if decide (ec_count a = ec_len a) then mret (None, a)
  else v ← seed; mret (Some v, mkCounting (ec_len a) (S (ec_count a))).
Definition next_key_seed (seed : Rd V) (a : ElementCounting) : Rd (option V * ElementCounting) :=
  if decide (ec_count a = ec_len a) then mret (None, a)
  else v ← seed; mret (Some v, mkCounting (ec_len a) (S (ec_count a))).
Definition next_value_seed (seed : Rd V) : Rd V := seed.

Definition variant_seed (seed : Rd V) : Rd V := val ← seed; mret val.
Definition unit_variant : Rd () := mret ().
Definition newtype_variant_seed (seed : Rd V) : Rd V := seed.
Definition tuple_variant (len : nat) (visit_seq : ElementCounting → Rd V) : Rd V := deserialize_tuple len visit_seq.
Definition struct_variant (fields : nat) (visit_seq : ElementCounting → Rd V) : Rd V := deserialize_struct fields visit_seq.
End Methods.

(** The requests of a client: one constructor for each method of [Deserializer]
    that this format supports. *)
Inductive Shape :=
| SBool
| SI8 | SI16 | SI32 | SI64 | SU8 | SU16 | SU32 | SU64 | SF32 | SF64
| SChar | SStr | SBytes
| SOption (s : Shape)
| SUnit | SUnitStruct
| SNewtypeStruct (s : Shape)
| SSeq (s : Shape)
| STuple (ss : list Shape) | STupleStruct (ss : list Shape)
| SMap (k v : Shape)
| SStruct (ss : list Shape)
| SEnum (variants : list Variant)
with Variant :=
| UnitVariant
| NewtypeVariant (s : Shape)
| TupleVariant (ss : list Shape)
| StructVariant (ss : list Shape).

(** ** Clients that deserialise *)

(** Visitors of sequences and maps, which take elements until there are none;
    the fuel is one more than the elements announced. *)
Fixpoint visit_all {T} (fuel : nat) (next : ElementCounting → Rd (option T * ElementCounting)) (a : ElementCounting) : Rd (list T) :=
  match fuel with
  | 0 => st_panic
  | S fuel =>
      '(x, a) ← next a;
      match x with
      | None => mret []
      | Some x => l ← visit_all fuel next a; mret (x :: l)
      end
  end.
Definition visit_seq (element : Rd Value) (a : ElementCounting) : Rd (list Value) :=
  visit_all (S (ec_len a)) (next_element_seed element) a.
Definition next_entry (key value : Rd Value) (a : ElementCounting) : Rd (option (Value * Value) * ElementCounting) :=
  '(k, a) ← next_key_seed key a;
  match k with
  | None => mret (None, a)
  | Some k => v ← next_value_seed value; mret (Some (k, v), a)
  end.
Definition visit_map (key value : Rd Value) (a : ElementCounting) : Rd (list (Value * Value)) :=
  visit_all (S (ec_len a)) (next_entry key value) a.

(** Visitors of tuples and structs: a missing element is an [invalid_length]. *)
Fixpoint visit_fields (fields : list (Rd Value)) (a : ElementCounting) : Rd (list Value) :=
  match fields with
  | [] => mret []
  | field :: fields =>
      '(x, a) ← next_element_seed field a;
      match x with
      | None => st_lift (Err Unknown)
      | Some x => l ← visit_fields fields a; mret (x :: l)
      end
  end.

Definition wrap_value {A} (f : A → Value) (m : Rd A) : Rd Value := x ← m; mret (f x).

Fixpoint value_deserialize (s : Shape) : Rd Value :=
  match s with
  | SBool => deserialize_bool (λ v, Ok (VBool v))
  | SI8 => deserialize_i8 (λ v, Ok (VI8 v)) | SI16 => deserialize_i16 (λ v, Ok (VI16 v))
  | SI32 => deserialize_i32 (λ v, Ok (VI32 v)) | SI64 => deserialize_i64 (λ v, Ok (VI64 v))
  | SU8 => deserialize_u8 (λ v, Ok (VU8 v)) | SU16 => deserialize_u16 (λ v, Ok (VU16 v))
  | SU32 => deserialize_u32 (λ v, Ok (VU32 v)) | SU64 => deserialize_u64 (λ v, Ok (VU64 v))
  | SF32 => deserialize_f32 (λ v, Ok (VF32 v)) | SF64 => deserialize_f64 (λ v, Ok (VF64 v))
  | SChar => deserialize_char (λ v, Ok (VChar v))
  | SStr => deserialize_str (λ v, Ok (VStr v))
  | SBytes => deserialize_bytes (λ v, Ok (VBytes v))
  | SOption s => deserialize_option (Ok VNone) (wrap_value VSome (value_deserialize s))
  | SUnit => deserialize_unit (Ok VUnit) | SUnitStruct => deserialize_unit_struct (Ok VUnitStruct)
  | SNewtypeStruct s => deserialize_newtype_struct (wrap_value VNewtypeStruct (value_deserialize s))
  | SSeq s => deserialize_seq (λ a, wrap_value (λ l, VSeq (Some (length l)) l) (visit_seq (value_deserialize s) a))
  | STuple ss => deserialize_tuple (length ss) (λ a, wrap_value VTuple (visit_fields (map value_deserialize ss) a))
  | STupleStruct ss => deserialize_tuple_struct (length ss) (λ a, wrap_value VTupleStruct (visit_fields (map value_deserialize ss) a))
  | SMap k v => deserialize_map (λ a, wrap_value (λ l, VMap (Some (length l)) l) (visit_map (value_deserialize k) (value_deserialize v) a))
  | SStruct ss => deserialize_struct (length ss) (λ a, wrap_value VStruct (visit_fields (map value_deserialize ss) a))
  | SEnum variants =>
      deserialize_enum
        (i ← variant_seed (deserialize_identifier (λ i, if decide (i < Z.of_nat (length variants))%Z then Ok i else Err Unknown));
         match map (variant_deserialize i) variants !! Z.to_nat i with Some m => m | None => st_panic end)
  end
with variant_deserialize (i : Z) (v : Variant) : Rd Value :=
  match v with
  | UnitVariant => wrap_value (λ _, VUnitVariant i) unit_variant
  | NewtypeVariant s => wrap_value (VNewtypeVariant i) (newtype_variant_seed (value_deserialize s))
  | TupleVariant ss => tuple_variant (length ss) (λ a, wrap_value (VTupleVariant i) (visit_fields (map value_deserialize ss) a))
  | StructVariant ss => struct_variant (length ss) (λ a, wrap_value (VStructVariant i) (visit_fields (map value_deserialize ss) a))
  end.

(** [Serde] for a client: [Serialiser::serialise] and [Deserialiser::deserialise]. *)
Definition serde_serialise (v : Value) : res SerError (list byte) := value_serialize v.
Definition serde_deserialise (s : Shape) (buf : list byte) : res SerError (Value * list byte) :=
  match value_deserialize s buf with
  | (buf, Ok v) => Ok (v, buf)
  | (_, Err e) => Err e
  | (_, Panic) => Panic
  end.

(** ** Values of a shape *)
Section All2.
Context {A C : Type} (P : A → C → Prop).
Fixpoint all2 (l : list A) (k : list C) : Prop :=
  match l, k with
  | [], [] => True
  | x :: l, y :: k => P x y ∧ all2 l k
  | _, _ => False
  end.
End All2.

Definition in_i (n : nat) (v : Z) : Prop := (- 2 ^ (8 * Z.of_nat n - 1) ≤ v < 2 ^ (8 * Z.of_nat n - 1))%Z.
Definition in_len {A} (l : list A) : Prop := (Z.of_nat (length l) < 2 ^ 64)%Z.

Fixpoint has_shape (s : Shape) (v : Value) : Prop :=
  match s, v with
  | SBool, VBool _ => True
  | SI8, VI8 v => in_i 1 v | SI16, VI16 v => in_i 2 v | SI32, VI32 v => in_i 4 v | SI64, VI64 v => in_i 8 v
  | SU8, VU8 v => in_u 8 v | SU16, VU16 v => in_u 16 v | SU32, VU32 v => in_u 32 v | SU64, VU64 v => in_u 64 v
  | SF32, VF32 v => in_u 32 v | SF64, VF64 v => in_u 64 v
  | SChar, VChar v => is_char v = true
  | SStr, VStr v => wf_string v ∧ in_len (str_bytes v)
  | SBytes, VBytes v => in_len v
  | SOption _, VNone => True
  | SOption s, VSome v => has_shape s v
  | SUnit, VUnit | SUnitStruct, VUnitStruct => True
  | SNewtypeStruct s, VNewtypeStruct v => has_shape s v
  | SSeq s, VSeq len l => len = Some (length l) ∧ in_len l ∧ Forall (has_shape s) l
  | STuple ss, VTuple l | STupleStruct ss, VTupleStruct l | SStruct ss, VStruct l => all2 has_shape ss l
  | SMap k v, VMap len l => len = Some (length l) ∧ in_len l ∧ Forall (λ e, has_shape k e.1 ∧ has_shape v e.2) l
  | SEnum variants, VUnitVariant i | SEnum variants, VNewtypeVariant i _
  | SEnum variants, VTupleVariant i _ | SEnum variants, VStructVariant i _ =>
      in_u 32 i ∧ match map (has_variant v) variants !! Z.to_nat i with Some P => P | None => False end
  | _, _ => False
  end
with has_variant (v : Value) (s : Variant) : Prop :=
  match s, v with
  | UnitVariant, VUnitVariant _ => True
  | NewtypeVariant s, VNewtypeVariant _ v => has_shape s v
  | TupleVariant ss, VTupleVariant _ l | StructVariant ss, VStructVariant _ l => all2 has_shape ss l
  | _, _ => False
  end.

(** ** Induction on shapes *)
Section ShapeInd.
Context (P : Shape → Prop) (Q : Variant → Prop).
Definition nested (s : Shape) : bool :=
  match s with
  | SOption _ | SNewtypeStruct _ | SSeq _ | STuple _ | STupleStruct _ | SMap _ _ | SStruct _ | SEnum _ => true
  | _ => false
  end.
Context (Hleaf : ∀ s, nested s = false → P s) (Hoption : ∀ s, P s → P (SOption s)) (Hnewtype : ∀ s, P s → P (SNewtypeStruct s))
  (Hseq : ∀ s, P s → P (SSeq s)) (Htuple : ∀ ss, Forall P ss → P (STuple ss)) (Htuple_struct : ∀ ss, Forall P ss → P (STupleStruct ss))
  (Hmap : ∀ k v, P k → P v → P (SMap k v)) (Hstruct : ∀ ss, Forall P ss → P (SStruct ss)) (Henum : ∀ vs, Forall Q vs → P (SEnum vs))
  (Hunit_v : Q UnitVariant) (Hnewtype_v : ∀ s, P s → Q (NewtypeVariant s)) (Htuple_v : ∀ ss, Forall P ss → Q (TupleVariant ss))
  (Hstruct_v : ∀ ss, Forall P ss → Q (StructVariant ss)).

Fixpoint shape_ind' (s : Shape) : P s
with variant_ind' (v : Variant) : Q v.
Proof using All.
  - assert (∀ ss, Forall P ss) as Hl by (fix IH 1; intros [|x ss]; constructor; [apply shape_ind'|apply IH]).
    assert (∀ vs, Forall Q vs) as Hv by (fix IH 1; intros [|x vs]; constructor; [apply variant_ind'|apply IH]).
    destruct s; first [by apply Hleaf|clear Hleaf].
    + apply Hoption, shape_ind'.
    + apply Hnewtype, shape_ind'.
    + apply Hseq, shape_ind'.
    + apply Htuple, Hl.
    + apply Htuple_struct, Hl.
    + apply Hmap; apply shape_ind'.
    + apply Hstruct, Hl.
    + apply Henum, Hv.
  - assert (∀ ss, Forall P ss) as Hl by (fix IH 1; intros [|x ss]; constructor; [apply shape_ind'|apply IH]).
    destruct v as [|s|ss|ss]; [apply Hunit_v|apply Hnewtype_v, shape_ind'|apply Htuple_v, Hl|apply Hstruct_v, Hl].
Qed.
End ShapeInd.

(** ** Round trips *)
Lemma read_bind_step {S E A C} (m : St S E A) (f : A → St S E C) s s' a : m s = (s', Ok a) → (m ≫= f) s = f a s'.
Proof. intros H. unfold mbind, st_bind. by rewrite H. Qed.

Lemma rd_int n v rest : (0 ≤ v < 256 ^ Z.of_nat n)%Z → rd (get_int n) (put_uint n v ++ rest) = (rest, Ok v).
Proof. intros Hv. unfold rd. by rewrite get_int_put. Qed.
Lemma rd_int_u n w v rest : in_u w v → w = (8 * Z.of_nat n)%Z → rd (get_int n) (put_uint n v ++ rest) = (rest, Ok v).
Proof. intros [H1 H2] ->. apply rd_int. rewrite Z.pow_mul_r in H2 by lia. done. Qed.

Lemma signed_round_trip n v : 0 < n → in_i n v → to_signed (8 * Z.of_nat n) (wrap (8 * Z.of_nat n) v) = v.
Proof.
  intros Hn [H1 H2]. unfold to_signed, wrap.
  assert (2 ^ (8 * Z.of_nat n) = 2 * 2 ^ (8 * Z.of_nat n - 1))%Z as Hp by (rewrite <-Z.pow_succ_r by lia; f_equal; lia).
  destruct (decide (0 ≤ v)%Z).
  - rewrite Z.mod_small by lia. by rewrite (proj2 (Z.ltb_lt _ _)).
  - assert (v mod 2 ^ (8 * Z.of_nat n) = v + 2 ^ (8 * Z.of_nat n))%Z as ->.
    { symmetry. apply (Z.mod_unique _ _ (-1)); lia. }
    rewrite (proj2 (Z.ltb_ge _ _)) by lia. lia.
Qed.

Lemma get_signed_put n v rest : 0 < n → in_i n v → get_signed n (put_signed n v ++ rest) = (rest, Ok v).
Proof.
  intros Hn Hv. unfold get_signed, put_signed. erewrite read_bind_step; [|apply (rd_int_u _ (8 * Z.of_nat n)); [apply wrap_in_u; lia|done]].
  cbn. by rewrite signed_round_trip.
Qed.

Lemma rd_len {A} (l : list A) rest : in_len l → rd (get_int 8) (put_uint 8 (Z.of_nat (length l)) ++ rest) = (rest, Ok (Z.of_nat (length l))).
Proof. intros Hl. apply rd_int. unfold in_len in Hl. change (256 ^ Z.of_nat 8)%Z with (2 ^ 64)%Z. lia. Qed.

Lemma rd_slice bs rest : rd (copy_to_slice (length bs)) (bs ++ rest) = (rest, Ok bs).
Proof. unfold rd. by rewrite copy_to_slice_app. Qed.

(** What a shape and its values owe each other. *)
Definition shape_ok (s : Shape) : Prop := ∀ v rest, has_shape s v →
  ∃ bs, value_serialize v = Ok bs ∧ value_deserialize s (bs ++ rest) = (rest, Ok v).

Lemma leaf_ok s : nested s = false → shape_ok s.
Proof.
  intros Hs v rest Hv. destruct s; try done; destruct v; try done; (eexists; split; [done|]); cbn in Hv; cbn [value_deserialize].
  - unfold deserialize_bool, serialize_bool. erewrite read_bind_step; [|apply rd_int; by destruct v]. by destruct v.
  - unfold deserialize_i8. by erewrite read_bind_step; [|apply get_signed_put; [lia|done]].
  - unfold deserialize_i16. by erewrite read_bind_step; [|apply get_signed_put; [lia|done]].
  - unfold deserialize_i32. by erewrite read_bind_step; [|apply get_signed_put; [lia|done]].
  - unfold deserialize_i64. by erewrite read_bind_step; [|apply get_signed_put; [lia|done]].
  - unfold deserialize_u8. by erewrite read_bind_step; [|eapply rd_int_u; [done|done]].
  - unfold deserialize_u16. by erewrite read_bind_step; [|eapply rd_int_u; [done|done]].
  - unfold deserialize_u32. by erewrite read_bind_step; [|eapply rd_int_u; [done|done]].
  - unfold deserialize_u64. by erewrite read_bind_step; [|eapply rd_int_u; [done|done]].
  - unfold deserialize_f32. by erewrite read_bind_step; [|eapply rd_int_u; [done|done]].
  - unfold deserialize_f64. by erewrite read_bind_step; [|eapply rd_int_u; [done|done]].
  - unfold deserialize_char. erewrite read_bind_step; [|apply rd_int; unfold is_char, between in Hv; lia]. by rewrite Hv.
  - destruct Hv as [Hwf Hlen]. unfold deserialize_str, deserialize_string, serialize_str. rewrite <-app_assoc.
    erewrite read_bind_step; [|by apply rd_len]. rewrite Nat2Z.id. erewrite read_bind_step; [|apply rd_slice].
    unfold wf_string in Hwf. by rewrite Hwf, bytes_str_bytes.
  - unfold deserialize_bytes, deserialize_byte_buf, serialize_bytes. rewrite <-app_assoc.
    erewrite read_bind_step; [|by apply rd_len]. rewrite Nat2Z.id. by erewrite read_bind_step; [|apply rd_slice].
  - done.
  - done.
Qed.

Lemma fields_ok ss : Forall shape_ok ss → ∀ l rest count, all2 has_shape ss l →
  ∃ bs, serialize_elements value_serialize l = Ok bs
  ∧ visit_fields (map value_deserialize ss) (mkCounting (count + length ss) count) (bs ++ rest) = (rest, Ok l).
Proof.
  induction 1 as [|s ss Hs _ IH]; intros [|v l] rest count Hl; try done; [by exists []|]. destruct Hl as [Hv Hl].
  destruct (IH l rest (S count) Hl) as (bs & Hbs & Hd). destruct (Hs v (bs ++ rest) Hv) as (b & Hb & Hdv).
  exists (b ++ bs). cbn. rewrite Hb, Hbs. cbn. split; [done|]. rewrite <-app_assoc.
  unfold next_element_seed at 1. cbn [ec_count ec_len]. rewrite decide_False by lia.
  erewrite read_bind_step; [|erewrite read_bind_step; [done|done]]. cbn. replace (count + S (length ss)) with (S count + length ss) by lia.
  erewrite read_bind_step; [|done]. done.
Qed.

(** Visitors that take all elements. *)
Lemma visit_all_ok {T} (ser : T → res SerError (list byte)) (next : ElementCounting → Rd (option T * ElementCounting)) l :
  (∀ a buf, ec_count a = ec_len a → next a buf = (buf, Ok (None, a))) →
  Forall (λ x, ∃ bs, ser x = Ok bs ∧ ∀ a rest, ec_count a ≠ ec_len a → next a (bs ++ rest) = (rest, Ok (Some x, mkCounting (ec_len a) (S (ec_count a))))) l →
  ∃ bs, serialize_elements ser l = Ok bs
  ∧ ∀ rest count fuel, length l < fuel → visit_all fuel next (mkCounting (count + length l) count) (bs ++ rest) = (rest, Ok l).
Proof.
  intros Hend. induction 1 as [|x l Hx _ IH].
  - exists []. split; [done|]. intros rest count [|fuel] Hf; [lia|]. cbn. erewrite read_bind_step; [|apply Hend; cbn; lia]. done.
  - destruct IH as (bs & Hbs & IH). destruct Hx as (b & Hb & Hx). exists (b ++ bs). cbn. rewrite Hb, Hbs. cbn. split; [done|].
    intros rest count [|fuel] Hf; [lia|]. rewrite <-app_assoc. cbn. erewrite read_bind_step; [|apply Hx; cbn; lia]. cbn.
    replace (count + S (length l)) with (S count + length l) by lia. erewrite read_bind_step; [|apply IH; lia]. done.
Qed.

(** A variant and the values that carry its index. *)
Definition variant_index (v : Value) : option Z :=
  match v with VUnitVariant i | VNewtypeVariant i _ | VTupleVariant i _ | VStructVariant i _ => Some i | _ => None end.
Definition variant_ok (s : Variant) : Prop := ∀ v i rest, has_variant v s → variant_index v = Some i →
  ∃ bs, value_serialize v = Ok (put_uint 4 i ++ bs) ∧ variant_deserialize i s (bs ++ rest) = (rest, Ok v).

Lemma wrap_step {A} (f : A → Value) (m : Rd A) buf buf' a : m buf = (buf', Ok a) → wrap_value f m buf = (buf', Ok (f a)).
Proof. intros H. unfold wrap_value. by erewrite read_bind_step. Qed.

Lemma option_ok s : shape_ok s → shape_ok (SOption s).
Proof.
  intros IH v rest Hv. destruct v; try done; cbn [value_deserialize]; unfold deserialize_option.
  - eexists. split; [done|]. unfold serialize_none. by erewrite read_bind_step; [|by apply rd_int].
  - destruct (IH v rest Hv) as (bs & Hbs & Hd). cbn. rewrite Hbs. eexists. split; [done|]. unfold serialize_some. rewrite <-app_assoc.
    erewrite read_bind_step; [|by apply rd_int]. by apply wrap_step.
Qed.

(** The bytes of a value do not depend on what follows them. *)
Lemma shape_ok_bytes s v : shape_ok s → has_shape s v →
  ∃ bs, value_serialize v = Ok bs ∧ ∀ rest, value_deserialize s (bs ++ rest) = (rest, Ok v).
Proof.
  intros IH Hv. destruct (IH v [] Hv) as (bs & Hbs & _). exists bs. split; [done|]. intros rest.
  destruct (IH v rest Hv) as (bs' & Hbs' & Hd). by assert (bs' = bs) as -> by congruence.
Qed.

Lemma seq_ok s : shape_ok s → shape_ok (SSeq s).
Proof.
  intros IH v rest Hv. destruct v as [| | | | | | | | | | | | | | | | | | |len l| | | | | | | |]; try done. destruct Hv as (-> & Hlen & Hl).
  destruct (visit_all_ok value_serialize (next_element_seed (value_deserialize s)) l) as (bs & Hbs & Hd).
  { intros a buf Ha. unfold next_element_seed. by rewrite decide_True. }
  { eapply Forall_impl; [exact Hl|]. intros x Hx. destruct (shape_ok_bytes s x IH Hx) as (b & Hb & Hd). exists b. split; [done|].
    intros a r Ha. unfold next_element_seed. rewrite decide_False by done. by erewrite read_bind_step. }
  cbn. rewrite Hbs. eexists. split; [done|]. unfold deserialize_seq. rewrite <-app_assoc. erewrite read_bind_step; [|by apply rd_len].
  rewrite Nat2Z.id. apply (wrap_step (λ l, VSeq (Some (length l)) l)). apply (Hd rest 0 (S (length l))). lia.
Qed.

Lemma map_ok k s : shape_ok k → shape_ok s → shape_ok (SMap k s).
Proof.
  intros IHk IHs v rest Hv. destruct v as [| | | | | | | | | | | | | | | | | | | | | |len l| | | | |]; try done. destruct Hv as (-> & Hlen & Hl).
  destruct (visit_all_ok (λ e, serialize_entry (value_serialize e.1) (value_serialize e.2))
    (next_entry (value_deserialize k) (value_deserialize s)) l) as (bs & Hbs & Hd).
  { intros a buf Ha. unfold next_entry, next_key_seed. rewrite decide_True by done. done. }
  { eapply Forall_impl; [exact Hl|]. intros [x y] [Hx Hy].
    destruct (shape_ok_bytes s y IHs Hy) as (c & Hc & Hdy). destruct (shape_ok_bytes k x IHk Hx) as (b & Hb & Hdx).
    exists (b ++ c). cbn. rewrite Hb, Hc. split; [done|]. intros a r Ha. rewrite <-app_assoc.
    unfold next_entry, next_key_seed. rewrite decide_False by done. erewrite read_bind_step; [|erewrite read_bind_step; [done|done]]. cbn.
    unfold next_value_seed. by erewrite read_bind_step. }
  cbn. rewrite Hbs. eexists. split; [done|]. unfold deserialize_map. rewrite <-app_assoc. erewrite read_bind_step; [|by apply rd_len].
  rewrite Nat2Z.id. apply (wrap_step (λ l, VMap (Some (length l)) l)). apply (Hd rest 0 (S (length l))). lia.
Qed.

Lemma enum_ok vs : Forall variant_ok vs → shape_ok (SEnum vs).
Proof.
  intros IH v rest Hv.
  assert (∃ i, variant_index v = Some i ∧ in_u 32 i ∧ ∃ s, vs !! Z.to_nat i = Some s ∧ has_variant v s) as (i & Hi & Hu & s & Hs & Hvs).
  { destruct v; try done; destruct Hv as [Hu Hv]; eexists; (split; [done|]); (split; [done|]); rewrite list_lookup_fmap in Hv;
      destruct (vs !! Z.to_nat _) as [s|]; try done; by exists s. }
  rewrite Forall_lookup in IH. destruct (IH _ _ Hs v i rest Hvs Hi) as (bs & Hbs & Hd). exists (put_uint 4 i ++ bs). split; [done|].
  rewrite <-app_assoc. cbn [value_deserialize]. unfold deserialize_enum, variant_seed, deserialize_identifier, deserialize_u32.
  apply lookup_lt_Some in Hs as Hlt. destruct Hu as [Hu1 Hu2].
  erewrite read_bind_step. 2:{ erewrite read_bind_step; [done|]. erewrite read_bind_step; [|apply rd_int; cbn; lia]. rewrite decide_True by lia. done. }
  by rewrite list_lookup_fmap, Hs.
Qed.

Lemma shapes_ok s : shape_ok s.
Proof.
  apply (shape_ind' shape_ok variant_ok); clear s; auto using leaf_ok, option_ok, seq_ok, map_ok, enum_ok.
  - intros s IH v rest Hv. destruct v; try done. destruct (IH v rest Hv) as (bs & Hbs & Hd). cbn. rewrite Hbs. eexists. split; [done|]. by apply wrap_step.
  - intros ss IH v rest Hv. destruct v; try done. destruct (fields_ok ss IH elements rest 0 Hv) as (bs & Hbs & Hd). cbn. rewrite Hbs.
    eexists. split; [done|]. by apply wrap_step.
  - intros ss IH v rest Hv. destruct v; try done. destruct (fields_ok ss IH fields rest 0 Hv) as (bs & Hbs & Hd). cbn. rewrite Hbs.
    eexists. split; [done|]. by apply wrap_step.
  - intros ss IH v rest Hv. destruct v; try done. destruct (fields_ok ss IH fields rest 0 Hv) as (bs & Hbs & Hd). cbn. rewrite Hbs.
    eexists. split; [done|]. by apply wrap_step.
  - intros v i rest Hv Hi. destruct v; try done. injection Hi as ->. exists []. cbn. by rewrite app_nil_r.
  - intros s IH v i rest Hv Hi. destruct v; try done. injection Hi as ->. destruct (IH v rest Hv) as (bs & Hbs & Hd). cbn. rewrite Hbs.
    exists bs. split; [done|]. by apply wrap_step.
  - intros ss IH v i rest Hv Hi. destruct v; try done. injection Hi as ->. destruct (fields_ok ss IH fields rest 0 Hv) as (bs & Hbs & Hd).
    cbn. rewrite Hbs. exists bs. split; [done|]. by apply wrap_step.
  - intros ss IH v i rest Hv Hi. destruct v; try done. injection Hi as ->. destruct (fields_ok ss IH fields rest 0 Hv) as (bs & Hbs & Hd).
    cbn. rewrite Hbs. exists bs. split; [done|]. by apply wrap_step.
Qed.

(** ** Input that is cut off

    A reader is stable when more input after what it has does not change what
    it does, unless it panicked for want of input. *)
Definition stable {A} (m : Rd A) : Prop := ∀ p q,
  match m p with
  | (_, Panic) => True
  | (r, x) => m (p ++ q) = (r ++ q, x)
  end.

Lemma stable_lift {A} (r : res SerError A) : stable (st_lift r).
Proof. intros p q. by destruct r. Qed.
Lemma stable_bind {A C} (m : Rd A) (f : A → Rd C) : stable m → (∀ a, stable (f a)) → stable (m ≫= f).
Proof.
  intros Hm Hf p q. specialize (Hm p q). unfold mbind, st_bind. destruct (m p) as [r [a|e|]]; [|by rewrite Hm|done].
  rewrite Hm. apply Hf.
Qed.
Lemma stable_int n : stable (rd (get_int n)).
Proof.
  intros p q. unfold rd, get_int. case_decide; [done|]. rewrite decide_False by (rewrite length_app; lia).
  by rewrite take_app_le, drop_app_le by lia.
Qed.
Lemma stable_slice n : stable (rd (copy_to_slice n)).
Proof.
  intros p q. unfold rd, copy_to_slice. case_decide; [done|]. rewrite decide_False by (rewrite length_app; lia).
  by rewrite take_app_le, drop_app_le by lia.
Qed.
Lemma stable_wrap {A} (f : A → Value) (m : Rd A) : stable m → stable (wrap_value f m).
Proof. intros H. apply stable_bind; [done|]. intros a. apply (stable_lift (Ok _)). Qed.

(** Walks through a reader. *)
Ltac stable_step :=
  first [ apply stable_int | apply stable_slice | apply stable_lift | apply stable_wrap
        | apply stable_bind; [|intros] | apply (stable_lift (Ok _)) | apply (stable_lift Panic) | case_decide | case_match; subst | assumption ].
Ltac stable := repeat stable_step.

Lemma stable_next {V} (seed : Rd V) a : stable seed → stable (next_element_seed seed a).
Proof. intros H. unfold next_element_seed. stable. Qed.
Lemma stable_visit_all {T} next : (∀ a, stable (next a)) → ∀ fuel a, stable (visit_all (T := T) fuel next a).
Proof. intros H. induction fuel as [|fuel IH]; intros a; cbn; stable; auto. Qed.
Lemma stable_fields ss : Forall (λ s, stable (value_deserialize s)) ss → ∀ a, stable (visit_fields (map value_deserialize ss) a).
Proof. induction 1 as [|s ss Hs _ IH]; intros a; cbn; stable; auto using stable_next. Qed.

Lemma deserialize_stable s : stable (value_deserialize s).
Proof.
  apply (shape_ind' (λ s, stable (value_deserialize s)) (λ v, ∀ i, stable (variant_deserialize i v))); clear s; cbn [value_deserialize variant_deserialize]; intros.
  - destruct s; try done; cbn [value_deserialize]; unfold deserialize_bool, deserialize_i8, deserialize_i16, deserialize_i32, deserialize_i64, deserialize_u8, deserialize_u16,
      deserialize_u32, deserialize_u64, deserialize_f32, deserialize_f64, deserialize_char, deserialize_str, deserialize_string, deserialize_bytes,
      deserialize_byte_buf, deserialize_unit, deserialize_unit_struct, get_signed; stable.
  - unfold deserialize_option. stable.
  - unfold deserialize_newtype_struct. stable.
  - apply stable_bind; [apply stable_int|intros n]. apply stable_wrap, stable_visit_all. intros a'. by apply stable_next.
  - unfold deserialize_tuple. stable. by apply stable_fields.
  - unfold deserialize_tuple_struct. stable. by apply stable_fields.
  - apply stable_bind; [apply stable_int|intros n]. apply stable_wrap, stable_visit_all. intros a'. unfold next_entry, next_key_seed, next_value_seed. stable.
  - unfold deserialize_struct. stable. by apply stable_fields.
  - unfold deserialize_enum, variant_seed, deserialize_identifier, deserialize_u32. stable.
    match goal with Hm : map _ _ !! _ = Some _ |- _ => rewrite list_lookup_fmap in Hm; apply fmap_Some in Hm as (v & Hv & ->) end.
    rewrite Forall_lookup in H. by eapply H.
  - unfold unit_variant. stable.
  - unfold newtype_variant_seed. stable.
  - unfold tuple_variant, deserialize_tuple. stable. by apply stable_fields.
  - unfold struct_variant, deserialize_struct. stable. by apply stable_fields.
Qed.

(** ** Properties *)

(** C24: whatever a client serialises with the serde format comes back when the
    same type is deserialised, from any buffer that starts with the bytes, and
    exactly those bytes are consumed. *)
Theorem serde_round_trip (s : Shape) (v : Value) (rest : list byte) : has_shape s v →
  ∃ bs, serde_serialise v = Ok bs ∧ serde_deserialise s (bs ++ rest) = Ok (v, rest).
Proof.
  intros Hv. destruct (shapes_ok s v rest Hv) as (bs & Hbs & Hd). exists bs. split; [done|]. unfold serde_deserialise. by rewrite Hd.
Qed.

(** bytes of a value that are cut off anywhere make deserialising panic
    instead of returning an error: a message that lacks its end takes down
    whoever deserialises it. *)
Theorem serde_truncation_panics (s : Shape) (v : Value) (p q : list byte) : has_shape s v →
  serde_serialise v = Ok (p ++ q) → q ≠ [] → serde_deserialise s p = Panic.
Proof.
  intros Hv Hser Hq. destruct (shapes_ok s v [] Hv) as (bs & Hbs & Hd). unfold serde_serialise in Hser.
  assert (bs = p ++ q) as -> by congruence. rewrite app_nil_r in Hd. pose proof (deserialize_stable s p q) as Hst. unfold serde_deserialise.
  destruct (value_deserialize s p) as [r [w|e|]]; [|congruence|done]. rewrite Hst in Hd. injection Hd as Hd _. by destruct r, q.
Qed.

(** ** Types as clients

    What an implementation of [Serialize] and [Deserialize] owes the serialiser:
    the calls of a value have the shape that is requested, and the value can be
    rebuilt from them. *)
Class SerdeClient (T : Type) (ok : T → Prop) := {
  client_id : SerId;
  client_size : nat;
  client_shape : Shape;
  calls : T → Value;
  rebuild : Value → option T;
  calls_shape : ∀ t, ok t → has_shape client_shape (calls t);
  rebuild_calls : ∀ t, ok t → rebuild (calls t) = Some t;
}.

Section Client.
Context (T : Type) (ok : T → Prop) `{C : !SerdeClient T ok}.

#[export] Instance Serde_serialisable : Serialisable T := {
  ser_id := λ _, client_id;
  size_hint := λ _, Some client_size;
  serialise := λ t, serde_serialise (calls t);
}.
#[export] Instance Serde_deserialiser : Deserialiser T := {
  SER_ID := client_id;
  deserialise := λ buf,
    '(v, buf) ← serde_deserialise client_shape buf;
    match rebuild v with Some t => Ok (t, buf) | None => Err Unknown end;
}.
#[export] Instance Serde_codec : Codec T ok.
Proof.
  split; [done|]. intros t rest Ht. destruct (shapes_ok client_shape (calls t) rest (calls_shape t Ht)) as (bs & Hbs & Hd).
  exists bs. split; [done|]. cbn. unfold serde_deserialise. rewrite Hd. cbn. by rewrite (rebuild_calls t Ht).
Qed.
End Client.

(** ** Actor paths inside other values: as bytes of their own format. *)
Section Paths.
Context {U : UuidApi}.

Definition actor_path_serialize (p : ActorPath) : res SerError Value :=
  buf ← map_err (λ _, Unknown) (actor_path_serialise p);
  Ok (VBytes buf).
Definition visit_byte_buf (value : list byte) : res SerError ActorPath :=
  '(path, _) ← map_err (λ _, Unknown) (actor_path_deserialise value);
  Ok path.
Definition actor_path_deserialize : Rd ActorPath := deserialize_byte_buf visit_byte_buf.

Lemma actor_path_serde_round_trip p rest : path_fits p →
  ∃ bs, actor_path_serialise p = Ok bs ∧ actor_path_serialize p = Ok (VBytes bs)
  ∧ (in_len bs → actor_path_deserialize (serialize_bytes bs ++ rest) = (rest, Ok p)).
Proof.
  intros Hp. destruct (actor_path_round_trip_lemma p [] Hp) as (bs & Hbs & Hd). exists bs. split; [done|].
  unfold actor_path_serialize. rewrite Hbs. split; [done|]. intros Hlen.
  unfold actor_path_deserialize, deserialize_byte_buf, serialize_bytes. rewrite <-app_assoc.
  erewrite read_bind_step; [|by apply rd_len]. rewrite Nat2Z.id. erewrite read_bind_step; [|apply rd_slice].
  unfold visit_byte_buf. rewrite app_nil_r in Hd. by rewrite Hd.
Qed.
End Paths.
End Serde.

(** ** An example: an enum with a struct that holds a list of strings. *)
Definition example_shape : Shape := SEnum [UnitVariant; StructVariant [SU32; SSeq SStr; SOption SI16]].
Definition example_value : Value := VStructVariant 1 [VU32 7; VSeq (Some 2) [VStr "a"; VStr "bc"]; VSome (VI16 (-2))].

Lemma example_has_shape : has_shape example_shape example_value.
Proof.
  split; [unfold in_u; lia|]. cbn. split; [unfold in_u; lia|]. split; [|split; [unfold in_i; cbn; lia|done]].
  split; [done|]. split; [unfold in_len; cbn; lia|]. repeat constructor; unfold in_len; cbn; lia.
Qed.

Lemma serde_round_trip_witness :
  ∃ bs, serde_serialise (B := be_bytes_api) example_value = Ok bs ∧ length bs = 38
  ∧ serde_deserialise (B := be_bytes_api) example_shape (bs ++ [9%Z]) = Ok (example_value, [9%Z]).
Proof.
  destruct (serde_round_trip (B := be_bytes_api) example_shape example_value [9%Z] example_has_shape) as (bs & Hs & Hd).
  exists bs. split; [exact Hs|]. split; [|exact Hd]. vm_compute in Hs. injection Hs as <-. reflexivity.
Defined.

Lemma serde_truncation_panics_witness :
  serde_deserialise (B := be_bytes_api) example_shape [0; 0; 0; 1; 0; 0]%Z = Panic.
Proof.
  apply (serde_truncation_panics (B := be_bytes_api) example_shape example_value [0; 0; 0; 1; 0; 0]%Z
    [0; 7; 0; 0; 0; 0; 0; 0; 0; 2; 0; 0; 0; 0; 0; 0; 0; 1; 97; 0; 0; 0; 0; 0; 0; 0; 2; 98; 99; 1; 255; 254]%Z);
    [exact example_has_shape|vm_compute; reflexivity|discriminate].
Defined.
