(* ===== verification/Promises.v ===== *)
(** * Promises and futures

    Model of [KPromise], [KFuture] and the waiting functions of
    [core/src/utils/mod.rs].  The channel between a promise and its future is
    [futures::channel::oneshot]; what is relied on of it is the class [OneshotApi].
    Blocking until a future is ready, at most for some time, is left to executors
    outside the repository: a wait is a function of what the future came to in the
    time it was given. *)

From S2P Require Import Prelude.

(** ** Oneshot channels *)

(** What has become of the sending half. *)
Inductive Sending T := SPending | SSent (t : T) | SCancelled | STaken.
Arguments SPending {T}.
Arguments SSent {T} t.
Arguments SCancelled {T}.
Arguments STaken {T}.

#[global] Instance Sending_eq_dec T `{EqDecision T} : EqDecision (Sending T).
Proof. solve_decision. Defined.

(** [tx_send] returns the value when it could not be sent; [rx_poll] is [None] while
    the channel is pending, and an inner [None] for [Canceled]. *)
Class OneshotApi := {
  Chan : Type → Type;
  sending {T} : Chan T → Sending T;
  rx_alive {T} : Chan T → bool;
  channel {T} : Chan T;
  tx_send {T} : T → Chan T → Chan T * option T;
  tx_drop {T} : Chan T → Chan T;
  rx_drop {T} : Chan T → Chan T;
  rx_poll {T} : Chan T → Chan T * option (option T);
  channel_new {T} : sending (T := T) channel = SPending ∧ rx_alive (T := T) channel = true;
  tx_send_spec {T} (t : T) c : sending c = SPending →
    sending (tx_send t c).1 = (if rx_alive c then SSent t else SCancelled) ∧
    rx_alive (tx_send t c).1 = rx_alive c ∧
    (tx_send t c).2 = (if rx_alive c then None else Some t);
  tx_drop_spec {T} (c : Chan T) :
    sending (tx_drop c) = (match sending c with SPending => SCancelled | s => s end) ∧
    rx_alive (tx_drop c) = rx_alive c;
  rx_drop_spec {T} (c : Chan T) : sending (rx_drop c) = sending c ∧ rx_alive (rx_drop c) = false;
  rx_poll_spec {T} (c : Chan T) :
    rx_alive (rx_poll c).1 = rx_alive c ∧
    match sending c with
    | SPending => sending (rx_poll c).1 = SPending ∧ (rx_poll c).2 = None
    | SSent t => sending (rx_poll c).1 = STaken ∧ (rx_poll c).2 = Some (Some t)
    | SCancelled => sending (rx_poll c).1 = SCancelled ∧ (rx_poll c).2 = Some None
    | STaken => sending (rx_poll c).1 = STaken ∧ (rx_poll c).2 = Some None
    end;
}.

(** The channel as the pair of its halves. *)
Definition cancel {T} (s : Sending T) : Sending T := match s with SPending => SCancelled | s => s end.
Definition pair_send {T} (t : T) (c : Sending T * bool) : (Sending T * bool) * option T :=
  if c.2 then ((SSent t, true), None) else ((SCancelled, false), Some t).
Definition pair_poll {T} (c : Sending T * bool) : (Sending T * bool) * option (option T) :=
  match c.1 with
  | SPending => (c, None)
  | SSent t => ((STaken, c.2), Some (Some t))
  | SCancelled | STaken => (c, Some None)
  end.

#[global, refine] Instance oneshot_pair : OneshotApi := {
  Chan := λ T, (Sending T * bool)%type;
  sending := λ T c, c.1;
  rx_alive := λ T c, c.2;
  channel := λ T, (SPending, true);
  tx_send := @pair_send;
  tx_drop := λ T c, (cancel c.1, c.2);
  rx_drop := λ T c, (c.1, false);
  rx_poll := @pair_poll;
}.
Proof.
  - done.
  - by intros T t [s []].
  - by intros T [[] a].
  - done.
  - by intros T [[] a].
Defined.

(** ** Promises *)

Inductive PromiseErr := ChannelBroken | AlreadyFulfilled.
Inductive PromiseDropped := MkPromiseDropped.
Inductive WaitErr (F : Type) := WTimeout (f : F) | WDropped (p : PromiseDropped).
Arguments WTimeout {F} f.
Arguments WDropped {F} p.

Section promises.
Context {O : OneshotApi} {T : Type}.

(** [KPromise::fulfil] and [KPromise::complete]; both use the promise up. *)
Definition fulfil (t : T) (c : Chan T) : Chan T * res PromiseErr () :=
  let '(c, failed) := tx_send t c in
  (c, match failed with None => Ok () | Some _ => Err ChannelBroken end).
Definition promise_complete (default : T) (c : Chan T) : Chan T * res PromiseErr () := fulfil default c.

(** [<KFuture as Future>::poll]. *)
Definition future_poll (c : Chan T) : Chan T * option (T + PromiseDropped) :=
  let '(c, r) := rx_poll c in
  (c, (λ res, match res with Some t => inl t | None => inr MkPromiseDropped end) <$> r).
End promises.

(** ** Waiting

    What a future came to: its output, or [None] when it was not ready in time. *)
Section waiting.
Context {F A : Type}.

Definition block_until (f : F) (o : option A) : res F A :=
  match o with Some a => Ok a | None => Err f end.

(** [BlockingFutureExt::wait_timeout]. *)
Definition ext_wait_timeout (f : F) (o : option A) : res (WaitErr F) A := map_err WTimeout (block_until f o).
End waiting.

Section futures.
Context {T : Type}.

(** What a [KFuture] comes to in the end. *)
Definition Output : Type := T + PromiseDropped.

(** [KFuture::wait], for a future that gets ready. *)
Definition kf_wait {E} (o : Output) : res E T := match o with inl t => Ok t | inr _ => Panic end.

(** [KFuture::wait_timeout]; the future is given back on a timeout. *)
Definition kf_wait_timeout {F} (f : F) (o : option Output) : res (WaitErr F) T :=
  res ← map_err WTimeout (block_until f o);
  match res with inl t => Ok t | inr p => Err (WDropped p) end.

(** [FutureCollection::expect_completion]: one entry per future of the collection. *)
Fixpoint expect_completion {E} (fs : list (option Output)) : res E () :=
  match fs with
  | [] => Ok ()
  | f :: fs => _ ← expect (kf_wait_timeout f f); expect_completion fs
  end.

Fixpoint collect_loop (temp : list T) (fs : list (option Output)) : res (WaitErr ()) (list T) :=
  match fs with
  | [] => Ok temp
  | f :: fs =>
      v ← map_err (λ _, WTimeout ()) (kf_wait_timeout f f);
      collect_loop (temp ++ [v]) fs
  end.
Definition collect_with_timeout (fs : list (option Output)) : res (WaitErr ()) (list T) := collect_loop [] fs.

(** [FutureCollection::collect_results]; the first future that never gets ready blocks. *)
Fixpoint collect_results {E} (fs : list Output) : res E (list T) :=
  match fs with
  | [] => Ok []
  | f :: fs => v ← kf_wait f; vs ← collect_results fs; Ok (v :: vs)
  end.
End futures.

Section result_futures.
Context {T X : Type}.
Notation Out := (Output (T := T + X)).

(** [Result::unwrap] and [unwrap_or_else(panic)] on the result of a future. *)
Definition unwrap_result {E} (r : T + X) : res E T := match r with inl t => Ok t | inr _ => Panic end.

(** [KFuture::wait_expect]. *)
Definition wait_expect {E} (o : option Out) : res E T :=
  r ← expect (kf_wait_timeout o o); unwrap_result r.

Fixpoint expect_ok {E} (fs : list (option Out)) : res E () :=
  match fs with
  | [] => Ok ()
  | f :: fs => _ ← wait_expect f; expect_ok fs
  end.

Fixpoint collect_ok {E} (fs : list Out) : res E (list T) :=
  match fs with
  | [] => Ok []
  | f :: fs => v ← (r ← kf_wait f; unwrap_result r); vs ← collect_ok fs; Ok (v :: vs)
  end.

Fixpoint collect_ok_with_timeout {E} (fs : list (option Out)) : res E (list T) :=
  match fs with
  | [] => Ok []
  | f :: fs => v ← wait_expect f; vs ← collect_ok_with_timeout fs; Ok (v :: vs)
  end.
End result_futures.

(** ** Properties of promises *)
Section promise_properties.
Context {O : OneshotApi} {T : Type}.

(** A promise is in use until it is fulfilled or dropped. *)
Definition pending (c : Chan T) : Prop := sending c = SPending.

Lemma fulfil_pending (t : T) c : pending c →
  sending (fulfil t c).1 = (if rx_alive c then SSent t else SCancelled) ∧
  rx_alive (fulfil t c).1 = rx_alive c ∧
  (fulfil t c).2 = (if rx_alive c then Ok () else Err ChannelBroken).
Proof.
  intros Hc. destruct (tx_send_spec t c Hc) as (H1 & H2 & H3). unfold fulfil.
  destruct (tx_send t c) as [c' failed]. simpl in *. subst failed. by destruct (rx_alive c).
Qed.

Lemma future_poll_spec (c : Chan T) :
  rx_alive (future_poll c).1 = rx_alive c ∧
  match sending c with
  | SPending => sending (future_poll c).1 = SPending ∧ (future_poll c).2 = None
  | SSent t => sending (future_poll c).1 = STaken ∧ (future_poll c).2 = Some (inl t)
  | s => sending (future_poll c).1 = s ∧ (future_poll c).2 = Some (inr MkPromiseDropped)
  end.
Proof.
  pose proof (rx_poll_spec c) as H. unfold future_poll. destruct (rx_poll c) as [c' r]. simpl in *.
  destruct (sending c); destruct H as (? & ? & ->); by split_and!.
Qed.

(** The future yields exactly what the promise was fulfilled with, or reports that it
    was dropped; fulfilling fails exactly when the future is gone, and always as a
    broken channel. *)
Theorem promise_contract (t : T) c :
  pending c →
  (future_poll c).2 = None ∧
  (rx_alive c = true → (fulfil t c).2 = Ok () ∧ (future_poll (fulfil t c).1).2 = Some (inl t)) ∧
  (rx_alive c = false → (fulfil t c).2 = Err ChannelBroken) ∧
  (future_poll (tx_drop c)).2 = Some (inr MkPromiseDropped).
Proof.
  intros Hc. destruct (fulfil_pending t c Hc) as (Hs & _ & Hr).
  pose proof (future_poll_spec c) as [_ Hp]. rewrite Hc in Hp.
  split_and!; [by destruct Hp|intros Ha|intros Ha|].
  - rewrite Ha in Hs, Hr. pose proof (future_poll_spec (fulfil t c).1) as [_ Hq].
    rewrite Hs in Hq. by destruct Hq.
  - by rewrite Ha in Hr.
  - pose proof (future_poll_spec (tx_drop c)) as [_ Hq]. destruct (tx_drop_spec c) as [Hd _].
    rewrite Hc in Hd. rewrite Hd in Hq. by destruct Hq.
Qed.
End promise_properties.

(** ** Collections *)
Section collection_properties.
Context {T : Type}.
Implicit Types fs : list (option (Output (T := T))).

Definition ready (o : option (Output (T := T))) : option T :=
  match o with Some (inl t) => Some t | _ => None end.

(** The values of the futures when all of them are ready. *)
Definition all_ready fs : option (list T) := mapM ready fs.

Lemma collect_loop_spec temp fs :
  collect_loop temp fs =
    match all_ready fs with Some vs => Ok (temp ++ vs) | None => Err (WTimeout ()) end.
Proof.
  revert temp. induction fs as [|f fs IH]; intros temp; [cbn; by rewrite app_nil_r|].
  destruct f as [[a|e]|]; try done. cbn.
  rewrite IH. unfold all_ready. destruct (mapM ready fs); cbn; [|done]. by rewrite <-app_assoc.
Qed.

Lemma expect_completion_spec {E} fs :
  expect_completion (E := E) fs = if all_ready fs then Ok () else Panic.
Proof.
  induction fs as [|f fs IH]; [done|]. destruct f as [[a|e]|]; try done; cbn.
  rewrite IH. unfold all_ready. by destruct (mapM ready fs).
Qed.

Lemma collect_results_spec {E} (fs : list (Output (T := T))) :
  collect_results (E := E) fs = match all_ready (Some <$> fs) with Some vs => Ok vs | None => Panic end.
Proof.
  induction fs as [|f fs IH]; [done|]. destruct f as [a|e]; try done. cbn. rewrite IH.
  unfold all_ready. by destruct (mapM ready (Some <$> fs)).
Qed.

(** The three ways of waiting for a collection agree: they succeed exactly when every
    future is ready with a value, the values come in the order of the futures, and the
    failure is a panic or, for [collect_with_timeout], always a timeout. *)
Theorem collections_agree (fs : list (option (Output (T := T)))) :
  collect_with_timeout fs = match all_ready fs with Some vs => Ok vs | None => Err (WTimeout ()) end ∧
  expect_completion (E := Empty_set) fs = (if all_ready fs then Ok () else Panic) ∧
  (∀ outs, fs = Some <$> outs →
     collect_results (E := Empty_set) outs = match all_ready fs with Some vs => Ok vs | None => Panic end).
Proof.
  split_and!; [by apply collect_loop_spec|by apply expect_completion_spec|].
  intros outs ->. apply collect_results_spec.
Qed.

(** A promise that was dropped is reported by [collect_with_timeout] as a timeout. *)
Lemma dropped_promise_reported_as_timeout :
  collect_with_timeout [Some (inr MkPromiseDropped : Output (T := T))] = Err (WTimeout ()).
Proof. reflexivity. Qed.
End collection_properties.

Section result_collection_properties.
Context {T X : Type}.
Notation Out := (Output (T := T + X)).

Definition ready_ok (o : option Out) : option T :=
  match o with Some (inl (inl t)) => Some t | _ => None end.
Definition all_ok (fs : list (option Out)) : option (list T) := mapM ready_ok fs.

Lemma wait_expect_spec {E} (o : option Out) : wait_expect (E := E) o = unwrap (ready_ok o).
Proof. by destruct o as [[[t|x]|p]|]. Qed.

(** Collections of futures of results succeed exactly when every future is ready with
    a value that is not an error, in the order of the futures, and panic otherwise. *)
Theorem result_collections_agree (fs : list (option Out)) :
  collect_ok_with_timeout (E := Empty_set) fs = unwrap (all_ok fs) ∧
  expect_ok (E := Empty_set) fs = (if all_ok fs then Ok () else Panic) ∧
  (∀ outs, fs = Some <$> outs → collect_ok (E := Empty_set) outs = unwrap (all_ok fs)).
Proof.
  split_and!.
  - induction fs as [|f fs IH]; [done|]. cbn. rewrite wait_expect_spec, IH. unfold all_ok.
    destruct (ready_ok f); [|done]. by destruct (mapM ready_ok fs).
  - induction fs as [|f fs IH]; [done|]. cbn. rewrite wait_expect_spec, IH. unfold all_ok.
    destruct (ready_ok f); [|done]. by destruct (mapM ready_ok fs).
  - intros outs ->. induction outs as [|f outs IH]; [done|]. cbn. rewrite IH. unfold all_ok.
    destruct f as [[t|x]|p]; try done. cbn. by destruct (mapM ready_ok (Some <$> outs)).
Qed.
End result_collection_properties.
