(* ===== verification/Lifecycle.v ===== *)
(** * Component lifecycle word and scheduling decisions

    Model of [core/src/component/lifecycle.rs], of [SchedulingDecision] in
    [core/src/component/mod.rs] and of [core/src/runtime/lifecycle.rs].
    A component keeps one [AtomicU64] that packs three flag bits (its lifecycle
    state) above a 61-bit count of outstanding work.  The word is a [Z] with the
    wrap-around of [fetch_add] and [fetch_sub] written out; a process abort is
    [Panic]. *)

From S2P Require Import Prelude.

(** ** Scheduling decisions *)
Inductive SchedulingDecision := Schedule | AlreadyScheduled | NoWork | Blocked | Resume.

#[global] Instance SchedulingDecision_eq_dec : EqDecision SchedulingDecision.
Proof. solve_decision. Defined.

Definition or_use (self other : SchedulingDecision) : SchedulingDecision :=
  match self with
  | Schedule | AlreadyScheduled | Blocked | Resume => self
  | NoWork =>
      match other with
      | Schedule | Resume | AlreadyScheduled => Resume
      | x => x
      end
  end.

(** The closure argument of [or_from] is only run when [self] is [NoWork]. *)
Definition or_from (self : SchedulingDecision) (other : () → SchedulingDecision)
    : SchedulingDecision :=
  match self with
  | Schedule | AlreadyScheduled | Blocked | Resume => self
  | NoWork =>
      match other () with
      | Schedule | Resume | AlreadyScheduled => Resume
      | x => x
      end
  end.

(** ** The state word *)
Definition ACTIVE : Z := 0.
Definition PASSIVE : Z := Z.shiftl 1 61.
Definition DESTROYED : Z := Z.shiftl 2 61.
Definition FAULTY : Z := Z.shiftl 3 61.
Definition BLOCKING : Z := Z.shiftl 4 61.

Definition U64_MAX : Z := 2 ^ 64 - 1.
Definition FLAG_MASK : Z := Z.shiftr U64_MAX 3.

Inductive LifecycleState :=
| Active (work_count : Z) | Passive (work_count : Z) | Destroyed | Faulty | Blocking.

Definition remove_flags (number : Z) : Z := Z.land number FLAG_MASK.
(** [number & !FLAG_MASK], the complement taken at 64 bits. *)
Definition remove_count (number : Z) : Z := Z.land number (Z.lxor FLAG_MASK U64_MAX).

Definition from_current {E} (current_state : Z) : res E LifecycleState :=
  let flags := remove_count current_state in
  if decide (flags = ACTIVE) then Ok (Active (remove_flags current_state))
  else if decide (flags = PASSIVE) then Ok (Passive (remove_flags current_state))
  else if decide (flags = DESTROYED) then Ok Destroyed
  else if decide (flags = FAULTY) then Ok Faulty
  else if decide (flags = BLOCKING) then Ok Blocking
  else Panic.

Definition into_scheduling_decision (s : LifecycleState) : SchedulingDecision :=
  match s with
  | Active work_count => if decide (work_count = 0%Z) then Schedule else AlreadyScheduled
  | Passive work_count => if decide (work_count = 0%Z) then Schedule else AlreadyScheduled
  | Destroyed | Faulty | Blocking => NoWork
  end.

Definition is_valid_add (old_number : Z) : bool :=
  let no_flags := remove_flags old_number in
  bool_decide (no_flags < FLAG_MASK)%Z.

Definition validate_add {E} (old_number : Z) : res E () := assert_ (is_valid_add old_number).

(** [increment_work]: the new word and the decision taken from the old one. *)
Definition increment_work {E} (state : Z) : res E (Z * SchedulingDecision) :=
  let old_state := state in
  let state := wrap 64 (state + 1) in
  _ ← validate_add old_state;
  s ← from_current old_state;
  Ok (state, into_scheduling_decision s).

(** [decrement_work]: [work_done] is a [usize]. *)
Definition decrement_work {E} (state : Z) (work_done : nat) : res E (Z * SchedulingDecision) :=
  let work_done := Z.of_nat work_done in
  let old_state := state in
  let state := wrap 64 (state - work_done) in
  let old_count := remove_flags old_state in
  if decide (work_done ≤ old_count)%Z then
    let new_count := (old_count - work_done)%Z in
    Ok (state, if decide (0 < new_count)%Z then Schedule else NoWork)
  else Panic.

Definition get_scheduling_decision {E} (state : Z) : res E SchedulingDecision :=
  s ← from_current state; Ok (into_scheduling_decision s).

Definition initial_state : Z := PASSIVE.

(** One successful iteration of the compare-and-swap loop of [set_state]. *)
Definition set_state (new_state : Z) (current_state : Z) : Z :=
  let current_count := remove_flags current_state in
  Z.lor new_state current_count.

(** The loop itself.  Other threads may change the word at any time: each element
    of [seen] is one iteration, the value its load returns and the value the
    word has at its compare-and-swap.  The result is the word after the
    successful swap, [None] when the loop is still running after [seen]. *)
Fixpoint set_state_loop (new_state : Z) (seen : list (Z * Z)) : option Z :=
  match seen with
  | [] => None
  | (current_state, at_swap) :: seen =>
      if decide (at_swap = current_state) then Some (set_state new_state current_state)
      else set_state_loop new_state seen
  end.

Definition set_active := set_state ACTIVE.
Definition set_passive := set_state PASSIVE.
Definition set_destroyed := set_state DESTROYED.
Definition set_faulty := set_state FAULTY.
Definition set_blocking := set_state BLOCKING.

Definition is_active (state : Z) : bool := bool_decide (remove_count state = ACTIVE).
Definition is_faulty (state : Z) : bool := bool_decide (remove_count state = FAULTY).
Definition is_destroyed (state : Z) : bool := bool_decide (remove_count state = DESTROYED).
Definition is_blocking (state : Z) : bool := bool_decide (remove_count state = BLOCKING).

(** ** The lifecycle of the whole runtime *)
Module runtime.
Definition ACTIVE : Z := 0.
Definition DESTROYED : Z := 1.
Definition FAULTY : Z := 2.
Definition initial_state : Z := ACTIVE.
Definition set_active (_ : Z) : Z := ACTIVE.
Definition set_destroyed (_ : Z) : Z := DESTROYED.
Definition set_faulty (_ : Z) : Z := FAULTY.
Definition is_active (state : Z) : bool := bool_decide (state = ACTIVE).
Definition is_faulty (state : Z) : bool := bool_decide (state = FAULTY).
Definition is_destroyed (state : Z) : bool := bool_decide (state = DESTROYED).
End runtime.

(** ** Abstract view: a flag and a count *)
Inductive Flag := FActive | FPassive | FDestroyed | FFaulty | FBlocking.

#[global] Instance Flag_eq_dec : EqDecision Flag.
Proof. solve_decision. Defined.

Definition flag_num (f : Flag) : Z :=
  match f with FActive => 0 | FPassive => 1 | FDestroyed => 2 | FFaulty => 3 | FBlocking => 4 end.

Definition flag_bits (f : Flag) : Z := Z.shiftl (flag_num f) 61.

Definition MAX_WORK : nat := Z.to_nat (2 ^ 61 - 1).

(** The word of flag [f] and work count [c]. *)
Definition word (f : Flag) (c : nat) : Z := (flag_num f * 2 ^ 61 + Z.of_nat c)%Z.

(** The decision the abstract state calls for. *)
Definition decide_from (f : Flag) (c : nat) : SchedulingDecision :=
  match f with
  | FActive | FPassive => if decide (c = 0) then Schedule else AlreadyScheduled
  | _ => NoWork
  end.

Lemma FLAG_MASK_ones : FLAG_MASK = Z.ones 61.
Proof. reflexivity. Qed.

Lemma MAX_WORK_Z : Z.of_nat MAX_WORK = (2 ^ 61 - 1)%Z.
Proof. unfold MAX_WORK. rewrite Z2Nat.id; lia. Qed.

(** The bound has 61 bits: it is never computed as a unary number. *)
#[global] Opaque MAX_WORK.

Lemma remove_flags_mod n : remove_flags n = (n mod 2 ^ 61)%Z.
Proof. unfold remove_flags. rewrite FLAG_MASK_ones. apply Z.land_ones. lia. Qed.

Lemma remove_flags_word f c : c ≤ MAX_WORK → remove_flags (word f c) = Z.of_nat c.
Proof.
  intros Hc. rewrite remove_flags_mod. unfold word.
  rewrite Z.add_comm, Z.mod_add by lia. apply Z.mod_small. pose proof MAX_WORK_Z. lia.
Qed.

Lemma remove_count_sub n : in_u 64 n → (remove_count n = n - n mod 2 ^ 61)%Z.
Proof.
  intros Hn. unfold remove_count.
  assert (Hm : Z.lxor FLAG_MASK U64_MAX = Z.shiftl (Z.ones 3) 61) by reflexivity.
  rewrite Hm. transitivity (Z.shiftl (Z.shiftr n 61) 61).
  - apply Z.bits_inj'. intros k Hk. rewrite Z.land_spec.
    rewrite !Z.shiftl_spec by lia. destruct (decide (k < 61)%Z).
    + rewrite !(Z.testbit_neg_r _ (k - 61)) by lia. apply andb_false_r.
    + rewrite Z.shiftr_spec by lia. replace (k - 61 + 61)%Z with k by lia.
      destruct (decide (k < 64)%Z).
      * rewrite Z.ones_spec_low by lia. apply andb_true_r.
      * assert (Z.testbit n k = false) as ->; [|done].
        rewrite <-(wrap_small 64 n Hn). unfold wrap. apply Z.mod_pow2_bits_high. lia.
  - rewrite Z.shiftl_mul_pow2, Z.shiftr_div_pow2 by lia. pose proof (Z.div_mod n (2 ^ 61) ltac:(lia)). lia.
Qed.

Lemma word_in_u f c : c ≤ MAX_WORK → in_u 64 (word f c).
Proof. intros. pose proof MAX_WORK_Z. unfold in_u, word. destruct f; simpl; lia. Qed.

Lemma remove_count_word f c : c ≤ MAX_WORK → remove_count (word f c) = flag_bits f.
Proof.
  intros Hc. rewrite remove_count_sub by by apply word_in_u.
  rewrite <-remove_flags_mod, remove_flags_word by done.
  unfold word, flag_bits. rewrite Z.shiftl_mul_pow2 by lia. lia.
Qed.

Lemma from_current_word {E} f c : c ≤ MAX_WORK →
  from_current (E:=E) (word f c) =
    Ok match f with
       | FActive => Active (Z.of_nat c) | FPassive => Passive (Z.of_nat c)
       | FDestroyed => Destroyed | FFaulty => Faulty | FBlocking => Blocking
       end.
Proof.
  intros Hc. unfold from_current. rewrite remove_count_word, remove_flags_word by done.
  destruct f; reflexivity.
Qed.

Lemma decision_word {E} f c : c ≤ MAX_WORK →
  get_scheduling_decision (E:=E) (word f c) = Ok (decide_from f c).
Proof.
  intros Hc. unfold get_scheduling_decision. rewrite from_current_word by done.
  destruct f; simpl; repeat case_decide; try done; lia.
Qed.

(** [fetch_add] on a word with room for one more unit of work. *)
Lemma increment_work_word {E} f c : c < MAX_WORK →
  increment_work (E:=E) (word f c) = Ok (word f (S c), decide_from f c).
Proof.
  intros Hc. pose proof MAX_WORK_Z. unfold increment_work, validate_add, is_valid_add.
  rewrite remove_flags_word by lia. rewrite bool_decide_true by (change FLAG_MASK with (2 ^ 61 - 1)%Z; lia).
  cbn [assert_ mbind res_bind]. rewrite from_current_word by lia. cbn [mbind res_bind].
  f_equal. f_equal; [|destruct f; cbn; repeat case_decide; congruence || lia].
  replace (word f c + 1)%Z with (word f (S c)) by (unfold word; lia).
  apply wrap_small, word_in_u. lia.
Qed.

Lemma increment_work_full {E} f : increment_work (E:=E) (word f MAX_WORK) = Panic.
Proof.
  unfold increment_work, validate_add, is_valid_add. rewrite remove_flags_word by lia.
  rewrite bool_decide_false; [done|]. rewrite MAX_WORK_Z. change FLAG_MASK with (2 ^ 61 - 1)%Z. lia.
Qed.

Lemma decrement_work_word {E} f c k : c ≤ MAX_WORK → k ≤ c →
  decrement_work (E:=E) (word f c) k
    = Ok (word f (c - k), if decide (c = k) then NoWork else Schedule).
Proof.
  intros Hc Hk. unfold decrement_work. rewrite remove_flags_word by done.
  rewrite decide_True by lia. do 2 f_equal.
  - replace (word f c - Z.of_nat k)%Z with (word f (c - k)) by (unfold word; lia).
    apply wrap_small, word_in_u. lia.
  - repeat case_decide; try done; lia.
Qed.

Lemma decrement_work_under {E} f c k : c ≤ MAX_WORK → c < k →
  decrement_work (E:=E) (word f c) k = Panic.
Proof.
  intros Hc Hk. unfold decrement_work. rewrite remove_flags_word by done.
  by rewrite decide_False by lia.
Qed.

Lemma lor_flag_count f c : c ≤ MAX_WORK → Z.lor (flag_bits f) (Z.of_nat c) = word f c.
Proof.
  intros Hc. pose proof MAX_WORK_Z. unfold flag_bits, word.
  rewrite <-Z.shiftl_mul_pow2 by lia. rewrite Z.add_nocarry_lxor, Z.lxor_lor; [done| |].
  all: apply Z.bits_inj'; intros k Hk; rewrite Z.land_spec, Z.testbit_0_l;
    rewrite Z.shiftl_spec by lia; destruct (decide (k < 61)%Z);
    [by rewrite (Z.testbit_neg_r _ (k - 61)) by lia|].
  all: assert (Z.testbit (Z.of_nat c) k = false) as ->; [|apply andb_false_r].
  all: rewrite <-(Z.mod_small (Z.of_nat c) (2 ^ 61)) by lia;
    apply Z.mod_pow2_bits_high; lia.
Qed.

Lemma set_state_word f f' c : c ≤ MAX_WORK →
  set_state (flag_bits f') (word f c) = word f' c.
Proof. intros. unfold set_state. rewrite remove_flags_word by done. by apply lor_flag_count. Qed.

(** A successful loop swapped a word that was current at that moment, so it keeps
    the count of that word whatever the other threads did before. *)
Lemma set_state_loop_swap n seen w :
  set_state_loop n seen = Some w → ∃ cur, (cur, cur) ∈ seen ∧ w = set_state n cur.
Proof.
  induction seen as [|[cur sw] seen IH]; cbn; [done|]. case_decide.
  - intros [= <-]. subst. exists cur. split; [constructor|done].
  - intros (c & Hc & ->)%IH. exists c. split; [by constructor|done].
Qed.

Lemma set_state_loop_finishes n seen cur :
  (cur, cur) ∈ seen → is_Some (set_state_loop n seen).
Proof.
  induction seen as [|[c sw] seen IH]; cbn; [by intros ?%not_elem_of_nil|].
  intros [[= -> ->]|?]%elem_of_cons; case_decide; eauto; done.
Qed.

Lemma word_inj f c f' c' : c ≤ MAX_WORK → c' ≤ MAX_WORK →
  word f c = word f' c' → f = f' ∧ c = c'.
Proof.
  intros ?? Hw. pose proof (remove_flags_word f c ltac:(done)) as H1.
  pose proof (remove_count_word f c ltac:(done)) as H2.
  rewrite Hw in H1, H2. rewrite remove_flags_word in H1 by done.
  rewrite remove_count_word in H2 by done. split; [|lia].
  destruct f, f'; try done; vm_compute in H2; discriminate.
Qed.

(** C18: The packed 64-bit word refines the pair (lifecycle flag, work count): for
    every count that fits 61 bits, [increment_work] and [decrement_work] change
    only the count and return the decision the pair calls for (schedule exactly
    when the count leaves zero, or is still above zero after the work), the
    process aborts exactly on overflow and underflow, changing the flag keeps
    the count, and the flag is read back. *)
Theorem lifecycle_refines (f f' : Flag) (c k : nat) :
  c ≤ MAX_WORK →
  increment_work (E:=Empty_set) (word f c)
    = (if decide (c = MAX_WORK) then Panic else Ok (word f (S c), decide_from f c))
  ∧ decrement_work (E:=Empty_set) (word f c) k
    = (if decide (c < k) then Panic
       else Ok (word f (c - k), if decide (c = k) then NoWork else Schedule))
  ∧ get_scheduling_decision (E:=Empty_set) (word f c) = Ok (decide_from f c)
  ∧ set_state (flag_bits f') (word f c) = word f' c
  ∧ (is_active (word f c), is_destroyed (word f c), is_faulty (word f c), is_blocking (word f c))
    = (bool_decide (f = FActive), bool_decide (f = FDestroyed),
       bool_decide (f = FFaulty), bool_decide (f = FBlocking)).
Proof.
  intros Hc. split_and!.
  - case_decide; [subst; apply increment_work_full|apply increment_work_word; lia].
  - case_decide; [by apply decrement_work_under|apply decrement_work_word; lia].
  - by apply decision_word.
  - by apply set_state_word.
  - unfold is_active, is_destroyed, is_faulty, is_blocking. rewrite remove_count_word by done.
    destruct f; reflexivity.
Qed.

Lemma lifecycle_refines_witness :
  (7 ≤ MAX_WORK) ∧ set_state (flag_bits FBlocking) (word FActive 7) = word FBlocking 7.
Proof.
  assert (7 ≤ MAX_WORK) as H by (apply Nat2Z.inj_le; rewrite MAX_WORK_Z; lia).
  split; [exact H|]. exact (proj1 (proj2 (proj2 (proj2 (lifecycle_refines FActive FBlocking 7 0 H))))).
Defined.

(** The compare-and-swap loop of [set_state] under interference: when every
    word it loads is a flag with a count, the loop ends as soon as one iteration
    is not interfered with, and the word it leaves has the new flag and exactly
    the count the word had at the successful swap, so no unit of work counted
    by another thread is lost. *)
Theorem set_state_keeps_count (f' : Flag) (seen : list (Z * Z)) :
  (∀ cur sw, (cur, sw) ∈ seen → ∃ f c, c ≤ MAX_WORK ∧ cur = word f c) →
  (∃ cur, (cur, cur) ∈ seen) →
  ∃ f c, c ≤ MAX_WORK ∧ (word f c, word f c) ∈ seen
    ∧ set_state_loop (flag_bits f') seen = Some (word f' c).
Proof.
  intros Hseen [cur Hcur]. destruct (set_state_loop_finishes (flag_bits f') seen cur Hcur) as [w Hw].
  destruct (set_state_loop_swap _ _ _ Hw) as (cur' & Hin & ->).
  destruct (Hseen _ _ Hin) as (f & c & Hc & ->). exists f, c. split_and!; [done|done|].
  by rewrite Hw, set_state_word.
Qed.

Lemma set_state_keeps_count_witness :
  ∃ f c, c ≤ MAX_WORK
    ∧ (word f c, word f c) ∈ [(word FActive 2, word FActive 3); (word FActive 3, word FActive 3)]
    ∧ set_state_loop (flag_bits FPassive) [(word FActive 2, word FActive 3); (word FActive 3, word FActive 3)]
      = Some (word FPassive c).
Proof.
  apply (set_state_keeps_count FPassive).
  - intros cur sw Hin. assert (3 ≤ MAX_WORK) by (apply Nat2Z.inj_le; rewrite MAX_WORK_Z; lia).
    apply elem_of_cons in Hin as [[= -> ->]|[[= -> ->]|?%not_elem_of_nil]%elem_of_cons];
      [exists FActive, 2|exists FActive, 3|done]; split; [lia|done|lia|done].
  - exists (word FActive 3). apply elem_of_cons. right. apply elem_of_cons. by left.
Defined.
