(* ===== verification/References.v ===== *)
(** * Actor references and asking

    Model of [core/src/actors/refs.rs] and [core/src/utils/ask.rs].  Strong, weak and
    converting references push a message onto the queue of a component, count the
    work and schedule the component when it was idle.  An [Ask] is a message that
    carries a promise; what happens to the promise depends on what happens to the
    message, so the model keeps track of who owns it: dropping a message drops the
    promises in it.

    Components are numbered; a component that has been deallocated is [None].  One
    type [M] stands for the messages of all components, where the source has one per
    component. *)

From S2P Require Import Prelude Lifecycle Promises.

Inductive MsgEnvelope (M N : Type) := Typed (m : M) | Net (n : N).
Arguments Typed {M N} m.
Arguments Net {M N} n.

(** [Ask]. *)
Record Ask (Request : Type) := MkAsk { ask_promise : nat; ask_content : Request }.
Arguments MkAsk {Request} ask_promise ask_content.
Arguments ask_promise {Request} a : rename.
Arguments ask_content {Request} a : rename.

(** The promises a message owns. *)
Class Owns (M : Type) := owned : M → list nat.
#[global] Instance Ask_owns Request : Owns (Ask Request) := λ a, [ask_promise a].

Definition env_owned {M N} `{Owns M} (e : MsgEnvelope M N) : list nat :=
  match e with Typed m => owned m | Net _ => [] end.

Section references.
Context {O : OneshotApi} {M N R : Type} `{Owns M}.

(** The parts of a component that references reach: its word, its message queue and
    how often it was handed to the scheduler. *)
Record Container := mkContainer {
  ct_word : Z;
  ct_queue : list (MsgEnvelope M N);
  ct_jobs : nat;
}.

(** The channels of all promises, the components, and the messages that handlers
    have taken off the queues and not disposed of. *)
Record World := mkWorld {
  chans : list (Chan R);
  comps : list (option Container);
  held : list (MsgEnvelope M N);
}.

Definition upd_chans (f : list (Chan R) → list (Chan R)) (w : World) : World :=
  mkWorld (f (chans w)) (comps w) (held w).
Definition upd_comps (f : list (option Container) → list (option Container)) (w : World) : World :=
  mkWorld (chans w) (f (comps w)) (held w).
Definition upd_held (f : list (MsgEnvelope M N) → list (MsgEnvelope M N)) (w : World) : World :=
  mkWorld (chans w) (comps w) (f (held w)).

Definition Prog (E A : Type) : Type := St World E A.

(** [Weak::upgrade]. *)
Definition upgrade (w : World) (c : nat) : option Container := mjoin (comps w !! c).

(** [promise()]: the number stands for both halves. *)
Definition new_promise {E} : Prog E nat :=
  w ← st_get;
  _ ← st_modify (upd_chans (λ l, l ++ [channel]));
  mret (length (chans w)).

Definition drop_promise {E} (p : nat) : Prog E () := st_modify (upd_chans (alter tx_drop p)).
Definition drop_promises {E} (ps : list nat) : Prog E () := st_for ps drop_promise.
Definition drop_future {E} (p : nat) : Prog E () := st_modify (upd_chans (alter rx_drop p)).

(** A message goes out of scope. *)
Definition drop_env {E} (e : MsgEnvelope M N) : Prog E () := drop_promises (env_owned e).

(** [Fulfillable::fulfil] on the promise [p]. *)
Definition fulfil_promise (p : nat) (t : R) : Prog PromiseErr () := λ w,
  match chans w !! p with
  | Some c => let '(c', r) := fulfil t c in (upd_chans (<[p := c']>) w, r)
  | None => (w, Panic)
  end.

(** ** Enqueueing *)

(** The common part of the [enqueue] methods, on a component that is alive. *)
Definition push_and_count {E} (c : nat) (ct : Container) (env : MsgEnvelope M N) : Prog E () :=
  '(word, sd) ← st_lift (increment_work (ct_word ct));
  let jobs := if decide (sd = Schedule) then S (ct_jobs ct) else ct_jobs ct in
  st_modify (upd_comps (<[c := Some (mkContainer word (ct_queue ct ++ [env]) jobs)]>)).

(** [ActorRef::enqueue]. *)
Definition weak_enqueue {E} (c : nat) (env : MsgEnvelope M N) : Prog E () :=
  w ← st_get;
  match upgrade w c with
  | Some ct => push_and_count c ct env
  | None => drop_env env
  end.

(** [ActorRefStrong::enqueue]: holding the reference keeps the component alive. *)
Definition strong_enqueue {E} (c : nat) (env : MsgEnvelope M N) : Prog E () :=
  w ← st_get;
  ct ← st_lift (unwrap (upgrade w c));
  push_and_count c ct env.

(** [DynActorRef::enqueue] and [tell]. *)
Definition dyn_enqueue {E} (c : nat) (msg : N) : Prog E () :=
  w ← st_get;
  match upgrade w c with
  | Some ct => push_and_count c ct (Net msg)
  | None => mret ()
  end.
Definition dyn_tell {E I} (into : I → N) (c : nat) (v : I) : Prog E () := dyn_enqueue c (into v).

(** [ConvertingMsgQueueContainer::push_and_schedule]. *)
Definition push_and_schedule {E In} (c : nat) (convert : In → M) (value : In) : Prog E () :=
  let msg := Typed (convert value) in
  w ← st_get;
  match upgrade w c with
  | Some ct => push_and_count c ct msg
  | None => drop_env msg
  end.

(** ** References *)
Inductive ActorRef := MkActorRef (c : nat).
Inductive ActorRefStrong := MkActorRefStrong (c : nat).
(** [Recipient] with the adapter in its box. *)
Inductive Recipient (In : Type) := MkRecipient (c : nat) (convert : In → M).
Arguments MkRecipient {In} c convert.

Definition strong_tell {E I} (into : I → M) (self : ActorRefStrong) (v : I) : Prog E () :=
  let 'MkActorRefStrong c := self in strong_enqueue c (Typed (into v)).
Definition weak_tell {E I} (into : I → M) (self : ActorRef) (v : I) : Prog E () :=
  let 'MkActorRef c := self in weak_enqueue c (Typed (into v)).
Definition recipient_tell {E I In} (into : I → In) (self : Recipient In) (v : I) : Prog E () :=
  let 'MkRecipient c convert := self in push_and_schedule c convert (into v).

Definition weak_ref (self : ActorRefStrong) : ActorRef := let 'MkActorRefStrong c := self in MkActorRef c.
Definition hold (w : World) (self : ActorRef) : option ActorRefStrong :=
  let 'MkActorRef c := self in
  match upgrade w c with Some _ => Some (MkActorRefStrong c) | None => None end.
Definition recipient_with {T} (self : ActorRef) (convert : T → M) : Recipient T :=
  let 'MkActorRef c := self in MkRecipient c convert.
Definition recipient {T} (into : T → M) (self : ActorRef) : Recipient T := recipient_with self into.

(** [PartialEq]; the id of a component is its number. *)
Definition strong_eq (self other : ActorRefStrong) : bool :=
  let 'MkActorRefStrong a := self in let 'MkActorRefStrong b := other in bool_decide (a = b).
Definition weak_eq (w : World) (self other : ActorRef) : bool :=
  let 'MkActorRef a := self in let 'MkActorRef b := other in
  match upgrade w a, upgrade w b with Some _, Some _ => bool_decide (a = b) | _, _ => false end.
(** [AdaptedQueueContainer::id]. *)
Definition recipient_id (w : World) {In} (self : Recipient In) : option nat :=
  let 'MkRecipient c _ := self in (λ _, c) <$> upgrade w c.
Definition recipient_eq (w : World) {In} (self other : Recipient In) : bool :=
  bool_decide (recipient_id w self = recipient_id w other).

(** ** Asking *)

(** The promise is dropped when the message does not take it. *)
Definition give_promise {E} (f : nat → M) (p : nat) : Prog E (MsgEnvelope M N) :=
  let msg := f p in
  _ ← (if decide (p ∈ owned msg) then mret () else drop_promise p);
  mret (Typed msg).

(** [ActorRef::ask_with] and [ActorRefStrong::ask_with]; the future has the number
    of the promise. *)
Definition ask_with {E} (self : ActorRef) (f : nat → M) : Prog E nat :=
  p ← new_promise;
  env ← give_promise f p;
  let 'MkActorRef c := self in
  _ ← weak_enqueue c env;
  mret p.
Definition strong_ask_with {E} (self : ActorRefStrong) (f : nat → M) : Prog E nat :=
  p ← new_promise;
  env ← give_promise f p;
  let 'MkActorRefStrong c := self in
  _ ← strong_enqueue c env;
  mret p.

(** ** Requests with a sender *)

(** [WithSender], [WithSenderStrong] and [WithRecipient]. *)
Record WithSender Req := MkWithSender { ws_sender : ActorRef; ws_content : Req }.
Record WithSenderStrong Req := MkWithSenderStrong { wss_sender : ActorRefStrong; wss_content : Req }.
Record WithRecipient Req Resp := MkWithRecipient { wr_sender : Recipient Resp; wr_content : Req }.
Arguments MkWithSender {Req}.
Arguments MkWithSenderStrong {Req}.
Arguments MkWithRecipient {Req Resp}.
Arguments ws_sender {Req}.
Arguments wss_sender {Req}.
Arguments wr_sender {Req Resp}.

Definition ws_from {Req} (content : Req) (sender : ActorRef) : WithSender Req := MkWithSender sender content.
Definition wss_from {E Req} (content : Req) (sender : ActorRef) : Prog E (WithSenderStrong Req) :=
  w ← st_get;
  s ← st_lift (unwrap (hold w sender));
  mret (MkWithSenderStrong s content).
Definition wr_from {Req Resp} (into : Resp → M) (content : Req) (sender : ActorRef) : WithRecipient Req Resp :=
  MkWithRecipient (recipient into sender) content.
Definition wr_from_convert {Req Resp} (content : Req) (sender : ActorRef) (convert : Resp → M)
    : WithRecipient Req Resp :=
  MkWithRecipient (recipient_with sender convert) content.

Definition ws_reply {E Req} (self : WithSender Req) (resp : M) : Prog E () := weak_tell id (ws_sender self) resp.
Definition wss_reply {E Req} (self : WithSenderStrong Req) (resp : M) : Prog E () :=
  strong_tell id (wss_sender self) resp.
Definition wr_reply {E Req Resp} (self : WithRecipient Req Resp) (resp : Resp) : Prog E () :=
  recipient_tell id (wr_sender self) resp.
End references.

#[global] Arguments World {O} M N R.
#[global] Arguments Container : clear implicits.
#[global] Arguments Prog {O} M N R E A.

(** Runs the state monad. *)
Ltac st_run := unfold mbind, st_bind, st_get, st_lift, st_modify, mret, st_ret; cbn.

Lemma st_bind_inv {S E A B} (m : St S E A) (f : A → St S E B) s s' b :
  (m ≫= f) s = (s', Ok b) → ∃ s1 a, m s = (s1, Ok a) ∧ f a s1 = (s', Ok b).
Proof. unfold mbind, st_bind. destruct (m s) as [s1 [a| |]]; [by eauto|done..]. Qed.

Section asks.
Context {O : OneshotApi} {Request N R : Type}.
Notation M := (Ask Request).
Notation Env := (MsgEnvelope M N).
Notation World := (World M N R).
Notation Prog := (Prog M N R).

(** ** [Ask] *)
Definition ask_of (content : Request) : nat → M := λ promise, MkAsk promise content.
Definition request (self : M) : Request := ask_content self.
Definition request_mut (f : Request → Request) (self : M) : M := MkAsk (ask_promise self) (f (ask_content self)).
Definition ask_take (self : M) : nat * Request := (ask_promise self, ask_content self).
Definition reply (self : M) (response : R) : Prog PromiseErr () := fulfil_promise (ask_promise self) response.
Definition ask_complete (self : M) (f : Request → R) : Prog PromiseErr () :=
  let response := f (ask_content self) in
  fulfil_promise (ask_promise self) response.
(** [complete_with]: [await] is what the future made by [f] comes to, [None] when it is
    dropped before it is ready, and the promise with it. *)
Definition complete_with {F} (await : F → option R) (self : M) (f : Request → F) : Prog PromiseErr () :=
  match await (f (ask_content self)) with
  | Some response => fulfil_promise (ask_promise self) response
  | None => drop_promise (ask_promise self)
  end.

(** [ActorRef::ask] and [ActorRefStrong::ask]. *)
Definition ask {E} (self : ActorRef) (req : Request) : Prog E nat :=
  p ← new_promise;
  let msg := MkAsk p req in
  let 'MkActorRef c := self in
  _ ← weak_enqueue c (Typed msg);
  mret p.
Definition strong_ask {E} (self : ActorRefStrong) (req : Request) : Prog E nat :=
  p ← new_promise;
  let msg := MkAsk p req in
  let 'MkActorRefStrong c := self in
  _ ← strong_enqueue c (Typed msg);
  mret p.

(** ** Interleavings

    What threads do with asks: send them, take them off a queue, answer them, drop
    them or send them on; drop or poll a future; deallocate a component with all that
    is queued; change its word, as executions and its lifecycle do. *)
Inductive Action :=
| AAsk (self : ActorRef) (req : Request)
| AStrongAsk (self : ActorRefStrong) (req : Request)
| AReceive (c : nat)
| AReply (i : nat) (response : R)
| AIgnore (i : nat)
| AForward (i : nat) (self : ActorRef)
| ADropFuture (p : nat)
| APoll (p : nat)
| ADealloc (c : nat)
| AWord (c : nat) (word : Z).

(** The message a handler holds leaves its hands. *)
Definition take_held {E} (i : nat) : Prog E Env :=
  w ← st_get;
  e ← st_lift (unwrap (held w !! i));
  _ ← st_modify (upd_held (delete i));
  mret e.

(** [TypedMsgQueue::pop]. *)
Definition receive {E} (c : nat) : Prog E () :=
  w ← st_get;
  ct ← st_lift (unwrap (upgrade w c));
  match ct_queue ct with
  | [] => mret ()
  | e :: q =>
      _ ← st_modify (upd_comps (<[c := Some (mkContainer (ct_word ct) q (ct_jobs ct))]>));
      st_modify (upd_held (λ l, l ++ [e]))
  end.

Definition dealloc {E} (c : nat) : Prog E () :=
  w ← st_get;
  ct ← st_lift (unwrap (upgrade w c));
  _ ← st_modify (upd_comps (<[c := None]>));
  drop_promises (ct_queue ct ≫= env_owned).

Definition set_word {E} (c : nat) (word : Z) : Prog E () :=
  w ← st_get;
  ct ← st_lift (unwrap (upgrade w c));
  st_modify (upd_comps (<[c := Some (mkContainer word (ct_queue ct) (ct_jobs ct))]>)).

(** Results of promises are ignored, as a handler may. *)
Definition act (a : Action) : Prog PromiseErr () :=
  match a with
  | AAsk self req => _ ← ask self req; mret ()
  | AStrongAsk self req => _ ← strong_ask self req; mret ()
  | AReceive c => receive c
  | AReply i response =>
      e ← take_held i;
      match e with Typed a => _ ← st_try (reply a response); mret () | Net _ => mret () end
  | AIgnore i => e ← take_held i; drop_env e
  | AForward i (MkActorRef c) => e ← take_held i; weak_enqueue c e
  | ADropFuture p => drop_future p
  | APoll p => st_modify (upd_chans (alter (λ c, (future_poll c).1) p))
  | ADealloc c => dealloc c
  | AWord c word => set_word c word
  end.

(** A panic ends a run. *)
Definition step (w : World) (a : Action) (w' : World) : Prop := act a w = (w', Ok ()).

Inductive reachable (w0 : World) : World → Prop :=
| reach_init : reachable w0 w0
| reach_step w a w' : reachable w0 w → step w a w' → reachable w0 w'.

(** Components without messages, no promises yet. *)
Definition start (words : list Z) : World := mkWorld [] ((λ z, Some (mkContainer z [] 0)) <$> words) [].

(** ** Who owns which promise *)
Definition queue_of (o : option (Container M N)) : list Env := from_option ct_queue [] o.
Definition messages (w : World) : list Env := (comps w ≫= queue_of) ++ held w.
Definition owners (w : World) : list nat := messages w ≫= env_owned.

Definition unresolved (chs : list (Chan R)) (p : nat) : Prop := ∃ c, chs !! p = Some c ∧ pending c.

(** Every unresolved promise is in exactly one message. *)
Definition accounted (chs : list (Chan R)) (os : list nat) : Prop :=
  NoDup os ∧ ∀ p, p ∈ os ↔ unresolved chs p.

#[global] Instance accounted_perm chs : Proper ((≡ₚ) ==> iff) (accounted chs).
Proof. intros os os' Hp. unfold accounted. by setoid_rewrite Hp. Qed.

Lemma channel_pending : pending (T := R) channel.
Proof. apply channel_new. Qed.

Lemma accounted_new chs os : accounted chs os → accounted (chs ++ [channel]) (length chs :: os).
Proof.
  intros [Hnd Hin]. split.
  - constructor; [|done]. rewrite Hin. intros (c & Hc & _). apply lookup_lt_Some in Hc. lia.
  - intros p. rewrite elem_of_cons, Hin. unfold unresolved. setoid_rewrite lookup_app_Some. split.
    + intros [->|(c & Hc & Hp)]; [|by eauto].
      exists channel. split; [|apply channel_pending]. right. by rewrite Nat.sub_diag.
    + intros (c & [Hc|[Hle Hc]] & Hp); [by eauto|].
      apply list_lookup_singleton_Some in Hc as [? _]. left. lia.
Qed.

(** Changing one channel in a way that resolves it or leaves it as it is. *)
Lemma unresolved_alter f chs p q :
  unresolved (alter f p chs) q ↔
  (p ≠ q ∧ unresolved chs q) ∨ (p = q ∧ ∃ c, chs !! q = Some c ∧ pending (f c)).
Proof.
  unfold unresolved. destruct (decide (p = q)) as [->|Hne].
  - rewrite list_lookup_alter_eq. setoid_rewrite fmap_Some. naive_solver.
  - rewrite list_lookup_alter_ne by done. naive_solver.
Qed.

Lemma accounted_resolve f chs p os :
  (∀ c, pending c → ¬ pending (f c)) → accounted chs (p :: os) → accounted (alter f p chs) os.
Proof.
  intros Hf [Hnd Hin]. apply NoDup_cons in Hnd as [Hp Hnd]. split; [done|].
  intros q. rewrite unresolved_alter. specialize (Hin q). rewrite elem_of_cons in Hin.
  destruct (decide (p = q)) as [->|]; [|naive_solver]. split; [done|].
  intros [[? _]|[_ (c & Hc & Hf')]]; [done|].
  destruct (proj1 Hin (or_introl eq_refl)) as (c' & Hc' & Hpend). simplify_eq. by destruct (Hf c).
Qed.

Lemma accounted_same f chs p os :
  (∀ c, pending (f c) ↔ pending c) → accounted chs os → accounted (alter f p chs) os.
Proof.
  intros Hf [Hnd Hin]. split; [done|]. intros q. rewrite Hin, unresolved_alter.
  unfold unresolved. setoid_rewrite Hf. destruct (decide (p = q)); naive_solver.
Qed.

Lemma not_pending_drop (c : Chan R) : ¬ pending (tx_drop c).
Proof. unfold pending. destruct (tx_drop_spec c) as [-> _]. by destruct (sending c). Qed.

Lemma accounted_drop chs os ps (w : World) :
  chans w = chs → accounted chs (ps ++ os) →
  ∃ chs', drop_promises (E := PromiseErr) ps w = (mkWorld chs' (comps w) (held w), Ok ()) ∧
          accounted chs' os.
Proof.
  revert chs w. induction ps as [|p ps IH]; intros chs w <- Hacc.
  { exists (chans w). split; [by destruct w|done]. }
  destruct (IH _ (upd_chans (alter tx_drop p) w) eq_refl) as (chs' & Heq & Hacc').
  { apply accounted_resolve; [|done]. intros c _. apply not_pending_drop. }
  exists chs'. split; [exact Heq|done].
Qed.

Lemma queues_insert (l : list (option (Container M N))) c o o' :
  l !! c = Some o → (<[c := o']> l ≫= queue_of) ++ queue_of o ≡ₚ (l ≫= queue_of) ++ queue_of o'.
Proof.
  intros Hc. rewrite <-(take_drop_middle l c o Hc) at 2.
  rewrite insert_take_drop by by eapply lookup_lt_Some.
  rewrite !bind_app. cbn. rewrite <-!app_assoc. apply Permutation_app_head.
  rewrite !app_assoc. rewrite (Permutation_app_comm (queue_of o' ++ _) (queue_of o)).
  rewrite <-!app_assoc. apply Permutation_app_head. apply Permutation_app_comm.
Qed.

Lemma upgrade_Some (w : World) c ct : upgrade w c = Some ct ↔ comps w !! c = Some (Some ct).
Proof.
  unfold upgrade. destruct (comps w !! c) as [[ct'|]|]; cbn; naive_solver.
Qed.

Lemma owners_insert (w w' : World) c o o' :
  comps w !! c = Some o → comps w' = <[c := o']> (comps w) →
  owners w' ++ (queue_of o ≫= env_owned)
  ≡ₚ ((comps w ≫= queue_of) ≫= env_owned) ++ (queue_of o' ≫= env_owned) ++ (held w' ≫= env_owned).
Proof.
  intros Hc Hw'. unfold owners, messages. rewrite Hw', bind_app.
  rewrite <-app_assoc, (Permutation_app_comm (held w' ≫= _)), !app_assoc, <-!bind_app.
  by rewrite queues_insert.
Qed.

(** The invariant of a world. *)
Definition sound (w : World) : Prop := accounted (chans w) (owners w).

Lemma push_accounted chs (w w' : World) c ct env :
  chans w = chs → upgrade w c = Some ct → accounted chs (env_owned env ++ owners w) →
  push_and_count (E := PromiseErr) c ct env w = (w', Ok ()) → sound w'.
Proof.
  intros <- Hup Hacc. apply upgrade_Some in Hup. unfold push_and_count.
  destruct (increment_work (ct_word ct)) as [[word sd]| |]; [|done..]. cbn.
  intros [= <-]. unfold sound. eapply accounted_perm; [|exact Hacc].
  apply (Permutation_app_inv_r (queue_of (Some ct) ≫= env_owned)).
  etrans; [eapply (owners_insert w); [exact Hup|reflexivity]|].
  unfold owners, messages. cbn. rewrite !bind_app. cbn. rewrite app_nil_r.
  solve_Permutation.
Qed.

Lemma weak_enqueue_accounted (w w' : World) c env :
  accounted (chans w) (env_owned env ++ owners w) →
  weak_enqueue (E := PromiseErr) c env w = (w', Ok ()) → sound w'.
Proof.
  intros Hacc. unfold weak_enqueue. st_run. destruct (upgrade w c) as [ct|] eqn:Hup.
  { by eapply push_accounted. }
  destruct (accounted_drop _ _ _ w eq_refl Hacc) as (chs' & Heq & Hacc').
  unfold drop_env. rewrite Heq. intros [= <-]. exact Hacc'.
Qed.

Lemma strong_enqueue_accounted (w w' : World) c env :
  accounted (chans w) (env_owned env ++ owners w) →
  strong_enqueue (E := PromiseErr) c env w = (w', Ok ()) → sound w'.
Proof.
  intros Hacc. unfold strong_enqueue. st_run. destruct (upgrade w c) as [ct|] eqn:Hup; [|done].
  by eapply push_accounted.
Qed.

Lemma take_held_owners (w : World) i e :
  held w !! i = Some e → owners w ≡ₚ env_owned e ++ owners (upd_held (delete i) w).
Proof.
  intros Hi. unfold owners, messages. cbn. rewrite !bind_app.
  rewrite (delete_Permutation _ _ _ Hi) at 1. cbn. solve_Permutation.
Qed.

Lemma take_held_inv (w : World) i {A} (k : Env → Prog PromiseErr A) r :
  (e ← take_held i; k e) w = r → ∀ a, r.2 = Ok a →
  ∃ e, held w !! i = Some e ∧ k e (upd_held (delete i) w) = r.
Proof.
  unfold take_held. st_run. destruct (held w !! i) as [e|]; cbn; [by eauto|]. by intros <-.
Qed.

Lemma receive_sound (w w' : World) c :
  sound w → receive (E := PromiseErr) c w = (w', Ok ()) → sound w'.
Proof.
  unfold receive. st_run. intros Hs. destruct (upgrade w c) as [ct|] eqn:Hup; [|done]. cbn.
  apply upgrade_Some in Hup. destruct (ct_queue ct) as [|e q] eqn:Hq; [by intros [= <-]|].
  cbn. intros [= <-]. unfold sound. eapply accounted_perm; [|exact Hs].
  apply (Permutation_app_inv_r (queue_of (Some ct) ≫= env_owned)).
  etrans; [eapply (owners_insert w); [exact Hup|reflexivity]|].
  unfold owners, messages. cbn. rewrite Hq, !bind_app. cbn. rewrite app_nil_r. solve_Permutation.
Qed.

Lemma dealloc_sound (w w' : World) c :
  sound w → dealloc (E := PromiseErr) c w = (w', Ok ()) → sound w'.
Proof.
  unfold dealloc. st_run. intros Hs. destruct (upgrade w c) as [ct|] eqn:Hup; [|done]. cbn.
  apply upgrade_Some in Hup.
  destruct (accounted_drop (chans w) (owners (upd_comps (<[c := None]>) w)) (ct_queue ct ≫= env_owned)
              (upd_comps (<[c := None]>) w) eq_refl) as (chs' & Heq & Hacc).
  { eapply accounted_perm; [|exact Hs]. rewrite (Permutation_app_comm _ (owners _)).
    change (ct_queue ct) with (queue_of (Some ct)).
    etrans; [eapply (owners_insert w); [exact Hup|reflexivity]|].
    unfold owners, messages. by rewrite bind_app. }
  intros H. pose proof (eq_trans (eq_sym Heq) H) as [= <-]. exact Hacc.
Qed.

Lemma set_word_sound (w w' : World) c word :
  sound w → set_word (E := PromiseErr) c word w = (w', Ok ()) → sound w'.
Proof.
  unfold set_word. st_run. intros Hs. destruct (upgrade w c) as [ct|] eqn:Hup; [|done]. cbn.
  apply upgrade_Some in Hup. intros [= <-]. unfold sound. eapply accounted_perm; [|exact Hs].
  apply (Permutation_app_inv_r (queue_of (Some ct) ≫= env_owned)).
  etrans; [eapply (owners_insert w); [exact Hup|reflexivity]|].
  unfold owners, messages. cbn. rewrite bind_app. solve_Permutation.
Qed.

Lemma fulfil_resolves t (c : Chan R) : pending c → ¬ pending (fulfil t c).1.
Proof.
  intros Hc. destruct (fulfil_pending t c Hc) as (Hs & _). unfold pending. rewrite Hs.
  by destruct (rx_alive c).
Qed.

Lemma fulfil_promise_eq p t (w : World) c :
  chans w !! p = Some c →
  fulfil_promise p t w = (upd_chans (alter (λ c, (fulfil t c).1) p) w, (fulfil t c).2).
Proof.
  intros Hc. unfold fulfil_promise. rewrite Hc.
  assert (alter (λ c, (fulfil t c).1) p (chans w) = <[p := (fulfil t c).1]> (chans w)) as Heq.
  { apply list_eq. intros q. destruct (decide (p = q)) as [->|].
    - rewrite list_lookup_alter_eq, Hc, list_lookup_insert_eq; [done|by eapply lookup_lt_Some].
    - by rewrite list_lookup_alter_ne, list_lookup_insert_ne. }
  unfold upd_chans. rewrite Heq. by destruct (fulfil t c).
Qed.

Lemma step_sound (w w' : World) a : sound w → step w a w' → sound w'.
Proof.
  intros Hs. unfold step. destruct a as [[c] req|[c] req|c|i t|i|i [c]|p|p|c|c z]; cbn [act].
  - intros (w1 & p & Hask & [= <-])%st_bind_inv.
    apply st_bind_inv in Hask as (w2 & p' & [= <- <-] & Hask).
    apply st_bind_inv in Hask as (w3 & [] & He & [= <- <-]).
    eapply weak_enqueue_accounted; [|exact He]. by apply accounted_new.
  - intros (w1 & p & Hask & [= <-])%st_bind_inv.
    apply st_bind_inv in Hask as (w2 & p' & [= <- <-] & Hask).
    apply st_bind_inv in Hask as (w3 & [] & He & [= <- <-]).
    eapply strong_enqueue_accounted; [|exact He]. by apply accounted_new.
  - by apply receive_sound.
  - intros H. destruct (take_held_inv _ _ _ _ H () eq_refl) as (e & Hi & Hk).
    unfold sound in Hs. rewrite (take_held_owners _ _ _ Hi) in Hs. destruct e as [a|n]; cbn in Hk.
    2:{ by injection Hk as <-. }
    destruct (proj1 (proj2 Hs (ask_promise a)) ltac:(by left)) as (ch & Hch & _).
    apply st_bind_inv in Hk as (w2 & r & Hr & [= <-]). unfold st_try, reply in Hr.
    rewrite (fulfil_promise_eq (ask_promise a) t (upd_held (delete i) w) ch Hch) in Hr.
    assert (w2 = upd_chans (alter (λ c, (fulfil t c).1) (ask_promise a)) (upd_held (delete i) w)) as ->.
    { destruct (fulfil t ch).2; congruence. }
    apply accounted_resolve; [apply fulfil_resolves|exact Hs].
  - intros H. destruct (take_held_inv _ _ _ _ H () eq_refl) as (e & Hi & Hk).
    unfold sound in Hs. rewrite (take_held_owners _ _ _ Hi) in Hs.
    destruct (accounted_drop _ _ _ (upd_held (delete i) w) eq_refl Hs) as (chs' & Heq & Hacc).
    unfold drop_env in Hk. rewrite Heq in Hk. by injection Hk as <-.
  - intros H. destruct (take_held_inv _ _ _ _ H () eq_refl) as (e & Hi & Hk).
    unfold sound in Hs. rewrite (take_held_owners _ _ _ Hi) in Hs.
    by eapply weak_enqueue_accounted; [|exact Hk].
  - intros [= <-]. apply accounted_same; [|done]. intros c. unfold pending.
    by destruct (rx_drop_spec c) as [-> _].
  - intros [= <-]. apply accounted_same; [|done]. intros c. unfold pending.
    destruct (future_poll_spec c) as [_ H]. destruct (sending c); destruct H as [-> _]; by split.
  - by apply dealloc_sound.
  - by apply set_word_sound.
Qed.

Lemma reachable_sound words (w : World) : reachable (start words) w → sound w.
Proof.
  induction 1 as [|w a w' _ IH Hst]; [|by eapply step_sound].
  unfold sound, start, owners, messages. cbn. rewrite app_nil_r.
  assert (((λ z, Some (mkContainer z [] 0)) <$> words) ≫= queue_of = ([] : list Env)) as ->.
  { by induction words. }
  split; [constructor|]. intros p. split; [by intros ?%elem_of_nil|]. by intros (c & Hc & _).
Qed.

Lemma held_owned (w : World) i a : held w !! i = Some (Typed a) → ask_promise a ∈ owners w.
Proof. intros Hi. rewrite (take_held_owners w i _ Hi). by left. Qed.

Lemma reply_pending (w : World) a t c :
  chans w !! ask_promise a = Some c → pending c →
  (reply a t w).2 = (if rx_alive c then Ok () else Err ChannelBroken) ∧
  (rx_alive c = true → ∃ c', chans (reply a t w).1 !! ask_promise a = Some c' ∧
                             (future_poll c').2 = Some (inl t)).
Proof.
  intros Hc Hp. unfold reply. rewrite (fulfil_promise_eq _ t w c Hc). simpl.
  destruct (fulfil_pending t c Hp) as (Hs & _ & Hr). split; [done|]. intros Ha.
  eexists. rewrite list_lookup_alter_eq, Hc. split; [done|]. rewrite Ha in Hs.
  pose proof (future_poll_spec (fulfil t c).1) as [_ H]. rewrite Hs in H. by destruct H.
Qed.

(** Runs of given actions. *)
Definition run (w : World) (acts : list Action) : option World :=
  foldl (λ o a, w ← o; match act a w with (w', Ok ()) => Some w' | _ => None end) (Some w) acts.

Lemma asks_run_reachable w0 acts w : run w0 acts = Some w → reachable w0 w.
Proof.
  revert w. induction acts as [|a acts IH] using rev_ind; intros w; unfold run.
  { intros [= <-]. constructor. }
  rewrite foldl_app. simpl. fold (run w0 acts). destruct (run w0 acts) as [w1|] eqn:Hr; [|done]. cbn.
  destruct (act a w1) as [w2 [[]| |]] eqn:Ha; [|done..]. intros [= <-]. by econstructor; [apply IH|].
Qed.

(** C32: Asks are never forgotten.  However asks are sent, received, answered, dropped and
    passed on, and components deallocated, every promise that is not resolved yet is in
    exactly one message that is queued at a live component or in the hands of a handler;
    a handler that holds an ask can answer it, with the answer arriving when the future
    is still there and a broken channel reported when not; and once no message is left
    every future is ready. *)
Theorem asks_accounted (words : list Z) (w : World) :
  reachable (start words) w →
  NoDup (owners w) ∧ (∀ p, p ∈ owners w ↔ unresolved (chans w) p) ∧
  (∀ i a t, held w !! i = Some (Typed a) →
     ∃ c, chans w !! ask_promise a = Some c ∧
       (reply a t w).2 = (if rx_alive c then Ok () else Err ChannelBroken) ∧
       (rx_alive c = true → ∃ c', chans (reply a t w).1 !! ask_promise a = Some c' ∧
                                  (future_poll c').2 = Some (inl t))) ∧
  (messages w = [] → ∀ p c, chans w !! p = Some c → (future_poll c).2 ≠ None).
Proof.
  intros [Hnd Hin]%reachable_sound. split_and!; [done|done|..].
  - intros i a t Hi. apply held_owned, Hin in Hi as (c & Hc & Hp). exists c. split; [done|].
    by apply reply_pending.
  - intros Hm p c Hc. unfold owners in Hin. rewrite Hm in Hin.
    assert (¬ pending c) as Hp.
    { intros Hp. apply (not_elem_of_nil (A := nat) p). apply Hin. by exists c. }
    destruct (future_poll_spec c) as [_ H]. unfold pending in Hp.
    destruct (sending c); [done|..]; by destruct H as [_ ->].
Qed.
End asks.

(** One component that is asked twice and answers the first time. *)
Definition example_acts : list (Action (Request := nat) (R := nat)) :=
  [AAsk (MkActorRef 0) 7; AAsk (MkActorRef 0) 5; AReceive 0; AReply 0 8].
Definition example_world : World (Ask nat) () nat :=
  mkWorld (O := oneshot_pair) (R := nat) [(SSent 8, true); (SPending, true)]
    [Some (mkContainer 2%Z [Typed (MkAsk 1 5)] 1)] [].

Lemma asks_accounted_witness :
  run (start [0%Z]) example_acts = Some example_world ∧
  unresolved (chans example_world) 1 ∧ NoDup (owners example_world).
Proof.
  assert (run (start [0%Z]) example_acts = Some example_world) as Hrun by (vm_compute; reflexivity).
  destruct (asks_accounted [0%Z] example_world (asks_run_reachable _ _ _ Hrun)) as (Hnd & Hin & _).
  split; [exact Hrun|]. split; [|exact Hnd]. apply Hin. vm_compute. left.
Defined.

(** ** References agree *)
Section agreement.
Context {O : OneshotApi} {M N R : Type} `{Owns M}.
Implicit Types w : World M N R.

(** Strong, weak and converting references to a live component do the same; weak and
    converting references to a dead one drop the message, and cannot be held. *)
Theorem references_agree {E I} w c (into : I → M) (v : I) :
  (∀ ct, upgrade w c = Some ct →
     weak_tell (E := E) into (MkActorRef c) v w = strong_tell into (MkActorRefStrong c) v w ∧
     recipient_tell (E := E) id (recipient into (MkActorRef c)) v w = strong_tell into (MkActorRefStrong c) v w ∧
     weak_ref <$> hold w (MkActorRef c) = Some (MkActorRef c)) ∧
  (upgrade w c = None →
     weak_tell (E := E) into (MkActorRef c) v w = drop_env (Typed (into v)) w ∧
     recipient_tell (E := E) id (recipient into (MkActorRef c)) v w = drop_env (Typed (into v)) w ∧
     hold w (MkActorRef c) = None).
Proof.
  unfold weak_tell, recipient_tell, strong_tell, weak_enqueue, strong_enqueue, push_and_schedule, hold.
  split; [intros ct Hc|intros Hc]; st_run; rewrite Hc; by split_and!.
Qed.

(** Weak references to dead components equal nothing, but recipients for dead
    components equal each other, whatever components they were for. *)
Theorem dead_recipients_equal w a b (f g : M → M) :
  upgrade w a = None → upgrade w b = None →
  weak_eq w (MkActorRef a) (MkActorRef b) = false ∧
  recipient_eq w (MkRecipient _ a f) (MkRecipient _ b g) = true.
Proof.
  intros Ha Hb. unfold weak_eq, recipient_eq, recipient_id. rewrite Ha, Hb. split; [done|].
  by apply bool_decide_true.
Qed.
End agreement.
