(* ===== verification/Scheduling.v ===== *)
(** * Scheduling protocol of one component

    The interplay of the producers that enqueue work
    ([Component::enqueue_control], [DynActorRef::enqueue], [ActorRef::enqueue],
    [ProvidedRef::enqueue], [TimerActorRef::enqueue]), the scheduler
    ([maybe_reschedule] in [core/src/runtime/scheduler.rs]) and the executing
    thread ([Component::execute], [Component::inner_execute]), as a transition
    system over the shared lifecycle word of [Lifecycle].  Every label is one
    atomic action of some thread and labels may be interleaved freely.

    A timeout whose timer is cancelled while it is queued is taken from the queue
    without being counted ([TimerManager::try_action]) and ends the timer loop of that
    execution: [dropped] is how many of these the counter still contains.

    The system covers components on the thread pool whose handlers return
    [Handled::Ok]; [Blocking] is the protocol with blocking futures, and killing,
    shutdown and faults end the normal scheduling and are not labels. *)

From S2P Require Import Prelude Lifecycle.

(** [ControlEvent]; the tag of a polled future is a UUID. *)
Inductive ControlEvent := Start | Stop | Kill | Poll (tag : Z).

(** An execution in progress: its [count] variable, and whether its timer loop is over. *)
Record Exec := mkExec { ex_count : nat; ex_over : bool }.

(** The shared state and the number of threads at each program point. *)
Record Sched := mkSched {
  state_word : Z;             (** [ComponentCore::state] *)
  ctrl_queue : list ControlEvent;
  timeouts : list bool;    (** queued timeouts; [false] when the timer was cancelled since *)
  queued : nat;               (** elements in the message and port queues *)
  inc_schedule : nat;         (** producers between [increment_work], which said [Schedule], and [push] *)
  inc_other : nat;            (** producers between [increment_work], which said anything else, and [push] *)
  pushed_schedule : nat;      (** producers between [push] and [schedule()] *)
  jobs : nat;                 (** executions handed to the scheduler and not begun *)
  running : list Exec;        (** the executions in progress *)
  dropped : nat;              (** cancelled timeouts that were taken and never subtracted *)
}.

Definition with_word (w : Z) (s : Sched) : Sched :=
  mkSched w (ctrl_queue s) (timeouts s) (queued s) (inc_schedule s) (inc_other s) (pushed_schedule s) (jobs s) (running s) (dropped s).
Definition with_queues (c : list ControlEvent) (t : list bool) (q : nat) (s : Sched) : Sched :=
  mkSched (state_word s) c t q (inc_schedule s) (inc_other s) (pushed_schedule s) (jobs s) (running s) (dropped s).
Definition with_producers (i o p : nat) (s : Sched) : Sched :=
  mkSched (state_word s) (ctrl_queue s) (timeouts s) (queued s) i o p (jobs s) (running s) (dropped s).
Definition with_jobs (j : nat) (s : Sched) : Sched :=
  mkSched (state_word s) (ctrl_queue s) (timeouts s) (queued s) (inc_schedule s) (inc_other s) (pushed_schedule s) j (running s) (dropped s).
Definition with_running (r : list Exec) (s : Sched) : Sched :=
  mkSched (state_word s) (ctrl_queue s) (timeouts s) (queued s) (inc_schedule s) (inc_other s) (pushed_schedule s) (jobs s) r (dropped s).
Definition with_dropped (d : nat) (s : Sched) : Sched :=
  mkSched (state_word s) (ctrl_queue s) (timeouts s) (queued s) (inc_schedule s) (inc_other s) (pushed_schedule s) (jobs s) (running s) d.

(** What a producer enqueues: a control event, a timeout, or a message or port event. *)
Inductive Work := WControl (e : ControlEvent) | WTimeout | WOther.

Inductive Label :=
| Increment                    (** [let sd = c.core().increment_work()] *)
| PushSchedule (e : Work)      (** [q.push(msg)], to be followed by [schedule()] *)
| PushOther (e : Work)         (** [q.push(msg)] *)
| CallSchedule                 (** [if let Schedule = sd { c.schedule() }] *)
| Execute                      (** the scheduler runs a job: [c.execute()] *)
| PopControl (i : nat)         (** execution [i] handles one control event *)
| PopTimer (i : nat)           (** execution [i] takes one timeout *)
| Pop (i : nat)                (** execution [i] handles one message or port event *)
| CancelQueued (k : nat)       (** a handler cancels the timer of the [k]th queued timeout *)
| Finish (i : nat).            (** [decrement_work(count)] and [maybe_reschedule] *)

(** An action that the program point does not allow. *)
Inductive NotEnabled := not_enabled.

Definition guard_ (P : Prop) `{!Decision P} : res NotEnabled () :=
  if decide P then Ok () else Err not_enabled.

Definition take_one (n : nat) : res NotEnabled nat :=
  match n with O => Err not_enabled | S n => Ok n end.

(** [increment_work] by a producer, which remembers the decision. *)
Definition increment (s : Sched) : res NotEnabled Sched :=
  '(w, sd) ← increment_work (state_word s);
  Ok (with_word w
       (if decide (sd = Schedule) then with_producers (S (inc_schedule s)) (inc_other s) (pushed_schedule s) s
        else with_producers (inc_schedule s) (S (inc_other s)) (pushed_schedule s) s)).

Definition push_ctrl (e : Work) (q : list ControlEvent) : list ControlEvent :=
  match e with WControl e => q ++ [e] | _ => q end.
Definition push_timer (e : Work) (q : list bool) : list bool :=
  match e with WTimeout => q ++ [true] | _ => q end.
Definition push_queued (e : Work) (q : nat) : nat :=
  match e with WOther => S q | _ => q end.
Definition push_work (e : Work) (s : Sched) : Sched :=
  with_queues (push_ctrl e (ctrl_queue s)) (push_timer e (timeouts s)) (push_queued e (queued s)) s.

Definition push_schedule (e : Work) (s : Sched) : res NotEnabled Sched :=
  n ← take_one (inc_schedule s);
  Ok (with_producers n (inc_other s) (S (pushed_schedule s)) (push_work e s)).

Definition push_other (e : Work) (s : Sched) : res NotEnabled Sched :=
  n ← take_one (inc_other s);
  Ok (with_producers (inc_schedule s) n (pushed_schedule s) (push_work e s)).

Definition call_schedule (s : Sched) : res NotEnabled Sched :=
  n ← take_one (pushed_schedule s);
  Ok (with_jobs (S (jobs s)) (with_producers (inc_schedule s) (inc_other s) n s)).

Definition begin_execute (s : Sched) : res NotEnabled Sched :=
  n ← take_one (jobs s);
  Ok (with_jobs n (with_running (mkExec 0 false :: running s) s)).

(** Handling a control event: [Start] and [Stop] change the flag, [Poll] polls a
    future, [Kill] leaves the protocol. *)
Definition control_word (e : ControlEvent) (w : Z) : res NotEnabled Z :=
  match e with
  | Start => Ok (set_active w)
  | Stop => Ok (set_passive w)
  | Poll _ => Ok w
  | Kill => Err not_enabled
  end.

(** [count += 1] in execution [i]. *)
Definition counted_one (i : nat) (x : Exec) (s : Sched) : Sched :=
  with_running (<[i := mkExec (S (ex_count x)) (ex_over x)]> (running s)) s.

Definition pop_control (i : nat) (s : Sched) : res NotEnabled Sched :=
  match ctrl_queue s with
  | [] => Err not_enabled
  | e :: q =>
      x ← ok_or not_enabled (running s !! i);
      w ← control_word e (state_word s);
      Ok (counted_one i x (with_word w (with_queues q (timeouts s) (queued s) s)))
  end.

(** Other work is only handled when the component is active.  The timer loop runs the
    action of the next timeout and counts it; a timeout whose timer was cancelled is
    taken as well, is not counted, and ends the loop ([ExecuteAction::None => break]). *)
Definition pop_timer (i : nat) (s : Sched) : res NotEnabled Sched :=
  _ ← guard_ (is_active (state_word s) = true);
  x ← ok_or not_enabled (running s !! i);
  _ ← guard_ (ex_over x = false);
  match timeouts s with
  | [] => Err not_enabled
  | true :: q => Ok (counted_one i x (with_queues (ctrl_queue s) q (queued s) s))
  | false :: q =>
      Ok (with_dropped (S (dropped s)) (with_running (<[i := mkExec (ex_count x) true]> (running s))
           (with_queues (ctrl_queue s) q (queued s) s)))
  end.

Definition pop_one (i : nat) (s : Sched) : res NotEnabled Sched :=
  _ ← guard_ (is_active (state_word s) = true);
  q ← take_one (queued s);
  x ← ok_or not_enabled (running s !! i);
  Ok (counted_one i x (with_queues (ctrl_queue s) (timeouts s) q s)).

(** [cancel_timer] in a handler of the component: the handle is removed, a timeout that
    is already queued stays. *)
Definition cancel_queued (k : nat) (s : Sched) : res NotEnabled Sched :=
  _ ← guard_ (running s ≠ []);
  match timeouts s !! k with
  | Some true => Ok (with_queues (ctrl_queue s) (<[k := false]> (timeouts s)) (queued s) s)
  | _ => Err not_enabled
  end.

Definition finish (i : nat) (s : Sched) : res NotEnabled Sched :=
  x ← ok_or not_enabled (running s !! i);
  '(w, sd) ← decrement_work (state_word s) (ex_count x);
  Ok (with_word w (with_jobs (if decide (sd = Schedule) then S (jobs s) else jobs s)
       (with_running (delete i (running s)) s))).

Definition step (l : Label) : Sched → res NotEnabled Sched :=
  match l with
  | Increment => increment
  | PushSchedule e => push_schedule e
  | PushOther e => push_other e
  | CallSchedule => call_schedule
  | Execute => begin_execute
  | PopControl i => pop_control i
  | PopTimer i => pop_timer i
  | Pop i => pop_one i
  | CancelQueued k => cancel_queued k
  | Finish i => finish i
  end.

(** A new component. *)
Definition init_sched : Sched := mkSched initial_state [] [] 0 0 0 0 0 [] 0.

Inductive reachable : Sched → Prop :=
| reach_init : reachable init_sched
| reach_step s l s' : reachable s → step l s = Ok s' → reachable s'.

(** ** Invariant *)
Definition sum_counts (l : list Exec) : nat := foldr (λ x n, ex_count x + n) 0 l.

(** The elements in the queues. *)
Definition enqueued (s : Sched) : nat := length (ctrl_queue s) + length (timeouts s) + queued s.

(** The units of work: queued, about to be queued, or popped by an execution that has
    not yet reported them. *)
Definition outstanding (s : Sched) : nat :=
  enqueued s + inc_schedule s + inc_other s + sum_counts (running s).

(** What the counter counts: the outstanding work and what was dropped without being
    subtracted. *)
Definition counted (s : Sched) : nat := outstanding s + dropped s.

(** The threads that run the component or are bound to make it run. *)
Definition tickets (s : Sched) : nat :=
  inc_schedule s + pushed_schedule s + jobs s + length (running s).

Definition schedulable (f : Flag) : Prop := f = FActive ∨ f = FPassive.

Definition sched_inv (s : Sched) : Prop :=
  counted s ≤ MAX_WORK
  ∧ (∃ f, schedulable f ∧ state_word s = word f (counted s))
  ∧ tickets s = (if decide (counted s = 0) then 0 else 1).

Lemma take_one_Ok n m : take_one n = Ok m ↔ n = S m.
Proof. destruct n; cbn; naive_solver. Qed.

Lemma ok_or_Ok {E A} (e : E) (o : option A) a : ok_or e o = Ok a ↔ o = Some a.
Proof. destruct o; cbn; naive_solver. Qed.

Lemma guard_Ok P `{!Decision P} u : guard_ P = Ok u ↔ P.
Proof. unfold guard_. destruct u. case_decide; naive_solver. Qed.

Lemma sum_counts_insert l i x y : l !! i = Some x →
  sum_counts (<[i := y]> l) + ex_count x = sum_counts l + ex_count y.
Proof.
  revert i. induction l as [|z l IH]; intros [|i] H; try done.
  - injection H as ->. cbn -[sum_counts]. change (ex_count y + sum_counts l + ex_count x = ex_count x + sum_counts l + ex_count y). lia.
  - change (ex_count z + sum_counts (<[i := y]> l) + ex_count x = ex_count z + sum_counts l + ex_count y).
    pose proof (IH i H). lia.
Qed.

Lemma sum_counts_delete l i x : l !! i = Some x → sum_counts l = ex_count x + sum_counts (delete i l).
Proof.
  revert i. induction l as [|z l IH]; intros [|i] H; try done.
  - by injection H as ->.
  - change (ex_count z + sum_counts l = ex_count x + (ex_count z + sum_counts (delete i l))). rewrite (IH i H). lia.
Qed.

(** Unfolds the state down to its fields. *)
Ltac sched_unfold := unfold sched_inv, tickets, counted, outstanding, enqueued, counted_one, push_work, with_word, with_queues,
  with_producers, with_jobs, with_running, with_dropped in *;
  cbn [state_word ctrl_queue timeouts queued inc_schedule inc_other pushed_schedule jobs running dropped length ex_count ex_over] in *.

Lemma init_sched_inv : sched_inv init_sched.
Proof.
  split_and!; [cbn; pose proof MAX_WORK_Z; lia| |done].
  exists FPassive. split; [by right|]. reflexivity.
Qed.

Lemma increment_inv s s' : sched_inv s → increment s = Ok s' → sched_inv s'.
Proof.
  intros (Hm & (f & Hf & Hw) & Ht) H. unfold increment in H. rewrite Hw in H.
  destruct (decide (counted s = MAX_WORK)) as [He|Hlt].
  { rewrite He, increment_work_full in H. done. }
  rewrite increment_work_word in H by lia. cbn [mbind res_bind] in H. injection H as <-.
  assert (decide_from f (counted s) = if decide (counted s = 0) then Schedule else AlreadyScheduled)
    as Hd by (by destruct Hf as [-> | ->]).
  rewrite Hd. destruct (decide (counted s = 0)) as [H0|H0];
    [rewrite decide_True by done|rewrite decide_False by done]; sched_unfold;
    (split_and!; [lia|exists f; split; [done|f_equal; lia]|rewrite decide_False by lia; lia]).
Qed.

(** Actions that neither touch the word nor the number of counted units. *)
Lemma frame_inv s s' :
  state_word s' = state_word s → counted s' = counted s → tickets s' = tickets s →
  sched_inv s → sched_inv s'.
Proof. intros Hw Ho Ht. unfold sched_inv. by rewrite Hw, Ho, Ht. Qed.

Lemma finish_inv i s s' : sched_inv s → finish i s = Ok s' → sched_inv s'.
Proof.
  intros (Hm & (f & Hf & Hw) & Ht) H. unfold finish in H.
  apply bind_Ok in H as (x & Hi%ok_or_Ok & H). rewrite Hw in H.
  pose proof (sum_counts_delete _ _ _ Hi) as Hs.
  rewrite decrement_work_word in H by (unfold counted, outstanding in *; lia). cbn [mbind res_bind] in H. injection H as <-.
  assert (length (delete i (running s)) = length (running s) - 1) as Hl
    by (apply length_delete; eauto).
  pose proof (lookup_lt_Some _ _ _ Hi) as Hlt. sched_unfold. rewrite Hl.
  split_and!; [lia|exists f; split; [done|f_equal; lia]|].
  repeat case_decide; try done; lia.
Qed.

Lemma push_count e s : enqueued (push_work e s) = S (enqueued s).
Proof. unfold enqueued, push_work. destruct e; cbn; rewrite ?length_app; cbn; lia. Qed.

Lemma control_word_Ok e w f c : schedulable f → c ≤ MAX_WORK → control_word e (word f c) = Ok w →
  ∃ f', schedulable f' ∧ w = word f' c.
Proof.
  intros Hf Hc H. destruct e; cbn in H; try done; injection H as <-.
  - exists FActive. split; [by left|]. by apply (set_state_word f FActive).
  - exists FPassive. split; [by right|]. by apply (set_state_word f FPassive).
  - by exists f.
Qed.

Lemma pop_control_inv i s s' : sched_inv s → pop_control i s = Ok s' → sched_inv s'.
Proof.
  intros (Hm & (f & Hf & Hw) & Ht) H. unfold pop_control in H.
  destruct (ctrl_queue s) as [|e q] eqn:Hq; [done|].
  apply bind_Ok in H as (c & Hc%ok_or_Ok & (w & Hcw & [= <-])%bind_Ok). rewrite Hw in Hcw.
  apply control_word_Ok in Hcw as (f' & Hf' & ->); [|done..].
  pose proof (sum_counts_insert _ _ _ (mkExec (S (ex_count c)) (ex_over c)) Hc) as Hs.
  sched_unfold. rewrite Hq in *. cbn [length] in *. rewrite length_insert.
  split_and!; [lia|exists f'; split; [done|f_equal; lia]|].
  repeat case_decide; lia.
Qed.

(** Taking one element, counted or dropped. *)
Lemma pop_timer_frame i s s' : pop_timer i s = Ok s' →
  state_word s' = state_word s ∧ counted s' = counted s ∧ tickets s' = tickets s.
Proof.
  unfold pop_timer. intros ([] & _ & (x & Hx%ok_or_Ok & ([] & _ & H)%bind_Ok)%bind_Ok)%bind_Ok.
  destruct (timeouts s) as [|[] q] eqn:Hq; [done|injection H as <-..];
    [pose proof (sum_counts_insert _ _ _ (mkExec (S (ex_count x)) (ex_over x)) Hx) as Hs|pose proof (sum_counts_insert _ _ _ (mkExec (ex_count x) true) Hx) as Hs];
    sched_unfold; rewrite Hq, ?length_insert; cbn [length] in *; split_and!; done || lia.
Qed.

Lemma pop_one_frame i s s' : pop_one i s = Ok s' →
  state_word s' = state_word s ∧ counted s' = counted s ∧ tickets s' = tickets s.
Proof.
  intros ([] & _ & (q & Hq%take_one_Ok & (x & Hx%ok_or_Ok & [= <-])%bind_Ok)%bind_Ok)%bind_Ok.
  pose proof (sum_counts_insert _ _ _ (mkExec (S (ex_count x)) (ex_over x)) Hx) as Hs.
  sched_unfold. rewrite length_insert. split_and!; done || lia.
Qed.

Lemma cancel_frame k s s' : cancel_queued k s = Ok s' →
  state_word s' = state_word s ∧ counted s' = counted s ∧ tickets s' = tickets s.
Proof.
  intros ([] & _ & H)%bind_Ok. destruct (timeouts s !! k) as [[]|]; try done. injection H as <-.
  sched_unfold. rewrite length_insert. split_and!; done || lia.
Qed.

Lemma step_inv l s s' : sched_inv s → step l s = Ok s' → sched_inv s'.
Proof.
  intros HI. destruct l; cbn [step].
  - by apply increment_inv.
  - intros (n & Hn%take_one_Ok & [= <-])%bind_Ok. pose proof (push_count e s).
    revert HI. apply frame_inv; sched_unfold; done || lia.
  - intros (n & Hn%take_one_Ok & [= <-])%bind_Ok. pose proof (push_count e s).
    revert HI. apply frame_inv; sched_unfold; done || lia.
  - intros (n & Hn%take_one_Ok & [= <-])%bind_Ok. revert HI. apply frame_inv; sched_unfold; done || lia.
  - intros (n & Hn%take_one_Ok & [= <-])%bind_Ok. revert HI. apply frame_inv; sched_unfold; cbn; done || lia.
  - by apply pop_control_inv.
  - intros (H1 & H2 & H3)%pop_timer_frame. by apply (frame_inv s s').
  - intros (H1 & H2 & H3)%pop_one_frame. by apply (frame_inv s s').
  - intros (H1 & H2 & H3)%cancel_frame. by apply (frame_inv s s').
  - by apply finish_inv.
Qed.

Lemma reachable_inv s : reachable s → sched_inv s.
Proof. induction 1; [apply init_sched_inv|by eapply step_inv]. Qed.

(** ** Draining a component *)
Inductive steps : Sched → Sched → Prop :=
| steps_refl s : steps s s
| steps_step l s1 s2 s3 : step l s1 = Ok s2 → steps s2 s3 → steps s1 s3.

Lemma steps_trans s1 s2 s3 : steps s1 s2 → steps s2 s3 → steps s1 s3.
Proof. induction 1; [done|]. intros. eapply steps_step; eauto. Qed.

Lemma steps_inv s s' : steps s s' → sched_inv s → sched_inv s'.
Proof. induction 1; eauto using step_inv. Qed.

(** Every producer that is under way can finish its enqueue (of a message). *)
Lemma finish_producers s :
  ∃ s', steps s s' ∧ inc_schedule s' = 0 ∧ inc_other s' = 0 ∧ pushed_schedule s' = 0
    ∧ ctrl_queue s' = ctrl_queue s ∧ timeouts s' = timeouts s ∧ dropped s' = dropped s
    ∧ is_active (state_word s') = is_active (state_word s).
Proof.
  destruct s as [w cq tq q a b p j r d]. cbn.
  revert q b p j r. induction a as [|a IH]; [intros q b; revert q; induction b as [|b IHb]|].
  - intros q p. induction p as [|p IHp]; intros j r.
    + eexists. split; [apply steps_refl|]. done.
    + destruct (IHp (S j) r) as (s' & Hs & ?). exists s'. split; [|done].
      by eapply (steps_step CallSchedule).
  - intros q p j r. destruct (IHb (S q) p j r) as (s' & Hs & ?). exists s'. split; [|done].
    by eapply (steps_step (PushOther WOther)).
  - intros q b p j r. destruct (IH (S q) b (S p) j r) as (s' & Hs & ?). exists s'. split; [|done].
    by eapply (steps_step (PushSchedule WOther)).
Qed.

Lemma is_active_word f c : c ≤ MAX_WORK → is_active (word f c) = bool_decide (f = FActive).
Proof. intros. unfold is_active. rewrite remove_count_word by done. by destruct f. Qed.

(** A single execution of an active component can pop every message. *)
Lemma pop_all w q c o d : is_active w = true →
  steps (mkSched w [] [] q 0 0 0 0 [mkExec c o] d) (mkSched w [] [] 0 0 0 0 0 [mkExec (c + q) o] d).
Proof.
  intros Hw. revert c. induction q as [|q IH]; intros c.
  - rewrite Nat.add_0_r. apply steps_refl.
  - eapply (steps_step (Pop 0)).
    + cbn [step]. unfold pop_one, guard_. cbn [state_word]. rewrite decide_True by done. reflexivity.
    + replace (c + S q) with (S c + q) by lia. apply IH.
Qed.

(** Control events are handled whatever the flag, and those before a final
    [Start] leave the component active. *)
Definition control_flag (f : Flag) (e : ControlEvent) : Flag :=
  match e with Start => FActive | Stop => FPassive | _ => f end.

Lemma pop_controls f k cq tq q c o d : schedulable f → k ≤ MAX_WORK → Kill ∉ cq →
  steps (mkSched (word f k) cq tq q 0 0 0 0 [mkExec c o] d)
        (mkSched (word (foldl control_flag f cq) k) [] tq q 0 0 0 0 [mkExec (c + length cq) o] d).
Proof.
  intros Hf Hk. revert f c Hf. induction cq as [|e cq IH]; intros f c Hf Hkill.
  - rewrite Nat.add_0_r. apply steps_refl.
  - apply not_elem_of_cons in Hkill as [He Hkill].
    eapply (steps_step (PopControl 0)) with
      (s2 := mkSched (word (control_flag f e) k) cq tq q 0 0 0 0 [mkExec (S c) o] d).
    + destruct e; try done; cbn; unfold set_active, set_passive;
        rewrite ?(set_state_word f FActive) , ?(set_state_word f FPassive) by done; done.
    + replace (c + length (e :: cq)) with (S c + length cq) by (cbn; lia).
      apply IH; [|done]. destruct e; cbn; [by left|by right|done..].
Qed.

(** The cancelled timeouts in the queue. *)
Definition stale (l : list bool) : nat := length (filter (λ b, b = false) l).

(** An active component with empty queues: it is scheduled again for nothing as long as
    the counter contains dropped timeouts. *)
Definition drained (d : nat) : Sched :=
  mkSched (word FActive d) [] [] 0 0 0 0 (if decide (d = 0) then 0 else 1) [] d.

Lemma finish_step f n c o tq q d : c ≤ n → n ≤ MAX_WORK →
  step (Finish 0) (mkSched (word f n) [] tq q 0 0 0 0 [mkExec c o] d)
  = Ok (mkSched (word f (n - c)) [] tq q 0 0 0 (if decide (n - c = 0) then 0 else 1) [] d).
Proof.
  intros Hc Hn. cbn [step]. unfold finish. cbn [running state_word ok_or mbind res_bind lookup list_lookup ex_count].
  rewrite decrement_work_word by lia. cbn [mbind res_bind].
  destruct (decide (n = c)), (decide (n - c = 0)); try lia; done.
Qed.

(** An execution runs the actions of live timeouts until it finds a cancelled one; the
    next execution takes up the rest. *)
Lemma drain_timers tq : ∀ q c o d, length tq + q + c + d ≤ MAX_WORK →
  steps (mkSched (word FActive (length tq + q + c + d)) [] tq q 0 0 0 0 [mkExec c o] d) (drained (d + stale tq)).
Proof.
  induction tq as [|t tq IH]; intros q c o d Hm.
  - eapply steps_trans; [apply pop_all; by rewrite is_active_word|].
    eapply (steps_step (Finish 0)); [apply finish_step; cbn in *; lia|].
    cbn [length Nat.add]. replace (q + c + d - (c + q)) with d by lia. unfold stale. cbn. rewrite Nat.add_0_r. apply steps_refl.
  - assert (∀ c', length (t :: tq) + q + c' + d ≤ MAX_WORK →
      steps (mkSched (word FActive (length (t :: tq) + q + c' + d)) [] (t :: tq) q 0 0 0 0 [mkExec c' false] d) (drained (d + stale (t :: tq)))) as Hgo.
    { clear c Hm. intros c Hm. cbn in Hm. destruct t;
        (eapply (steps_step (PopTimer 0));
          [cbn [step]; unfold pop_timer, guard_; cbn [state_word]; rewrite decide_True by (by rewrite is_active_word); reflexivity|]);
        sched_unfold.
      - replace (S (length tq) + q + c + d) with (length tq + q + S c + d) by lia. apply IH. lia.
      - replace (S (length tq) + q + c + d) with (length tq + q + c + S d) by lia.
        change (stale (false :: tq)) with (S (stale tq)). replace (d + S (stale tq)) with (S d + stale tq) by lia. apply IH. lia. }
    destruct o; [|by apply Hgo].
    eapply (steps_step (Finish 0)); [apply finish_step; cbn in *; lia|]. rewrite decide_False by (cbn; lia).
    eapply (steps_step Execute); [reflexivity|]. sched_unfold.
    replace (S (length tq) + q + c + d - c) with (length (t :: tq) + q + 0 + d) by (cbn; lia). apply Hgo. cbn in *. lia.
Qed.

(** With all producers done, the single execution under way handles everything. *)
Lemma drain_running f cq tq q c o d :
  length cq + length tq + q + c + d ≤ MAX_WORK → schedulable f → Kill ∉ cq → foldl control_flag f cq = FActive →
  steps (mkSched (word f (length cq + length tq + q + c + d)) cq tq q 0 0 0 0 [mkExec c o] d) (drained (d + stale tq)).
Proof.
  intros Hm Hf Hk Ha. eapply steps_trans; [by apply pop_controls|]. rewrite Ha.
  replace (length cq + length tq + q + c + d) with (length tq + q + (c + length cq) + d) in * by lia.
  by apply drain_timers.
Qed.

Lemma word_active_flag s f : sched_inv s → state_word s = word f (counted s) →
  is_active (state_word s) = bool_decide (f = FActive).
Proof. intros (Hm & _ & _) ->. by apply is_active_word. Qed.

(** The invariant forces one of three shapes on a state without producers. *)
Lemma quiet_shape s : sched_inv s → inc_schedule s = 0 → inc_other s = 0 → pushed_schedule s = 0 →
  (∃ x, running s = [x] ∧ jobs s = 0)
  ∨ running s = [] ∧ jobs s = 1
  ∨ running s = [] ∧ jobs s = 0 ∧ ctrl_queue s = [] ∧ timeouts s = [] ∧ queued s = 0 ∧ dropped s = 0.
Proof.
  intros (Hm & _ & Ht) Ha Hb Hp. sched_unfold. rewrite Ha, Hb, Hp in *.
  destruct (running s) as [|x [|y r]]; cbn [length sum_counts foldr] in *.
  - case_decide; [right; right|right; left; split; [done|lia]].
    split_and!; [done|lia|apply nil_length_inv; lia|apply nil_length_inv; lia|lia|lia].
  - left. exists x. split; [done|]. case_decide; lia.
  - case_decide; lia.
Qed.

Lemma drain_quiet s f : sched_inv s → inc_schedule s = 0 → inc_other s = 0 → pushed_schedule s = 0 →
  schedulable f → state_word s = word f (counted s) → Kill ∉ ctrl_queue s →
  foldl control_flag f (ctrl_queue s) = FActive →
  steps s (drained (dropped s + stale (timeouts s))).
Proof.
  intros HI Ha Hb Hp Hsf Hf Hk Hact. pose proof (quiet_shape s HI Ha Hb Hp) as Hs. destruct HI as (Hm & _ & _).
  destruct s as [w cq tq q a b p j r d]. sched_unfold. subst w a b p.
  destruct Hs as [([c o] & -> & ->)|[(-> & ->)|(-> & -> & -> & -> & -> & ->)]]; cbn [sum_counts foldr ex_count] in *.
  - replace (length cq + length tq + q + 0 + 0 + (c + 0) + d) with (length cq + length tq + q + c + d) in * by lia.
    by apply drain_running.
  - eapply (steps_step Execute); [reflexivity|]. sched_unfold.
    replace (length cq + length tq + q + 0 + 0 + 0 + d) with (length cq + length tq + q + 0 + d) in * by lia.
    by apply drain_running.
  - cbn in Hact. subst. apply steps_refl.
Qed.

(** ** Properties *)

(** C1: Whatever the interleaving of producers, scheduler and executing threads, of a
    component on the thread pool whose handlers neither block on futures, fail, kill it
    nor shut it down: at most one thread executes the component; whenever an element is
    queued exactly one thread runs it, has it scheduled or is bound to schedule it (no
    wake-up is lost and none is duplicated); a component whose counter is zero is not
    scheduled; and the counter equals the outstanding work plus the timeouts that were
    taken from the queue after their timers had been cancelled, which are never
    subtracted, in a schedulable flag. *)
Theorem scheduling_safe (s : Sched) : reachable s →
  length (running s) ≤ 1
  ∧ (0 < enqueued s → tickets s = 1)
  ∧ (counted s = 0 → tickets s = 0)
  ∧ ∃ f, schedulable f ∧ outstanding s + dropped s ≤ MAX_WORK ∧ state_word s = word f (outstanding s + dropped s).
Proof.
  intros (Hm & (f & Hf & Hw) & Ht)%reachable_inv. unfold tickets in *. split_and!.
  - case_decide; lia.
  - unfold counted, outstanding in *. case_decide; lia.
  - intros ?. by rewrite decide_True in Ht.
  - eauto.
Qed.

(** A component that is started, handles a timeout and cancels a timer whose timeout is
    queued. *)
Definition example_trace : list Label :=
  [Increment; Increment; PushOther WTimeout; PushSchedule (WControl Start); CallSchedule; Execute; PopControl 0;
   PopTimer 0; Increment; PushOther WTimeout; CancelQueued 0; PopTimer 0; Increment; PushOther WOther].

Lemma run_reachable ls s s' :
  reachable s → for_each ls step s = Ok s' → reachable s'.
Proof.
  revert s. induction ls as [|l ls IH]; intros s Hs; cbn; [by intros [= <-]|].
  intros (s1 & H1 & H2)%bind_Ok. eapply IH; [|done]. by eapply reach_step.
Qed.

Lemma scheduling_safe_witness :
  ∃ s, for_each example_trace step init_sched = Ok s ∧ queued s = 1 ∧ running s = [mkExec 2 true] ∧ dropped s = 1 ∧ tickets s = 1.
Proof.
  eexists. split_and!; [vm_compute; reflexivity|reflexivity|reflexivity|reflexivity|].
  refine (proj1 (proj2 (scheduling_safe _ _)) _); [|cbn; lia].
  apply (run_reachable example_trace init_sched); [constructor|vm_compute; reflexivity].
Defined.

(** The counter protocol never aborts the process by underflow: in every
    reachable state no execution's final [decrement_work] panics, and the only
    action of any thread that can abort is an increment with the counter full. *)
Theorem scheduling_never_underflows (s : Sched) (l : Label) : reachable s →
  step l s = Panic → l = Increment ∧ counted s = MAX_WORK.
Proof.
  intros (Hm & (f & Hf & Hw) & Ht)%reachable_inv Hp. destruct l; cbn [step] in Hp.
  - split; [done|]. destruct (decide (counted s = MAX_WORK)) as [|]; [done|].
    unfold increment in Hp. by rewrite Hw, increment_work_word in Hp by lia.
  - unfold push_schedule in Hp. by destruct (inc_schedule s).
  - unfold push_other in Hp. by destruct (inc_other s).
  - unfold call_schedule in Hp. by destruct (pushed_schedule s).
  - unfold begin_execute in Hp. by destruct (jobs s).
  - unfold pop_control in Hp. destruct (ctrl_queue s) as [|e q]; [done|].
    destruct (running s !! i); [|done]. cbn in Hp. by destruct e.
  - unfold pop_timer, guard_ in Hp. case_decide; [|done]. cbn in Hp. destruct (running s !! i); [|done]. cbn in Hp.
    case_decide; [|done]. by destruct (timeouts s) as [|[] ?].
  - unfold pop_one, guard_ in Hp. case_decide; [|done]. destruct (queued s); [done|]. cbn in Hp.
    by destruct (running s !! i).
  - unfold cancel_queued, guard_ in Hp. case_decide; [|done]. cbn in Hp. by destruct (timeouts s !! k) as [[]|].
  - unfold finish in Hp. destruct (running s !! i) as [c|] eqn:Hi; [|done]. cbn [ok_or mbind res_bind] in Hp.
    pose proof (sum_counts_delete _ _ _ Hi). rewrite Hw, decrement_work_word in Hp; [done|done|].
    unfold counted, outstanding. lia.
Qed.

(** The hypothesis holds at a state whose counter is full, reached by [MAX_WORK]
    producers; the witness shows the shape of the claim at a reachable state. *)
Lemma full_reachable n : n ≤ MAX_WORK → ∃ s, reachable s ∧ counted s = n ∧ running s = [] ∧ enqueued s = 0 ∧ dropped s = 0.
Proof.
  induction n as [|n IH]; intros Hn.
  - exists init_sched. split_and!; [constructor|done..].
  - destruct IH as (s & Hs & Ho & Hr & Hq & Hd); [lia|].
    pose proof (reachable_inv s Hs) as (Hm & (f & Hf & Hw) & Ht).
    assert (∃ s', increment s = Ok s' ∧ counted s' = S n ∧ running s' = [] ∧ enqueued s' = 0 ∧ dropped s' = 0) as (s' & Hi & ?).
    { unfold increment. rewrite Hw, increment_work_word by lia. eexists. split; [reflexivity|].
      unfold counted, outstanding, enqueued in Ho, Hq |- *. rewrite Hr in Ho. cbn in Ho.
      destruct (decide (_ = Schedule)); cbn; rewrite Hr; cbn; (split_and!; [lia|done|lia|done]). }
    exists s'. split; [by eapply (reach_step s Increment)|done].
Qed.

Lemma scheduling_never_underflows_witness : ∃ s l, l = Increment ∧ counted s = MAX_WORK.
Proof.
  destruct (full_reachable MAX_WORK (le_n _)) as (s & Hs & Ho & _).
  exists s, Increment. apply (scheduling_never_underflows s Increment Hs). cbn [step]. unfold increment.
  destruct (reachable_inv s Hs) as (Hm & (f & Hf & Hw) & Ht). rewrite Hw, Ho.
  rewrite increment_work_full. reflexivity.
Defined.

(** C25: No work is stranded: from every reachable state whose pending control events
    leave the component active (and do not kill it), there is a schedule of the threads
    already under way and of the executions they schedule, without any further producer,
    after which all queues are empty and nothing runs.  The counter is then the number of
    timeouts whose timers had been cancelled while they were queued: if there were none
    it is zero and nothing is scheduled any more, otherwise the component, although it
    has nothing to do, is scheduled once more. *)
Theorem scheduling_drains (s : Sched) (f : Flag) : reachable s →
  state_word s = word f (counted s) → Kill ∉ ctrl_queue s →
  foldl control_flag f (ctrl_queue s) = FActive →
  steps s (drained (dropped s + stale (timeouts s))).
Proof.
  intros HI%reachable_inv Hf Hk Hact.
  destruct (finish_producers s) as (s1 & Hs1 & Ha & Hb & Hp & Hq & Htq & Hd & Hi).
  pose proof (steps_inv _ _ Hs1 HI) as HI1. pose proof HI1 as (_ & (g & Hg & Hw) & _).
  eapply steps_trans; [done|]. rewrite <-Htq, <-Hd. apply (drain_quiet s1 g); rewrite ?Hq; try done.
  rewrite (word_active_flag s1 g HI1 Hw), (word_active_flag s f HI Hf) in Hi.
  destruct HI as (Hm & (f' & Hf' & Hw') & _). rewrite Hf in Hw'. apply word_inj in Hw' as [-> _]; [|done..].
  rewrite <-Hact. destruct Hg as [-> | ->], Hf' as [-> | ->]; done.
Qed.

Lemma scheduling_drains_witness :
  for_each example_trace step init_sched = Ok (mkSched (word FActive 4) [] [] 1 0 0 0 0 [mkExec 2 true] 1)
  ∧ steps (mkSched (word FActive 4) [] [] 1 0 0 0 0 [mkExec 2 true] 1) (drained 1).
Proof.
  assert (for_each example_trace step init_sched = Ok (mkSched (word FActive 4) [] [] 1 0 0 0 0 [mkExec 2 true] 1)) as Ht
    by (vm_compute; reflexivity).
  split; [exact Ht|]. refine (scheduling_drains _ FActive _ _ _ _);
    [exact (run_reachable example_trace _ _ reach_init Ht)|reflexivity|apply not_elem_of_nil|reflexivity].
Defined.

(** A passive component with queued messages is never idle: an execution that
    finds no control event handles nothing, reports no work done and is
    scheduled again in the very same state, for ever. *)
Theorem passive_component_spins (c q : nat) : 0 < q → q = c → c ≤ MAX_WORK →
  let s := mkSched (word FPassive c) [] [] q 0 0 0 1 [] 0 in
  (∀ i s1, step Execute s = Ok s1 → ∀ s2, step (Pop i) s1 ≠ Ok s2 ∧ step (PopTimer i) s1 ≠ Ok s2 ∧ step (PopControl i) s1 ≠ Ok s2)
  ∧ for_each [Execute; Finish 0] step s = Ok s.
Proof.
  intros Hq -> Hc s. split.
  - intros i s1 [= <-] s2. split_and!; [| |done]; cbn [step]; unfold pop_one, pop_timer, guard_;
      (rewrite decide_False; [done|]); change (is_active (word FPassive c) ≠ true); by rewrite is_active_word.
  - assert (step (Finish 0) (mkSched (word FPassive c) [] [] c 0 0 0 0 [mkExec 0 false] 0) = Ok s) as Hf.
    { rewrite finish_step by lia. rewrite Nat.sub_0_r, decide_False by lia. reflexivity. }
    change (step (Finish 0) (mkSched (word FPassive c) [] [] c 0 0 0 0 [mkExec 0 false] 0) ≫= (λ s', Ok s') = Ok s).
    by rewrite Hf.
Qed.

Lemma passive_component_spins_witness :
  for_each [Execute; Finish 0] step (mkSched (word FPassive 2) [] [] 2 0 0 0 1 [] 0)
    = Ok (mkSched (word FPassive 2) [] [] 2 0 0 0 1 [] 0).
Proof.
  refine (proj2 (passive_component_spins 2 2 _ _ _)); [lia|done|].
  apply Nat2Z.inj_le. rewrite MAX_WORK_Z. lia.
Defined.
