(* ===== verification/Dedicated.v ===== *)
(** * Components with a thread of their own

    Model of [core/src/dedicated_scheduler.rs]: a thread executes one component over
    and over and parks when there is nothing to do; scheduling the component unparks
    the thread.  The component, its queues and the producers are those of
    [Scheduling]; what is different is that [Component::schedule], which actor
    references, control events and wakers call, leaves a permit for [park] instead of a
    job for a pool, and that the thread executes the component also without having been
    asked to.  Port references and timers call [system().schedule] also for such a
    component and hand it to the pool; the system describes it up to the point where the
    pool begins to execute it.  [Kill] events and faults, which end a component, are part
    of this system.  The exponential backoff of [crossbeam_utils] is a parameter. *)

From S2P Require Import Prelude Lifecycle Scheduling.

Section dedicated.
Context {Backoff : Type} (backoff_new : Backoff) (is_completed : Backoff → bool)
        (snooze reset : Backoff → Backoff).

(** Where the thread is. *)
Inductive Pc :=
| Awaiting                           (** [f.wait()] in [pre_run] *)
| Loop                               (** before [c.execute()] *)
| Executing                          (** in [inner_execute] *)
| Decided (res : SchedulingDecision) (** [execute] has returned *)
| Parking                            (** before [thread::park()] *)
| Parked                             (** in [thread::park()] *)
| Leaving                            (** behind the loop *)
| Ended.

Record Ded := mkDed {
  shared : Sched;       (** the component; [running] is the execution of this thread *)
  permit : bool;        (** the token of [unpark] *)
  pc : Pc;
  backoff : Backoff;
  stop : bool;
  stopped : bool;
}.

Definition set_pc (p : Pc) (s : Ded) : Ded := mkDed (shared s) (permit s) p (backoff s) (stop s) (stopped s).
Definition set_shared (c : Sched) (s : Ded) : Ded := mkDed c (permit s) (pc s) (backoff s) (stop s) (stopped s).
Definition set_permit (b : bool) (s : Ded) : Ded := mkDed (shared s) b (pc s) (backoff s) (stop s) (stopped s).
Definition set_backoff (b : Backoff) (s : Ded) : Ded := mkDed (shared s) (permit s) (pc s) b (stop s) (stopped s).
Definition set_stop (s : Ded) : Ded := mkDed (shared s) (permit s) (pc s) (backoff s) true (stopped s).
Definition set_stopped (s : Ded) : Ded := mkDed (shared s) (permit s) (pc s) (backoff s) (stop s) true.

Inductive DLabel :=
| DIncrement
| DPushSchedule (e : Work)
| DPushOther (e : Work)
| DSchedule                 (** a producer calls [c.schedule()] *)
| DSchedulePool             (** a producer calls [system.schedule(c)] *)
| DWaker                    (** a future calls [schedule()] *)
| DReceive                  (** the component arrives *)
| DBegin                    (** [c.execute()] *)
| DPopControl
| DPopTimer
| DPop
| DCancel (k : nat)         (** a handler cancels the timer of a queued timeout *)
| DAbandon (destroyed : bool) (** a fault or a shutdown request ends the execution *)
| DFinish                   (** [decrement_work(count)] *)
| DDecide                   (** the loop looks at the result *)
| DPark
| DWakeup                   (** [park] returns with the permit *)
| DSpurious                 (** [park] returns without *)
| DLeave                    (** [stopped.store(true)] *)
| DShutdown.                (** [stop.store(true)], by [shutdown], [shutdown_async], [shutdown_notify] or [poison] *)

Definition at_pc (p : Pc) (s : Ded) : res NotEnabled () :=
  match p, pc s with
  | Awaiting, Awaiting | Loop, Loop | Executing, Executing | Parking, Parking | Parked, Parked
  | Leaving, Leaving => Ok ()
  | _, _ => Err not_enabled
  end.

(** [schedule_custom]. *)
Definition schedule_custom (s : Ded) : Ded := set_permit true s.

(** The end of an enqueue through an actor reference or of a control event:
    [Component::schedule] with a custom scheduler. *)
Definition producer_schedules (s : Ded) : res NotEnabled Ded :=
  n ← take_one (pushed_schedule (shared s));
  let c := shared s in
  Ok (schedule_custom (set_shared (with_producers (inc_schedule c) (inc_other c) n c) s)).

(** The end of an enqueue through a port or of a timeout: [system.schedule(c)], which
    knows the pool only. *)
Definition producer_schedules_on_pool (s : Ded) : res NotEnabled Ded :=
  c ← call_schedule (shared s); Ok (set_shared c s).

(** The end of [pre_run]. *)
Definition pre_run (s : Ded) : res NotEnabled Ded := _ ← at_pc Awaiting s; Ok (set_backoff backoff_new (set_pc Loop s)).

(** [Component::execute]: a component that has ended is not executed. *)
Definition begin (s : Ded) : res NotEnabled Ded :=
  _ ← at_pc Loop s;
  l ← from_current (state_word (shared s));
  match l with
  | Destroyed | Faulty => Ok (set_pc (Decided NoWork) s)
  | _ => Ok (set_pc Executing (set_shared (with_running [mkExec 0 false] (shared s)) s))
  end.

(** One control event: as in [Scheduling], and [Kill] destroys the component. *)
Definition ded_pop_control (s : Ded) : res NotEnabled Ded :=
  _ ← at_pc Executing s;
  match ctrl_queue (shared s) with
  | Kill :: q =>
      x ← ok_or not_enabled (running (shared s) !! 0);
      let c := shared s in
      Ok (set_shared (counted_one 0 x (with_word (set_destroyed (state_word c)) (with_queues q (timeouts c) (queued c) c))) s)
  | _ => c ← pop_control 0 (shared s); Ok (set_shared c s)
  end.

Definition ded_pop (s : Ded) : res NotEnabled Ded :=
  _ ← at_pc Executing s; c ← pop_one 0 (shared s); Ok (set_shared c s).
Definition ded_pop_timer (s : Ded) : res NotEnabled Ded :=
  _ ← at_pc Executing s; c ← pop_timer 0 (shared s); Ok (set_shared c s).
Definition ded_cancel (k : nat) (s : Ded) : res NotEnabled Ded :=
  _ ← at_pc Executing s; c ← cancel_queued k (shared s); Ok (set_shared c s).

(** A handler fails, panics or asks for a shutdown: the execution ends at once with
    [NoWork] and reports no work. *)
Definition abandon (destroyed : bool) (s : Ded) : res NotEnabled Ded :=
  _ ← at_pc Executing s;
  let w := state_word (shared s) in
  let w := if destroyed then set_destroyed w else set_faulty w in
  Ok (set_pc (Decided NoWork) (set_shared (with_running [] (with_word w (shared s))) s)).

Definition ded_finish (s : Ded) : res NotEnabled Ded :=
  _ ← at_pc Executing s;
  x ← ok_or not_enabled (running (shared s) !! 0);
  '(w, sd) ← decrement_work (state_word (shared s)) (ex_count x);
  Ok (set_pc (Decided sd) (set_shared (with_running [] (with_word w (shared s))) s)).

(** The rest of the body of the loop of [run]. *)
Definition ded_decide (s : Ded) : res NotEnabled Ded :=
  match pc s with
  | Decided res =>
      if is_destroyed (state_word (shared s)) || stop s then Ok (set_pc Leaving s)
      else
        park ← (match res with
                | NoWork | Blocked => Ok true
                | Resume | Schedule => Ok false
                | AlreadyScheduled => Panic
                end);
        if park : bool then
          if is_completed (backoff s) then Ok (set_pc Parking s)
          else Ok (set_pc Loop (set_backoff (snooze (backoff s)) s))
        else Ok (set_pc Loop (set_backoff (reset (backoff s)) s))
  | _ => Err not_enabled
  end.

(** [thread::park]. *)
Definition park (s : Ded) : res NotEnabled Ded :=
  _ ← at_pc Parking s;
  if permit s then Ok (set_pc Loop (set_permit false s)) else Ok (set_pc Parked s).
Definition wakeup (s : Ded) : res NotEnabled Ded :=
  _ ← at_pc Parked s;
  if permit s then Ok (set_pc Loop (set_permit false s)) else Err not_enabled.
Definition spurious (s : Ded) : res NotEnabled Ded := _ ← at_pc Parked s; Ok (set_pc Loop s).

Definition leave (s : Ded) : res NotEnabled Ded := _ ← at_pc Leaving s; Ok (set_stopped (set_pc Ended s)).

(** [shutdown_async] and [poison], and how [shutdown] and [shutdown_notify] begin; the
    latter return when they see [stopped]. *)
Definition ded_shutdown_async (s : Ded) : Ded := set_stop s.
Definition shutdown_returns (s : Ded) : bool := stopped s.

Definition ded_step (l : DLabel) (s : Ded) : res NotEnabled Ded :=
  match l with
  | DIncrement => c ← increment (shared s); Ok (set_shared c s)
  | DPushSchedule e => c ← push_schedule e (shared s); Ok (set_shared c s)
  | DPushOther e => c ← push_other e (shared s); Ok (set_shared c s)
  | DSchedule => producer_schedules s
  | DSchedulePool => producer_schedules_on_pool s
  | DWaker => Ok (schedule_custom s)
  | DReceive => pre_run s
  | DBegin => begin s
  | DPopControl => ded_pop_control s
  | DPopTimer => ded_pop_timer s
  | DPop => ded_pop s
  | DCancel k => ded_cancel k s
  | DAbandon d => abandon d s
  | DFinish => ded_finish s
  | DDecide => ded_decide s
  | DPark => park s
  | DWakeup => wakeup s
  | DSpurious => spurious s
  | DLeave => leave s
  | DShutdown => Ok (ded_shutdown_async s)
  end.

(** A new thread and its component. *)
Definition ded_init : Ded := mkDed init_sched false Awaiting backoff_new false false.

Inductive ded_reachable : Ded → Prop :=
| ded_reach_init : ded_reachable ded_init
| ded_reach_step s l s' : ded_reachable s → ded_step l s = Ok s' → ded_reachable s'.

(** ** Invariant *)

(** Producers that are bound to call [schedule()]. *)
Definition owed (c : Sched) : nat := inc_schedule c + pushed_schedule c.

Definition is_idle (p : Pc) : bool :=
  match p with Decided NoWork | Decided Blocked | Parking | Parked => true | _ => false end.

(** An idle thread has nothing to do, or will be woken, or the pool has been asked. *)
Definition woken (n : nat) (s : Ded) : Prop := n = 0 ∨ permit s = true ∨ 0 < owed (shared s) + jobs (shared s).

(** Only a thread that is about to leave the loop has a destroyed component. *)
Definition past_loop (p : Pc) : Prop :=
  match p with Executing | Decided _ | Leaving | Ended => True | _ => False end.
Definition result_ok (p : Pc) : Prop :=
  match p with Decided d => d = NoWork ∨ d = Schedule | _ => True end.

(** Outside of an execution. *)
Definition between (f : Flag) (n : nat) (s : Ded) : Prop :=
  running (shared s) = []
  ∧ (schedulable f → n = counted (shared s) ∧ (is_idle (pc s) = true → woken n s))
  ∧ result_ok (pc s) ∧ (f = FDestroyed → past_loop (pc s)).

(** The flag and the count of the word, and what they say about the rest. *)
Definition ded_inv (s : Ded) : Prop :=
  ∃ f n, state_word (shared s) = word f n ∧ n ≤ MAX_WORK ∧ f ≠ FBlocking ∧
    match pc s with
    | Executing => f ≠ FFaulty ∧ n = counted (shared s) ∧ ∃ k, running (shared s) = [k]
    | _ => between f n s
    end.

Lemma inv_between f n (s : Ded) :
  state_word (shared s) = word f n → n ≤ MAX_WORK → f ≠ FBlocking → pc s ≠ Executing →
  between f n s → ded_inv s.
Proof. intros. exists f, n. split_and!; [done..|]. by destruct (pc s). Qed.

Lemma between_inv (s : Ded) : ded_inv s → pc s ≠ Executing →
  ∃ f n, state_word (shared s) = word f n ∧ n ≤ MAX_WORK ∧ f ≠ FBlocking ∧ between f n s.
Proof. intros (f & n & ? & ? & ? & H) Hp. exists f, n. split_and!; [done..|]. by destruct (pc s). Qed.

Lemma executing_inv (s : Ded) : ded_inv s → pc s = Executing →
  ∃ f k, state_word (shared s) = word f (counted (shared s)) ∧ counted (shared s) ≤ MAX_WORK
    ∧ f ≠ FBlocking ∧ f ≠ FFaulty ∧ running (shared s) = [k].
Proof.
  intros (f & n & ? & ? & ? & H) Hp. rewrite Hp in H. destruct H as (? & -> & k & ?).
  exists f, k. by split_and!.
Qed.

(** Producers: the shared state changes, and nothing of the thread. *)
Lemma producer_inv (s : Ded) c b :
  ded_inv s → running c = running (shared s) →
  (∀ f n, state_word (shared s) = word f n → n ≤ MAX_WORK → f ≠ FBlocking →
     ∃ n', state_word c = word f n' ∧ n' ≤ MAX_WORK ∧
       (n = counted (shared s) → n' = counted c) ∧
       (schedulable f → woken n s → woken n' (mkDed c b (pc s) (backoff s) (stop s) (stopped s)))) →
  ded_inv (mkDed c b (pc s) (backoff s) (stop s) (stopped s)).
Proof.
  intros (f & n & Hw & Hn & Hf & Hpc) Hrun Hc. destruct (Hc f n Hw Hn Hf) as (n' & Hw' & Hn' & Ho & Hwk).
  exists f, n'. split_and!; [done..|].
  assert (between f n s → between f n' (mkDed c b (pc s) (backoff s) (stop s) (stopped s))) as Hb.
  { intros (Hr & Hs & Hres & Hd). unfold between in *. cbn. rewrite Hrun. split_and!; [done| |done|done].
    intros Hsch. destruct (Hs Hsch) as [Hout Hidle]. split; [by apply Ho|]. auto. }
  cbn. destruct (pc s); try (by apply Hb).
  destruct Hpc as (? & ? & k & ?). split_and!; [done|by apply Ho|]. exists k. by rewrite Hrun.
Qed.

Lemma increment_inv' (s : Ded) c : ded_inv s → increment (shared s) = Ok c → ded_inv (set_shared c s).
Proof.
  intros Hinv H.
  assert (running c = running (shared s)) as Hr.
  { unfold increment in H. destruct (increment_work _) as [[w sd]| |]; [|done..]. cbn in H.
    injection H as <-. cbn. by case_decide. }
  apply (producer_inv s c (permit s)); [done|done|]. intros f n Hw Hn Hf.
  unfold increment in H. rewrite Hw in H.
  destruct (decide (n = MAX_WORK)) as [->|Hlt]; [by rewrite increment_work_full in H|].
  rewrite increment_work_word in H by lia. cbn [mbind res_bind] in H. injection H as <-. exists (S n).
  unfold woken, owed. split_and!; [done|lia| |].
  - intros ->. sched_unfold. destruct (decide (_ = Schedule)); sched_unfold; lia.
  - intros Hs Hk. assert (decide_from f n = if decide (n = 0) then Schedule else AlreadyScheduled) as ->
      by (by destruct Hs as [-> | ->]).
    unfold woken, owed in Hk. destruct (decide (n = 0)) as [->|Hne].
    + rewrite decide_True by done. right. right. cbn. lia.
    + rewrite decide_False by done. destruct Hk as [?|[?|?]]; [done|by right; left|right; right; done].
Qed.

Lemma push_schedule_inv' e (s : Ded) c :
  ded_inv s → push_schedule e (shared s) = Ok c → ded_inv (set_shared c s).
Proof.
  intros Hinv (m & Hm%take_one_Ok & [= <-])%bind_Ok. apply (producer_inv s _ (permit s)); [done|done|].
  intros f n Hw Hn Hf. exists n. unfold woken, owed. split_and!; [done|done| |].
  - intros ->. pose proof (push_count e (shared s)). sched_unfold. lia.
  - intros _ Hk. unfold woken, owed in Hk. destruct Hk as [?|[?|?]]; [by left|by right; left|right; right; cbn; lia].
Qed.

Lemma push_other_inv' e (s : Ded) c :
  ded_inv s → push_other e (shared s) = Ok c → ded_inv (set_shared c s).
Proof.
  intros Hinv (m & Hm%take_one_Ok & [= <-])%bind_Ok. apply (producer_inv s _ (permit s)); [done|done|].
  intros f n Hw Hn Hf. exists n. unfold woken, owed. split_and!; [done|done| |].
  - intros ->. pose proof (push_count e (shared s)). sched_unfold. lia.
  - intros _ Hk. exact Hk.
Qed.

Lemma producer_schedules_inv (s s' : Ded) : ded_inv s → producer_schedules s = Ok s' → ded_inv s'.
Proof.
  intros Hinv (m & Hm%take_one_Ok & [= <-])%bind_Ok. apply (producer_inv s _ true); [done|done|].
  intros f n Hw Hn Hf. exists n. split_and!; [done|done| |by right; left].
  intros ->. done.
Qed.

Lemma pool_schedules_inv (s s' : Ded) : ded_inv s → producer_schedules_on_pool s = Ok s' → ded_inv s'.
Proof.
  intros Hinv (c & (m & Hm%take_one_Ok & [= <-])%bind_Ok & [= <-])%bind_Ok.
  apply (producer_inv s _ (permit s)); [done|done|].
  intros f n Hw Hn Hf. exists n. split_and!; [done|done|by intros ->|].
  intros _ _. right. right. unfold owed. cbn. lia.
Qed.

Lemma waker_inv (s : Ded) : ded_inv s → ded_inv (schedule_custom s).
Proof.
  intros Hinv. apply (producer_inv s (shared s) true); [done|done|].
  intros f n Hw Hn Hf. exists n. split_and!; [done|done|done|by right; left].
Qed.

Lemma ded_shutdown_inv (s : Ded) : ded_inv s → ded_inv (ded_shutdown_async s).
Proof. intros (f & n & H). exists f, n. exact H. Qed.

(** ** Steps of the thread *)
Lemma at_pc_Ok p (s : Ded) : at_pc p s = Ok () → pc s = p.
Proof. unfold at_pc. destruct p, (pc s); try done. Qed.

(** Moving between program points outside of an execution. *)
Lemma move_inv (s s' : Ded) :
  ded_inv s → pc s ≠ Executing → pc s' ≠ Executing → shared s' = shared s →
  result_ok (pc s') → (past_loop (pc s) → past_loop (pc s') ∨ is_destroyed (state_word (shared s)) = false) →
  (is_idle (pc s') = true → is_idle (pc s) = true ∧ permit s' = permit s) → ded_inv s'.
Proof.
  intros Hinv Hp Hp' Hsh Hres Hpast Hidle.
  destruct (between_inv s Hinv Hp) as (f & n & Hw & Hn & Hf & Hr & Hs & Hok & Hd).
  apply (inv_between f n); rewrite ?Hsh; [done..|]. unfold between, woken in *. rewrite Hsh.
  split_and!; [done| |done|].
  - intros Hsch. destruct (Hs Hsch) as [Ho Hi]. split; [done|]. intros Hi'.
    destruct (Hidle Hi') as [Hi1 ->]. auto.
  - intros ->. specialize (Hd eq_refl). destruct (Hpast Hd) as [?|Hnd]; [done|].
    rewrite Hw in Hnd. unfold is_destroyed in Hnd. rewrite remove_count_word in Hnd by done. done.
Qed.

Lemma not_destroyed f n : n ≤ MAX_WORK → f ≠ FDestroyed → is_destroyed (word f n) = false.
Proof. intros Hn Hf. unfold is_destroyed. rewrite remove_count_word by done. by destruct f. Qed.

Lemma begin_inv (s s' : Ded) : ded_inv s → begin s = Ok s' → ded_inv s'.
Proof.
  intros Hinv ([] & Hpc%at_pc_Ok & H)%bind_Ok.
  destruct (between_inv s Hinv) as (f & n & Hw & Hn & Hf & Hr & Hs & _ & Hd); [by rewrite Hpc|].
  rewrite Hw, from_current_word in H by done.
  assert (schedulable f → set_pc Executing (set_shared (with_running [mkExec 0 false] (shared s)) s) = s' → ded_inv s') as Hgo.
  { intros Hsch <-. exists f, n. split_and!; [done..|]. cbn [pc set_pc].
    destruct (Hs Hsch) as [-> _]. split_and!; [by destruct Hsch as [-> | ->]| |by eexists].
    unfold counted, outstanding. by rewrite Hr. }
  assert (¬ schedulable f → set_pc (Decided NoWork) s = s' → ded_inv s') as Hend.
  { intros Hsch <-. apply (inv_between f n); [done..|]. split_and!; [done|done|by left|done]. }
  destruct f; cbn in H; injection H as H;
    [apply Hgo; [by left|done]|apply Hgo; [by right|done]|apply Hend; [intros [Hs'|Hs']; discriminate Hs'|done]..|done].
Qed.

(** What an execution does, short of its end. *)
Lemma pop_inv (s : Ded) c f k :
  pc s = Executing → counted (shared s) ≤ MAX_WORK →
  f ≠ FBlocking → f ≠ FFaulty → state_word c = word f (counted (shared s)) →
  running c = [k] → counted c = counted (shared s) → ded_inv (set_shared c s).
Proof.
  intros Hpc Hn Hf Hf' Hc Hrc Ho. exists f, (counted c). cbn [shared set_shared pc].
  rewrite Hpc, Hc, Ho. split_and!; [done..|]. by exists k.
Qed.

Lemma ded_pop_control_inv (s s' : Ded) : ded_inv s → ded_pop_control s = Ok s' → ded_inv s'.
Proof.
  intros Hinv ([] & Hpc%at_pc_Ok & H)%bind_Ok.
  destruct (executing_inv s Hinv Hpc) as (f & k & Hw & Hn & Hf & Hf' & Hr).
  destruct (ctrl_queue (shared s)) as [|e q] eqn:Hq; [cbn in H; unfold pop_control in H; by rewrite Hq in H|].
  assert (∀ f' w, f' ≠ FBlocking → f' ≠ FFaulty → w = word f' (counted (shared s)) →
    ded_inv (set_shared (counted_one 0 k (with_word w (with_queues q (timeouts (shared s)) (queued (shared s)) (shared s)))) s)) as Hgo.
  { intros f' w Hf1 Hf2 ->. eapply (pop_inv s _ f'); try done.
    - cbn. by rewrite Hr.
    - sched_unfold. rewrite Hq, Hr. cbn. lia. }
  assert (∀ f', set_state (flag_bits f') (state_word (shared s)) = word f' (counted (shared s))) as Hset.
  { intros f'. rewrite Hw. by apply set_state_word. }
  destruct e; cbn [mbind res_bind] in H; try (unfold pop_control in H; rewrite Hq in H); rewrite Hr in H;
    cbn -[counted_one with_word with_queues] in H; injection H as <-.
  - apply (Hgo FActive); [done..|exact (Hset FActive)].
  - apply (Hgo FPassive); [done..|exact (Hset FPassive)].
  - apply (Hgo FDestroyed); [done..|exact (Hset FDestroyed)].
  - apply (Hgo f); [done..|exact Hw].
Qed.

(** Steps of an execution that keep the word and the number of units. *)
Lemma exec_frame_inv (s : Ded) c :
  ded_inv s → pc s = Executing → state_word c = state_word (shared s) → counted c = counted (shared s) →
  length (running c) = length (running (shared s)) → ded_inv (set_shared c s).
Proof.
  intros Hinv Hpc Hwc Ho Hl. destruct (executing_inv s Hinv Hpc) as (f & k & Hw & Hn & Hf & Hf' & Hr).
  rewrite Hr in Hl. destruct (running c) as [|x [|y r]] eqn:Hrc; try done.
  apply (pop_inv s c f x); try done. by rewrite Hwc.
Qed.

Lemma ded_pops_inv l (s s' : Ded) : l = DPopTimer ∨ l = DPop ∨ (∃ k, l = DCancel k) →
  ded_inv s → ded_step l s = Ok s' → ded_inv s'.
Proof.
  intros Hl Hinv H.
  assert (∃ c, pc s = Executing ∧ s' = set_shared c s ∧ (state_word c = state_word (shared s) ∧ counted c = counted (shared s) ∧ tickets c = tickets (shared s))
    ∧ length (running c) = length (running (shared s))) as (c & Hpc & -> & (Hwc & Ho & _) & Hlen); [|by apply exec_frame_inv].
  destruct Hl as [-> |[-> |[k ->]]]; cbn [ded_step] in H;
    apply bind_Ok in H as ([] & Hpc%at_pc_Ok & (c & Hc & [= <-])%bind_Ok); exists c; (split; [done|split; [done|split]]).
  - by eapply pop_timer_frame.
  - unfold pop_timer in Hc. apply bind_Ok in Hc as ([] & _ & (x & _ & ([] & _ & H)%bind_Ok)%bind_Ok).
    destruct (timeouts (shared s)) as [|[] ?]; [done|injection H as <-..]; cbn; by rewrite length_insert.
  - by eapply pop_one_frame.
  - apply bind_Ok in Hc as ([] & _ & (q & _ & (x & _ & [= <-])%bind_Ok)%bind_Ok). cbn. by rewrite length_insert.
  - by eapply cancel_frame.
  - apply bind_Ok in Hc as ([] & _ & H). destruct (timeouts (shared s) !! k) as [[]|]; try done. by injection H as <-.
Qed.

Lemma abandon_inv d (s s' : Ded) : ded_inv s → abandon d s = Ok s' → ded_inv s'.
Proof.
  intros Hinv ([] & Hpc%at_pc_Ok & [= <-])%bind_Ok.
  destruct (executing_inv s Hinv Hpc) as (f & k & Hw & Hn & Hf & Hf' & Hr).
  apply (inv_between (if d then FDestroyed else FFaulty) (counted (shared s))).
  - assert (∀ f', set_state (flag_bits f') (state_word (shared s)) = word f' (counted (shared s))) as Hset.
    { intros f'. rewrite Hw. by apply set_state_word. }
    destruct d; [exact (Hset FDestroyed)|exact (Hset FFaulty)].
  - done.
  - by destruct d.
  - done.
  - split_and!; [done|intros Hs; exfalso; destruct d, Hs as [Hs|Hs]; discriminate Hs|by left|done].
Qed.

Lemma ded_finish_inv (s s' : Ded) : ded_inv s → ded_finish s = Ok s' → ded_inv s'.
Proof.
  intros Hinv ([] & Hpc%at_pc_Ok & H)%bind_Ok.
  destruct (executing_inv s Hinv Hpc) as (f & k & Hw & Hn & Hf & Hf' & Hr).
  assert (ex_count k ≤ counted (shared s)) as Hk by (unfold counted, outstanding; rewrite Hr; cbn; lia).
  rewrite Hr, Hw in H. cbn [lookup list_lookup ok_or mbind res_bind] in H.
  rewrite decrement_work_word in H by done. cbn in H. injection H as <-.
  apply (inv_between f (counted (shared s) - ex_count k)); [done|lia|done|done|].
  split_and!; [done| |by case_decide; [left|right]|done].
  intros Hs. split.
  - sched_unfold. rewrite Hr. cbn. lia.
  - cbn. case_decide; [|done]. intros _. left. lia.
Qed.

Lemma ded_decide_inv (s s' : Ded) : ded_inv s → ded_decide s = Ok s' → ded_inv s'.
Proof.
  intros Hinv. unfold ded_decide. destruct (pc s) as [| | |d| | | |] eqn:Hpc; try done.
  destruct (is_destroyed (state_word (shared s)) || stop s) eqn:Hstop.
  { intros [= <-]. eapply move_inv; [exact Hinv|by rewrite Hpc|done|done|done|by left|done]. }
  apply orb_false_elim in Hstop as [Hnd _].
  destruct d; cbn; [intros [= <-]|done|destruct (is_completed _); intros [= <-]..|intros [= <-]];
    (eapply move_inv; [exact Hinv|by rewrite Hpc|done|done|done|by right|]); rewrite Hpc; done.
Qed.

Lemma thread_inv (s s' : Ded) l :
  l ∈ [DReceive; DPark; DWakeup; DSpurious; DLeave] → ded_inv s → ded_step l s = Ok s' → ded_inv s'.
Proof.
  intros Hl Hinv. rewrite !elem_of_cons, elem_of_nil in Hl.
  destruct Hl as [-> |[-> |[-> |[-> |[-> |[]]]]]]; cbn [ded_step];
    intros ([] & Hpc%at_pc_Ok & H)%bind_Ok; try (destruct (permit s); [|try done]); injection H as <-;
    (eapply move_inv; [exact Hinv|by rewrite Hpc|done|done|done|rewrite Hpc; by (left || intros [])|rewrite Hpc; done]).
Qed.

Lemma ded_step_inv l (s s' : Ded) : ded_inv s → ded_step l s = Ok s' → ded_inv s'.
Proof.
  intros Hinv Hst. destruct l;
    try (eapply thread_inv; [|exact Hinv|exact Hst]; apply list_elem_of_In; cbn; tauto);
    cbn [ded_step] in Hst.
  - apply bind_Ok in Hst as (c & Hc & [= <-]). by eapply increment_inv'.
  - apply bind_Ok in Hst as (c & Hc & [= <-]). by eapply push_schedule_inv'.
  - apply bind_Ok in Hst as (c & Hc & [= <-]). by eapply push_other_inv'.
  - by eapply producer_schedules_inv.
  - by eapply pool_schedules_inv.
  - injection Hst as <-. by apply waker_inv.
  - by eapply begin_inv.
  - by eapply ded_pop_control_inv.
  - eapply (ded_pops_inv DPopTimer); eauto.
  - eapply (ded_pops_inv DPop); eauto.
  - eapply (ded_pops_inv (DCancel k)); eauto.
  - by eapply abandon_inv.
  - by eapply ded_finish_inv.
  - by eapply ded_decide_inv.
  - injection Hst as <-. by apply ded_shutdown_inv.
Qed.

Lemma ded_reachable_inv (s : Ded) : ded_reachable s → ded_inv s.
Proof.
  induction 1; [|by eapply ded_step_inv].
  apply (inv_between FPassive 0); [reflexivity|pose proof MAX_WORK_Z; lia|done|done|].
  by split_and!.
Qed.

(** ** Properties *)

(** Steps that nobody has to start: those of the thread itself and of producers
    that are under way. *)
Definition own (l : DLabel) : bool :=
  match l with DIncrement | DWaker | DSpurious | DShutdown | DAbandon _ | DCancel _ => false | _ => true end.

Inductive own_steps : Ded → Ded → Prop :=
| own_refl s : own_steps s s
| own_cons s l s' s'' : own l = true → ded_step l s = Ok s' → own_steps s' s'' → own_steps s s''.

Definition alive (s : Ded) : Prop :=
  is_destroyed (state_word (shared s)) = false ∧ is_faulty (state_word (shared s)) = false.

Lemma alive_schedulable (s : Ded) f n :
  state_word (shared s) = word f n → n ≤ MAX_WORK → f ≠ FBlocking → alive s → schedulable f.
Proof.
  intros Hw Hn Hf [Hd Hfa]. rewrite Hw in Hd, Hfa. unfold is_destroyed, is_faulty in *.
  rewrite remove_count_word in Hd, Hfa by done. destruct f; try done; [by left|by right].
Qed.

Lemma parked_idle (s : Ded) :
  ded_inv s → alive s → pc s = Parked → permit s = false → owed (shared s) = 0 → jobs (shared s) = 0 → counted (shared s) = 0.
Proof.
  intros Hinv Ha Hpc Hp Ho Hj. destruct (between_inv s Hinv) as (f & n & Hw & Hn & Hf & _ & Hs & _); [by rewrite Hpc|].
  destruct (Hs (alive_schedulable s f n Hw Hn Hf Ha)) as [<- Hk]. rewrite Hpc in Hk.
  destruct (Hk eq_refl) as [?|[?|?]]; [done|congruence|lia].
Qed.

(** The thread does not panic. *)
Lemma thread_no_panic (s : Ded) :
  ded_inv s → ded_step DBegin s ≠ Panic ∧ ded_step DFinish s ≠ Panic ∧ ded_step DDecide s ≠ Panic.
Proof.
  intros Hinv. split_and!; cbn [ded_step].
  - unfold begin. destruct (at_pc Loop s) as [[]| |] eqn:Hpc; [|done|by unfold at_pc in Hpc; destruct (pc s)].
    apply at_pc_Ok in Hpc. destruct (between_inv s Hinv) as (f & n & Hw & Hn & _); [by rewrite Hpc|].
    cbn. rewrite Hw, from_current_word by done. by destruct f.
  - unfold ded_finish. destruct (at_pc Executing s) as [[]| |] eqn:Hpc; [|done|by unfold at_pc in Hpc; destruct (pc s)].
    apply at_pc_Ok in Hpc. destruct (executing_inv s Hinv Hpc) as (f & k & Hw & Hn & _ & _ & Hr).
    cbn [mbind res_bind]. rewrite Hr, Hw. cbn [lookup list_lookup ok_or mbind res_bind].
    rewrite decrement_work_word; [done|done|]. unfold counted, outstanding. rewrite Hr. cbn. lia.
  - unfold ded_decide. destruct (pc s) as [| | |d| | | |] eqn:Hpc; try done.
    destruct (_ || _); [done|].
    destruct (between_inv s Hinv) as (f & n & _ & _ & _ & _ & _ & Hres & _); [by rewrite Hpc|].
    rewrite Hpc in Hres. destruct Hres as [-> | ->]; cbn; [by destruct (is_completed _)|done].
Qed.

Lemma decided_step (s : Ded) d :
  ded_inv s → pc s = Decided d → ∃ s', ded_step DDecide s = Ok s' ∧
    (is_destroyed (state_word (shared s)) = true → pc s' = Leaving).
Proof.
  intros Hinv Hpc. cbn [ded_step]. unfold ded_decide. rewrite Hpc.
  destruct (is_destroyed _); [by eexists|]. cbn [orb]. destruct (stop s); [by eexists|].
  destruct (between_inv s Hinv) as (f & n & _ & _ & _ & _ & _ & Hres & _); [by rewrite Hpc|].
  rewrite Hpc in Hres. destruct Hres as [-> | ->]; cbn; [destruct (is_completed _)|]; by eexists.
Qed.

(** A thread with work can go on, or someone is about to wake it. *)
Lemma work_progress (s : Ded) :
  ded_inv s → alive s → pc s ≠ Ended → jobs (shared s) = 0 → 0 < counted (shared s) →
  ∃ l s', own l = true ∧ ded_step l s = Ok s'.
Proof.
  intros Hinv Ha Hne Hj Hout. destruct (pc s) as [| | |d| | | |] eqn:Hpc; try done.
  - eexists DReceive, _. split; [done|]. cbn. unfold pre_run, at_pc. by rewrite Hpc.
  - destruct (thread_no_panic s Hinv) as [Hb _]. destruct (between_inv s Hinv) as (f & n & Hw & Hn & _); [by rewrite Hpc|].
    exists DBegin. cbn [ded_step] in *. unfold begin, at_pc in *. rewrite Hpc in *. cbn in *.
    rewrite Hw, from_current_word in * by done. destruct f; cbn; by eexists.
  - exists DFinish. cbn [ded_step]. unfold ded_finish, at_pc. rewrite Hpc.
    destruct (executing_inv s Hinv Hpc) as (f & k & Hw & Hn & _ & _ & Hr). cbn [mbind res_bind].
    rewrite Hr, Hw. cbn [lookup list_lookup ok_or mbind res_bind].
    rewrite decrement_work_word; [by eexists|done|]. unfold counted, outstanding. rewrite Hr. cbn. lia.
  - destruct (decided_step s d Hinv Hpc) as (s' & Hs & _). by exists DDecide, s'.
  - exists DPark. cbn. unfold park, at_pc. rewrite Hpc. cbn. destruct (permit s); by eexists.
  - destruct (permit s) eqn:Hp.
    { exists DWakeup. cbn. unfold wakeup, at_pc. rewrite Hpc, Hp. by eexists. }
    destruct (decide (owed (shared s) = 0)) as [Ho|Ho].
    { pose proof (parked_idle s Hinv Ha Hpc Hp Ho Hj). lia. }
    unfold owed in Ho. destruct (pushed_schedule (shared s)) as [|m] eqn:Hm.
    + destruct (inc_schedule (shared s)) as [|m'] eqn:Hm'; [lia|].
      exists (DPushSchedule WOther). cbn. unfold push_schedule. rewrite Hm'. by eexists.
    + exists DSchedule. cbn. unfold producer_schedules. rewrite Hm. by eexists.
  - exists DLeave. cbn. unfold leave, at_pc. rewrite Hpc. by eexists.
Qed.

Lemma destroyed_ends (s : Ded) :
  ded_inv s → is_destroyed (state_word (shared s)) = true → pc s ≠ Executing →
  ∃ s', own_steps s s' ∧ pc s' = Ended.
Proof.
  intros Hinv Hd Hne. destruct (between_inv s Hinv Hne) as (f & n & Hw & Hn & _ & _ & _ & _ & Hpast).
  assert (f = FDestroyed) as ->.
  { destruct (decide (f = FDestroyed)) as [|Hf]; [done|]. rewrite Hw, not_destroyed in Hd; done. }
  assert (∀ s, pc s = Leaving → ∃ s', own_steps s s' ∧ pc s' = Ended) as Hleave.
  { intros s1 Hpc. eexists. split; [|shelve]. eapply (own_cons _ DLeave); [done| |apply own_refl].
    cbn. unfold leave, at_pc. by rewrite Hpc. Unshelve. done. }
  specialize (Hpast eq_refl). destruct (pc s) as [| | |d| | | |] eqn:Hpc; try done.
  - destruct (decided_step s d Hinv Hpc) as (s1 & Hs1 & Hl). destruct (Hleave s1 (Hl Hd)) as (s' & Hs' & He).
    exists s'. split; [|done]. by eapply (own_cons _ DDecide).
  - by apply Hleave.
  - exists s. split; [apply own_refl|done].
Qed.

(** Runs of given labels. *)
Fixpoint ded_run (ls : list DLabel) (s : Ded) : res NotEnabled Ded :=
  match ls with [] => Ok s | l :: ls => s' ← ded_step l s; ded_run ls s' end.

Lemma ded_run_reachable ls (s s' : Ded) : ded_reachable s → ded_run ls s = Ok s' → ded_reachable s'.
Proof.
  revert s. induction ls as [|l ls IH]; intros s Hs; cbn; [by intros [= <-]|].
  intros (s1 & H1 & H2)%bind_Ok. eapply IH; [|exact H2]. by econstructor.
Qed.


(** ** Threads that do not end *)

Inductive runs (P : DLabel → Prop) : Ded → Ded → Prop :=
| runs_refl s : runs P s s
| runs_cons s l s' s'' : P l → ded_step l s = Ok s' → runs P s' s'' → runs P s s''.

(** [shutdown] asks the thread to stop and waits for it, but does not unpark it: unless
    somebody else wakes the thread, it stays parked and [shutdown] never returns. *)
Theorem parked_shutdown_hangs (s s' : Ded) :
  pc s = Parked → permit s = false → owed (shared s) = 0 → stopped s = false →
  runs (λ l, l ≠ DIncrement ∧ l ≠ DWaker ∧ l ≠ DSpurious) (ded_shutdown_async s) s' →
  shutdown_returns s' = false ∧ pc s' = Parked.
Proof.
  intros Hpc Hp Ho Hst Hr.
  assert (∀ s1 s2, runs (λ l, l ≠ DIncrement ∧ l ≠ DWaker ∧ l ≠ DSpurious) s1 s2 →
    pc s1 = Parked → permit s1 = false → owed (shared s1) = 0 → stopped s1 = false →
    shutdown_returns s2 = false ∧ pc s2 = Parked) as Hgo; [|by eapply Hgo].
  clear. intros s1 s2 Hr. induction Hr as [|s1 l s2 s3 (Hl1 & Hl2 & Hl3) Hst _ IH]; [done|].
  intros Hpc Hp Ho Hs. unfold owed in *.
  destruct l; try done; cbn [ded_step] in Hst;
    try (unfold pre_run, begin, ded_pop_control, ded_pop_timer, ded_pop, ded_cancel, abandon, ded_finish, park, wakeup, leave, at_pc in Hst;
         rewrite Hpc in Hst; cbn in Hst; try rewrite Hp in Hst; done).
  - unfold push_schedule in Hst. replace (inc_schedule (shared s1)) with 0 in Hst by lia. done.
  - apply bind_Ok in Hst as (c & Hc & [= <-]).
    apply bind_Ok in Hc as (m & Hm & [= <-]). by apply IH.
  - unfold producer_schedules in Hst. replace (pushed_schedule (shared s1)) with 0 in Hst by lia. done.
  - unfold producer_schedules_on_pool, call_schedule in Hst. replace (pushed_schedule (shared s1)) with 0 in Hst by lia. done.
  - unfold ded_decide in Hst. by rewrite Hpc in Hst.
  - injection Hst as <-. by apply IH.
Qed.

(** The loop ends for destroyed components only: the thread of a component that became
    faulty stays for ever, unless it is told to stop. *)
Theorem faulty_thread_stays (s s' : Ded) :
  ded_inv s → is_faulty (state_word (shared s)) = true → stop s = false →
  pc s ≠ Leaving → pc s ≠ Ended →
  runs (λ l, l ≠ DShutdown) s s' → pc s' ≠ Ended.
Proof.
  intros Hinv Hfa Hst Hl He Hr. revert Hinv Hfa Hst Hl He.
  induction Hr as [|s l s1 s2 Hne Hs1 _ IH]; [done|]. intros Hinv Hfa Hst Hl He.
  assert (pc s ≠ Executing) as Hx.
  { intros Hx. destruct (executing_inv s Hinv Hx) as (f & k & Hw & Hn & _ & Hff & _).
    rewrite Hw in Hfa. unfold is_faulty in Hfa. rewrite remove_count_word in Hfa by done. by destruct f. }
  destruct (between_inv s Hinv Hx) as (f & n & Hw & Hn & _ & _).
  assert (f = FFaulty) as ->.
  { rewrite Hw in Hfa. unfold is_faulty in Hfa. rewrite remove_count_word in Hfa by done. by destruct f. }
  assert (is_faulty (state_word (shared s1)) = true ∧ stop s1 = false ∧ pc s1 ≠ Leaving ∧ pc s1 ≠ Ended)
    as (? & ? & ? & ?); [|apply IH; try done; by eapply ded_step_inv].
  clear IH. destruct l; try done; cbn [ded_step] in Hs1.
  - apply bind_Ok in Hs1 as (c & Hc & [= <-]). split_and!; try done. cbn.
    unfold increment in Hc. rewrite Hw in Hc.
    destruct (decide (n = MAX_WORK)) as [->|Hlt]; [by rewrite increment_work_full in Hc|].
    rewrite increment_work_word in Hc by lia. cbn in Hc. injection Hc as <-. cbn.
    unfold is_faulty. by rewrite remove_count_word by lia.
  - apply bind_Ok in Hs1 as (c & Hc & [= <-]). apply bind_Ok in Hc as (m & Hm & [= <-]). by split_and!.
  - apply bind_Ok in Hs1 as (c & Hc & [= <-]). apply bind_Ok in Hc as (m & Hm & [= <-]). by split_and!.
  - apply bind_Ok in Hs1 as (m & Hm & [= <-]). by split_and!.
  - apply bind_Ok in Hs1 as (c & Hc & [= <-]). apply bind_Ok in Hc as (m & Hm & [= <-]). by split_and!.
  - injection Hs1 as <-. by split_and!.
  - apply bind_Ok in Hs1 as ([] & _ & [= <-]). by split_and!.
  - apply bind_Ok in Hs1 as ([] & _ & H). rewrite Hw, from_current_word in H by done. injection H as <-. by split_and!.
  - by apply bind_Ok in Hs1 as ([] & Hpc%at_pc_Ok & _).
  - by apply bind_Ok in Hs1 as ([] & Hpc%at_pc_Ok & _).
  - by apply bind_Ok in Hs1 as ([] & Hpc%at_pc_Ok & _).
  - by apply bind_Ok in Hs1 as ([] & Hpc%at_pc_Ok & _).
  - by apply bind_Ok in Hs1 as ([] & Hpc%at_pc_Ok & _).
  - by apply bind_Ok in Hs1 as ([] & Hpc%at_pc_Ok & _).
  - unfold ded_decide in Hs1. destruct (pc s) as [| | |d| | | |]; try done.
    rewrite Hw, not_destroyed, Hst in Hs1 by done. cbn [orb] in Hs1.
    destruct d; cbn in Hs1; try (destruct (is_completed _)); simplify_eq; by split_and!.
  - apply bind_Ok in Hs1 as ([] & _ & H). destruct (permit s); injection H as <-; by split_and!.
  - apply bind_Ok in Hs1 as ([] & _ & H). destruct (permit s); [injection H as <-|done]; by split_and!.
  - apply bind_Ok in Hs1 as ([] & _ & [= <-]). by split_and!.
  - by apply bind_Ok in Hs1 as ([] & Hpc%at_pc_Ok & _).
Qed.
End dedicated.

(** A thread that gives up snoozing at once: it handles a start event, parks, and is
    parked with the permit unset. *)
Definition example_labels : list DLabel :=
  [DReceive; DIncrement; DPushSchedule (WControl Start); DBegin; DPopControl; DFinish; DSchedule;
   DDecide; DPark; DBegin; DFinish; DDecide; DPark].

Definition example_ded : Ded := mkDed (mkSched 0 [] [] 0 0 0 0 0 [] 0) false Parked () false false.


(** A port event or a timeout does not wake the thread: the component has work, its
    thread is parked and nobody is going to unpark it; only the pool has been asked to
    execute the component. *)
Theorem pool_asked_for_dedicated : ∃ s : Ded,
  ded_run () (λ _, true) id id (example_labels ++ [DIncrement; DPushSchedule WTimeout; DSchedulePool]) (ded_init ()) = Ok s ∧
  timeouts (shared s) = [true] ∧ pc s = Parked ∧ permit s = false ∧ owed (shared s) = 0 ∧ jobs (shared s) = 1.
Proof. eexists. split; [vm_compute; reflexivity|done]. Qed.
