(* ===== verification/PathTrie.v ===== *)
(** * The path trie of the actor lookup

    Model of [core/src/dispatch/lookup/path_trie.rs]: a tree whose edges are path
    segments, each node with an optional value and a hash map of children.  The
    theorems show that it implements a finite map from segment lists to values
    and that no empty node is ever left behind. *)

From S2P Require Import Prelude.

Inductive PathTrie (V : Type) : Type :=
| Node (value : option V) (children : gmap string (PathTrie V)).
Arguments Node {V} value children.

Definition node_value {V} (t : PathTrie V) : option V := match t with Node v _ => v end.
Definition children {V} (t : PathTrie V) : gmap string (PathTrie V) := match t with Node _ c => c end.

(** [PathTrie::new] and [PathTrie::with_value]. *)
Definition new_trie {V} : PathTrie V := Node None ∅.
Definition with_value {V} (value : V) : PathTrie V := Node (Some value) ∅.

Definition is_leaf {V} (t : PathTrie V) : bool := bool_decide (children t = ∅).
Definition is_empty {V} (t : PathTrie V) : bool := is_leaf t && bool_decide (node_value t = None).

Section Operations.
Context {V : Type}.
Implicit Types (t : PathTrie V) (key : list string) (v : V).

(** Each mutating operation returns the new trie and the Rust result. *)
Fixpoint insert_recursive key v t {struct key} : PathTrie V * option V :=
  match key with
  | fragment :: rest =>
      match children t !! fragment with
      | Some child =>
          let '(child', result) := insert_recursive rest v child in
          (Node (node_value t) (<[fragment := child']> (children t)), result)
      | None =>
          let '(new_child, result) := insert_recursive rest v new_trie in
          (Node (node_value t) (<[fragment := new_child]> (children t)), result)
      end
  | [] => (Node (Some v) (children t), node_value t)
  end.

Definition insert := insert_recursive.

(** [insert_owned] walks down with [entry(..).or_insert_with(new)] and replaces
    the value of the node it arrives at. *)
Fixpoint insert_owned key v t {struct key} : PathTrie V * option V :=
  match key with
  | [] => (Node (Some v) (children t), node_value t)
  | fragment :: rest =>
      let entry := default new_trie (children t !! fragment) in
      let '(entry', result) := insert_owned rest v entry in
      (Node (node_value t) (<[fragment := entry']> (children t)), result)
  end.

Fixpoint get_node t key {struct key} : option (PathTrie V) :=
  match key with
  | [] => Some t
  | fragment :: rest => child ← children t !! fragment; get_node child rest
  end.

Definition get t key : option V := node ← get_node t key; node_value node.

(** The result is the new node, the removed value and the deletion mark. *)
Fixpoint remove_recursive key t {struct key} : PathTrie V * option V * bool :=
  match key with
  | fragment :: rest =>
      match children t !! fragment with
      | Some child =>
          let '(child', result, delete_child) := remove_recursive rest child in
          let children' :=
            if delete_child : bool then delete fragment (children t)
            else <[fragment := child']> (children t) in
          let t' := Node (node_value t) children' in
          (t', result, is_empty t')
      | None => (t, None, is_empty t)
      end
  | [] => let t' := Node None (children t) in (t', node_value t, is_empty t')
  end.

Definition remove key t : PathTrie V * option V :=
  let '(t', result, _) := remove_recursive key t in (t', result).

(** The value part of [retain_recursive]. *)
Definition retain_value (condition : V → bool) (o : option V) (count : nat) : option V * nat :=
  match o with
  | Some v => if condition v then (Some v, count) else (None, S count)
  | None => (None, count)
  end.

(** [HashMap::retain] visits every child once, in the order of the map. *)
Fixpoint retain_recursive (condition : V → bool) t (count : nat) : PathTrie V * nat :=
  match t with
  | Node o cs =>
      let '(o', count) := retain_value condition o count in
      let '(cs', count) :=
        map_fold (λ fragment child '(cs', count),
            let '(child', count) := retain_recursive condition child count in
            let delete := is_empty child' in
            (if delete : bool then cs' else <[fragment := child']> cs', count))
          (∅, count) cs in
      (Node o' cs', count)
  end.

Definition retain (condition : V → bool) t : PathTrie V * nat := retain_recursive condition t 0.

(** ** The value iterator

    A stack of child iterators, the top one first; an iterator is the list of
    the children it has not visited yet. *)
Record Values := mkValues {
  root : PathTrie V;
  root_visited : bool;
  stack : list (list (string * PathTrie V));
}.

Definition values t : Values := mkValues t false [].

Definition iter_children t : list (string * PathTrie V) := map_to_list (children t).

(** The [loop] of [next]; [None] in the outer option is exhausted fuel. *)
Fixpoint next_loop (fuel : nat) (stk : list (list (string * PathTrie V)))
    : option (option V * list (list (string * PathTrie V))) :=
  match fuel with
  | O => None
  | S fuel =>
      match stk with
      | [] => Some (None, [])
      | [] :: stk => next_loop fuel stk
      | ((_, child_node) :: child_iter) :: stk =>
          let stk := iter_children child_node :: child_iter :: stk in
          match node_value child_node with
          | Some value => Some (Some value, stk)
          | None => next_loop fuel stk
          end
      end
  end.

Definition next (fuel : nat) (it : Values) : option (option V * Values) :=
  let '(it, first) :=
    if root_visited it then (it, None)
    else (mkValues (root it) true (iter_children (root it) :: stack it), node_value (root it)) in
  match first with
  | Some root_val => Some (Some root_val, it)
  | None => '(o, stk) ← next_loop fuel (stack it); Some (o, mkValues (root it) (root_visited it) stk)
  end.

(** Collecting an iterator: at most [n] calls of [next]. *)
Fixpoint collect (n fuel : nat) (it : Values) : option (list V) :=
  match n with
  | O => None
  | S n =>
      '(o, it') ← next fuel it;
      match o with
      | None => Some []
      | Some v => vs ← collect n fuel it'; Some (v :: vs)
      end
  end.

(** ** Reference definitions *)

(** All values, depth first. *)
Fixpoint tree_values t : list V :=
  match t with
  | Node o cs => option_list o ++ map_fold (λ _ c acc, tree_values c ++ acc) [] cs
  end.

(** All bindings, depth first. *)
Fixpoint tree_entries t : list (list string * V) :=
  match t with
  | Node o cs =>
      ((λ v, ([], v)) <$> option_list o)
      ++ map_fold (λ f c acc, (prod_map (cons f) id <$> tree_entries c) ++ acc) [] cs
  end.

(** The finite map a trie stands for. *)
Definition to_map t : gmap (list string) V := list_to_map (tree_entries t).

(** Number of nodes. *)
Fixpoint tree_size t : nat :=
  match t with Node _ cs => S (map_fold (λ _ c acc, tree_size c + acc) 0 cs) end.

(** No node below the root is empty. *)
Definition trimmed t : Prop :=
  ∀ key node, key ≠ [] → get_node t key = Some node → is_empty node = false.
End Operations.
Arguments Values V : clear implicits.
#[global] Arguments get {V} t key : simpl never.
#[global] Arguments to_map {V} t : simpl never.

(** ** Nodes and emptiness *)
Section Facts.
Context {V : Type}.
Implicit Types (t : PathTrie V) (key : list string) (v : V).

Lemma is_empty_Node o (cs : gmap string (PathTrie V)) :
  is_empty (Node o cs) = true ↔ o = None ∧ cs = ∅.
Proof.
  unfold is_empty, is_leaf. cbn [children node_value].
  rewrite andb_true_iff, !bool_decide_eq_true. naive_solver.
Qed.

Lemma is_empty_get t key : is_empty t = true → get t key = None.
Proof. destruct t as [o cs]. intros [-> ->]%is_empty_Node. by destruct key. Qed.

Lemma trimmed_new : trimmed (V:=V) new_trie.
Proof. intros [|f key] node Hk H; [done|]. cbn in H. by rewrite lookup_empty in H. Qed.

(** A trimmed root is determined by its children being trimmed and not empty. *)
Lemma trimmed_Node o (cs : gmap string (PathTrie V)) :
  trimmed (Node o cs) ↔ ∀ f c, cs !! f = Some c → is_empty c = false ∧ trimmed c.
Proof.
  split.
  - intros H f c Hc. split.
    + apply (H [f]); [done|]. cbn. by rewrite Hc.
    + intros key node Hk Hn. apply (H (f :: key)); [done|]. cbn. by rewrite Hc.
  - intros H [|f key] node Hk Hn; [done|]. cbn in Hn.
    apply bind_Some in Hn as (c & Hc & Hn). destruct (H f c Hc) as [He Ht].
    destruct key as [|g key]; [by injection Hn as <-|]. by apply (Ht (g :: key)).
Qed.

Lemma get_cons t f key : get t (f :: key) = c ← children t !! f; get c key.
Proof. unfold get. cbn. by destruct (children t !! f). Qed.

Lemma get_new key : get (V:=V) new_trie key = None.
Proof. destruct key; [done|]. by rewrite get_cons. Qed.

(** ** Insertion *)
Lemma insert_owned_eq key v t : insert_owned key v t = insert_recursive key v t.
Proof.
  revert t. induction key as [|f key IH]; intros t; cbn; [done|].
  destruct (children t !! f) as [c|] eqn:Hc; cbn; by rewrite IH.
Qed.

(** Inserting at an existing node replaces its value only. *)
Lemma insert_owned_node key v t node : get_node t key = Some node →
  get_node (insert_owned key v t).1 key = Some (Node (Some v) (children node)).
Proof.
  revert t. induction key as [|f key IH]; intros t; cbn; [by intros [= ->]|].
  destruct (children t !! f) as [c|] eqn:Hc; cbn; [|done]. intros Hn. specialize (IH c Hn).
  destruct (insert_owned key v c) as [c' r]. cbn in *. by rewrite lookup_insert_eq.
Qed.

Lemma insert_recursive_cons f key v t :
  insert_recursive (f :: key) v t =
    let '(c', r) := insert_recursive key v (default new_trie (children t !! f)) in
    (Node (node_value t) (<[f := c']> (children t)), r).
Proof. cbn. by destruct (children t !! f). Qed.

Lemma insert_result key v t : (insert_recursive key v t).2 = get t key.
Proof.
  revert t. induction key as [|f key IH]; intros t; [done|].
  rewrite insert_recursive_cons, get_cons.
  specialize (IH (default new_trie (children t !! f))).
  destruct (insert_recursive key v _) as [c' r]. cbn in *. rewrite IH.
  destruct (children t !! f); cbn; [done|]. apply get_new.
Qed.

Lemma insert_get key v t key' :
  get (insert_recursive key v t).1 key' = if decide (key = key') then Some v else get t key'.
Proof.
  revert t key'. induction key as [|f key IH]; intros t key'.
  - cbn [insert_recursive remove_recursive fst]. case_decide; subst; [done|]. destruct key'; [done|]. by rewrite !get_cons.
  - rewrite insert_recursive_cons. specialize (IH (default new_trie (children t !! f))).
    destruct (insert_recursive key v _) as [c' r]. cbn [fst] in *. destruct key' as [|g key'].
    + rewrite decide_False by done. by destruct t.
    + rewrite get_cons. cbn [children]. destruct (decide (f = g)) as [->|Hfg].
      * rewrite lookup_insert_eq. cbn. rewrite IH, get_cons.
        destruct (decide (key = key')) as [->|Hne].
        -- by rewrite decide_True.
        -- rewrite decide_False by congruence. destruct (children t !! g); cbn; [done|]. apply get_new.
      * rewrite lookup_insert_ne by done. rewrite decide_False by congruence. by rewrite get_cons.
Qed.

Lemma get_not_empty t key v : get t key = Some v → is_empty t = false.
Proof. intros H. apply not_true_is_false. intros He. by rewrite is_empty_get in H. Qed.

Lemma insert_trimmed key v t : trimmed t → trimmed (insert_recursive key v t).1.
Proof.
  revert t. induction key as [|f key IH]; intros [o cs] Ht.
  - cbn. rewrite trimmed_Node in Ht |- *. exact Ht.
  - rewrite insert_recursive_cons. cbn [children node_value].
    pose proof (insert_get key v (default new_trie (cs !! f)) key) as Hg.
    specialize (IH (default new_trie (cs !! f))).
    destruct (insert_recursive key v _) as [c' r]. cbn [fst] in *.
    rewrite decide_True in Hg by done.
    rewrite trimmed_Node in Ht |- *. intros g c Hc. destruct (decide (f = g)) as [->|].
    + rewrite lookup_insert_eq in Hc. injection Hc as <-. split; [by eapply get_not_empty|].
      apply IH. destruct (cs !! g) as [c0|] eqn:Hg0; cbn; [by apply (Ht g)|apply trimmed_new].
    + rewrite lookup_insert_ne in Hc by done. by apply (Ht g).
Qed.

(** ** Removal *)
Lemma remove_mark key t : (remove_recursive key t).2 = is_empty (remove_recursive key t).1.1.
Proof.
  destruct key as [|f key]; [done|]. cbn. destruct (children t !! f) as [c|]; [|done].
  by destruct (remove_recursive key c) as [[c' r] []].
Qed.

Lemma remove_result key t : (remove_recursive key t).1.2 = get t key.
Proof.
  revert t. induction key as [|f key IH]; intros t; [done|].
  rewrite get_cons. cbn. destruct (children t !! f) as [c|]; [|done]. cbn. rewrite <-IH.
  by destruct (remove_recursive key c) as [[c' r] d].
Qed.

Lemma remove_get key t key' :
  get (remove_recursive key t).1.1 key' = if decide (key = key') then None else get t key'.
Proof.
  revert t key'. induction key as [|f key IH]; intros t key'.
  - cbn [insert_recursive remove_recursive fst]. case_decide; subst; [done|]. destruct key'; [done|]. by rewrite !get_cons.
  - cbn. destruct (children t !! f) as [c|] eqn:Hc.
    + specialize (IH c). pose proof (remove_mark key c) as Hm.
      destruct (remove_recursive key c) as [[c' r] d]. cbn [fst snd] in *.
      destruct key' as [|g key']; [by rewrite decide_False by done; destruct t|].
      rewrite !get_cons. cbn [children]. destruct (decide (f = g)) as [->|Hfg].
      * rewrite Hc. cbn. specialize (IH key').
        assert (get c' key' = if decide (g :: key = g :: key') then None else get c key') as <-.
        { rewrite IH. destruct (decide (key = key')) as [->|].
          - by rewrite decide_True.
          - by rewrite decide_False by congruence. }
        destruct d; [|by rewrite lookup_insert_eq].
        rewrite lookup_delete_eq. cbn. by rewrite is_empty_get.
      * rewrite decide_False by congruence. destruct d.
        -- by rewrite lookup_delete_ne.
        -- by rewrite lookup_insert_ne.
    + cbn [fst]. case_decide; subst; [|done]. by rewrite get_cons, Hc.
Qed.

Lemma remove_trimmed key t : trimmed t → trimmed (remove_recursive key t).1.1.
Proof.
  revert t. induction key as [|f key IH]; intros [o cs] Ht.
  - cbn. rewrite trimmed_Node in Ht |- *. exact Ht.
  - cbn. destruct (cs !! f) as [c|] eqn:Hc; [|done].
    rewrite trimmed_Node in Ht. specialize (IH c (proj2 (Ht f c Hc))).
    pose proof (remove_mark key c) as Hm.
    destruct (remove_recursive key c) as [[c' r] d]. cbn [fst snd] in *.
    rewrite trimmed_Node. intros g x Hx. destruct (decide (f = g)) as [->|].
    + destruct d; [by rewrite lookup_delete_eq in Hx|]. rewrite lookup_insert_eq in Hx.
      by injection Hx as <-.
    + apply (Ht g). destruct d; [by rewrite lookup_delete_ne in Hx|by rewrite lookup_insert_ne in Hx].
Qed.
End Facts.

(** ** Induction and the depth-first order *)
Section Order.
Context {V : Type}.
Implicit Types (t : PathTrie V) (key : list string) (v : V) (cs : gmap string (PathTrie V)).

Lemma tree_size_child o cs f c : cs !! f = Some c → tree_size c < tree_size (Node o cs).
Proof.
  intros Hc%elem_of_map_to_list. cbn. rewrite map_fold_foldr.
  induction (map_to_list cs) as [|[g d] l IH]; [by apply not_elem_of_nil in Hc|].
  cbn. apply elem_of_cons in Hc as [[= <- <-]|Hc]; [lia|]. specialize (IH Hc). lia.
Qed.

Lemma trie_ind (P : PathTrie V → Prop) :
  (∀ o cs, (∀ f c, cs !! f = Some c → P c) → P (Node o cs)) → ∀ t, P t.
Proof.
  intros HP t. remember (tree_size t) as n eqn:Hn. revert t Hn.
  induction (lt_wf n) as [n _ IH]. intros [o cs] ->. apply HP. intros f c Hc.
  by apply (IH (tree_size c)); [eapply tree_size_child|].
Qed.

Definition list_entries (l : list (string * PathTrie V)) : list (list string * V) :=
  foldr (λ fc acc, (prod_map (cons fc.1) id <$> tree_entries fc.2) ++ acc) [] l.

Definition list_values (l : list (string * PathTrie V)) : list V :=
  foldr (λ fc acc, tree_values fc.2 ++ acc) [] l.

Lemma tree_entries_Node o cs :
  tree_entries (Node o cs) = ((λ v, ([], v)) <$> option_list o) ++ list_entries (map_to_list cs).
Proof.
  cbn. f_equal. rewrite map_fold_foldr. unfold list_entries.
  induction (map_to_list cs) as [|[f c] l IH]; cbn; [done|]. by rewrite IH.
Qed.

Lemma tree_values_Node o cs :
  tree_values (Node o cs) = option_list o ++ list_values (map_to_list cs).
Proof.
  cbn. f_equal. rewrite map_fold_foldr. unfold list_values.
  induction (map_to_list cs) as [|[f c] l IH]; cbn; [done|]. by rewrite IH.
Qed.

Lemma elem_of_list_entries l key v :
  (key, v) ∈ list_entries l ↔ ∃ f rest c, key = f :: rest ∧ (f, c) ∈ l ∧ (rest, v) ∈ tree_entries c.
Proof.
  induction l as [|[g d] l IH]; cbn.
  - split; [by intros ?%not_elem_of_nil|]. by intros (? & ? & ? & ? & ?%not_elem_of_nil & ?).
  - rewrite elem_of_app, IH, list_elem_of_fmap. split.
    + intros [([rest w] & [= -> ->] & Hr)|(f & rest & c & -> & Hc & Hr)].
      * exists g, rest, d. split_and!; [done|by left|done].
      * exists f, rest, c. split_and!; [done|by right|done].
    + intros (f & rest & c & -> & Hc & Hr). apply elem_of_cons in Hc as [[= -> ->]|Hc].
      * left. by exists (rest, v).
      * right. eauto 10.
Qed.

Lemma elem_of_tree_entries t key v : (key, v) ∈ tree_entries t ↔ get t key = Some v.
Proof.
  revert key. induction t as [o cs IH] using trie_ind. intros key.
  rewrite tree_entries_Node, elem_of_app, elem_of_list_entries. split.
  - intros [Ho|(f & rest & c & -> & Hc%elem_of_map_to_list & Hr)].
    + apply list_elem_of_fmap in Ho as (w & [= -> ->] & Hw). destruct o; cbn in Hw; [by apply list_elem_of_singleton in Hw as ->|by apply not_elem_of_nil in Hw].
    + rewrite get_cons. cbn. rewrite Hc. cbn. by apply (IH f c Hc).
  - intros Hg. destruct key as [|f key].
    + left. apply list_elem_of_fmap. exists v. split; [done|].
      cbn in Hg. change (o = Some v) in Hg. subst. by apply list_elem_of_singleton.
    + right. rewrite get_cons in Hg. cbn in Hg. apply bind_Some in Hg as (c & Hc & Hg).
      exists f, key, c. split_and!; [done|by apply elem_of_map_to_list|by apply (IH f c Hc)].
Qed.

Lemma list_entries_NoDup l : NoDup l.*1 →
  (∀ f c, (f, c) ∈ l → NoDup (tree_entries c).*1) → NoDup (list_entries l).*1.
Proof.
  induction l as [|[f c] l IH]; intros Hl Hc; cbn; [constructor|].
  cbn in Hl. apply NoDup_cons in Hl as [Hf Hl]. rewrite fmap_app. apply NoDup_app. split_and!.
  - assert ((prod_map (cons f) id <$> tree_entries c).*1 = cons f <$> (tree_entries c).*1) as ->
      by (rewrite <-!list_fmap_compose; by apply list_fmap_ext).
    apply NoDup_fmap_2; [intros ?? [=]; done|].
    apply (Hc f). by left.
  - intros key Hk1 Hk2. apply list_elem_of_fmap in Hk1 as ([k1 v1] & -> & Hk1).
    apply list_elem_of_fmap in Hk1 as ([r1 w1] & [= -> ->] & Hk1).
    apply list_elem_of_fmap in Hk2 as ([k2 v2] & Heq & Hk2). cbn in Heq. subst.
    apply elem_of_list_entries in Hk2 as (g & rest & d & [= -> ->] & Hd & _).
    apply Hf. apply list_elem_of_fmap. by exists (g, d).
  - apply IH; [done|]. intros g d Hd. apply (Hc g). by right.
Qed.

Lemma tree_entries_NoDup t : NoDup (tree_entries t).*1.
Proof.
  induction t as [o cs IH] using trie_ind. rewrite tree_entries_Node, fmap_app.
  apply NoDup_app. split_and!.
  - destruct o; cbn; [apply NoDup_singleton|constructor].
  - intros key Hk ([k v] & -> & Hk2)%list_elem_of_fmap.
    apply elem_of_list_entries in Hk2 as (f & rest & c & -> & _).
    destruct o; cbn in Hk; [|by apply not_elem_of_nil in Hk].
    by apply list_elem_of_singleton in Hk.
  - apply list_entries_NoDup; [apply NoDup_fst_map_to_list|].
    intros f c Hc%elem_of_map_to_list. by apply (IH f).
Qed.

Lemma to_map_lookup t key : to_map t !! key = get t key.
Proof.
  apply option_eq. intros v. unfold to_map.
  rewrite <-elem_of_list_to_map by apply tree_entries_NoDup. apply elem_of_tree_entries.
Qed.

Lemma list_values_entries l :
  (∀ f c, (f, c) ∈ l → tree_values c = (tree_entries c).*2) → list_values l = (list_entries l).*2.
Proof.
  induction l as [|[f c] l IH]; intros Hl; [done|].
  change (tree_values c ++ list_values l
          = ((prod_map (cons f) id <$> tree_entries c) ++ list_entries l).*2).
  rewrite fmap_app, (Hl f c) by by left.
  rewrite IH by (intros g d Hd; apply (Hl g d); by right). f_equal.
  rewrite <-list_fmap_compose. by apply list_fmap_ext.
Qed.

Lemma tree_values_entries t : tree_values t = (tree_entries t).*2.
Proof.
  induction t as [o cs IH] using trie_ind.
  rewrite tree_values_Node, tree_entries_Node, fmap_app. f_equal; [by destruct o|].
  apply list_values_entries. intros f c Hc%elem_of_map_to_list. by apply (IH f).
Qed.

Lemma tree_values_to_map t : tree_values t ≡ₚ (map_to_list (to_map t)).*2.
Proof.
  rewrite tree_values_entries. unfold to_map.
  by rewrite map_to_list_to_map by apply tree_entries_NoDup.
Qed.

(** ** The iterator visits the depth-first order *)
Definition pending (stk : list (list (string * PathTrie V))) : list V := mjoin (list_values <$> stk).

Definition list_weight (l : list (string * PathTrie V)) : nat :=
  S (foldr (λ fc acc, 2 * tree_size fc.2 + acc) 0 l).

Definition stack_weight (stk : list (list (string * PathTrie V))) : nat :=
  foldr (λ l acc, list_weight l + acc) 0 stk.

Lemma tree_size_Node o cs : 2 * tree_size (Node o cs) = S (list_weight (map_to_list cs)).
Proof.
  cbn. rewrite map_fold_foldr. unfold list_weight.
  induction (map_to_list cs) as [|[f c] l IH]; cbn in *; lia.
Qed.

Lemma list_weight_cons f c l : list_weight ((f, c) :: l) = 2 * tree_size c + list_weight l.
Proof. unfold list_weight. cbn [foldr snd]. lia. Qed.

Lemma stack_weight_cons l stk : stack_weight (l :: stk) = list_weight l + stack_weight stk.
Proof. done. Qed.

Lemma next_loop_spec fuel stk : stack_weight stk < fuel →
  ∃ stk', next_loop fuel stk = Some (head (pending stk), stk')
    ∧ pending stk' = tail (pending stk) ∧ stack_weight stk' ≤ stack_weight stk.
Proof.
  revert stk. induction fuel as [|fuel IH]; intros stk Hf; [lia|].
  destruct stk as [|[|[f [o cs]] l] stk]; cbn [next_loop].
  - by exists [].
  - destruct (IH stk) as (stk' & Hn & Hp & Hw); [rewrite stack_weight_cons in Hf; change (list_weight []) with 1 in Hf; lia|].
    exists stk'. rewrite stack_weight_cons. split_and!; [done|done|lia].
  - pose proof (tree_size_Node o cs) as Hs. cbn [node_value iter_children children].
    set (stk1 := map_to_list cs :: l :: stk).
    assert (pending (((f, Node o cs) :: l) :: stk) = option_list o ++ pending stk1) as ->.
    { unfold pending. cbn [fmap list_fmap mjoin list_join list_values foldr snd].
      rewrite tree_values_Node. unfold list_values. by rewrite <-!app_assoc. }
    assert (S (stack_weight stk1) = stack_weight (((f, Node o cs) :: l) :: stk)) as Hst.
    { unfold stk1. rewrite !stack_weight_cons, list_weight_cons. lia. }
    destruct o as [v|].
    + exists stk1. split_and!; [done|done|lia].
    + destruct (IH stk1) as (stk' & Hn & Hp & Hw); [lia|]. exists stk'. split_and!; [done|done|lia].
Qed.

Definition remaining (it : Values V) : list V :=
  (if root_visited it then [] else tree_values (root it)) ++ pending (stack it).

Definition weight (it : Values V) : nat :=
  (if root_visited it then 0 else 2 * tree_size (root it)) + stack_weight (stack it).

Lemma next_spec fuel it : weight it < fuel →
  ∃ it', next fuel it = Some (head (remaining it), it')
    ∧ remaining it' = tail (remaining it) ∧ weight it' ≤ weight it.
Proof.
  destruct it as [[o cs] [] stk]; unfold remaining, weight, next;
    cbn [root root_visited stack app]; intros Hf.
  - destruct (next_loop_spec fuel stk ltac:(lia)) as (stk' & -> & Hp & Hw). cbn [mbind option_bind].
    eexists. split; [done|]. cbn [root_visited root stack]. done.
  - pose proof (tree_size_Node o cs) as Hs. cbn [node_value iter_children children].
    set (stk1 := map_to_list cs :: stk).
    assert (tree_values (Node o cs) ++ pending stk = option_list o ++ pending stk1) as ->.
    { rewrite tree_values_Node. unfold pending. cbn. by rewrite <-app_assoc. }
    assert (S (stack_weight stk1) = 2 * tree_size (Node o cs) + stack_weight stk) as Hst.
    { unfold stk1. rewrite stack_weight_cons. lia. }
    destruct o as [v|].
    + eexists. split; [done|]. cbn [root root_visited stack app]. split; [done|].
      unfold stk1, iter_children in *. cbn [children]. lia.
    + cbn [option_list]. destruct (next_loop_spec fuel stk1 ltac:(lia)) as (stk' & Hn & Hp & Hw).
      unfold stk1, iter_children in *. cbn [stack children] in *. rewrite Hn. cbn [mbind option_bind].
      eexists. split; [done|]. cbn [root root_visited stack app]. split; [done|]. lia.
Qed.

Lemma collect_spec n fuel it :
  length (remaining it) < n → weight it < fuel → collect n fuel it = Some (remaining it).
Proof.
  revert it. induction n as [|n IH]; intros it Hn Hf; [lia|]. cbn [collect].
  destruct (next_spec fuel it Hf) as (it' & -> & Hr & Hw). cbn [mbind option_bind].
  destruct (remaining it) as [|v vs] eqn:Hit; cbn [head tail] in *; [done|].
  rewrite IH; [|rewrite Hr; cbn in Hn; lia|lia]. by rewrite Hr.
Qed.
End Order.

Lemma map_to_list_filter {K A} `{Countable K} (P : K * A → Prop) `{!∀ x, Decision (P x)} (m : gmap K A) :
  map_to_list (filter P m) ≡ₚ filter P (map_to_list m).
Proof.
  apply NoDup_Permutation; [apply NoDup_map_to_list|apply NoDup_filter, NoDup_map_to_list|].
  intros [k v]. rewrite list_elem_of_filter, !elem_of_map_to_list, map_lookup_filter_Some. tauto.
Qed.

(** ** Retaining values *)
Section Retain.
Context {V : Type} (condition : V → bool).
Implicit Types (t : PathTrie V) (key : list string) (v : V) (cs : gmap string (PathTrie V)).

Definition retained t : PathTrie V := (retain_recursive condition t 0).1.
Definition rejected (l : list V) : nat := length (filter (λ v, condition v = false) l).
Definition keep_value (o : option V) : option V := v ← o; if condition v then Some v else None.
Definition keep_child (c : PathTrie V) : option (PathTrie V) :=
  if is_empty (retained c) then None else Some (retained c).

Lemma rejected_app l1 l2 : rejected (l1 ++ l2) = rejected l1 + rejected l2.
Proof. unfold rejected. by rewrite filter_app, length_app. Qed.

Lemma rejected_perm l1 l2 : l1 ≡ₚ l2 → rejected l1 = rejected l2.
Proof. intros H. unfold rejected. by rewrite H. Qed.

Lemma list_values_perm l1 l2 : l1 ≡ₚ l2 → list_values (V:=V) l1 ≡ₚ list_values l2.
Proof.
  induction 1 as [|[f c] l1 l2 _ IH|[f c] [g d] l|l1 l2 l3 _ IH1 _ IH2]; cbn; [done| | |].
  - by apply Permutation_app_head.
  - by rewrite !app_assoc, (Permutation_app_comm (tree_values d)).
  - by rewrite IH1.
Qed.

Lemma list_values_insert cs f c : cs !! f = None →
  list_values (map_to_list (<[f := c]> cs)) ≡ₚ tree_values c ++ list_values (map_to_list cs).
Proof. intros H. by rewrite (list_values_perm _ _ (map_to_list_insert cs f c H)). Qed.

(** The fold over the children, given what it does to each child. *)
Definition retain_step fragment child (acc : gmap string (PathTrie V) * nat) :=
  let '(cs', count) := acc in
  let '(child', count) := retain_recursive condition child count in
  let delete := is_empty child' in
  (if delete : bool then cs' else <[fragment := child']> cs', count).

Lemma retain_children_spec cs n :
  (∀ f c, cs !! f = Some c →
     ∀ m, retain_recursive condition c m = (retained c, m + rejected (tree_values c))) →
  let r := map_fold retain_step (∅, n) cs in
  (∀ f, r.1 !! f = c ← cs !! f; keep_child c)
  ∧ r.2 = n + rejected (list_values (map_to_list cs)).
Proof.
  cbn. apply (map_fold_weak_ind (λ r cs,
    (∀ f c, cs !! f = Some c →
       ∀ m, retain_recursive condition c m = (retained c, m + rejected (tree_values c))) →
    (∀ f, r.1 !! f = c ← cs !! f; keep_child c)
    ∧ r.2 = n + rejected (list_values (map_to_list cs)))).
  - intros _. split; [intros f; by rewrite !lookup_empty|]. rewrite map_to_list_empty. cbn. lia.
  - intros f c m [cs' k] Hf IH Hret. destruct IH as [IHl IHn].
    { intros g d Hd. apply (Hret g). rewrite lookup_insert_ne; congruence. }
    cbn [retain_step]. rewrite (Hret f c) by apply lookup_insert_eq. cbn [fst snd] in *. split.
    + intros g. destruct (decide (f = g)) as [<-|Hne].
      * rewrite lookup_insert_eq. cbn [mbind option_bind]. unfold keep_child.
        destruct (is_empty (retained c)); [by rewrite IHl, Hf|apply lookup_insert_eq].
      * rewrite (lookup_insert_ne m) by done. rewrite <-IHl.
        destruct (is_empty (retained c)); [done|by rewrite lookup_insert_ne].
    + rewrite (rejected_perm _ _ (list_values_insert m f c Hf)), rejected_app. lia.
Qed.

Lemma retain_recursive_Node o cs n :
  retain_recursive condition (Node o cs) n =
    (let '(o', n) := retain_value condition o n in
     let '(cs', n) := map_fold retain_step (∅, n) cs in (Node o' cs', n)).
Proof. done. Qed.

Lemma retain_value_spec o n :
  retain_value condition o n = (keep_value o, n + rejected (option_list o)).
Proof.
  destruct o as [v|]; unfold rejected, keep_value; cbn; [|f_equal; lia].
  destruct (condition v); case_decide; try done; cbn; f_equal; lia.
Qed.

Lemma retain_count t n :
  retain_recursive condition t n = (retained t, n + rejected (tree_values t)).
Proof.
  revert n. induction t as [o cs IH] using trie_ind. intros n. unfold retained.
  rewrite !retain_recursive_Node, !retain_value_spec, tree_values_Node, rejected_app.
  pose proof (retain_children_spec cs (n + rejected (option_list o)) IH) as [Hl1 Hn1].
  pose proof (retain_children_spec cs (0 + rejected (option_list o)) IH) as [Hl2 Hn2].
  destruct (map_fold retain_step (∅, n + rejected (option_list o)) cs) as [cs1 n1].
  destruct (map_fold retain_step (∅, 0 + rejected (option_list o)) cs) as [cs2 n2].
  cbn [fst snd] in *. subst. f_equal; [|lia]. f_equal.
  apply map_eq. intros f. by rewrite Hl1, Hl2.
Qed.

Lemma retained_Node o cs : ∃ cs', retained (Node o cs) = Node (keep_value o) cs'
  ∧ ∀ f, cs' !! f = c ← cs !! f; keep_child c.
Proof.
  unfold retained. rewrite retain_recursive_Node, retain_value_spec.
  pose proof (retain_children_spec cs (0 + rejected (option_list o))
    (λ f c _, retain_count c)) as [Hl _].
  destruct (map_fold retain_step _ cs) as [cs' n']. by exists cs'.
Qed.

Lemma retained_get t key : get (retained t) key = keep_value (get t key).
Proof.
  revert key. induction t as [o cs IH] using trie_ind. intros key.
  destruct (retained_Node o cs) as (cs' & -> & Hl). destruct key as [|f key]; [done|].
  rewrite !get_cons. cbn [children]. rewrite Hl.
  destruct (cs !! f) as [c|] eqn:Hc; [|done]. cbn [mbind option_bind]. unfold keep_child.
  rewrite <-(IH f c Hc). destruct (is_empty (retained c)) eqn:He; cbn; [|done].
  by rewrite is_empty_get.
Qed.

Lemma retained_trimmed t : trimmed (retained t).
Proof.
  induction t as [o cs IH] using trie_ind. destruct (retained_Node o cs) as (cs' & -> & Hl).
  rewrite trimmed_Node. intros f c'. rewrite Hl. intros (c & Hc & Hk)%bind_Some.
  unfold keep_child in Hk. destruct (is_empty (retained c)) eqn:He; [done|].
  injection Hk as <-. split; [done|]. by apply (IH f).
Qed.
End Retain.

(** A trimmed node that is not empty has a value somewhere. *)
Lemma empty_trie_values {V} (t : PathTrie V) :
  trimmed t → is_empty t = false → (∀ key, get t key = None) → False.
Proof.
  induction t as [o cs IH] using trie_ind. intros Ht He Hg.
  pose proof (Hg []) as Ho. change (o = None) in Ho. subst.
  assert (cs = ∅) as ->; [|done]. apply map_empty. intros f.
  destruct (cs !! f) as [c|] eqn:Hc; [exfalso|done]. pose proof (proj1 (trimmed_Node _ _) Ht) as Hch.
  destruct (Hch f c Hc) as [Hce Hct]. apply (IH f c Hc Hct Hce). intros k.
  specialize (Hg (f :: k)). rewrite get_cons in Hg. cbn in Hg. by rewrite Hc in Hg.
Qed.

(** Fuel for a whole traversal. *)
Lemma values_collect {V} (t : PathTrie V) (n fuel : nat) :
  length (tree_values t) < n → 2 * tree_size t < fuel → collect n fuel (values t) = Some (tree_values t).
Proof.
  intros Hn Hf. assert (remaining (values t) = tree_values t) as Hr.
  { unfold remaining, values. cbn [root_visited root stack]. unfold pending. cbn. apply app_nil_r. }
  rewrite <-Hr. apply collect_spec; [by rewrite Hr|].
  unfold weight, values. cbn [root_visited root stack stack_weight foldr]. lia.
Qed.

(** ** Sub-trees *)
Lemma get_node_app {V} (t node : PathTrie V) p k :
  get_node t p = Some node → get t (p ++ k) = get node k.
Proof.
  revert t. induction p as [|f p IH]; intros t Hn; cbn in Hn; [by injection Hn as ->|].
  apply bind_Some in Hn as (c & Hc & Hn). cbn [app]. rewrite get_cons, Hc. cbn. by apply IH.
Qed.

Lemma get_node_None {V} (t : PathTrie V) p k : get_node t p = None → get t (p ++ k) = None.
Proof.
  revert t. induction p as [|f p IH]; intros t Hn; [done|]. cbn in Hn. cbn [app]. rewrite get_cons.
  destruct (children t !! f); cbn in *; [by apply IH|done].
Qed.

(** The bindings below [p]. *)
Definition below {V} (p : list string) (m : gmap (list string) V) : gmap (list string) V :=
  filter (λ kv, p `prefix_of` kv.1) m.

Lemma below_get_node {V} (t node : PathTrie V) p :
  get_node t p = Some node → below p (to_map t) = kmap (app p) (to_map node).
Proof.
  intros Hn. assert (Inj eq eq (app p)) as Hinj by (intros ???; by apply (app_inv_head p)).
  apply map_eq. intros k. apply option_eq. intros v. unfold below.
  rewrite map_lookup_filter_Some, (lookup_kmap_Some (app p)), to_map_lookup. cbn [fst]. split.
  - intros [Hg [k' ->]]. exists k'. split; [done|].
    by rewrite to_map_lookup, <-(get_node_app _ _ _ _ Hn).
  - intros (k' & -> & Hg). rewrite to_map_lookup in Hg.
    split; [by rewrite (get_node_app _ _ _ _ Hn)|by exists k'].
Qed.

Lemma subtree_values {V} (t node : PathTrie V) p :
  get_node t p = Some node → tree_values node ≡ₚ (map_to_list (below p (to_map t))).*2.
Proof.
  intros Hn. assert (Inj eq eq (app p)) as Hinj by (intros ???; by apply (app_inv_head p)).
  rewrite (below_get_node _ _ _ Hn), tree_values_to_map.
  rewrite (map_to_list_kmap (app p)). rewrite <-list_fmap_compose.
  by rewrite (list_fmap_ext (snd ∘ prod_map (app p) id) snd).
Qed.

Lemma retain_size {V} (condition : V → bool) (t : PathTrie V) :
  (retain condition t).2 = size (filter (λ kv, condition kv.2 = false) (to_map t)).
Proof.
  unfold retain. rewrite retain_count. cbn [snd plus].
  rewrite (rejected_perm _ _ _ (tree_values_to_map t)). unfold rejected.
  rewrite <-length_map_to_list, map_to_list_filter.
  induction (map_to_list (to_map t)) as [|[k w] l IH]; [done|].
  rewrite fmap_cons, !filter_cons. cbn [snd]. case_decide; cbn [length]; by rewrite IH.
Qed.

(** ** Properties *)

(** C19: The trie implements a finite map from segment lists to values: looking up is
    map lookup, inserting (in both variants) is map insertion and returns the
    value it replaces, removing is map deletion and returns the removed value,
    and [retain] keeps exactly the bindings that meet the condition and counts
    the others. *)
Theorem trie_refines_map {V} (t : PathTrie V) (key : list string) (v : V) (condition : V → bool) :
  get t key = to_map t !! key
  ∧ to_map (V:=V) new_trie = ∅
  ∧ insert_owned key v t = insert key v t
  ∧ (to_map (insert key v t).1, (insert key v t).2) = (<[key := v]> (to_map t), to_map t !! key)
  ∧ (to_map (remove key t).1, (remove key t).2) = (delete key (to_map t), to_map t !! key)
  ∧ to_map (retain condition t).1 = filter (λ kv, condition kv.2 = true) (to_map t)
  ∧ (retain condition t).2 = size (filter (λ kv, condition kv.2 = false) (to_map t)).
Proof.
  split_and!.
  - by rewrite to_map_lookup.
  - done.
  - apply insert_owned_eq.
  - f_equal; [|by rewrite to_map_lookup; apply insert_result].
    apply map_eq. intros k. rewrite to_map_lookup. unfold insert. rewrite insert_get.
    case_decide; subst; [by rewrite lookup_insert_eq|].
    by rewrite lookup_insert_ne, to_map_lookup.
  - pose proof (remove_get key t) as Hg. pose proof (remove_result key t) as Hr. unfold remove.
    destruct (remove_recursive key t) as [[t' r] d]. cbn [fst snd] in *.
    rewrite to_map_lookup, Hr. f_equal. apply map_eq. intros k. rewrite to_map_lookup, Hg.
    case_decide; subst; [by rewrite lookup_delete_eq|]. by rewrite lookup_delete_ne, to_map_lookup.
  - apply map_eq. intros k. rewrite to_map_lookup. unfold retain.
    change (get (retained condition t) k = filter (λ kv, condition kv.2 = true) (to_map t) !! k).
    rewrite retained_get, map_lookup_filter, to_map_lookup. unfold keep_value.
    destruct (get t k) as [w|]; cbn; [|done]. unfold guard. by destruct (condition w).
  - apply retain_size.
Qed.

(** Insertion, removal and retention never leave an empty node below the root,
    so the tree stays as small as its contents; [retain] even repairs a tree that
    has such nodes, and an emptied tree is a bare root. *)
Theorem trie_stays_trimmed {V} (t : PathTrie V) (key : list string) (v : V) (condition : V → bool) :
  trimmed (retain condition t).1
  ∧ (trimmed t → trimmed (insert key v t).1 ∧ trimmed (remove key t).1
       ∧ (to_map t = ∅ → t = new_trie)).
Proof.
  split; [apply retained_trimmed|]. intros Ht. split_and!.
  - by apply insert_trimmed.
  - pose proof (remove_trimmed key t Ht) as H. unfold remove.
    by destruct (remove_recursive key t) as [[t' r] d].
  - destruct t as [o cs]. intros Hm.
    assert (Hg : ∀ k, get (Node o cs) k = None) by (intros k; by rewrite <-to_map_lookup, Hm).
    clear Hm. specialize (Hg []) as Ho. cbn in Ho. change (o = None) in Ho. subst. unfold new_trie. f_equal.
    apply map_empty. intros f. destruct (cs !! f) as [c|] eqn:Hc; [exfalso|done].
    destruct (proj1 (trimmed_Node _ _) Ht f c Hc) as [He Htc].
    apply (empty_trie_values c Htc He). intros k. specialize (Hg (f :: k)).
    rewrite get_cons in Hg. cbn in Hg. by rewrite Hc in Hg.
Qed.

Lemma trie_stays_trimmed_witness :
  trimmed (insert ["a"; "b"] 1 (new_trie (V:=nat))).1.
Proof. exact (proj1 (proj2 (trie_stays_trimmed new_trie ["a"; "b"] 1 (λ _, true)) trimmed_new)). Defined.

(** The [Values] iterator, run with fuel for two steps per node, visits the
    value of every binding exactly once and then ends. *)
Theorem values_complete {V} (t : PathTrie V) (n fuel : nat) :
  size (to_map t) < n → 2 * tree_size t < fuel →
  ∃ vs, collect n fuel (values t) = Some vs ∧ vs ≡ₚ (map_to_list (to_map t)).*2.
Proof.
  intros Hn Hf. exists (tree_values t). split; [|apply tree_values_to_map].
  apply values_collect; [|done].
  by rewrite (Permutation_length (tree_values_to_map t)), length_fmap, length_map_to_list.
Qed.

Definition example_trie : PathTrie nat :=
  (insert ["a"; "c"] 3 (insert ["a"; "b"] 2 (insert [] 1 new_trie).1).1).1.

Lemma values_complete_witness :
  ∃ vs, collect 4 20 (values example_trie) = Some vs ∧ vs ≡ₚ (map_to_list (to_map example_trie)).*2.
Proof. apply (values_complete example_trie 4 20); vm_compute; lia. Defined.
