(* ===== verification/Routing.v ===== *)
(** * Routing policies and routing groups

    Model of [core/src/routing/groups.rs] and of the cloning iterator helpers in
    [core/src/utils/iter_extras.rs].  Delivering to a member ([tell]) is recorded:
    a routing operation returns the deliveries it made, in order.  The hasher of
    the bucket policy is a parameter, as it is a type parameter in the source. *)

From S2P Require Import Prelude Serialisation.

(** ** Iterating with clones *)

(** [TryClone] of [core/src/serialisation]. *)
Class TryClone (T : Type) := try_clone : T → res SerError T.

Section IterExtras.
Context {A T : Type}.

(** The loop of [for_each_with]: [current] is the item taken out of the iterator
    before, the list is [next] followed by the items the iterator still holds. *)
Fixpoint for_each_with_loop (clone : T → T) (t : T) (current : A) (rest : list A) : list (A * T) :=
  match rest with
  | [] => [(current, t)]
  | next :: rest => (current, clone t) :: for_each_with_loop clone t next rest
  end.

Definition for_each_with (clone : T → T) (t : T) (l : list A) : list (A * T) :=
  match l with [] => [] | current :: rest => for_each_with_loop clone t current rest end.

(** The calls of [f] made before the first failing clone, and the result. *)
Fixpoint for_each_try_with_loop `{!TryClone T} (t : T) (current : A) (rest : list A)
    : list (A * T) * res SerError () :=
  match rest with
  | [] => ([(current, t)], Ok ())
  | next :: rest =>
      match try_clone t with
      | Ok cloned =>
          let '(calls, r) := for_each_try_with_loop t next rest in ((current, cloned) :: calls, r)
      | Err e => ([], Err e)
      | Panic => ([], Panic)
      end
  end.

Definition for_each_try_with `{!TryClone T} (t : T) (l : list A) : list (A * T) * res SerError () :=
  match l with [] => ([], Ok ()) | current :: rest => for_each_try_with_loop t current rest end.

Lemma for_each_with_id (t : T) (l : list A) : for_each_with id t l = (λ a, (a, t)) <$> l.
Proof.
  destruct l as [|a l]; [done|]. cbn. revert a. induction l as [|b l IH]; intros a; cbn; [done|].
  by rewrite IH.
Qed.

Lemma for_each_try_with_Ok `{!TryClone T} (t : T) (l : list A) :
  try_clone t = Ok t → for_each_try_with t l = ((λ a, (a, t)) <$> l, Ok ()).
Proof.
  intros Hc. destruct l as [|a l]; [done|]. cbn. revert a.
  induction l as [|b l IH]; intros a; cbn; [done|]. by rewrite Hc, IH.
Qed.
End IterExtras.

(** ** The policy interface *)

(** [RoutingPolicy<Ref, M>]; [route] returns the policy after the call (its
    interior mutability) and the deliveries. *)
Class RoutingPolicy (P Ref M : Type) := {
  route : P → list Ref → M → res Empty_set (P * list (Ref * M));
  boxed_clone : P → P;
  broadcast : P → option P;
  select : P → option P;
}.

(** [Box<dyn RoutingPolicy<Ref, M>>]. *)
Record StorePolicy (Ref M : Type) := mkStorePolicy {
  policy_type : Type;
  policy_impl : RoutingPolicy policy_type Ref M;
  policy : policy_type;
}.
Arguments mkStorePolicy {Ref M policy_type policy_impl} policy.
Arguments policy_type {Ref M} _.
Arguments policy_impl {Ref M} _.
Arguments policy {Ref M} _.

(** ** Round robin *)
Record RoundRobinRouting := mkRoundRobin { offset : Z }.

Definition new_round_robin : RoundRobinRouting := mkRoundRobin 0.

(** [self.offset.fetch_add(1) % length]: a zero length panics. *)
Definition get_and_increment_index (r : RoundRobinRouting) (length : nat)
    : res Empty_set (RoundRobinRouting * nat) :=
  let old := offset r in
  let r' := mkRoundRobin (wrap 64 (old + 1)) in
  if decide (length = 0) then Panic
  else Ok (r', Z.to_nat (old mod Z.of_nat length)).

#[global] Instance RoundRobinRouting_policy {Ref M} : RoutingPolicy RoundRobinRouting Ref M := {
  route r members msg :=
    '(r', index) ← get_and_increment_index r (length members);
    member ← unwrap (members !! index);
    Ok (r', [(member, msg)]);
  boxed_clone r := mkRoundRobin (offset r);
  broadcast _ := None;
  select r := Some r;
}.

(** ** Hash buckets *)
Record FieldHashBucketRouting (M T : Type) := mkFieldHash {
  hasher_builder : T → Z;
  field_extractor : M → T;
}.
Arguments mkFieldHash {M T} _ _.
Arguments hasher_builder {M T} _ _.
Arguments field_extractor {M T} _ _.

Definition hash_field {M T} (r : FieldHashBucketRouting M T) (field : T) : Z := hasher_builder r field.
Definition hash_message {M T} (r : FieldHashBucketRouting M T) (msg : M) : Z :=
  hash_field r (field_extractor r msg).
Definition get_bucket {M T} (r : FieldHashBucketRouting M T) (msg : M) (length : nat)
    : res Empty_set nat :=
  let hash := hash_message r msg in
  if decide (length = 0) then Panic else Ok (Z.to_nat (hash mod Z.of_nat length)).

#[global] Instance FieldHashBucketRouting_policy {Ref M T} : RoutingPolicy (FieldHashBucketRouting M T) Ref M := {
  route r members msg :=
    index ← get_bucket r msg (length members);
    member ← unwrap (members !! index);
    Ok (r, [(member, msg)]);
  boxed_clone r := mkFieldHash (hasher_builder r) (field_extractor r);
  broadcast _ := None;
  select r := Some r;
}.

(** ** Broadcast *)
Record BroadcastRouting := mkBroadcast {}.

(** A failing clone ends the broadcast and is only logged. *)
#[global] Instance BroadcastRouting_policy {Ref M} `{!TryClone M} : RoutingPolicy BroadcastRouting Ref M := {
  route r members msg := Ok (r, (for_each_try_with msg members).1);
  boxed_clone r := r;
  broadcast r := Some r;
  select _ := None;
}.

(** ** Boxed policies and groups *)
Definition store_route {Ref M} (p : StorePolicy Ref M) (members : list Ref) (msg : M)
    : res Empty_set (StorePolicy Ref M * list (Ref * M)) :=
  '(q, d) ← route (RoutingPolicy := policy_impl p) (policy p) members msg;
  Ok (mkStorePolicy (policy_impl := policy_impl p) q, d).

Definition store_clone {Ref M} (p : StorePolicy Ref M) : StorePolicy Ref M :=
  mkStorePolicy (policy_impl := policy_impl p) (boxed_clone (RoutingPolicy := policy_impl p) (policy p)).
Definition store_broadcast {Ref M} (p : StorePolicy Ref M) : option (StorePolicy Ref M) :=
  (λ q, mkStorePolicy (policy_impl := policy_impl p) q) <$> broadcast (RoutingPolicy := policy_impl p) (policy p).
Definition store_select {Ref M} (p : StorePolicy Ref M) : option (StorePolicy Ref M) :=
  (λ q, mkStorePolicy (policy_impl := policy_impl p) q) <$> select (RoutingPolicy := policy_impl p) (policy p).

Record RoutingGroup (Ref M : Type) := mkGroup { members : list Ref; group_policy : StorePolicy Ref M }.
Arguments mkGroup {Ref M} _ _.
Arguments members {Ref M} _.
Arguments group_policy {Ref M} _.

Definition group_route {Ref M} (g : RoutingGroup Ref M) (msg : M)
    : res Empty_set (StorePolicy Ref M * list (Ref * M)) :=
  store_route (group_policy g) (members g) msg.

(** A sequence of messages routed one after the other through one policy. *)
Fixpoint route_all {P Ref M} `{!RoutingPolicy P Ref M} (p : P) (members : list Ref) (msgs : list M)
    : res Empty_set (P * list (Ref * M)) :=
  match msgs with
  | [] => Ok (p, [])
  | m :: msgs =>
      '(p1, d1) ← route p members m;
      '(p2, d2) ← route_all p1 members msgs;
      Ok (p2, d1 ++ d2)
  end.

(** ** Round robin in detail *)
Section RoundRobin.
Context {Ref M : Type}.
Implicit Types (ms : list Ref) (msgs : list M).

(** The member a counter value selects. *)
Definition rr_member ms (o : Z) : option Ref := ms !! Z.to_nat (o mod Z.of_nat (length ms)).

Lemma rr_index_lt ms o : ms ≠ [] → Z.to_nat (o mod Z.of_nat (length ms)) < length ms.
Proof.
  intros Hm. destruct ms as [|m ms]; [done|]. cbn [length] in *.
  pose proof (Z.mod_pos_bound o (Z.of_nat (S (length ms))) ltac:(lia)). lia.
Qed.

Lemma rr_route ms o (msg : M) : ms ≠ [] →
  ∃ m, rr_member ms o = Some m
    ∧ route (mkRoundRobin o) ms msg = Ok (mkRoundRobin (wrap 64 (o + 1)), [(m, msg)]).
Proof.
  intros Hm. destruct (lookup_lt_is_Some_2 ms _ (rr_index_lt ms o Hm)) as [m Hi].
  exists m. split; [done|]. cbn. unfold get_and_increment_index. cbn [offset].
  rewrite decide_False by (by destruct ms). cbn. by rewrite Hi.
Qed.

(** Without wrap-around the [k]-th message goes to the [(o + k)]-th member. *)
Lemma rr_route_all ms o msgs : ms ≠ [] → in_u 64 o → (o + Z.of_nat (length msgs) ≤ 2 ^ 64)%Z →
  ∃ p ds, route_all (mkRoundRobin o) ms msgs = Ok (p, ds) ∧ ds.*2 = msgs
    ∧ ∀ k d, ds !! k = Some d → rr_member ms (o + Z.of_nat k) = Some d.1.
Proof.
  intros Hm. revert o. induction msgs as [|msg msgs IH]; intros o Ho Hb.
  - exists (mkRoundRobin o), []. split_and!; [done|done|]. intros k d Hk. by rewrite lookup_nil in Hk.
  - destruct (rr_route ms o msg Hm) as (m & Hmem & Hr). cbn [route_all]. rewrite Hr.
    cbn [mbind res_bind]. cbn [length] in Hb. unfold in_u in *.
    destruct (decide (o + 1 < 2 ^ 64)%Z) as [Hlt|Hge].
    + rewrite wrap_small by (unfold in_u; lia).
      destruct (IH (o + 1)%Z) as (p & ds & -> & Hds & Hk); [lia|lia|]. cbn.
      exists p, ((m, msg) :: ds). split_and!; [done|cbn; by rewrite Hds|].
      intros [|k] d Hd; cbn in Hd; [injection Hd as <-; cbn; by rewrite Z.add_0_r|].
      rewrite <-(Hk k d Hd). f_equal. lia.
    + assert (msgs = []) as -> by (destruct msgs; [done|cbn [length] in *; lia]). cbn.
      exists (mkRoundRobin (wrap 64 (o + 1))), [(m, msg)]. split_and!; [done|done|].
      intros [|k] d Hd; cbn in Hd; [injection Hd as <-; cbn; by rewrite Z.add_0_r|].
      by destruct k.
Qed.

(** One round visits every member once, beginning at the counter. *)
Lemma rr_round ms o (rs : list Ref) : (0 ≤ o)%Z → length rs = length ms →
  (∀ j x, rs !! j = Some x → rr_member ms (o + Z.of_nat j) = Some x) →
  rs = rotate (Z.to_nat o) ms.
Proof.
  intros Ho Hl Hrs. apply list_eq. intros j. destruct (rs !! j) as [x|] eqn:Hj.
  - pose proof (lookup_lt_Some _ _ _ Hj). rewrite lookup_rotate_r by lia.
    unfold rotate_nat_add. rewrite Z2Nat.id by done. symmetry. by apply Hrs.
  - symmetry. apply lookup_ge_None. rewrite length_rotate. apply lookup_ge_None in Hj. lia.
Qed.

Lemma rotate_perm (n : nat) ms : rotate n ms ≡ₚ ms.
Proof. unfold rotate. rewrite Permutation_app_comm. by rewrite take_drop. Qed.

Lemma rr_rounds ms k o (rs : list Ref) : (0 ≤ o)%Z → length rs = k * length ms →
  (∀ j x, rs !! j = Some x → rr_member ms (o + Z.of_nat j) = Some x) →
  rs ≡ₚ mjoin (replicate k ms).
Proof.
  revert o rs. induction k as [|k IH]; intros o rs Ho Hl Hrs; cbn in *.
  - by apply nil_length_inv in Hl as ->.
  - rewrite <-(take_drop (length ms) rs). apply Permutation_app.
    + rewrite (rr_round ms o (take (length ms) rs)); [apply rotate_perm|done|rewrite length_take; lia|].
      intros j x Hj. apply Hrs. by apply lookup_take_Some in Hj as [? _].
    + apply (IH (o + Z.of_nat (length ms))%Z); [lia|rewrite length_drop; lia|].
      intros j x Hj. rewrite lookup_drop in Hj. rewrite <-(Hrs _ _ Hj). f_equal. lia.
Qed.
End RoundRobin.

(** ** Properties *)

(** Round-robin routing is fair: routing [k] full rounds of messages through a
    group that does not change delivers every message once, in order, and every
    member (by position) receives exactly [k] of them, as long as the 64-bit
    counter does not wrap around within these rounds. *)
Theorem round_robin_fair {Ref M} (o : Z) (ms : list Ref) (k : nat) (msgs : list M) :
  ms ≠ [] → in_u 64 o → length msgs = k * length ms →
  (o + Z.of_nat (length msgs) ≤ 2 ^ 64)%Z →
  ∃ p ds, route_all (mkRoundRobin o) ms msgs = Ok (p, ds)
    ∧ ds.*2 = msgs ∧ ds.*1 ≡ₚ mjoin (replicate k ms).
Proof.
  intros Hm Ho Hl Hb. destruct (rr_route_all ms o msgs Hm Ho Hb) as (p & ds & Hr & Hds & Hk).
  exists p, ds. split_and!; [done|done|]. apply (rr_rounds ms k o); [apply Ho| |].
  - rewrite length_fmap, <-Hl, <-Hds. by rewrite length_fmap.
  - intros j x Hj. apply list_lookup_fmap_Some in Hj as (d & -> & Hd). by apply Hk.
Qed.

Lemma round_robin_fair_witness :
  ∃ p ds, route_all (mkRoundRobin 5) ["a"; "b"; "c"] [10; 11; 12; 13; 14; 15] = Ok (p, ds)
    ∧ ds.*2 = [10; 11; 12; 13; 14; 15] ∧ ds.*1 ≡ₚ mjoin (replicate 2 ["a"; "b"; "c"]).
Proof. apply (round_robin_fair 5 _ 2); [done|unfold in_u; lia|done|cbn; lia]. Defined.

(** What the built-in policies do with one message: a selecting policy delivers
    it to exactly one member of a non-empty group and panics (division by zero)
    on an empty one; equal fields go to the same bucket; a broadcast whose
    message can be cloned delivers it to every member in order, and when the
    message cannot be cloned only a one-member group receives it. *)
Theorem policy_outcomes {Ref M T} `{!TryClone M} (ms : list Ref) (msg msg' : M) (o : Z)
    (h : FieldHashBucketRouting M T) :
  (ms = [] → route (mkRoundRobin o) ms msg = Panic ∧ route h ms msg = Panic)
  ∧ (ms ≠ [] → (∃ m, m ∈ ms ∧ route (mkRoundRobin o) ms msg = Ok (mkRoundRobin (wrap 64 (o + 1)), [(m, msg)]))
       ∧ ∃ m, m ∈ ms ∧ route h ms msg = Ok (h, [(m, msg)])
           ∧ (field_extractor h msg = field_extractor h msg' → route h ms msg' = Ok (h, [(m, msg')])))
  ∧ (try_clone msg = Ok msg → route mkBroadcast ms msg = Ok (mkBroadcast, (λ m, (m, msg)) <$> ms))
  ∧ (∀ e, try_clone msg = Err e →
       route mkBroadcast ms msg = Ok (mkBroadcast, match ms with [m] => [(m, msg)] | _ => [] end)).
Proof.
  split_and!.
  - by intros ->.
  - intros Hm. split.
    + destruct (rr_route ms o msg Hm) as (m & Hi & Hr). exists m. split; [|done].
      by apply list_elem_of_lookup_2 in Hi.
    + destruct (lookup_lt_is_Some_2 ms _ (rr_index_lt ms (hash_message h msg) Hm)) as [m Hi].
      assert (Hlen : length ms ≠ 0) by (by destruct ms).
      exists m. split_and!; [by apply list_elem_of_lookup_2 in Hi| |].
      * cbn. unfold get_bucket. rewrite decide_False by done. cbn. by rewrite Hi.
      * intros Hf. cbn. unfold get_bucket, hash_message in *. rewrite decide_False by done.
        cbn. rewrite <-Hf. by rewrite Hi.
  - intros Hc. cbn. by rewrite for_each_try_with_Ok.
  - intros e He. cbn. destruct ms as [|m [|m' ms]]; cbn; [done..|]. by rewrite He.
Qed.
