(* ===== verification/ActorStore.v ===== *)
(** * The actor lookup table

    Model of [ActorStore] ([core/src/dispatch/lookup/mod.rs]), of the registration
    handlers of the network dispatcher that update it
    ([network/src/dispatcher.rs]) and of the reaper that cleans it
    ([core/src/dispatch/lookup/gc.rs]).  A [DynActorRef] is a weak reference: it
    names a component, and whether it can be upgraded is a question to the
    environment at the time of the call ([alive]). *)

From S2P Require Import Prelude Extern Paths Serialisation PathTrie Routing.

Section Store.
Context {U : UuidApi} {M : Type} {C : TryClone M}.
(** [NetMessage::sender] and the default hasher of the select policy. *)
Context (sender : M → ActorPath) (default_hasher : ActorPath → Z).

Record DynActorRef := mkRef { component : Uuid }.

#[global] Instance DynActorRef_eq_dec : EqDecision DynActorRef.
Proof. solve_decision. Defined.

(** Which components have not been deallocated. *)
Definition Alive := Uuid → bool.

Definition can_upgrade_component (alive : Alive) (r : DynActorRef) : bool := alive (component r).

(** [PartialEq for DynActorRef]: dead references equal nothing, not even themselves. *)
Definition ref_eq (alive : Alive) (self other : DynActorRef) : bool :=
  alive (component self) && alive (component other)
  && bool_decide (component self = component other).

Inductive PathResolvable :=
| RPath (path : ActorPath)
| RActorId (id : Uuid)
| RAlias (alias : string)
| RSegments (path : list string)
| RSystem.

(** [FromStr for PathResolvable]. *)
Definition resolvable_from_str (value : string) : res PathParseError PathResolvable :=
  let parsed := parse_path value in
  _ ← validate_lookup_path parsed; Ok (RAlias value).

Inductive ActorTreeEntry :=
| ERef (aref : DynActorRef)
| EPolicy (policy : StorePolicy DynActorRef M).

Inductive InsertResult :=
| IRef (aref : DynActorRef)
| IPolicy (policy : StorePolicy DynActorRef M)
| INone.

Definition insert_result_is_empty (r : InsertResult) : bool :=
  match r with INone => true | _ => false end.

Definition insert_result (entry : option ActorTreeEntry) : InsertResult :=
  match entry with
  | Some (ERef aref) => IRef aref
  | Some (EPolicy policy) => IPolicy policy
  | None => INone
  end.

(** Why a lookup failed; the source formats these as strings. *)
Inductive LookupError :=
| ExpectedPolicy (marker : ascii) (path : list string)
| ExpectedBroadcast (marker : ascii) (path : list string)
| ExpectedSelect (marker : ascii) (path : list string).

Inductive LookupResult :=
| LRef (aref : DynActorRef)
| LGroup (group : RoutingGroup DynActorRef M)
| LNone
| LErr (e : LookupError).

Definition lookup_result_is_empty (r : LookupResult) : bool :=
  match r with LNone => true | _ => false end.

Definition lookup_result (entry : option DynActorRef) : LookupResult :=
  match entry with Some aref => LRef aref | None => LNone end.

Record ActorStore := mkStore {
  uuid_map : gmap Uuid DynActorRef;
  name_map : PathTrie ActorTreeEntry;
  deadletter : option DynActorRef;
}.

Definition new_store : ActorStore := mkStore ∅ new_trie None.

Definition insert_uuid (s : ActorStore) (key : Uuid) (actor : DynActorRef) : ActorStore * InsertResult :=
  (mkStore (<[key := actor]> (uuid_map s)) (name_map s) (deadletter s),
   insert_result (ERef <$> uuid_map s !! key)).

Definition insert_name (s : ActorStore) (path : list string) (entry : ActorTreeEntry)
    : ActorStore * InsertResult :=
  let '(t, prev) := insert_owned path entry (name_map s) in
  (mkStore (uuid_map s) t (deadletter s), insert_result prev).

Definition store_insert (s : ActorStore) (path : PathResolvable) (actor : DynActorRef)
    : res PathParseError (ActorStore * InsertResult) :=
  match path with
  | RPath (Unique up) => Ok (insert_uuid s (up_id up) actor)
  | RPath (Named np) => Ok (insert_name s (np_path np) (ERef actor))
  | RAlias alias =>
      let path := parse_path alias in
      _ ← validate_insert_path path;
      Ok (insert_name s path (ERef actor))
  | RSegments path =>
      _ ← validate_insert_path path;
      Ok (insert_name s path (ERef actor))
  | RActorId uuid => Ok (insert_uuid s uuid actor)
  | RSystem =>
      Ok (mkStore (uuid_map s) (name_map s) (Some actor), insert_result (ERef <$> deadletter s))
  end.

Definition set_routing_policy (s : ActorStore) (path : list string) (policy : StorePolicy DynActorRef M)
    : res PathParseError (ActorStore * InsertResult) :=
  _ ← validate_insert_path path;
  Ok (insert_name s path (EPolicy policy)).

(** [contains] and [get_by_named_path] check with [debug_assert!] that their paths are valid for a lookup; the model
    is that of a release build, where the checks are absent.  The dispatchers validate a path before they ask
    ([resolve_path]). *)
Definition contains (s : ActorStore) (path : PathResolvable) : bool :=
  match path with
  | RPath (Unique up) => bool_decide (is_Some (uuid_map s !! up_id up))
  | RPath (Named np) => bool_decide (is_Some (get (name_map s) (np_path np)))
  | RAlias alias => bool_decide (is_Some (get (name_map s) (parse_path alias)))
  | RSegments path => bool_decide (is_Some (get (name_map s) path))
  | RActorId uuid => bool_decide (is_Some (uuid_map s !! uuid))
  | RSystem => bool_decide (is_Some (deadletter s))
  end.

Definition get_by_uuid (s : ActorStore) (id : Uuid) : option DynActorRef := uuid_map s !! id.

(** The default policies of the two markers. *)
Definition DEFAULT_BROADCAST_POLICY : StorePolicy DynActorRef M := mkStorePolicy mkBroadcast.
Definition DEFAULT_SELECT_POLICY : StorePolicy DynActorRef M :=
  mkStorePolicy (mkFieldHash default_hasher sender).

(** [node.values().flat_map(..).collect()]. *)
Definition entry_ref (e : ActorTreeEntry) : option DynActorRef :=
  match e with ERef aref => Some aref | EPolicy _ => None end.
Definition group_members (node : PathTrie ActorTreeEntry) : list DynActorRef :=
  omap entry_ref (tree_values node).

(** [path\[last_index\].chars().next().expect("Should not be empty")]. *)
Definition first_char (s : string) : res Empty_set ascii :=
  match s with EmptyString => Panic | String c _ => Ok c end.

(** The path to look up and the marker, if the last segment starts with one. *)
Definition split_marker (path : list string) : res Empty_set (list string * option ascii) :=
  let last_index := length path - 1 in
  segment ← unwrap (path !! last_index);
  c ← first_char segment;
  Ok (if decide (c = BROADCAST_MARKER) then (take last_index path, Some BROADCAST_MARKER)
      else if decide (c = SELECT_MARKER) then (take last_index path, Some SELECT_MARKER)
      else (path, None)).

(** The answer for a node with a policy. *)
Definition policy_lookup (path : list string) (marker_opt : option ascii)
    (children : list DynActorRef) (policy : StorePolicy DynActorRef M) : res Empty_set LookupResult :=
  match marker_opt with
  | Some marker =>
      if decide (marker = BROADCAST_MARKER) then
        Ok match store_broadcast policy with
           | Some broadcast_policy => LGroup (mkGroup children broadcast_policy)
           | None => LErr (ExpectedBroadcast marker path)
           end
      else if decide (marker = SELECT_MARKER) then
        Ok match store_select policy with
           | Some select_policy => LGroup (mkGroup children select_policy)
           | None => LErr (ExpectedSelect marker path)
           end
      else Panic
  | None => Ok (LGroup (mkGroup children policy))
  end.

(** The answer for a node without a value: implicit routing, a build feature. *)
Definition implicit_lookup (implicit_routes : bool) (marker_opt : option ascii)
    (node : PathTrie ActorTreeEntry) : res Empty_set LookupResult :=
  match marker_opt with
  | Some marker =>
      if implicit_routes then
        policy ← (if decide (marker = BROADCAST_MARKER) then Ok DEFAULT_BROADCAST_POLICY
                  else if decide (marker = SELECT_MARKER) then Ok DEFAULT_SELECT_POLICY
                  else Panic);
        Ok (LGroup (mkGroup (group_members node) policy))
      else Ok LNone
  | None => Ok LNone
  end.

Definition get_by_named_path (implicit_routes : bool) (s : ActorStore) (path : list string)
    : res Empty_set LookupResult :=
  if decide (path = []) then Ok (lookup_result (deadletter s))
  else
    '(lookup_path, marker_opt) ← split_marker path;
    match get_node (name_map s) lookup_path with
    | Some node =>
        match node_value node with
        | Some (ERef aref) =>
            Ok match marker_opt with
               | Some marker => LErr (ExpectedPolicy marker path)
               | None => LRef aref
               end
        | Some (EPolicy policy) => policy_lookup path marker_opt (group_members node) policy
        | None => implicit_lookup implicit_routes marker_opt node
        end
    | None => Ok LNone
    end.

Definition get_by_actor_path (implicit_routes : bool) (s : ActorStore) (path : ActorPath)
    : res Empty_set LookupResult :=
  match path with
  | Unique up =>
      Ok match get_by_uuid s (up_id up) with Some aref => LRef aref | None => LNone end
  | Named np => get_by_named_path implicit_routes s (np_path np)
  end.

(** ** Removal *)

(** Collect the keys of the matching records, then remove them one by one. *)
Definition remove_matching (P : DynActorRef → bool) (m : gmap Uuid DynActorRef)
    : gmap Uuid DynActorRef * nat :=
  let matches := (filter (λ rec, P rec.2 = true) (map_to_list m)).*1 in
  (foldl (λ m k, delete k m) m matches, length matches).

Definition remove_from_uuid_map (alive : Alive) (s : ActorStore) (actor : DynActorRef) : ActorStore * nat :=
  let '(m, existed) := remove_matching (λ r, ref_eq alive r actor) (uuid_map s) in
  (mkStore m (name_map s) (deadletter s), existed).

Definition remove_from_name_map (alive : Alive) (s : ActorStore) (actor : DynActorRef) : ActorStore * nat :=
  let '(t, n) := retain (λ entry, match entry with
                                  | ERef other_actor => negb (ref_eq alive actor other_actor)
                                  | EPolicy _ => true
                                  end) (name_map s) in
  (mkStore (uuid_map s) t (deadletter s), n).

Definition store_remove (alive : Alive) (s : ActorStore) (actor : DynActorRef) : ActorStore * nat :=
  let '(s, n1) := remove_from_uuid_map alive s actor in
  let '(s, n2) := remove_from_name_map alive s actor in
  (s, n1 + n2).

Definition remove_by_uuid (s : ActorStore) (id : Uuid) : ActorStore * bool :=
  (mkStore (delete id (uuid_map s)) (name_map s) (deadletter s), bool_decide (is_Some (uuid_map s !! id))).

Definition remove_by_named_path (s : ActorStore) (path : list string) : ActorStore * bool :=
  let existed := bool_decide (is_Some (get (name_map s) path)) in
  (mkStore (uuid_map s) (remove path (name_map s)).1 (deadletter s), existed).

Definition remove_deallocated_entries (alive : Alive) (s : ActorStore) : ActorStore * nat :=
  let '(t, n1) := retain (λ entry, match entry with
                                   | ERef actor => can_upgrade_component alive actor
                                   | EPolicy _ => true
                                   end) (name_map s) in
  let '(m, n2) := remove_matching (λ actor, negb (can_upgrade_component alive actor)) (uuid_map s) in
  (mkStore m t (deadletter s), n1 + n2).

Definition cleanup := remove_deallocated_entries.

(** ** Registration by the dispatcher *)
Inductive RegistrationError :=
| DuplicateEntry
| Unsupported
| InvalidPath (e : PathParseError).

Definition deadletter_path (system_path : SystemPath) : ActorPath :=
  Named (MkNamedPath system_path []).

Definition resolve_path (system_path : SystemPath) (resolvable : PathResolvable)
    : res PathParseError ActorPath :=
  match resolvable with
  | RPath actor_path => Ok actor_path
  | RAlias alias => p ← into_named_with_string system_path alias; Ok (Named p)
  | RSegments segments => p ← into_named_with_vec system_path segments; Ok (Named p)
  | RActorId id => Ok (Unique (into_unique system_path id))
  | RSystem => Ok (deadletter_path system_path)
  end.

(** The table after the handler and the result the promise is fulfilled with. *)
Definition register_actor (system_path : SystemPath) (s : ActorStore) (path : PathResolvable)
    (actor : DynActorRef) (update : bool) : ActorStore * res RegistrationError ActorPath :=
  match resolve_path system_path path with
  | Ok ap =>
      if contains s path && negb update then (s, Err DuplicateEntry)
      else match store_insert s path actor with
           | Ok (next, _) => (next, Ok ap)
           | Err e => (s, Err (InvalidPath e))
           | Panic => (s, Panic)
           end
  | Err e => (s, Err (InvalidPath e))
  | Panic => (s, Panic)
  end.

Definition register_policy (system_path : SystemPath) (s : ActorStore) (path : list string)
    (policy : StorePolicy DynActorRef M) (update : bool) : ActorStore * res RegistrationError ActorPath :=
  match resolve_path system_path (RSegments path) with
  | Ok ap =>
      if contains s (RSegments path) && negb update then (s, Err DuplicateEntry)
      else match set_routing_policy s path policy with
           | Ok (next, _) => (next, Ok ap)
           | Err e => (s, Err (InvalidPath e))
           | Panic => (s, Panic)
           end
  | Err e => (s, Err (InvalidPath e))
  | Panic => (s, Panic)
  end.
End Store.

(** ** The reaper *)
Inductive FeedbackAlgorithm := Aimd | Mimd.

Record UpdateStrategy := mkStrategy {
  curr : Z; st_incr : Z; st_decr : Z; st_min : Z; st_max : Z; algo : FeedbackAlgorithm;
}.

Definition new_strategy (curr min max incr decr : Z) (algo : FeedbackAlgorithm) : UpdateStrategy :=
  mkStrategy curr incr decr min max algo.

Definition with_curr (u : UpdateStrategy) (c : Z) : UpdateStrategy :=
  mkStrategy c (st_incr u) (st_decr u) (st_min u) (st_max u) (algo u).

(** [u64] arithmetic with overflow checks. *)
Definition check_u64 {E} (z : Z) : res E Z := if decide (in_u 64 z) then Ok z else Panic.

Definition strategy_incr (u : UpdateStrategy) : res Empty_set UpdateStrategy :=
  c ← check_u64 (match algo u with Aimd => curr u + st_incr u | Mimd => curr u * st_incr u end)%Z;
  Ok (with_curr u (Z.min c (st_max u))).

Definition strategy_decr (u : UpdateStrategy) : res Empty_set UpdateStrategy :=
  if decide (st_decr u = 0%Z) then Panic
  else Ok (with_curr u (Z.max (curr u / st_decr u) (st_min u))).

Record ActorRefReaper := mkReaper { scheduled : bool; strategy : UpdateStrategy }.

Definition INITIAL_INTERVAL_MS : Z := 500.
Definition MIN_INTERVAL_MS : Z := 20.
Definition MAX_INTERVAL_MS : Z := 5000.
Definition ADDITIVE_INCREASE : Z := 500.
Definition MULTIPLICATIVE_DECREASE_DEN : Z := 2.

Definition new_reaper (algorithm : FeedbackAlgorithm) : ActorRefReaper :=
  mkReaper false (new_strategy INITIAL_INTERVAL_MS MIN_INTERVAL_MS MAX_INTERVAL_MS
                    ADDITIVE_INCREASE MULTIPLICATIVE_DECREASE_DEN algorithm).

(** [ActorRefReaper::from_config]: the algorithm named in the configuration. *)
Definition reaper_from_config (value : option string) : res Empty_set ActorRefReaper :=
  match value with
  | Some s =>
      if decide (s = "AIMD") then Ok (new_reaper Aimd)
      else if decide (s = "MIMD") then Ok (new_reaper Mimd)
      else Panic
  | None => Ok (new_reaper Aimd)
  end.

Section Reaper.
Context {U : UuidApi} {M : Type}.

(** [schedule_reaper]: the table, the reaper and the next wake-up. *)
Definition schedule_reaper (alive : Alive) (s : ActorStore (M:=M)) (r : ActorRefReaper)
    : res Empty_set (ActorStore (M:=M) * ActorRefReaper * Z) :=
  if negb (scheduled r) then
    let r := mkReaper true (strategy r) in Ok (s, r, curr (strategy r))
  else
    let '(s, num_reaped) := cleanup alive s in
    st ← (if decide (num_reaped = 0) then strategy_incr (strategy r) else strategy_decr (strategy r));
    let r := mkReaper (scheduled r) st in
    Ok (s, r, curr st).
End Reaper.

(** ** Abstract view: one map with three kinds of keys *)
Section View.
Context {U : UuidApi} {M : Type}.
Implicit Types (s : ActorStore (M:=M)) (path : PathResolvable).

Inductive Key := KUuid (id : Uuid) | KName (path : list string) | KDeadletter.

#[global] Instance Key_eq_dec : EqDecision Key.
Proof. solve_decision. Defined.

Definition view s (k : Key) : option (ActorTreeEntry (M:=M)) :=
  match k with
  | KUuid id => ERef <$> uuid_map s !! id
  | KName p => to_map (name_map s) !! p
  | KDeadletter => ERef <$> deadletter s
  end.

(** The key a resolvable stands for. *)
Definition key_of path : Key :=
  match path with
  | RPath (Unique up) => KUuid (up_id up)
  | RPath (Named np) => KName (np_path np)
  | RAlias alias => KName (parse_path alias)
  | RSegments p => KName p
  | RActorId id => KUuid id
  | RSystem => KDeadletter
  end.

(** What [insert] validates: aliases and segments only. *)
Definition validated path : res PathParseError () :=
  match path with
  | RAlias alias => validate_insert_path (parse_path alias)
  | RSegments p => validate_insert_path p
  | _ => Ok ()
  end.

Definition point_update (f : Key → option (ActorTreeEntry (M:=M))) k e : Key → option ActorTreeEntry :=
  λ k', if decide (k = k') then e else f k'.

Lemma insert_uuid_view s id a :
  (∀ k, view (insert_uuid s id a).1 k = point_update (view s) (KUuid id) (Some (ERef a)) k)
  ∧ (insert_uuid s id a).2 = insert_result (view s (KUuid id)).
Proof.
  split; [|done]. intros [id'|p|]; unfold point_update; cbn; try done.
  case_decide as Hk; [injection Hk as <-; by rewrite lookup_insert_eq|].
  rewrite lookup_insert_ne; congruence.
Qed.

Lemma insert_name_view s p e :
  (∀ k, view (insert_name s p e).1 k = point_update (view s) (KName p) (Some e) k)
  ∧ (insert_name s p e).2 = insert_result (view s (KName p)).
Proof.
  unfold insert_name. rewrite insert_owned_eq. pose proof (insert_get p e (name_map s)) as Hg.
  pose proof (PathTrie.insert_result p e (name_map s)) as Hr.
  destruct (insert_recursive p e (name_map s)) as [t prev]. cbn [fst snd] in *. subst prev. split.
  - intros [id|p'|]; unfold point_update; cbn; try done. rewrite !to_map_lookup, Hg.
    repeat case_decide; congruence.
  - cbn. by rewrite to_map_lookup.
Qed.

Lemma store_insert_view s path a :
  match validated path with
  | Ok _ => ∃ s', store_insert s path a = Ok (s', insert_result (view s (key_of path)))
      ∧ ∀ k, view s' k = point_update (view s) (key_of path) (Some (ERef a)) k
  | Err e => store_insert s path a = Err e
  | Panic => store_insert s path a = Panic
  end.
Proof.
  pose proof (insert_uuid_view s) as Hu. pose proof (insert_name_view s) as Hn.
  destruct path as [[up|np]|id|alias|p|]; cbn [validated store_insert key_of].
  - destruct (Hu (up_id up) a) as [Hv Hr]. destruct (insert_uuid s (up_id up) a) as [s' r].
    cbn in *. subst. eauto.
  - destruct (Hn (np_path np) (ERef a)) as [Hv Hr]. destruct (insert_name s (np_path np) (ERef a)) as [s' r].
    cbn in *. subst. eauto.
  - destruct (Hu id a) as [Hv Hr]. destruct (insert_uuid s id a) as [s' r]. cbn in *. subst. eauto.
  - destruct (validate_insert_path (parse_path alias)) as [[]| |]; cbn; [|done..].
    destruct (Hn (parse_path alias) (ERef a)) as [Hv Hr].
    destruct (insert_name s (parse_path alias) (ERef a)) as [s' r]. cbn in *. subst. eauto.
  - destruct (validate_insert_path p) as [[]| |]; cbn; [|done..].
    destruct (Hn p (ERef a)) as [Hv Hr]. destruct (insert_name s p (ERef a)) as [s' r].
    cbn in *. subst. eauto.
  - eexists. split; [done|]. intros [id|p|]; unfold point_update; by cbn.
Qed.

Lemma set_routing_policy_view s p pol :
  match validate_insert_path p with
  | Ok _ => ∃ s', set_routing_policy s p pol = Ok (s', insert_result (view s (KName p)))
      ∧ ∀ k, view s' k = point_update (view s) (KName p) (Some (EPolicy pol)) k
  | Err e => set_routing_policy s p pol = Err e
  | Panic => set_routing_policy s p pol = Panic
  end.
Proof.
  unfold set_routing_policy. destruct (validate_insert_path p) as [[]| |]; cbn; [|done..].
  destruct (insert_name_view s p (EPolicy pol)) as [Hv Hr].
  destruct (insert_name s p (EPolicy pol)) as [s' r]. cbn in *. subst. eauto.
Qed.

Lemma contains_view s path : contains s path = bool_decide (is_Some (view s (key_of path))).
Proof.
  destruct path as [[up|np]|id|alias|p|]; cbn; rewrite ?to_map_lookup;
    try done; apply bool_decide_ext; by rewrite fmap_is_Some.
Qed.

(** ** Removal *)
Lemma foldl_delete_lookup (l : list Uuid) (m : gmap Uuid DynActorRef) k :
  foldl (λ m k, delete k m) m l !! k = if decide (k ∈ l) then None else m !! k.
Proof.
  revert m. induction l as [|x l IH]; intros m; cbn.
  - rewrite decide_False; [done|apply not_elem_of_nil].
  - rewrite IH. destruct (decide (k ∈ l)).
    + by rewrite decide_True by by right.
    + destruct (decide (k = x)) as [->|].
      * rewrite lookup_delete_eq. by rewrite decide_True by by left.
      * rewrite lookup_delete_ne by done. rewrite decide_False; [done|].
        rewrite elem_of_cons. naive_solver.
Qed.

Lemma remove_matching_spec P (m : gmap Uuid DynActorRef) :
  (remove_matching P m).1 = filter (λ kv, P kv.2 = false) m
  ∧ (remove_matching P m).2 = size (filter (λ kv, P kv.2 = true) m).
Proof.
  unfold remove_matching. cbn. split.
  - apply map_eq. intros k. rewrite foldl_delete_lookup, map_lookup_filter.
    set (ks := (filter _ _).*1). destruct (m !! k) as [r|] eqn:Hk; cbn.
    + assert (k ∈ ks ↔ P r = true) as Hks.
      { unfold ks. rewrite list_elem_of_fmap. split.
        - intros ([k' r'] & -> & Hin). rewrite list_elem_of_filter, elem_of_map_to_list in Hin.
          cbn in *. destruct Hin as [HP Hm]. by simplify_eq.
        - intros HP. exists (k, r). by rewrite list_elem_of_filter, elem_of_map_to_list. }
      unfold guard. case_decide as Hin; case_decide as HP; try done.
      * apply Hks in Hin. congruence.
      * destruct (P r); [|done]. by destruct Hin; apply Hks.
    + by case_decide.
  - by rewrite length_fmap, <-length_map_to_list, map_to_list_filter.
Qed.

(** Keeping the entries of a store that meet a condition, dead letters aside. *)
Definition keep_view (P : ActorTreeEntry (M:=M) → bool) (k : Key) (o : option (ActorTreeEntry (M:=M))) :=
  match k with
  | KDeadletter => o
  | _ => e ← o; if P e then Some e else None
  end.

(** How many entries of the two maps do not meet a condition. *)
Definition dropped (P : ActorTreeEntry (M:=M) → bool) s : nat :=
  size (filter (λ kv, P kv.2 = false) (to_map (name_map s)))
  + size (filter (λ kv, P (ERef kv.2) = false) (uuid_map s)).

Lemma retain_name_view P s k :
  view (mkStore (filter (λ kv, P (ERef kv.2) = true) (uuid_map s))
                (retain P (name_map s)).1 (deadletter s)) k = keep_view P k (view s k).
Proof.
  destruct k as [id|p|]; cbn; [| |done].
  - rewrite map_lookup_filter. destruct (uuid_map s !! id) as [r|]; cbn; [|done].
    unfold guard. by destruct (P (ERef r)).
  - rewrite !to_map_lookup. unfold retain.
    fold (retained P (name_map s)). by rewrite retained_get.
Qed.

Lemma retain_count_view P s :
  (retain P (name_map s)).2 = size (filter (λ kv, P kv.2 = false) (to_map (name_map s))).
Proof. exact (retain_size P (name_map s)). Qed.

Definition not_ref (alive : Alive) (a : DynActorRef) (e : ActorTreeEntry (M:=M)) : bool :=
  match e with ERef r => negb (ref_eq alive a r) | EPolicy _ => true end.
Definition ref_alive (alive : Alive) (e : ActorTreeEntry (M:=M)) : bool :=
  match e with ERef r => can_upgrade_component alive r | EPolicy _ => true end.

Lemma ref_eq_sym alive a b : ref_eq alive a b = ref_eq alive b a.
Proof.
  unfold ref_eq. rewrite (andb_comm (alive (component a))). f_equal. by apply bool_decide_ext.
Qed.

Lemma store_remove_view alive s a :
  (∀ k, view (store_remove alive s a).1 k = keep_view (not_ref alive a) k (view s k))
  ∧ (store_remove alive s a).2 = dropped (not_ref alive a) s.
Proof.
  unfold store_remove, remove_from_uuid_map, remove_from_name_map.
  destruct (remove_matching_spec (λ r, ref_eq alive r a) (uuid_map s)) as [H1 H2].
  destruct (remove_matching _ (uuid_map s)) as [m n1]. cbn [fst snd name_map uuid_map deadletter] in *.
  change (λ entry : ActorTreeEntry, match entry with
            | ERef other_actor => negb (ref_eq alive a other_actor) | EPolicy _ => true end)
    with (not_ref alive a).
  pose proof (retain_name_view (not_ref alive a) s) as Hv.
  pose proof (retain_count_view (not_ref alive a) s) as Hc.
  destruct (retain (not_ref alive a) (name_map s)) as [t n2]. cbn [fst snd] in *. subst m n1 n2. split.
  - intros k. rewrite <-Hv. do 2 f_equal. apply map_filter_ext. intros id r _. cbn.
    rewrite ref_eq_sym. by destruct (ref_eq alive a r).
  - unfold dropped. rewrite Nat.add_comm. do 2 f_equal. apply map_filter_ext. intros id r _. cbn.
    rewrite ref_eq_sym. by destruct (ref_eq alive a r).
Qed.

Lemma cleanup_view alive s :
  (∀ k, view (cleanup alive s).1 k = keep_view (ref_alive alive) k (view s k))
  ∧ (cleanup alive s).2 = dropped (ref_alive alive) s.
Proof.
  unfold cleanup, remove_deallocated_entries.
  change (λ entry : ActorTreeEntry, match entry with
            | ERef actor => can_upgrade_component alive actor | EPolicy _ => true end)
    with (ref_alive alive).
  destruct (remove_matching_spec (λ r, negb (can_upgrade_component alive r)) (uuid_map s)) as [H1 H2].
  destruct (remove_matching _ (uuid_map s)) as [m n1]. cbn [fst snd] in *.
  pose proof (retain_name_view (ref_alive alive) s) as Hv.
  pose proof (retain_count_view (ref_alive alive) s) as Hc.
  destruct (retain (ref_alive alive) (name_map s)) as [t n2]. cbn [fst snd] in *. subst m n1 n2. split.
  - intros k. rewrite <-Hv. do 2 f_equal. apply map_filter_ext. intros id r _. cbn.
    by destruct (can_upgrade_component alive r).
  - unfold dropped. do 2 f_equal. apply map_filter_ext. intros id r _. cbn.
    by destruct (can_upgrade_component alive r).
Qed.
End View.

(** ** Validation never panics *)
Lemma lookup_chars_no_panic b n x : lookup_chars b n x ≠ Panic.
Proof. induction x as [|c x IH]; cbn; [done|]. repeat case_decide; repeat case_match; done. Qed.

Lemma lookup_segments_no_panic i n l : lookup_segments i n l ≠ Panic.
Proof.
  revert i. induction l as [|x l IH]; intros i; cbn; [done|]. unfold validate_lookup_path_segment.
  case_decide; [done|]. pose proof (lookup_chars_no_panic (bool_decide (i + 1 = n)) (String.length x) x).
  destruct (lookup_chars _ _ x); cbn; [apply IH|done..].
Qed.

Lemma validate_lookup_no_panic l : validate_lookup_path l ≠ Panic.
Proof. apply lookup_segments_no_panic. Qed.

Lemma insert_chars_no_panic x : insert_chars x ≠ Panic.
Proof. induction x as [|c x IH]; cbn; [done|]. by repeat case_decide. Qed.

Lemma validate_insert_no_panic l : validate_insert_path l ≠ Panic.
Proof.
  induction l as [|x l IH]; cbn; [done|]. unfold validate_insert_path_segment. case_decide; [done|].
  pose proof (insert_chars_no_panic x). by destruct (insert_chars x).
Qed.

Lemma validated_no_panic {U : UuidApi} path : validated path ≠ Panic.
Proof. destruct path; cbn; try done; apply validate_insert_no_panic. Qed.

(** ** Named lookup *)
Section Lookup.
Context {U : UuidApi} {M : Type} {C : TryClone M}.
Context (sender : M → ActorPath) (default_hasher : ActorPath → Z) (implicit_routes : bool).
Implicit Types (s : ActorStore (M:=M)).

Local Abbreviation lookup_named := (get_by_named_path sender default_hasher implicit_routes).
Local Abbreviation lookup_path := (get_by_actor_path sender default_hasher implicit_routes).

(** The references registered at or below a path. *)
Definition refs_below s (p : list string) : list DynActorRef :=
  omap entry_ref (map_to_list (below p (to_map (name_map s)))).*2.

Lemma split_marker_last p c x :
  split_marker (p ++ [String c x]) =
    Ok (if decide (c = BROADCAST_MARKER) then (p, Some BROADCAST_MARKER)
        else if decide (c = SELECT_MARKER) then (p, Some SELECT_MARKER)
        else (p ++ [String c x], None)).
Proof.
  unfold split_marker. rewrite length_app. cbn [length]. rewrite Nat.add_sub.
  rewrite list_lookup_middle by done. cbn. by rewrite take_app_length.
Qed.

Lemma split_marker_broadcast p : split_marker (p ++ ["*"]) = Ok (p, Some BROADCAST_MARKER).
Proof. by rewrite split_marker_last. Qed.

Lemma split_marker_select p : split_marker (p ++ ["?"]) = Ok (p, Some SELECT_MARKER).
Proof. by rewrite split_marker_last. Qed.

Lemma split_marker_valid path : path ≠ [] → lookup_path_ok path →
  ∃ p m, split_marker path = Ok (p, m)
    ∧ (m = None ∧ p = path ∨ (m = Some BROADCAST_MARKER ∨ m = Some SELECT_MARKER)).
Proof.
  intros Hne Hok. destruct (exists_last Hne) as (p & x & ->).
  assert (x ≠ "") as Hx.
  { eapply (Hok (length p)). by rewrite list_lookup_middle. }
  destruct x as [|c x]; [done|]. rewrite split_marker_last. repeat case_decide; eauto 10.
Qed.

Lemma insert_path_last p : p ≠ [] → validate_insert_path p = Ok () → split_marker p = Ok (p, None).
Proof.
  intros Hne Hv. destruct (exists_last Hne) as (q & x & ->).
  apply validate_insert_path_Ok in Hv. rewrite Forall_app, Forall_singleton in Hv.
  destruct Hv as (_ & Hx & _ & _ & Hb & Hs). destruct x as [|c x]; [done|].
  rewrite split_marker_last. unfold no_char in *. cbn in *. rewrite not_elem_of_cons in Hb, Hs.
  rewrite !decide_False by naive_solver. done.
Qed.

Lemma named_view_node s p e : to_map (name_map s) !! p = Some e →
  ∃ node, get_node (name_map s) p = Some node ∧ node_value node = Some e
    ∧ group_members node ≡ₚ refs_below s p.
Proof.
  rewrite to_map_lookup. unfold get. intros (node & Hn & Hv)%bind_Some.
  exists node. split_and!; [done|done|]. unfold group_members, refs_below.
  by rewrite (subtree_values _ _ _ Hn).
Qed.

Lemma lookup_ref s p a : p ≠ [] → validate_insert_path p = Ok () →
  view s (KName p) = Some (ERef a) → lookup_named s p = Ok (LRef a).
Proof.
  intros Hne Hp Hv. destruct (named_view_node s p _ Hv) as (node & Hn & Hnv & _).
  unfold get_by_named_path. rewrite decide_False by done. rewrite insert_path_last by done.
  cbn. by rewrite Hn, Hnv.
Qed.

Lemma validate_parse_nonempty alias : parse_path alias ≠ [].
Proof. unfold parse_path. destruct alias as [|c x]; cbn; [done|]. case_decide; [done|]. by destruct (split_char _ x). Qed.

Lemma store_insert_Ok s path a s' r : store_insert s path a = Ok (s', r) →
  validated path = Ok () ∧ ∀ k, view s' k = point_update (view s) (key_of path) (Some (ERef a)) k.
Proof.
  intros Hi. pose proof (store_insert_view s path a) as Hs. rewrite Hi in Hs.
  destruct (validated path) as [[]| |]; [|done..]. destruct Hs as (s'' & [= -> ->] & Hv). done.
Qed.

Lemma resolve_path_key sys path ap : resolve_path sys path = Ok ap →
  match ap with
  | Unique up => key_of path = KUuid (up_id up)
  | Named np => key_of path = KName (np_path np) ∨ key_of path = KDeadletter ∧ np_path np = []
  end.
Proof.
  destruct path as [[up|np]|id|alias|p|]; cbn; intros H.
  - by injection H as <-.
  - injection H as <-. by left.
  - by injection H as <-.
  - apply bind_Ok in H as (np & Hn & [= <-]). unfold into_named_with_string in Hn.
    apply bind_Ok in Hn as (? & _ & [= <-]). by left.
  - apply bind_Ok in H as (np & Hn & [= <-]). unfold into_named_with_vec in Hn.
    apply bind_Ok in Hn as (? & _ & [= <-]). by left.
  - injection H as <-. right. done.
Qed.

(** The members of a group do not depend on its policy. *)
Lemma group_members_policy (o : option (StorePolicy DynActorRef M)) cs :
  group_members (Node (EPolicy <$> o) cs) = omap entry_ref (list_values (map_to_list cs)).
Proof. unfold group_members. rewrite tree_values_Node, omap_app. by destruct o. Qed.

(** Registering changes exactly the key of the path. *)
Lemma register_actor_Ok sys s path a update s' ap : register_actor sys s path a update = (s', Ok ap) →
  resolve_path sys path = Ok ap ∧ validated path = Ok ()
  ∧ ∀ k, view s' k = point_update (view s) (key_of path) (Some (ERef a)) k.
Proof.
  unfold register_actor. destruct (resolve_path sys path) as [ap'| |] eqn:Hres; [|done..].
  destruct (contains s path && negb update); [done|].
  destruct (store_insert s path a) as [[s1 r]| |] eqn:Hi; [|done..]. intros [= <- <-].
  apply store_insert_Ok in Hi as [Hval Hv]. done.
Qed.

(** A reference stored under the key of a path is found under the actor path it
    resolves to. *)
Lemma resolved_lookup sys s path ap a : resolve_path sys path = Ok ap → validated path = Ok () →
  key_of path ≠ KName [] → (∀ np, path = RPath (Named np) → validate_insert_path (np_path np) = Ok ()) →
  view s (key_of path) = Some (ERef a) → lookup_path s ap = Ok (LRef a).
Proof.
  intros Hres Hval Hne Hnp Hk. pose proof (resolve_path_key _ _ _ Hres) as Hkey. destruct ap as [up|np]; cbn.
  - rewrite Hkey in Hk. cbn in Hk. unfold get_by_uuid.
    destruct (uuid_map s !! up_id up) as [a'|]; cbn in Hk; by simplify_eq.
  - destruct Hkey as [Hkey|[Hkey Hemp]]; rewrite Hkey in *.
    + apply lookup_ref; [by intros Hp; rewrite Hp in Hne| |done].
      destruct path as [[up|np']|id|alias|p|]; try done; cbn in Hkey; injection Hkey as <-; [|done..].
      by apply Hnp.
    + rewrite Hemp. cbn in Hk. unfold get_by_named_path. rewrite decide_True by done.
      destruct (deadletter s) as [a'|]; cbn in Hk; by simplify_eq.
Qed.
End Lookup.

(** ** Properties *)

(** C10: The actor store implements one map over unique ids, named paths and the dead
    letter slot: on every kind of path [insert] and [set_routing_policy] either
    report the validation error or update exactly the key of the path and
    return the entry that was there, [contains] and [get_by_uuid] read the map,
    and the two keyed removals delete one key and report whether it existed. *)
Theorem store_refines_map {U : UuidApi} {M} (s : ActorStore (M:=M)) (path : PathResolvable)
    (a : DynActorRef) (p : list string) (pol : StorePolicy DynActorRef M) (id : Uuid) :
  match validated path with
  | Ok _ => ∃ s', store_insert s path a = Ok (s', insert_result (view s (key_of path)))
      ∧ ∀ k, view s' k = point_update (view s) (key_of path) (Some (ERef a)) k
  | Err e => store_insert s path a = Err e
  | Panic => store_insert s path a = Panic
  end
  ∧ match validate_insert_path p with
    | Ok _ => ∃ s', set_routing_policy s p pol = Ok (s', insert_result (view s (KName p)))
        ∧ ∀ k, view s' k = point_update (view s) (KName p) (Some (EPolicy pol)) k
    | Err e => set_routing_policy s p pol = Err e
    | Panic => set_routing_policy s p pol = Panic
    end
  ∧ contains s path = bool_decide (is_Some (view s (key_of path)))
  ∧ ERef <$> get_by_uuid s id = view s (KUuid id)
  ∧ (∀ k, view (remove_by_uuid s id).1 k = point_update (view s) (KUuid id) None k)
  ∧ (remove_by_uuid s id).2 = bool_decide (is_Some (view s (KUuid id)))
  ∧ (∀ k, view (remove_by_named_path s p).1 k = point_update (view s) (KName p) None k)
  ∧ (remove_by_named_path s p).2 = bool_decide (is_Some (view s (KName p))).
Proof.
  split_and!.
  - apply store_insert_view.
  - apply set_routing_policy_view.
  - apply contains_view.
  - done.
  - intros [id'|q|]; unfold point_update; cbn; try done.
    case_decide as Hk; [injection Hk as <-; by rewrite lookup_delete_eq|].
    rewrite lookup_delete_ne; congruence.
  - cbn. apply bool_decide_ext. by rewrite fmap_is_Some.
  - intros [id'|q|]; unfold point_update; cbn; try done. rewrite !to_map_lookup.
    pose proof (remove_get p (name_map s) q) as Hg. unfold remove.
    destruct (remove_recursive p (name_map s)) as [[t r] d]. cbn [fst] in *. rewrite Hg.
    repeat case_decide; congruence.
  - cbn. by rewrite to_map_lookup.
Qed.

(** [remove(actor)] and [cleanup] delete exactly the entries they are meant to,
    at every path, and return their number: the references equal to the given
    live actor, respectively the references to deallocated components.  Routing
    policies, all other references and the dead letter slot stay. *)
Theorem store_removal_exact {U : UuidApi} {M} (alive : Alive) (s : ActorStore (M:=M)) (a : DynActorRef) :
  (∀ k, view (store_remove alive s a).1 k = keep_view (not_ref alive a) k (view s k))
  ∧ (store_remove alive s a).2 = dropped (not_ref alive a) s
  ∧ (∀ k, view (cleanup alive s).1 k = keep_view (ref_alive alive) k (view s k))
  ∧ (cleanup alive s).2 = dropped (ref_alive alive) s.
Proof.
  destruct (store_remove_view alive s a) as [H1 H2]. destruct (cleanup_view alive s) as [H3 H4]. done.
Qed.

(** An actor is found under the path its registration returned: whatever the kind
    of path, once [register_actor] answers with an actor path, looking this path
    up yields the registered reference.  A pre-built named path must be a valid
    insert path, and the empty name is excluded: it addresses dead letters. *)
Theorem registered_actor_found {U : UuidApi} {M} {C : TryClone M}
    (sender : M → ActorPath) (hasher : ActorPath → Z) (implicit_routes : bool)
    (sys : SystemPath) (s s' : ActorStore (M:=M)) (path : PathResolvable) (a : DynActorRef)
    (update : bool) (ap : ActorPath) :
  register_actor sys s path a update = (s', Ok ap) →
  key_of path ≠ KName [] →
  (∀ np, path = RPath (Named np) → validate_insert_path (np_path np) = Ok ()) →
  get_by_actor_path sender hasher implicit_routes s' ap = Ok (LRef a).
Proof.
  intros Hr Hne Hnp. apply register_actor_Ok in Hr as (Hres & Hval & Hv). eapply resolved_lookup; [done..|].
  rewrite Hv. unfold point_update. by rewrite decide_True.
Qed.

#[local] Instance unit_try_clone : TryClone () := λ _, Ok tt.

Definition example_ref : DynActorRef (U:=uuid128_api) := mkRef (uuid_from_u128 7).

Lemma registered_actor_found_witness :
  get_by_actor_path (M:=()) (λ _, Named (MkNamedPath example_system [])) (λ _, 0%Z) false
    (register_actor example_system (new_store (M:=())) (RAlias "a/b") example_ref false).1
    (Named (MkNamedPath example_system ["a"; "b"])) = Ok (LRef example_ref).
Proof.
  apply (registered_actor_found _ _ false example_system new_store _ (RAlias "a/b") _ false);
    [reflexivity|done|done].
Defined.

(** Registration never replaces an entry silently: without [update] an existing
    entry makes it fail, and whenever it fails the table is unchanged; when it
    succeeds only the key of the path changes. *)
Theorem registration_safe {U : UuidApi} {M} (sys : SystemPath) (s : ActorStore (M:=M))
    (path : PathResolvable) (a : DynActorRef) (update : bool) :
  match register_actor sys s path a update with
  | (s', Ok _) => (update = false → view s (key_of path) = None)
      ∧ (∀ k, view s' k = point_update (view s) (key_of path) (Some (ERef a)) k)
  | (s', Err DuplicateEntry) => s' = s ∧ update = false ∧ is_Some (view s (key_of path))
  | (s', Err (InvalidPath e)) => s' = s
  | (_, Err Unsupported) | (_, Panic) => False
  end.
Proof.
  unfold register_actor. assert (resolve_path sys path ≠ Panic) as Hnp.
  { destruct path as [| |alias|p|]; cbn; try done; unfold into_named_with_string, into_named_with_vec;
      [pose proof (validate_lookup_no_panic (parse_path alias)) as Hp|pose proof (validate_lookup_no_panic p) as Hp];
      by destruct (validate_lookup_path _) as [[]| |]. }
  destruct (resolve_path sys path) as [ap|e|]; [|done..].
  rewrite contains_view. case_bool_decide as Hc; destruct update; cbn [andb negb].
  2: done.
  all: pose proof (store_insert_view s path a) as Hs; pose proof (validated_no_panic path) as Hvp;
    destruct (validated path) as [[]| |]; [destruct Hs as (s' & -> & Hv)|rewrite Hs; done|done].
  all: split; [|done]; intros ?; try done; by apply eq_None_not_Some.
Qed.

(** Lookup of routing groups: under a path that holds a policy, the plain path
    yields a group with exactly the references registered at or below it and
    that policy; the same path with a broadcast or select marker yields the
    corresponding part of the policy, or an error when the policy lacks it. *)
Theorem group_lookup {U : UuidApi} {M} {C : TryClone M}
    (sender : M → ActorPath) (hasher : ActorPath → Z) (implicit_routes : bool)
    (s : ActorStore (M:=M)) (p : list string) (pol : StorePolicy DynActorRef M) :
  p ≠ [] → validate_insert_path p = Ok () → view s (KName p) = Some (EPolicy pol) →
  ∃ ms, ms ≡ₚ refs_below s p
    ∧ get_by_named_path sender hasher implicit_routes s p = Ok (LGroup (mkGroup ms pol))
    ∧ get_by_named_path sender hasher implicit_routes s (p ++ ["*"])
      = Ok (match store_broadcast pol with
            | Some b => LGroup (mkGroup ms b)
            | None => LErr (ExpectedBroadcast BROADCAST_MARKER (p ++ ["*"]))
            end)
    ∧ get_by_named_path sender hasher implicit_routes s (p ++ ["?"])
      = Ok (match store_select pol with
            | Some b => LGroup (mkGroup ms b)
            | None => LErr (ExpectedSelect SELECT_MARKER (p ++ ["?"]))
            end).
Proof.
  intros Hne Hp Hv. destruct (named_view_node s p _ Hv) as (node & Hn & Hnv & Hm).
  exists (group_members node). unfold get_by_named_path.
  rewrite !(decide_False (P := _ ++ _ = [])) by (by destruct p).
  rewrite (decide_False (P := p = [])) by done. rewrite insert_path_last by done.
  rewrite split_marker_broadcast, split_marker_select.
  split_and!; [done|..]; cbn [mbind res_bind]; by rewrite Hn, Hnv.
Qed.

Definition example_policy : StorePolicy (DynActorRef (U:=uuid128_api)) () := mkStorePolicy new_round_robin.
Definition example_store : ActorStore (U:=uuid128_api) (M:=()) :=
  (insert_name (insert_name new_store ["g"] (EPolicy example_policy)).1 ["g"; "x"] (ERef example_ref)).1.

Lemma group_lookup_witness :
  ∃ ms, ms ≡ₚ [example_ref]
    ∧ get_by_named_path (M:=()) (λ _, Named (MkNamedPath example_system [])) (λ _, 0%Z) false example_store ["g"]
      = Ok (LGroup (mkGroup ms example_policy)).
Proof.
  destruct (group_lookup (λ _, Named (MkNamedPath example_system [])) (λ _, 0%Z) false
    example_store ["g"] example_policy) as (ms & Hms & Hl & _); [done|reflexivity|reflexivity|].
  exists ms. split; [exact Hms|exact Hl].
Defined.

(** Looking a valid lookup path up never panics.  A path whose last segment is
    empty does, and this is what a serialised dead letter path decodes to; and
    a last segment that merely begins with a marker is taken as the marker. *)
Theorem named_lookup_panics {U : UuidApi} {M} {C : TryClone M}
    (sender : M → ActorPath) (hasher : ActorPath → Z) (implicit_routes : bool)
    (s : ActorStore (M:=M)) (p : list string) (x : string) :
  (validate_lookup_path p = Ok () → ∃ r, get_by_named_path sender hasher implicit_routes s p = Ok r)
  ∧ get_by_named_path sender hasher implicit_routes s (p ++ [""]) = Panic
  ∧ split_marker (p ++ [String BROADCAST_MARKER x]) = Ok (p, Some BROADCAST_MARKER).
Proof.
  split_and!.
  - intros Hp%validate_lookup_path_Ok. unfold get_by_named_path. case_decide as Hne; [eauto|].
    destruct (split_marker_valid p Hne Hp) as (q & m & -> & Hm). cbn.
    destruct (get_node (name_map s) q) as [node|]; [|eauto].
    destruct (node_value node) as [[r|pol]|].
    + destruct m; eauto.
    + unfold policy_lookup. destruct Hm as [[-> _]|[-> | ->]]; cbn; eauto.
    + unfold implicit_lookup. destruct Hm as [[-> _]|[-> | ->]], implicit_routes; cbn; eauto.
  - unfold get_by_named_path. rewrite decide_False by (by destruct p).
    unfold split_marker. rewrite length_app. cbn [length]. rewrite Nat.add_sub.
    by rewrite list_lookup_middle.
  - by rewrite split_marker_last.
Qed.

(** A strategy whose parameters cannot overflow. *)
Definition strategy_ok (u : UpdateStrategy) : Prop :=
  (0 ≤ st_min u ≤ curr u)%Z ∧ (curr u ≤ st_max u)%Z ∧ (1 ≤ st_incr u)%Z ∧ (1 ≤ st_decr u)%Z
  ∧ (st_max u + st_incr u < 2 ^ 64)%Z ∧ (st_max u * st_incr u < 2 ^ 64)%Z.

Lemma strategy_step_ok u : strategy_ok u →
  (∃ u', strategy_incr u = Ok u' ∧ strategy_ok u' ∧ (curr u ≤ curr u')%Z)
  ∧ (∃ u', strategy_decr u = Ok u' ∧ strategy_ok u' ∧ (curr u' ≤ curr u)%Z).
Proof.
  intros (H1 & H2 & H3 & H4 & H5 & H6). unfold strategy_incr, strategy_decr, check_u64, in_u. split.
  - rewrite decide_True by (destruct (algo u); nia). eexists. split; [done|].
    unfold strategy_ok. cbn. destruct (algo u); cbn; (split; [split_and!; nia|nia]).
  - rewrite decide_False by lia. eexists. split; [done|]. unfold strategy_ok. cbn.
    assert (curr u / st_decr u ≤ curr u)%Z by (apply Z.div_le_upper_bound; nia).
    split; [split_and!; lia|lia].
Qed.

(** The reaper keeps its interval between minimum and maximum and never
    overflows: from either configured algorithm, any number of reaper runs on
    any tables (with any components dying in between) succeeds, lengthening the
    interval after a run that removed nothing and shortening it otherwise; after
    a run no deallocated reference is left in the table. *)
Theorem reaper_step {U : UuidApi} {M} (alive : Alive) (s : ActorStore (M:=M)) (r : ActorRefReaper) :
  strategy_ok (strategy r) →
  ∃ s' r' t, schedule_reaper alive s r = Ok (s', r', t)
    ∧ t = curr (strategy r') ∧ scheduled r' = true ∧ strategy_ok (strategy r')
    ∧ (scheduled r = false → s' = s ∧ strategy r' = strategy r)
    ∧ (scheduled r = true →
         (∀ id a, uuid_map s' !! id = Some a → can_upgrade_component alive a = true)
         ∧ (∀ p a, get (name_map s') p = Some (ERef a) → can_upgrade_component alive a = true)
         ∧ (if decide (dropped (ref_alive alive) s = 0)
            then (curr (strategy r) ≤ t)%Z else (t ≤ curr (strategy r))%Z)).
Proof.
  intros Hok. unfold schedule_reaper. destruct (scheduled r); cbn [negb].
  - destruct (cleanup_view alive s) as [Hv Hn]. destruct (cleanup alive s) as [s' n]. cbn [fst snd] in *.
    subst n. destruct (strategy_step_ok _ Hok) as [(u1 & Hu1 & Hok1 & Hle1) (u2 & Hu2 & Hok2 & Hle2)].
    assert (∀ k a, k ≠ KDeadletter → view s' k = Some (ERef a) → can_upgrade_component alive a = true) as Hal.
    { intros k a Hk Ha. rewrite Hv in Ha. destruct k; cbn in Ha; try done;
        apply bind_Some in Ha as (e & _ & He); destruct e as [b|b]; cbn in He; try done;
        destruct (can_upgrade_component alive b) eqn:Hb; by simplify_eq. }
    assert ((∀ id a, uuid_map s' !! id = Some a → can_upgrade_component alive a = true)
      ∧ (∀ p a, get (name_map s') p = Some (ERef a) → can_upgrade_component alive a = true)) as [Hal1 Hal2].
    { split; [intros id a Ha; apply (Hal (KUuid id)); [done|cbn; by rewrite Ha]|].
      intros p a Ha. apply (Hal (KName p)); [done|]. cbn. by rewrite to_map_lookup. }
    case_decide as Hz; [rewrite Hu1|rewrite Hu2]; cbn; do 3 eexists; split_and!; try done.
  - do 3 eexists. split; [reflexivity|]. done.
Qed.

Lemma reaper_step_witness :
  ∃ s' r' t, schedule_reaper (U:=uuid128_api) (M:=()) (λ _, false) example_store
      (mkReaper true (strategy (new_reaper Mimd))) = Ok (s', r', t) ∧ t = curr (strategy r') ∧ strategy_ok (strategy r').
Proof.
  destruct (reaper_step (U:=uuid128_api) (M:=()) (λ _, false) example_store
    (mkReaper true (strategy (new_reaper Mimd)))) as (s' & r' & t & H1 & H2 & H3 & H4 & _).
  { vm_compute. split_and!; congruence. }
  exists s', r', t. split_and!; [exact H1|exact H2|exact H4].
Defined.
