(* ===== verification/ChunkLease.v ===== *)
(** * Chunk leases and chunk references

    Model of [core/src/net/buffers/chunk_lease.rs] and [chunk_ref.rs]: chains of
    byte slices with a read and a write position.  A slice is modelled by the
    bytes it covers; the lock that keeps the backing chunk from being reused is
    the number of that chunk.  The theorems show that a chain behaves like the
    concatenation of its slices. *)

From S2P Require Import Prelude.

(** [ChunkLease]: [content] is the slice of the head, [chain] the rest. *)
Inductive ChunkLease : Type :=
| Lease (content : list byte) (write_pointer read_pointer chain_head_len : nat) (lock : nat)
    (chain : option ChunkLease) (chain_len : nat).

Definition write_pointer (l : ChunkLease) : nat := let '(Lease _ w _ _ _ _ _) := l in w.
Definition read_pointer (l : ChunkLease) : nat := let '(Lease _ _ r _ _ _ _) := l in r.
Definition chain_len (l : ChunkLease) : nat := let '(Lease _ _ _ _ _ _ n) := l in n.

Definition set_read_pointer (l : ChunkLease) (r : nat) : ChunkLease :=
  let '(Lease c w _ h k t n) := l in Lease c w r h k t n.
Definition set_write_pointer (l : ChunkLease) (w : nat) : ChunkLease :=
  let '(Lease c _ r h k t n) := l in Lease c w r h k t n.

(** [ChunkLease::new]. *)
Definition new_lease (content : list byte) (lock : nat) : ChunkLease :=
  let capacity := length content in
  Lease content capacity 0 capacity lock None capacity.

(** [ChunkLease::empty] has a lock of its own, here number 0. *)
Definition empty_lease : ChunkLease := new_lease [] 0.

Definition capacity (l : ChunkLease) : nat := chain_len l.

Fixpoint append_to_chain (l new_tail : ChunkLease) : ChunkLease :=
  let '(Lease c w r h k chain n) := l in
  let n := n + chain_len new_tail in
  match chain with
  | Some tail => Lease c w r h k (Some (append_to_chain tail new_tail)) n
  | None => Lease c w r h k (Some new_tail) n
  end.

(** [split_at]: the shortened lease and the returned tail. *)
Fixpoint split_at (l : ChunkLease) (position : nat) : res Empty_set (ChunkLease * ChunkLease) :=
  let '(Lease c w r h k chain n) := l in
  _ ← assert_ (bool_decide (position ≤ n));
  let n := position in
  match Nat.compare position h with
  | Gt =>
      match chain with
      | Some tail => '(tail, ret) ← split_at tail (position - h); Ok (Lease c w r h k (Some tail) n, ret)
      | None => Panic
      end
  | Eq =>
      Ok (Lease c w r h k None n, match chain with Some tail_chain => tail_chain | None => empty_lease end)
  | Lt =>
      let head_bytes := take position c in
      let tail_bytes := take (h - position) (drop position c) in
      let return_lease := new_lease tail_bytes k in
      let return_lease :=
        match chain with Some tail_chain => append_to_chain return_lease tail_chain | None => return_lease end in
      Ok (Lease head_bytes w r position k None n, return_lease)
  end.

Fixpoint get_chunk_at (l : ChunkLease) (pos : nat) : res Empty_set (list byte) :=
  let '(Lease c w r h k chain n) := l in
  if decide (h ≤ pos) then
    match chain with Some chain => get_chunk_at chain (pos - h) | None => Panic end
  else Ok (drop pos c).

(** Writing through [get_chunk_mut_at]: the slice begins at [pos], at most its
    length is copied; the result is the lease and the number of bytes copied. *)
Fixpoint write_chunk_at (l : ChunkLease) (pos : nat) (src : list byte) : res Empty_set (ChunkLease * nat) :=
  let '(Lease c w r h k chain n) := l in
  if decide (h ≤ pos) then
    match chain with
    | Some tail => '(tail, cnt) ← write_chunk_at tail (pos - h) src; Ok (Lease c w r h k (Some tail) n, cnt)
    | None => Panic
    end
  else
    let cnt := Nat.min (h - pos) (length src) in
    Ok (Lease (take pos c ++ take cnt src ++ drop (pos + cnt) c) w r h k chain n, cnt).

(** ** [Buf for ChunkLease] *)
Definition remaining (l : ChunkLease) : nat := chain_len l - read_pointer l.
Definition chunk (l : ChunkLease) : res Empty_set (list byte) := get_chunk_at l (read_pointer l).
Definition advance (l : ChunkLease) (cnt : nat) : ChunkLease := set_read_pointer l (read_pointer l + cnt).

(** [Buf::copy_to_slice] of [n] bytes, the loop over [chunk] and [advance] that
    the [bytes] crate documents; every [get_*] is such a read. *)
Fixpoint read_loop (fuel : nat) (l : ChunkLease) (n : nat) : res Empty_set (list byte * ChunkLease) :=
  match n, fuel with
  | O, _ => Ok ([], l)
  | _, O => Panic
  | _, S fuel =>
      src ← chunk l;
      let cnt := Nat.min (length src) n in
      '(rest, l) ← read_loop fuel (advance l cnt) (n - cnt);
      Ok (take cnt src ++ rest, l)
  end.

Definition read_bytes (l : ChunkLease) (n : nat) : res Empty_set (list byte * ChunkLease) :=
  _ ← assert_ (bool_decide (n ≤ remaining l)); read_loop n l n.

(** ** [BufMut for ChunkLease] *)
Definition remaining_mut (l : ChunkLease) : res Empty_set nat := csub (chain_len l) (write_pointer l).
Definition advance_mut (l : ChunkLease) (cnt : nat) : ChunkLease := set_write_pointer l (write_pointer l + cnt).

(** [BufMut::put_slice], the loop over [chunk_mut] and [advance_mut]. *)
Fixpoint put_loop (fuel : nat) (l : ChunkLease) (src : list byte) : res Empty_set ChunkLease :=
  match src, fuel with
  | [], _ => Ok l
  | _, O => Panic
  | _, S fuel =>
      '(l, cnt) ← write_chunk_at l (write_pointer l) src;
      put_loop fuel (advance_mut l cnt) (drop cnt src)
  end.

Definition put_slice (l : ChunkLease) (src : list byte) : res Empty_set ChunkLease :=
  room ← remaining_mut l;
  _ ← assert_ (bool_decide (length src ≤ room));
  put_loop (length src) l src.

(** ** [ChunkRef] *)
Inductive ChunkRef : Type :=
| CRef (content : list byte) (read_pointer chain_head_len : nat) (lock : nat)
    (chain : option ChunkRef) (chain_len : nat).

Definition ref_chain_len (c : ChunkRef) : nat := let '(CRef _ _ _ _ _ n) := c in n.
Definition ref_read_pointer (c : ChunkRef) : nat := let '(CRef _ r _ _ _ _) := c in r.

Fixpoint ref_append_to_chain (c new_tail : ChunkRef) : ChunkRef :=
  let '(CRef x r h k chain n) := c in
  let n := n + ref_chain_len new_tail in
  match chain with
  | Some tail => CRef x r h k (Some (ref_append_to_chain tail new_tail)) n
  | None => CRef x r h k (Some new_tail) n
  end.

Fixpoint ref_get_chunk_at (c : ChunkRef) (pos : nat) : res Empty_set (list byte) :=
  let '(CRef x r h k chain n) := c in
  if decide (h ≤ pos) then
    match chain with Some chain => ref_get_chunk_at chain (pos - h) | None => Panic end
  else Ok (drop pos x).

Definition ref_remaining (c : ChunkRef) : nat := ref_chain_len c - ref_read_pointer c.
Definition ref_chunk (c : ChunkRef) : res Empty_set (list byte) := ref_get_chunk_at c (ref_read_pointer c).
Definition ref_advance (c : ChunkRef) (cnt : nat) : ChunkRef :=
  let '(CRef x r h k chain n) := c in CRef x (r + cnt) h k chain n.

(** [into_chunk_ref]: the first branch recurses on the result of a split, hence
    the fuel; two units per slice are enough. *)
Fixpoint into_chunk_ref (fuel : nat) (l : ChunkLease) : res Empty_set ChunkRef :=
  match fuel with
  | O => Panic
  | S fuel =>
      let '(Lease c w r h k chain n) := l in
      if decide (0 < r) then
        '(_, tail) ← split_at l r;
        into_chunk_ref fuel (set_read_pointer tail 0)
      else
        match chain with
        | Some t => t ← into_chunk_ref fuel t; Ok (CRef c r h k (Some t) n)
        | None => Ok (CRef c r h k None n)
        end
  end.

Definition into_chunk_ref_with_tail (fuel : nat) (l : ChunkLease) (tail : ChunkRef) : res Empty_set ChunkRef :=
  chunk_ref ← into_chunk_ref fuel l; Ok (ref_append_to_chain chunk_ref tail).

Definition into_chunk_ref_with_head (fuel : nat) (l : ChunkLease) (head : ChunkRef) : res Empty_set ChunkRef :=
  chunk_ref ← into_chunk_ref fuel l; Ok (ref_append_to_chain head chunk_ref).

(** [create_byte_clone]: the loop runs once per slice. *)
Fixpoint byte_clone_loop (fuel : nat) (l : ChunkLease) (read_pointer : nat) : res Empty_set (list byte) :=
  if decide (read_pointer < chain_len l) then
    match fuel with
    | O => Panic
    | S fuel =>
        read_bytes ← get_chunk_at l read_pointer;
        buf ← byte_clone_loop fuel l (read_pointer + length read_bytes);
        Ok (read_bytes ++ buf)
    end
  else Ok [].

Definition create_byte_clone (l : ChunkLease) : res Empty_set (list byte) :=
  byte_clone_loop (chain_len l) l (read_pointer l).

(** ** What a chain stands for *)

(** All bytes of the chain, read positions ignored. *)
Fixpoint lease_bytes (l : ChunkLease) : list byte :=
  let '(Lease c _ _ _ _ chain _) := l in
  c ++ match chain with Some t => lease_bytes t | None => [] end.

Fixpoint ref_bytes (c : ChunkRef) : list byte :=
  let '(CRef x _ _ _ chain _) := c in
  x ++ match chain with Some t => ref_bytes t | None => [] end.

(** The bytes still to be read. *)
Definition readable (l : ChunkLease) : list byte := drop (read_pointer l) (lease_bytes l).

(** Lengths agree with the slices, and only the head has a read position. *)
Fixpoint wf_chain (l : ChunkLease) : Prop :=
  let '(Lease c _ _ h _ chain n) := l in
  h = length c
  ∧ match chain with
    | Some t => read_pointer t = 0 ∧ wf_chain t ∧ n = h + chain_len t
    | None => n = h
    end.

Definition wf_lease (l : ChunkLease) : Prop := wf_chain l ∧ read_pointer l ≤ chain_len l.

Fixpoint wf_ref (c : ChunkRef) : Prop :=
  let '(CRef x _ h _ chain n) := c in
  h = length x
  ∧ match chain with Some t => wf_ref t ∧ n = h + ref_chain_len t | None => n = h end.

(** Number of slices. *)
Fixpoint depth (l : ChunkLease) : nat :=
  let '(Lease _ _ _ _ _ chain _) := l in S (match chain with Some t => depth t | None => 0 end).

(** Chunks kept locked by a chain. *)
Fixpoint locks (l : ChunkLease) : list nat :=
  let '(Lease _ _ _ _ k chain _) := l in k :: match chain with Some t => locks t | None => [] end.

(** Induction over a chain. *)
Lemma lease_ind (P : ChunkLease → Prop) :
  (∀ c w r h k n, P (Lease c w r h k None n)) →
  (∀ c w r h k t n, P t → P (Lease c w r h k (Some t) n)) → ∀ l, P l.
Proof. intros H1 H2. fix IH 1. intros [c w r h k [t|] n]; [apply H2, IH|apply H1]. Qed.

Lemma ref_ind (P : ChunkRef → Prop) :
  (∀ x r h k n, P (CRef x r h k None n)) →
  (∀ x r h k t n, P t → P (CRef x r h k (Some t) n)) → ∀ c, P c.
Proof. intros H1 H2. fix IH 1. intros [x r h k [t|] n]; [apply H2, IH|apply H1]. Qed.

Lemma wf_chain_len l : wf_chain l → chain_len l = length (lease_bytes l).
Proof.
  induction l as [c w r h k n|c w r h k t n IH] using lease_ind; cbn.
  - intros [-> ->]. by rewrite app_nil_r.
  - intros (-> & _ & Ht & ->). rewrite length_app, <-IH by done. done.
Qed.

Lemma wf_set_read l r : wf_chain (set_read_pointer l r) ↔ wf_chain l.
Proof. by destruct l. Qed.

Lemma lease_bytes_set_read l r : lease_bytes (set_read_pointer l r) = lease_bytes l.
Proof. by destruct l. Qed.

Lemma new_lease_wf c k : wf_lease (new_lease c k) ∧ lease_bytes (new_lease c k) = c.
Proof. unfold wf_lease. cbn. rewrite app_nil_r. split_and!; try done; lia. Qed.

Lemma append_read_pointer l t : read_pointer (append_to_chain l t) = read_pointer l.
Proof. by destruct l as [c w r h k [t'|] n]. Qed.

Lemma append_chain_len l t : chain_len (append_to_chain l t) = chain_len l + chain_len t.
Proof. by destruct l as [c w r h k [t'|] n]. Qed.

Lemma append_wf l t : wf_chain l → wf_chain t → read_pointer t = 0 →
  wf_chain (append_to_chain l t) ∧ lease_bytes (append_to_chain l t) = lease_bytes l ++ lease_bytes t
  ∧ locks (append_to_chain l t) = locks l ++ locks t.
Proof.
  intros Hl Ht Hr. induction l as [c w r h k n|c w r h k t' n IH] using lease_ind; cbn in *.
  - destruct Hl as [-> ->]. rewrite app_nil_r. done.
  - destruct Hl as (-> & Hr' & Ht' & ->). destruct (IH Ht') as (Hw & Hb & Hk).
    rewrite append_read_pointer, append_chain_len, Hb, Hk, app_assoc.
    split_and!; try done. lia.
Qed.

Ltac lock_solver :=
  intros ?; rewrite ?elem_of_cons, ?elem_of_app, ?elem_of_cons; rewrite ?elem_of_nil; naive_solver.

Lemma split_at_wf l p : wf_chain l → p ≤ chain_len l →
  ∃ l' t, split_at l p = Ok (l', t)
    ∧ wf_chain l' ∧ lease_bytes l' = take p (lease_bytes l) ∧ chain_len l' = p
    ∧ read_pointer l' = read_pointer l
    ∧ wf_chain t ∧ lease_bytes t = drop p (lease_bytes l) ∧ read_pointer t = 0
    ∧ (∀ k, k ∈ locks l' → k ∈ locks l) ∧ (∀ k, k ∈ locks t → k ∈ locks l ∨ lease_bytes t = []).
Proof.
  revert p. induction l as [c w r h k n|c w r h k t n IH] using lease_ind; intros p Hw Hp;
    cbn [split_at]; cbn in Hw, Hp; rewrite bool_decide_true by done; cbn [assert_ mbind res_bind].
  - destruct Hw as [-> ->]. destruct (Nat.compare_spec p (length c)) as [->|Hlt|Hgt]; [| |lia].
    + do 2 eexists. split; [done|]. cbn. rewrite app_nil_r, take_ge, drop_ge by lia.
      split_and!; try done; try lia; lock_solver.
    + do 2 eexists. split; [done|]. cbn. rewrite !app_nil_r, !length_take, !length_drop.
      rewrite (take_ge (drop p c)) by (rewrite length_drop; lia).
      split_and!; try done; try lia; lock_solver.
  - destruct Hw as (-> & Hr & Ht & ->). destruct (Nat.compare_spec p (length c)) as [->|Hlt|Hgt].
    + do 2 eexists. split; [done|]. cbn. rewrite app_nil_r, take_app_length, drop_app_length.
      split_and!; try done; lock_solver.
    + pose proof (new_lease_wf (drop p c) k) as [[Hn1 _] Hn2].
      destruct (append_wf (new_lease (drop p c) k) t Hn1 Ht Hr) as (Ha & Hb & Hk).
      rewrite (take_ge (drop p c)) by (rewrite length_drop; lia).
      do 2 eexists. split; [done|]. rewrite Hk, append_read_pointer. cbn [lease_bytes wf_chain chain_len read_pointer locks].
      rewrite Hb, Hn2, app_nil_r, length_take, take_app_le, drop_app_le by lia.
      change (locks (new_lease (drop p c) k)) with [k]. clear IH.
      split_and!; try done; try lia; lock_solver.
    + destruct (IH (p - length c)) as (t1 & t2 & -> & H1 & H2 & H3 & H4 & H5 & H6 & H7 & H8 & H9); [done|lia|].
      clear IH.       cbn [mbind res_bind]. do 2 eexists. split; [done|]. cbn [lease_bytes wf_chain chain_len read_pointer locks].
      rewrite H6 in H9. rewrite H2, H3, H4, H6, take_app_ge, drop_app_ge by lia.
      split_and!; try done; try lia; [lock_solver|].
      intros x Hx. rewrite elem_of_cons. destruct (H9 x Hx); tauto.
Qed.

(** ** Reading *)
Lemma get_chunk_at_spec l pos : wf_chain l → pos < chain_len l →
  ∃ c rest, get_chunk_at l pos = Ok c ∧ c ≠ [] ∧ drop pos (lease_bytes l) = c ++ rest.
Proof.
  revert pos. induction l as [c w r h k n|c w r h k t n IH] using lease_ind; intros pos Hw Hp;
    cbn in Hw, Hp; cbn [get_chunk_at lease_bytes].
  - destruct Hw as [-> ->]. rewrite decide_False by lia. exists (drop pos c), [].
    rewrite !app_nil_r. split_and!; [done| |done]. intros He%(f_equal length).
    rewrite length_drop in He. cbn in He. lia.
  - destruct Hw as (-> & Hr & Ht & ->). case_decide.
    + destruct (IH (pos - length c)) as (x & rest & Hx & Hne & Hd); [done|lia|].
      exists x, rest. by rewrite drop_app_ge by lia.
    + exists (drop pos c), (lease_bytes t). rewrite drop_app_le by lia. split_and!; [done| |done].
      intros He%(f_equal length). rewrite length_drop in He. cbn in He. lia.
Qed.

Lemma get_chunk_at_end l pos : wf_chain l → chain_len l ≤ pos → get_chunk_at l pos = Panic.
Proof.
  revert pos. induction l as [c w r h k n|c w r h k t n IH] using lease_ind; intros pos Hw Hp;
    cbn in Hw, Hp; cbn [get_chunk_at].
  - destruct Hw as [-> ->]. by rewrite decide_True by lia.
  - destruct Hw as (-> & Hr & Ht & ->). rewrite decide_True by lia. apply IH; [done|lia].
Qed.

Lemma advance_wf l n : wf_lease l → n ≤ remaining l → wf_lease (advance l n).
Proof. destruct l as [c w r h k t m]. unfold wf_lease, advance, remaining. cbn. intros [? ?] ?. split; [done|lia]. Qed.

Lemma readable_advance l n : readable (advance l n) = drop n (readable l).
Proof. destruct l. unfold readable, advance. cbn. by rewrite drop_drop. Qed.

Lemma length_readable l : wf_lease l → length (readable l) = remaining l.
Proof. intros [Hw Hr]. unfold readable, remaining. by rewrite length_drop, <-wf_chain_len. Qed.

Lemma advance_advance l m n : advance (advance l m) n = advance l (m + n).
Proof. destruct l. unfold advance. cbn. by rewrite Nat.add_assoc. Qed.

Lemma read_loop_spec fuel l n : wf_lease l → n ≤ remaining l → n ≤ fuel →
  read_loop fuel l n = Ok (take n (readable l), advance l n).
Proof.
  revert l n. induction fuel as [|fuel IH]; intros l n Hw Hn Hf.
  - assert (n = 0) as -> by lia. cbn. destruct l. unfold advance. cbn. by rewrite Nat.add_0_r.
  - destruct n as [|n]; [cbn; destruct l; unfold advance; cbn; by rewrite Nat.add_0_r|].
    cbn [read_loop]. pose proof Hw as [Hc Hr].
    destruct (get_chunk_at_spec l (read_pointer l)) as (c & rest & Hg & Hne & Hd); [done|unfold remaining in Hn; lia|].
    unfold chunk. rewrite Hg. cbn [mbind res_bind].
    assert (0 < length c) by (destruct c; [done|cbn; lia]).
    set (cnt := Nat.min (length c) (S n)).
    assert (1 ≤ cnt ≤ S n) by (unfold cnt; lia).
    rewrite IH; [|apply advance_wf; [done|lia]|unfold remaining in *; destruct l; cbn in *; lia|lia].
    cbn [mbind res_bind]. rewrite readable_advance, advance_advance. do 2 f_equal; [|f_equal; lia].
    change (readable l) with (drop (read_pointer l) (lease_bytes l)). rewrite Hd.
    unfold cnt. destruct (Nat.min_spec (length c) (S n)) as [[? ->]|[? ->]].
    + rewrite take_ge by lia. rewrite drop_app_length. rewrite take_app_ge by lia. done.
    + rewrite Nat.sub_diag, take_0, app_nil_r. by rewrite take_app_le by lia.
Qed.

Lemma read_bytes_spec l n : wf_lease l →
  read_bytes l n = if decide (n ≤ remaining l) then Ok (take n (readable l), advance l n) else Panic.
Proof.
  intros Hw. unfold read_bytes. case_decide; [|by rewrite bool_decide_false].
  rewrite bool_decide_true by done. by apply read_loop_spec.
Qed.

Lemma byte_clone_loop_spec fuel l pos : wf_chain l → chain_len l - pos ≤ fuel →
  byte_clone_loop fuel l pos = Ok (drop pos (lease_bytes l)).
Proof.
  intros Hw. revert pos. induction fuel as [|fuel IH]; intros pos Hf; cbn [byte_clone_loop];
    pose proof (wf_chain_len l Hw) as Hl; (case_decide as Hp; [|by rewrite drop_ge by lia]); [lia|].
  destruct (get_chunk_at_spec l pos Hw Hp) as (c & rest & -> & Hne & Hd). cbn [mbind res_bind].
  assert (0 < length c) by (destruct c; [done|cbn; lia]).
  rewrite IH by lia. cbn [mbind res_bind]. f_equal. rewrite <-(drop_drop _ (length c) pos), Hd.
  by rewrite drop_app_length.
Qed.

(** ** Writing *)
Lemma write_chunk_at_spec l pos src : wf_chain l → pos < chain_len l → src ≠ [] →
  ∃ l' cnt, write_chunk_at l pos src = Ok (l', cnt) ∧ 1 ≤ cnt ≤ length src
    ∧ pos + cnt ≤ chain_len l
    ∧ wf_chain l' ∧ chain_len l' = chain_len l
    ∧ read_pointer l' = read_pointer l ∧ write_pointer l' = write_pointer l
    ∧ lease_bytes l' = take pos (lease_bytes l) ++ take cnt src ++ drop (pos + cnt) (lease_bytes l).
Proof.
  intros Hw Hp Hs. assert (0 < length src) by (destruct src; [done|cbn; lia]). revert pos Hw Hp.
  induction l as [c w r h k n|c w r h k t n IH] using lease_ind; intros pos Hw Hp;
    cbn in Hw, Hp; cbn [write_chunk_at].
  - destruct Hw as [-> ->]. rewrite decide_False by lia. do 2 eexists. split; [done|].
    cbn. rewrite !app_nil_r, !length_app, !length_take, length_drop. split_and!; try done; lia.
  - destruct Hw as (-> & Hr & Ht & ->). case_decide.
    + destruct (IH (pos - length c)) as (t' & cnt & -> & Hc & Hb & Ht' & Hl & Hrp & Hwp & Hby); [done|lia|].
      cbn [mbind res_bind]. do 2 eexists. split; [done|].
      cbn [wf_chain chain_len read_pointer write_pointer lease_bytes]. rewrite Hl, Hrp, Hby.
      rewrite take_app_ge, drop_app_ge by lia. rewrite <-app_assoc.
      replace (pos + cnt - length c) with (pos - length c + cnt) by lia.
      split_and!; try done; lia.
    + do 2 eexists. split; [done|].
      cbn [wf_chain chain_len read_pointer write_pointer lease_bytes].
      rewrite !length_app, !length_take, length_drop.
      rewrite take_app_le, drop_app_le by lia. rewrite <-!app_assoc.
      split_and!; try done; lia.
Qed.

Lemma put_loop_spec fuel l src : wf_chain l → write_pointer l + length src ≤ chain_len l →
  length src ≤ fuel →
  ∃ l', put_loop fuel l src = Ok l' ∧ wf_chain l' ∧ chain_len l' = chain_len l
    ∧ read_pointer l' = read_pointer l ∧ write_pointer l' = write_pointer l + length src
    ∧ lease_bytes l' = take (write_pointer l) (lease_bytes l) ++ src
                       ++ drop (write_pointer l + length src) (lease_bytes l).
Proof.
  revert l src. induction fuel as [|fuel IH]; intros l src Hw Hp Hf; (destruct src as [|b src]; [
    exists l; cbn; rewrite Nat.add_0_r, take_drop; split_and!; try done; lia|]); [cbn in Hf; lia|].
  cbn [put_loop].
  destruct (write_chunk_at_spec l (write_pointer l) (b :: src)) as
    (l1 & cnt & -> & Hc & Hb & Hw1 & Hl1 & Hr1 & Hp1 & Hby1); [done|cbn in Hp; lia|done|].
  cbn [mbind res_bind]. set (s := b :: src) in *.
  assert (Hadv : wf_chain (advance_mut l1 cnt) ∧ chain_len (advance_mut l1 cnt) = chain_len l1
    ∧ read_pointer (advance_mut l1 cnt) = read_pointer l1
    ∧ write_pointer (advance_mut l1 cnt) = write_pointer l1 + cnt
    ∧ lease_bytes (advance_mut l1 cnt) = lease_bytes l1) by (by destruct l1).
  destruct Hadv as (A1 & A2 & A3 & A4 & A5).
  destruct (IH (advance_mut l1 cnt) (drop cnt s)) as (l2 & -> & Hw2 & Hl2 & Hr2 & Hp2 & Hby2).
  { done. } { rewrite A4, A2, length_drop. lia. } { rewrite length_drop. lia. }
  exists l2. rewrite A4, A5 in *. rewrite length_drop in *. split_and!; try done; try congruence; try lia.
  rewrite Hby2, Hby1, Hp1. pose proof (wf_chain_len l Hw) as Hlen.
  set (B := lease_bytes l) in *. set (p := write_pointer l) in *.
  rewrite (app_assoc (take p B)). rewrite take_app_length_eq by (rewrite length_app, !length_take; lia).
  rewrite (drop_app_ge _ _ (p + cnt + _)) by (rewrite length_app, !length_take; lia).
  rewrite drop_drop, <-app_assoc. f_equal. rewrite app_assoc, take_drop. f_equal. f_equal.
  rewrite length_app, !length_take. lia.
Qed.

Lemma put_slice_spec l src : wf_chain l → write_pointer l ≤ chain_len l →
  if decide (write_pointer l + length src ≤ chain_len l) then
    ∃ l', put_slice l src = Ok l' ∧ wf_chain l' ∧ chain_len l' = chain_len l
      ∧ read_pointer l' = read_pointer l ∧ write_pointer l' = write_pointer l + length src
      ∧ lease_bytes l' = take (write_pointer l) (lease_bytes l) ++ src
                         ++ drop (write_pointer l + length src) (lease_bytes l)
  else put_slice l src = Panic.
Proof.
  intros Hw Hp. unfold put_slice, remaining_mut. rewrite csub_Ok by done. cbn [mbind res_bind].
  case_decide.
  - rewrite bool_decide_true by lia. by apply put_loop_spec.
  - by rewrite bool_decide_false by lia.
Qed.

(** ** References *)
Lemma wf_ref_len c : wf_ref c → ref_chain_len c = length (ref_bytes c).
Proof.
  induction c as [x r h k n|x r h k t n IH] using ref_ind; cbn; rewrite length_app.
  - intros [-> ->]. cbn. lia.
  - intros (-> & Ht & ->). by rewrite IH.
Qed.

Lemma ref_append_wf c t : wf_ref c → wf_ref t →
  wf_ref (ref_append_to_chain c t) ∧ ref_bytes (ref_append_to_chain c t) = ref_bytes c ++ ref_bytes t
  ∧ ref_chain_len (ref_append_to_chain c t) = ref_chain_len c + ref_chain_len t
  ∧ ref_read_pointer (ref_append_to_chain c t) = ref_read_pointer c.
Proof.
  intros Hc Ht. induction c as [x r h k n|x r h k t' n IH] using ref_ind; cbn in *.
  - destruct Hc as [-> ->]. by rewrite app_nil_r.
  - destruct Hc as (-> & Ht' & ->). destruct (IH Ht') as (Hw & Hb & Hl & Hr).
    rewrite Hb, Hl, app_assoc. split_and!; try done. lia.
Qed.

Lemma split_at_depth l p l' t : split_at l p = Ok (l', t) → depth t ≤ depth l.
Proof.
  revert p l' t. induction l as [c w r h k n|c w r h k t n IH] using lease_ind; intros p l' t' H;
    cbn [split_at] in H; apply bind_Ok in H as ([] & _ & H); destruct (Nat.compare p h); try done.
  - injection H as <- <-. cbn. lia.
  - injection H as <- <-. cbn. lia.
  - injection H as <- <-. cbn. lia.
  - injection H as <- <-. cbn. lia.
  - apply bind_Ok in H as ([t1 t2] & H1 & [= <- <-]). apply IH in H1. cbn. lia.
Qed.

Lemma depth_set_read l r : depth (set_read_pointer l r) = depth l.
Proof. by destruct l. Qed.

Lemma into_chunk_ref_fresh fuel l : wf_chain l → read_pointer l = 0 → depth l ≤ fuel →
  ∃ c, into_chunk_ref fuel l = Ok c ∧ wf_ref c ∧ ref_bytes c = lease_bytes l
    ∧ ref_read_pointer c = 0 ∧ ref_chain_len c = chain_len l.
Proof.
  revert fuel. induction l as [c w r h k n|c w r h k t n IH] using lease_ind; intros fuel Hw Hr Hf;
    cbn in Hw, Hr, Hf; (destruct fuel as [|fuel]; [lia|]); subst r; cbn [into_chunk_ref];
    rewrite decide_False by lia.
  - eexists. split; [done|]. cbn. done.
  - destruct Hw as (-> & Hr & Ht & ->).
    destruct (IH fuel) as (c' & -> & Hwc & Hb & _ & Hl); [done|done|lia|]. cbn [mbind res_bind].
    eexists. split; [done|]. cbn. rewrite Hb, Hl. done.
Qed.

Lemma into_chunk_ref_spec fuel l : wf_lease l → depth l < fuel →
  ∃ c, into_chunk_ref fuel l = Ok c ∧ wf_ref c ∧ ref_bytes c = readable l
    ∧ ref_read_pointer c = 0 ∧ ref_chain_len c = remaining l.
Proof.
  intros [Hw Hr] Hf. destruct (decide (read_pointer l = 0)) as [H0|H0].
  - destruct (into_chunk_ref_fresh fuel l Hw H0 ltac:(lia)) as (c & Hc & Hwc & Hb & Hrp & Hl).
    exists c. unfold readable, remaining. rewrite H0, drop_0, Nat.sub_0_r. done.
  - destruct fuel as [|fuel]; [lia|].
    destruct (split_at_wf l (read_pointer l) Hw Hr) as (l' & t & Hs & _ & _ & _ & _ & Hwt & Hbt & Hrt & _).
    pose proof (split_at_depth _ _ _ _ Hs) as Hd.
    destruct (into_chunk_ref_fresh fuel (set_read_pointer t 0)) as (c & Hc & Hwc & Hb & Hrp & Hl);
      [by apply wf_set_read|by destruct t|rewrite depth_set_read; lia|].
    exists c. rewrite lease_bytes_set_read in Hb.
    assert (chain_len (set_read_pointer t 0) = chain_len t) as Ht0 by (by destruct t).
    split_and!; [|done|by rewrite Hb|done|].
    + destruct l as [x w r h k ch n]. cbn [into_chunk_ref read_pointer] in *.
      rewrite decide_True by lia. rewrite Hs. done.
    + rewrite Hl, Ht0, (wf_chain_len t Hwt), Hbt, length_drop, <-(wf_chain_len l Hw). done.
Qed.

(** ** Properties *)

(** C21: A chain of leases behaves like the concatenation of its slices: appending
    concatenates; splitting at any position up to the capacity succeeds and
    yields the first bytes and the rest (and panics beyond), each part keeping
    only locks of the original; and the chain invariant is kept. *)
Theorem lease_chain (l t : ChunkLease) (p : nat) :
  wf_chain l → wf_chain t → read_pointer t = 0 →
  (wf_chain (append_to_chain l t) ∧ lease_bytes (append_to_chain l t) = lease_bytes l ++ lease_bytes t)
  ∧ (if decide (p ≤ capacity l) then
       ∃ l' r, split_at l p = Ok (l', r) ∧ wf_chain l' ∧ wf_chain r
         ∧ lease_bytes l' = take p (lease_bytes l) ∧ lease_bytes r = drop p (lease_bytes l)
         ∧ capacity l' = p ∧ capacity r = capacity l - p
         ∧ (∀ k, k ∈ locks l' → k ∈ locks l) ∧ (∀ k, k ∈ locks r → k ∈ locks l ∨ lease_bytes r = [])
     else split_at l p = Panic).
Proof.
  intros Hl Ht Hr. destruct (append_wf l t Hl Ht Hr) as (H1 & H2 & _). split; [done|].
  unfold capacity in *. case_decide as Hp.
  - destruct (split_at_wf l p Hl Hp) as (l' & r & Hs & W1 & B1 & L1 & R1 & W2 & B2 & R2 & K1 & K2).
    exists l', r. split_and!; try done.
    by rewrite (wf_chain_len r W2), B2, length_drop, <-(wf_chain_len l Hl).
  - destruct l as [c w r h k ch n]. cbn [split_at]. cbn in Hp. by rewrite bool_decide_false.
Qed.

Definition example_lease : ChunkLease := append_to_chain (new_lease [1; 2; 3]%Z 1) (new_lease [4; 5]%Z 2).

Lemma lease_chain_witness :
  ∃ l' r, split_at example_lease 4 = Ok (l', r) ∧ lease_bytes l' = [1; 2; 3; 4]%Z ∧ lease_bytes r = [5]%Z.
Proof.
  destruct (lease_chain example_lease (new_lease [6]%Z 3) 4) as [_ H]; [vm_compute; auto..|].
  rewrite decide_True in H by (vm_compute; lia). destruct H as (l' & r & H1 & _ & _ & H4 & H5 & _).
  exists l', r. split_and!; [exact H1|exact H4|exact H5].
Defined.

(** Reading through [Buf]: reading [n] bytes returns the next [n] bytes whatever
    the slice boundaries and advances by [n], and panics exactly when fewer
    remain; [chunk] on an exhausted lease panics instead of returning an empty
    slice; [create_byte_clone] returns all unread bytes; converting to a
    [ChunkRef], with or without another chain around it, drops the bytes already
    read and keeps the rest in order. *)
Theorem lease_read (l : ChunkLease) (n : nat) (fuel : nat) (c : ChunkRef) :
  wf_lease l → wf_ref c → depth l < fuel →
  read_bytes l n = (if decide (n ≤ remaining l) then Ok (take n (readable l), advance l n) else Panic)
  ∧ (remaining l = 0 → chunk l = Panic)
  ∧ create_byte_clone l = Ok (readable l)
  ∧ (∃ r, into_chunk_ref fuel l = Ok r ∧ ref_bytes r = readable l ∧ wf_ref r)
  ∧ (∃ r, into_chunk_ref_with_tail fuel l c = Ok r ∧ ref_bytes r = readable l ++ ref_bytes c ∧ wf_ref r)
  ∧ (∃ r, into_chunk_ref_with_head fuel l c = Ok r ∧ ref_bytes r = ref_bytes c ++ readable l ∧ wf_ref r).
Proof.
  intros Hw Hc Hf. destruct (into_chunk_ref_spec fuel l Hw Hf) as (r & Hr & Hwr & Hb & _).
  pose proof (ref_append_wf r c Hwr Hc) as (T1 & T2 & _).
  pose proof (ref_append_wf c r Hc Hwr) as (H1 & H2 & _). pose proof Hw as [Hch Hrp].
  unfold into_chunk_ref_with_tail, into_chunk_ref_with_head. rewrite Hr. cbn [mbind res_bind]. split_and!.
  - by apply read_bytes_spec.
  - intros H0. apply get_chunk_at_end; [done|unfold remaining in H0; lia].
  - unfold create_byte_clone. by rewrite byte_clone_loop_spec by (done || lia).
  - eauto.
  - eexists. split; [done|]. by rewrite T2, Hb.
  - eexists. split; [done|]. by rewrite H2, Hb.
Qed.

Lemma lease_read_witness :
  read_bytes (advance example_lease 2) 2
    = (if decide (2 ≤ remaining (advance example_lease 2))
       then Ok (take 2 (readable (advance example_lease 2)), advance (advance example_lease 2) 2) else Panic)
  ∧ take 2 (readable (advance example_lease 2)) = [3; 4]%Z.
Proof.
  split; [|reflexivity].
  refine (proj1 (lease_read (advance example_lease 2) 2 3 (CRef [] 0 0 0 None 0) _ _ _)).
  - split; vm_compute; auto.
  - vm_compute; auto.
  - vm_compute; lia.
Defined.
