(* ===== verification/Frames.v ===== *)
(** * Network frames

    Model of [core/src/net/frames.rs], of [SessionId] in [core/src/net/mod.rs] and
    of [ChunkLease::insert_head] in [core/src/net/buffers/chunk_lease.rs].  Frames are
    encoded into a growing byte sequence and decoded from chunk leases, whose
    slice boundaries may fall anywhere. *)

From S2P Require Import Prelude Extern ChunkLease.

Definition MAGIC_NUM : Z := 3231824401. (* 0xC0A1BA11 *)
Definition FRAME_HEAD_LEN : nat := 4 + 4 + 1.

Inductive FramingError :=
| BufferCapacity
| UnsupportedFrameType
| InvalidMagicNum (magic : Z) (rest : list byte)
| InvalidFrame
| SerialisationError
| OptionError
| NoData
| Io.

Inductive FrameType := FT_Data | FT_Hello | FT_Start | FT_Ack | FT_Bye | FT_Unknown.

#[global] Instance FrameType_eq_dec : EqDecision FrameType.
Proof. solve_decision. Defined.

(** [self.frame_type as u8] and [FrameType::from(u8)]. *)
Definition frame_type_byte (t : FrameType) : Z :=
  match t with
  | FT_Data => 2 | FT_Hello => 4 | FT_Start => 5 | FT_Ack => 6 | FT_Bye => 7 | FT_Unknown => 8
  end.

Definition frame_type_from (byte : Z) : FrameType :=
  match byte with
  | 2 => FT_Data | 4 => FT_Hello | 5 => FT_Start | 6 => FT_Ack | 7 => FT_Bye | _ => FT_Unknown
  end%Z.

Record FrameHead := mkHead { head_type : FrameType; content_length : nat }.

#[global] Instance FrameHead_eq_dec : EqDecision FrameHead.
Proof. solve_decision. Defined.

Section Frames.
Context {B : BytesApi} {U : UuidApi}.

(** A session identifier is a UUID. *)
Definition SessionId : Type := Uuid.

Record Hello := mkHello { hello_addr : SocketAddr }.
Record Start := mkStart { start_addr : SocketAddr; start_id : SessionId }.

Inductive Frame :=
| FData (payload : ChunkLease)
| FHello (h : Hello)
| FStart (s : Start)
| FAck
| FBye.

Definition frame_type (f : Frame) : FrameType :=
  match f with
  | FData _ => FT_Data | FHello _ => FT_Hello | FStart _ => FT_Start | FAck => FT_Ack | FBye => FT_Bye
  end.

(** ** Encoding *)

(** [FrameHead::encode_into]: the length is cast to [u32]. *)
Definition head_bytes (h : FrameHead) : list byte :=
  put_uint 4 MAGIC_NUM ++ put_uint 4 (wrap 32 (Z.of_nat (content_length h)))
  ++ put_uint 1 (frame_type_byte (head_type h)).

(** Into a lease: three [put]s after the capacity assertion. *)
Definition head_encode_into (h : FrameHead) (dst : ChunkLease) : res Empty_set ChunkLease :=
  room ← remaining_mut dst;
  _ ← assert_ (bool_decide (FRAME_HEAD_LEN ≤ room));
  dst ← put_slice dst (put_uint 4 MAGIC_NUM);
  dst ← put_slice dst (put_uint 4 (wrap 32 (Z.of_nat (content_length h))));
  put_slice dst (put_uint 1 (frame_type_byte (head_type h))).

Definition insert_head (l : ChunkLease) (head : FrameHead) : res Empty_set ChunkLease :=
  let written := write_pointer l in
  let l := set_write_pointer l 0 in
  l ← head_encode_into head l;
  Ok (set_write_pointer l written).

Definition hello_encoded_len (h : Hello) : nat :=
  match sa_ip (hello_addr h) with V4 _ => 1 + 4 + 2 | V6 _ => 1 + 16 + 2 end.

Definition hello_encode_into (h : Hello) : list byte :=
  let addr := hello_addr h in
  match sa_ip addr with
  | V4 _ => put_uint 1 4 ++ octets (sa_ip addr) ++ put_uint 2 (sa_port addr)
  | V6 _ => put_uint 1 6 ++ octets (sa_ip addr) ++ put_uint 2 (sa_port addr)
  end.

Definition start_encoded_len (s : Start) : nat :=
  match sa_ip (start_addr s) with V4 _ => 1 + 4 + 2 + 16 | V6 _ => 1 + 16 + 2 + 16 end.

Definition start_encode_into (s : Start) : list byte :=
  let addr := start_addr s in
  match sa_ip addr with
  | V4 _ =>
      put_uint 1 4 ++ octets (sa_ip addr) ++ put_uint 2 (sa_port addr)
      ++ put_uint 16 (uuid_as_u128 (start_id s))
  | V6 _ =>
      put_uint 1 6 ++ octets (sa_ip addr) ++ put_uint 2 (sa_port addr)
      ++ put_uint 16 (uuid_as_u128 (start_id s))
  end.

(** [Data::encode_into]: [while payload.has_remaining() { put_slice(payload.chunk()) }].
    The result is [None] while the loop is still running after [fuel] rounds. *)
Fixpoint data_encode_loop (fuel : nat) (payload : ChunkLease) (dst : list byte)
    : option (res Empty_set (list byte)) :=
  if decide (0 < remaining payload) then
    match fuel with
    | O => None
    | S fuel =>
        match chunk payload with
        | Ok c => data_encode_loop fuel payload (dst ++ c)
        | _ => Some Panic
        end
    end
  else Some (Ok dst).

(** [Frame::encoded_len]: for data the inherent method, the whole capacity. *)
Definition encoded_len (f : Frame) : nat :=
  match f with
  | FData payload => capacity payload
  | FHello h => hello_encoded_len h
  | FStart s => start_encoded_len s
  | FAck | FBye => 0
  end.

(** [Frame::encode_into] for the frames without payload. *)
Definition encode_control (f : Frame) : option (list byte) :=
  let head := head_bytes (mkHead (frame_type f) (encoded_len f)) in
  match f with
  | FData _ => None
  | FHello h => Some (head ++ hello_encode_into h)
  | FStart s => Some (head ++ start_encode_into s)
  | FAck | FBye => Some head
  end.

(** ** Decoding *)
Definition lift {A} (m : res Empty_set A) : res FramingError A :=
  match m with Ok a => Ok a | Err e => match e with end | Panic => Panic end.

(** [Buf::get_uN] on a lease. *)
Definition get_lease_int (n : nat) (src : ChunkLease) : res FramingError (Z * ChunkLease) :=
  '(bs, src) ← lift (read_bytes src n); Ok (get_uint n bs, src).

Definition head_decode_from (src : ChunkLease) : res FramingError (FrameHead * ChunkLease) :=
  if decide (remaining src < FRAME_HEAD_LEN) then Err NoData
  else
    '(magic_check, src) ← get_lease_int 4 src;
    if decide (magic_check = MAGIC_NUM) then
      '(content_length, src) ← get_lease_int 4 src;
      '(t, src) ← get_lease_int 1 src;
      Ok (mkHead (frame_type_from t) (Z.to_nat content_length), src)
    else
      rest ← lift (chunk src);
      Err (InvalidMagicNum magic_check rest).

Definition data_decode_from (payload : ChunkLease) : res FramingError Frame := Ok (FData payload).

(** The address part shared by [Hello] and [Start]: a version byte, the address
    and the port; an unknown version panics. *)
Definition addr_decode_from (src : ChunkLease) : res FramingError (SocketAddr * ChunkLease) :=
  '(version, src) ← get_lease_int 1 src;
  if decide (version = 4%Z) then
    '(ip, src) ← get_lease_int 4 src;
    '(port, src) ← get_lease_int 2 src;
    Ok (MkSocketAddr (V4 ip) port, src)
  else if decide (version = 6%Z) then
    '(ip, src) ← get_lease_int 16 src;
    '(port, src) ← get_lease_int 2 src;
    Ok (MkSocketAddr (V6 ip) port, src)
  else Panic.

Definition hello_decode_from (src : ChunkLease) : res FramingError Frame :=
  '(addr, src) ← addr_decode_from src; Ok (FHello (mkHello addr)).

Definition start_decode_from (src : ChunkLease) : res FramingError Frame :=
  '(addr, src) ← addr_decode_from src;
  '(id, src) ← get_lease_int 16 src;
  Ok (FStart (mkStart addr (uuid_from_u128 id))).

(** ** Lemmas *)
Lemma length_head_bytes h : length (head_bytes h) = FRAME_HEAD_LEN.
Proof. unfold head_bytes. by rewrite !length_app, !length_put_uint. Qed.

Lemma frame_type_round t : frame_type_from (frame_type_byte t) = t.
Proof. by destruct t. Qed.

Lemma frame_type_byte_range t : (0 ≤ frame_type_byte t < 256 ^ Z.of_nat 1)%Z.
Proof. by destruct t. Qed.

(** Reading an integer that was just written, across any slice boundaries. *)
Lemma get_lease_put n v src rest : wf_lease src → (0 ≤ v < 256 ^ Z.of_nat n)%Z →
  readable src = put_uint n v ++ rest →
  ∃ src', get_lease_int n src = Ok (v, src') ∧ wf_lease src' ∧ readable src' = rest.
Proof.
  intros Hw Hv Hr. unfold get_lease_int. rewrite read_bytes_spec by done.
  assert (n ≤ remaining src) as Hn.
  { rewrite <-length_readable, Hr, length_app, length_put_uint by done. lia. }
  rewrite decide_True by done. cbn [lift mbind res_bind]. exists (advance src n).
  rewrite Hr, take_app_length_eq by (by rewrite length_put_uint).
  rewrite put_uint_be, get_uint_be by apply length_be_bytes. rewrite be_round_trip by done.
  split_and!; [done|by apply advance_wf|].
  rewrite readable_advance, Hr. by rewrite drop_app_length_eq by (by rewrite length_put_uint).
Qed.

Lemma head_decode_spec h src rest : wf_lease src → (Z.of_nat (content_length h) < 2 ^ 32)%Z →
  readable src = head_bytes h ++ rest →
  ∃ src', head_decode_from src = Ok (h, src') ∧ wf_lease src' ∧ readable src' = rest.
Proof.
  intros Hw Hl Hr. unfold head_decode_from. rewrite decide_False; last first.
  { rewrite <-length_readable, Hr, length_app, length_head_bytes by done. lia. }
  unfold head_bytes in Hr. rewrite wrap_small in Hr by (unfold in_u; lia). rewrite <-!app_assoc in Hr.
  destruct (get_lease_put 4 MAGIC_NUM src _ Hw ltac:(done) Hr) as (s1 & -> & W1 & R1).
  cbn [mbind res_bind]. rewrite decide_True by done.
  destruct (get_lease_put 4 (Z.of_nat (content_length h)) s1 _ W1 ltac:(lia) R1) as (s2 & -> & W2 & R2).
  cbn [mbind res_bind].
  destruct (get_lease_put 1 (frame_type_byte (head_type h)) s2 _ W2 (frame_type_byte_range _) R2)
    as (s3 & -> & W3 & R3).
  cbn [mbind res_bind]. exists s3. rewrite frame_type_round, Nat2Z.id. by destruct h.
Qed.

Lemma addr_decode_spec a src rest : wf_lease src → wf_socket a →
  readable src = put_uint 1 (match sa_ip a with V4 _ => 4 | V6 _ => 6 end) ++ octets (sa_ip a)
                 ++ put_uint 2 (sa_port a) ++ rest →
  ∃ src', addr_decode_from src = Ok (a, src') ∧ wf_lease src' ∧ readable src' = rest.
Proof.
  intros Hw [Hip Hport] Hr. unfold addr_decode_from. destruct a as [ip port]. cbn [sa_ip sa_port] in *.
  destruct (get_lease_put 1 (match ip with V4 _ => 4 | V6 _ => 6 end) src _ Hw ltac:(destruct ip; done) Hr)
    as (s1 & -> & W1 & R1). cbn [mbind res_bind].
  destruct ip as [i|i]; cbn [octets] in R1; rewrite <-put_uint_be in R1.
  - rewrite decide_True by done.
    destruct (get_lease_put 4 i s1 _ W1 Hip R1) as (s2 & -> & W2 & R2). cbn [mbind res_bind].
    destruct (get_lease_put 2 port s2 _ W2 Hport R2) as (s3 & -> & W3 & R3). cbn [mbind res_bind].
    by exists s3.
  - rewrite decide_False, decide_True by done.
    destruct (get_lease_put 16 i s1 _ W1 Hip R1) as (s2 & -> & W2 & R2). cbn [mbind res_bind].
    destruct (get_lease_put 2 port s2 _ W2 Hport R2) as (s3 & -> & W3 & R3). cbn [mbind res_bind].
    by exists s3.
Qed.

Lemma hello_decode_spec h src : wf_lease src → wf_socket (hello_addr h) →
  readable src = hello_encode_into h → hello_decode_from src = Ok (FHello h).
Proof.
  intros Hw Ha Hr. unfold hello_decode_from. destruct h as [a]. cbn [hello_addr] in *.
  destruct (addr_decode_spec a src [] Hw Ha) as (s & -> & _); [|done].
  rewrite Hr. unfold hello_encode_into. cbn [hello_addr]. rewrite app_nil_r. by destruct (sa_ip a).
Qed.

Lemma start_decode_spec st src : wf_lease src → wf_socket (start_addr st) →
  readable src = start_encode_into st → start_decode_from src = Ok (FStart st).
Proof.
  intros Hw Ha Hr. unfold start_decode_from. destruct st as [a id]. cbn [start_addr start_id] in *.
  destruct (addr_decode_spec a src (put_uint 16 (uuid_as_u128 id)) Hw Ha) as (s & -> & W & R).
  { rewrite Hr. unfold start_encode_into. cbn [start_addr start_id]. by destruct (sa_ip a). }
  cbn [mbind res_bind]. rewrite <-(app_nil_r (put_uint 16 _)) in R.
  destruct (get_lease_put 16 (uuid_as_u128 id) s [] W (uuid_as_u128_range id) R) as (s2 & -> & _).
  cbn [mbind res_bind]. by rewrite uuid_from_as_u128.
Qed.

Lemma data_encode_loop_diverges fuel payload dst : wf_lease payload → 0 < remaining payload →
  data_encode_loop fuel payload dst = None.
Proof.
  intros [Hw Hr] Hp. revert dst. induction fuel as [|fuel IH]; intros dst; cbn [data_encode_loop];
    rewrite decide_True by done; [done|].
  destruct (get_chunk_at_spec payload (read_pointer payload)) as (c & rest & Hc & _); [done|unfold remaining in Hp; lia|].
  unfold chunk. by rewrite Hc.
Qed.
End Frames.

(** ** Inserting the head into a padded lease *)
Lemma insert_head_spec {B : BytesApi} l h : wf_chain l →
  if decide (FRAME_HEAD_LEN ≤ chain_len l) then
    ∃ l', insert_head l h = Ok l' ∧ wf_chain l' ∧ chain_len l' = chain_len l
      ∧ read_pointer l' = read_pointer l ∧ write_pointer l' = write_pointer l
      ∧ lease_bytes l' = head_bytes h ++ drop FRAME_HEAD_LEN (lease_bytes l)
  else insert_head l h = Panic.
Proof.
  intros Hw. unfold insert_head, head_encode_into.
  assert (∃ l0, set_write_pointer l 0 = l0 ∧ wf_chain l0 ∧ chain_len l0 = chain_len l
    ∧ read_pointer l0 = read_pointer l ∧ write_pointer l0 = 0 ∧ lease_bytes l0 = lease_bytes l)
    as (l0 & -> & W0 & L0 & R0 & P0 & B0) by (destruct l; eexists; done).
  assert (remaining_mut l0 = Ok (chain_len l)) as Hroom
    by (unfold remaining_mut; rewrite P0, csub_Ok, Nat.sub_0_r, L0 by lia; done).
  unfold FRAME_HEAD_LEN in *. case_decide as Hl; rewrite Hroom; cbn [mbind res_bind];
    [|by rewrite bool_decide_false].
  rewrite bool_decide_true by done. cbn [assert_ mbind res_bind].
  pose proof (put_slice_spec l0 (put_uint 4 MAGIC_NUM) W0 ltac:(lia)) as H1.
  rewrite length_put_uint, decide_True in H1 by lia.
  destruct H1 as (l1 & -> & W1 & L1 & R1 & P1 & B1). cbn [mbind res_bind].
  pose proof (put_slice_spec l1 (put_uint 4 (wrap 32 (Z.of_nat (content_length h)))) W1 ltac:(lia)) as H2.
  rewrite length_put_uint, decide_True in H2 by lia.
  destruct H2 as (l2 & -> & W2 & L2 & R2 & P2 & B2). cbn [mbind res_bind].
  pose proof (put_slice_spec l2 (put_uint 1 (frame_type_byte (head_type h))) W2 ltac:(lia)) as H3.
  rewrite length_put_uint, decide_True in H3 by lia.
  destruct H3 as (l3 & -> & W3 & L3 & R3 & P3 & B3). cbn [mbind res_bind].
  exists (set_write_pointer l3 (write_pointer l)).
  assert (lease_bytes l3 = head_bytes h ++ drop 9 (lease_bytes l)) as HB; last first.
  { destruct l3 as [c w r hh k t n]. cbn in *. destruct W3. split_and!; try done; congruence. }
  rewrite P0, B0 in *. rewrite P1, P2 in *. cbn [Nat.add] in *. unfold head_bytes.
  set (a := put_uint 4 MAGIC_NUM) in *. set (b := put_uint 4 (wrap 32 _)) in *. set (c := put_uint 1 _) in *.
  assert (length a = 4 ∧ length b = 4 ∧ length c = 1) as (La & Lb & Lc) by (unfold a, b, c; by rewrite !length_put_uint).
  assert (lease_bytes l2 = (a ++ b) ++ drop 8 (lease_bytes l)) as HB2.
  { rewrite B2, B1, take_0, app_nil_l. rewrite take_app_length_eq by done. rewrite drop_app_ge by lia.
    rewrite La, drop_drop, <-app_assoc. done. }
  rewrite B3, HB2. rewrite take_app_length_eq by (rewrite length_app; lia).
  rewrite drop_app_ge by (rewrite length_app; lia). rewrite length_app, La, Lb, drop_drop, <-!app_assoc. done.
Qed.

(** ** Frames on the wire *)
Section Wire.
Context {B : BytesApi} {U : UuidApi}.

(** What a peer sends for a frame: its head, then its body. *)
Definition frame_body (f : Frame) : list byte :=
  match f with
  | FData payload => readable payload
  | FHello h => hello_encode_into h
  | FStart s => start_encode_into s
  | FAck | FBye => []
  end.

Definition frame_head (f : Frame) : FrameHead := mkHead (frame_type f) (length (frame_body f)).

Definition wire (f : Frame) : list byte := head_bytes (frame_head f) ++ frame_body f.

(** Frames that can be sent: well-formed addresses, a payload that is not empty
    and fits the 32-bit length field. *)
Definition frame_ok (f : Frame) : Prop :=
  match f with
  | FData payload => wf_lease payload ∧ 0 < remaining payload ∧ (Z.of_nat (remaining payload) < 2 ^ 32)%Z
  | FHello h => wf_socket (hello_addr h)
  | FStart s => wf_socket (start_addr s)
  | FAck | FBye => True
  end.

(** Equal up to the slicing of the payload. *)
Definition same_frame (f g : Frame) : Prop :=
  match f, g with
  | FData p, FData q => readable p = readable q
  | FHello h, FHello h' => h = h'
  | FStart s, FStart s' => s = s'
  | FAck, FAck | FBye, FBye => True
  | _, _ => False
  end.

Lemma length_hello h : length (hello_encode_into h) = hello_encoded_len h.
Proof.
  unfold hello_encode_into, hello_encoded_len. destruct (sa_ip (hello_addr h)) eqn:He;
    by rewrite !length_app, !length_put_uint, length_octets.
Qed.

Lemma length_start s : length (start_encode_into s) = start_encoded_len s.
Proof.
  unfold start_encode_into, start_encoded_len. destruct (sa_ip (start_addr s)) eqn:He;
    by rewrite !length_app, !length_put_uint, length_octets.
Qed.

(** [Frame::encode_into] produces the wire format. *)
Lemma encode_control_wire f : (∀ p, f ≠ FData p) → encode_control f = Some (wire f).
Proof.
  intros Hf. destruct f as [p|h|s| |]; [by destruct (Hf p)| | | |]; unfold encode_control, wire, frame_head; cbn.
  - by rewrite length_hello.
  - by rewrite length_start.
  - by rewrite app_nil_r.
  - by rewrite app_nil_r.
Qed.

Lemma frame_head_bound f : frame_ok f → (Z.of_nat (content_length (frame_head f)) < 2 ^ 32)%Z.
Proof.
  destruct f as [p|h|s| |]; cbn; [|intros _..|done|done].
  - intros (Hw & _ & Hl). by rewrite length_readable.
  - rewrite length_hello. unfold hello_encoded_len. by destruct (sa_ip (hello_addr h)).
  - rewrite length_start. unfold start_encoded_len. by destruct (sa_ip (start_addr s)).
Qed.

Lemma put_uint_inj n v v' : (0 ≤ v < 256 ^ Z.of_nat n)%Z → (0 ≤ v' < 256 ^ Z.of_nat n)%Z →
  put_uint n v = put_uint n v' → v = v'.
Proof.
  intros Hv Hv' H. rewrite !put_uint_be in H. apply (f_equal be_value) in H.
  by rewrite !be_round_trip in H.
Qed.

Lemma head_bytes_inj h h' : (Z.of_nat (content_length h) < 2 ^ 32)%Z →
  (Z.of_nat (content_length h') < 2 ^ 32)%Z → head_bytes h = head_bytes h' → h = h'.
Proof.
  intros Hl Hl' H. unfold head_bytes in H. apply app_inj_1 in H as [_ H]; [|by rewrite !length_put_uint].
  apply app_inj_1 in H as [H1 H2]; [|by rewrite !length_put_uint].
  rewrite !wrap_small in H1 by (unfold in_u; lia).
  apply put_uint_inj in H1; [|lia..]. apply put_uint_inj in H2; [|apply frame_type_byte_range..].
  apply (f_equal frame_type_from) in H2. rewrite !frame_type_round in H2.
  destruct h, h'. cbn in *. f_equal; [done|lia].
Qed.
End Wire.

(** ** Properties *)

(** Frame heads and control frames survive the wire whatever the slicing: from any
    lease whose unread bytes begin with an encoded head, the head is decoded and
    exactly nine bytes are consumed; a lease holding the body of a [Hello] or
    [Start] decodes to it; and the encoder writes head and body in the wire
    format with the announced length. *)
Theorem frame_round_trip {B : BytesApi} {U : UuidApi} (h : FrameHead) (he : Hello) (st : Start)
    (src : ChunkLease) (rest : list byte) :
  wf_lease src → (Z.of_nat (content_length h) < 2 ^ 32)%Z →
  wf_socket (hello_addr he) → wf_socket (start_addr st) →
  (readable src = head_bytes h ++ rest →
     ∃ src', head_decode_from src = Ok (h, src') ∧ wf_lease src' ∧ readable src' = rest)
  ∧ (readable src = hello_encode_into he → hello_decode_from src = Ok (FHello he))
  ∧ (readable src = start_encode_into st → start_decode_from src = Ok (FStart st))
  ∧ encode_control (FHello he) = Some (wire (FHello he))
  ∧ encode_control (FStart st) = Some (wire (FStart st))
  ∧ length (wire (FHello he)) = FRAME_HEAD_LEN + encoded_len (FHello he)
  ∧ length (wire (FStart st)) = FRAME_HEAD_LEN + encoded_len (FStart st).
Proof.
  intros Hw Hl Hh Hs. split_and!.
  - by apply head_decode_spec.
  - by apply hello_decode_spec.
  - by apply start_decode_spec.
  - by apply encode_control_wire.
  - by apply encode_control_wire.
  - unfold wire. cbn [frame_body]. by rewrite length_app, length_head_bytes, length_hello.
  - unfold wire. cbn [frame_body]. by rewrite length_app, length_head_bytes, length_start.
Qed.

Definition example_addr : SocketAddr := MkSocketAddr (V4 2130706433) 8080.

Lemma frame_round_trip_witness :
  ∃ src', head_decode_from (B:=be_bytes_api)
      (append_to_chain (new_lease (take 3 (head_bytes (mkHead FT_Data 77))) 1)
         (new_lease (drop 3 (head_bytes (mkHead FT_Data 77)) ++ [1; 2]%Z) 2)) = Ok (mkHead FT_Data 77, src')
    ∧ readable src' = [1; 2]%Z.
Proof.
  destruct (frame_round_trip (U:=uuid128_api) (mkHead FT_Data 77) (mkHello example_addr)
    (mkStart example_addr (uuid_from_u128 5))
    (append_to_chain (new_lease (take 3 (head_bytes (mkHead FT_Data 77))) 1)
         (new_lease (drop 3 (head_bytes (mkHead FT_Data 77)) ++ [1; 2]%Z) 2)) [1; 2]%Z) as [H _].
  - split; vm_compute; auto with lia.
  - cbn. lia.
  - split; vm_compute; split; congruence.
  - split; vm_compute; split; congruence.
  - destruct (H eq_refl) as (src' & H1 & _ & H3). exists src'. split; [exact H1|exact H3].
Defined.

(** Framing a serialised message in place: inserting a head into a padded lease
    overwrites exactly its first nine bytes, wherever the slices are cut, and
    restores the write position; a lease with less room makes it panic.  A
    message serialised behind a nine-byte pad and framed this way is the wire
    format of a data frame. *)
Theorem insert_head_frames {B : BytesApi} {U : UuidApi} (l : ChunkLease) (h : FrameHead) (payload : ChunkLease) :
  wf_chain l →
  (if decide (FRAME_HEAD_LEN ≤ capacity l) then
     ∃ l', insert_head l h = Ok l' ∧ wf_chain l' ∧ capacity l' = capacity l
       ∧ write_pointer l' = write_pointer l
       ∧ lease_bytes l' = head_bytes h ++ drop FRAME_HEAD_LEN (lease_bytes l)
       ∧ (h = mkHead FT_Data (capacity l - FRAME_HEAD_LEN) → wf_lease payload →
          readable payload = drop FRAME_HEAD_LEN (lease_bytes l) → lease_bytes l' = wire (FData payload))
   else insert_head l h = Panic).
Proof.
  intros Hw. pose proof (insert_head_spec l h Hw) as H. unfold capacity. case_decide as Hc; [|done].
  destruct H as (l' & Hi & W & L & R & P & Hb). exists l'. split_and!; try done.
  intros -> Hp Hr. rewrite Hb. unfold wire, frame_head. cbn [frame_body frame_type]. rewrite Hr.
  do 3 f_equal. rewrite length_drop. by rewrite (wf_chain_len l Hw).
Qed.

Lemma insert_head_frames_witness :
  ∃ l', insert_head (B:=be_bytes_api) (new_lease (replicate 9 0 ++ [7; 8])%Z 1) (mkHead FT_Data 2) = Ok l'
    ∧ lease_bytes l' = (head_bytes (mkHead FT_Data 2) ++ [7; 8])%Z.
Proof.
  pose proof (insert_head_frames (B:=be_bytes_api) (U:=uuid128_api) (new_lease (replicate 9 0 ++ [7; 8])%Z 1)
    (mkHead FT_Data 2) empty_lease) as H.
  rewrite decide_True in H by (vm_compute; lia). destruct H as (l' & H1 & _ & _ & _ & H2 & _).
  - vm_compute. auto.
  - exists l'. split; [exact H1|exact H2].
Defined.

(** [Data::encode_into] never finishes on a payload with unread bytes: its loop
    writes the same slice again and again, since it never advances the payload,
    although its documentation says that it consumes the data. *)
Theorem data_encode_diverges (payload : ChunkLease) (fuel : nat) (dst : list byte) :
  wf_lease payload →
  data_encode_loop fuel payload dst = (if decide (0 < remaining payload) then None else Some (Ok dst)).
Proof.
  intros Hw. case_decide as Hp; [by apply data_encode_loop_diverges|].
  destruct fuel; cbn [data_encode_loop]; by rewrite decide_False.
Qed.

Lemma data_encode_diverges_witness : data_encode_loop 1000 (new_lease [1; 2; 3]%Z 1) [] = None.
Proof. refine (data_encode_diverges (new_lease [1; 2; 3]%Z 1) 1000 [] _). split; vm_compute; auto with lia. Defined.
