(* ===== verification/Buffers.v ===== *)
(** * Buffer chunks and the buffer pool

    Model of [core/src/net/buffers/mod.rs] ([BufferConfig], [BufferChunk]) and
    [core/src/net/buffers/buffer_pool.rs].  A chunk owns its bytes and has an
    identity, since leases share them.  The strong count of its [Arc] is one plus
    the leases that are still alive, which the environment knows ([Refs]). *)

From S2P Require Import Prelude ChunkLease.

(** ** Configuration *)
Record BufferConfig := mkConfig {
  cfg_chunk_size : nat;
  cfg_initial_chunk_count : nat;
  cfg_max_chunk_count : nat;
  cfg_encode_buf_min_free_space : nat;
}.

Definition default_config : BufferConfig := mkConfig (Z.to_nat (128 * 1000)) 2 1000 64.

Definition validate {E} (c : BufferConfig) : res E () :=
  if decide (cfg_max_chunk_count c < cfg_initial_chunk_count c) then Panic
  else if decide (cfg_chunk_size c ≤ cfg_encode_buf_min_free_space c) then Panic
  else if decide (cfg_chunk_size c < 128) then Panic
  else if decide (cfg_max_chunk_count c < 2) then Panic
  else Ok ().

(** ** Chunks *)
Record BufferChunk := mkChunk { chunk_id : nat; data : list byte; locked : bool }.

(** Leases alive for each chunk. *)
Definition Refs := nat → nat.

(** [BufferChunk::from_chunk] of a chunk from the default allocator. *)
Definition new_chunk (id size : nat) : BufferChunk := mkChunk id (replicate size 0%Z) false.

Definition chunk_len (b : BufferChunk) : nat := length (data b).

(** [get_slice(from, to)] for reading. *)
Definition get_slice {E} (b : BufferChunk) (from to : nat) : res E (list byte) :=
  _ ← assert_ (bool_decide (from < to ∧ to ≤ chunk_len b) && negb (locked b));
  Ok (take (to - from) (drop from (data b))).

(** Writing [src] through [get_slice(from, to)], with [src] as long as the slice. *)
Definition write_slice {E} (b : BufferChunk) (from to : nat) (src : list byte) : res E BufferChunk :=
  _ ← assert_ (bool_decide (from < to ∧ to ≤ chunk_len b) && negb (locked b));
  Ok (mkChunk (chunk_id b) (take from (data b) ++ src ++ drop to (data b)) (locked b)).

Definition get_lease {E} (b : BufferChunk) (from to : nat) : res E ChunkLease :=
  slice ← get_slice b from to; Ok (new_lease slice (chunk_id b)).

(** [Arc::strong_count(&self.ref_count) < 2]. *)
Definition unreferenced (refs : Refs) (b : BufferChunk) : bool := bool_decide (1 + refs (chunk_id b) < 2).

Definition free (refs : Refs) (b : BufferChunk) : BufferChunk * bool :=
  if locked b then
    if unreferenced refs b then (mkChunk (chunk_id b) (data b) false, true) else (b, false)
  else (b, true).

Definition lock_chunk (b : BufferChunk) : BufferChunk := mkChunk (chunk_id b) (data b) true.

(** ** The pool *)
Record BufferPool := mkPool {
  pool : list BufferChunk;
  pool_size : nat;
  alloc_size : nat;          (** the chunk allocator *)
  pool_chunk_size : nat;
  max_pool_size : nat;
  next_id : nat;             (** identity of the next chunk the allocator hands out *)
}.

Definition set_pool (p : BufferPool) (l : list BufferChunk) : BufferPool :=
  mkPool l (pool_size p) (alloc_size p) (pool_chunk_size p) (max_pool_size p) (next_id p).

(** [with_config], with the chunk size of the allocator (the configured one for
    the default allocator); the chunks are pushed to the front one by one. *)
Definition pool_with_config {E} (c : BufferConfig) (custom_allocator : option nat) : res E BufferPool :=
  _ ← validate c;
  let alloc := default (cfg_chunk_size c) custom_allocator in
  let pool := foldl (λ l i, new_chunk i alloc :: l) [] (seq 0 (cfg_initial_chunk_count c)) in
  Ok (mkPool pool (cfg_initial_chunk_count c) alloc (cfg_chunk_size c)
        (cfg_max_chunk_count c) (cfg_initial_chunk_count c)).

(** [new_buffer]. *)
Definition new_buffer (p : BufferPool) : BufferPool * BufferChunk :=
  (mkPool (pool p) (pool_size p) (alloc_size p) (pool_chunk_size p) (max_pool_size p) (S (next_id p)),
   new_chunk (next_id p) (alloc_size p)).

Definition increase_pool (p : BufferPool) : BufferPool * option BufferChunk :=
  if decide (max_pool_size p ≤ pool_size p) then (p, None)
  else
    let p := mkPool (pool p) (pool_size p + 1) (alloc_size p) (pool_chunk_size p) (max_pool_size p) (next_id p) in
    let '(p, b) := new_buffer p in (p, Some b).

(** [for _i in 0..self.pool.len()]. *)
Fixpoint reclaim_loop (refs : Refs) (n : nat) (l : list BufferChunk) : list BufferChunk * option BufferChunk :=
  match n with
  | O => (l, None)
  | S n =>
      match l with
      | [] => reclaim_loop refs n l
      | buffer :: l =>
          let '(buffer, available) := free refs buffer in
          if available : bool then (l, Some buffer) else reclaim_loop refs n (l ++ [buffer])
      end
  end.

Definition try_reclaim (refs : Refs) (p : BufferPool) : BufferPool * option BufferChunk :=
  match reclaim_loop refs (length (pool p)) (pool p) with
  | (l, Some buffer) => (set_pool p l, Some buffer)
  | (l, None) => increase_pool (set_pool p l)
  end.

Definition get_buffer := try_reclaim.

Definition return_buffer (p : BufferPool) (buffer : BufferChunk) : BufferPool :=
  set_pool p (pool p ++ [lock_chunk buffer]).

Definition drain_returned (p : BufferPool) : BufferPool * list BufferChunk := (set_pool p [], pool p).

Lemma get_buffer_chunk_size refs p : pool_chunk_size (get_buffer refs p).1 = pool_chunk_size p.
Proof.
  unfold get_buffer, try_reclaim. destruct (reclaim_loop _ _ _) as [l [b|]]; [done|]. unfold increase_pool. by case_decide.
Qed.

Inductive BufferError := MessageTooBig | ReserveFailed.

(** [usize::div_ceil]. *)
Definition div_ceil (a b : nat) : nat := (a + b - 1) / b.

(** The [while] loop of [try_reserve]: [None] when a reclaim failed, in which case
    the buffers already taken are dropped. *)
Fixpoint reserve_loop (refs : Refs) (required : nat) (p : BufferPool) (reserved : list BufferChunk)
    : BufferPool * option (list BufferChunk) :=
  match required with
  | O => (p, Some reserved)
  | S required =>
      match try_reclaim refs p with
      | (p, Some reclaimed) => reserve_loop refs required p (reserved ++ [reclaimed])
      | (p, None) => (p, None)
      end
  end.

Definition try_reserve (refs : Refs) (p : BufferPool) (size : nat) : res Empty_set (BufferPool * option BufferError) :=
  if decide (pool_chunk_size p = 0) then Panic
  else
    let required_buffers := div_ceil size (pool_chunk_size p) in
    if decide (max_pool_size p < required_buffers) then Ok (p, Some MessageTooBig)
    else
      room ← csub (max_pool_size p) (pool_size p);
      if decide (required_buffers ≤ room) then Ok (p, None)
      else
        match reserve_loop refs required_buffers p [] with
        | (p, Some reserved) => Ok (set_pool p (foldl (λ l b, b :: l) (pool p) reserved), None)
        | (p, None) => Ok (p, Some ReserveFailed)
        end.

(** ** Invariant

    Every chunk in the pool without the lock flag is free of leases, its
    identity was handed out, and the limit is respected. *)
Definition pool_ok (refs : Refs) (p : BufferPool) : Prop :=
  pool_size p ≤ max_pool_size p
  ∧ NoDup (chunk_id <$> pool p)
  ∧ (∀ b, b ∈ pool p → chunk_id b < next_id p ∧ (locked b = false → refs (chunk_id b) = 0))
  ∧ (∀ i, next_id p ≤ i → refs i = 0).

Definition available (refs : Refs) (b : BufferChunk) : bool := negb (locked b) || unreferenced refs b.

Lemma free_available refs b : free refs b = (if locked b then
  (if unreferenced refs b then mkChunk (chunk_id b) (data b) false else b) else b, available refs b).
Proof. unfold free, available. destruct (locked b), (unreferenced refs b); by destruct b. Qed.

(** The loop finds the oldest available chunk and rotates those before it. *)
Lemma reclaim_loop_found refs l1 b l2 acc : Forall (λ x, available refs x = false) l1 →
  available refs b = true →
  reclaim_loop refs (length (l1 ++ b :: l2)) (l1 ++ b :: l2 ++ acc)
    = (l2 ++ acc ++ l1, Some (free refs b).1).
Proof.
  intros H Hb. revert acc. induction l1 as [|x l1 IH]; intros acc; cbn [app length reclaim_loop].
  - rewrite free_available, Hb. by rewrite app_nil_r.
  - apply Forall_cons in H as [Hx H]. rewrite free_available, Hx. cbn [app].
    assert ((if locked x then (if unreferenced refs x then mkChunk (chunk_id x) (data x) false else x) else x) = x)
      as Hxx.
    { unfold available in Hx. destruct (locked x); [|done]. by destruct (unreferenced refs x). }
    rewrite Hxx. rewrite <-app_assoc. cbn [app]. rewrite <-app_assoc. rewrite (IH H (acc ++ [x])).
    by rewrite <-app_assoc.
Qed.

Lemma reclaim_loop_none refs l acc : Forall (λ x, available refs x = false) l →
  reclaim_loop refs (length l) (l ++ acc) = (acc ++ l, None).
Proof.
  intros H. revert acc. induction l as [|x l IH]; intros acc; cbn; [by rewrite app_nil_r|].
  apply Forall_cons in H as [Hx H]. rewrite free_available, Hx.
  assert ((if locked x then (if unreferenced refs x then mkChunk (chunk_id x) (data x) false else x) else x) = x)
    as Hxx.
  { unfold available in Hx. destruct (locked x); [|done]. by destruct (unreferenced refs x). }
  rewrite Hxx, <-app_assoc, IH by done. by rewrite <-app_assoc.
Qed.

Lemma first_available refs (l : list BufferChunk) :
  Forall (λ x, available refs x = false) l
  ∨ ∃ l1 b l2, l = l1 ++ b :: l2 ∧ Forall (λ x, available refs x = false) l1 ∧ available refs b = true.
Proof.
  induction l as [|x l [IH|(l1 & b & l2 & -> & H1 & H2)]]; [by left| |].
  - destruct (available refs x) eqn:Hx; [right; exists [], x, l; done|by left; constructor].
  - destruct (available refs x) eqn:Hx; [right; exists [], x, (l1 ++ b :: l2); done|].
    right. exists (x :: l1), b, l2. split_and!; [done|by constructor|done].
Qed.

Lemma available_unreferenced refs p b : pool_ok refs p → b ∈ pool p → available refs b = true →
  refs (chunk_id b) = 0.
Proof.
  intros (_ & _ & Hp & _) Hb Ha. destruct (Hp b Hb) as [_ Hl]. unfold available, unreferenced in Ha.
  destruct (locked b); [|by apply Hl]. cbn in Ha. apply bool_decide_eq_true in Ha. lia.
Qed.

Lemma try_reclaim_cases refs p :
  (∃ l1 b l2, pool p = l1 ++ b :: l2 ∧ Forall (λ x, available refs x = false) l1 ∧ available refs b = true
     ∧ try_reclaim refs p = (set_pool p (l2 ++ l1), Some (free refs b).1))
  ∨ Forall (λ x, available refs x = false) (pool p) ∧ try_reclaim refs p = increase_pool p.
Proof.
  unfold try_reclaim. destruct (first_available refs (pool p)) as [H|(l1 & b & l2 & Hp & H1 & H2)].
  - right. split; [done|]. pose proof (reclaim_loop_none refs (pool p) [] H) as Hr.
    rewrite app_nil_r in Hr. rewrite Hr. cbn. by destruct p.
  - left. exists l1, b, l2. split_and!; try done. pose proof (reclaim_loop_found refs l1 b l2 [] H1 H2) as Hr.
    rewrite app_nil_r in Hr. rewrite Hp, Hr. done.
Qed.

Lemma free_chunk refs b : available refs b = true →
  chunk_id (free refs b).1 = chunk_id b ∧ data (free refs b).1 = data b ∧ locked (free refs b).1 = false.
Proof.
  intros Ha. rewrite free_available. unfold available in Ha. cbn [fst].
  destruct (locked b) eqn:Hl; cbn in *; [rewrite Ha|]; done.
Qed.

Lemma pool_ok_sub refs p l : pool_ok refs p → (∀ b, b ∈ l → b ∈ pool p) → NoDup (chunk_id <$> l) →
  pool_ok refs (set_pool p l).
Proof. intros (H1 & H2 & H3 & H4) Hl Hn. unfold pool_ok. cbn. split_and!; auto. Qed.

Lemma reclaim_pool_ok refs p l1 b l2 : pool_ok refs p → pool p = l1 ++ b :: l2 →
  pool_ok refs (set_pool p (l2 ++ l1)) ∧ chunk_id b ∉ chunk_id <$> (l2 ++ l1).
Proof.
  intros Hok Hp. assert (l1 ++ b :: l2 ≡ₚ b :: (l2 ++ l1)) as Hperm.
  { rewrite <-Permutation_middle. by rewrite (Permutation_app_comm l1). }
  pose proof Hok as (_ & Hn & _). rewrite Hp, Hperm, fmap_cons in Hn. apply NoDup_cons in Hn as [Hb Hn].
  split; [|done]. apply pool_ok_sub; [done| |done]. intros x Hx. rewrite Hp, Hperm. by right.
Qed.

(** What [increase_pool] does to a well-formed pool. *)
Lemma increase_pool_ok refs p : pool_ok refs p →
  match increase_pool p with
  | (p', Some b) => pool_ok refs p' ∧ b = new_chunk (next_id p) (alloc_size p) ∧ pool p' = pool p
      ∧ pool_size p' = S (pool_size p) ∧ next_id p' = S (next_id p) ∧ max_pool_size p' = max_pool_size p
  | (p', None) => p' = p ∧ pool_size p = max_pool_size p
  end.
Proof.
  intros (H1 & H2 & H3 & H4). unfold increase_pool. case_decide; [split; [done|lia]|]. cbn.
  split_and!; try done; [|lia]. unfold pool_ok. cbn. split_and!; [lia|done| |].
  - intros b Hb. destruct (H3 b Hb). split; [lia|done].
  - intros i Hi. apply H4. lia.
Qed.

Lemma filter_all {A} (P : A → Prop) `{!∀ x, Decision (P x)} l : Forall P l → filter P l = l.
Proof. induction 1; [done|]. rewrite filter_cons_True by done. by f_equal. Qed.

(** The buffers still in use are all that is left after a failed reservation. *)
Lemma reserve_loop_fails refs n p acc p' : pool_ok refs p →
  reserve_loop refs n p acc = (p', None) →
  pool p' ≡ₚ filter (λ b, available refs b = false) (pool p)
  ∧ pool_size p' = max_pool_size p ∧ pool_ok refs p'.
Proof.
  revert p acc. induction n as [|n IH]; intros p acc Hok H; [done|]. cbn in H.
  destruct (try_reclaim_cases refs p) as [(l1 & b & l2 & Hp & H1 & H2 & Hr)|[Hall Hr]]; rewrite Hr in H.
  - destruct (reclaim_pool_ok refs p l1 b l2 Hok Hp) as [Hok' _].
    destruct (IH _ _ Hok' H) as (Hperm & Hs & Hk). cbn in Hperm, Hs. split_and!; [|done|done].
    rewrite Hperm, Hp, !filter_app, filter_cons_False by congruence. apply Permutation_app_comm.
  - pose proof (increase_pool_ok refs p Hok) as Hi. destruct (increase_pool p) as [q [b|]].
    + destruct Hi as (Hq & _ & Hpool & _ & _ & Hmax). destruct (IH _ _ Hq H) as (Hperm & Hs & Hk).
      split_and!; [by rewrite Hperm, Hpool|by rewrite Hs, Hmax|done].
    + destruct Hi as [-> Hsz]. injection H as <-. split_and!; [|done|done].
      by rewrite filter_all.
Qed.

Lemma reserve_loop_ok refs n p acc p' res : pool_ok refs p →
  (∀ b, b ∈ acc → locked b = false ∧ refs (chunk_id b) = 0 ∧ chunk_id b < next_id p) →
  NoDup (chunk_id <$> acc) → (∀ b, b ∈ acc → chunk_id b ∉ chunk_id <$> pool p) →
  reserve_loop refs n p acc = (p', Some res) →
  pool_ok refs p' ∧ length res = length acc + n ∧ NoDup (chunk_id <$> res)
  ∧ (∀ b, b ∈ res → locked b = false ∧ refs (chunk_id b) = 0 ∧ chunk_id b < next_id p')
  ∧ (∀ b, b ∈ res → chunk_id b ∉ chunk_id <$> pool p').
Proof.
  revert p acc. induction n as [|n IH]; intros p acc Hok Hacc Hnd Hdis H; cbn in H.
  { injection H as <- <-. rewrite Nat.add_0_r. done. }
  destruct (try_reclaim_cases refs p) as [(l1 & b & l2 & Hp & H1 & H2 & Hr)|[Hall Hr]]; rewrite Hr in H.
  - destruct (reclaim_pool_ok refs p l1 b l2 Hok Hp) as [Hok' Hnb].
    destruct (free_chunk refs b H2) as (Fi & Fd & Fl).
    assert (b ∈ pool p) as Hbp by (rewrite Hp; apply elem_of_app; right; by left).
    assert (∀ x, x ∈ l2 ++ l1 → x ∈ pool p) as Hsub.
    { intros x. rewrite Hp, !elem_of_app, elem_of_cons. tauto. }
    eapply IH in H as (A & L & R); [rewrite length_app in L; cbn in L; split; [exact A|split; [lia|exact R]]|done|..].
    + intros x [Hx|Hx%list_elem_of_singleton]%elem_of_app; [by apply Hacc|]. subst x. rewrite Fi.
      split_and!; [done|by apply (available_unreferenced refs p)|]. destruct Hok as (_ & _ & Hk & _). by apply Hk.
    + rewrite fmap_app. apply NoDup_app. split_and!; [done| |apply NoDup_singleton].
      cbn. rewrite Fi. intros i Hi ->%list_elem_of_singleton. apply list_elem_of_fmap in Hi as (x & Hx & Hin).
      apply (Hdis x Hin). rewrite <-Hx. apply list_elem_of_fmap. eauto.
    + cbn [set_pool pool]. intros x [Hx|Hx%list_elem_of_singleton]%elem_of_app.
      * intros (y & Hy & Hyin)%list_elem_of_fmap. apply (Hdis x Hx). rewrite Hy. apply list_elem_of_fmap. eauto.
      * subst x. by rewrite Fi.
  - pose proof (increase_pool_ok refs p Hok) as Hi. destruct (increase_pool p) as [q [b|]]; [|done].
    destruct Hi as (Hq & -> & Hpool & _ & Hid & _). pose proof Hok as (_ & _ & Hk & Hfresh).
    eapply IH in H as (A & L & R); [rewrite length_app in L; cbn in L; split; [exact A|split; [lia|exact R]]|done|..].
    + intros x [Hx|Hx%list_elem_of_singleton]%elem_of_app.
      * destruct (Hacc x Hx) as (? & ? & ?). split_and!; [done|done|lia].
      * subst x. cbn. split_and!; [done|by apply Hfresh|lia].
    + rewrite fmap_app. apply NoDup_app. split_and!; [done| |apply NoDup_singleton].
      cbn. intros i Hi ->%list_elem_of_singleton. apply list_elem_of_fmap in Hi as (x & Hx & Hin).
      destruct (Hacc x Hin) as (_ & _ & ?). lia.
    + rewrite Hpool. intros x [Hx|Hx%list_elem_of_singleton]%elem_of_app; [by apply Hdis|]. subst x. cbn.
      intros (y & Hy & Hyin)%list_elem_of_fmap. destruct (Hk y Hyin). lia.
Qed.

Lemma return_buffer_ok refs p b : pool_ok refs p → chunk_id b < next_id p →
  chunk_id b ∉ chunk_id <$> pool p → pool_ok refs (return_buffer p b).
Proof.
  intros (H1 & H2 & H3 & H4) Hb Hn. unfold pool_ok. cbn. split_and!; [done| | |done].
  - rewrite fmap_app. apply NoDup_app. split_and!; [done| |apply NoDup_singleton].
    cbn. by intros i Hi ->%list_elem_of_singleton.
  - intros x [Hx|Hx%list_elem_of_singleton]%elem_of_app; [by apply H3|]. by subst x.
Qed.

Lemma push_front_elem (l acc : list BufferChunk) b : b ∈ foldl (λ l b, b :: l) acc l ↔ b ∈ l ∨ b ∈ acc.
Proof. revert acc. induction l as [|x l IH]; intros acc; cbn; [set_solver|]. rewrite IH. set_solver. Qed.

Lemma push_front_perm (l acc : list BufferChunk) : foldl (λ l b, b :: l) acc l ≡ₚ l ++ acc.
Proof.
  revert acc. induction l as [|x l IH]; intros acc; cbn; [done|]. rewrite IH. by rewrite Permutation_middle.
Qed.

(** C20: The pool never hands out memory that is still leased: in a well-formed pool
    [get_buffer] returns a chunk without live leases, unlocked and no longer in
    the pool, namely the oldest available one, or a fresh one only when all
    returned chunks are in use; it returns nothing only when all chunks are in
    use and the limit is reached.  The invariant is kept, also by returning a
    buffer. *)
Theorem pool_get_buffer (refs : Refs) (p : BufferPool) : pool_ok refs p →
  match get_buffer refs p with
  | (p', Some b) =>
      pool_ok refs p' ∧ refs (chunk_id b) = 0 ∧ locked b = false
      ∧ chunk_id b < next_id p' ∧ chunk_id b ∉ chunk_id <$> pool p'
      ∧ pool_ok refs (return_buffer p' b)
      ∧ (pool_size p' = pool_size p ∧ (∃ l1 b0 l2, pool p = l1 ++ b0 :: l2 ∧ chunk_id b0 = chunk_id b
             ∧ data b0 = data b ∧ Forall (λ x, 0 < refs (chunk_id x)) l1)
         ∨ pool_size p' = S (pool_size p) ∧ pool p' = pool p ∧ Forall (λ x, 0 < refs (chunk_id x)) (pool p))
  | (p', None) => p' = p ∧ pool_size p = max_pool_size p ∧ Forall (λ x, 0 < refs (chunk_id x)) (pool p)
  end.
Proof.
  intros Hok. unfold get_buffer.
  assert (∀ l, Forall (λ x, available refs x = false) l → Forall (λ x, 0 < refs (chunk_id x)) l) as Hbusy.
  { intros l Hl. eapply Forall_impl; [exact Hl|]. intros x. unfold available, unreferenced. destruct (locked x); [|done].
    cbn. rewrite bool_decide_eq_false. lia. }
  destruct (try_reclaim_cases refs p) as [(l1 & b & l2 & Hp & H1 & H2 & ->)|[Hall ->]].
  - destruct (reclaim_pool_ok refs p l1 b l2 Hok Hp) as [Hok' Hnb].
    destruct (free_chunk refs b H2) as (Fi & Fd & Fl).
    assert (b ∈ pool p) as Hbp by (rewrite Hp; apply elem_of_app; right; by left).
    assert (chunk_id b < next_id p) by (destruct Hok as (_ & _ & Hk & _); by apply Hk).
    rewrite Fi. split_and!; try done.
    + by apply (available_unreferenced refs p).
    + apply return_buffer_ok; by rewrite ?Fi.
    + left. split; [done|]. exists l1, b, l2. split_and!; [done|done|done|by apply Hbusy].
  - pose proof (increase_pool_ok refs p Hok) as Hi. destruct (increase_pool p) as [q [b|]].
    + destruct Hi as (Hq & -> & Hpool & Hs & Hid & _). pose proof Hok as (_ & _ & Hk & Hfresh). cbn.
      assert (next_id p ∉ chunk_id <$> pool q) as Hnin.
      { rewrite Hpool. intros (y & Hy & Hyin)%list_elem_of_fmap. destruct (Hk y Hyin). lia. }
      split_and!; try done; [by apply Hfresh|lia|apply return_buffer_ok; cbn; done || lia|].
      right. split_and!; [done|done|by apply Hbusy].
    + destruct Hi as [-> Hs]. split_and!; [done|done|by apply Hbusy].
Qed.

Definition example_config : BufferConfig := mkConfig 128 2 2 16.
Definition example_pool : BufferPool := mkPool [new_chunk 1 128; new_chunk 0 128] 2 128 128 2 2.

Lemma example_pool_ok refs : (∀ i, refs i = 0) → pool_ok refs example_pool.
Proof.
  intros H. unfold pool_ok, example_pool. cbn. split_and!; [lia| | |intros i _; apply H].
  - by apply (bool_decide_unpack (NoDup [1; 0])).
  - intros b Hb. split; [|intros _; apply H]. apply elem_of_cons in Hb as [->|Hb]; [cbn; lia|].
    apply list_elem_of_singleton in Hb as ->. cbn. lia.
Qed.

Lemma pool_get_buffer_witness :
  pool_with_config (E:=Empty_set) example_config None = Ok example_pool
  ∧ pool_ok (λ _, 0) (get_buffer (λ _, 0) example_pool).1.
Proof.
  split; [reflexivity|]. pose proof (pool_get_buffer (λ _, 0) example_pool (example_pool_ok _ (λ _, eq_refl))) as H.
  destruct (get_buffer (λ _, 0) example_pool) as [p' [b|]] eqn:He; [exact (proj1 H)|].
  destruct H as [-> _]. apply example_pool_ok. reflexivity.
Defined.

(** Reserving: on success either the limit leaves room for the message, or the
    pool now holds enough chunks without leases for it, and the invariant is
    kept.  On failure after reclaiming, every available chunk is dropped from
    the pool while the count of allocated chunks has been driven to the limit,
    so nothing can ever be allocated again and only chunks then still leased
    remain: the failed reservation destroys the pool's capacity. *)
Theorem pool_try_reserve (refs : Refs) (p : BufferPool) (size : nat) : pool_ok refs p → 0 < pool_chunk_size p →
  ∃ p' err, try_reserve refs p size = Ok (p', err) ∧
    match err with
    | None => pool_ok refs p'
        ∧ (p' = p ∧ div_ceil size (pool_chunk_size p) ≤ max_pool_size p - pool_size p
           ∨ ∃ l rest, pool p' = l ++ rest ∧ length l = div_ceil size (pool_chunk_size p)
               ∧ Forall (λ b, refs (chunk_id b) = 0 ∧ locked b = false) l)
    | Some MessageTooBig => p' = p ∧ max_pool_size p < div_ceil size (pool_chunk_size p)
    | Some ReserveFailed =>
        pool p' ≡ₚ filter (λ b, available refs b = false) (pool p) ∧ pool_size p' = max_pool_size p
    end.
Proof.
  intros Hok Hc. unfold try_reserve. rewrite decide_False by lia.
  set (n := div_ceil size (pool_chunk_size p)). case_decide as Hn; [exists p, (Some MessageTooBig); done|].
  pose proof Hok as (Hmax & _). rewrite csub_Ok by done. cbn [mbind res_bind].
  case_decide as Hroom; [exists p, None; eauto|].
  destruct (reserve_loop refs n p []) as [p' [res|]] eqn:Hr.
  - apply (reserve_loop_ok refs n p []) in Hr as (Hk & Hl & Hnd & Hres & Hdis);
      [|done|by intros b Hb%elem_of_nil|constructor|by intros b Hb%elem_of_nil].
    eexists _, None. split; [done|]. split.
    + destruct Hk as (K1 & K2 & K3 & K4). unfold pool_ok. cbn. split_and!; [done| | |done].
      * rewrite push_front_perm, fmap_app. apply NoDup_app. split_and!; [done| |done].
        intros i (x & -> & Hx)%list_elem_of_fmap. by apply Hdis.
      * intros b [Hb|Hb]%push_front_elem; [destruct (Hres b Hb) as (? & ? & ?); auto|by apply K3].
    + right. cbn. exists (rev res), (pool p').
      assert (∀ (l acc : list BufferChunk), foldl (λ l b, b :: l) acc l = rev l ++ acc) as Hrev.
      { induction l as [|x l IH]; intros acc; cbn; [done|]. by rewrite IH, <-app_assoc. }
      split_and!; [apply Hrev|by rewrite length_rev, Hl|]. apply Forall_forall. intros b Hb.
      apply list_elem_of_In, in_rev, list_elem_of_In in Hb. destruct (Hres b Hb) as (? & ? & ?). done.
  - apply reserve_loop_fails in Hr as (H1 & H2 & H3); [|done]. eexists _, (Some ReserveFailed). done.
Qed.

(** Two chunks of which number 1 is still leased. *)
Definition example_refs : Refs := λ i, if decide (i = 1) then 1 else 0.
Definition leased_pool : BufferPool := mkPool [lock_chunk (new_chunk 1 128); new_chunk 0 128] 2 128 128 2 2.

Lemma pool_try_reserve_witness :
  ∃ p', try_reserve example_refs leased_pool 200 = Ok (p', Some ReserveFailed)
    ∧ pool p' ≡ₚ [lock_chunk (new_chunk 1 128)] ∧ pool_size p' = 2.
Proof.
  destruct (pool_try_reserve example_refs leased_pool 200) as (p' & err & H & Herr).
  - unfold pool_ok, example_refs. cbn. split_and!; [lia| | |].
    + by apply (bool_decide_unpack (NoDup [1; 0])).
    + intros b Hb. apply elem_of_cons in Hb as [->|Hb]; [cbn; split; [lia|done]|].
      apply list_elem_of_singleton in Hb as ->. cbn. split; [lia|done].
    + intros i Hi. rewrite decide_False; [done|lia].
  - cbn. lia.
  - assert (err = Some ReserveFailed) as ->.
    { assert (try_reserve example_refs leased_pool 200 ≫= (λ r, Ok r.2) = Ok (Some ReserveFailed)) as He
        by (vm_compute; reflexivity). rewrite H in He. cbn in He. congruence. }
    exists p'. destruct Herr as [H1 H2]. split_and!; [exact H|exact H1|exact H2].
Defined.
