(* ===== verification/DecodeBuffer.v ===== *)
(** * The incremental frame decoder

    Model of [core/src/net/buffers/decode_buffer.rs]: bytes from the network are
    written into a chunk; full chunks are swapped for fresh ones, with what is
    still unread copied over or chained as a lease; complete frames are extracted
    from the front.  The theorems show that the frames decoded are exactly the
    frames sent, wherever the chunk boundaries fall. *)

From S2P Require Import Prelude Extern ChunkLease Frames Buffers.

Section Decode.
Context {B : BytesApi} {U : UuidApi}.

Record DecodeBuffer := mkDecode {
  buffer : BufferChunk;
  write_offset : nat;
  read_offset : nat;
  next_frame_head : option FrameHead;
  chain_head : option ChunkLease;
  buffer_config : BufferConfig;
}.

Definition new_decode (b : BufferChunk) (c : BufferConfig) : DecodeBuffer := mkDecode b 0 0 None None c.

Definition readable_len {E} (d : DecodeBuffer) : res E nat :=
  let len := match chain_head d with Some chain_head => remaining chain_head | None => 0 end in
  n ← csub (write_offset d) (read_offset d);
  Ok (len + n).

Definition writeable_len {E} (d : DecodeBuffer) : res E nat :=
  csub (chunk_len (buffer d)) (write_offset d).

Definition advance_writeable (d : DecodeBuffer) (num_bytes : nat) : DecodeBuffer :=
  mkDecode (buffer d) (write_offset d + num_bytes) (read_offset d) (next_frame_head d) (chain_head d) (buffer_config d).

Definition is_writeable {E} (d : DecodeBuffer) : res E bool :=
  n ← writeable_len d; Ok (bool_decide (8 < n)).

Definition set_buffer (d : DecodeBuffer) (b : BufferChunk) : DecodeBuffer :=
  mkDecode b (write_offset d) (read_offset d) (next_frame_head d) (chain_head d) (buffer_config d).

(** [get_writeable], the caller's write of [src] to the front of the slice it
    returns, and [advance_writeable]; [None] when the slice is refused. *)
Definition fill {E} (d : DecodeBuffer) (src : list byte) : res E (option DecodeBuffer) :=
  w ← is_writeable d;
  if w : bool then
    slice ← get_slice (buffer d) (write_offset d) (chunk_len (buffer d));
    b ← write_slice (buffer d) (write_offset d) (chunk_len (buffer d)) (src ++ drop (length src) slice);
    Ok (Some (advance_writeable (set_buffer d b) (length src)))
  else Ok None.

(** [get_overflow]: the readable part of the current chunk as a lease. *)
Definition get_overflow {E} (d : DecodeBuffer) : res E (DecodeBuffer * option ChunkLease) :=
  length ← csub (write_offset d) (read_offset d);
  if decide (0 < length) then
    lease ← get_lease (buffer d) (read_offset d) (write_offset d);
    Ok (mkDecode (buffer d) (write_offset d) (read_offset d + length) (next_frame_head d) (chain_head d)
          (buffer_config d), Some lease)
  else Ok (d, None).

(** [swap_buffer(other)]: the decoder and [other] afterwards. *)
Definition swap_buffer (refs : Refs) (d : DecodeBuffer) (other : BufferChunk)
    : res Empty_set (DecodeBuffer * BufferChunk) :=
  let '(other, is_free) := free refs other in
  _ ← assert_ is_free;
  '(d, overflow) ← get_overflow d;
  let old := buffer d in
  let d := mkDecode other 0 0 (next_frame_head d) (chain_head d) (buffer_config d) in
  let other := old in
  d ← match overflow with
      | Some overflow_chunk =>
          let overflow_len := remaining overflow_chunk in
          room ← writeable_len d;
          if bool_decide (overflow_len < room)
             && bool_decide (cfg_encode_buf_min_free_space (buffer_config d) < room - overflow_len) then
            '(bytes, _) ← read_bytes overflow_chunk overflow_len;
            b ← write_slice (buffer d) 0 overflow_len bytes;
            Ok (mkDecode b overflow_len 0 (next_frame_head d) (chain_head d) (buffer_config d))
          else
            Ok (mkDecode (buffer d) 0 0 (next_frame_head d)
                  (Some match chain_head d with
                        | Some chain_head => append_to_chain chain_head overflow_chunk
                        | None => overflow_chunk
                        end) (buffer_config d))
      | None => Ok d
      end;
  Ok (d, lock_chunk other).

Definition read_chunk_lease (d : DecodeBuffer) (length : nat) : res Empty_set (DecodeBuffer * ChunkLease) :=
  match chain_head d with
  | Some chain_head =>
      match Nat.compare (remaining chain_head) length with
      | Gt =>
          '(chain_head, tail) ← split_at chain_head length;
          Ok (mkDecode (buffer d) (write_offset d) (read_offset d) (next_frame_head d) (Some tail)
                (buffer_config d), chain_head)
      | Eq =>
          Ok (mkDecode (buffer d) (write_offset d) (read_offset d) (next_frame_head d) None
                (buffer_config d), chain_head)
      | Lt =>
          let tail_length := length - remaining chain_head in
          tail ← get_lease (buffer d) (read_offset d) (read_offset d + tail_length);
          Ok (mkDecode (buffer d) (write_offset d) (read_offset d + tail_length) (next_frame_head d) None
                (buffer_config d), append_to_chain chain_head tail)
      end
  | None =>
      lease ← get_lease (buffer d) (read_offset d) (read_offset d + length);
      Ok (mkDecode (buffer d) (write_offset d) (read_offset d + length) (next_frame_head d) None
            (buffer_config d), lease)
  end.

Definition set_head (d : DecodeBuffer) (h : option FrameHead) : DecodeBuffer :=
  mkDecode (buffer d) (write_offset d) (read_offset d) h (chain_head d) (buffer_config d).

(** Operations that may fail still change the decoder: they return its state and
    the outcome. *)
Definition decode_frame_head (d : DecodeBuffer) : DecodeBuffer * res FramingError () :=
  match next_frame_head d, readable_len (E:=FramingError) d with
  | None, Ok n =>
      if decide (FRAME_HEAD_LEN ≤ n) then
        match read_chunk_lease d FRAME_HEAD_LEN with
        | Ok (d, chunk_lease) =>
            match head_decode_from chunk_lease with
            | Ok (head, _) => (set_head d (Some head), Ok ())
            | Err e => (d, Err e)
            | Panic => (d, Panic)
            end
        | _ => (d, Panic)
        end
      else (d, Ok ())
  | None, _ => (d, Panic)
  | Some _, _ => (d, Ok ())
  end.

(** [map_err(|_| InvalidFrame)] on a body decoded from a fresh lease. *)
Definition decode_body (d : DecodeBuffer) (n : nat) (f : ChunkLease → res FramingError Frame)
    : DecodeBuffer * res FramingError Frame :=
  match read_chunk_lease d n with
  | Ok (d, lease) => (d, map_err (λ _, InvalidFrame) (f lease))
  | _ => (d, Panic)
  end.

Definition get_frame (d : DecodeBuffer) : DecodeBuffer * res FramingError Frame :=
  match decode_frame_head d with
  | (d, Ok _) =>
      match next_frame_head d, readable_len (E:=FramingError) d with
      | Some head, Ok n =>
          if decide (content_length head ≤ n) then
            let d := set_head d None in
            match head_type head with
            | FT_Data => decode_body d (content_length head) data_decode_from
            | FT_Hello => decode_body d (content_length head) hello_decode_from
            | FT_Start => decode_body d (content_length head) start_decode_from
            | FT_Bye => (d, Ok FBye)
            | FT_Ack => (d, Ok FAck)
            | FT_Unknown => (d, Err UnsupportedFrameType)
            end
          else (d, Err NoData)
      | None, _ => (d, Err NoData)
      | Some _, _ => (d, Panic)
      end
  | (d, Err e) => (d, Err e)
  | (d, Panic) => (d, Panic)
  end.

Definition has_frame (d : DecodeBuffer) : DecodeBuffer * res FramingError bool :=
  match decode_frame_head d with
  | (d, Ok _) =>
      match next_frame_head d, readable_len (E:=FramingError) d with
      | Some head, Ok n => (d, Ok (bool_decide (content_length head ≤ n)))
      | None, _ => (d, Ok false)
      | Some _, _ => (d, Panic)
      end
  | (d, Err _) => (d, Err Io)
  | (d, Panic) => (d, Panic)
  end.

(** ** The bytes a decoder holds *)
Definition chain_bytes (d : DecodeBuffer) : list byte :=
  match chain_head d with Some c => lease_bytes c | None => [] end.

(** The unread bytes, in order. *)
Definition pending (d : DecodeBuffer) : list byte :=
  chain_bytes d ++ take (write_offset d - read_offset d) (drop (read_offset d) (data (buffer d))).

(** The unread bytes with a head that has already been decoded put back. *)
Definition stream (d : DecodeBuffer) : list byte :=
  match next_frame_head d with Some h => head_bytes h | None => [] end ++ pending d.

Definition wf_decode (d : DecodeBuffer) : Prop :=
  read_offset d ≤ write_offset d ≤ chunk_len (buffer d) ∧ locked (buffer d) = false
  ∧ match chain_head d with
    | Some c => wf_chain c ∧ read_pointer c = 0 ∧ 0 < chain_len c
    | None => True
    end
  ∧ match next_frame_head d with Some h => (Z.of_nat (content_length h) < 2 ^ 32)%Z | None => True end.

Lemma wf_remaining c : read_pointer c = 0 → remaining c = chain_len c.
Proof. unfold remaining. intros ->. lia. Qed.

Lemma readable_len_Ok {E} d : wf_decode d → readable_len (E:=E) d = Ok (length (pending d)).
Proof.
  intros ([H1 H2] & _ & Hc & _). unfold readable_len. rewrite csub_Ok by done. cbn [mbind res_bind].
  unfold pending, chain_bytes. rewrite length_app, length_take, length_drop. unfold chunk_len in *. f_equal.
  destruct (chain_head d) as [c|]; cbn; [|lia]. destruct Hc as (Hw & Hr & _).
  rewrite wf_remaining, wf_chain_len by done. lia.
Qed.

Lemma get_lease_Ok {E} b from to : from < to → to ≤ chunk_len b → locked b = false →
  get_lease (E:=E) b from to = Ok (new_lease (take (to - from) (drop from (data b))) (chunk_id b)).
Proof.
  intros H1 H2 H3. unfold get_lease, get_slice. rewrite bool_decide_true by done. by rewrite H3.
Qed.

Lemma read_chunk_lease_spec d n : wf_decode d → n ≤ length (pending d) → (0 < n ∨ chain_head d ≠ None) →
  ∃ d' l, read_chunk_lease d n = Ok (d', l) ∧ wf_decode d' ∧ pending d' = drop n (pending d)
    ∧ next_frame_head d' = next_frame_head d ∧ wf_lease l ∧ readable l = take n (pending d)
    ∧ buffer d' = buffer d.
Proof.
  intros Hw Hn Hpos. pose proof Hw as ([H1 H2] & Hl & Hc & Hh). unfold read_chunk_lease.
  unfold pending in *. unfold chain_bytes in *. rewrite length_app, length_take, length_drop in Hn.
  unfold chunk_len in *.
  set (cur := take (write_offset d - read_offset d) (drop (read_offset d) (data (buffer d)))) in *.
  assert (length cur = write_offset d - read_offset d) as Hcur
    by (unfold cur; rewrite length_take, length_drop; lia).
  assert (∀ m, m ≤ length cur → take m (drop (read_offset d) (data (buffer d))) = take m cur) as Htake.
  { intros m Hm. unfold cur. rewrite take_take. f_equal. lia. }
  assert (∀ m, m ≤ length cur → take (write_offset d - (read_offset d + m)) (drop (read_offset d + m) (data (buffer d)))
      = drop m cur) as Hdrop.
  { intros m Hm. unfold cur. rewrite <-drop_drop, skipn_firstn_comm. f_equal. lia. }
  destruct (chain_head d) as [c|] eqn:Hch.
  - destruct Hc as (Hwc & Hr & Hpc). rewrite wf_remaining by done.
    pose proof (wf_chain_len c Hwc) as Hlen.
    destruct (Nat.compare_spec (chain_len c) n) as [<-|Hlt|Hgt].
    + do 2 eexists. split; [done|]. cbn. rewrite Hlen, take_app_length, drop_app_length.
      unfold wf_lease, readable. rewrite Hr, drop_0. split_and!; try done. lia.
    + set (m := n - chain_len c) in *. rewrite get_lease_Ok by (done || unfold m, chunk_len; lia).
      cbn [mbind res_bind]. replace (read_offset d + m - read_offset d) with m by lia.
      rewrite Htake by (unfold m; lia).
      destruct (new_lease_wf (take m cur) (chunk_id (buffer d))) as [[Wn _] Bn].
      destruct (append_wf c (new_lease (take m cur) (chunk_id (buffer d))) Hwc Wn eq_refl) as (Wa & Ba & _).
      do 2 eexists. split; [done|]. cbn. rewrite Hdrop by (unfold m; lia).
      unfold wf_lease, readable. rewrite append_read_pointer, Hr, drop_0, Ba, Bn.
      rewrite take_app_ge, drop_app_ge by lia. rewrite <-Hlen.
      split_and!; try done; unfold m, wf_decode, chunk_len; cbn; [split_and!; try done|]; lia.
    + destruct (split_at_wf c n Hwc ltac:(lia)) as (h & t & -> & W1 & B1 & L1 & R1 & W2 & B2 & R2 & _).
      cbn [mbind res_bind]. do 2 eexists. split; [done|]. cbn.
      rewrite B2, take_app_le, drop_app_le by lia.
      unfold wf_lease, readable. rewrite R1, Hr, drop_0, B1. split_and!; try done; [|lia].
      unfold wf_decode. cbn. split_and!; try done. rewrite (wf_chain_len t W2), B2, length_drop. lia.
  - destruct Hpos as [Hpos|?]; [|done]. cbn in Hn. rewrite get_lease_Ok by (done || unfold chunk_len; lia).
    cbn [mbind res_bind]. replace (read_offset d + n - read_offset d) with n by lia.
    rewrite Htake by lia. destruct (new_lease_wf (take n cur) (chunk_id (buffer d))) as [Wn Bn].
    do 2 eexists. split; [done|]. cbn [app next_frame_head buffer write_offset read_offset chain_head].
    rewrite Hdrop by lia. unfold readable. rewrite Bn. split_and!; try done.
    unfold wf_decode. cbn. unfold chunk_len. split_and!; try done; lia.
Qed.

(** ** Writing and swapping *)
Lemma fill_spec d src : wf_decode d → write_offset d + length src ≤ chunk_len (buffer d) →
  ∃ o, fill (E:=Empty_set) d src = Ok o ∧
    match o with
    | Some d' => wf_decode d' ∧ stream d' = stream d ++ src ∧ chunk_len (buffer d') = chunk_len (buffer d)
    | None => chunk_len (buffer d) ≤ write_offset d + 8
    end.
Proof.
  intros Hw Hs. pose proof Hw as ([H1 H2] & Hl & Hc & Hh). unfold fill, is_writeable, writeable_len.
  rewrite csub_Ok by done. cbn [mbind res_bind].
  case_bool_decide as H8; [|eexists; split; [done|cbn; lia]].
  unfold get_slice, write_slice. rewrite bool_decide_true by lia. rewrite Hl. cbn [andb negb assert_ mbind res_bind].
  eexists. split; [done|]. unfold chunk_len in *.
  set (dt := data (buffer d)) in *. rewrite (take_ge (drop _ dt)) by (rewrite length_drop; lia).
  rewrite drop_drop, (drop_ge dt (length dt)), app_nil_r by lia.
  assert (length (take (write_offset d) dt ++ src ++ drop (write_offset d + length src) dt) = length dt) as Hlen.
  { rewrite !length_app, length_take, length_drop. lia. }
  split_and!; [|unfold stream, pending, chain_bytes|done]; cbn; [unfold wf_decode, chunk_len; cbn; rewrite Hlen; split_and!; try done; lia|].
  rewrite <-!app_assoc. do 2 f_equal.
  rewrite drop_app_le by (rewrite length_take; lia).
  rewrite skipn_firstn_comm, app_assoc.
  set (mid := take (write_offset d - read_offset d) (drop (read_offset d) dt) ++ src).
  rewrite take_app_length_eq; [done|]. unfold mid. rewrite length_app, length_take, length_drop. fold dt. lia.
Qed.

Lemma get_overflow_spec d : wf_decode d →
  ∃ d' o, get_overflow (E:=Empty_set) d = Ok (d', o)
    ∧ buffer d' = buffer d ∧ next_frame_head d' = next_frame_head d ∧ chain_head d' = chain_head d
    ∧ buffer_config d' = buffer_config d
    ∧ match o with
      | Some l => wf_lease l ∧ read_pointer l = 0 ∧ 0 < chain_len l
          ∧ lease_bytes l = take (write_offset d - read_offset d) (drop (read_offset d) (data (buffer d)))
      | None => take (write_offset d - read_offset d) (drop (read_offset d) (data (buffer d))) = []
      end.
Proof.
  intros ([H1 H2] & Hl & Hc & Hh). unfold get_overflow. rewrite csub_Ok by done. cbn [mbind res_bind].
  case_decide as Hp.
  - rewrite get_lease_Ok by (done || lia). cbn [mbind res_bind]. do 2 eexists. split; [done|].
    unfold chunk_len in *. cbn [buffer next_frame_head chain_head buffer_config].
    set (bs := take _ _). destruct (new_lease_wf bs (chunk_id (buffer d))) as [[Hw1 Hw2] Hbn].
    split_and!; try done. cbn. unfold bs. rewrite length_take, length_drop. lia.
  - do 2 eexists. split; [done|]. split_and!; try done.
    replace (write_offset d - read_offset d) with 0 by lia. apply take_0.
Qed.

(** The branch of [swap_buffer] that chains the overflow. *)
Lemma swap_chain d other l oth : wf_decode d → wf_lease l → read_pointer l = 0 → 0 < chain_len l →
  locked oth = false → chunk_id oth = chunk_id other → data oth = data other →
  lease_bytes l = take (write_offset d - read_offset d) (drop (read_offset d) (data (buffer d))) →
  let d' := mkDecode oth 0 0 (next_frame_head d)
    (Some match chain_head d with Some c => append_to_chain c l | None => l end) (buffer_config d) in
  wf_decode d' ∧ stream d' = stream d ∧ chunk_id (buffer d') = chunk_id other
  ∧ chunk_len (buffer d') = chunk_len other ∧ lock_chunk (buffer d) = lock_chunk (buffer d).
Proof.
  intros ([H1 H2] & Hl & Hc & Hh) [Wl _] Rl Pl Fl Fi Fd Bl. cbn. unfold chunk_len in *. cbn.
  rewrite Fd. split_and!; try done.
  - unfold wf_decode, chunk_len. cbn. rewrite Fd.
    destruct (chain_head d) as [c|]; [|split_and!; try done; lia]. destruct Hc as (Wc & Rc & Pc).
    destruct (append_wf c l Wc Wl Rl) as (Wa & _). rewrite append_read_pointer, append_chain_len.
    split_and!; try done; lia.
  - unfold stream, pending, chain_bytes. cbn. rewrite take_0, app_nil_r. f_equal.
    destruct (chain_head d) as [c|]; [|by rewrite Bl]. destruct Hc as (Wc & Rc & Pc).
    destruct (append_wf c l Wc Wl Rl) as (_ & Ba & _). by rewrite Ba, Bl.
Qed.

Lemma swap_buffer_spec refs d other : wf_decode d → (free refs other).2 = true →
  ∃ d' o, swap_buffer refs d other = Ok (d', o) ∧ wf_decode d' ∧ stream d' = stream d
    ∧ chunk_id (buffer d') = chunk_id other ∧ chunk_len (buffer d') = chunk_len other
    ∧ o = lock_chunk (buffer d).
Proof.
  intros Hw Hfree. pose proof Hw as ([H1 H2] & Hl & Hc & Hh). unfold swap_buffer.
  assert (chunk_id (free refs other).1 = chunk_id other ∧ data (free refs other).1 = data other
    ∧ locked (free refs other).1 = false) as (Fi & Fd & Fl).
  { revert Hfree. unfold free. destruct (locked other) eqn:?, (unreferenced refs other); cbn; done. }
  destruct (free refs other) as [oth b]. cbn [fst snd] in *. subst b. cbn [assert_ mbind res_bind].
  destruct (get_overflow_spec d Hw) as (d1 & o & -> & Eb & Eh & Ec & Ecfg & Ho). cbn [mbind res_bind].
  rewrite Eb, Eh, Ec, Ecfg in *. unfold chunk_len in *. unfold stream, pending, chain_bytes.
  set (cur := take (write_offset d - read_offset d) (drop (read_offset d) (data (buffer d)))) in *.
  destruct o as [l|].
  - destruct Ho as (Wl & Rl & Pl & Bl). unfold writeable_len, chunk_len. cbn [write_offset buffer buffer_config].
    rewrite csub_Ok, Nat.sub_0_r by lia. cbn [mbind res_bind]. pose proof (wf_remaining l Rl) as Hrem.
    pose proof Wl as [Wc _]. pose proof (wf_chain_len l Wc) as Hlen. rewrite Bl in Hlen.
    assert (readable l = cur) as Hrd by (unfold readable; by rewrite Rl, drop_0, Bl).
    case_bool_decide as Hroom; cbn [andb].
    1: case_bool_decide as Hmin.
    + rewrite read_bytes_spec by done. rewrite decide_True by lia. cbn [mbind res_bind].
      rewrite Hrd, Hrem, take_ge by lia.
      unfold write_slice, chunk_len. rewrite bool_decide_true by lia. rewrite Fl. cbn [andb negb assert_ mbind res_bind].
      do 2 eexists. split; [done|]. cbn. rewrite Nat.sub_0_r, drop_0, take_0, app_nil_l.
      rewrite (take_app_length_eq cur) by done.
      assert (length (cur ++ drop (chain_len l) (data oth)) = length (data oth)) as Hlen'
        by (rewrite length_app, length_drop; lia).
      split_and!; try done; [|by rewrite Hlen', Fd].
      unfold wf_decode, chunk_len. cbn. rewrite Hlen'. split_and!; try done; lia.
    + do 2 eexists. split; [done|]. exact (swap_chain d other l oth Hw Wl Rl Pl Fl Fi Fd Bl).
    + do 2 eexists. split; [done|]. exact (swap_chain d other l oth Hw Wl Rl Pl Fl Fi Fd Bl).
  - do 2 eexists. split; [done|]. cbn. rewrite Ho, Fi, Fd, !app_nil_r.
    split_and!; try done. unfold wf_decode, chunk_len. cbn. split_and!; try done; lia.
Qed.
End Decode.

(** ** Decoding frames *)
Section FramesOut.
Context {B : BytesApi} {U : UuidApi}.

Lemma set_head_wf d h : wf_decode d →
  match h with Some h => (Z.of_nat (content_length h) < 2 ^ 32)%Z | None => True end → wf_decode (set_head d h).
Proof. intros (H1 & H2 & H3 & _) Hh. done. Qed.

(** A complete head at the front is decoded, once. *)
Lemma decode_head_full d h rest : wf_decode d → (Z.of_nat (content_length h) < 2 ^ 32)%Z →
  stream d = head_bytes h ++ rest →
  ∃ d', decode_frame_head d = (d', Ok ()) ∧ wf_decode d' ∧ next_frame_head d' = Some h ∧ pending d' = rest.
Proof.
  intros Hw Hl Hs. unfold decode_frame_head. unfold stream in Hs.
  destruct (next_frame_head d) as [h'|] eqn:Hn.
  - pose proof Hw as (_ & _ & _ & Hh). rewrite Hn in Hh.
    apply app_inj_1 in Hs as [He <-]; [|by rewrite !length_head_bytes].
    apply head_bytes_inj in He as ->; [|done..]. by exists d.
  - cbn in Hs. rewrite readable_len_Ok by done.
    rewrite decide_True by (rewrite Hs, length_app, length_head_bytes; lia).
    destruct (read_chunk_lease_spec d FRAME_HEAD_LEN Hw) as (d' & l & -> & Hw' & Hp & Hnh & Hwl & Hr & _).
    { rewrite Hs, length_app, length_head_bytes. lia. } { left. unfold FRAME_HEAD_LEN. lia. }
    rewrite Hs in Hp, Hr. rewrite take_app_length_eq in Hr by (by rewrite length_head_bytes).
    rewrite drop_app_length_eq in Hp by (by rewrite length_head_bytes).
    rewrite <-(app_nil_r (head_bytes h)) in Hr.
    destruct (head_decode_spec h l [] Hwl Hl Hr) as (l' & -> & _).
    exists (set_head d' (Some h)). split_and!; try done. by apply set_head_wf.
Qed.

Lemma decode_head_short d : wf_decode d → length (stream d) < FRAME_HEAD_LEN →
  decode_frame_head d = (d, Ok ()) ∧ next_frame_head d = None.
Proof.
  intros Hw Hs. unfold decode_frame_head, stream in *. destruct (next_frame_head d) as [h|].
  - rewrite length_app, length_head_bytes in Hs. lia.
  - rewrite app_nil_l in Hs. rewrite readable_len_Ok by done. by rewrite decide_False by lia.
Qed.

Lemma decode_body_spec d n f bs rest (Q : Frame → Prop) : wf_decode d → next_frame_head d = None →
  pending d = bs ++ rest → n = length bs → 0 < n →
  (∀ l, wf_lease l → readable l = bs → ∃ fr, f l = Ok fr ∧ Q fr) →
  ∃ d' fr, decode_body d n f = (d', Ok fr) ∧ Q fr ∧ wf_decode d' ∧ stream d' = rest.
Proof.
  intros Hw Hn Hp -> Hpos Hf. unfold decode_body.
  destruct (read_chunk_lease_spec d (length bs) Hw) as (d' & l & -> & Hw' & Hp' & Hn' & Hwl & Hr & _).
  { rewrite Hp, length_app. lia. } { by left. }
  rewrite Hp, take_app_length in Hr. rewrite Hp, drop_app_length in Hp'.
  destruct (Hf l Hwl Hr) as (fr & -> & HQ). exists d', fr. split_and!; try done.
  unfold stream. by rewrite Hn', Hn, Hp'.
Qed.

Lemma get_frame_good d f rest : wf_decode d → frame_ok f → stream d = wire f ++ rest →
  ∃ d' fr, get_frame d = (d', Ok fr) ∧ (same_frame f fr ∧ frame_ok fr) ∧ wf_decode d' ∧ stream d' = rest.
Proof.
  intros Hw Hf Hs. unfold wire in Hs. rewrite <-app_assoc in Hs. pose proof (frame_head_bound f Hf) as Hb.
  destruct (decode_head_full d (frame_head f) (frame_body f ++ rest) Hw Hb Hs) as (d1 & Hd & Hw1 & Hn1 & Hp1).
  unfold get_frame. rewrite Hd, Hn1, readable_len_Ok by done.
  rewrite decide_True by (rewrite Hp1, length_app; cbn; lia).
  pose proof (set_head_wf d1 None Hw1 I) as Hw2.
  assert (Hp2 : pending (set_head d1 None) = frame_body f ++ rest) by done.
  destruct f as [p|h|s| |]; cbn [frame_head frame_type head_type content_length].
  - destruct Hf as (Wp & Pp & Lp). cbn [frame_body] in *.
    eapply (decode_body_spec _ _ _ (readable p) rest); try done.
    + rewrite length_readable by done. done.
    + intros l Hwl Hr. exists (FData l). split; [done|]. split; [by cbn|]. split; [done|].
      by rewrite <-(length_readable l Hwl), Hr, length_readable.
  - cbn [frame_body] in *. eapply (decode_body_spec _ _ _ (hello_encode_into h) rest); try done.
    + rewrite length_hello. unfold hello_encoded_len. destruct (sa_ip _); lia.
    + intros l Hwl Hr. exists (FHello h). split; [by apply hello_decode_spec|by cbn].
  - cbn [frame_body] in *. eapply (decode_body_spec _ _ _ (start_encode_into s) rest); try done.
    + rewrite length_start. unfold start_encoded_len. destruct (sa_ip _); lia.
    + intros l Hwl Hr. exists (FStart s). split; [by apply start_decode_spec|by cbn].
  - do 2 eexists. split; [done|]. split_and!; try done.
  - do 2 eexists. split; [done|]. split_and!; try done.
Qed.

Lemma get_frame_full d f rest : wf_decode d → frame_ok f → stream d = wire f ++ rest →
  ∃ d' fr, get_frame d = (d', Ok fr) ∧ same_frame f fr ∧ wf_decode d' ∧ stream d' = rest.
Proof.
  intros Hw Hf Hs. destruct (get_frame_good d f rest Hw Hf Hs) as (d' & fr & H1 & [H2 _] & H3). by exists d', fr.
Qed.

(** With only part of a frame there, nothing is returned and nothing is lost. *)
Lemma get_frame_part d f missing : wf_decode d → frame_ok f → wire f = stream d ++ missing → missing ≠ [] →
  ∃ d', get_frame d = (d', Err NoData) ∧ wf_decode d' ∧ stream d' = stream d.
Proof.
  intros Hw Hf Hs Hm. unfold get_frame.
  destruct (decide (length (stream d) < FRAME_HEAD_LEN)) as [Hlt|Hge].
  - destruct (decode_head_short d Hw Hlt) as [-> Hn]. exists d. by rewrite Hn.
  - pose proof (frame_head_bound f Hf) as Hb. unfold wire in Hs.
    pose proof (f_equal (take FRAME_HEAD_LEN) Hs) as Ht.
    rewrite take_app_length_eq in Ht by (by rewrite length_head_bytes). rewrite take_app_le in Ht by lia.
    assert (stream d = head_bytes (frame_head f) ++ drop FRAME_HEAD_LEN (stream d)) as Hst
      by (rewrite Ht; by rewrite take_drop).
    destruct (decode_head_full d (frame_head f) _ Hw Hb Hst) as (d1 & Hd & Hw1 & Hn1 & Hp1).
    assert (stream d1 = stream d) as Hs1 by (unfold stream at 1; by rewrite Hn1, Hp1).
    rewrite Hd, Hn1, readable_len_Ok by done. rewrite decide_False; [by exists d1|].
    rewrite Hp1. apply (f_equal length) in Hs. rewrite !length_app, length_head_bytes in Hs.
    rewrite length_drop. cbn [frame_head content_length]. destruct missing; [done|]. cbn [length] in Hs. lia.
Qed.

(** ** Any interleaving of network reads, chunk swaps and decoding *)
Inductive Event :=
| Fill (bs : list byte)             (** bytes read from the socket *)
| Swap (refs : Refs) (other : BufferChunk)
| Get.

(** An event that is possible in a state: what it leads to, and the frame it
    returns. *)
Inductive dstep : DecodeBuffer → Event → DecodeBuffer → list Frame → Prop :=
| step_fill d bs d' : write_offset d + length bs ≤ chunk_len (buffer d) →
    fill (E:=Empty_set) d bs = Ok (Some d') → dstep d (Fill bs) d' []
| step_swap refs d other d' o : (free refs other).2 = true →
    swap_buffer refs d other = Ok (d', o) → dstep d (Swap refs other) d' []
| step_get d d' f : get_frame d = (d', Ok f) → dstep d Get d' [f]
| step_get_none d d' : get_frame d = (d', Err NoData) → dstep d Get d' [].

Inductive dsteps : DecodeBuffer → list Event → DecodeBuffer → list Frame → Prop :=
| dsteps_nil d : dsteps d [] d []
| dsteps_cons d e d1 fs1 es d2 fs2 : dstep d e d1 fs1 → dsteps d1 es d2 fs2 →
    dsteps d (e :: es) d2 (fs1 ++ fs2).

(** The same as a function; [None] when an event is not possible. *)
Definition run_event (d : DecodeBuffer) (e : Event) : option (DecodeBuffer * list Frame) :=
  match e with
  | Fill bs =>
      if decide (write_offset d + length bs ≤ chunk_len (buffer d)) then
        match fill (E:=Empty_set) d bs with Ok (Some d') => Some (d', []) | _ => None end
      else None
  | Swap refs other =>
      if decide ((free refs other).2 = true) then
        match swap_buffer refs d other with Ok (d', _) => Some (d', []) | _ => None end
      else None
  | Get =>
      match get_frame d with
      | (d', Ok f) => Some (d', [f])
      | (d', Err NoData) => Some (d', [])
      | _ => None
      end
  end.

Fixpoint run_events (d : DecodeBuffer) (es : list Event) : option (DecodeBuffer * list Frame) :=
  match es with
  | [] => Some (d, [])
  | e :: es => '(d1, fs1) ← run_event d e; '(d2, fs2) ← run_events d1 es; Some (d2, fs1 ++ fs2)
  end.

Lemma run_event_dstep d e d' fs : run_event d e = Some (d', fs) → dstep d e d' fs.
Proof.
  destruct e as [bs|refs other|]; cbn.
  - case_decide; [|done]. destruct (fill d bs) as [[d1|]| |] eqn:Hf; try done. intros [= <- <-]. by constructor.
  - case_decide; [|done]. destruct (swap_buffer refs d other) as [[d1 o]| |] eqn:Hs; try done.
    intros [= <- <-]. by econstructor.
  - destruct (get_frame d) as [d1 [f|e|]] eqn:Hg; try done.
    + intros [= <- <-]. by constructor.
    + destruct e; try done. intros [= <- <-]. by constructor.
Qed.

Lemma run_events_dsteps d es d' fs : run_events d es = Some (d', fs) → dsteps d es d' fs.
Proof.
  revert d d' fs. induction es as [|e es IH]; intros d d' fs; cbn; [intros [= <- <-]; constructor|].
  intros ([d1 fs1] & H1 & ([d2 fs2] & H2 & [= <- <-])%bind_Some)%bind_Some.
  econstructor; [by apply run_event_dstep|by apply IH].
Qed.

Definition event_bytes (e : Event) : list byte := match e with Fill bs => bs | _ => [] end.
Definition wires (fs : list Frame) : list byte := mjoin (wire <$> fs).

(** A stream against the frames still expected. *)
Lemma front_cases (s rest : list byte) f fs : s ++ rest = wires (f :: fs) →
  (∃ s', s = wire f ++ s') ∨ (∃ missing, wire f = s ++ missing ∧ missing ≠ []).
Proof.
  intros H. unfold wires in H. cbn in H. destruct (decide (length (wire f) ≤ length s)) as [Hl|Hl].
  - left. exists (drop (length (wire f)) s).
    apply (f_equal (take (length (wire f)))) in H. rewrite take_app_le, take_app_length in H by done.
    rewrite <-H at 1. by rewrite take_drop.
  - right. exists (drop (length s) (wire f)).
    apply (f_equal (take (length s))) in H. rewrite take_app_length, take_app_le in H by lia.
    split; [rewrite H at 1; by rewrite take_drop|].
    intros He%(f_equal length). rewrite length_drop in He. cbn in He. lia.
Qed.

Lemma wire_not_nil f : wire f ≠ [].
Proof. intros H%(f_equal length). unfold wire in H. rewrite length_app, length_head_bytes in H. done. Qed.

(** Invariant of a run: the frames returned are the next expected ones and the
    stream holds the bytes that follow them. *)
Lemma dsteps_spec d es d' outs fs rest : wf_decode d → Forall frame_ok fs →
  dsteps d es d' outs → stream d ++ mjoin (event_bytes <$> es) ++ rest = wires fs →
  ∃ done todo, fs = done ++ todo ∧ Forall2 same_frame done outs
    ∧ wf_decode d' ∧ stream d' ++ rest = wires todo.
Proof.
  intros Hw Hok Hrun. revert fs Hw Hok. induction Hrun as [d|d e d1 fs1 es d2 fs2 Hst Hrun IH]; intros fs Hw Hok Hs.
  - cbn in Hs. by exists [], fs.
  - rewrite fmap_cons in Hs. cbn [mjoin list_join] in Hs. rewrite <-app_assoc in Hs.
    inversion Hst as [? bs ? Hroom Hf|refs ? oth ? o Hfr Hsw|? ? f Hg|? ? Hg]; subst.
    + destruct (fill_spec d bs Hw Hroom) as (o & Hf' & Ho). rewrite Hf in Hf'. injection Hf' as <-.
      destruct Ho as (Hw1 & Hs1 & _). apply IH; [done|done|]. rewrite Hs1, <-app_assoc. exact Hs.
    + destruct (swap_buffer_spec refs d oth Hw Hfr) as (d1' & o' & Hsw' & Hw1 & Hs1 & _).
      rewrite Hsw in Hsw'. injection Hsw' as <- <-. apply IH; [done|done|]. by rewrite Hs1.
    + destruct fs as [|g fs].
      { apply app_nil in Hs as [Hs _]. unfold get_frame in Hg.
        destruct (decode_head_short d Hw) as [Hd Hn]; [rewrite Hs; cbn; lia|].
        by rewrite Hd, Hn in Hg. }
      pose proof (Forall_inv Hok) as Hg_ok. destruct (front_cases _ _ _ _ Hs) as [[s' Hs']|(m & Hm & Hmn)].
      * destruct (get_frame_full d g s' Hw Hg_ok Hs') as (d1' & fr & Hg' & Hsame & Hw1 & Hs1).
        rewrite Hg in Hg'. injection Hg' as <- <-.
        destruct (IH fs Hw1 (Forall_inv_tail Hok)) as (dn & td & -> & Hall & Hw2 & Hs2).
        { rewrite Hs1. unfold wires in Hs. cbn in Hs. rewrite Hs', <-app_assoc in Hs.
          by apply app_inv_head in Hs. }
        exists (g :: dn), td. split_and!; try done. cbn. by constructor.
      * destruct (get_frame_part d g m Hw Hg_ok Hm Hmn) as (d1' & Hg' & _). rewrite Hg in Hg'. done.
    + cbn [event_bytes app] in Hs. assert (wf_decode d1 ∧ stream d1 = stream d) as [Hw1 Hs1].
      { destruct fs as [|g fs].
        { apply app_nil in Hs as [Hs _]. unfold get_frame in Hg.
          destruct (decode_head_short d Hw) as [Hd Hn]; [rewrite Hs; cbn; lia|].
          rewrite Hd, Hn in Hg. by injection Hg as <-. }
        pose proof (Forall_inv Hok) as Hg_ok. destruct (front_cases _ _ _ _ Hs) as [[s' Hs']|(m & Hm & Hmn)].
        - destruct (get_frame_full d g s' Hw Hg_ok Hs') as (d1' & fr & Hg' & _). rewrite Hg in Hg'. done.
        - destruct (get_frame_part d g m Hw Hg_ok Hm Hmn) as (d1' & Hg' & Hw1 & Hs1). rewrite Hg in Hg'.
          by injection Hg' as <-. }
      apply IH; [done|done|]. by rewrite Hs1.
Qed.
End FramesOut.

(** ** Properties *)

(** C6: Stream decoding is correct: starting from a fresh chunk, however the bytes of a
    sequence of frames arrive (any split over socket reads), however often and
    with whatever chunks the buffer is swapped in between, and however often a
    frame is asked for, the frames returned are the frames sent, in order, and
    the decoder holds exactly the bytes received after them.  In every state
    reached, asking for a frame returns one exactly when the next one is
    complete and otherwise reports [NoData]; swapping with any free chunk
    succeeds; and a write that fits is refused only when at most eight bytes are
    left. *)
Theorem decode_stream {B : BytesApi} {U : UuidApi} (b : BufferChunk) (c : BufferConfig)
    (es : list Event) (d : DecodeBuffer) (outs fs : list Frame) (rest : list byte) :
  locked b = false → Forall frame_ok fs → dsteps (new_decode b c) es d outs →
  mjoin (event_bytes <$> es) ++ rest = wires fs →
  ∃ done todo, fs = done ++ todo ∧ Forall2 same_frame done outs
    ∧ wires done ++ stream d = mjoin (event_bytes <$> es)
    ∧ (match todo with
       | f :: _ => if decide (length (wire f) ≤ length (stream d))
                   then ∃ d' fr, get_frame d = (d', Ok fr) ∧ same_frame f fr
                   else ∃ d', get_frame d = (d', Err NoData) ∧ stream d' = stream d
       | [] => ∃ d', get_frame d = (d', Err NoData)
       end)
    ∧ (∀ refs other, (free refs other).2 = true → ∃ d' o, swap_buffer refs d other = Ok (d', o))
    ∧ (∀ bs, write_offset d + length bs ≤ chunk_len (buffer d) →
         ∃ o, fill (E:=Empty_set) d bs = Ok o ∧ (o = None → chunk_len (buffer d) ≤ write_offset d + 8)).
Proof.
  intros Hb Hok Hrun Hs.
  assert (Hw0 : wf_decode (new_decode b c)) by (unfold wf_decode; cbn; split_and!; done || lia).
  assert (Hs0 : stream (new_decode b c) = []) by (unfold stream, pending, chain_bytes; cbn; by rewrite take_0).
  destruct (dsteps_spec _ es d outs fs rest Hw0 Hok Hrun) as (dn & td & -> & Hall & Hw & Hst); [by rewrite Hs0|].
  exists dn, td. split; [done|]. split; [done|]. split.
  { unfold wires in *. rewrite fmap_app, join_app, <-Hst, app_assoc in Hs. by apply app_inv_tail in Hs. }
  apply Forall_app in Hok as [_ Htd]. split_and!.
  - destruct td as [|f td].
    { apply app_nil in Hst as [Hst _]. destruct (decode_head_short d Hw) as [Hd Hn]; [rewrite Hst; cbn; lia|].
      unfold get_frame. rewrite Hd, Hn. eauto. }
    pose proof (Forall_inv Htd) as Hf. destruct (front_cases _ _ _ _ Hst) as [[s' Hs']|(m & Hm & Hmn)].
    + rewrite decide_True by (rewrite Hs', length_app; lia).
      destruct (get_frame_full d f s' Hw Hf Hs') as (d' & fr & Hg & Hsame & _). eauto.
    + rewrite decide_False.
      * destruct (get_frame_part d f m Hw Hf Hm Hmn) as (d' & Hg & _ & Hs'). eauto.
      * rewrite Hm, length_app. destruct m; [done|]. cbn. lia.
  - intros refs other Hfr. destruct (swap_buffer_spec refs d other Hw Hfr) as (d' & o & Hsw & _). eauto.
  - intros bs Hbs. destruct (fill_spec d bs Hw Hbs) as (o & Hf & Ho). exists o. split; [done|]. by intros ->.
Qed.

(** A run over two chunks: an [Ack] whose head is cut by a swap. *)
Section ExampleRun.
Context {U : UuidApi}.

Definition example_events : list Event :=
  let w := wires (B:=be_bytes_api) [FAck; FBye] in
  [Fill (take 5 w); Get; Swap (λ _, 0) (new_chunk 1 32); Fill (drop 5 w); Get].

Definition example_start : DecodeBuffer := new_decode (new_chunk 0 32) (mkConfig 32 1 2 4).
Definition example_end : DecodeBuffer :=
  match run_events (B:=be_bytes_api) example_start example_events with
  | Some (d, _) => d
  | None => example_start
  end.

Lemma example_run : run_events (B:=be_bytes_api) example_start example_events = Some (example_end, [FAck]).
Proof. vm_compute. reflexivity. Qed.

Lemma example_bytes : mjoin (event_bytes <$> example_events) ++ [] = wires (B:=be_bytes_api) [FAck; FBye].
Proof. vm_compute. reflexivity. Qed.
End ExampleRun.

Lemma decode_stream_witness :
  ∃ dn todo, [FAck (U:=uuid128_api); FBye] = dn ++ todo ∧ Forall2 same_frame dn [FAck].
Proof.
  assert (Forall (frame_ok (U:=uuid128_api)) [FAck; FBye]) as Hok by (repeat constructor).
  destruct (decode_stream (new_chunk 0 32) (mkConfig 32 1 2 4) example_events example_end [FAck] [FAck; FBye] []
    eq_refl Hok (run_events_dsteps _ _ _ _ example_run) example_bytes) as (dn & td & H1 & H2 & _).
  exists dn, td. split; [exact H1|exact H2].
Defined.

(** A data frame of length zero crashes the decoder: its head is accepted, and
    extracting the empty body from the current chunk fails an assertion. *)
Theorem empty_data_frame_panics {B : BytesApi} {U : UuidApi} (d : DecodeBuffer) (rest : list byte) :
  wf_decode d → chain_head d = None → stream d = head_bytes (mkHead FT_Data 0) ++ rest →
  (get_frame d).2 = Panic.
Proof.
  intros Hw Hc Hs. unfold get_frame, decode_frame_head, stream in *.
  pose proof Hw as ([H1 H2] & Hl & _ & Hh).
  assert (∀ d1 : DecodeBuffer, chain_head d1 = None → decode_body d1 0 data_decode_from = (d1, Panic)) as Hbody.
  { intros d1 Hd1. unfold decode_body, read_chunk_lease. rewrite Hd1. unfold get_lease, get_slice.
    by rewrite bool_decide_false by lia. }
  destruct (next_frame_head d) as [h|] eqn:Hn.
  - apply app_inj_1 in Hs as [He Hp]; [|by rewrite !length_head_bytes].
    apply head_bytes_inj in He as ->; [|done..]. rewrite Hn, readable_len_Ok by done. cbn [content_length head_type].
    rewrite decide_True by lia. by rewrite Hbody.
  - rewrite app_nil_l in Hs. rewrite readable_len_Ok by done.
    rewrite decide_True by (rewrite Hs, length_app, length_head_bytes; lia).
    assert (∃ d1 l, read_chunk_lease d FRAME_HEAD_LEN = Ok (d1, l) ∧ chain_head d1 = None ∧ wf_decode d1
      ∧ wf_lease l ∧ readable l = head_bytes (mkHead FT_Data 0)) as (d1 & l & -> & Hc1 & Hw1 & Hwl & Hr).
    { destruct (read_chunk_lease_spec d FRAME_HEAD_LEN Hw) as (d1 & l & Hrd & Hw1 & _ & _ & Hwl & Hr & _).
      { rewrite Hs, length_app, length_head_bytes. lia. } { left. unfold FRAME_HEAD_LEN. lia. }
      exists d1, l. split_and!; try done.
      - unfold read_chunk_lease in Hrd. rewrite Hc in Hrd. by apply bind_Ok in Hrd as (? & _ & [= <- _]).
      - by rewrite Hr, Hs, take_app_length_eq by (by rewrite length_head_bytes). }
    rewrite <-(app_nil_r (head_bytes _)) in Hr.
    destruct (head_decode_spec (mkHead FT_Data 0) l [] Hwl ltac:(done) Hr) as (l' & -> & _).
    cbn [next_frame_head set_head]. rewrite (readable_len_Ok (set_head d1 (Some (mkHead FT_Data 0)))) by (apply set_head_wf; [done|cbn; lia]).
    cbn [content_length head_type]. rewrite decide_True by lia. by rewrite Hbody.
Qed.

Lemma empty_data_frame_panics_witness :
  (get_frame (B:=be_bytes_api) (U:=uuid128_api)
     (mkDecode (mkChunk 0 (head_bytes (mkHead FT_Data 0) ++ replicate 20 0%Z) false) 9 0 None None example_config)).2
  = Panic.
Proof.
  apply (empty_data_frame_panics _ []); [|reflexivity|reflexivity].
  unfold wf_decode. cbn. split_and!; done || lia.
Defined.
