(* ===== verification/EncodeBuffer.v ===== *)
(** * Encode buffer

    Model of [EncodeBuffer] and [BufferEncoder]
    ([core/src/net/buffers/encode_buffer.rs]): messages are written into the
    current chunk, which is exchanged with a chunk of a private pool when it is
    full; what was written is handed out as a chain of leases.

    [refs] gives the leases alive outside the encoder for each chunk, as in
    [Buffers]; the leases in the chain of the encoder are counted on top.  A step that fails leaves its error in the encoder,
    as the code does. *)

From S2P Require Import Prelude Serialisation ChunkLease Buffers.

Record EncodeBuffer := mkEncode {
  buffer : BufferChunk;
  buffer_pool : BufferPool;
  write_offset : nat;
  read_offset : nat;
  dispatcher_ref : bool;
  min_remaining : nat;
}.

(** [with_config] and [with_dispatcher_ref]. *)
Definition encode_with_config (refs : Refs) (c : BufferConfig) (custom_allocator : option nat)
    (dispatcher_ref : bool) : res Empty_set EncodeBuffer :=
  pool ← pool_with_config c custom_allocator;
  match get_buffer refs pool with
  | (pool, Some buffer) => Ok (mkEncode buffer pool 0 0 dispatcher_ref (cfg_encode_buf_min_free_space c))
  | (_, None) => Panic
  end.

Definition swap_buffer (refs : Refs) (e : EncodeBuffer) : EncodeBuffer * option SerError :=
  match get_buffer refs (buffer_pool e) with
  | (pool, Some new_buffer) =>
      let old := lock_chunk (buffer e) in
      (mkEncode new_buffer (return_buffer pool old) 0 0 (dispatcher_ref e) (min_remaining e), None)
  | (pool, None) =>
      (mkEncode (buffer e) pool (write_offset e) (read_offset e) (dispatcher_ref e) (min_remaining e),
       Some NoBuffersAvailable)
  end.

Definition writeable_len (e : EncodeBuffer) : res Empty_set nat := csub (chunk_len (buffer e)) (write_offset e).

Definition set_offsets (e : EncodeBuffer) (w r : nat) : EncodeBuffer :=
  mkEncode (buffer e) (buffer_pool e) w r (dispatcher_ref e) (min_remaining e).

(** [EncodeBuffer::get_chunk_lease]. *)
Definition take_lease (e : EncodeBuffer) : res Empty_set (EncodeBuffer * option ChunkLease) :=
  cnt ← csub (write_offset e) (read_offset e);
  if decide (0 < cnt) then
    let e := set_offsets e (write_offset e) (read_offset e + cnt) in
    from ← csub (write_offset e) cnt;
    lease ← get_lease (buffer e) from (write_offset e);
    Ok (e, Some lease)
  else Ok (e, None).

(** [Drop for EncodeBuffer]: the chunks told to the dispatcher for later release. *)
Definition drop_encode_buffer (refs : Refs) (e : EncodeBuffer) : list BufferChunk :=
  if dispatcher_ref e then
    let trash := (drain_returned (buffer_pool e)).2 in
    let told := (λ t, (free refs t).1) <$> filter (λ t, (free refs t).2 = false) trash in
    let current := lock_chunk (buffer e) in
    told ++ (if (free refs current).2 then [] else [(free refs current).1])
  else [].

Record BufferEncoder := mkEncoder {
  encode_buffer : EncodeBuffer;
  chain_head : option ChunkLease;
  ser_error : option SerError;
}.

(** [BufferEncoder::new]. *)
Definition new_encoder (e : EncodeBuffer) : res Empty_set BufferEncoder :=
  _ ← assert_ (bool_decide (write_offset e = read_offset e));
  Ok (mkEncoder e None None).

(** On an error the buffer is left as it is. *)
Definition get_buffer_encoder (refs : Refs) (e : EncodeBuffer) : res Empty_set (EncodeBuffer * SerError + BufferEncoder) :=
  room ← csub (chunk_len (buffer e)) (write_offset e);
  match (if decide (room < min_remaining e) then swap_buffer refs e else (e, None)) with
  | (e, Some err) => Ok (inl (e, err))
  | (e, None) => enc ← new_encoder e; Ok (inr enc)
  end.

(** The reference counts while the encoder holds a chain. *)
Definition own_refs (refs : Refs) (head : option ChunkLease) : Refs :=
  λ k, refs k + match head with Some l => length (filter (k =.) (locks l)) | None => 0 end.

Definition chain_lease (head : option ChunkLease) (lease : option ChunkLease) : option ChunkLease :=
  match lease with
  | Some lease => Some (match head with Some head => append_to_chain head lease | None => lease end)
  | None => head
  end.

Definition chain_and_swap (refs : Refs) (enc : BufferEncoder) : res Empty_set (BufferEncoder * option SerError) :=
  '(e, lease) ← take_lease (encode_buffer enc);
  let chain := chain_lease (chain_head enc) lease in
  let '(e, err) := swap_buffer (own_refs refs chain) e in
  Ok (mkEncoder e chain (ser_error enc), err).

(** [let _ = self.chain_and_swap().map_err(|err| self.ser_error = Some(err))]. *)
Definition swap_or_fail (refs : Refs) (enc : BufferEncoder) : res Empty_set BufferEncoder :=
  '(enc, err) ← chain_and_swap refs enc;
  Ok match err with
     | Some err => mkEncoder (encode_buffer enc) (chain_head enc) (Some err)
     | None => enc
     end.

Definition set_write (enc : BufferEncoder) (w : nat) : BufferEncoder :=
  mkEncoder (set_offsets (encode_buffer enc) w (read_offset (encode_buffer enc))) (chain_head enc) (ser_error enc).

Definition advance_mut (refs : Refs) (enc : BufferEncoder) (cnt : nat) : res Empty_set BufferEncoder :=
  match ser_error enc with
  | Some _ => Ok enc
  | None =>
      remaining ← writeable_len (encode_buffer enc);
      if decide (remaining < cnt) then
        let enc := set_write enc (write_offset (encode_buffer enc) + remaining) in
        enc ← swap_or_fail refs enc;
        Ok (set_write enc (cnt - remaining))
      else Ok (set_write enc (write_offset (encode_buffer enc) + cnt))
  end.

Definition pad (refs : Refs) (enc : BufferEncoder) (cnt : nat) : res Empty_set BufferEncoder :=
  advance_mut refs enc cnt.

(** Reserve [size] bytes: swap eagerly, or reserve chunks in the pool. *)
Definition encoder_try_reserve (refs : Refs) (enc : BufferEncoder) (size : nat)
    : res Empty_set (BufferEncoder * option SerError) :=
  let e := encode_buffer enc in
  let buf_len := chunk_len (buffer e) in
  remaining ← csub buf_len (write_offset e);
  if decide (size < remaining) then Ok (enc, None)
  else if decide (size < buf_len) then chain_and_swap refs enc
  else
    more ← csub size remaining;
    '(pool, err) ← try_reserve (own_refs refs (chain_head enc)) (buffer_pool e) more;
    let e := mkEncode (buffer e) pool (write_offset e) (read_offset e) (dispatcher_ref e) (min_remaining e) in
    Ok (mkEncoder e (chain_head enc) (ser_error enc),
        match err with Some _ => Some NoBuffersAvailable | None => None end).

(** [BufferEncoder::get_chunk_lease]. *)
Definition get_chunk_lease (enc : BufferEncoder) : res Empty_set (BufferEncoder * (SerError + ChunkLease)) :=
  match ser_error enc with
  | Some error => Ok (mkEncoder (encode_buffer enc) (chain_head enc) None, inl error)
  | None =>
      '(e, lease) ← take_lease (encode_buffer enc);
      let enc' := mkEncoder e None None in
      match chain_head enc with
      | Some chain_head =>
          Ok (enc', inr (match lease with Some tail => append_to_chain chain_head tail | None => chain_head end))
      | None => Ok (enc', match lease with Some lease => inr lease | None => inl InvalidData end)
      end
  end.

(** [Drop for BufferEncoder]. *)
Definition drop_encoder (enc : BufferEncoder) : EncodeBuffer :=
  let e := encode_buffer enc in set_offsets e (write_offset e) (write_offset e).

(** Copy [src] through the pointer of [chunk_mut]. *)
Definition copy_into (b : BufferChunk) (off : nat) (src : list byte) : BufferChunk :=
  mkChunk (chunk_id b) (take off (data b) ++ src ++ drop (off + length src) (data b)) (locked b).

Definition write_chunk_mut (enc : BufferEncoder) (src : list byte) : BufferEncoder :=
  let e := encode_buffer enc in
  mkEncoder (mkEncode (copy_into (buffer e) (write_offset e) src) (buffer_pool e) (write_offset e) (read_offset e)
               (dispatcher_ref e) (min_remaining e)) (chain_head enc) (ser_error enc).

(** The loop of [put_slice] on the bytes still to be written. *)
Fixpoint put_slice_loop (fuel : nat) (refs : Refs) (enc : BufferEncoder) (src : list byte) : res Empty_set BufferEncoder :=
  match fuel with
  | O => Panic
  | S fuel =>
      match src with
      | [] => Ok enc
      | _ =>
          match ser_error enc with
          | Some _ => Ok enc
          | None =>
              dst_len ← writeable_len (encode_buffer enc);
              let cnt := dst_len `min` length src in
              enc ← advance_mut refs (write_chunk_mut enc (take cnt src)) cnt;
              let src := drop cnt src in
              room ← writeable_len (encode_buffer enc);
              enc ← (if decide (room < length src) then swap_or_fail refs enc else Ok enc);
              put_slice_loop fuel refs enc src
          end
      end
  end.

(** Every second round writes at least one byte. *)
Definition put_slice (refs : Refs) (enc : BufferEncoder) (src : list byte) : res Empty_set BufferEncoder :=
  put_slice_loop (2 * length src + 2) refs enc src.

(** [put(src)]: one [put_slice] per contiguous part of the source. *)
Fixpoint put (refs : Refs) (enc : BufferEncoder) (src : list (list byte)) : res Empty_set BufferEncoder :=
  match src with
  | [] => Ok enc
  | chunk :: src =>
      match ser_error enc with
      | Some _ => Ok enc
      | None => enc ← put_slice refs enc chunk; put refs enc src
      end
  end.

(** ** Invariant

    The offsets lie within the current chunk, which is unlocked and not in the
    pool, and all chunks have at least [m] bytes. *)
Definition chunks_long (m : nat) (p : BufferPool) : Prop :=
  m ≤ alloc_size p ∧ Forall (λ b, m ≤ chunk_len b) (pool p).

Definition wf_encode (m : nat) (refs : Refs) (e : EncodeBuffer) : Prop :=
  read_offset e ≤ write_offset e ∧ write_offset e ≤ chunk_len (buffer e)
  ∧ locked (buffer e) = false ∧ m ≤ chunk_len (buffer e)
  ∧ chunk_id (buffer e) < next_id (buffer_pool e)
  ∧ chunk_id (buffer e) ∉ chunk_id <$> pool (buffer_pool e)
  ∧ pool_ok refs (buffer_pool e) ∧ chunks_long m (buffer_pool e).

Definition wf_head (head : option ChunkLease) : Prop :=
  match head with Some l => wf_chain l ∧ read_pointer l = 0 ∧ 0 < length (lease_bytes l) | None => True end.

Definition head_locks (head : option ChunkLease) : list nat := match head with Some l => locks l | None => [] end.
Definition head_content (head : option ChunkLease) : list byte := match head with Some l => lease_bytes l | None => [] end.

(** The bytes between the offsets. *)
Definition unread (e : EncodeBuffer) : list byte :=
  take (write_offset e - read_offset e) (drop (read_offset e) (data (buffer e))).

(** What the encoder holds, in order. *)
Definition encoded (enc : BufferEncoder) : list byte :=
  head_content (chain_head enc) ++ unread (encode_buffer enc).

(** A running encoder: the chunk being written is not one whose leases are in the
    chain. *)
Definition wf_encoder (m : nat) (refs : Refs) (enc : BufferEncoder) : Prop :=
  wf_encode m (own_refs refs (chain_head enc)) (encode_buffer enc)
  ∧ wf_head (chain_head enc) ∧ ser_error enc = None
  ∧ chunk_id (buffer (encode_buffer enc)) ∉ head_locks (chain_head enc).

(** The bytes that a live lease may cover: all of a chunk in the pool and the
    written part of the current chunk. *)
Definition written (e : EncodeBuffer) : list (nat * list byte) :=
  (chunk_id (buffer e), take (write_offset e) (data (buffer e)))
  :: ((λ b, (chunk_id b, data b)) <$> pool (buffer_pool e)).

(** No byte of a chunk with leases alive is overwritten. *)
Definition preserves (refs : Refs) (e e' : EncodeBuffer) : Prop :=
  ∀ k bs, (k, bs) ∈ written e → 0 < refs k → ∃ more, (k, bs ++ more) ∈ written e'.

(** ** The pool under changing reference counts *)
Lemma pool_ok_ext refs refs' p : pool_ok refs p →
  (∀ i, i ∈ chunk_id <$> pool p ∨ next_id p ≤ i → refs' i ≤ refs i) → pool_ok refs' p.
Proof.
  intros (H1 & H2 & H3 & H4) Hle. split_and!; [done|done| |].
  - intros b Hb. destruct (H3 b Hb) as [Hid Hl]. split; [done|]. intros Hlb.
    specialize (Hle (chunk_id b) ltac:(left; by apply list_elem_of_fmap_2)). rewrite (Hl Hlb) in Hle. lia.
  - intros i Hi. specialize (Hle i (or_intror Hi)). rewrite (H4 i Hi) in Hle. lia.
Qed.

(** What a buffer taken from the pool is. *)
Lemma get_buffer_cases m refs p : pool_ok refs p → chunks_long m p →
  match get_buffer refs p with
  | (p', Some b) =>
      pool_ok refs p' ∧ chunks_long m p' ∧ refs (chunk_id b) = 0 ∧ locked b = false ∧ m ≤ chunk_len b
      ∧ chunk_id b < next_id p' ∧ next_id p ≤ next_id p' ∧ chunk_id b ∉ chunk_id <$> pool p'
      ∧ (∀ x, x ∈ pool p → refs (chunk_id x) ≠ 0 → x ∈ pool p')
      ∧ (∀ i, i < next_id p → i ∉ chunk_id <$> pool p → i ∉ chunk_id <$> pool p' ∧ i ≠ chunk_id b)
  | (p', None) => p' = p
  end.
Proof.
  intros Hok [Ha Hl]. pose proof Hok as (_ & _ & Hk & Hfresh). unfold get_buffer.
  destruct (try_reclaim_cases refs p) as [(l1 & b & l2 & Hp & H1 & H2 & ->)|[Hall ->]].
  - destruct (reclaim_pool_ok refs p l1 b l2 Hok Hp) as [Hok' Hnb].
    destruct (free_chunk refs b H2) as (Fi & Fd & Fl).
    assert (b ∈ pool p) as Hbp by (rewrite Hp; apply elem_of_app; right; by left).
    pose proof (available_unreferenced refs p b Hok Hbp H2) as Hr.
    assert (∀ x, x ∈ pool p → x = b ∨ x ∈ l2 ++ l1) as Hin.
    { intros x. rewrite Hp, !elem_of_app, elem_of_cons. naive_solver. }
    unfold chunk_len. rewrite Fi, Fd. rewrite Hp, Forall_app, Forall_cons in Hl.
    split_and!; try done; cbn.
    + split; [done|]. cbn. rewrite Forall_app. naive_solver.
    + naive_solver.
    + by apply Hk.
    + intros x Hx Hne. destruct (Hin x Hx) as [->|]; done.
    + intros i Hi Hni. split.
      * intros (x & -> & Hx)%list_elem_of_fmap. apply Hni, list_elem_of_fmap_2. rewrite Hp.
        rewrite elem_of_app, elem_of_cons. rewrite elem_of_app in Hx. naive_solver.
      * intros ->. apply Hni. by apply list_elem_of_fmap_2.
  - pose proof (increase_pool_ok refs p Hok) as Hi. unfold increase_pool in *. case_decide.
    + by destruct Hi.
    + cbn in *. destruct Hi as (Hq & _). split_and!; try done.
      * by apply Hfresh.
      * unfold chunk_len. cbn. by rewrite length_replicate.
      * lia.
      * lia.
      * intros (x & Hx & Hin)%list_elem_of_fmap. destruct (Hk x Hin). lia.
      * intros i Hi Hni. split; [done|lia].
Qed.

Lemma preserves_refl refs e : preserves refs e e.
Proof. intros k bs Hk _. exists []. by rewrite app_nil_r. Qed.

Lemma preserves_trans refs e1 e2 e3 : preserves refs e1 e2 → preserves refs e2 e3 → preserves refs e1 e3.
Proof.
  intros H12 H23 k bs Hk Hr. destruct (H12 k bs Hk Hr) as [more Hm].
  destruct (H23 _ _ Hm Hr) as [more' Hm']. exists (more ++ more'). by rewrite app_assoc.
Qed.

(** Steps that leave the pool alone and only append to the current chunk. *)
Lemma preserves_append refs e e' : buffer_pool e' = buffer_pool e → chunk_id (buffer e') = chunk_id (buffer e) →
  take (write_offset e) (data (buffer e)) `prefix_of` take (write_offset e') (data (buffer e')) → preserves refs e e'.
Proof.
  intros Hp Hid [more Hm] k bs Hk _. unfold written in *. rewrite Hp, Hid.
  apply elem_of_cons in Hk as [[= -> ->]|Hk].
  - exists more. rewrite <-Hm. by left.
  - exists []. rewrite app_nil_r. by right.
Qed.

(** ** Swapping *)
Lemma encode_swap_spec m refs e : wf_encode m refs e →
  match swap_buffer refs e with
  | (e', None) =>
      wf_encode m refs e' ∧ write_offset e' = 0 ∧ read_offset e' = 0 ∧ refs (chunk_id (buffer e')) = 0
      ∧ chunk_id (buffer e') ≠ chunk_id (buffer e)
      ∧ preserves refs e e' ∧ dispatcher_ref e' = dispatcher_ref e ∧ min_remaining e' = min_remaining e
  | (e', Some err) => e' = e ∧ err = NoBuffersAvailable
  end.
Proof.
  intros (H1 & H2 & H3 & H4 & H5 & H6 & H7 & H8). unfold swap_buffer.
  pose proof (get_buffer_cases m refs (buffer_pool e) H7 H8) as Hg.
  destruct (get_buffer refs (buffer_pool e)) as [p' [b|]]; [|subst; by destruct e].
  destruct Hg as (G1 & G2 & G3 & G4 & G5 & G6 & G7 & G8 & G9 & G10).
  destruct (G10 _ H5 H6) as [Hold Hne].
  split_and!; cbn; try done.
  - unfold wf_encode. cbn. split_and!; try done; try lia.
    + rewrite fmap_app, elem_of_app. cbn. rewrite list_elem_of_singleton. by intros [?|?].
    + apply return_buffer_ok; cbn; [done|lia|done].
    + destruct G2 as [Ga Gl]. split; [done|]. cbn. apply Forall_app. split; [done|]. by repeat constructor.
  - intros k bs Hk Hr. unfold written in *. cbn. apply elem_of_cons in Hk as [[= -> ->]|Hk].
    + exists (drop (write_offset e) (data (buffer e))). rewrite take_drop. right.
      rewrite fmap_app. apply elem_of_app. right. by left.
    + apply list_elem_of_fmap in Hk as (x & [= -> ->] & Hx). exists []. rewrite app_nil_r. right.
      apply (list_elem_of_fmap_2 (λ b, (chunk_id b, data b)) _ x). apply elem_of_app. left. apply G9; [done|lia].
Qed.

(** ** Leases *)
Lemma take_lease_spec m refs e : wf_encode m refs e →
  take_lease e = Ok (set_offsets e (write_offset e) (write_offset e),
    if decide (read_offset e < write_offset e) then Some (new_lease (unread e) (chunk_id (buffer e))) else None).
Proof.
  intros (H1 & H2 & H3 & _). unfold take_lease. rewrite csub_Ok by done. cbn.
  destruct (decide (read_offset e < write_offset e)).
  - rewrite decide_True by lia. rewrite csub_Ok by lia. cbn. unfold get_lease, get_slice.
    rewrite bool_decide_true by lia. rewrite H3. cbn. unfold unread, set_offsets. repeat f_equal; lia.
  - rewrite decide_False by lia. unfold set_offsets. destruct e; cbn in *. repeat f_equal; lia.
Qed.

Lemma length_unread m refs e : wf_encode m refs e → length (unread e) = write_offset e - read_offset e.
Proof.
  intros (H1 & H2 & _). unfold unread, chunk_len in *. rewrite length_take, length_drop. lia.
Qed.

Lemma wf_encode_aligned m refs e : wf_encode m refs e → wf_encode m refs (set_offsets e (write_offset e) (write_offset e)).
Proof. intros (H1 & H2 & H3 & H4 & H5 & H6 & H7 & H8). by split_and!. Qed.

Lemma wf_encode_refs m refs refs' e : wf_encode m refs e →
  (∀ i, i ∈ chunk_id <$> pool (buffer_pool e) ∨ next_id (buffer_pool e) ≤ i → refs' i ≤ refs i) → wf_encode m refs' e.
Proof.
  intros (H1 & H2 & H3 & H4 & H5 & H6 & H7 & H8) Hle. split_and!; try done. by eapply pool_ok_ext.
Qed.

(** A lease of the current chunk appended to the chain. *)
Lemma chain_lease_spec head bs k : wf_head head → 0 < length bs →
  wf_head (chain_lease head (Some (new_lease bs k)))
  ∧ head_content (chain_lease head (Some (new_lease bs k))) = head_content head ++ bs
  ∧ head_locks (chain_lease head (Some (new_lease bs k))) = head_locks head ++ [k].
Proof.
  intros Hh Hbs. destruct (new_lease_wf bs k) as [[Hw Hr] Hb]. destruct head as [l|]; cbn [chain_lease].
  - destruct Hh as (Hl & Hrl & Hlen). destruct (append_wf l (new_lease bs k) Hl Hw eq_refl) as (Ha & Hab & Hak).
    cbn. rewrite append_read_pointer, Hab, Hak, Hb, length_app. split_and!; try done. lia.
  - cbn. rewrite app_nil_r. split_and!; try done.
Qed.

Lemma own_refs_spec refs head k :
  own_refs refs head k = refs k + length (filter (k =.) (head_locks head)).
Proof. unfold own_refs. by destruct head. Qed.

Lemma own_refs_zero refs head k : own_refs refs head k = 0 → k ∉ head_locks head.
Proof.
  rewrite own_refs_spec. intros H Hk. assert (filter (k =.) (head_locks head) = []) as Hf
    by (apply nil_length_inv; lia).
  assert (k ∈ filter (k =.) (head_locks head)) as Hin by (by apply list_elem_of_filter).
  rewrite Hf in Hin. by apply elem_of_nil in Hin.
Qed.

Lemma preserves_own refs head e e' : preserves (own_refs refs head) e e' → preserves refs e e'.
Proof. intros H k bs Hk Hr. apply H; [done|]. rewrite own_refs_spec. lia. Qed.

(** Putting what was written into the chain. *)
Lemma chain_written m refs enc : wf_encoder m refs enc →
  ∃ chain, take_lease (encode_buffer enc)
      = Ok (set_offsets (encode_buffer enc) (write_offset (encode_buffer enc)) (write_offset (encode_buffer enc)), chain)
    ∧ wf_head (chain_lease (chain_head enc) chain)
    ∧ head_content (chain_lease (chain_head enc) chain) = encoded enc
    ∧ wf_encode m (own_refs refs (chain_lease (chain_head enc) chain))
        (set_offsets (encode_buffer enc) (write_offset (encode_buffer enc)) (write_offset (encode_buffer enc))).
Proof.
  intros (He & Hh & _ & Hni). rewrite (take_lease_spec _ _ _ He). eexists. split; [done|].
  pose proof (length_unread _ _ _ He) as Hlen. unfold encoded.
  pose proof He as (_ & _ & _ & _ & Hid & Hnp & _).
  destruct (decide (read_offset (encode_buffer enc) < write_offset (encode_buffer enc))).
  - destruct (chain_lease_spec (chain_head enc) (unread (encode_buffer enc)) (chunk_id (buffer (encode_buffer enc))) Hh
      ltac:(lia)) as (Hw & Hc & Hk).
    split_and!; [done..|]. apply wf_encode_aligned. eapply wf_encode_refs; [exact He|].
    intros i Hi. rewrite !own_refs_spec, Hk, filter_app, length_app.
    rewrite (filter_cons_False _ _ []); [cbn; lia|]. intros ->. destruct Hi as [Hi|Hi]; [done|lia].
  - cbn [chain_lease]. assert (unread (encode_buffer enc) = []) as -> by (apply nil_length_inv; lia).
    rewrite app_nil_r. split_and!; [done..|]. by apply wf_encode_aligned.
Qed.

Lemma aligned_unread e w : unread (set_offsets e w w) = [].
Proof. unfold unread. cbn. by rewrite Nat.sub_diag. Qed.

Lemma preserves_offsets refs e r : preserves refs e (set_offsets e (write_offset e) r).
Proof. by apply preserves_append. Qed.

Lemma chain_and_swap_spec m refs enc : wf_encoder m refs enc →
  ∃ enc' err, chain_and_swap refs enc = Ok (enc', err) ∧ encoded enc' = encoded enc
    ∧ preserves refs (encode_buffer enc) (encode_buffer enc') ∧ ser_error enc' = None
    ∧ wf_encode m (own_refs refs (chain_head enc')) (encode_buffer enc')
    ∧ match err with
      | None => wf_encoder m refs enc' ∧ write_offset (encode_buffer enc') = 0
      | Some err => err = NoBuffersAvailable
          ∧ encode_buffer enc' = set_offsets (encode_buffer enc) (write_offset (encode_buffer enc))
              (write_offset (encode_buffer enc))
      end.
Proof.
  intros Henc. destruct (chain_written _ _ _ Henc) as (chain & Ht & Hh & Hc & Hw).
  destruct Henc as (_ & _ & Hs & _). unfold chain_and_swap. rewrite Ht. cbn.
  set (head := chain_lease (chain_head enc) chain) in *.
  set (e1 := set_offsets _ _ _) in *.
  pose proof (encode_swap_spec m (own_refs refs head) e1 Hw) as Hsw.
  destruct (swap_buffer (own_refs refs head) e1) as [e' [err|]].
  - destruct Hsw as [-> ->]. eexists _, _. split; [done|]. unfold encoded at 1.
    cbn [chain_head encode_buffer ser_error]. subst e1. rewrite aligned_unread, app_nil_r, Hc. split_and!; try done. apply preserves_offsets.
  - destruct Hsw as (Hw' & Ho & Hr & Hz & _ & Hp & _).
    eexists _, _. split; [done|]. unfold encoded at 1. cbn. unfold unread. rewrite Ho, Hr. cbn.
    rewrite Hc, app_nil_r. split_and!; try done.
    + eapply preserves_trans; [apply preserves_offsets|]. by eapply preserves_own.
    + split_and!; try done. by apply own_refs_zero in Hz.
Qed.

(** ** Writing *)
Abbreviation room enc := (chunk_len (buffer (encode_buffer enc)) - write_offset (encode_buffer enc)) (only parsing).

Lemma unread_take m refs e : wf_encode m refs e → unread e = drop (read_offset e) (take (write_offset e) (data (buffer e))).
Proof. intros (H1 & _). unfold unread. rewrite take_drop_commute. do 2 f_equal. lia. Qed.

(** Any step that extends the written part of the current chunk by [bs]. *)
Lemma extend_spec m refs enc b' bs : wf_encoder m refs enc →
  length (data b') = length (data (buffer (encode_buffer enc))) →
  chunk_id b' = chunk_id (buffer (encode_buffer enc)) → locked b' = locked (buffer (encode_buffer enc)) →
  take (write_offset (encode_buffer enc) + length bs) (data b')
    = take (write_offset (encode_buffer enc)) (data (buffer (encode_buffer enc))) ++ bs →
  write_offset (encode_buffer enc) + length bs ≤ chunk_len (buffer (encode_buffer enc)) →
  let e := encode_buffer enc in
  let enc' := mkEncoder (mkEncode b' (buffer_pool e) (write_offset e + length bs) (read_offset e)
                           (dispatcher_ref e) (min_remaining e)) (chain_head enc) (ser_error enc) in
  wf_encoder m refs enc' ∧ encoded enc' = encoded enc ++ bs ∧ preserves refs e (encode_buffer enc').
Proof.
  intros (He & Hh & Hs & Hni) Hlen Hid Hlk Htake Hroom e enc'.
  assert (wf_encode m (own_refs refs (chain_head enc)) (encode_buffer enc')) as He'.
  { destruct He as (H1 & H2 & H3 & H4 & H5 & H6 & H7 & H8). unfold wf_encode, chunk_len in *. cbn.
    rewrite Hlen, Hid, Hlk. split_and!; try done. subst e. lia. }
  split_and!.
  - split_and!; try done. subst enc'. cbn. by rewrite Hid.
  - unfold encoded. rewrite (unread_take _ _ _ He), (unread_take _ _ _ He'). subst enc' e. cbn.
    rewrite Htake, <-app_assoc. f_equal. apply drop_app_le.
    rewrite length_take. destruct He as (H1 & H2 & _). unfold chunk_len in *. lia.
  - apply preserves_append; [done|done|]. subst enc'. cbn. subst e. rewrite Htake. by apply prefix_app_r.
Qed.

Lemma write_spec m refs enc bs : wf_encoder m refs enc → length bs ≤ room enc →
  let enc' := set_write (write_chunk_mut enc bs) (write_offset (encode_buffer enc) + length bs) in
  wf_encoder m refs enc' ∧ encoded enc' = encoded enc ++ bs
  ∧ preserves refs (encode_buffer enc) (encode_buffer enc') ∧ room enc' = room enc - length bs
  ∧ min_remaining (encode_buffer enc') = min_remaining (encode_buffer enc).
Proof.
  intros Hw Hroom enc'. pose proof Hw as ((_ & Hlen & _) & _). unfold chunk_len in *.
  assert (length (data (copy_into (buffer (encode_buffer enc)) (write_offset (encode_buffer enc)) bs))
    = length (data (buffer (encode_buffer enc)))) as Hl.
  { unfold copy_into. cbn. rewrite !length_app, length_take, length_drop. lia. }
  destruct (extend_spec m refs enc (copy_into (buffer (encode_buffer enc)) (write_offset (encode_buffer enc)) bs) bs)
    as (H1 & H2 & H3); try done.
  - unfold copy_into. cbn. rewrite app_assoc. apply take_app_length_eq.
    rewrite length_app, length_take. lia.
  - unfold chunk_len. lia.
  - subst enc'. split_and!; try done. cbn [encode_buffer set_write write_chunk_mut buffer write_offset set_offsets].
    rewrite Hl. lia.
Qed.

Lemma advance_room refs enc cnt : ser_error enc = None → cnt ≤ room enc →
  write_offset (encode_buffer enc) ≤ chunk_len (buffer (encode_buffer enc)) →
  advance_mut refs enc cnt = Ok (set_write enc (write_offset (encode_buffer enc) + cnt)).
Proof.
  intros Hs Hr Hw. unfold advance_mut, writeable_len. rewrite Hs, csub_Ok by done. cbn.
  by rewrite decide_False by lia.
Qed.

(** An encoder that has run out of chunks. *)
Definition exhausted (m : nat) (refs : Refs) (enc : BufferEncoder) : Prop :=
  ser_error enc = Some NoBuffersAvailable ∧ wf_encode m (own_refs refs (chain_head enc)) (encode_buffer enc).

Lemma swap_or_fail_spec m refs enc : wf_encoder m refs enc →
  ∃ enc', swap_or_fail refs enc = Ok enc' ∧ preserves refs (encode_buffer enc) (encode_buffer enc')
    ∧ (wf_encoder m refs enc' ∧ encoded enc' = encoded enc ∧ write_offset (encode_buffer enc') = 0
       ∨ exhausted m refs enc').
Proof.
  intros Hw. destruct (chain_and_swap_spec m refs enc Hw) as (enc' & err & Hcs & He & Hp & Hs & Hwe & Herr).
  unfold swap_or_fail. rewrite Hcs. cbn. destruct err as [err|].
  - destruct Herr as [-> _]. eexists. split; [done|]. split; [done|]. by right.
  - destruct Herr as [Hw' Ho]. eexists. split; [done|]. split; [done|]. by left.
Qed.

Lemma put_slice_loop_spec m refs fuel enc src : 0 < m → wf_encoder m refs enc →
  length src + (if decide (room enc = 0) then 2 else 1) ≤ fuel →
  ∃ enc', put_slice_loop fuel refs enc src = Ok enc' ∧ preserves refs (encode_buffer enc) (encode_buffer enc')
    ∧ (wf_encoder m refs enc' ∧ encoded enc' = encoded enc ++ src ∨ exhausted m refs enc').
Proof.
  intros Hm. revert enc src. induction fuel as [|fuel IH]; intros enc src Hw Hf; [case_decide; lia|].
  destruct src as [|x src']; cbn [put_slice_loop].
  { exists enc. rewrite app_nil_r. split; [done|]. split; [apply preserves_refl|by left]. }
  set (src := x :: src') in *. assert (0 < length src) as Hsrc by (subst src; cbn; lia).
  pose proof Hw as ((_ & Hlen & _) & _ & Hs & _). rewrite Hs. unfold writeable_len. rewrite csub_Ok by done. cbn [mbind res_bind].
  set (cnt := room enc `min` length src).
  assert (length (take cnt src) = cnt) as Hcnt by (rewrite length_take; lia).
  destruct (write_spec m refs enc (take cnt src) Hw ltac:(lia)) as (Hw1 & He1 & Hp1 & Hr1 & _).
  rewrite advance_room; [|done|cbn; unfold chunk_len in *; rewrite !length_app, length_take, length_drop; lia
    |cbn; unfold chunk_len in *; rewrite !length_app, length_take, length_drop; lia].
  cbn [mbind res_bind]. rewrite Hcnt in *.
  set (enc1 := set_write _ _) in *. pose proof Hw1 as ((_ & Hlen1 & _) & _).
  rewrite csub_Ok by done. cbn [mbind res_bind]. rewrite Hr1, length_drop.
  destruct (decide (room enc - cnt < length src - cnt)) as [Hswap|Hswap].
  - destruct (swap_or_fail_spec m refs enc1 Hw1) as (enc2 & -> & Hp2 & [(Hw2 & He2 & Ho2)|Hex]).
    + cbn [mbind res_bind]. destruct (IH enc2 (drop cnt src) Hw2) as (enc3 & -> & Hp3 & Hres).
      { pose proof Hw2 as ((_ & _ & _ & Hm2 & _) & _). rewrite length_drop, decide_False by lia.
        case_decide; lia. }
      exists enc3. split; [done|]. split; [by do 2 (eapply preserves_trans; [done|])|].
      destruct Hres as [[Hw3 He3]|Hex]; [left|by right]. split; [done|].
      by rewrite He3, He2, He1, <-app_assoc, take_drop.
    + cbn [mbind res_bind]. exists enc2. split; [|split; [by eapply preserves_trans|by right]].
      destruct fuel; [case_decide; lia|]. cbn. destruct (drop cnt src); [done|]. by rewrite (proj1 Hex).
  - cbn [mbind res_bind]. assert (drop cnt src = []) as -> by (apply nil_length_inv; rewrite length_drop; lia).
    destruct fuel; [case_decide; lia|]. cbn [put_slice_loop]. exists enc1. split; [done|]. split; [done|].
    left. split; [done|]. rewrite He1. by rewrite take_ge by lia.
Qed.

Lemma encoder_put_slice_spec m refs enc src : 0 < m → wf_encoder m refs enc →
  ∃ enc', put_slice refs enc src = Ok enc' ∧ preserves refs (encode_buffer enc) (encode_buffer enc')
    ∧ (wf_encoder m refs enc' ∧ encoded enc' = encoded enc ++ src ∨ exhausted m refs enc').
Proof. intros Hm Hw. apply put_slice_loop_spec; [done..|]. case_decide; lia. Qed.

Lemma put_spec m refs enc src : 0 < m → wf_encoder m refs enc →
  ∃ enc', put refs enc src = Ok enc' ∧ preserves refs (encode_buffer enc) (encode_buffer enc')
    ∧ (wf_encoder m refs enc' ∧ encoded enc' = encoded enc ++ mjoin src ∨ exhausted m refs enc').
Proof.
  intros Hm. revert enc. induction src as [|bs src IH]; intros enc Hw; cbn [put].
  { exists enc. cbn. rewrite app_nil_r. split; [done|]. split; [apply preserves_refl|by left]. }
  pose proof Hw as (_ & _ & Hs & _). rewrite Hs.
  destruct (encoder_put_slice_spec m refs enc bs Hm Hw) as (enc1 & -> & Hp1 & [[Hw1 He1]|Hex]); cbn [mbind res_bind].
  - destruct (IH enc1 Hw1) as (enc2 & -> & Hp2 & Hres). exists enc2. split; [done|].
    split; [by eapply preserves_trans|]. destruct Hres as [[Hw2 He2]|Hex]; [left|by right].
    split; [done|]. cbn. by rewrite He2, He1, <-app_assoc.
  - exists enc1. split; [|split; [done|by right]]. destruct src; cbn; [done|]. by rewrite (proj1 Hex).
Qed.

(** Padding within the current chunk only marks bytes as written. *)
Lemma pad_spec m refs enc cnt : wf_encoder m refs enc → cnt ≤ room enc →
  ∃ enc' padding, pad refs enc cnt = Ok enc' ∧ wf_encoder m refs enc' ∧ length padding = cnt
    ∧ encoded enc' = encoded enc ++ padding ∧ preserves refs (encode_buffer enc) (encode_buffer enc').
Proof.
  intros Hw Hroom. pose proof Hw as ((_ & Hlen & _) & _ & Hs & _). unfold chunk_len in *.
  set (padding := take cnt (drop (write_offset (encode_buffer enc)) (data (buffer (encode_buffer enc))))).
  assert (length padding = cnt) as Hpad by (subst padding; rewrite length_take, length_drop; lia).
  unfold pad. rewrite advance_room by done. eexists _, padding. split; [done|].
  destruct (extend_spec m refs enc (buffer (encode_buffer enc)) padding Hw) as (H1 & H2 & H3);
    [done..| |unfold chunk_len; lia|].
  - rewrite Hpad. subst padding. rewrite take_drop_commute, <-(take_drop (write_offset (encode_buffer enc)) (take _ _)) at 1.
    rewrite take_take. repeat f_equal; lia.
  - rewrite Hpad in *. by split_and!.
Qed.

Lemma own_refs_none refs k : own_refs refs None k = refs k.
Proof. rewrite own_refs_spec. cbn. lia. Qed.

Lemma new_encoder_spec m refs e : wf_encode m refs e → write_offset e = read_offset e →
  new_encoder e = Ok (mkEncoder e None None) ∧ wf_encoder m refs (mkEncoder e None None)
  ∧ encoded (mkEncoder e None None) = [].
Proof.
  intros He Hal. unfold new_encoder. rewrite bool_decide_true by done. split_and!; [done| |].
  - split_and!; [|done|done|by apply not_elem_of_nil]. eapply wf_encode_refs; [done|].
    intros i _. cbn [chain_head]. by rewrite own_refs_none.
  - unfold encoded, unread. cbn. by rewrite Hal, Nat.sub_diag.
Qed.

(** The buffer left by an encoder: aligned, and well-formed also when the leases
    of its chain are gone. *)
Lemma drop_encoder_spec m refs enc : wf_encode m (own_refs refs (chain_head enc)) (encode_buffer enc) →
  wf_encode m refs (drop_encoder enc) ∧ write_offset (drop_encoder enc) = read_offset (drop_encoder enc)
  ∧ preserves refs (encode_buffer enc) (drop_encoder enc).
Proof.
  intros He. split_and!; [|done|by apply preserves_offsets].
  apply wf_encode_aligned. eapply wf_encode_refs; [done|]. intros i _. rewrite own_refs_spec. lia.
Qed.

Lemma get_chunk_lease_spec m refs enc : wf_encoder m refs enc →
  ∃ enc' r, get_chunk_lease enc = Ok (enc', r)
    ∧ encode_buffer enc' = set_offsets (encode_buffer enc) (write_offset (encode_buffer enc)) (write_offset (encode_buffer enc))
    ∧ match r with
      | inr l => wf_lease l ∧ read_pointer l = 0 ∧ lease_bytes l = encoded enc
          ∧ wf_encode m (own_refs refs (Some l)) (encode_buffer enc')
      | inl err => err = InvalidData ∧ encoded enc = []
      end.
Proof.
  intros Hw. destruct (chain_written _ _ _ Hw) as (chain & Ht & Hh & Hc & Hwe).
  destruct Hw as (_ & _ & Hs & _). unfold get_chunk_lease. rewrite Hs, Ht. cbn [mbind res_bind].
  destruct (chain_head enc) as [h|], chain as [t|]; cbn [chain_lease wf_head head_content] in *;
    eexists _, _; (split; [done|]); (split; [done|]); cbn; try done;
    destruct Hh as (? & Hr & ?); (split; [split; [done|lia]|]); done.
Qed.

(** ** Properties *)

(** One message: get an encoder, leave [cnt] bytes for the frame head, write the
    parts [src] and take the lease. *)
Definition encode_session (refs : Refs) (e : EncodeBuffer) (cnt : nat) (src : list (list byte))
    : res Empty_set (EncodeBuffer * (SerError + ChunkLease)) :=
  r ← get_buffer_encoder refs e;
  match r with
  | inl (e, err) => Ok (e, inl err)
  | inr enc =>
      enc ← pad refs enc cnt;
      enc ← put refs enc src;
      '(enc, r) ← get_chunk_lease enc;
      Ok (drop_encoder enc, r)
  end.

Lemma get_buffer_encoder_pool refs e enc : get_buffer_encoder refs e = Ok (inr enc) →
  pool_chunk_size (buffer_pool (encode_buffer enc)) = pool_chunk_size (buffer_pool e).
Proof.
  unfold get_buffer_encoder, swap_buffer, new_encoder. intros H. apply bind_Ok in H as (room & _ & H).
  pose proof (get_buffer_chunk_size refs (buffer_pool e)) as Hp. case_decide.
  - destruct (get_buffer refs (buffer_pool e)) as [p [b|]]; [|done]. cbn in *. injection H as <-. done.
  - apply bind_Ok in H as (enc' & Hn & [= <-]). apply bind_Ok in Hn as (? & _ & [= <-]). done.
Qed.

Lemma get_buffer_encoder_spec m refs e : wf_encode m refs e → write_offset e = read_offset e → min_remaining e ≤ m →
  get_buffer_encoder refs e = Ok (inl (e, NoBuffersAvailable))
  ∨ ∃ e', get_buffer_encoder refs e = Ok (inr (mkEncoder e' None None)) ∧ wf_encode m refs e'
      ∧ write_offset e' = read_offset e' ∧ min_remaining e ≤ chunk_len (buffer e') - write_offset e' ∧ preserves refs e e'.
Proof.
  intros He Hal Hm. unfold get_buffer_encoder. pose proof He as (_ & Hlen & _). rewrite csub_Ok by done.
  cbn [mbind res_bind]. case_decide.
  - pose proof (encode_swap_spec m refs e He) as Hsw. destruct (swap_buffer refs e) as [e' [err|]].
    + destruct Hsw as [-> ->]. by left.
    + right. destruct Hsw as (Hw' & Ho & Hr & _ & _ & Hp & _). exists e'.
      destruct (new_encoder_spec m refs e' Hw' ltac:(lia)) as (-> & _). cbn.
      pose proof Hw' as (_ & _ & _ & Hm' & _). split_and!; try done; lia.
  - right. exists e. destruct (new_encoder_spec m refs e He Hal) as (-> & _). cbn.
    split_and!; try done; [lia|apply preserves_refl].
Qed.

(** C8: Encoding a message into the buffers of a component, starting from an aligned
    buffer and with no more head space than the configured minimum of remaining bytes
    guarantees, never panics and never overwrites a byte of a chunk that has leases alive.
    It either reports that no chunk is available (or that nothing was written), or returns
    a lease chain that holds the head's place followed by exactly the bytes written,
    across however many chunks; in every case the buffer is left aligned and well-formed
    for the next message, with the new lease counted. *)
Theorem encode_message (m : nat) (refs : Refs) (e : EncodeBuffer) (cnt : nat) (src : list (list byte)) :
  wf_encode m refs e → write_offset e = read_offset e → 0 < m → cnt ≤ min_remaining e → min_remaining e ≤ m →
  ∃ e' r, encode_session refs e cnt src = Ok (e', r)
    ∧ wf_encode m refs e' ∧ write_offset e' = read_offset e' ∧ preserves refs e e'
    ∧ match r with
      | inr l => wf_lease l ∧ read_pointer l = 0 ∧ wf_encode m (own_refs refs (Some l)) e'
          ∧ ∃ padding, length padding = cnt ∧ lease_bytes l = padding ++ mjoin src
      | inl err => err = NoBuffersAvailable ∨ (err = InvalidData ∧ cnt = 0 ∧ mjoin src = [])
      end.
Proof.
  intros He Hal Hm Hcnt Hmin. unfold encode_session.
  destruct (get_buffer_encoder_spec m refs e He Hal Hmin) as [->|(e1 & -> & He1 & Hal1 & Hroom & Hp1)].
  { exists e, (inl NoBuffersAvailable). cbn. split_and!; try done; [apply preserves_refl|by left]. }
  cbn [mbind res_bind]. destruct (new_encoder_spec m refs e1 He1 Hal1) as (_ & Hw1 & Hn1).
  destruct (pad_spec m refs _ cnt Hw1 ltac:(cbn; lia)) as (enc2 & padding & -> & Hw2 & Hl2 & Hn2 & Hp2).
  cbn [mbind res_bind encode_buffer] in *. rewrite Hn1 in Hn2. cbn in Hn2.
  destruct (put_spec m refs enc2 src Hm Hw2) as (enc3 & -> & Hp3 & Hres). cbn [mbind res_bind].
  assert (preserves refs e (encode_buffer enc3)) as Hp by (by do 2 (eapply preserves_trans; [done|])).
  destruct Hres as [[Hw3 Hn3]|[Hs3 He3]].
  - destruct (get_chunk_lease_spec m refs enc3 Hw3) as (enc4 & r & -> & Hb4 & Hr). cbn [mbind res_bind].
    pose proof Hw3 as (He3 & _). destruct (drop_encoder_spec m refs enc3 He3) as (Hd1 & Hd2 & Hd3).
    assert (drop_encoder enc4 = drop_encoder enc3) as Hd by (unfold drop_encoder; by rewrite Hb4).
    eexists _, r. split; [done|]. rewrite Hd. split_and!; [done|done|by eapply preserves_trans|].
    destruct r as [err|l].
    + right. destruct Hr as [-> Hr]. rewrite Hn3, Hn2 in Hr. apply app_eq_nil in Hr as [-> ?]. done.
    + destruct Hr as (? & ? & Hr & Hwl). split_and!; [done|done| |].
      * rewrite <-Hd. unfold drop_encoder. rewrite Hb4 in *. done.
      * exists padding. split; [done|]. by rewrite Hr, Hn3, Hn2.
  - unfold get_chunk_lease. rewrite Hs3. cbn [mbind res_bind].
    destruct (drop_encoder_spec m refs enc3 He3) as (Hd1 & Hd2 & Hd3).
    eexists _, _. split; [done|]. split_and!; [done|done|by eapply preserves_trans|by left].
Qed.

Lemma put_one refs enc x : ser_error enc = None → write_offset (encode_buffer enc) < chunk_len (buffer (encode_buffer enc)) →
  put_slice refs enc [x] = Ok (set_write (write_chunk_mut enc [x]) (write_offset (encode_buffer enc) + 1)).
Proof.
  intros Hs Hlt. unfold put_slice. cbn [length]. change (2 * 1 + 2) with 4. cbn [put_slice_loop]. rewrite Hs.
  unfold writeable_len. rewrite csub_Ok by lia. cbn [mbind res_bind].
  replace (_ `min` _) with 1 by (cbn; lia). unfold chunk_len in *.
  rewrite advance_room by (cbn; unfold chunk_len; rewrite ?length_app, ?length_take, ?length_drop; cbn; rewrite ?length_drop; done || lia).
  cbn [mbind res_bind]. rewrite csub_Ok by (cbn; rewrite length_app, length_take; cbn; rewrite length_drop; lia).
  cbn [mbind res_bind drop length]. rewrite decide_False by lia. done.
Qed.

(** Every chunk of the pool is leased and no more may be allocated. *)
Definition pool_exhausted (refs : Refs) (p : BufferPool) : Prop :=
  max_pool_size p ≤ pool_size p ∧ Forall (λ b, locked b = true ∧ 0 < refs (chunk_id b)) (pool p).

Lemma get_buffer_exhausted refs refs' p : pool_exhausted refs p → (∀ k, refs k ≤ refs' k) → get_buffer refs' p = (p, None).
Proof.
  intros [Hmax Hall] Hle. unfold get_buffer.
  destruct (try_reclaim_cases refs' p) as [(l1 & b & l2 & Hp & _ & Ha & _)|[_ ->]].
  - rewrite Hp, Forall_app, Forall_cons in Hall. destruct Hall as (_ & [Hl Hr] & _).
    unfold available, unreferenced in Ha. rewrite Hl in Ha. apply bool_decide_eq_true in Ha.
    specialize (Hle (chunk_id b)). lia.
  - unfold increase_pool. by rewrite decide_True.
Qed.

(** What a failing [pad] leaves behind. *)
Lemma pad_exhausted m refs e cnt : wf_encode m refs e → write_offset e = read_offset e →
  chunk_len (buffer e) - write_offset e < cnt → pool_exhausted refs (buffer_pool e) →
  ∃ head, pad refs (mkEncoder e None None) cnt
    = Ok (mkEncoder (set_offsets e (cnt - (chunk_len (buffer e) - write_offset e)) (chunk_len (buffer e))) head
            (Some NoBuffersAvailable)).
Proof.
  intros He Hal Hroom Hex. pose proof He as (H1 & H2 & H3 & H4 & H5 & H6 & H7 & H8).
  unfold pad, advance_mut, writeable_len. cbn [ser_error encode_buffer]. rewrite csub_Ok by done. cbn [mbind res_bind].
  rewrite decide_True by done. unfold swap_or_fail, chain_and_swap, set_write.
  cbn [encode_buffer chain_head ser_error read_offset write_offset].
  replace (write_offset e + (chunk_len (buffer e) - write_offset e)) with (chunk_len (buffer e)) by lia.
  rewrite (take_lease_spec m refs) by (unfold wf_encode; cbn; split_and!; done || lia). cbn [mbind res_bind].
  unfold swap_buffer. cbn [buffer_pool set_offsets].
  rewrite (get_buffer_exhausted refs) by (done || (intros; rewrite own_refs_spec; lia)).
  eexists. reflexivity.
Qed.

(** Padding that does not fit the current chunk, when no other chunk is
    available, moves the write position back into the part of the chunk that is
    already leased: after the failed message the position is [cnt] minus the
    room, and the next message overwrites the byte there although the chunk was
    not exchanged. *)
Theorem failed_pad_rewinds (m : nat) (refs : Refs) (e : EncodeBuffer) (cnt : nat) (x : byte) :
  wf_encode m refs e → write_offset e = read_offset e →
  chunk_len (buffer e) - write_offset e < cnt → pool_exhausted refs (buffer_pool e) →
  let pos := cnt - (chunk_len (buffer e) - write_offset e) in
  pos < chunk_len (buffer e) → min_remaining e ≤ chunk_len (buffer e) - pos →
  ∃ enc1 enc2 enc3, pad refs (mkEncoder e None None) cnt = Ok enc1
    ∧ ser_error enc1 = Some NoBuffersAvailable ∧ write_offset (drop_encoder enc1) = pos
    ∧ get_buffer_encoder refs (drop_encoder enc1) = Ok (inr enc2)
    ∧ put_slice refs enc2 [x] = Ok enc3
    ∧ chunk_id (buffer (encode_buffer enc3)) = chunk_id (buffer e)
    ∧ data (buffer (encode_buffer enc3)) = <[pos := x]> (data (buffer e)).
Proof.
  intros He Hal Hroom Hex pos Hpos Hmin.
  destruct (pad_exhausted m refs e cnt He Hal Hroom Hex) as [head Hpad].
  eexists _, (mkEncoder (set_offsets e pos pos) None None), _. split; [exact Hpad|].
  split_and!; [done|done| |apply put_one; [done|exact Hpos]|done|].
  - unfold get_buffer_encoder. cbn. rewrite csub_Ok by (unfold pos in *; lia). cbn.
    rewrite decide_False by (unfold pos in *; lia). unfold new_encoder. cbn. by rewrite bool_decide_true.
  - rewrite (insert_take_drop (data (buffer e))) by exact Hpos.
    cbn [encode_buffer set_write set_offsets write_chunk_mut copy_into buffer data write_offset length app].
    by rewrite Nat.add_1_r.
Qed.

Definition example_encode : EncodeBuffer :=
  mkEncode (new_chunk 2 128) (mkPool [lock_chunk (new_chunk 1 128); lock_chunk (new_chunk 0 128)] 3 128 128 3 3)
    124 124 false 2.
Definition example_leases : Refs := λ k, if decide (k < 3) then 1 else 0.

Lemma example_encode_ok : wf_encode 128 example_leases example_encode.
Proof.
  unfold wf_encode, example_encode, chunks_long, chunk_len. cbn. split_and!; try lia; try done.
  - by apply (bool_decide_unpack (2 ∉ [1; 0])).
  - unfold pool_ok. cbn. split_and!; [lia|by apply (bool_decide_unpack (NoDup [1; 0]))| |].
    + intros b. rewrite !elem_of_cons, elem_of_nil. intros [->|[->|[]]]; cbn; split; (lia || done).
    + intros i Hi. unfold example_leases. by rewrite decide_False by lia.
  - by repeat constructor.
Qed.

Lemma encode_message_witness :
  ∃ e' r, encode_session example_leases (mkEncode (new_chunk 2 128) (mkPool [new_chunk 3 128] 4 128 128 4 4) 120 120 false 9)
      9 [[1; 2; 3]%Z] = Ok (e', r)
    ∧ match r with inr l => ∃ padding, length padding = 9 ∧ lease_bytes l = padding ++ [1; 2; 3]%Z | inl _ => False end.
Proof.
  destruct (encode_message 128 example_leases
    (mkEncode (new_chunk 2 128) (mkPool [new_chunk 3 128] 4 128 128 4 4) 120 120 false 9) 9 [[1; 2; 3]%Z])
    as (e' & r & He & _ & _ & _ & Hr); [|done|lia|cbn; lia|cbn; lia|].
  - unfold wf_encode, chunks_long, chunk_len. cbn. split_and!; try lia; try done.
    + by apply (bool_decide_unpack (2 ∉ [3])).
    + unfold pool_ok. cbn. split_and!; [lia|by apply (bool_decide_unpack (NoDup [3]))| |].
      * intros b. rewrite elem_of_cons, elem_of_nil. intros [->|[]]; cbn; split; (lia || done).
      * intros i Hi. unfold example_leases. by rewrite decide_False by lia.
    + by repeat constructor.
  - exists e', r. split; [exact He|]. destruct r as [err|l]; [|exact (proj2 (proj2 (proj2 Hr)))].
    exfalso. vm_compute in He. discriminate He.
Defined.

Lemma failed_pad_rewinds_witness :
  ∃ enc1, pad example_leases (mkEncoder example_encode None None) 9 = Ok enc1
    ∧ write_offset (drop_encoder enc1) = 5.
Proof.
  destruct (failed_pad_rewinds 128 example_leases example_encode 9 7%Z) as (enc1 & _ & _ & H1 & _ & H2 & _);
    [exact example_encode_ok|done|cbn; lia| |cbn; lia|cbn; lia|].
  - split; [cbn; lia|]. repeat constructor.
  - exists enc1. split; [exact H1|exact H2].
Defined.
