(* ===== verification/Messages.v ===== *)
(** * Network messages

    Model of the helpers that turn a message into a framed chain of leases and
    back ([core/src/serialisation/ser_helpers.rs]), of the message type they
    produce ([core/src/messaging/net_message.rs]) and of the data handed to the
    dispatcher ([DispatchData] in [core/src/messaging/dispatch.rs]).

    A serialiser is modelled by the bytes it writes ([Serialisation]); how it cuts
    them into [put] calls is the parameter [cuts].  The encoder left behind by a
    serialiser that fails half-way is not described: such a call returns only its
    error. *)

From S2P Require Import Prelude Extern Paths Serialisation Framing Routing ChunkLease Frames Buffers EncodeBuffer.

(** ** Data *)
Section Data.
Context {U : UuidApi}.

(** [Box<dyn Serialisable>]. *)
Record BoxedSer := mkBoxed {
  boxed_type : Type;
  boxed_impl : Serialisable boxed_type;
  boxed : boxed_type;
}.

Definition boxed_serialise (b : BoxedSer) : res SerError (list byte) :=
  serialise (Serialisable := boxed_impl b) (boxed b).

Inductive HeapOrSer :=
| Boxed (b : BoxedSer)
| Serialised (bytes : list byte)
| HChunkLease (chunk : ChunkLease)
| HChunkRef (chunk : ChunkRef).

Record NetData := mkNetData { nd_ser_id : SerId; nd_data : HeapOrSer }.

Record NetMessage := mkNetMessage {
  sender : ActorPath;
  receiver : ActorPath;
  nm_data : NetData;
  session : option SessionId;
}.

Definition with_box (id : SerId) (s r : ActorPath) (b : BoxedSer) : NetMessage :=
  mkNetMessage s r (mkNetData id (Boxed b)) None.
Definition with_bytes (id : SerId) (s r : ActorPath) (bs : list byte) : NetMessage :=
  mkNetMessage s r (mkNetData id (Serialised bs)) None.
Definition with_chunk_lease (id : SerId) (s r : ActorPath) (l : ChunkLease) : NetMessage :=
  mkNetMessage s r (mkNetData id (HChunkLease l)) None.
Definition with_chunk_ref (id : SerId) (s r : ActorPath) (c : ChunkRef) : NetMessage :=
  mkNetMessage s r (mkNetData id (HChunkRef c)) None.

Definition set_session (m : NetMessage) (id : SessionId) : NetMessage :=
  mkNetMessage (sender m) (receiver m) (nm_data m) (Some id).

(** A panic of code that returns no error. *)
Definition lift_panic {A} (m : res Empty_set A) : res SerError A :=
  match m with Ok a => Ok a | Err e => match e with end | Panic => Panic end.

(** The unread bytes of a reference. *)
Definition ref_readable (c : ChunkRef) : list byte := drop (ref_read_pointer c) (ref_bytes c).

(** [TryClone for HeapOrSer]. *)
#[global] Instance HeapOrSer_try_clone : TryClone HeapOrSer := λ d,
  match d with
  | Boxed ser => buf ← boxed_serialise ser; Ok (Serialised buf)
  | Serialised bytes => Ok (Serialised bytes)
  | HChunkLease chunk => bs ← lift_panic (create_byte_clone chunk); Ok (Serialised bs)
  | HChunkRef chunk => Ok (HChunkRef chunk)
  end.
#[global] Instance NetData_try_clone : TryClone NetData := λ d,
  data ← try_clone (nd_data d); Ok (mkNetData (nd_ser_id d) data).
#[global] Instance NetMessage_try_clone : TryClone NetMessage := λ m,
  data ← try_clone (nm_data m); Ok (mkNetMessage (sender m) (receiver m) data (session m)).

(** [UnpackError]; [NoCast] carries the value that has another type. *)
Inductive UnpackError (T : Type) :=
| NoIdMatch (t : T)
| NoCast (b : BoxedSer)
| DeserError (e : SerError).
Arguments NoIdMatch {T} t.
Arguments NoCast {T} b.
Arguments DeserError {T} e.

(** Deserialising from a buffer; the bytes left over are dropped with it. *)
Definition from_buffer {T X} `{!Deserialiser T} (bs : list byte) : res (UnpackError X) T :=
  match deserialise T bs with
  | Ok (t, _) => Ok t
  | Err e => Err (DeserError e)
  | Panic => Panic
  end.

(** [unbox] is [Serialisable::local] followed by the downcast to [T]. *)
Definition data_try_deserialise_unchecked {T} `{!Deserialiser T}
    (unbox : BoxedSer → res (UnpackError NetData) T) (d : NetData) : res (UnpackError NetData) T :=
  match nd_data d with
  | Boxed boxed_ser => unbox boxed_ser
  | Serialised bytes => from_buffer bytes
  | HChunkLease chunk => from_buffer (readable chunk)
  | HChunkRef chunk => from_buffer (ref_readable chunk)
  end.

Definition data_try_deserialise {T} `{!Deserialiser T}
    (unbox : BoxedSer → res (UnpackError NetData) T) (d : NetData) : res (UnpackError NetData) T :=
  if decide (nd_ser_id d = SER_ID T) then data_try_deserialise_unchecked unbox d
  else Err (NoIdMatch d).

(** [NetMessage::try_deserialise_unchecked] and [try_deserialise]. *)
Definition try_deserialise_unchecked {T} `{!Deserialiser T}
    (unbox : BoxedSer → res (UnpackError NetData) T) (m : NetMessage) : res (UnpackError NetMessage) T :=
  match data_try_deserialise_unchecked unbox (nm_data m) with
  | Ok t => Ok t
  | Err (NoIdMatch data) => Err (NoIdMatch (mkNetMessage (sender m) (receiver m) data (session m)))
  | Err (NoCast b) => Err (NoCast b)
  | Err (DeserError e) => Err (DeserError e)
  | Panic => Panic
  end.

Definition try_deserialise {T} `{!Deserialiser T}
    (unbox : BoxedSer → res (UnpackError NetData) T) (m : NetMessage) : res (UnpackError NetMessage) T :=
  if decide (nd_ser_id (nm_data m) = SER_ID T) then try_deserialise_unchecked unbox m
  else Err (NoIdMatch m).

Record DeserialisedMessage (T : Type) := mkDeserialised { d_sender : ActorPath; d_receiver : ActorPath; content : T }.
Arguments mkDeserialised {T} _ _ _.

Definition try_into_deserialised {T} `{!Deserialiser T}
    (unbox : BoxedSer → res (UnpackError NetData) T) (m : NetMessage)
    : res (UnpackError NetMessage) (DeserialisedMessage T) :=
  match data_try_deserialise unbox (nm_data m) with
  | Ok t => Ok (mkDeserialised (sender m) (receiver m) t)
  | Err (NoIdMatch data) => Err (NoIdMatch (mkNetMessage (sender m) (receiver m) data (session m)))
  | Err (NoCast b) => Err (NoCast b)
  | Err (DeserError e) => Err (DeserError e)
  | Panic => Panic
  end.

(** [UnpackError::get] and [get_box]. *)
Definition unpack_get {T} (e : UnpackError T) : option T := match e with NoIdMatch t => Some t | _ => None end.
Definition unpack_get_box {T} (e : UnpackError T) : option BoxedSer := match e with NoCast b => Some b | _ => None end.

(** [serialise_to_msg], into memory of its own. *)
Definition serialise_to_msg (src dst : ActorPath) (msg : BoxedSer) : res SerError NetMessage :=
  match size_hint (Serialisable := boxed_impl msg) (boxed msg) with
  | Some _ =>
      buf ← boxed_serialise msg;
      Ok (with_bytes (ser_id (Serialisable := boxed_impl msg) (boxed msg)) src dst buf)
  | None => Err Unknown
  end.
End Data.

(** ** Serialising *)
Section Helpers.
Context {B : BytesApi} {U : UuidApi}.
Context (cuts : list byte → list (list byte)).

(** The puts of one serialiser. *)
Definition put_bytes (refs : Refs) (enc : BufferEncoder) (bs : list byte) : res SerError BufferEncoder :=
  lift_panic (put refs enc (cuts bs)).

Definition try_reserve_in (refs : Refs) (enc : BufferEncoder) (size : nat) : res SerError BufferEncoder :=
  '(enc, err) ← lift_panic (encoder_try_reserve refs enc size);
  match err with Some e => Err e | None => Ok enc end.

Definition take_chain (enc : BufferEncoder) : res SerError (BufferEncoder * ChunkLease) :=
  '(enc, r) ← lift_panic (get_chunk_lease enc);
  match r with inl e => Err e | inr lease => Ok (enc, lease) end.

Definition serialise_msg {T} `{!Serialisable T} (refs : Refs) (src dst : ActorPath) (msg : T) (buf : BufferEncoder)
    : res SerError (BufferEncoder * ChunkLease) :=
  let reserve_size := default 0 (size_hint msg) + default 0 (actor_path_size_hint src)
                      + default 0 (actor_path_size_hint dst) in
  buf ← try_reserve_in refs buf (reserve_size + FRAME_HEAD_LEN);
  buf ← lift_panic (pad refs buf FRAME_HEAD_LEN);
  bs ← actor_path_serialise src;
  buf ← put_bytes refs buf bs;
  bs ← actor_path_serialise dst;
  buf ← put_bytes refs buf bs;
  buf ← put_bytes refs buf (put_ser_id (ser_id msg));
  bs ← serialise msg;
  buf ← put_bytes refs buf bs;
  '(buf, chunk_lease) ← take_chain buf;
  len ← csub (capacity chunk_lease) FRAME_HEAD_LEN;
  chunk_lease ← lift_panic (insert_head chunk_lease (mkHead FT_Data len));
  _ ← assert_ (bool_decide (capacity chunk_lease = len + FRAME_HEAD_LEN));
  Ok (buf, chunk_lease).

Definition preserialise_msg {T} `{!Serialisable T} (refs : Refs) (msg : T) (buf : BufferEncoder)
    : res SerError (BufferEncoder * ChunkRef) :=
  buf ← match size_hint msg with Some hint => try_reserve_in refs buf hint | None => Ok buf end;
  buf ← put_bytes refs buf (put_ser_id (ser_id msg));
  bs ← serialise msg;
  buf ← put_bytes refs buf bs;
  '(buf, chunk_lease) ← take_chain buf;
  c ← lift_panic (into_chunk_ref (S (depth chunk_lease)) chunk_lease);
  Ok (buf, c).

Definition serialise_msg_with_preserialised (refs : Refs) (src dst : ActorPath) (content : ChunkRef)
    (buf : BufferEncoder) : res SerError (BufferEncoder * ChunkRef) :=
  buf ← lift_panic (pad refs buf FRAME_HEAD_LEN);
  bs ← actor_path_serialise src;
  buf ← put_bytes refs buf bs;
  bs ← actor_path_serialise dst;
  buf ← put_bytes refs buf bs;
  '(buf, header) ← take_chain buf;
  len ← csub (capacity header + ref_chain_len content) FRAME_HEAD_LEN;
  header ← lift_panic (insert_head header (mkHead FT_Data len));
  c ← lift_panic (into_chunk_ref_with_tail (S (depth header)) header content);
  Ok (buf, c).

(** The frame of a message written completely into the encoder. *)
Definition finish_embedded (buf : BufferEncoder) : res SerError (BufferEncoder * ChunkRef) :=
  '(buf, chunk_lease) ← take_chain buf;
  len ← csub (capacity chunk_lease) FRAME_HEAD_LEN;
  chunk_lease ← lift_panic (insert_head chunk_lease (mkHead FT_Data len));
  _ ← assert_ (bool_decide (capacity chunk_lease = len + FRAME_HEAD_LEN));
  c ← lift_panic (into_chunk_ref (S (depth chunk_lease)) chunk_lease);
  Ok (buf, c).

(** The frame of a message whose content is appended as a reference. *)
Definition finish_with_content (buf : BufferEncoder) (content_capacity : nat) (content : res SerError ChunkRef)
    : res SerError (BufferEncoder * ChunkRef) :=
  '(buf, header_lease) ← take_chain buf;
  header_len ← csub (capacity header_lease) FRAME_HEAD_LEN;
  let frame_len := header_len + content_capacity in
  header_lease ← lift_panic (insert_head header_lease (mkHead FT_Data frame_len));
  content ← content;
  chunk_ref ← lift_panic (into_chunk_ref_with_tail (S (depth header_lease)) header_lease content);
  _ ← assert_ (bool_decide (ref_chain_len chunk_ref = frame_len + FRAME_HEAD_LEN));
  Ok (buf, chunk_ref).

Definition embed_msg (refs : Refs) (msg : NetMessage) (buf : BufferEncoder) : res SerError (BufferEncoder * ChunkRef) :=
  buf ← lift_panic (pad refs buf FRAME_HEAD_LEN);
  bs ← actor_path_serialise (sender msg);
  buf ← put_bytes refs buf bs;
  bs ← actor_path_serialise (receiver msg);
  buf ← put_bytes refs buf bs;
  buf ← put_bytes refs buf (put_ser_id (nd_ser_id (nm_data msg)));
  match nd_data (nm_data msg) with
  | Boxed b =>
      bs ← boxed_serialise b;
      buf ← put_bytes refs buf bs;
      finish_embedded buf
  | Serialised bytes =>
      buf ← lift_panic (put refs buf [bytes]);
      finish_embedded buf
  | HChunkLease chunk_lease =>
      finish_with_content buf (capacity chunk_lease)
        (lift_panic (into_chunk_ref (S (depth chunk_lease)) chunk_lease))
  | HChunkRef chunk_ref => finish_with_content buf (ref_chain_len chunk_ref) (Ok chunk_ref)
  end.

(** ** Deserialising *)

(** Sender, receiver and serialisation id, and the bytes after them. *)
Definition deserialise_head (bs : list byte) : res SerError (ActorPath * ActorPath * SerId * list byte) :=
  '(src, bs) ← actor_path_deserialise bs;
  '(dst, bs) ← actor_path_deserialise bs;
  '(id, bs) ← get_ser_id bs;
  Ok (src, dst, id, bs).

(** Reading from a lease reads its unread bytes and advances it. *)
Definition deserialise_chunk_lease (buffer : ChunkLease) : res SerError NetMessage :=
  '(src, dst, id, rest) ← deserialise_head (readable buffer);
  let buffer := advance buffer (length (readable buffer) - length rest) in
  c ← lift_panic (into_chunk_ref (S (depth buffer)) buffer);
  Ok (with_chunk_ref id src dst c).

Definition deserialise_chunk_ref (buffer : ChunkRef) : res SerError NetMessage :=
  '(src, dst, id, rest) ← deserialise_head (ref_readable buffer);
  let buffer := ref_advance buffer (length (ref_readable buffer) - length rest) in
  Ok (with_chunk_ref id src dst buffer).

Definition deserialise_bytes (buffer : list byte) : res SerError NetMessage :=
  '(src, dst, id, rest) ← deserialise_head buffer;
  Ok (with_bytes id src dst rest).

(** ** What the dispatcher is given *)
Inductive SerialisedFrame :=
| FrameBytes (bytes : list byte)
| FrameLease (chunk : ChunkLease)
| FrameRef (chunk : ChunkRef).

Inductive DispatchData :=
| Lazy (ser : BoxedSer) (src dst : ActorPath)
| DSerialised (frame : SerialisedFrame)
| DNetMessage (msg : NetMessage).

Definition into_local (d : DispatchData) : res SerError NetMessage :=
  match d with
  | Lazy ser src dst => Ok (with_box (ser_id (Serialisable := boxed_impl ser) (boxed ser)) src dst ser)
  | DSerialised (FrameLease chunk_lease) =>
      expect (deserialise_chunk_lease (advance chunk_lease FRAME_HEAD_LEN))
  | DSerialised (FrameRef chunk_ref) => expect (deserialise_chunk_ref (ref_advance chunk_ref FRAME_HEAD_LEN))
  | DSerialised (FrameBytes bytes) =>
      _ ← assert_ (bool_decide (FRAME_HEAD_LEN ≤ length bytes));
      expect (deserialise_bytes (drop FRAME_HEAD_LEN bytes))
  | DNetMessage net_message => Ok net_message
  end.

Definition into_serialised (refs : Refs) (d : DispatchData) (buf : BufferEncoder)
    : res SerError (BufferEncoder * SerialisedFrame) :=
  match d with
  | Lazy ser src dst =>
      '(buf, l) ← serialise_msg (Serialisable0 := boxed_impl ser) refs src dst (boxed ser) buf;
      Ok (buf, FrameLease l)
  | DSerialised frame => Ok (buf, frame)
  | DNetMessage net_message =>
      '(buf, c) ← embed_msg refs net_message buf;
      Ok (buf, FrameRef c)
  end.
End Helpers.

(** ** Reserving *)
Lemma reserve_loop_chunks m refs n p acc p' taken : pool_ok refs p → chunks_long m p →
  reserve_loop refs n p acc = (p', Some taken) →
  chunks_long m p' ∧ next_id p ≤ next_id p'
  ∧ (Forall (λ b, m ≤ chunk_len b) acc → Forall (λ b, m ≤ chunk_len b) taken)
  ∧ (∀ x, x ∈ pool p → refs (chunk_id x) ≠ 0 → x ∈ pool p')
  ∧ (∀ i, i < next_id p → i ∉ chunk_id <$> pool p → i ∉ chunk_id <$> acc →
       i ∉ chunk_id <$> pool p' ∧ i ∉ chunk_id <$> taken).
Proof.
  revert p acc. induction n as [|n IH]; intros p acc Hok Hl H; cbn in H.
  { injection H as <- <-. split_and!; auto. }
  pose proof (get_buffer_cases m refs p Hok Hl) as Hg. unfold get_buffer in Hg.
  destruct (try_reclaim refs p) as [p1 [b|]]; [|done].
  destruct Hg as (G1 & G2 & _ & _ & G5 & G6 & G7 & _ & G9 & G10).
  destruct (IH p1 _ G1 G2 H) as (I1 & I2 & I3 & I4 & I5). split_and!; [done|lia| | |].
  - intros Ha. apply I3, Forall_app. split; [done|]. by repeat constructor.
  - intros x Hx Hr. apply I4; [|done]. by apply G9.
  - intros i Hi Hni Hna. destruct (G10 i Hi Hni) as [G G']. apply I5; [lia|done|].
    rewrite fmap_app, elem_of_app. cbn. rewrite list_elem_of_singleton. by intros [?|?].
Qed.

Lemma encoder_try_reserve_spec m refs enc size : wf_encoder m refs enc → encoded enc = [] →
  0 < pool_chunk_size (buffer_pool (encode_buffer enc)) → FRAME_HEAD_LEN ≤ m → FRAME_HEAD_LEN ≤ room enc →
  ∃ enc' err, encoder_try_reserve refs enc size = Ok (enc', err)
    ∧ match err with
      | Some e => e = NoBuffersAvailable
      | None => wf_encoder m refs enc' ∧ encoded enc' = [] ∧ FRAME_HEAD_LEN ≤ room enc'
          ∧ preserves refs (encode_buffer enc) (encode_buffer enc')
      end.
Proof.
  intros Hw Hn Hc Hm Hroom. pose proof Hw as ((H1 & H2 & H3 & H4 & H5 & H6 & H7 & H8) & Hh & Hs & Hni).
  unfold encoder_try_reserve. rewrite csub_Ok by done. cbn [mbind res_bind].
  case_decide; [exists enc, None; split_and!; try done; apply preserves_refl|].
  case_decide.
  - destruct (chain_and_swap_spec m refs enc Hw) as (enc' & err & -> & He & Hp & Hs' & _ & Herr).
    eexists _, err. split; [done|]. destruct err; [by destruct Herr|]. destruct Herr as [Hw' Ho].
    rewrite He, Ho. pose proof Hw' as ((_ & _ & _ & Hm' & _) & _). split_and!; try done. lia.
  - rewrite csub_Ok by lia. cbn [mbind res_bind]. set (own := own_refs refs (chain_head enc)) in *.
    unfold try_reserve. rewrite decide_False by lia. case_decide; [by eexists _, _|].
    pose proof H7 as (Hmax & _). rewrite csub_Ok by done. cbn [mbind res_bind].
    case_decide; [exists enc, None; cbn; split; [by destruct enc as [[]]|]; split_and!; try done; apply preserves_refl|].
    set (n := div_ceil _ _) in *.
    destruct (reserve_loop own n (buffer_pool (encode_buffer enc)) []) as [p' [taken|]] eqn:Hr; [|by eexists _, _].
    cbn [mbind res_bind]. eexists _, None. split; [done|].
    pose proof (reserve_loop_chunks m own _ _ _ _ _ H7 H8 Hr) as (R1 & R2 & R3 & R4 & R5).
    destruct (R5 _ H5 H6 ltac:(by apply not_elem_of_nil)) as [R6 R7].
    apply (reserve_loop_ok own n _ []) in Hr as (Hk & Hl & Hnd & Hres & Hdis);
      [|done|by intros b Hb%elem_of_nil|constructor|by intros b Hb%elem_of_nil].
    split_and!; try done.
    + split_and!; try done. unfold wf_encode. cbn.
      split_and!; try done; [lia| | |].
      * intros (x & Hx & [Hin|Hin]%push_front_elem)%list_elem_of_fmap;
          [apply R7|apply R6]; rewrite Hx; by apply list_elem_of_fmap_2.
      * destruct Hk as (K1 & K2 & K3 & K4). unfold pool_ok. cbn. split_and!; [done| | |done].
        -- rewrite push_front_perm, fmap_app. apply NoDup_app. split_and!; [done| |done].
           intros i (x & -> & Hx)%list_elem_of_fmap. by apply Hdis.
        -- intros b [Hb|Hb]%push_front_elem; [destruct (Hres b Hb) as (? & ? & ?); auto|by apply K3].
      * destruct R1 as [Ra Rb]. split; [done|]. cbn. apply Forall_forall. intros b [Hb|Hb]%push_front_elem.
        -- by eapply Forall_forall in Hb; [|apply R3; constructor].
        -- by eapply Forall_forall in Hb; [|exact Rb].
    + intros k bs Hk' Hr'. unfold written in *. cbn. apply elem_of_cons in Hk' as [[= -> ->]|Hk'].
      * exists []. rewrite app_nil_r. by left.
      * exists []. rewrite app_nil_r. right. apply list_elem_of_fmap in Hk' as (x & [= -> ->] & Hx).
        apply (list_elem_of_fmap_2 (λ b, (chunk_id b, data b)) _ x), push_front_elem. right.
        apply R4; [done|]. subst own. rewrite own_refs_spec. lia.
Qed.

(** ** The wire format of a message *)
Section Format.
Context {B : BytesApi} {U : UuidApi}.

(** The bytes of a message behind its frame head. *)
Definition message_body (sb db : list byte) (id : SerId) (mb : list byte) : list byte :=
  sb ++ db ++ put_ser_id id ++ mb.

Lemma deserialise_head_spec src dst id mb : path_fits src → path_fits dst → in_u 64 id →
  ∃ sb db, actor_path_serialise src = Ok sb ∧ actor_path_serialise dst = Ok db
    ∧ deserialise_head (message_body sb db id mb) = Ok (src, dst, id, mb).
Proof.
  intros Hs Hd Hid.
  destruct (actor_path_round_trip_lemma dst (put_ser_id id ++ mb) Hd) as (db & Hdb & Hdd).
  destruct (actor_path_round_trip_lemma src (db ++ put_ser_id id ++ mb) Hs) as (sb & Hsb & Hsd).
  exists sb, db. split_and!; [done..|]. unfold deserialise_head, message_body.
  rewrite Hsd. cbn [mbind res_bind]. rewrite Hdd. cbn [mbind res_bind].
  unfold get_ser_id, put_ser_id. rewrite get_int_put by exact Hid. done.
Qed.

(** A received message with its headers, whose content deserialises to [msg]. *)
Definition arrives {T} `{!Deserialiser T} (src dst : ActorPath) (msg : T) (nm : NetMessage) : Prop :=
  sender nm = src ∧ receiver nm = dst ∧ session nm = None ∧ ∀ unbox, try_deserialise unbox nm = Ok msg.

Lemma deserialise_lease_spec r src dst id mb body : wf_lease r → readable r = body →
  deserialise_head body = Ok (src, dst, id, mb) → (∃ hb, body = hb ++ mb) →
  ∃ c, deserialise_chunk_lease r = Ok (with_chunk_ref id src dst c)
    ∧ wf_ref c ∧ ref_read_pointer c = 0 ∧ ref_bytes c = mb.
Proof.
  intros [Hw Hr] Hb Hd [hb Hhb]. unfold deserialise_chunk_lease. rewrite Hb, Hd. cbn [mbind res_bind].
  assert (read_pointer r + length body = chain_len r) as Hlen.
  { rewrite <-Hb. unfold readable. rewrite length_drop, (wf_chain_len r Hw) in *. lia. }
  rewrite Hhb, length_app in Hlen. rewrite Hhb, length_app.
  replace (length hb + length mb - length mb) with (length hb) by lia.
  destruct (into_chunk_ref_spec (S (depth (advance r (length hb)))) (advance r (length hb)))
    as (c & -> & Hwc & Hbc & Hrc & _); [|lia|].
  - split; [by apply wf_set_read|]. destruct r; cbn in *; lia.
  - exists c. split_and!; [done..|]. rewrite Hbc. unfold readable in *.
    replace (read_pointer (advance r (length hb))) with (read_pointer r + length hb) by (by destruct r).
    replace (lease_bytes (advance r (length hb))) with (lease_bytes r) by (by destruct r).
    by rewrite <-drop_drop, Hb, Hhb, drop_app_length.
Qed.

Lemma ref_readable_advance c n : ref_readable (ref_advance c n) = drop n (ref_readable c).
Proof. unfold ref_readable. destruct c. by rewrite drop_drop. Qed.

Lemma deserialise_ref_spec c src dst id mb body : wf_ref c → ref_readable c = body →
  deserialise_head body = Ok (src, dst, id, mb) → (∃ hb, body = hb ++ mb) →
  ∃ c', deserialise_chunk_ref c = Ok (with_chunk_ref id src dst c') ∧ ref_readable c' = mb
    ∧ ref_bytes c' = ref_bytes c ∧ wf_ref c'.
Proof.
  intros Hw Hb Hd [hb Hhb]. unfold deserialise_chunk_ref. rewrite Hb, Hd. cbn [mbind res_bind].
  eexists. split; [done|]. rewrite Hhb, length_app.
  replace (length hb + length mb - length mb) with (length hb) by lia.
  rewrite ref_readable_advance, Hb, Hhb, drop_app_length. by destruct c.
Qed.

Lemma body_split sb db id mb : ∃ hb, message_body sb db id mb = hb ++ mb.
Proof. exists (sb ++ db ++ put_ser_id id). unfold message_body. by rewrite <-!app_assoc. Qed.

(** A head inserted into a padded chain. *)
Lemma insert_head_padded l padding body : wf_lease l → read_pointer l = 0 → length padding = FRAME_HEAD_LEN →
  lease_bytes l = padding ++ body → ∀ h, ∃ l', insert_head l h = Ok l' ∧ wf_lease l' ∧ read_pointer l' = 0
    ∧ capacity l' = capacity l ∧ capacity l = FRAME_HEAD_LEN + length body ∧ lease_bytes l' = head_bytes h ++ body.
Proof.
  intros [Hw _] Hr Hp Hb h. pose proof (wf_chain_len l Hw) as Hlen. rewrite Hb, length_app, Hp in Hlen.
  pose proof (insert_head_spec l h Hw) as Hi. rewrite decide_True in Hi by lia.
  destruct Hi as (l' & Hi & W & L & R & _ & Hb'). exists l'. unfold capacity.
  rewrite R, Hr, L, Hlen. split_and!; try done.
  - split; [done|]. rewrite R, Hr. lia.
  - rewrite Hb', Hb. f_equal. by apply drop_app_length_eq.
Qed.

(** The same with a referenced content appended. *)
Lemma insert_into_ref l padding hb content : wf_lease l → read_pointer l = 0 → length padding = FRAME_HEAD_LEN →
  lease_bytes l = padding ++ hb → wf_ref content →
  let body := hb ++ ref_bytes content in
  capacity l = FRAME_HEAD_LEN + length hb ∧ length (ref_bytes content) = ref_chain_len content
  ∧ ∃ l' c, insert_head l (mkHead FT_Data (length body)) = Ok l'
    ∧ into_chunk_ref_with_tail (S (depth l')) l' content = Ok c
    ∧ wf_ref c ∧ ref_read_pointer c = 0 ∧ ref_chain_len c = FRAME_HEAD_LEN + length body
    ∧ ref_bytes c = head_bytes (mkHead FT_Data (length body)) ++ body.
Proof.
  intros Hw Hr Hp Hb Hc body.
  destruct (insert_head_padded l padding hb Hw Hr Hp Hb (mkHead FT_Data (length body)))
    as (l' & Hi & Hwl' & Hrl' & Hcap & Hcap0 & Hb').
  destruct (into_chunk_ref_spec (S (depth l')) l' Hwl' ltac:(lia)) as (c & Hic & Hwc & Hbc & Hrc & Hlc).
  destruct (ref_append_wf c content Hwc Hc) as (A1 & A2 & A3 & A4).
  assert (length (ref_bytes content) = ref_chain_len content) as Hlen by (symmetry; by apply wf_ref_len).
  split_and!; [done|done|]. exists l', (ref_append_to_chain c content).
  unfold into_chunk_ref_with_tail. rewrite Hic. cbn [mbind res_bind]. split_and!; try done.
  - congruence.
  - rewrite A3, Hlc. unfold remaining. rewrite Hrl'. unfold capacity in *. rewrite Hcap, Hcap0.
    unfold body. rewrite length_app, Hlen. lia.
  - rewrite A2, Hbc. unfold readable. rewrite Hrl', Hb'. rewrite drop_0. unfold body. by rewrite <-app_assoc.
Qed.
End Format.

(** ** Writing a message *)
Section Writing.
Context {B : BytesApi} {U : UuidApi}.
Context (cuts : list byte → list (list byte)).
Hypothesis cuts_join : ∀ bs, mjoin (cuts bs) = bs.
Context (m : nat) (refs : Refs).
Hypothesis m_pos : 0 < m.

(** Either everything so far is in the encoder, or it has run out of chunks. *)
Definition progress (enc : BufferEncoder) (content : list byte) : Prop :=
  wf_encoder m refs enc ∧ encoded enc = content ∨ exhausted m refs enc.

Lemma put_progress enc content src : progress enc content →
  ∃ enc', put refs enc src = Ok enc' ∧ progress enc' (content ++ mjoin src).
Proof using m_pos.
  intros [[Hw He]|Hex].
  - destruct (put_spec m refs enc src m_pos Hw) as (enc' & -> & _ & Hres). exists enc'. split; [done|].
    rewrite <-He. exact Hres.
  - exists enc. split; [|by right]. destruct src; cbn; [done|]. by rewrite (proj1 Hex).
Qed.

Lemma put_bytes_progress enc content bs : progress enc content →
  ∃ enc', put_bytes cuts refs enc bs = Ok enc' ∧ progress enc' (content ++ bs).
Proof using cuts_join m_pos.
  intros H. destruct (put_progress enc content (cuts bs) H) as (enc' & Hp & Hres).
  exists enc'. unfold put_bytes. rewrite Hp. rewrite cuts_join in Hres. done.
Qed.

Lemma take_progress enc content : progress enc content → content ≠ [] →
  take_chain enc = Err NoBuffersAvailable
  ∨ ∃ enc' l, take_chain enc = Ok (enc', l) ∧ wf_lease l ∧ read_pointer l = 0 ∧ lease_bytes l = content.
Proof.
  intros [[Hw He]|[Hs _]] Hne; unfold take_chain.
  - right. destruct (get_chunk_lease_spec m refs enc Hw) as (enc' & r & -> & _ & Hr). cbn.
    destruct r as [err|l].
    + destruct Hr as [_ Hr]. congruence.
    + destruct Hr as (Hl & Hr & Hb & _). exists enc', l. split_and!; [done..|congruence].
  - left. unfold get_chunk_lease. by rewrite Hs.
Qed.


Hypothesis head_fits : FRAME_HEAD_LEN ≤ m.

(** An encoder just obtained, with room for the frame head. *)
Definition fresh_encoder (enc : BufferEncoder) : Prop :=
  wf_encoder m refs enc ∧ encoded enc = [] ∧ FRAME_HEAD_LEN ≤ room enc
  ∧ 0 < pool_chunk_size (buffer_pool (encode_buffer enc)).

Lemma try_reserve_progress enc size : fresh_encoder enc →
  try_reserve_in refs enc size = Err NoBuffersAvailable
  ∨ ∃ enc', try_reserve_in refs enc size = Ok enc' ∧ wf_encoder m refs enc' ∧ encoded enc' = []
      ∧ FRAME_HEAD_LEN ≤ room enc'.
Proof using head_fits.
  intros (Hw & He & Hroom & Hc). unfold try_reserve_in.
  destruct (encoder_try_reserve_spec m refs enc size Hw He Hc head_fits Hroom) as (enc' & err & -> & Herr).
  cbn. destruct err as [err|]; [left; congruence|]. right. exists enc'. destruct Herr as (? & ? & ? & _). done.
Qed.

Lemma pad_progress enc : wf_encoder m refs enc → encoded enc = [] → FRAME_HEAD_LEN ≤ room enc →
  ∃ enc' padding, pad refs enc FRAME_HEAD_LEN = Ok enc' ∧ length padding = FRAME_HEAD_LEN ∧ progress enc' padding.
Proof.
  intros Hw He Hroom. destruct (pad_spec m refs enc FRAME_HEAD_LEN Hw Hroom) as (enc' & padding & Hp & Hw' & Hl & He' & _).
  exists enc', padding. split_and!; [done..|]. left. split; [done|]. by rewrite He', He.
Qed.

Lemma padded_nonempty (padding bs : list byte) : length padding = FRAME_HEAD_LEN → padding ++ bs ≠ [].
Proof. intros Hl H. apply app_eq_nil in H as [-> _]. done. Qed.

(** Everything [serialise_msg] writes behind the frame head. *)
Lemma serialise_msg_frame {T} `{!Serialisable T} src dst (msg : T) sb db mb enc : fresh_encoder enc →
  actor_path_serialise src = Ok sb → actor_path_serialise dst = Ok db → serialise msg = Ok mb →
  serialise_msg cuts refs src dst msg enc = Err NoBuffersAvailable
  ∨ ∃ enc' l, serialise_msg cuts refs src dst msg enc = Ok (enc', l) ∧ wf_lease l ∧ read_pointer l = 0
      ∧ let body := message_body sb db (ser_id msg) mb in
        lease_bytes l = head_bytes (mkHead FT_Data (length body)) ++ body.
Proof using cuts_join m_pos head_fits.
  intros Hf Hsb Hdb Hmb. unfold serialise_msg. rewrite Hsb, Hdb, Hmb.
  destruct (try_reserve_progress enc (default 0 (size_hint msg) + default 0 (actor_path_size_hint src)
    + default 0 (actor_path_size_hint dst) + FRAME_HEAD_LEN) Hf) as [->|(enc1 & -> & Hw1 & He1 & Hr1)]; [by left|].
  destruct (pad_progress enc1 Hw1 He1 Hr1) as (enc2 & padding & Hp & Hl & P2). cbn [mbind res_bind].
  rewrite Hp. cbn [lift_panic mbind res_bind].
  destruct (put_bytes_progress enc2 _ sb P2) as (enc3 & -> & P3). cbn [mbind res_bind].
  destruct (put_bytes_progress enc3 _ db P3) as (enc4 & -> & P4). cbn [mbind res_bind].
  destruct (put_bytes_progress enc4 _ (put_ser_id (ser_id msg)) P4) as (enc5 & -> & P5). cbn [mbind res_bind].
  destruct (put_bytes_progress enc5 _ mb P5) as (enc6 & -> & P6). cbn [mbind res_bind].
  rewrite <-!app_assoc in P6. fold (message_body sb db (ser_id msg) mb) in P6.
  set (body := message_body sb db (ser_id msg) mb) in *.
  destruct (take_progress enc6 _ P6 (padded_nonempty _ _ Hl)) as [->|(enc7 & l & -> & Hwl & Hrl & Hbl)]; [by left|].
  right. cbn [mbind res_bind].
  destruct (insert_head_padded l padding body Hwl Hrl Hl Hbl (mkHead FT_Data (length body)))
    as (l' & Hi & Hwl' & Hrl' & Hcap & Hcap0 & Hb').
  rewrite csub_Ok by lia. cbn [mbind res_bind].
  replace (capacity l - FRAME_HEAD_LEN) with (length body) by lia. rewrite Hi. cbn [lift_panic mbind res_bind].
  rewrite bool_decide_true by lia. cbn [assert_ mbind res_bind]. exists enc7, l'. done.
Qed.
(** Closing a chain that holds a padded message. *)
Lemma finish_embedded_frame enc padding body : progress enc (padding ++ body) → length padding = FRAME_HEAD_LEN →
  finish_embedded enc = Err NoBuffersAvailable
  ∨ ∃ enc' c, finish_embedded enc = Ok (enc', c) ∧ wf_ref c ∧ ref_read_pointer c = 0
      ∧ ref_bytes c = head_bytes (mkHead FT_Data (length body)) ++ body.
Proof using m_pos head_fits.
  intros P Hl. unfold finish_embedded.
  destruct (take_progress enc _ P (padded_nonempty _ _ Hl)) as [->|(enc' & l & -> & Hwl & Hrl & Hbl)]; [by left|].
  right. cbn [mbind res_bind].
  destruct (insert_head_padded l padding body Hwl Hrl Hl Hbl (mkHead FT_Data (length body)))
    as (l' & Hi & Hwl' & Hrl' & Hcap & Hcap0 & Hb').
  rewrite csub_Ok by lia. cbn [mbind res_bind].
  replace (capacity l - FRAME_HEAD_LEN) with (length body) by lia. rewrite Hi. cbn [lift_panic mbind res_bind].
  rewrite bool_decide_true by lia. cbn [assert_ mbind res_bind].
  destruct (into_chunk_ref_spec (S (depth l')) l' Hwl' ltac:(lia)) as (c & -> & Hwc & Hbc & Hrc & _).
  exists enc', c. split_and!; [done..|]. rewrite Hbc. unfold readable. by rewrite Hrl', Hb'.
Qed.

Lemma finish_with_content_frame enc padding hb cap content : progress enc (padding ++ hb) →
  length padding = FRAME_HEAD_LEN → wf_ref content → cap = ref_chain_len content →
  let body := hb ++ ref_bytes content in
  finish_with_content enc cap (Ok content) = Err NoBuffersAvailable
  ∨ ∃ enc' c, finish_with_content enc cap (Ok content) = Ok (enc', c) ∧ wf_ref c ∧ ref_read_pointer c = 0
      ∧ ref_bytes c = head_bytes (mkHead FT_Data (length body)) ++ body.
Proof using m_pos head_fits.
  intros P Hl Hc -> body. unfold finish_with_content.
  destruct (take_progress enc _ P (padded_nonempty _ _ Hl)) as [->|(enc' & l & -> & Hwl & Hrl & Hbl)]; [by left|].
  right. cbn [mbind res_bind].
  destruct (insert_into_ref l padding hb content Hwl Hrl Hl Hbl Hc)
    as (Hcap & Hlen & l' & c & Hi & Hic & W & R & L & Hb). fold body in Hi, L, Hb.
  rewrite csub_Ok by lia. cbn [mbind res_bind].
  replace (capacity l - FRAME_HEAD_LEN + ref_chain_len content) with (length body)
    by (unfold body; rewrite length_app; lia).
  rewrite Hi. cbn [lift_panic mbind res_bind]. rewrite Hic. cbn [lift_panic mbind res_bind].
  rewrite bool_decide_true by lia. cbn [assert_ mbind res_bind]. by exists enc', c.
Qed.

Lemma preserialised_frame src dst sb db content enc : fresh_encoder enc →
  actor_path_serialise src = Ok sb → actor_path_serialise dst = Ok db → wf_ref content →
  let body := (sb ++ db) ++ ref_bytes content in
  serialise_msg_with_preserialised cuts refs src dst content enc = Err NoBuffersAvailable
  ∨ ∃ enc' c, serialise_msg_with_preserialised cuts refs src dst content enc = Ok (enc', c)
      ∧ wf_ref c ∧ ref_read_pointer c = 0 ∧ ref_bytes c = head_bytes (mkHead FT_Data (length body)) ++ body.
Proof using cuts_join m_pos head_fits.
  intros (Hw & He & Hroom & _) Hsb Hdb Hc body. unfold serialise_msg_with_preserialised. rewrite Hsb, Hdb.
  destruct (pad_progress enc Hw He Hroom) as (enc2 & padding & Hp & Hl & P2). rewrite Hp. cbn [lift_panic mbind res_bind].
  destruct (put_bytes_progress enc2 _ sb P2) as (enc3 & -> & P3). cbn [mbind res_bind].
  destruct (put_bytes_progress enc3 _ db P3) as (enc4 & -> & P4). cbn [mbind res_bind]. rewrite <-!app_assoc in P4.
  destruct (take_progress enc4 _ P4 (padded_nonempty _ _ Hl)) as [->|(enc5 & l & -> & Hwl & Hrl & Hbl)]; [by left|].
  right. cbn [mbind res_bind].
  destruct (insert_into_ref l padding (sb ++ db) content Hwl Hrl Hl Hbl Hc)
    as (Hcap & Hlen & l' & c & Hi & Hic & W & R & _ & Hb). fold body in Hi, Hb.
  rewrite csub_Ok by lia. cbn [mbind res_bind].
  replace (capacity l + ref_chain_len content - FRAME_HEAD_LEN) with (length body)
    by (unfold body; rewrite length_app; lia).
  rewrite Hi. cbn [lift_panic mbind res_bind]. rewrite Hic. cbn [lift_panic mbind res_bind]. by exists enc5, c.
Qed.

(** The bytes [embed_msg] puts behind the headers. *)
Definition embedded (d : HeapOrSer) (bs : list byte) : Prop :=
  match d with
  | Boxed b => boxed_serialise b = Ok bs
  | Serialised bytes => bs = bytes
  | HChunkLease l => wf_lease l ∧ read_pointer l = 0 ∧ bs = lease_bytes l
  | HChunkRef c => wf_ref c ∧ bs = ref_bytes c
  end.

Lemma embed_msg_frame src dst id d ses sb db mb enc : fresh_encoder enc →
  actor_path_serialise src = Ok sb → actor_path_serialise dst = Ok db → embedded d mb →
  let nm := mkNetMessage src dst (mkNetData id d) ses in
  let body := message_body sb db id mb in
  embed_msg cuts refs nm enc = Err NoBuffersAvailable
  ∨ ∃ enc' c, embed_msg cuts refs nm enc = Ok (enc', c) ∧ wf_ref c ∧ ref_read_pointer c = 0
      ∧ ref_bytes c = head_bytes (mkHead FT_Data (length body)) ++ body.
Proof using cuts_join m_pos head_fits.
  intros (Hw & He & Hroom & _) Hsb Hdb Hd nm body. unfold embed_msg, nm. cbn [sender receiver nm_data nd_ser_id nd_data].
  rewrite Hsb, Hdb. destruct (pad_progress enc Hw He Hroom) as (enc2 & padding & Hp & Hl & P2).
  rewrite Hp. cbn [lift_panic mbind res_bind].
  destruct (put_bytes_progress enc2 _ sb P2) as (enc3 & -> & P3). cbn [mbind res_bind].
  destruct (put_bytes_progress enc3 _ db P3) as (enc4 & -> & P4). cbn [mbind res_bind].
  destruct (put_bytes_progress enc4 _ (put_ser_id id) P4) as (enc5 & -> & P5). cbn [mbind res_bind].
  rewrite <-!app_assoc in P5. assert (body = (sb ++ db ++ put_ser_id id) ++ mb) as Hbody
    by (unfold body, message_body; by rewrite <-!app_assoc).
  rewrite Hbody. destruct d as [b|bytes|l|c]; cbn [embedded] in Hd.
  - rewrite Hd. cbn [mbind res_bind]. destruct (put_bytes_progress enc5 _ mb P5) as (enc6 & -> & P6).
    rewrite <-app_assoc in P6. by apply (finish_embedded_frame enc6 padding).
  - subst mb. destruct (put_progress enc5 _ [bytes] P5) as (enc6 & -> & P6). cbn [lift_panic mbind res_bind].
    cbn [mjoin list_join] in P6. rewrite app_nil_r, <-app_assoc in P6. by apply (finish_embedded_frame enc6 padding).
  - destruct Hd as (Hwl & Hrl & ->).
    destruct (into_chunk_ref_spec (S (depth l)) l Hwl ltac:(lia)) as (c & -> & Hwc & Hbc & _ & Hlc).
    unfold readable, remaining in *. rewrite Hrl, drop_0 in Hbc. rewrite Hrl in Hlc. rewrite <-Hbc in Hbody |- *.
    apply (finish_with_content_frame enc5 padding); [done..|]. unfold capacity. lia.
  - destruct Hd as [Hwc ->]. by apply (finish_with_content_frame enc5 padding).
Qed.

(** A content that holds the codec's bytes deserialises to the message. *)
Lemma arrives_ref {T} `{Codec T ok} src dst (msg : T) mb c : ok msg → serialise msg = Ok mb →
  ref_readable c = mb → arrives src dst msg (with_chunk_ref (ser_id msg) src dst c).
Proof.
  intros Hok Hmb Hc. split_and!; [done..|]. intros unbox. unfold try_deserialise. cbn.
  rewrite (codec_id msg), decide_True by done. unfold try_deserialise_unchecked, data_try_deserialise_unchecked. cbn.
  rewrite Hc. destruct (codec_round_trip msg [] Hok) as (bs & Hbs & Hd). rewrite Hmb in Hbs. injection Hbs as <-.
  rewrite app_nil_r in Hd. unfold from_buffer. by rewrite Hd.
Qed.

Lemma arrives_lease {T} `{Codec T ok} src dst (msg : T) sb db mb r : ok msg → serialise msg = Ok mb →
  path_fits src → path_fits dst → in_u 64 (ser_id msg) →
  actor_path_serialise src = Ok sb → actor_path_serialise dst = Ok db →
  wf_lease r → readable r = message_body sb db (ser_id msg) mb →
  ∃ nm, deserialise_chunk_lease r = Ok nm ∧ arrives src dst msg nm.
Proof.
  intros Hok Hmb Hs Hd Hid Hsb Hdb Hw Hr.
  destruct (deserialise_head_spec src dst (ser_id msg) mb Hs Hd Hid) as (sb' & db' & Hsb' & Hdb' & Hhead).
  rewrite Hsb in Hsb'. rewrite Hdb in Hdb'. injection Hsb' as <-. injection Hdb' as <-.
  destruct (deserialise_lease_spec r src dst _ mb _ Hw Hr Hhead (body_split _ _ _ _)) as (c & -> & Hwc & Hrc & Hbc).
  eexists. split; [done|]. eapply arrives_ref; [done..|]. unfold ref_readable. by rewrite Hrc, Hbc.
Qed.

(** Local delivery of a frame in a lease and of one in a reference. *)
Lemma frame_lease_arrives {T} `{Codec T ok} src dst (msg : T) sb db mb l : ok msg → serialise msg = Ok mb →
  path_fits src → path_fits dst → in_u 64 (ser_id msg) →
  actor_path_serialise src = Ok sb → actor_path_serialise dst = Ok db → wf_lease l → read_pointer l = 0 →
  (let body := message_body sb db (ser_id msg) mb in lease_bytes l = head_bytes (mkHead FT_Data (length body)) ++ body) →
  ∃ nm, into_local (DSerialised (FrameLease l)) = Ok nm ∧ arrives src dst msg nm.
Proof.
  clear m_pos head_fits. intros Hok Hmb Hs Hd Hid Hsb Hdb Hw Hr Hb.
  destruct (arrives_lease (ok:=ok) src dst msg sb db mb (advance l FRAME_HEAD_LEN)) as (nm & Hnm & Ha); try done.
  - apply advance_wf; [done|]. apply (f_equal length) in Hb. rewrite length_app, length_head_bytes in Hb.
    unfold remaining. destruct Hw as [Hw _]. rewrite Hr, (wf_chain_len l Hw). lia.
  - assert (readable l = lease_bytes l) as Hrl by (unfold readable; by rewrite Hr).
    rewrite readable_advance, Hrl, Hb. apply drop_app_length_eq. symmetry. apply length_head_bytes.
  - exists nm. cbn [into_local]. rewrite Hnm. done.
Qed.

Lemma frame_ref_arrives {T} `{Codec T ok} src dst (msg : T) sb db mb f : ok msg → serialise msg = Ok mb →
  path_fits src → path_fits dst → in_u 64 (ser_id msg) →
  actor_path_serialise src = Ok sb → actor_path_serialise dst = Ok db → wf_ref f → ref_read_pointer f = 0 →
  (let body := message_body sb db (ser_id msg) mb in ref_bytes f = head_bytes (mkHead FT_Data (length body)) ++ body) →
  ∃ nm, into_local (DSerialised (FrameRef f)) = Ok nm ∧ arrives src dst msg nm.
Proof.
  intros Hok Hmb Hs Hd Hid Hsb Hdb Hwf Hrf Hbf.
  destruct (deserialise_head_spec src dst (ser_id msg) mb Hs Hd Hid) as (sb' & db' & Hsb' & Hdb' & Hhead).
  rewrite Hsb in Hsb'. rewrite Hdb in Hdb'. injection Hsb' as <-. injection Hdb' as <-.
  assert (ref_readable (ref_advance f FRAME_HEAD_LEN) = message_body sb db (ser_id msg) mb) as Hra.
  { rewrite ref_readable_advance. unfold ref_readable. rewrite Hrf, drop_0, Hbf. apply drop_app_length_eq. symmetry. apply length_head_bytes. }
  destruct (deserialise_ref_spec (ref_advance f FRAME_HEAD_LEN) src dst _ mb _ ltac:(by destruct f)
    Hra Hhead (body_split _ _ _ _)) as (c' & Hc' & Hrc' & _).
  eexists. split; [cbn [into_local]; by rewrite Hc'|]. by eapply arrives_ref.
Qed.

(** C7: Sending and receiving a message: for two IPv4 paths, unique or named with at least
    one segment, no slash in a segment and a text below the length limit, and an encoder
    with room for the frame head, serialising a message either reports that no buffer is
    available or gives a lease that holds a data frame head with the length of the body,
    then the body; any received lease with these body bytes left to read, wherever its
    chunk boundaries are, is turned into a message with the same sender and receiver whose
    content deserialises to the original value, and so is the lease itself when the
    dispatcher delivers it locally. *)
Theorem message_round_trip {T} `{Codec T ok} (src dst : ActorPath) (msg : T) (enc : BufferEncoder) :
  fresh_encoder enc → path_fits src → path_fits dst → in_u 64 (ser_id msg) → ok msg →
  serialise_msg cuts refs src dst msg enc = Err NoBuffersAvailable
  ∨ ∃ enc' l body, serialise_msg cuts refs src dst msg enc = Ok (enc', l)
      ∧ wf_lease l ∧ lease_bytes l = head_bytes (mkHead FT_Data (length body)) ++ body
      ∧ (∀ r, wf_lease r → readable r = body → ∃ nm, deserialise_chunk_lease r = Ok nm ∧ arrives src dst msg nm)
      ∧ (∃ nm, into_local (DSerialised (FrameLease l)) = Ok nm ∧ arrives src dst msg nm).
Proof using cuts_join m_pos head_fits.
  intros Hf Hs Hd Hid Hok. destruct (codec_round_trip msg [] Hok) as (mb & Hmb & _).
  destruct (deserialise_head_spec src dst (ser_id msg) mb Hs Hd Hid) as (sb & db & Hsb & Hdb & _).
  destruct (serialise_msg_frame src dst msg sb db mb enc Hf Hsb Hdb Hmb) as [->|(enc' & l & -> & Hw & Hr & Hb)];
    [by left|]. right. exists enc', l, (message_body sb db (ser_id msg) mb).
  split_and!; [done..| |].
  - intros r Hwr Hrr. by eapply arrives_lease.
  - by eapply frame_lease_arrives.
Qed.

Lemma preserialise_content {T} `{!Serialisable T} (msg : T) mb enc : fresh_encoder enc → serialise msg = Ok mb →
  preserialise_msg cuts refs msg enc = Err NoBuffersAvailable
  ∨ ∃ enc' c, preserialise_msg cuts refs msg enc = Ok (enc', c) ∧ wf_ref c ∧ ref_bytes c = put_ser_id (ser_id msg) ++ mb.
Proof using cuts_join m_pos head_fits.
  intros Hf Hmb. unfold preserialise_msg. rewrite Hmb.
  assert (∃ enc1, match size_hint msg with Some hint => try_reserve_in refs enc hint | None => Ok enc end = Ok enc1
      ∧ progress enc1 []
    ∨ match size_hint msg with Some hint => try_reserve_in refs enc hint | None => Ok enc end = Err NoBuffersAvailable)
    as (enc1 & [[-> P1]| ->]); [| |by left].
  { destruct (size_hint msg) as [hint|].
    - destruct (try_reserve_progress enc hint Hf) as [->|(enc1 & -> & Hw1 & He1 & _)]; [exists enc; by right|].
      exists enc1. left. split; [done|]. by left.
    - exists enc. left. split; [done|]. left. by destruct Hf as (? & ? & _). }
  cbn [mbind res_bind]. destruct (put_bytes_progress enc1 _ (put_ser_id (ser_id msg)) P1) as (enc2 & -> & P2).
  cbn [mbind res_bind]. destruct (put_bytes_progress enc2 _ mb P2) as (enc3 & -> & P3). cbn [mbind res_bind].
  destruct (take_progress enc3 _ P3) as [->|(enc4 & l & -> & Hwl & Hrl & Hbl)]; [|by left|].
  { intros H%(f_equal length). unfold put_ser_id in H. rewrite !length_app, length_put_uint in H. done. }
  right. cbn [mbind res_bind].
  destruct (into_chunk_ref_spec (S (depth l)) l Hwl ltac:(lia)) as (c & -> & Hwc & Hbc & _).
  exists enc4, c. split_and!; [done..|]. rewrite Hbc. unfold readable. by rewrite Hrl, Hbl.
Qed.

(** A preserialised message sent to a path is the same frame, byte for byte,
    as serialising it for that path: unless a buffer is missing, the content
    prepared once and given a head later consists of the frame head, the paths,
    the serialisation id and the message, with the length of all of them in the
    head; and the frame can be delivered locally. *)
Theorem preserialised_same_frame {T} `{Codec T ok} (src dst : ActorPath) (msg : T) (enc1 enc2 enc3 : BufferEncoder) :
  fresh_encoder enc1 → fresh_encoder enc2 → fresh_encoder enc3 →
  path_fits src → path_fits dst → in_u 64 (ser_id msg) → ok msg →
  preserialise_msg cuts refs msg enc1 = Err NoBuffersAvailable
  ∨ ∃ enc1' c, preserialise_msg cuts refs msg enc1 = Ok (enc1', c)
      ∧ (serialise_msg_with_preserialised cuts refs src dst c enc2 = Err NoBuffersAvailable
         ∨ ∃ enc2' f, serialise_msg_with_preserialised cuts refs src dst c enc2 = Ok (enc2', f)
             ∧ (∃ nm, into_local (DSerialised (FrameRef f)) = Ok nm ∧ arrives src dst msg nm)
             ∧ (serialise_msg cuts refs src dst msg enc3 = Err NoBuffersAvailable
                ∨ ∃ enc3' l, serialise_msg cuts refs src dst msg enc3 = Ok (enc3', l)
                    ∧ ref_readable f = readable l)).
Proof using cuts_join m_pos head_fits.
  intros Hf1 Hf2 Hf3 Hs Hd Hid Hok. destruct (codec_round_trip msg [] Hok) as (mb & Hmb & _).
  destruct (preserialise_content msg mb enc1 Hf1 Hmb) as [->|(enc1' & c & -> & Hwc & Hbc)]; [by left|].
  right. exists enc1', c. split; [done|].
  destruct (deserialise_head_spec src dst (ser_id msg) mb Hs Hd Hid) as (sb & db & Hsb & Hdb & Hhead).
  destruct (preserialised_frame src dst sb db c enc2 Hf2 Hsb Hdb Hwc) as [->|(enc2' & f & -> & Hwf & Hrf & Hbf)];
    [by left|]. right. exists enc2', f. split; [done|]. rewrite Hbc, <-app_assoc in Hbf.
  change (sb ++ db ++ put_ser_id (ser_id msg) ++ mb) with (message_body sb db (ser_id msg) mb) in Hbf.
  assert (ref_readable f = ref_bytes f) as Hrd by (unfold ref_readable; by rewrite Hrf).
  split.
  - by eapply frame_ref_arrives.
  - destruct (serialise_msg_frame src dst msg sb db mb enc3 Hf3 Hsb Hdb Hmb) as [->|(enc3' & l & -> & _ & Hr & Hb)];
      [by left|]. right. exists enc3', l. split; [done|]. unfold readable. by rewrite Hrd, Hbf, Hr, Hb.
Qed.

(** Forwarding: a message received from the network and embedded again, with
    its receiver exchanged, is either reported as not having a buffer or gives a
    frame from which the next hop receives the original value from the original
    sender. *)
Theorem forward_round_trip {T} `{Codec T ok} (src dst dst' : ActorPath) (msg : T) (sb db mb : list byte)
    (r : ChunkLease) (enc : BufferEncoder) :
  fresh_encoder enc → path_fits src → path_fits dst → path_fits dst' → in_u 64 (ser_id msg) → ok msg →
  actor_path_serialise src = Ok sb → actor_path_serialise dst = Ok db → serialise msg = Ok mb →
  wf_lease r → readable r = message_body sb db (ser_id msg) mb →
  ∃ nm, deserialise_chunk_lease r = Ok nm
    ∧ let nm' := mkNetMessage (sender nm) dst' (nm_data nm) (session nm) in
      embed_msg cuts refs nm' enc = Err NoBuffersAvailable
      ∨ ∃ enc' c body, embed_msg cuts refs nm' enc = Ok (enc', c)
          ∧ ref_readable c = head_bytes (mkHead FT_Data (length body)) ++ body
          ∧ ∀ r', wf_lease r' → readable r' = body →
              ∃ nm'', deserialise_chunk_lease r' = Ok nm'' ∧ arrives src dst' msg nm''.
Proof using cuts_join m_pos head_fits.
  intros Hf Hs Hd Hd' Hid Hok Hsb Hdb Hmb Hw Hr.
  destruct (deserialise_head_spec src dst (ser_id msg) mb Hs Hd Hid) as (sb0 & db0 & Hsb0 & Hdb0 & Hhead).
  rewrite Hsb in Hsb0. rewrite Hdb in Hdb0. injection Hsb0 as <-. injection Hdb0 as <-.
  destruct (deserialise_lease_spec r src dst _ mb _ Hw Hr Hhead (body_split _ _ _ _)) as (c & -> & Hwc & Hrc & Hbc).
  eexists. split; [done|].
  destruct (deserialise_head_spec dst' dst' (ser_id msg) mb Hd' Hd' Hid) as (db' & _ & Hdb' & _ & _).
  destruct (embed_msg_frame src dst' (ser_id msg) (HChunkRef c) None sb db' mb enc Hf Hsb Hdb')
    as [He|(enc' & c' & He & Hwc' & Hrc' & Hbc')]; [by cbn [embedded]|by left|].
  right. exists enc', c', (message_body sb db' (ser_id msg) mb). split_and!; [done| |].
  - unfold ref_readable. by rewrite Hrc', drop_0.
  - intros r' Hwr' Hrr'. by eapply arrives_lease.
Qed.

(** A preserialised message that the dispatcher delivers locally keeps its
    frame head and headers in the content, in front of the read position; when
    the local receiver forwards it, they are sent again in front of the value,
    as part of the content of the new frame. *)
Theorem reflected_forward_resends (src dst dst' : ActorPath) (id : SerId) (mb sb db db' frame : list byte) (c : ChunkRef)
    (enc : BufferEncoder) :
  fresh_encoder enc → path_fits src → path_fits dst → in_u 64 id →
  actor_path_serialise src = Ok sb → actor_path_serialise dst = Ok db → actor_path_serialise dst' = Ok db' →
  wf_ref c → ref_read_pointer c = 0 → length frame = FRAME_HEAD_LEN → ref_bytes c = frame ++ message_body sb db id mb →
  ∃ nm, into_local (DSerialised (FrameRef c)) = Ok nm
    ∧ (∃ c', nd_data (nm_data nm) = HChunkRef c' ∧ ref_readable c' = mb)
    ∧ let nm' := mkNetMessage (sender nm) dst' (nm_data nm) (session nm) in
      embed_msg cuts refs nm' enc = Err NoBuffersAvailable
      ∨ ∃ enc' c' body, embed_msg cuts refs nm' enc = Ok (enc', c')
          ∧ ref_readable c' = head_bytes (mkHead FT_Data (length body)) ++ body
          ∧ body = message_body sb db' id (frame ++ message_body sb db id mb).
Proof using cuts_join m_pos head_fits.
  intros Hf Hs Hd Hid Hsb Hdb Hdb' Hw Hr Hl Hb.
  destruct (deserialise_head_spec src dst id mb Hs Hd Hid) as (sb0 & db0 & Hsb0 & Hdb0 & Hhead).
  rewrite Hsb in Hsb0. rewrite Hdb in Hdb0. injection Hsb0 as <-. injection Hdb0 as <-.
  assert (ref_readable (ref_advance c FRAME_HEAD_LEN) = message_body sb db id mb) as Hrd.
  { rewrite ref_readable_advance. unfold ref_readable. rewrite Hr, drop_0, Hb. by apply drop_app_length_eq. }
  destruct (deserialise_ref_spec (ref_advance c FRAME_HEAD_LEN) src dst id mb _ ltac:(by destruct c)
    Hrd Hhead (body_split _ _ _ _)) as (c' & Hc' & Hrc' & Hbc' & Hwc').
  assert (ref_bytes c' = frame ++ message_body sb db id mb) as Hall by (rewrite Hbc', <-Hb; by destruct c).
  eexists. split; [cbn [into_local]; by rewrite Hc'|]. cbn [with_chunk_ref sender nm_data session nd_data].
  split; [by exists c'|].
  destruct (embed_msg_frame src dst' id (HChunkRef c') None sb db' (ref_bytes c') enc Hf Hsb Hdb')
    as [He|(enc' & c2 & He & _ & Hr2 & Hb2)]; [by cbn [embedded]|by left|].
  right. exists enc', c2, (message_body sb db' id (ref_bytes c')). split_and!; [done| |by rewrite Hall].
  unfold ref_readable. by rewrite Hr2, drop_0.
Qed.

End Writing.

(** ** A concrete send *)
Definition one_cut (bs : list byte) : list (list byte) := [bs].

Definition example_encoder : BufferEncoder :=
  mkEncoder (mkEncode (new_chunk 2 128) (mkPool [new_chunk 3 128] 4 128 128 4 4) 100 100 false 9) None None.

Lemma example_fresh : fresh_encoder 128 example_leases example_encoder.
Proof.
  unfold fresh_encoder, wf_encoder, wf_encode, chunks_long, chunk_len, room. cbn. split_and!; try lia; try done.
  - by apply (bool_decide_unpack (2 ∉ [3])).
  - unfold pool_ok. cbn. split_and!; [lia|by apply (bool_decide_unpack (NoDup [3]))| |].
    + intros b. rewrite elem_of_cons, elem_of_nil. intros [->|[]]; cbn; split; (lia || done).
    + intros i Hi. rewrite own_refs_spec. cbn. unfold example_leases. by rewrite decide_False by lia.
  - by repeat constructor.
  - apply not_elem_of_nil.
Qed.

Lemma one_cut_join bs : mjoin (one_cut bs) = bs.
Proof. cbn. apply app_nil_r. Qed.

Section example.
Context {U : UuidApi}.

Definition example_path (name : string) : ActorPath := Named (MkNamedPath example_system [name]).

Lemma example_path_fits : path_fits (example_path "a") ∧ path_fits (example_path "b") ∧ path_fits (example_path "c").
Proof.
  split_and!; try (vm_compute; done); repeat constructor; apply (bool_decide_unpack _); vm_compute; exact I.
Qed.

Definition example_name_bytes (c : byte) : list byte := [129; 127; 0; 0; 1; 31; 144; 0; 1; c]%Z.
Definition example_content : list byte := [0; 0; 0; 0; 0; 0; 0; 2; 104; 105]%Z.

Lemma example_ok : ok_string "hi" ∧ in_u 64 (ser_id "hi"%string) ∧ serialise "hi"%string = Ok example_content.
Proof. vm_compute. repeat split; congruence. Qed.

Lemma example_path_bytes : ∃ sb db db', actor_path_serialise (example_path "a") = Ok sb
  ∧ actor_path_serialise (example_path "b") = Ok db ∧ actor_path_serialise (example_path "c") = Ok db'
  ∧ sb = example_name_bytes 97 ∧ db = example_name_bytes 98 ∧ db' = example_name_bytes 99.
Proof. do 3 eexists. split_and!; vm_compute; reflexivity. Qed.

Lemma example_sends :
  serialise_msg one_cut example_leases (example_path "a") (example_path "b") "hi"%string example_encoder
  ≠ Err NoBuffersAvailable.
Proof. vm_compute. discriminate. Qed.

Definition example_body : list byte :=
  message_body (example_name_bytes 97) (example_name_bytes 98) serialisation_ids.STR example_content.
Definition example_received : ChunkLease := new_lease example_body 7.
Definition example_frame : list byte := head_bytes (mkHead FT_Data (length example_body)).
Definition example_ref : ChunkRef :=
  let bs := example_frame ++ example_body in CRef bs 0 (length bs) 7 None (length bs).

Definition redirect (nm : NetMessage) : NetMessage :=
  mkNetMessage (sender nm) (example_path "c") (nm_data nm) (session nm).

Lemma example_forwards nm : deserialise_chunk_lease example_received = Ok nm →
  embed_msg one_cut example_leases (redirect nm) example_encoder ≠ Err NoBuffersAvailable.
Proof. intros H. vm_compute in H. injection H as <-. vm_compute. discriminate. Qed.

Lemma example_reflects nm : into_local (DSerialised (FrameRef example_ref)) = Ok nm →
  embed_msg one_cut example_leases (redirect nm) example_encoder ≠ Err NoBuffersAvailable.
Proof. intros H. vm_compute in H. injection H as <-. vm_compute. discriminate. Qed.

Lemma example_preserialised enc' c : preserialise_msg one_cut example_leases "hi"%string example_encoder = Ok (enc', c) →
  serialise_msg_with_preserialised one_cut example_leases (example_path "a") (example_path "b") c example_encoder
  ≠ Err NoBuffersAvailable.
Proof. intros H. vm_compute in H. injection H as <- <-. vm_compute. discriminate. Qed.

Lemma example_preserialises : preserialise_msg one_cut example_leases "hi"%string example_encoder ≠ Err NoBuffersAvailable.
Proof. vm_compute. discriminate. Qed.
End example.

Lemma message_round_trip_witness :
  ∃ enc' l, serialise_msg one_cut example_leases (example_path "a") (example_path "b") "hi"%string example_encoder = Ok (enc', l)
    ∧ ∃ nm, into_local (DSerialised (FrameLease l)) = Ok nm
        ∧ arrives (example_path "a") (example_path "b") "hi"%string nm.
Proof.
  destruct (message_round_trip one_cut one_cut_join 128 example_leases ltac:(lia) ltac:(unfold FRAME_HEAD_LEN; lia)
    (example_path "a") (example_path "b") "hi"%string example_encoder example_fresh
    (proj1 example_path_fits) (proj1 (proj2 example_path_fits)) (proj1 (proj2 example_ok)) (proj1 example_ok))
    as [H|(enc' & l & body & H & _ & _ & _ & Hloc)].
  - destruct (example_sends H).
  - exists enc', l. exact (conj H Hloc).
Defined.

Lemma forward_round_trip_witness :
  ∃ nm enc' c body, deserialise_chunk_lease example_received = Ok nm
    ∧ embed_msg one_cut example_leases (redirect nm) example_encoder = Ok (enc', c)
    ∧ ref_readable c = head_bytes (mkHead FT_Data (length body)) ++ body.
Proof.
  destruct example_path_bytes as (sb & db & db' & H1 & H2 & _ & -> & -> & _).
  destruct example_path_fits as (F1 & F2 & F3). destruct example_ok as (O1 & O2 & O3).
  destruct (forward_round_trip one_cut one_cut_join 128 example_leases ltac:(lia) ltac:(unfold FRAME_HEAD_LEN; lia)
    (example_path "a") (example_path "b") (example_path "c") "hi"%string _ _ _ example_received example_encoder
    example_fresh F1 F2 F3 O2 O1 H1 H2 O3) as (nm & Hnm & [He|(enc' & c & body & He & Hb & _)]).
  - split; cbn; lia || done.
  - reflexivity.
  - destruct (example_forwards nm Hnm He).
  - exists nm, enc', c, body. exact (conj Hnm (conj He Hb)).
Defined.

Lemma reflected_forward_resends_witness :
  ∃ nm enc' c body, into_local (DSerialised (FrameRef example_ref)) = Ok nm
    ∧ embed_msg one_cut example_leases (redirect nm) example_encoder = Ok (enc', c)
    ∧ body = message_body (example_name_bytes 97) (example_name_bytes 99) serialisation_ids.STR (example_frame ++ example_body).
Proof.
  destruct example_path_bytes as (sb & db & db' & H1 & H2 & H3 & -> & -> & ->).
  destruct example_path_fits as (F1 & F2 & F3).
  destruct (reflected_forward_resends one_cut one_cut_join 128 example_leases ltac:(lia) ltac:(unfold FRAME_HEAD_LEN; lia)
    (example_path "a") (example_path "b") (example_path "c") serialisation_ids.STR example_content _ _ _ example_frame
    example_ref example_encoder example_fresh F1 F2 ltac:(vm_compute; split; congruence) H1 H2 H3)
    as (nm & Hnm & _ & [He|(enc' & c & body & He & _ & Hb)]).
  - vm_compute. auto.
  - reflexivity.
  - reflexivity.
  - reflexivity.
  - destruct (example_reflects nm Hnm He).
  - exists nm, enc', c, body. exact (conj Hnm (conj He Hb)).
Defined.

Lemma preserialised_same_frame_witness :
  ∃ enc1 c enc2 f, preserialise_msg one_cut example_leases "hi"%string example_encoder = Ok (enc1, c)
    ∧ serialise_msg_with_preserialised one_cut example_leases (example_path "a") (example_path "b") c example_encoder
      = Ok (enc2, f)
    ∧ ∃ nm, into_local (DSerialised (FrameRef f)) = Ok nm ∧ arrives (example_path "a") (example_path "b") "hi"%string nm.
Proof.
  destruct example_path_fits as (F1 & F2 & F3). destruct example_ok as (O1 & O2 & O3).
  destruct (preserialised_same_frame one_cut one_cut_join 128 example_leases ltac:(lia) ltac:(unfold FRAME_HEAD_LEN; lia)
    (example_path "a") (example_path "b") "hi"%string example_encoder example_encoder example_encoder
    example_fresh example_fresh example_fresh F1 F2 O2 O1) as [H|(enc1 & c & H1 & [H|(enc2 & f & H2 & H3 & _)])].
  - destruct (example_preserialises H).
  - destruct (example_preserialised enc1 c H1 H).
  - exists enc1, c, enc2, f. exact (conj H1 (conj H2 H3)).
Defined.
