(* ===== verification/Serialisers.v ===== *)
(** * Serialisers besides the value

    Model of the part of [core/src/serialisation/core.rs] in which the code that writes
    a value is a value of its own ([Serialiser], [SerialisableValue]: what is sent as a
    pair), of the protobuf serialiser ([protobuf_serialisers.rs]) and of the widths a
    serialisation id can be configured to have ([serialisation/mod.rs]).  The protobuf
    library is a parameter. *)

From S2P Require Import Prelude Extern Paths Serialisation Framing Routing ChunkLease Frames Buffers EncodeBuffer Messages.

(** ** Pairs of a value and its serialiser *)

(** The trait [Serialiser<T>]; its supertrait [TryClone] is an instance of its own. *)
Class Serialiser (S T : Type) := {
  s_ser_id : S → SerId;
  s_size_hint : S → option nat;
  s_serialise : S → T → res SerError (list byte);
  s_try_clone_data : S → T → option T;
}.

Record SerialisableValue (T S : Type) := mkValue { sv_v : T; sv_ser : S }.
Arguments mkValue {T S} _ _.
Arguments sv_v {T S} _.
Arguments sv_ser {T S} _.

Section Pairs.
Context {T S : Type} `{!Serialiser S T} `{!TryClone S}.

Definition value_from_tuple (t : T * S) : SerialisableValue T S := mkValue t.1 t.2.

#[global] Instance SerialisableValue_serialisable : Serialisable (SerialisableValue T S) := {
  ser_id := λ v, s_ser_id (sv_ser v);
  size_hint := λ v, s_size_hint (sv_ser v);
  serialise := λ v, s_serialise (sv_ser v) (sv_v v);
}.

Definition value_local (v : SerialisableValue T S) : T := sv_v v.

Definition value_cloned (v : SerialisableValue T S) : option (SerialisableValue T S) :=
  match try_clone (sv_ser v) with
  | Ok ser => (λ t, mkValue t ser) <$> s_try_clone_data (sv_ser v) (sv_v v)
  | _ => None
  end.

(** [From<(T, S)> for Box<dyn Serialisable>]. *)
Definition box_from_tuple (t : T * S) : BoxedSer := mkBoxed (SerialisableValue T S) _ (value_from_tuple t).
End Pairs.

(** [just_serialise(..).expect(..)]. *)
Definition just_serialise {E} (s : BoxedSer) (buf : list byte) : res E (list byte) :=
  match boxed_serialise s with Ok bs => Ok (buf ++ bs) | _ => Panic end.

(** ** One-off serialisation *)

(** [messaging::Serialised]. *)
Record SerialisedData := mkSerialisedData { sd_ser_id : SerId; sd_data : list byte }.

Definition serialise_to_serialised {T} `{!Serialisable T} (ser : T) : res SerError SerialisedData :=
  match size_hint ser with
  | Some _ => buf ← serialise ser; Ok (mkSerialisedData (ser_id ser) buf)
  | None => Err Unknown
  end.

Definition serialiser_to_serialised {T S} `{!Serialiser S T} (t : T) (ser : S) : res SerError SerialisedData :=
  match s_size_hint ser with
  | Some _ => buf ← s_serialise ser t; Ok (mkSerialisedData (s_ser_id ser) buf)
  | None => Err Unknown
  end.

(** The conversions ([TryFrom]) into [Serialised]. *)
Definition serialised_from_bytes (t : SerId * list byte) : res SerError SerialisedData :=
  Ok (mkSerialisedData t.1 t.2).
Definition serialised_from_pair {T S} `{!Serialiser S T} (t : T * S) : res SerError SerialisedData :=
  serialiser_to_serialised t.1 t.2.
Definition serialised_from_dyn (ser : BoxedSer) : res SerError SerialisedData :=
  serialise_to_serialised (Serialisable0 := boxed_impl ser) (boxed ser).
Definition serialised_from_result {E} (r : res E SerialisedData) : res E SerialisedData := r.

(** What a serialiser owes the deserialiser of the type, and a clone its original. *)
Class SerialiserCodec (S T : Type) `{!Serialiser S T} `{!TryClone S} `{!Deserialiser T} (ok : T → Prop) := {
  sc_id : ∀ s, s_ser_id s = SER_ID T;
  sc_round_trip : ∀ s t rest, ok t → ∃ bs, s_serialise s t = Ok bs ∧ deserialise T (bs ++ rest) = Ok (t, rest);
  sc_clone : ∀ s s', try_clone s = Ok s' → ∀ t, s_serialise s' t = s_serialise s t;
  sc_clone_data : ∀ s t t', s_try_clone_data s t = Some t' → t' = t;
}.

(** ** Protobuf *)

(** [protobuf::Message]: writing, and merging bytes into a message. *)
Class ProtobufMessage (M : Type) := {
  write_to : M → option (list byte);
  merge_from_bytes : M → list byte → option M;
  fresh : M;
  merge_written : ∀ m bs, write_to m = Some bs → merge_from_bytes fresh bs = Some m;
}.

Inductive ProtobufSer := protobuf_ser.
#[global] Instance ProtobufSer_try_clone : TryClone ProtobufSer := λ s, Ok s.

Section Protobuf.
Context {M : Type} `{!ProtobufMessage M}.

#[global] Instance ProtobufSer_serialiser : Serialiser ProtobufSer M := {
  s_ser_id := λ _, serialisation_ids.PBUF;
  s_size_hint := λ _, None;
  s_serialise := λ _ v, match write_to v with Some bs => Ok bs | None => Err ThirdParty end;
  s_try_clone_data := λ _ _, None;
}.

(** [ProtobufDeser]: a message to write into, and a buffer that may consist of
    several chunks. *)
Record ProtobufDeser := mkProtobufDeser { pd_msg : M; pd_buf : list (list byte) }.

Definition pd_ser_id (_ : ProtobufDeser) : SerId := serialisation_ids.PBUF.

Definition buf_chunk (chunks : list (list byte)) : list byte := default [] (head (filter (λ c, c ≠ []) chunks)).

Definition get_deserialised (d : ProtobufDeser) : res SerError M :=
  let remaining := length (mjoin (pd_buf d)) in
  let pr :=
    if decide (length (buf_chunk (pd_buf d)) < remaining) then merge_from_bytes (pd_msg d) (mjoin (pd_buf d))
    else merge_from_bytes (pd_msg d) (buf_chunk (pd_buf d)) in
  match pr with Some m => Ok m | None => Err ThirdParty end.
End Protobuf.
Arguments ProtobufDeser M : clear implicits.

(** ** The width of a serialisation id *)

(** The features [ser_id_64] (also the fallback), [ser_id_32], [ser_id_16], [ser_id_8]. *)
Inductive SerIdFeature := SerId64 | SerId32 | SerId16 | SerId8.

Section Widths.
Context {B : BytesApi}.

(** [SerIdSize::size], in bytes. *)
Definition ser_id_size (f : SerIdFeature) : nat :=
  match f with SerId64 => 8 | SerId32 => 4 | SerId16 => 2 | SerId8 => 1 end.

(** [put_u64] .. [put_u8]; an id of the configured type is in its range. *)
Definition put_ser_id_with (f : SerIdFeature) (id : SerId) : list byte :=
  match f with
  | SerId64 => put_uint 8 id | SerId32 => put_uint 4 id | SerId16 => put_uint 2 id | SerId8 => put_uint 1 id
  end.

Definition get_ser_id_with (f : SerIdFeature) (buf : list byte) : res SerError (SerId * list byte) :=
  match f with
  | SerId64 => get_int 8 buf | SerId32 => get_int 4 buf | SerId16 => get_int 2 buf | SerId8 => get_int 1 buf
  end.

(** Whatever the width, an id takes the bytes it says and is read back; without a
    feature this is the pair the rest of the system is written with. *)
Theorem ser_id_widths (f : SerIdFeature) (id : SerId) (rest : list byte) :
  (0 ≤ id < 256 ^ Z.of_nat (ser_id_size f))%Z →
  length (put_ser_id_with f id) = ser_id_size f
  ∧ get_ser_id_with f (put_ser_id_with f id ++ rest) = Ok (id, rest)
  ∧ put_ser_id_with SerId64 id = put_ser_id id ∧ get_ser_id_with SerId64 rest = get_ser_id rest.
Proof.
  intros Hid. split_and!; [| |done|done].
  - destruct f; cbn [put_ser_id_with ser_id_size]; rewrite put_uint_be; apply length_be_bytes.
  - destruct f; cbn [put_ser_id_with get_ser_id_with]; by apply get_int_put.
Qed.
End Widths.

(** ** What a one-off buffer holds *)

(** The three ways to serialise into a one-off buffer agree on a pair: the bytes of the
    serialiser under its id, from which the value is read back.  They need a size hint;
    without one nothing is serialised, so a protobuf message never is. *)
Theorem one_off_pair {T S} `{SerialiserCodec S T ok} (t : T) (s : S) (n : nat) :
  s_size_hint s = Some n → ok t →
  ∃ sd, serialised_from_pair (t, s) = Ok sd ∧ serialise_to_serialised (value_from_tuple (t, s)) = Ok sd
    ∧ serialised_from_dyn (box_from_tuple (t, s)) = Ok sd ∧ sd_ser_id sd = SER_ID T
    ∧ deserialise T (sd_data sd) = Ok (t, [])
    ∧ ∀ E, @just_serialise E (box_from_tuple (t, s)) [] = Ok (sd_data sd).
Proof.
  intros Hn Hok. destruct (sc_round_trip s t [] Hok) as (bs & Hbs & Hd). rewrite app_nil_r in Hd.
  exists (mkSerialisedData (s_ser_id s) bs).
  unfold serialised_from_pair, serialised_from_dyn, serialiser_to_serialised, serialise_to_serialised,
    just_serialise, boxed_serialise. cbn.
  rewrite Hn, Hbs. cbn. split_and!; try done. apply sc_id.
Qed.

Theorem protobuf_never_serialised {M} `{!ProtobufMessage M} (v : M) :
  serialised_from_pair (v, protobuf_ser) = Err Unknown
  ∧ serialise_to_serialised (value_from_tuple (v, protobuf_ser)) = Err Unknown
  ∧ value_cloned (value_from_tuple (v, protobuf_ser)) = None.
Proof. done. Qed.

(** ** Sending a pair *)
Section Sending.
Context {B : BytesApi} {U : UuidApi} {T S : Type} `{!Serialiser S T} `{!TryClone S} `{!Deserialiser T}.
Context (ok : T → Prop) `{!SerialiserCodec S T ok}.

(** A value as its serialiser writes it. *)
Definition through (s : S) : Serialisable T := {|
  ser_id := λ _, s_ser_id s; size_hint := λ _, s_size_hint s; serialise := s_serialise s |}.

Lemma through_codec (s : S) : @Codec T (through s) _ ok.
Proof using All.
  split; cbn.
  - intros _. apply (sc_id s).
  - apply sc_round_trip.
Qed.

Context (cuts : list byte → list (list byte)) (cuts_join : ∀ bs, mjoin (cuts bs) = bs).
Context (m : nat) (refs : Refs) (m_pos : 0 < m) (head_fits : FRAME_HEAD_LEN ≤ m).

(** What is sent as a pair of a value and a serialiser arrives as the bare value: the
    frame carries the serialiser's id, which is the one the deserialiser of the type is
    looked up by, and nothing else of the serialiser. *)
Theorem pair_arrives (src dst : ActorPath) (t : T) (s : S) (enc : BufferEncoder) :
  fresh_encoder m refs enc → path_fits src → path_fits dst → in_u 64 (s_ser_id s) → ok t →
  serialise_msg cuts refs src dst (value_from_tuple (t, s)) enc = Err NoBuffersAvailable
  ∨ ∃ enc' l body, serialise_msg cuts refs src dst (value_from_tuple (t, s)) enc = Ok (enc', l)
      ∧ wf_lease l ∧ lease_bytes l = head_bytes (mkHead FT_Data (length body)) ++ body
      ∧ (∀ r, wf_lease r → readable r = body → ∃ nm, deserialise_chunk_lease r = Ok nm ∧ arrives src dst t nm)
      ∧ (∃ nm, into_local (DSerialised (FrameLease l)) = Ok nm ∧ arrives src dst t nm).
Proof using All.
  intros Hf Hs Hd Hid Hok. destruct (sc_round_trip s t [] Hok) as (mb & Hmb & _).
  destruct (deserialise_head_spec src dst (s_ser_id s) mb Hs Hd Hid) as (sb & db & Hsb & Hdb & _).
  assert (serialise (value_from_tuple (t, s)) = Ok mb) as Hv by exact Hmb.
  destruct (serialise_msg_frame cuts cuts_join m refs m_pos head_fits src dst (value_from_tuple (t, s)) sb db mb enc
    Hf Hsb Hdb Hv) as [->|(enc' & l & -> & Hw & Hr & Hb)]; [by left|].
  right. exists enc', l, (message_body sb db (s_ser_id s) mb). pose proof (through_codec s) as Hc.
  split_and!; [done..| |].
  - intros r Hwr Hrr. by eapply (arrives_lease (H := through s) (ok := ok)).
  - by eapply (frame_lease_arrives (H := through s) (ok := ok)).
Qed.

(** A pair that can be cloned gives one that is written the same way, and the boxed
    pair is the pair. *)
Theorem value_cloned_same (t : T) (s : S) (v' : SerialisableValue T S) :
  value_cloned (value_from_tuple (t, s)) = Some v' →
  value_local v' = t ∧ ser_id v' = s_ser_id s
  ∧ boxed_serialise (box_from_tuple (sv_v v', sv_ser v')) = boxed_serialise (box_from_tuple (t, s)).
Proof using All.
  unfold value_cloned. cbn. destruct (try_clone s) as [s'| |] eqn:Hs; [|done..].
  intros (t' & Ht & ->)%fmap_Some_1. apply sc_clone_data in Ht as ->. cbn.
  split_and!; [done| |].
  - by rewrite (sc_id s'), (sc_id s).
  - unfold boxed_serialise. cbn. by apply sc_clone.
Qed.
End Sending.

(** ** Reading a protobuf message *)
Section Merging.
Context {M : Type} `{!ProtobufMessage M}.

Lemma buf_chunk_all (chunks : list (list byte)) :
  length (mjoin chunks) ≤ length (buf_chunk chunks) → buf_chunk chunks = mjoin chunks.
Proof.
  unfold buf_chunk. induction chunks as [|c chunks IH]; [done|].
  rewrite filter_cons. destruct c as [|b c]; [exact IH|]. rewrite decide_True by done.
  change (mjoin ((b :: c) :: chunks)) with ((b :: c) ++ mjoin chunks). unfold id. cbn [head default from_option].
  rewrite length_app. intros Hl. assert (length (mjoin chunks) = 0) as Hn by (cbn [length] in Hl; lia).
  by rewrite (nil_length_inv _ Hn), app_nil_r.
Qed.

(** However the received bytes are cut into chunks, what is merged is all of them;
    so a written message merged into a fresh one is the message. *)
Theorem get_deserialised_whole (m m0 : M) (chunks : list (list byte)) :
  get_deserialised (mkProtobufDeser m0 chunks)
  = match merge_from_bytes m0 (mjoin chunks) with Some m' => Ok m' | None => Err ThirdParty end
  ∧ (s_serialise protobuf_ser m = Ok (mjoin chunks) → get_deserialised (mkProtobufDeser fresh chunks) = Ok m).
Proof.
  assert (∀ m0, get_deserialised (mkProtobufDeser m0 chunks)
    = match merge_from_bytes m0 (mjoin chunks) with Some m' => Ok m' | None => Err ThirdParty end) as Hall.
  { intros m1. unfold get_deserialised. cbn [pd_buf pd_msg]. case_decide as Hl; [done|].
    rewrite buf_chunk_all by lia. done. }
  split; [done|]. rewrite Hall. cbn. destruct (write_to m) as [bs|] eqn:Hw; [|done].
  intros [= ->]. by rewrite (merge_written _ _ Hw).
Qed.
End Merging.

(** ** Examples *)
Section Examples.
Context {B : BytesApi}.

(** Strings with a serialiser of their own. *)
Inductive StrSer := str_ser.
#[local] Instance StrSer_try_clone : TryClone StrSer := λ s, Ok s.
#[local] Instance StrSer_serialiser : Serialiser StrSer string := {
  s_ser_id := λ _, serialisation_ids.STR;
  s_size_hint := λ _, Some 64;
  s_serialise := λ _ t, serialise t;
  s_try_clone_data := λ _ t, Some t;
}.
#[local] Instance StrSer_codec : SerialiserCodec StrSer string ok_string.
Proof.
  split.
  - done.
  - intros s t rest. apply (codec_round_trip (ok := ok_string)).
  - by intros [] [].
  - by intros s t t' [= ->].
Qed.

Example pair_sent : ok_string "hi" ∧ ∃ sd, serialised_from_pair ("hi"%string, str_ser) = Ok sd
  ∧ deserialise string (sd_data sd) = Ok ("hi"%string, []).
Proof.
  assert (ok_string "hi") as Hok by (vm_compute; repeat split; congruence). split; [done|].
  pose proof (one_off_pair (ok := ok_string) "hi"%string str_ser 64) as Hp.
  destruct (Hp eq_refl Hok) as (sd & H & _ & _ & _ & Hd & _).
  by exists sd.
Qed.

(** A message that is a sequence of bytes, merged by appending, as the fields of a
    protobuf message that are repeated are. *)
#[local] Instance bytes_message : ProtobufMessage (list byte) := {
  write_to := Some; merge_from_bytes := λ m bs, Some (m ++ bs); fresh := [];
  merge_written := λ m bs H, eq_sym H;
}.

Example protobuf_read : get_deserialised (mkProtobufDeser [] [[]; [1; 2]; [3]]%Z) = Ok [1; 2; 3]%Z
  ∧ get_deserialised (mkProtobufDeser [9]%Z [[]; [1; 2]; [3]]%Z) = Ok [9; 1; 2; 3]%Z.
Proof. done. Qed.
End Examples.
