(* ===== verification/MatchDeser.v ===== *)
(** * Matching on the type of a message

    Model of [match_deser!] ([core/src/messaging/deser_macro.rs]): the rules that sort
    the items of a block into arms for messages, for errors and for all else, and the
    match expression they expand to.  An item is what the list rules have cut out of
    the tokens; patterns and bodies are functions, a target type with its deserialiser is
    an instance of [Deserialiser].  A panic in a body is [Panic]. *)

From S2P Require Import Prelude Extern Paths Serialisation Framing ChunkLease Frames Messages.

Section match_deser.
Context {U : UuidApi} {Out : Type}.

(** What a body comes to. *)
Definition Body : Type := res Empty_set Out.

(** The error a body is given; the type of what could not be unpacked is forgotten. *)
Definition ErrBody : Type := UnpackError NetMessage → Body.

(** [msg(pat): T [using D] => body]. *)
Record Arm := mkArm {
  arm_type : Type;
  arm_deser : Deserialiser arm_type;
  arm_body : arm_type → Body;
}.
Definition arm_id (a : Arm) : SerId := SER_ID (Deserialiser := arm_deser a) (arm_type a).

Inductive Item :=
| IMsg (arm : Arm)
| IMsgUntyped                       (** a [msg] without a target type *)
| IErr (body : ErrBody)
| IDefault (wild : bool) (body : () → Body) (** [wild]: the pattern is [_] *)
| IOther (name : string).           (** any other case *)

Inductive CompileError := EmptyBlock | MustSpecifyType | OnlyOneErr | OnlyOneDefault | IllegalCase (name : string).

(** What is expanded to: the arguments of the [@init] rule. *)
Record Expansion := mkExpansion { msgs : list Arm; on_err : ErrBody; on_default : () → Body }.

(** The injected handlers panic. *)
Definition injected_err : ErrBody := λ _, Panic.
Definition injected_default : () → Body := λ _, Panic.

(** The [@case] rules. *)
Fixpoint case_rules (items : list Item) (arms : list Arm) (error : option ErrBody)
    (default : option (() → Body)) : Expansion + CompileError :=
  match items with
  | [] => inl (mkExpansion arms (from_option id injected_err error) (from_option id injected_default default))
  | IMsg a :: tail => case_rules tail (arms ++ [a]) error default
  | IErr b :: tail =>
      match error with
      | None => case_rules tail arms (Some b) default
      | Some _ => inr OnlyOneErr
      end
  | IDefault true b :: tail =>
      match default with
      | None => case_rules tail arms error (Some b)
      | Some _ => inr OnlyOneDefault
      end
  | IMsgUntyped :: _ => inr MustSpecifyType
  | IDefault false _ :: _ => inr (IllegalCase "default")
  | IOther name :: _ => inr (IllegalCase name)
  end.

(** [match_deser_internal!] on a block. *)
Definition match_deser_internal (items : list Item) : Expansion + CompileError :=
  match items with [] => inr EmptyBlock | _ => case_rules items [] None None end.

(** The match expression of the [@init] rule. *)
Fixpoint match_ser_id (unbox : ∀ T, BoxedSer → res (UnpackError NetData) T) (e : Expansion)
    (arms : list Arm) (msg : NetMessage) : Body :=
  match arms with
  | [] => on_default e ()
  | a :: arms =>
      if decide (nd_ser_id (nm_data msg) = arm_id a) then
        match try_deserialise_unchecked (Deserialiser0 := arm_deser a) (unbox (arm_type a)) msg with
        | Ok v => arm_body a v
        | Err err => on_err e err
        | Panic => Panic
        end
      else match_ser_id unbox e arms msg
  end.

Definition match_deser (unbox : ∀ T, BoxedSer → res (UnpackError NetData) T) (items : list Item) (msg : NetMessage)
    : Body + CompileError :=
  match match_deser_internal items with
  | inl e => inl (match_ser_id unbox e (msgs e) msg)
  | inr err => inr err
  end.

(** ** Which blocks compile *)
Definition arms_of (items : list Item) : list Arm := omap (λ i, match i with IMsg a => Some a | _ => None end) items.
Definition errs_of (items : list Item) : list ErrBody := omap (λ i, match i with IErr b => Some b | _ => None end) items.
Definition defaults_of (items : list Item) : list (() → Body) :=
  omap (λ i, match i with IDefault true b => Some b | _ => None end) items.

Definition legal (i : Item) : Prop :=
  match i with IMsg _ | IErr _ | IDefault true _ => True | _ => False end.

(** A block is legal: its items are, and there is at most one for errors and one for
    all else, wherever they stand. *)
Definition block_ok (items : list Item) : Prop :=
  items ≠ [] ∧ Forall legal items ∧ length (errs_of items) ≤ 1 ∧ length (defaults_of items) ≤ 1.

Definition expansion_of (items : list Item) : Expansion :=
  mkExpansion (arms_of items) (from_option id injected_err (head (errs_of items)))
    (from_option id injected_default (head (defaults_of items))).

Definition opt_list {A} (o : option A) : list A := from_option (λ a, [a]) [] o.

Lemma case_rules_spec items arms error default e :
  case_rules items arms error default = inl e ↔
  Forall legal items ∧ length (opt_list error ++ errs_of items) ≤ 1
  ∧ length (opt_list default ++ defaults_of items) ≤ 1
  ∧ e = mkExpansion (arms ++ arms_of items)
          (from_option id injected_err (head (opt_list error ++ errs_of items)))
          (from_option id injected_default (head (opt_list default ++ defaults_of items))).
Proof.
  revert arms error default. induction items as [|i items IH]; intros arms error default.
  - cbn. rewrite !app_nil_r.
    assert (∀ A (o : option A), length (opt_list o) ≤ 1 ∧ head (opt_list o) = o) as Ho
      by (intros A []; cbn; split; done || lia).
    destruct (Ho _ error) as [? ->], (Ho _ default) as [? ->].
    split; [intros [= <-]|by intros (_ & _ & _ & ->)]. split; [constructor|]. done.
  - rewrite Forall_cons. destruct i as [a| |b|[] b|name]; cbn [case_rules legal].
    + rewrite IH. cbn. rewrite <-app_assoc. cbn. tauto.
    + split; [done|]. by intros [[] _].
    + destruct error; cbn [opt_list from_option]; [|rewrite IH; cbn; tauto].
      split; [done|]. intros (_ & Hl & _). cbn in Hl. lia.
    + destruct default; cbn [opt_list from_option]; [|rewrite IH; cbn; tauto].
      split; [done|]. intros (_ & _ & Hl & _). cbn in Hl. lia.
    + split; [done|]. by intros [[] _].
    + split; [done|]. by intros [[] _].
Qed.

Lemma match_deser_internal_spec items e :
  match_deser_internal items = inl e ↔ block_ok items ∧ e = expansion_of items.
Proof.
  unfold match_deser_internal, block_ok. destruct items as [|i items].
  { split; [done|]. by intros [[? _] _]. }
  rewrite case_rules_spec. unfold expansion_of. cbn [opt_list from_option app]. naive_solver.
Qed.

(** ** Which arm runs *)
Context (unbox : ∀ T, BoxedSer → res (UnpackError NetData) T).

Lemma match_ser_id_arm e pre a post msg :
  Forall (λ b, arm_id b ≠ arm_id a) pre → nd_ser_id (nm_data msg) = arm_id a →
  match_ser_id unbox e (pre ++ a :: post) msg =
    match try_deserialise_unchecked (Deserialiser0 := arm_deser a) (unbox (arm_type a)) msg with
    | Ok v => arm_body a v
    | Err err => on_err e err
    | Panic => Panic
    end.
Proof.
  intros Hpre Hid. induction Hpre as [|b pre Hb _ IH]; cbn; [by rewrite decide_True|].
  rewrite decide_False by congruence. exact IH.
Qed.

Lemma match_ser_id_default e arms msg :
  Forall (λ b, arm_id b ≠ nd_ser_id (nm_data msg)) arms → match_ser_id unbox e arms msg = on_default e ().
Proof. induction 1 as [|b arms Hb _ IH]; cbn; [done|]. by rewrite decide_False by congruence. Qed.

Lemma match_deser_ok items msg :
  block_ok items →
  match_deser unbox items msg = inl (match_ser_id unbox (expansion_of items) (arms_of items) msg).
Proof.
  intros Hok. unfold match_deser.
  by rewrite (proj2 (match_deser_internal_spec items (expansion_of items)) (conj Hok eq_refl)).
Qed.

(** C36: A [match_deser!] block compiles exactly when its items are legal with at most one
    for errors and one for all else, wherever they stand.  A message that carries a
    value runs the first arm for its serialisation id with that value; when the bytes
    cannot be read the error item runs (or panics when there is none), and when no arm has
    the id the default item does. *)
Theorem match_deser_dispatches (items : list Item) (msg : NetMessage) :
  ((∃ r, match_deser unbox items msg = inl r) ↔ block_ok items) ∧
  (block_ok items →
   (∀ T (D : Deserialiser T) body pre post src dst (v : T),
      arms_of items = pre ++ mkArm T D body :: post → Forall (λ a, arm_id a ≠ SER_ID T) pre →
      arrives src dst v msg → match_deser unbox items msg = inl (body v)) ∧
   (∀ a pre post err,
      arms_of items = pre ++ a :: post → Forall (λ b, arm_id b ≠ arm_id a) pre →
      nd_ser_id (nm_data msg) = arm_id a →
      try_deserialise_unchecked (Deserialiser0 := arm_deser a) (unbox (arm_type a)) msg = Err err →
      match_deser unbox items msg = inl (from_option id injected_err (head (errs_of items)) err)) ∧
   (Forall (λ a, arm_id a ≠ nd_ser_id (nm_data msg)) (arms_of items) →
      match_deser unbox items msg = inl (from_option id injected_default (head (defaults_of items)) ()))).
Proof.
  split; [split|].
  - unfold match_deser. destruct (match_deser_internal items) as [e|err] eqn:He; [|by intros [r ?]].
    intros _. by apply match_deser_internal_spec in He as [? _].
  - intros Hok. rewrite match_deser_ok by done. by eexists.
  - intros Hok. rewrite match_deser_ok by done. split_and!.
    + intros T D body pre post src dst v Harms Hpre (_ & _ & _ & Hdes). f_equal.
      specialize (Hdes (unbox T)). unfold try_deserialise in Hdes. case_decide as Hid; [|done].
      rewrite Harms, match_ser_id_arm by done. simpl. by rewrite Hdes.
    + intros a pre post err Harms Hpre Hid Hdes. f_equal.
      rewrite Harms, match_ser_id_arm by done. by rewrite Hdes.
    + intros Hno. f_equal. by rewrite match_ser_id_default.
Qed.
End match_deser.

(** A block whose error item comes first, on a message with a number. *)
Definition example_path : ActorPath (U := uuid128_api) := Named (MkNamedPath example_system ["a"]).
Definition example_items : list (Item (U := uuid128_api) (Out := Z)) :=
  [IErr (λ _, Ok 0%Z); IMsg (mkArm string (String_deserialiser (B := be_bytes_api)) (λ _, Ok 1%Z));
   IMsg (mkArm Z (u64_deserialiser (B := be_bytes_api)) (λ v, Ok (v + 1)%Z))].
Definition example_msg : NetMessage (U := uuid128_api) :=
  with_bytes serialisation_ids.U64 example_path example_path (be_bytes 8 41).

Lemma match_deser_dispatches_witness :
  match_deser (λ _ _, Panic) example_items example_msg = inl (Ok 42%Z).
Proof.
  apply (proj2 (match_deser_dispatches (λ _ _, Panic) example_items example_msg)) with
    (T := Z) (D := u64_deserialiser (B := be_bytes_api)) (body := λ v, Ok (v + 1)%Z)
    (pre := [mkArm string (String_deserialiser (B := be_bytes_api)) (λ _, Ok 1%Z)]) (post := [])
    (src := example_path) (dst := example_path) (v := 41%Z).
  - split; [discriminate|]. split; [by repeat constructor|]. split; cbn; lia.
  - reflexivity.
  - repeat constructor. discriminate.
  - split; [reflexivity|]. split; [reflexivity|]. split; [reflexivity|]. intros unbox. reflexivity.
Defined.
