(* ===== verification/Timers.v ===== *)
(** * The timer manager of a component

    Model of [TimerManager] ([core/src/timer/timer_manager.rs]).  The timer wheel
    is a crate of its own: the calls made to it are recorded, and the timeouts it
    delivers are pushed to the queue of the manager.  The identifiers drawn by
    [Uuid::new_v4] are arguments, as their 128-bit numbers; actions are opaque. *)

From S2P Require Import Prelude.

Section Timers.
Context {A : Type}.

Inductive TimerHandle := OneShot (action : A) | Periodic (action : A).

Inductive WheelCall :=
| ScheduleOnce (id : Z) (timeout : Z)
| SchedulePeriodic (id : Z) (delay period : Z)
| Cancel (id : Z).

Record TimerManager := mkTimers {
  timer : list WheelCall;       (** calls to the wheel, oldest first *)
  timer_queue : list Z;
  handles : gmap Z TimerHandle;
}.

Inductive ExecuteAction := ANone | APeriodic (id : Z) (action : A) | AOnce (id : Z) (action : A).

Definition new_timers : TimerManager := mkTimers [] [] ∅.

Definition try_action (t : TimerManager) : TimerManager * ExecuteAction :=
  match timer_queue t with
  | timeout :: q =>
      let rest := delete timeout (handles t) in
      match handles t !! timeout with
      | Some (OneShot action) => (mkTimers (timer t) q rest, AOnce timeout action)
      | Some (Periodic action) =>
          (mkTimers (timer t) q (<[timeout := Periodic action]> rest), APeriodic timeout action)
      | None => (mkTimers (timer t) q rest, ANone)
      end
  | [] => (t, ANone)
  end.

Definition schedule_once (id timeout : Z) (action : A) (t : TimerManager) : TimerManager :=
  mkTimers (timer t ++ [ScheduleOnce id timeout]) (timer_queue t) (<[id := OneShot action]> (handles t)).

Definition schedule_periodic (id delay period : Z) (action : A) (t : TimerManager) : TimerManager :=
  mkTimers (timer t ++ [SchedulePeriodic id delay period]) (timer_queue t) (<[id := Periodic action]> (handles t)).

Definition cancel_timer (handle : Z) (t : TimerManager) : TimerManager :=
  mkTimers (timer t ++ [Cancel handle]) (timer_queue t) (delete handle (handles t)).

(** The destructor; the order of the map is unspecified. *)
Definition drop_timers (t : TimerManager) : list WheelCall :=
  timer t ++ (Cancel ∘ fst <$> map_to_list (handles t)).

(** [q.push(timeout)] of [TimerActorRef::enqueue]. *)
Definition push_timeout (id : Z) (t : TimerManager) : TimerManager :=
  mkTimers (timer t) (timer_queue t ++ [id]) (handles t).

(** ** Histories *)

(** Everything that can happen to a manager, in any order. *)
Inductive TimerOp :=
| OpOnce (id timeout : Z) (action : A)
| OpPeriodic (id delay period : Z) (action : A)
| OpCancel (id : Z)
| OpTimeout (id : Z)
| OpTry.

(** What an observer sees. *)
Inductive Entry := Scheduled (id : Z) (h : TimerHandle) | Cancelled (id : Z) | Ran (id : Z) (action : A).

Definition op_step (op : TimerOp) (t : TimerManager) : TimerManager * list Entry :=
  match op with
  | OpOnce id timeout a => (schedule_once id timeout a t, [Scheduled id (OneShot a)])
  | OpPeriodic id delay period a => (schedule_periodic id delay period a t, [Scheduled id (Periodic a)])
  | OpCancel id => (cancel_timer id t, [Cancelled id])
  | OpTimeout id => (push_timeout id t, [])
  | OpTry =>
      let '(t, r) := try_action t in
      (t, match r with ANone => [] | APeriodic id a | AOnce id a => [Ran id a] end)
  end.

Fixpoint op_run (ops : list TimerOp) (t : TimerManager) : TimerManager * list Entry :=
  match ops with
  | [] => (t, [])
  | op :: ops => let '(t, l) := op_step op t in let '(t, l') := op_run ops t in (t, l ++ l')
  end.

(** The handle a timer has after a history: scheduled, not cancelled since, and
    not used up. *)
Definition live_step (id : Z) (h : option TimerHandle) (e : Entry) : option TimerHandle :=
  match e with
  | Scheduled i h' => if decide (i = id) then Some h' else h
  | Cancelled i => if decide (i = id) then None else h
  | Ran i _ => if decide (i = id) then match h with Some (OneShot _) => None | _ => h end else h
  end.

Definition live_from (h : option TimerHandle) (log : list Entry) (id : Z) : option TimerHandle :=
  foldl (live_step id) h log.
Definition live (log : list Entry) (id : Z) : option TimerHandle := live_from None log id.

Definition handle_action (h : TimerHandle) : A := match h with OneShot a | Periodic a => a end.

(** Every action in the log belongs to a timer that is live at that point. *)
Definition only_live (log : list Entry) : Prop :=
  ∀ l1 id a l2, log = l1 ++ Ran id a :: l2 → ∃ h, live l1 id = Some h ∧ handle_action h = a.

Lemma live_app l1 l2 id : live (l1 ++ l2) id = live_from (live l1 id) l2 id.
Proof. unfold live, live_from. apply foldl_app. Qed.

Lemma only_live_snoc log e : only_live log →
  match e with Ran id a => ∃ h, live log id = Some h ∧ handle_action h = a | _ => True end →
  only_live (log ++ [e]).
Proof.
  intros Hl He l1 id a l2 Heq. destruct l2 as [|x l2 _] using rev_ind.
  - apply app_inj_tail in Heq as [-> ->]. exact He.
  - rewrite app_comm_cons, app_assoc in Heq. apply app_inj_tail in Heq as [-> _]. by eapply Hl.
Qed.

(** The manager after a history knows exactly the live timers. *)
Definition timers_ok (t : TimerManager) (log : list Entry) : Prop :=
  (∀ id, handles t !! id = live log id) ∧ only_live log.

Lemma op_step_ok op t log t' l : timers_ok t log → op_step op t = (t', l) → timers_ok t' (log ++ l).
Proof.
  intros [Hh Hl] H. destruct op as [id d a|id d p a|id|id|]; cbn in H.
  1-3: injection H as <- <-; split; [intros i; rewrite live_app; cbn; case_decide; subst;
    rewrite ?lookup_insert_eq, ?lookup_delete_eq, ?lookup_insert_ne, ?lookup_delete_ne by done; auto
    |by apply only_live_snoc].
  - injection H as <- <-. rewrite app_nil_r. by split.
  - unfold try_action in H. destruct (timer_queue t) as [|k q]; [injection H as <- <-; by rewrite app_nil_r|].
    destruct (handles t !! k) as [[a|a]|] eqn:Hk; injection H as <- <-.
    + split; [|apply only_live_snoc; [done|]; exists (OneShot a); by rewrite <-Hh].
      intros i. rewrite live_app. cbn. rewrite <-Hh. case_decide; subst.
      * by rewrite lookup_delete_eq, Hk.
      * by rewrite lookup_delete_ne.
    + split; [|apply only_live_snoc; [done|]; exists (Periodic a); by rewrite <-Hh].
      intros i. rewrite live_app. cbn. rewrite <-Hh. case_decide; subst.
      * by rewrite lookup_insert_eq, Hk.
      * by rewrite lookup_insert_ne, lookup_delete_ne.
    + rewrite app_nil_r. split; [|done]. intros i. cbn. rewrite <-Hh. destruct (decide (k = i)) as [->|].
      * by rewrite lookup_delete_eq, Hk.
      * by rewrite lookup_delete_ne.
Qed.

Lemma op_run_ok ops t log t' l : timers_ok t log → op_run ops t = (t', l) → timers_ok t' (log ++ l).
Proof.
  revert t log t' l. induction ops as [|op ops IH]; intros t log t' l Hok H; cbn in H.
  - injection H as <- <-. by rewrite app_nil_r.
  - destruct (op_step op t) as [t1 l1] eqn:H1. destruct (op_run ops t1) as [t2 l2] eqn:H2.
    injection H as <- <-. rewrite app_assoc. eapply IH; [|done]. by eapply op_step_ok.
Qed.
End Timers.
Arguments TimerHandle A : clear implicits.
Arguments TimerManager A : clear implicits.
Arguments TimerOp A : clear implicits.

(** Timers: in every history of scheduling, cancelling, timeouts from the wheel
    and executions of a component, an action is run only for a timer that was
    scheduled, has not been cancelled since and, if it is a one-shot timer, has
    not run since; with its timeout first in the queue it is run with the
    scheduled action; and dropping the manager cancels exactly the timers that
    are still live. *)
Theorem timer_actions_live {A} (ops : list (TimerOp A)) (t : TimerManager A) (log : list (Entry (A:=A))) :
  op_run ops new_timers = (t, log) →
  only_live log
  ∧ (∀ id q h, timer_queue t = id :: q → live log id = Some h →
       (try_action t).2 = match h with OneShot a => AOnce id a | Periodic a => APeriodic id a end)
  ∧ ∃ cancels, drop_timers t = timer t ++ cancels
      ∧ ∀ id, Cancel id ∈ cancels ↔ is_Some (live log id).
Proof.
  intros H. destruct (op_run_ok ops new_timers [] t log) as [Hh Hl]; [|done|].
  { split; [intros id; apply lookup_empty|]. intros [|] ???; discriminate. }
  change ([] ++ log) with log in Hh, Hl. split_and!; [done| |].
  - intros id q h Hq Hi. unfold try_action. rewrite Hq, Hh, Hi. by destruct h.
  - eexists. split; [done|]. intros id. rewrite list_elem_of_fmap. rewrite <-(Hh id). split.
    + intros ([i h] & [= ->] & Hi%elem_of_map_to_list). by exists h.
    + intros [h Hi]. exists (id, h). split; [done|]. by apply elem_of_map_to_list.
Qed.

Lemma timer_actions_live_witness :
  only_live (op_run [OpOnce 1 10 true; OpTimeout 1; OpTry; OpTimeout 1; OpTry] new_timers).2.
Proof.
  destruct (timer_actions_live [OpOnce 1 10 true; OpTimeout 1; OpTry; OpTimeout 1; OpTry] _ _ eq_refl) as [H _].
  exact H.
Defined.
