(* ===== verification/Component.v ===== *)
(** * Executing a component

    Model of one execution of a component: [Component::execute] and
    [inner_execute] with the handling of results, faults, shutdown and blocking
    futures ([core/src/component/actual_component.rs]), and the part of the
    context that runs futures ([core/src/component/context.rs],
    [future_task.rs]).

    The component definition is user code: its handlers are a parameter
    ([Handlers]).  A handler changes the definition, has effects on the queues,
    timers and futures of its component, and returns a [HandlerResult] or
    panics.  Work that other threads enqueue while a handler runs is listed
    among its effects; the interleaving of producers with the rest of an
    execution is the subject of [Scheduling]. *)

From S2P Require Import Prelude Lifecycle Scheduling Timers.

(** ** Results *)
Inductive HandlerError (F : Type) :=
| Benign (fault : F) | Recoverable (fault : F) | Unrecoverable (fault : F).
Arguments Benign {F} fault.
Arguments Recoverable {F} fault.
Arguments Unrecoverable {F} fault.

Inductive Handled (Fut : Type) := HOk | BlockOn (future : Fut) | Shutdown.
Arguments HOk {Fut}.
Arguments BlockOn {Fut} future.
Arguments Shutdown {Fut}.

(** [Panic] is an unwinding panic of the handler. *)
Abbreviation HandlerResult F Fut := (res (HandlerError F) (Handled Fut)).

Inductive Poll_ (F Fut : Type) := Pending (future : Fut) | Ready (result : HandlerResult F Fut).
Arguments Pending {F Fut} future.
Arguments Ready {F Fut} result.

Record ExecuteResult (F Fut : Type) := mkExecuteResult {
  er_blocking : option Fut;     (** the future given to [set_blocking], with [blocking = true] *)
  er_shutdown : bool;
  er_error : option (HandlerError F);
  er_count : nat;
  er_skip : nat;
}.
Arguments mkExecuteResult {F Fut}.
Arguments er_blocking {F Fut}.
Arguments er_shutdown {F Fut}.
Arguments er_error {F Fut}.
Arguments er_count {F Fut}.
Arguments er_skip {F Fut}.

Inductive StateTransition := TActive | TStarted | TPassive | TDestroyed.

#[global] Instance StateTransition_eq_dec : EqDecision StateTransition.
Proof. solve_decision. Defined.

Inductive BlockingTaskResult (F Fut : Type) := BPending | BCompleted (result : HandlerResult F Fut).
Arguments BPending {F Fut}.
Arguments BCompleted {F Fut} result.

Inductive HandlerErrorOutcome := Continue | StopWith (decision : SchedulingDecision).

(** [FaultContext] without the payload of a panic, and the supervisor messages. *)
Inductive FaultKind (F : Type) := FaultPanic | FaultHandler (fault : F).
Arguments FaultPanic {F}.
Arguments FaultHandler {F} fault.

Inductive SupervisorMsg (F R : Type) :=
| SStarted | SStopped | SKilled | SFaulty (context : FaultKind F) (recovery : R).
Arguments SStarted {F R}.
Arguments SStopped {F R}.
Arguments SKilled {F R}.
Arguments SFaulty {F R} context recovery.

(** What happens to the component while a handler runs. *)
Inductive Effect (Msg Act Fut : Type) :=
| EControl (e : ControlEvent)
| EMessage (m : Msg)
| ETimeout (id : Z)
| EPort
| ESpawn (tag : Z) (future : Fut)
| EOnce (id timeout : Z) (action : Act)
| EPeriodic (id delay period : Z) (action : Act)
| ECancel (id : Z).
Arguments EControl {Msg Act Fut} e.
Arguments EMessage {Msg Act Fut} m.
Arguments ETimeout {Msg Act Fut} id.
Arguments EPort {Msg Act Fut}.
Arguments ESpawn {Msg Act Fut} tag future.
Arguments EOnce {Msg Act Fut} id timeout action.
Arguments EPeriodic {Msg Act Fut} id delay period action.
Arguments ECancel {Msg Act Fut} id.

Section Component.
Context {CD Msg Act Fut F R : Type}.
(** The action of [FaultContext::ignore]. *)
Context (ignore : R).

Definition call_result (A : Type) : Type := (CD * list (Effect Msg Act Fut) * A)%type.
Definition handler : Type := CD → call_result (HandlerResult F Fut).

(** [ComponentLifecycle], [ActorRaw::receive], timer actions,
    [ComponentDefinition::execute] (given the number of port events available)
    and polling a future, which has access to the definition. *)
Class Handlers := {
  on_start : handler;
  on_stop : handler;
  on_kill : handler;
  receive : Msg → handler;
  run_action : Act → Z → handler;
  execute_ports : nat → nat → nat → CD → call_result (res Empty_set (ExecuteResult F Fut));
  poll : Fut → CD → call_result (Poll_ F Fut);
}.

Record Comp := mkComp {
  c_word : Z;                                  (** [core.state] *)
  c_ctrl : list ControlEvent;
  c_msgs : list Msg;
  c_ports : nat;                               (** events in the port queues *)
  c_timers : TimerManager Act;
  c_def : CD;
  c_skip : nat;
  c_blocking : option (Fut * StateTransition); (** [blocking_future] *)
  c_futures : gmap Z Fut;                      (** [non_blocking_futures] *)
  (** [recovery_function]: [None] when its mutex is poisoned; the function may panic itself *)
  c_recovery : option (FaultKind F → option R);
  c_supervised : bool;
  c_sent : list (SupervisorMsg F R);           (** messages to the supervisor, oldest first *)
  c_schedules : nat;                           (** calls of [schedule] *)
  c_mutex_poisoned : bool;                     (** [mutable_core] *)
  c_system_poisoned : bool;
}.

Definition upd_word (f : Z → Z) (c : Comp) : Comp :=
  let '(mkComp w q ms p t d s b fs r sv sn sc mp sp) := c in mkComp (f w) q ms p t d s b fs r sv sn sc mp sp.
Definition upd_ctrl f (c : Comp) : Comp :=
  let '(mkComp w q ms p t d s b fs r sv sn sc mp sp) := c in mkComp w (f q) ms p t d s b fs r sv sn sc mp sp.
Definition upd_msgs f (c : Comp) : Comp :=
  let '(mkComp w q ms p t d s b fs r sv sn sc mp sp) := c in mkComp w q (f ms) p t d s b fs r sv sn sc mp sp.
Definition upd_ports f (c : Comp) : Comp :=
  let '(mkComp w q ms p t d s b fs r sv sn sc mp sp) := c in mkComp w q ms (f p) t d s b fs r sv sn sc mp sp.
Definition upd_timers f (c : Comp) : Comp :=
  let '(mkComp w q ms p t d s b fs r sv sn sc mp sp) := c in mkComp w q ms p (f t) d s b fs r sv sn sc mp sp.
Definition set_def d (c : Comp) : Comp :=
  let '(mkComp w q ms p t _ s b fs r sv sn sc mp sp) := c in mkComp w q ms p t d s b fs r sv sn sc mp sp.
Definition set_skip s (c : Comp) : Comp :=
  let '(mkComp w q ms p t d _ b fs r sv sn sc mp sp) := c in mkComp w q ms p t d s b fs r sv sn sc mp sp.
Definition set_blocking_future b (c : Comp) : Comp :=
  let '(mkComp w q ms p t d s _ fs r sv sn sc mp sp) := c in mkComp w q ms p t d s b fs r sv sn sc mp sp.
Definition upd_futures f (c : Comp) : Comp :=
  let '(mkComp w q ms p t d s b fs r sv sn sc mp sp) := c in mkComp w q ms p t d s b (f fs) r sv sn sc mp sp.
Definition set_recovery r (c : Comp) : Comp :=
  let '(mkComp w q ms p t d s b fs _ sv sn sc mp sp) := c in mkComp w q ms p t d s b fs r sv sn sc mp sp.
Definition send_supervisor m (c : Comp) : Comp :=
  let '(mkComp w q ms p t d s b fs r sv sn sc mp sp) := c in mkComp w q ms p t d s b fs r sv (sn ++ [m]) sc mp sp.
Definition count_schedule (c : Comp) : Comp :=
  let '(mkComp w q ms p t d s b fs r sv sn sc mp sp) := c in mkComp w q ms p t d s b fs r sv sn (S sc) mp sp.
Definition poison_mutex (c : Comp) : Comp :=
  let '(mkComp w q ms p t d s b fs r sv sn sc mp sp) := c in mkComp w q ms p t d s b fs r sv sn sc true sp.
Definition poison_system (c : Comp) : Comp :=
  let '(mkComp w q ms p t d s b fs r sv sn sc mp sp) := c in mkComp w q ms p t d s b fs r sv sn sc mp true.

(** ** Control flow

    An execution ends early with a decision, unwinds with a panic or aborts the
    process; [NoFuel] is a control queue that never empties. *)
Inductive Exit := Return (d : SchedulingDecision) | Unwind | Abort | NoFuel.

Definition M (A : Type) : Type := Comp → Comp * (Exit + A).

#[global] Instance m_ret : MRet M := λ A a c, (c, inr a).
#[global] Instance m_bind : MBind M := λ A B f m c,
  match m c with
  | (c, inr a) => f a c
  | (c, inl e) => (c, inl e)
  end.

Definition get : M Comp := λ c, (c, inr c).
Definition modify (f : Comp → Comp) : M () := λ c, (f c, inr ()).
Definition exit {A} (e : Exit) : M A := λ c, (c, inl e).
Definition when (b : bool) (m : M ()) : M () := if b then m else mret ().

(** An operation of [Lifecycle] on the word; its panics abort. *)
Definition on_word {A} (f : Z → res Empty_set (Z * A)) : M A := λ c,
  match f (c_word c) with
  | Ok (w, a) => (upd_word (λ _, w) c, inr a)
  | Err e => match e with end
  | Panic => (c, inl Abort)
  end.

Definition decrement (count : nat) : M SchedulingDecision := on_word (λ w, decrement_work w count).
Definition current_decision : M SchedulingDecision := on_word (λ w, d ← get_scheduling_decision w; Ok (w, d)).

(** The enqueueing functions: increment, push, schedule. *)
Definition enqueue (push : Comp → Comp) : M () :=
  sd ← on_word increment_work;
  _ ← modify push;
  when (bool_decide (sd = Schedule)) (modify count_schedule).

Definition perform (e : Effect Msg Act Fut) : M () :=
  match e with
  | EControl e => enqueue (upd_ctrl (λ q, q ++ [e]))
  | EMessage m => enqueue (upd_msgs (λ q, q ++ [m]))
  | ETimeout id => enqueue (upd_timers (push_timeout id))
  | EPort => enqueue (upd_ports S)
  | ESpawn tag fut =>
      _ ← enqueue (upd_ctrl (λ q, q ++ [Poll tag]));
      modify (upd_futures <[tag := fut]>)
  | EOnce id timeout a => modify (upd_timers (schedule_once id timeout a))
  | EPeriodic id delay period a => modify (upd_timers (schedule_periodic id delay period a))
  | ECancel id => modify (upd_timers (cancel_timer id))
  end.

Fixpoint perform_all (es : list (Effect Msg Act Fut)) : M () :=
  match es with [] => mret () | e :: es => _ ← perform e; perform_all es end.

(** Run user code on the definition. *)
Definition call {A} (f : CD → call_result A) : M A :=
  c ← get;
  let '(d, es, a) := f (c_def c) in
  _ ← modify (set_def d);
  _ ← perform_all es;
  mret a.

Definition unwinding {E A} (r : res E A) : M (res E A) := match r with Panic => exit Unwind | r => mret r end.
Definition call_handler (h : handler) : M (HandlerResult F Fut) := r ← call h; unwinding r.

(** ** Lifecycle transitions *)
Definition to_supervisor (m : SupervisorMsg F R) : M () := λ c,
  ((if c_supervised c then send_supervisor m c else c), inr ()).

Definition component_set_active : M () := modify (upd_word set_active).
Definition component_set_passive : M () := _ ← modify (upd_word set_passive); to_supervisor SStopped.
Definition component_set_destroyed : M () := _ ← modify (upd_word set_destroyed); to_supervisor SKilled.
Definition notify_started : M () := to_supervisor SStarted.

(** [default_recovery_function]. *)
Definition default_recovery_function : FaultKind F → option R := λ _, Some ignore.

(** [self.recovery_function] is exchanged with [default_recovery_function] and called with
    its mutex held: a panic of it poisons the mutex and goes on unwinding.  A mutex that is
    poisoned already is only logged. *)
Definition escalate (k : FaultKind F) : M () :=
  _ ← modify (upd_word set_faulty);
  c ← get;
  if c_supervised c then
    match c_recovery c with
    | Some recovery_function =>
        _ ← modify (set_recovery (Some default_recovery_function));
        match recovery_function k with
        | Some handler => to_supervisor (SFaulty k handler)
        | None => _ ← modify (set_recovery None); exit Unwind
        end
    | None => mret ()
    end
  else modify poison_system.

Definition handle_unrecoverable_error : M () :=
  c ← get;
  if c_supervised c then component_set_destroyed
  else
    _ ← modify (upd_word set_destroyed);
    modify poison_system.

Definition handle_handler_error (e : HandlerError F) : M HandlerErrorOutcome :=
  match e with
  | Benign _ => mret Continue
  | Recoverable fault => _ ← escalate (FaultHandler fault); mret (StopWith NoWork)
  | Unrecoverable _ => _ ← handle_unrecoverable_error; mret (StopWith NoWork)
  end.

(** ** Blocking futures *)
Context {H : Handlers}.

Definition set_blocking_with_state (future : Fut) (unblock_state : StateTransition) : M () :=
  c ← get;
  match c_blocking c with
  | Some _ => exit Unwind
  | None =>
      _ ← modify (set_blocking_future (Some (future, unblock_state)));
      modify (upd_word set_blocking)
  end.

Definition replace_blocking (future : Fut) (unblock_state : StateTransition) : M () :=
  c ← get;
  match c_blocking c with
  | Some _ => exit Unwind
  | None => modify (set_blocking_future (Some (future, unblock_state)))
  end.

(** What a completed future leaves the component in. *)
Definition unblock (t : StateTransition) : M () :=
  match t with
  | TActive => component_set_active
  | TStarted => _ ← component_set_active; notify_started
  | TPassive => component_set_passive
  | TDestroyed => component_set_destroyed
  end.

Definition is_shutdown (r : HandlerResult F Fut) : bool := match r with Ok Shutdown => true | _ => false end.

Definition run_blocking_task : M (BlockingTaskResult F Fut) :=
  c ← get;
  match c_blocking c with
  | None => exit Unwind
  | Some (future, unblock_state) =>
      _ ← modify (set_blocking_future None);
      p ← call (poll future);
      match p with
      | Pending f => _ ← replace_blocking f unblock_state; mret BPending
      | Ready (Ok (BlockOn f)) => _ ← replace_blocking f unblock_state; mret BPending
      | Ready Panic => exit Unwind
      | Ready r =>
          if bool_decide (unblock_state = TDestroyed) && is_shutdown r then
            _ ← component_set_destroyed;
            mret (BCompleted (Ok HOk))
          else
            _ ← match r with Ok HOk | Err (Benign _) => unblock unblock_state | _ => mret () end;
            mret (BCompleted r)
      end
  end.

Definition run_nonblocking_task (tag : Z) : M (HandlerResult F Fut) :=
  c ← get;
  match c_futures c !! tag with
  | Some future =>
      p ← call (poll future);
      match p with
      | Pending f => _ ← modify (upd_futures <[tag := f]>); mret (Ok HOk)
      | Ready Panic => exit Unwind
      | Ready handled => _ ← modify (upd_futures (delete tag)); mret handled
      end
  | None => mret (Ok HOk)
  end.

Definition handle_secondary_lifecycle_result (r : HandlerResult F Fut) : M () :=
  match r with
  | Ok HOk | Ok Shutdown | Err _ => mret ()
  | Ok (BlockOn _) | Panic => exit Unwind
  end.

Definition shutdown_from_handler : M SchedulingDecision :=
  _ ← modify (upd_word set_destroyed);
  r ← call_handler on_kill;
  _ ← handle_secondary_lifecycle_result r;
  _ ← component_set_destroyed;
  mret NoWork.

(** [return e]. *)
Definition return_ {A} (m : M SchedulingDecision) : M A := d ← m; exit (Return d).

(** The macro [run_blocking!]: every path returns. *)
Definition run_blocking {A} (count : nat) : M A :=
  run_res ← run_blocking_task;
  scheduling_decision ← decrement count;
  return_
    match run_res with
    | BPending => mret Blocked
    | BCompleted (Ok HOk) => mret (or_use NoWork scheduling_decision)
    | BCompleted (Ok (BlockOn f)) => _ ← set_blocking_with_state f TActive; mret Blocked
    | BCompleted (Ok Shutdown) => shutdown_from_handler
    | BCompleted (Err e) =>
        out ← handle_handler_error e;
        match out with
        | Continue => mret (or_use NoWork scheduling_decision)
        | StopWith d => mret d
        end
    | BCompleted Panic => exit Unwind
    end.

(** The macro [check_and_handle_blocking!]. *)
Definition check_and_handle_blocking (count : nat) (r : HandlerResult F Fut) : M () :=
  match r with
  | Ok HOk => mret ()
  | Ok (BlockOn f) => _ ← set_blocking_with_state f TActive; run_blocking count
  | Ok Shutdown => return_ shutdown_from_handler
  | Err e =>
      out ← handle_handler_error e;
      match out with Continue => mret () | StopWith d => exit (Return d) end
  | Panic => exit Unwind
  end.

(** ** One execution *)
Definition start_control (e : ControlEvent) : M (HandlerResult F Fut) :=
  match e with
  | Start => _ ← modify (upd_word set_active); call_handler on_start
  | Stop => _ ← modify (upd_word set_passive); call_handler on_stop
  | Kill => _ ← modify (upd_word set_destroyed); call_handler on_kill
  | Poll tag => run_nonblocking_task tag
  end.

Definition complete_control (e : ControlEvent) : M () :=
  match e with
  | Start => notify_started
  | Stop => component_set_passive
  | Kill => component_set_destroyed
  | Poll _ => mret ()
  end.

Definition control_transition (e : ControlEvent) : StateTransition :=
  match e with Start => TStarted | Stop => TPassive | Kill => TDestroyed | Poll _ => TActive end.

Definition handle_control (count : nat) (e : ControlEvent) (r : HandlerResult F Fut) : M () :=
  match r with
  | Ok HOk => complete_control e
  | Ok (BlockOn f) => _ ← set_blocking_with_state f (control_transition e); run_blocking count
  | Ok Shutdown =>
      match e with
      | Kill => _ ← component_set_destroyed; exit (Return NoWork)
      | _ => return_ shutdown_from_handler
      end
  | Err (Benign _) => complete_control e
  | Err err =>
      out ← handle_handler_error err;
      match out with Continue => mret () | StopWith d => exit (Return d) end
  | Panic => exit Unwind
  end.

Fixpoint control_loop (fuel : nat) (count : nat) : M nat :=
  match fuel with
  | O => exit NoFuel
  | S fuel =>
      c ← get;
      match c_ctrl c with
      | [] => mret count
      | e :: q =>
          _ ← modify (upd_ctrl (λ _, q));
          r ← start_control e;
          _ ← handle_control (S count) e r;
          control_loop fuel (S count)
      end
  end.

Definition next_timer : M ExecuteAction := λ c,
  let '(t, a) := try_action (c_timers c) in (upd_timers (λ _, t) c, inr a).

(** [while count < max]: [rem] is what [count] lacks. *)
Fixpoint timer_loop (rem count : nat) : M nat :=
  match rem with
  | O => mret count
  | S rem =>
      a ← next_timer;
      match a with
      | ANone => mret count
      | AOnce id action | APeriodic id action =>
          r ← call_handler (run_action action id);
          _ ← check_and_handle_blocking (S count) r;
          timer_loop rem (S count)
      end
  end.

Fixpoint message_loop (rem count : nat) : M nat :=
  match rem with
  | O => mret count
  | S rem =>
      c ← get;
      match c_msgs c with
      | [] => mret count
      | env :: q =>
          _ ← modify (upd_msgs (λ _, q));
          r ← call_handler (receive env);
          _ ← check_and_handle_blocking (S count) r;
          message_loop rem (S count)
      end
  end.

(** [guard.definition.execute(rem_events, skip)]: the events handled leave their queues. *)
Definition run_ports (rem_events : nat) : M (ExecuteResult F Fut) :=
  c ← get;
  r ← call (execute_ports rem_events (c_skip c) (c_ports c));
  match r with
  | Ok r =>
      _ ← modify (upd_ports (λ p, p - er_count r));
      _ ← match er_blocking r with Some f => set_blocking_with_state f TActive | None => mret () end;
      _ ← modify (set_skip (er_skip r));
      mret r
  | Err e => match (e : Empty_set) with end
  | Panic => exit Unwind
  end.

Definition port_phase (max_events count : nat) : M nat :=
  let rem_events := max_events - count in
  if decide (0 < rem_events) then
    res ← run_ports rem_events;
    let count := count + er_count res in
    if er_shutdown res then return_ shutdown_from_handler
    else
      _ ← match er_error res with
          | Some e =>
              out ← handle_handler_error e;
              match out with Continue => mret () | StopWith d => exit (Return d) end
          | None => mret ()
          end;
      _ ← match er_blocking res with Some _ => run_blocking count | None => mret () end;
      message_loop (max_events - count) count
  else mret count.

Definition resume_blocked : M SchedulingDecision :=
  r ← run_blocking_task;
  match r with
  | BPending => mret Blocked
  | BCompleted (Ok HOk) => d ← current_decision; mret (or_from NoWork (λ _, d))
  | BCompleted (Ok (BlockOn f)) => _ ← set_blocking_with_state f TActive; mret Blocked
  | BCompleted (Ok Shutdown) => shutdown_from_handler
  | BCompleted (Err e) =>
      out ← handle_handler_error e;
      match out with
      | Continue => d ← current_decision; mret (or_from NoWork (λ _, d))
      | StopWith d => mret d
      end
  | BCompleted Panic => exit Unwind
  end.

Definition inner_execute (fuel max_events max_messages : nat) : M SchedulingDecision :=
  c ← get;
  if c_mutex_poisoned c then exit Unwind
  else match c_blocking c with
  | Some _ => resume_blocked
  | None =>
      count ← control_loop fuel 0;
      c ← get;
      if negb (is_active (c_word c)) then decrement count
      else
        count ← timer_loop (max_events - count) count;
        count ← message_loop (max_messages - count) count;
        count ← port_phase max_events count;
        decrement count
  end.

(** The outcome of [execute]: a decision, a panic that leaves it (of the recovery function
    for a panic, which nothing catches), or no return. *)
Inductive Outcome := Decision (d : SchedulingDecision) | Unwound | Aborted | Runs_on.

Definition execute (fuel max_events max_messages : nat) (c : Comp) : Comp * Outcome :=
  match from_current (E := Empty_set) (c_word c) with
  | Ok Destroyed | Ok Faulty => (c, Decision NoWork)
  | Ok _ =>
      match inner_execute fuel max_events max_messages c with
      | (c, inr d) | (c, inl (Return d)) => (c, Decision d)
      | (c, inl Unwind) =>
          match (_ ← modify poison_mutex; escalate FaultPanic) c with
          | (c, inr _) => (c, Decision NoWork)
          | (c, inl Unwind) => (c, Unwound)
          | (c, inl _) => (c, Aborted)
          end
      | (c, inl Abort) => (c, Aborted)
      | (c, inl NoFuel) => (c, Runs_on)
      end
  | Err e => match (e : Empty_set) with end
  | Panic => (c, Aborted)
  end.

(** ** Accounting invariant *)

(** Units of work in the queues. *)
Definition c_queued (c : Comp) : nat :=
  length (c_ctrl c) + length (c_msgs c) + c_ports c + length (timer_queue (c_timers c)).

Definition no_timeout (es : list (Effect Msg Act Fut)) : Prop :=
  Forall (λ e, match e with ETimeout _ => False | _ => True end) es.

(** [timeouts = false] describes a component that receives no timeouts. *)
Context (timeouts : bool).

Definition call_ok {A} (f : CD → call_result A) : Prop := timeouts = true ∨ ∀ d, no_timeout (f d).1.2.

(** Events that arrive at the ports while a handler runs. *)
Definition port_arrivals (es : list (Effect Msg Act Fut)) : nat :=
  foldr (λ e n, match e with EPort => S n | _ => n end) 0 es.

(** What the handlers owe: [ComponentDefinition::execute] handles at most as many
    events as it is allowed to and as there are, those that arrive meanwhile included. *)
Definition handlers_ok : Prop :=
  call_ok on_start ∧ call_ok on_stop ∧ call_ok on_kill ∧ (∀ m, call_ok (receive m))
  ∧ (∀ a i, call_ok (run_action a i)) ∧ (∀ f, call_ok (poll f))
  ∧ (∀ n s p, call_ok (execute_ports n s p))
  ∧ (∀ n s p d r, (execute_ports n s p d).2 = Ok r →
       er_count r ≤ n ∧ er_count r ≤ p + port_arrivals (execute_ports n s p d).1.2).

(** The word has flag [f] and counts the queued work, the [k] units taken in this
    execution, and at least [e] units besides; [e] units exactly without
    timeouts. *)
Definition counted (f : Flag) (k e : nat) (c : Comp) : Prop :=
  ∃ x, c_word c = word f (c_queued c + k + x) ∧ c_queued c + k + x ≤ MAX_WORK ∧ e ≤ x
    ∧ (timeouts = false → x = e ∧ timer_queue (c_timers c) = []).

Definition inv (f : Flag) (b : option (Fut * StateTransition)) (k e : nat) (c : Comp) : Prop :=
  c_blocking c = b ∧ counted f k e c.

Definition valid_word (c : Comp) : Prop := ∃ f n, c_word c = word f n ∧ n ≤ MAX_WORK.

Definition terminal (f : Flag) : Prop := f = FDestroyed ∨ f = FFaulty.

(** What a finished execution leaves behind, and its decision. *)
Definition post (e : nat) (d : SchedulingDecision) (c : Comp) : Prop :=
  (∃ f n, terminal f ∧ c_word c = word f n ∧ n ≤ MAX_WORK)
  ∨ (∃ f, (f = FActive ∨ f = FPassive) ∧ inv f None 0 e c
      ∧ (d = NoWork ∧ (∃ f', c_word c = word f' 0) ∨ d = Schedule ∨ d = Resume))
  ∨ (∃ b, b ≠ None ∧ inv FBlocking b 0 e c ∧ d = Blocked).

Definition exits (e : nat) (x : Exit) (c : Comp) : Prop :=
  match x with
  | Return d => post e d c
  | Unwind => valid_word c
  | Abort => ∃ f, c_word c = word f MAX_WORK
  | NoFuel => True
  end.

(** [m] from [P] ends in [Q], or exits as [exits e] says. *)
Definition hoare {A} (e : nat) (P : Comp → Prop) (m : M A) (Q : A → Comp → Prop) : Prop :=
  ∀ c, P c → match m c with (c, inr a) => Q a c | (c, inl x) => exits e x c end.

Lemma hoare_bind {A B} e P (m : M A) (f : A → M B) Q Q' :
  hoare e P m Q → (∀ a, hoare e (Q a) (f a) Q') → hoare e P (m ≫= f) Q'.
Proof.
  intros Hm Hf c Hc. specialize (Hm c Hc). unfold mbind, m_bind.
  destruct (m c) as [c' [x|a]]; [done|]. by apply Hf.
Qed.

Lemma hoare_ret {A} e (P : Comp → Prop) (a : A) (Q : A → Comp → Prop) :
  (∀ c, P c → Q a c) → hoare e P (mret a) Q.
Proof. intros H' c Hc. by apply H'. Qed.

Lemma hoare_exit {A} e (P : Comp → Prop) x (Q : A → Comp → Prop) :
  (∀ c, P c → exits e x c) → hoare e P (exit x) Q.
Proof. intros H' c Hc. by apply H'. Qed.

Lemma hoare_modify e (P : Comp → Prop) f (Q : () → Comp → Prop) :
  (∀ c, P c → Q () (f c)) → hoare e P (modify f) Q.
Proof. intros H' c Hc. by apply H'. Qed.

Lemma hoare_get {A} e P (f : Comp → M A) Q :
  (∀ c0, P c0 → hoare e (λ c, c = c0) (f c0) Q) → hoare e P (get ≫= f) Q.
Proof. intros H' c Hc. exact (H' c Hc c eq_refl). Qed.

Lemma hoare_weaken {A} e (P P' : Comp → Prop) (m : M A) (Q Q' : A → Comp → Prop) :
  hoare e P' m Q' → (∀ c, P c → P' c) → (∀ a c, Q' a c → Q a c) → hoare e P m Q.
Proof.
  intros Hm HP HQ c Hc. specialize (Hm c (HP c Hc)). destruct (m c) as [c' [x|a]]; [done|]. by apply HQ.
Qed.

Lemma hoare_pre {A} e (P' P : Comp → Prop) (m : M A) (Q : A → Comp → Prop) :
  (∀ c, P c → P' c) → hoare e P' m Q → hoare e P m Q.
Proof. intros HP Hm. by eapply hoare_weaken. Qed.

(** *** Steps on the word and the queues *)
Lemma inv_valid f b k e c : inv f b k e c → valid_word c.
Proof. intros (_ & x & Hw & Hm & _). by eexists _, _. Qed.

(** A change that leaves queues, word and blocking future alone. *)
Definition same_books (c c' : Comp) : Prop :=
  c_word c' = c_word c ∧ c_queued c' = c_queued c ∧ timer_queue (c_timers c') = timer_queue (c_timers c).

Lemma inv_frame f b b' k e c c' : same_books c c' → c_blocking c' = b' → inv f b k e c → inv f b' k e c'.
Proof.
  intros (Hw & Hq & Ht) Hb' (_ & x & Hx). split; [done|]. exists x. by rewrite Hw, Hq, Ht.
Qed.

Lemma inv_flag f f' b k e c : inv f b k e c → inv f' b k e (upd_word (set_state (flag_bits f')) c).
Proof.
  intros (Hb & x & Hw & Hm & Hx). destruct c. cbn in *. split; [done|]. exists x.
  cbn in *. rewrite Hw, set_state_word by done. done.
Qed.

(** Taking one unit off a queue. *)
Lemma inv_pop f b k e c c' : inv f b k e c → c_blocking c' = c_blocking c → c_word c' = c_word c →
  c_queued c = S (c_queued c') → (timeouts = false → timer_queue (c_timers c') = []) → inv f b (S k) e c'.
Proof.
  intros (Hb & x & Hw & Hm & He & Ht) Hb' Hw' Hq Ht'. split; [congruence|]. exists x.
  rewrite Hw', Hw, Hq. split_and!; [f_equal; lia|lia|done|]. intros Hn. destruct (Ht Hn). auto.
Qed.

Lemma enqueue_inv f b k e push :
  (∀ c, c_word (push c) = c_word c ∧ c_blocking (push c) = c_blocking c ∧ c_queued (push c) = S (c_queued c)
     ∧ (timeouts = false → timer_queue (c_timers (push c)) = timer_queue (c_timers c))) →
  hoare e (inv f b k e) (enqueue push) (λ _, inv f b k e).
Proof.
  intros Hp c (Hb & x & Hw & Hm & He & Ht). unfold enqueue, mbind, m_bind, on_word. rewrite Hw.
  destruct (decide (c_queued c + k + x = MAX_WORK)) as [Heq|Hne].
  { rewrite Heq, increment_work_full. cbn. exists f. by rewrite Hw, Heq. }
  rewrite increment_work_word by lia. cbn.
  set (c1 := upd_word _ c). specialize (Hp c1). destruct Hp as (P1 & P2 & P3 & P4).
  assert (inv f b k e (push c1)) as Hi.
  { split; [rewrite P2; by destruct c|]. exists x.
    assert (c_queued c1 = c_queued c ∧ c_word c1 = word f (S (c_queued c + k + x))
      ∧ timer_queue (c_timers c1) = timer_queue (c_timers c)) as (Q1 & Q2 & Q3) by (by destruct c).
    rewrite P1, P3, Q1, Q2. split_and!; [f_equal; lia|lia|done|]. intros Hn. rewrite (P4 Hn), Q3. auto. }
  unfold when. destruct (bool_decide _); cbn; [|done].
  eapply inv_frame; [| |exact Hi]; destruct (push c1) eqn:Hpc; [done|]. destruct Hi as [Hi _]. done.
Qed.

(** *** Handlers *)
Lemma modify_frame f b k e g : (∀ c, same_books c (g c) ∧ c_blocking (g c) = c_blocking c) →
  hoare e (inv f b k e) (modify g) (λ _, inv f b k e).
Proof.
  intros Hg. apply hoare_modify. intros c Hi. destruct (Hg c) as [Hs Hb].
  eapply inv_frame; [exact Hs| |exact Hi]. destruct Hi. congruence.
Qed.

Lemma perform_inv f b k e ef : (timeouts = true ∨ no_timeout [ef]) →
  hoare e (inv f b k e) (perform ef) (λ _, inv f b k e).
Proof.
  intros Hn. destruct ef as [ev|m|id| |tag fut|id d a|id d p a|id]; cbn [perform].
  - apply enqueue_inv. intros []. unfold c_queued. cbn. rewrite length_app. cbn. split_and!; done || lia.
  - apply enqueue_inv. intros []. unfold c_queued. cbn. rewrite length_app. cbn. split_and!; done || lia.
  - apply enqueue_inv. intros []. unfold c_queued. cbn. rewrite length_app. cbn. split_and!; [done|done|lia|].
    intros Hf. destruct Hn as [Hn|Hn]; [congruence|]. by apply Forall_cons in Hn as [? _].
  - apply enqueue_inv. intros []. unfold c_queued. cbn. split_and!; done || lia.
  - eapply hoare_bind; [apply enqueue_inv|intros []; apply modify_frame].
    + intros []. unfold c_queued. cbn. rewrite length_app. cbn. split_and!; done || lia.
    + by intros [].
  - apply modify_frame. by intros [].
  - apply modify_frame. by intros [].
  - apply modify_frame. by intros [].
Qed.

Lemma perform_all_inv f b k e es : (timeouts = true ∨ no_timeout es) →
  hoare e (inv f b k e) (perform_all es) (λ _, inv f b k e).
Proof.
  induction es as [|ef es IH]; intros Hn; cbn [perform_all]; [by apply hoare_ret|].
  eapply hoare_bind; [apply perform_inv|intros []; apply IH].
  - destruct Hn as [|Hn]; [by left|right]. apply Forall_cons in Hn as [? _]. by repeat constructor.
  - destruct Hn as [|Hn]; [by left|right]. by apply Forall_cons in Hn as [_ ?].
Qed.

Lemma call_inv {A} f b k e (h : CD → call_result A) : call_ok h →
  hoare e (inv f b k e) (call h) (λ a c, inv f b k e c ∧ ∃ d, a = (h d).2).
Proof.
  intros Hok. unfold call. apply hoare_get. intros c0 Hc0. destruct (h (c_def c0)) as [[d es] a] eqn:Hh. cbn beta iota.
  eapply hoare_bind with (Q := λ _, inv f b k e).
  { apply hoare_modify. intros c ->. eapply inv_frame; [| |exact Hc0]; destruct c0; [done|]. by destruct Hc0. }
  intros []. eapply hoare_bind with (Q := λ _, inv f b k e); [apply perform_all_inv|].
  { destruct Hok as [|Hok]; [by left|right]. specialize (Hok (c_def c0)). by rewrite Hh in Hok. }
  intros []. apply hoare_ret. intros c Hc. split; [done|]. exists (c_def c0). by rewrite Hh.
Qed.

Lemma call_any_inv {A} f b k e (h : CD → call_result A) : call_ok h →
  hoare e (inv f b k e) (call h) (λ _, inv f b k e).
Proof. intros Hok. eapply hoare_weaken; [by apply call_inv|done|]. by intros a c [? _]. Qed.

Lemma call_handler_inv f b k e (h : handler) : call_ok h →
  hoare e (inv f b k e) (call_handler h) (λ r c, inv f b k e c ∧ r ≠ Panic).
Proof.
  intros Hok. unfold call_handler. eapply hoare_bind; [by apply call_inv|].
  intros [h'|err|]; cbn [unwinding].
  - by apply hoare_ret; intros c [? _].
  - by apply hoare_ret; intros c [? _].
  - apply hoare_exit. intros c [Hi _]. by eapply inv_valid.
Qed.

(** *** Lifecycle transitions *)
Lemma to_supervisor_inv f b k e m : hoare e (inv f b k e) (to_supervisor m) (λ _, inv f b k e).
Proof.
  intros c Hi. cbn. destruct (c_supervised c); [|done].
  eapply inv_frame; [| |exact Hi]; destruct c; [done|]. by destruct Hi.
Qed.

Lemma flag_inv f f' b k e : hoare e (inv f b k e) (modify (upd_word (set_state (flag_bits f')))) (λ _, inv f' b k e).
Proof. apply hoare_modify. intros c. apply inv_flag. Qed.

Lemma set_active_inv f b k e : hoare e (inv f b k e) component_set_active (λ _, inv FActive b k e).
Proof. apply (flag_inv f FActive). Qed.
Lemma set_passive_inv f b k e : hoare e (inv f b k e) component_set_passive (λ _, inv FPassive b k e).
Proof. eapply hoare_bind; [apply (flag_inv f FPassive)|]. intros []. apply to_supervisor_inv. Qed.
Lemma set_destroyed_inv f b k e : hoare e (inv f b k e) component_set_destroyed (λ _, inv FDestroyed b k e).
Proof. eapply hoare_bind; [apply (flag_inv f FDestroyed)|]. intros []. apply to_supervisor_inv. Qed.

Lemma inv_terminal f b k e d c : terminal f → inv f b k e c → post e d c.
Proof. intros Hf (_ & x & Hw & Hm & _). left. by eexists f, _. Qed.

Lemma escalate_inv f b k e kind : hoare e (inv f b k e) (escalate kind) (λ _, inv FFaulty b k e).
Proof.
  unfold escalate. eapply hoare_bind; [apply (flag_inv f FFaulty)|]. intros []. apply hoare_get. intros c0 Hc0.
  assert (∀ g, (∀ c, same_books c (g c) ∧ c_blocking (g c) = c_blocking c) →
    hoare e (λ c, c = c0) (modify g) (λ _, inv FFaulty b k e)) as Hg.
  { intros g Hg. apply hoare_modify. intros c ->. destruct (Hg c0) as [? Hb].
    eapply inv_frame; [done| |exact Hc0]. rewrite Hb. by destruct Hc0. }
  destruct (c_supervised c0); [|by apply Hg; intros []].
  destruct (c_recovery c0) as [r|]; [|by apply hoare_ret; intros c ->].
  eapply hoare_bind with (Q := λ _, inv FFaulty b k e); [by apply Hg; intros []|]. intros [].
  destruct (r kind); [apply to_supervisor_inv|].
  eapply hoare_bind with (Q := λ _ c, valid_word c); [|intros []; by apply hoare_exit].
  apply hoare_modify. intros c (_ & x & Hw & Hm & _). eexists FFaulty, _. split; [|exact Hm]. by destruct c.
Qed.

Lemma handle_unrecoverable_inv f b k e :
  hoare e (inv f b k e) handle_unrecoverable_error (λ _, inv FDestroyed b k e).
Proof.
  unfold handle_unrecoverable_error. apply hoare_get. intros c0 Hc0. destruct (c_supervised c0).
  - eapply hoare_weaken; [apply set_destroyed_inv|by intros c ->|done].
  - eapply hoare_bind with (Q := λ _, inv FDestroyed b k e).
    + eapply hoare_weaken; [apply (flag_inv f FDestroyed)|by intros c ->|done].
    + intros []. apply modify_frame. by intros [].
Qed.

(** A benign error changes nothing; any other ends the component. *)
Lemma handle_error_inv f b k e err :
  hoare e (inv f b k e) (handle_handler_error err)
    (λ out c, match out with Continue => inv f b k e c | StopWith d => d = NoWork ∧ post e d c end).
Proof.
  destruct err; cbn [handle_handler_error].
  - by apply hoare_ret.
  - eapply hoare_bind; [apply escalate_inv|]. intros []. apply hoare_ret. intros c Hc. split; [done|].
    eapply inv_terminal; [|exact Hc]. by right.
  - eapply hoare_bind; [apply handle_unrecoverable_inv|]. intros []. apply hoare_ret. intros c Hc. split; [done|].
    eapply inv_terminal; [|exact Hc]. by left.
Qed.

Lemma stop_or_continue_inv f b k e err :
  hoare e (inv f b k e)
    (out ← handle_handler_error err; match out with Continue => mret () | StopWith d => exit (Return d) end)
    (λ _, inv f b k e).
Proof.
  eapply hoare_bind; [apply handle_error_inv|]. intros [|d]; [by apply hoare_ret|].
  apply hoare_exit. by intros c [_ ?].
Qed.

(** *** Blocking *)
Lemma set_blocking_with_state_inv f k e fut t :
  hoare e (inv f None k e) (set_blocking_with_state fut t) (λ _, inv FBlocking (Some (fut, t)) k e).
Proof.
  unfold set_blocking_with_state. apply hoare_get. intros c0 Hc0. pose proof (proj1 Hc0) as ->.
  eapply hoare_bind with (Q := λ _, inv f (Some (fut, t)) k e).
  - apply hoare_modify. intros c ->. by eapply inv_frame; [| |exact Hc0]; destruct c0.
  - intros []. apply (flag_inv f FBlocking).
Qed.

Lemma replace_blocking_inv f k e fut t :
  hoare e (inv f None k e) (replace_blocking fut t) (λ _, inv f (Some (fut, t)) k e).
Proof.
  unfold replace_blocking. apply hoare_get. intros c0 Hc0. pose proof (proj1 Hc0) as ->.
  apply hoare_modify. intros c ->. by eapply inv_frame; [| |exact Hc0]; destruct c0.
Qed.

(** The flags of a component that is not blocked and has not faulted. *)
Definition running_flag (f : Flag) : Prop := f = FActive ∨ f = FPassive ∨ f = FDestroyed.
Definition runs (k e : nat) (c : Comp) : Prop := ∃ f, running_flag f ∧ inv f None k e c.

Lemma inv_runs f k e c : running_flag f → inv f None k e c → runs k e c.
Proof. by exists f. Qed.

Lemma hoare_runs {A} e k (m : M A) Q :
  (∀ f, running_flag f → hoare e (inv f None k e) m Q) → hoare e (runs k e) m Q.
Proof. intros Hm c (f & Hf & Hc). by apply (Hm f). Qed.

Lemma runs_weaken {A} e k f (P : Comp → Prop) (m : M A) :
  running_flag f → hoare e P m (λ _, inv f None k e) → hoare e P m (λ _, runs k e).
Proof. intros Hf Hm. eapply hoare_weaken; [exact Hm|done|]. intros a c. by apply inv_runs. Qed.

Lemma unblock_inv f k e t : hoare e (inv f None k e) (unblock t) (λ _, runs k e).
Proof.
  destruct t; cbn [unblock].
  - eapply runs_weaken; [by left|apply set_active_inv].
  - eapply runs_weaken; [by left|]. eapply hoare_bind; [apply set_active_inv|]. intros []. apply to_supervisor_inv.
  - eapply runs_weaken; [by right; left|apply set_passive_inv].
  - eapply runs_weaken; [by right; right|apply set_destroyed_inv].
Qed.

(** What a poll of the blocking future leaves behind. *)
Definition polled (k e : nat) (r : BlockingTaskResult F Fut) (c : Comp) : Prop :=
  match r with
  | BPending => ∃ b, b ≠ None ∧ inv FBlocking b k e c
  | BCompleted (Ok HOk) | BCompleted (Err (Benign _)) => runs k e c
  | BCompleted (Ok Shutdown) | BCompleted (Err _) => inv FBlocking None k e c
  | BCompleted (Ok (BlockOn _)) | BCompleted Panic => False
  end.

Context (Hok : handlers_ok).

Lemma run_blocking_task_inv k e b : b ≠ None →
  hoare e (inv FBlocking b k e) run_blocking_task (polled k e).
Proof using Hok.
  intros Hb. unfold run_blocking_task. apply hoare_get. intros c0 Hc0. pose proof (proj1 Hc0) as Hcb. rewrite Hcb.
  destruct b as [[fut t]|]; [|done].
  eapply hoare_bind with (Q := λ _, inv FBlocking None k e).
  { apply hoare_modify. intros c ->. by eapply inv_frame; [| |exact Hc0]; destruct c0. }
  intros []. destruct Hok as (_ & _ & _ & _ & _ & Hp & _).
  eapply hoare_bind; [by apply call_any_inv|]. intros p. cbn beta.
  destruct p as [f|[[|f|]|err|]].
  - eapply hoare_bind; [apply (replace_blocking_inv _ _ _ f t)|].
    intros []. apply hoare_ret. intros c Hc. by exists (Some (f, t)).
  - cbn. rewrite andb_false_r. eapply hoare_bind; [apply unblock_inv|].
    intros []. by apply hoare_ret.
  - eapply hoare_bind; [apply (replace_blocking_inv _ _ _ f t)|].
    intros []. apply hoare_ret. intros c Hc. by exists (Some (f, t)).
  - cbn. rewrite andb_true_r. destruct (bool_decide (t = TDestroyed)).
    + eapply hoare_bind; [apply set_destroyed_inv|].
      intros []. apply hoare_ret. intros c. apply inv_runs. by right; right.
    + eapply hoare_bind; [by apply hoare_ret with (Q := λ _, inv FBlocking None k e)|]. intros []. by apply hoare_ret.
  - cbn. rewrite andb_false_r. destruct err.
    + eapply hoare_bind; [apply unblock_inv|].
      intros []. by apply hoare_ret.
    + eapply hoare_bind; [by apply hoare_ret with (Q := λ _, inv FBlocking None k e)|]. intros []. by apply hoare_ret.
    + eapply hoare_bind; [by apply hoare_ret with (Q := λ _, inv FBlocking None k e)|]. intros []. by apply hoare_ret.
  - apply hoare_exit. intros c. apply inv_valid.
Qed.

Lemma shutdown_inv f b k e : hoare e (inv f b k e) shutdown_from_handler (λ d c, d = NoWork ∧ post e d c).
Proof using Hok.
  unfold shutdown_from_handler. eapply hoare_bind; [apply (flag_inv f FDestroyed)|]. intros [].
  destruct Hok as (_ & _ & Hk & _). eapply hoare_bind; [by apply call_handler_inv|]. intros r.
  eapply hoare_bind with (Q := λ _, inv FDestroyed b k e).
  - assert (∀ c, inv FDestroyed b k e c ∧ r ≠ Panic → inv FDestroyed b k e c) as Hfst by (by intros c []).
    destruct r as [[|fut|]|err|]; cbn [handle_secondary_lifecycle_result]; try by apply hoare_ret.
    + apply hoare_exit. intros c [Hc _]. by eapply inv_valid.
    + apply hoare_exit. intros c [Hc _]. by eapply inv_valid.
  - intros []. eapply hoare_bind; [apply set_destroyed_inv|]. intros []. apply hoare_ret. intros c Hc.
    split; [done|]. eapply inv_terminal; [|exact Hc]. by left.
Qed.

Lemma decrement_inv f b k e :
  hoare e (inv f b k e) (decrement k)
    (λ d c, inv f b 0 e c ∧ (d = NoWork ∧ c_word c = word f 0 ∨ d = Schedule)).
Proof.
  intros c (Hb & x & Hw & Hm & He & Ht). unfold decrement, on_word. rewrite Hw, decrement_work_word by lia.
  assert (∀ w, c_queued (upd_word (λ _, w) c) = c_queued c ∧ c_word (upd_word (λ _, w) c) = w
    ∧ c_blocking (upd_word (λ _, w) c) = b ∧ timer_queue (c_timers (upd_word (λ _, w) c)) = timer_queue (c_timers c)) as Hu
    by (by destruct c).
  destruct (Hu (word f (c_queued c + k + x - k))) as (U1 & U2 & U3 & U4). split.
  - split; [done|]. exists x. rewrite U1, U2, U4. split_and!; [f_equal; lia|lia|done|done].
  - rewrite U2. case_decide as Hd; [left; split; [done|f_equal; lia]|by right].
Qed.

(** The end of an execution in which nothing special happened. *)
Lemma decrement_done k e : hoare e (runs k e) (decrement k) (λ d c, d ≠ Blocked ∧ post e d c).
Proof.
  apply hoare_runs. intros f Hf. eapply hoare_weaken; [apply decrement_inv|done|].
  intros d c [Hi Hd]. split; [by destruct Hd as [[-> _]| ->]|]. destruct Hf as [->|[->| ->]].
  - right; left. exists FActive. split_and!; [by left|done|]. destruct Hd as [[-> Hw]| ->]; eauto.
  - right; left. exists FPassive. split_and!; [by right|done|]. destruct Hd as [[-> Hw]| ->]; eauto.
  - eapply inv_terminal; [|exact Hi]. by left.
Qed.

Lemma or_use_post d e c : d ≠ Blocked → post e d c → post e (or_use NoWork d) c.
Proof.
  intros Hnb [Ht|[(f & Hf & Hi & Hd)|(b & _ & _ & ->)]]; [by left| |done]. right; left. exists f.
  split_and!; [done..|]. destruct Hd as [[-> Hw]|[-> | ->]]; cbn; eauto.
Qed.

Lemma hoare_return {A} e P (m : M SchedulingDecision) (Q : A → Comp → Prop) :
  hoare e P m (λ d c, post e d c) → hoare e P (return_ m) Q.
Proof. intros Hm. eapply hoare_bind; [exact Hm|]. intros d. apply hoare_exit. done. Qed.

(** Errors that are not benign stop the component, whatever would have followed. *)
Lemma fatal_post f b k e err (m : M SchedulingDecision) : match err with Benign _ => False | _ => True end →
  hoare e (inv f b k e)
    (out ← handle_handler_error err; match out with Continue => m | StopWith d => mret d end)
    (λ d c, post e d c).
Proof.
  destruct err; intros Hf; [done| |]; cbn [handle_handler_error].
  - eapply hoare_bind with (Q := λ out c, out = StopWith NoWork ∧ inv FFaulty b k e c).
    + eapply hoare_bind; [apply escalate_inv|]. intros []. by apply hoare_ret.
    + intros out c [-> Hc]. eapply inv_terminal; [|exact Hc]. by right.
  - eapply hoare_bind with (Q := λ out c, out = StopWith NoWork ∧ inv FDestroyed b k e c).
    + eapply hoare_bind; [apply handle_unrecoverable_inv|]. intros []. by apply hoare_ret.
    + intros out c [-> Hc]. eapply inv_terminal; [|exact Hc]. by left.
Qed.

(** [run_blocking!] always ends the execution. *)
Lemma run_blocking_inv {A} k e b (Q : A → Comp → Prop) : b ≠ None →
  hoare e (inv FBlocking b k e) (run_blocking k) Q.
Proof using Hok.
  intros Hb. unfold run_blocking. eapply hoare_bind; [by apply run_blocking_task_inv|].
  intros [|[[|f|]|err|]]; cbn [polled].
  - intros c (b' & Hb' & Hc). revert c Hc. eapply hoare_bind; [apply decrement_inv|]. intros d. cbn beta.
    apply hoare_return, hoare_ret. intros c [Hc _]. right; right. by exists b'.
  - eapply hoare_bind; [apply decrement_done|]. intros d. apply hoare_return, hoare_ret. intros c [Hnb Hc].
    by apply or_use_post.
  - by intros c Hc.
  - eapply hoare_bind; [apply decrement_inv|]. intros d. apply hoare_return.
    eapply hoare_weaken; [apply (shutdown_inv FBlocking None 0)|by intros c []|by intros a c []].
  - destruct err as [fault|fault|fault].
    + eapply hoare_bind; [apply decrement_done|]. intros d. apply hoare_return. cbn [handle_handler_error].
      intros c [Hnb Hc]. cbn. by apply or_use_post.
    + eapply hoare_bind; [apply decrement_inv|]. intros d. apply hoare_return.
      eapply hoare_weaken; [by apply (fatal_post FBlocking None 0)|by intros c []|done].
    + eapply hoare_bind; [apply decrement_inv|]. intros d. apply hoare_return.
      eapply hoare_weaken; [by apply (fatal_post FBlocking None 0)|by intros c []|done].
  - by intros c Hc.
Qed.

Lemma stop_runs k e err :
  hoare e (runs k e)
    (out ← handle_handler_error err; match out with Continue => mret () | StopWith d => exit (Return d) end)
    (λ _, runs k e).
Proof. apply hoare_runs. intros f Hf. eapply runs_weaken; [exact Hf|]. apply stop_or_continue_inv. Qed.

Lemma shutdown_returns {A} k e (Q : A → Comp → Prop) : hoare e (runs k e) (return_ shutdown_from_handler) Q.
Proof using Hok.
  apply hoare_return, hoare_runs. intros f _. eapply hoare_weaken; [apply shutdown_inv|done|]. by intros a c [].
Qed.

Lemma block_returns {A} k e fut t (Q : A → Comp → Prop) :
  hoare e (runs k e) (_ ← set_blocking_with_state fut t; run_blocking k) Q.
Proof using Hok.
  apply hoare_runs. intros f _. eapply hoare_bind; [apply set_blocking_with_state_inv|].
  intros []. by apply run_blocking_inv.
Qed.

Lemma runs_valid k e c : runs k e c → valid_word c.
Proof. intros (f & _ & Hc). by eapply inv_valid. Qed.

Lemma check_blocking_inv k e r :
  hoare e (λ c, runs k e c ∧ r ≠ Panic) (check_and_handle_blocking k r) (λ _, runs k e).
Proof using Hok.
  apply (hoare_pre e (runs k e)); [by intros c []|].
  destruct r as [[|fut|]|err|]; cbn [check_and_handle_blocking].
  - by apply hoare_ret.
  - apply block_returns.
  - apply shutdown_returns.
  - apply stop_runs.
  - apply hoare_exit. apply runs_valid.
Qed.

Lemma call_runs k e h : call_ok h → hoare e (runs k e) (call_handler h) (λ r c, runs k e c ∧ r ≠ Panic).
Proof.
  intros Hh. apply hoare_runs. intros f Hf. eapply hoare_weaken; [by apply call_handler_inv|done|].
  intros r c [Hc ?]. split; [by exists f|done].
Qed.

(** *** Control events *)
Lemma flag_runs f' k e : running_flag f' →
  hoare e (runs k e) (modify (upd_word (set_state (flag_bits f')))) (λ _, runs k e).
Proof. intros Hf'. apply hoare_runs. intros f _. eapply runs_weaken; [exact Hf'|]. apply flag_inv. Qed.

Lemma frame_runs k e g : (∀ c, same_books c (g c) ∧ c_blocking (g c) = c_blocking c) →
  hoare e (runs k e) (modify g) (λ _, runs k e).
Proof. intros Hg. apply hoare_runs. intros f Hf. eapply runs_weaken; [exact Hf|]. by apply modify_frame. Qed.

Lemma run_nonblocking_inv k e tag :
  hoare e (runs k e) (run_nonblocking_task tag) (λ r c, runs k e c ∧ r ≠ Panic).
Proof using Hok.
  destruct Hok as (_ & _ & _ & _ & _ & Hp & _). unfold run_nonblocking_task. apply hoare_get. intros c0 Hc0.
  destruct (c_futures c0 !! tag) as [fut|]; [|apply hoare_ret; by intros c ->].
  eapply hoare_bind with (Q := λ _, runs k e).
  { apply (hoare_pre e (runs k e)); [by intros c ->|].
    apply hoare_runs. intros f Hf. eapply runs_weaken; [exact Hf|]. by apply call_any_inv. }
  intros [f|[h|err|]].
  - eapply hoare_bind; [apply frame_runs; by intros []|]. intros []. by apply hoare_ret.
  - eapply hoare_bind; [apply frame_runs; by intros []|]. intros []. by apply hoare_ret.
  - eapply hoare_bind; [apply frame_runs; by intros []|]. intros []. by apply hoare_ret.
  - apply hoare_exit. apply runs_valid.
Qed.

Lemma start_control_inv k e ev :
  hoare e (runs k e) (start_control ev) (λ r c, runs k e c ∧ r ≠ Panic).
Proof using Hok.
  pose proof Hok as (H1 & H2 & H3 & _). destruct ev; cbn [start_control].
  - eapply hoare_bind; [apply (flag_runs FActive); by left|]. intros []. by apply call_runs.
  - eapply hoare_bind; [apply (flag_runs FPassive); by right; left|]. intros []. by apply call_runs.
  - eapply hoare_bind; [apply (flag_runs FDestroyed); by right; right|]. intros []. by apply call_runs.
  - apply run_nonblocking_inv.
Qed.

Lemma complete_control_inv k e ev : hoare e (runs k e) (complete_control ev) (λ _, runs k e).
Proof.
  apply hoare_runs. intros f Hf. destruct ev; cbn [complete_control].
  - eapply runs_weaken; [exact Hf|]. by apply to_supervisor_inv.
  - eapply runs_weaken; [by right; left|apply set_passive_inv].
  - eapply runs_weaken; [by right; right|apply set_destroyed_inv].
  - apply hoare_ret. intros c. by apply inv_runs.
Qed.

Lemma handle_control_inv k e ev r :
  hoare e (λ c, runs k e c ∧ r ≠ Panic) (handle_control k ev r) (λ _, runs k e).
Proof using Hok.
  apply (hoare_pre e (runs k e)); [by intros c []|].
  destruct r as [[|fut|]|err|]; cbn [handle_control].
  - apply complete_control_inv.
  - apply block_returns.
  - destruct ev; try apply shutdown_returns. apply hoare_runs. intros f _.
    eapply hoare_bind; [apply set_destroyed_inv|]. intros []. apply hoare_exit. intros c Hc.
    eapply inv_terminal; [|exact Hc]. by left.
  - destruct err; [apply complete_control_inv|apply stop_runs|apply stop_runs].
  - apply hoare_exit. apply runs_valid.
Qed.

Lemma pop_runs k e c c' : runs k e c → c_blocking c' = c_blocking c → c_word c' = c_word c →
  c_queued c = S (c_queued c') → timer_queue (c_timers c') = timer_queue (c_timers c) → runs (S k) e c'.
Proof.
  intros (f & Hf & Hc) Hb Hw Hq Ht. exists f. split; [done|]. eapply inv_pop; [exact Hc|done..|].
  intros Hn. rewrite Ht. destruct Hc as (_ & x & _ & _ & _ & Hx). by destruct (Hx Hn).
Qed.

Lemma control_loop_inv fuel k e : hoare e (runs k e) (control_loop fuel k) (λ k', runs k' e).
Proof using Hok.
  revert k. induction fuel as [|fuel IH]; intros k; cbn [control_loop]; [by apply hoare_exit|].
  apply hoare_get. intros c0 Hc0. destruct (c_ctrl c0) as [|ev q] eqn:Hq; [apply hoare_ret; by intros c ->|].
  eapply hoare_bind with (Q := λ _, runs (S k) e).
  { apply hoare_modify. intros c ->. eapply pop_runs; [exact Hc0|..]; destruct c0; try done.
    cbn in *. subst. unfold c_queued. cbn. lia. }
  intros []. eapply hoare_bind; [apply start_control_inv|]. intros r.
  eapply hoare_bind; [apply handle_control_inv|]. intros []. apply IH.
Qed.

(** *** Timers, messages, ports *)
Lemma next_timer_inv k e :
  hoare e (runs k e) next_timer (λ a c, match a with ANone => runs k e c | _ => runs (S k) e c end).
Proof.
  intros c (f & Hf & Hc). unfold next_timer, try_action.
  destruct (timer_queue (c_timers c)) as [|id q] eqn:Hq.
  { cbn. exists f. split; [done|]. eapply inv_frame; [| |exact Hc]; destruct c; [done|]. by destruct Hc. }
  assert (∀ g, c_queued c = S (c_queued (upd_timers (λ _, mkTimers (timer (c_timers c)) q g) c))) as Hpop.
  { intros g. destruct c. unfold c_queued. cbn in *. rewrite Hq. cbn. lia. }
  assert (timeouts = false → False) as Hto.
  { intros Hn. destruct Hc as (_ & x & _ & _ & _ & Hx). destruct (Hx Hn). congruence. }
  assert (∀ g, runs (S k) e (upd_timers (λ _, mkTimers (timer (c_timers c)) q g) c)) as Hr.
  { intros g. exists f. split; [done|]. eapply inv_pop; [exact Hc|by destruct c|by destruct c|apply Hpop|].
    intros Hn. destruct (Hto Hn). }
  destruct (handles (c_timers c) !! id) as [[a|a]|]; [apply Hr..|].
  destruct (Hr (delete id (handles (c_timers c)))) as (f' & Hf' & Hb & x & Hw & Hm & He & _).
  exists f'. split; [done|]. split; [done|]. exists (S x). split_and!; [rewrite Hw; f_equal; lia|lia|lia|].
  intros Hn. destruct (Hto Hn).
Qed.

Lemma timer_loop_inv rem k e : hoare e (runs k e) (timer_loop rem k) (λ k', runs k' e).
Proof using Hok.
  pose proof Hok as (_ & _ & _ & _ & Ha & _). revert k. induction rem as [|rem IH]; intros k; cbn [timer_loop];
    [by apply hoare_ret|]. eapply hoare_bind; [apply next_timer_inv|]. intros [|id a|id a]; [by apply hoare_ret|..].
  all: eapply hoare_bind; [by apply call_runs|]; intros r;
    (eapply hoare_bind; [apply check_blocking_inv|]); intros []; apply IH.
Qed.

Lemma message_loop_inv rem k e : hoare e (runs k e) (message_loop rem k) (λ k', runs k' e).
Proof using Hok.
  pose proof Hok as (_ & _ & _ & Hm & _). revert k. induction rem as [|rem IH]; intros k; cbn [message_loop];
    [by apply hoare_ret|]. apply hoare_get. intros c0 Hc0.
  destruct (c_msgs c0) as [|env q] eqn:Hq; [apply hoare_ret; by intros c ->|].
  eapply hoare_bind with (Q := λ _, runs (S k) e).
  { apply hoare_modify. intros c ->. eapply pop_runs; [exact Hc0|..]; destruct c0; try done.
    cbn in *. subst. unfold c_queued. cbn. lia. }
  intros []. eapply hoare_bind; [by apply call_runs|]. intros r.
  eapply hoare_bind; [apply check_blocking_inv|]. intros []. apply IH.
Qed.

(** Effects add port events as they say. *)
Lemma enqueue_ports push n c : (∀ c, c_ports (push c) = n + c_ports c) →
  match enqueue push c with (c', inr _) => c_ports c' = n + c_ports c | _ => True end.
Proof.
  intros Hp. unfold enqueue, mbind, m_bind, on_word. destruct (increment_work (c_word c)) as [[w sd]|[]|]; [|done].
  cbn. unfold when. specialize (Hp (upd_word (λ _, w) c)). destruct (bool_decide _); cbn; destruct (push _); destruct c; exact Hp.
Qed.

Lemma perform_ports ef c : match perform ef c with (c', inr _) => c_ports c' = port_arrivals [ef] + c_ports c | _ => True end.
Proof.
  destruct ef; cbn [perform port_arrivals foldr]; try (by apply enqueue_ports; intros []); try (by destruct c).
  unfold mbind, m_bind. pose proof (enqueue_ports (upd_ctrl (λ q, q ++ [Poll tag])) 0 c ltac:(by intros [])) as Hen.
  destruct (enqueue _ c) as [c' [x|[]]]; [done|]. destruct c'. exact Hen.
Qed.

Lemma perform_all_ports es c : match perform_all es c with (c', inr _) => c_ports c' = port_arrivals es + c_ports c | _ => True end.
Proof.
  revert c. induction es as [|ef es IH]; intros c; [done|]. cbn [perform_all]. unfold mbind, m_bind.
  pose proof (perform_ports ef c) as He. destruct (perform ef c) as [c1 [x|[]]]; [done|].
  specialize (IH c1). destruct (perform_all es c1) as [c2 [x|[]]]; [done|]. unfold port_arrivals in *. destruct ef; cbn [foldr] in *; lia.
Qed.

Lemma call_ports {A} (h : CD → call_result A) c :
  match call h c with
  | (c', inr a) => c_ports c' = port_arrivals (h (c_def c)).1.2 + c_ports c ∧ a = (h (c_def c)).2
  | _ => True
  end.
Proof.
  unfold call, get, mbind, m_bind. destruct (h (c_def c)) as [[d es] a] eqn:Hh. cbn.
  pose proof (perform_all_ports es (set_def d c)) as Hp. destruct (perform_all es _) as [c' [x|[]]]; [done|].
  cbn. split; [|done]. by destruct c.
Qed.

Lemma run_ports_inv rem k e :
  hoare e (runs k e) (run_ports rem)
    (λ r c, match er_blocking r with
            | None => runs (k + er_count r) e c
            | Some f => inv FBlocking (Some (f, TActive)) (k + er_count r) e c
            end).
Proof using Hok.
  pose proof Hok as (_ & _ & _ & _ & _ & _ & He & Hcount). apply hoare_runs. intros f Hf c Hc.
  unfold run_ports. unfold mbind at 1, m_bind at 1, get.
  pose proof (call_inv f None k e (execute_ports rem (c_skip c) (c_ports c)) (He _ _ _) c Hc) as Hi.
  pose proof (call_ports (execute_ports rem (c_skip c) (c_ports c)) c) as Hp.
  unfold mbind at 1, m_bind at 1. destruct (call _ c) as [c1 [x|a]]; [done|].
  destruct Hi as [Hi _], Hp as [Hp ->].
  destruct (execute_ports rem (c_skip c) (c_ports c) (c_def c)).2 as [r|[]|] eqn:Hr; [|by eapply inv_valid].
  destruct (Hcount _ _ _ _ _ Hr) as [_ Hle].
  assert (inv f None (k + er_count r) e (upd_ports (λ p, p - er_count r) c1)) as H1.
  { destruct Hi as (Hb & x & Hw & Hm & He' & Ht). destruct c1. cbn in *. split; [done|]. exists x.
    unfold c_queued in *. cbn in *. split_and!; [rewrite Hw; f_equal; lia|lia|done|done]. }
  revert H1. apply (hoare_bind e _ (match er_blocking r with Some f => set_blocking_with_state f TActive | None => mret () end)
    (λ _, _ ← modify (set_skip (er_skip r)); mret r)
    (λ _ c, match er_blocking r with
            | None => runs (k + er_count r) e c
            | Some f => inv FBlocking (Some (f, TActive)) (k + er_count r) e c
            end)).
  - destruct (er_blocking r) as [fut|]; [apply set_blocking_with_state_inv|].
    apply hoare_ret. intros c2 H2. by exists f.
  - intros []. eapply hoare_bind with (Q := λ _ c, match er_blocking r with
            | None => runs (k + er_count r) e c
            | Some f => inv FBlocking (Some (f, TActive)) (k + er_count r) e c
            end); [|intros []; by apply hoare_ret].
    destruct (er_blocking r); [apply modify_frame|apply frame_runs]; by intros [].
Qed.

Lemma port_phase_inv max k e : hoare e (runs k e) (port_phase max k) (λ k', runs k' e).
Proof using Hok.
  unfold port_phase. case_decide; [|by apply hoare_ret].
  eapply hoare_bind; [apply run_ports_inv|]. intros r. cbn beta.
  destruct (er_shutdown r).
  { apply hoare_return. destruct (er_blocking r) as [fut|].
    - eapply hoare_weaken; [apply shutdown_inv|done|]. by intros a c [].
    - apply hoare_runs. intros f _. eapply hoare_weaken; [apply shutdown_inv|done|]. by intros a c []. }
  eapply hoare_bind with (Q := λ _ c, match er_blocking r with
            | None => runs (k + er_count r) e c
            | Some f => inv FBlocking (Some (f, TActive)) (k + er_count r) e c
            end).
  { destruct (er_error r) as [err|]; [|by apply hoare_ret].
    destruct (er_blocking r); [apply stop_or_continue_inv|apply stop_runs]. }
  intros []. eapply hoare_bind with (Q := λ _, runs (k + er_count r) e).
  { destruct (er_blocking r); [by apply run_blocking_inv|by apply hoare_ret]. }
  intros []. apply message_loop_inv.
Qed.

Lemma resume_blocked_inv e b : b ≠ None → hoare e (inv FBlocking b 0 e) resume_blocked (λ d c, post e d c).
Proof using Hok.
  intros Hb. unfold resume_blocked. eapply hoare_bind; [by apply run_blocking_task_inv|].
  assert (hoare e (runs 0 e) (d ← current_decision; mret (or_from NoWork (λ _, d))) (λ d c, post e d c)) as Hcur.
  { intros c (f & Hf & Hc). pose proof Hc as (Hcb & x & Hw & Hm & Hx). unfold current_decision, on_word.
    unfold mbind at 1, m_bind at 1. rewrite Hw, decision_word by done. cbn [mbind res_bind].
    assert (∀ w, w = c_word c → upd_word (λ _, w) c = c) as Hid by (intros w ->; by destruct c).
    rewrite Hid by done. cbn. destruct Hf as [->|[->| ->]]; cbn [decide_from].
    - right; left. exists FActive. split_and!; [by left|done|]. right; right. by case_decide.
    - right; left. exists FPassive. split_and!; [by right|done|]. right; right. by case_decide.
    - eapply inv_terminal; [|exact Hc]. by left. }
  intros [|[[|f|]|err|]]; cbn [polled].
  - apply hoare_ret. intros c (b' & Hb' & Hc). right; right. by exists b'.
  - exact Hcur.
  - by intros c Hc.
  - eapply hoare_weaken; [apply shutdown_inv|done|]. by intros a c [].
  - destruct err; [exact Hcur|by apply fatal_post|by apply fatal_post].
  - by intros c Hc.
Qed.

(** A component at rest: its count covers the work queued, and it has a blocking
    future exactly when it is marked as blocking. *)
Definition at_rest (e : nat) (c : Comp) : Prop :=
  c_mutex_poisoned c = false
  ∧ ∃ f, inv f (c_blocking c) 0 e c ∧ match f with
         | FActive | FPassive => c_blocking c = None
         | FBlocking => c_blocking c ≠ None
         | FDestroyed | FFaulty => False
         end.

Lemma inner_execute_inv fuel max_events max_messages e :
  hoare e (at_rest e) (inner_execute fuel max_events max_messages) (λ d c, post e d c).
Proof using Hok.
  unfold inner_execute. apply hoare_get. intros c0 (Hp & f & Hi & Hb). rewrite Hp.
  destruct (c_blocking c0) as [b|] eqn:Hcb.
  - destruct f; try done. apply (hoare_pre e (inv FBlocking (Some b) 0 e)); [by intros c ->|]. by apply resume_blocked_inv.
  - assert (runs 0 e c0) as Hr by (destruct f; try done; eexists; (split; [|exact Hi]); unfold running_flag; auto).
    eapply hoare_bind; [apply (hoare_pre e (runs 0 e)); [by intros c ->|]; apply control_loop_inv|].
    intros k. apply hoare_get. intros c1 Hc1. destruct (negb (is_active (c_word c1))).
    + apply (hoare_pre e (runs k e)); [by intros c ->|]. eapply hoare_weaken; [apply decrement_done|done|]. by intros d c [].
    + eapply hoare_bind; [apply (hoare_pre e (runs k e)); [by intros c ->|]; apply timer_loop_inv|]. intros k1.
      eapply hoare_bind; [apply message_loop_inv|]. intros k2.
      eapply hoare_bind; [apply port_phase_inv|]. intros k3.
      eapply hoare_weaken; [apply decrement_done|done|]. by intros d c [].
Qed.

(** *** What an execution does to a field

    [tracks Rel Ex m]: whatever way [m] ends, [Rel] relates the states before and
    after, and [Ex] holds of the exit.  The lemmas reduce this for a whole
    execution to the primitive updates and the handlers. *)
Definition tracks {A} (Rel : Comp → Comp → Prop) (Ex : Exit → Prop) (m : M A) : Prop :=
  ∀ c, Rel c (m c).1 ∧ ∀ x, (m c).2 = inl x → Ex x.

Record tracking (Rel : Comp → Comp → Prop) (Ex : Exit → Prop) : Prop := {
  tr_refl : ∀ c, Rel c c;
  tr_trans : ∀ c1 c2 c3, Rel c1 c2 → Rel c2 c3 → Rel c1 c3;
  tr_return : ∀ d, Ex (Return d);
  tr_unwind : Ex Unwind;
  tr_abort : Ex Abort;
  tr_word : ∀ f c, Rel c (upd_word f c);
  tr_blocking : ∀ b c, Rel c (set_blocking_future b c);
  tr_futures : ∀ f c, Rel c (upd_futures f c);
  tr_sent : ∀ m c, c_supervised c = true → Rel c (send_supervisor m c);
  tr_recovery : ∀ r c, (∀ f k, r = Some f → f k ≠ None ∧ c_recovery c ≠ None) → Rel c (set_recovery r c);
  tr_skip : ∀ s c, Rel c (set_skip s c);
  tr_poison : ∀ c, Rel c (poison_system c);
}.

Section Tracks.
Context (Rel : Comp → Comp → Prop) (Ex : Exit → Prop).
Context (T : tracking Rel Ex).
#[local] Abbreviation tr := (tracks Rel Ex).

Lemma tr_bind {A B} (m : M A) (f : A → M B) : tr m → (∀ a, tr (f a)) → tr (m ≫= f).
Proof using T.
  intros Hm Hf c. unfold mbind, m_bind. destruct (Hm c) as [H1 H2]. destruct (m c) as [c' [x|a]]; cbn in *; [split; [done|]; intros y [= <-]; by apply H2|].
  destruct (Hf a c') as [H3 H4]. split; [by eapply tr_trans|done].
Qed.
Lemma tr_ret {A} (a : A) : tr (mret a).
Proof using T. intros c. split; [by eapply tr_refl|done]. Qed.
Lemma tr_get : tr get.
Proof using T. intros c. split; [by eapply tr_refl|done]. Qed.
Lemma tr_exit {A} x : Ex x → tracks Rel Ex (A := A) (exit x).
Proof using T. intros Hx c. split; [by eapply tr_refl|]. by intros ? [= <-]. Qed.
Lemma tr_modify g : (∀ c, Rel c (g c)) → tr (modify g).
Proof. intros Hg c. by split. Qed.
Lemma tr_on_word {A} (f : Z → res Empty_set (Z * A)) : tr (on_word f).
Proof using T.
  intros c. unfold on_word. destruct (f (c_word c)) as [[w a]|[]|].
  - split; [by eapply tr_word|done].
  - split; [by eapply tr_refl|]. intros ? [= <-]. by eapply tr_abort.
Qed.
Lemma tr_to_supervisor m : tr (to_supervisor m).
Proof using T. intros c. cbn. split; [destruct (c_supervised c) eqn:Hs; [by eapply tr_sent|by eapply tr_refl]|done]. Qed.

Ltac step :=
  first
    [ assumption
    | apply tr_bind; [|intros ?]
    | apply tr_ret | apply tr_get | apply tr_on_word | apply tr_to_supervisor
    | apply tr_exit; (eapply tr_return || eapply tr_unwind); exact T
    | apply tr_modify; intros ?;
      first [ eapply tr_word | eapply tr_blocking | eapply tr_futures | eapply tr_skip | eapply tr_poison ];
      exact T
    | match goal with
      | |- tracks _ _ (match ?x with _ => _ end) => destruct x
      | |- tracks _ _ (if ?x then _ else _) => destruct x
      end ].
Ltac steps := repeat step.
Ltac leaf := first [ assumption | apply tr_ret | apply tr_exit; (eapply tr_return || eapply tr_unwind); exact T ].

Lemma tr_call_handler h : tr (call h) → tr (call_handler h).
Proof using T. intros Hh. unfold call_handler, unwinding. steps. Qed.
Lemma tr_escalate k : tr (escalate k).
Proof using T.
  intros c. unfold escalate, get, modify, mbind, m_bind. set (c1 := upd_word set_faulty c).
  assert (Rel c c1) as H1 by (by eapply tr_word). destruct (c_supervised c1) eqn:Hs.
  2: { split; [|done]. eapply tr_trans; [done|exact H1|by eapply tr_poison]. }
  destruct (c_recovery c1) as [r|] eqn:Hr; [|by split].
  set (c2 := set_recovery (Some default_recovery_function) c1).
  assert (Rel c c2) as H2. { eapply tr_trans; [done|exact H1|]. eapply tr_recovery; [done|]. intros ?? [= <-]. by rewrite Hr. }
  assert (c_supervised c2 = true) as Hs2. { rewrite <-Hs. unfold c2. generalize c1. by intros []. }
  destruct (r k); unfold to_supervisor, exit; cbn [fst snd]; fold c2.
  - rewrite Hs2. split; [|done]. eapply tr_trans; [done|exact H2|by eapply tr_sent].
  - split; [eapply tr_trans; [done|exact H2|]|]. 2: { intros x [= <-]. by eapply tr_unwind. }
    apply (tr_recovery _ _ T None c2). intros ?? [=].
Qed.
Lemma tr_handle_error err : tr (handle_handler_error err).
Proof using T.
  destruct err; cbn [handle_handler_error]; [steps| |unfold handle_unrecoverable_error, component_set_destroyed; steps].
  apply tr_bind; [apply tr_escalate|]. intros _. steps.
Qed.
Lemma tr_set_blocking fut t : tr (set_blocking_with_state fut t).
Proof using T. unfold set_blocking_with_state. steps. Qed.
Lemma tr_stop err : tr (out ← handle_handler_error err; match out with Continue => mret () | StopWith d => exit (Return d) end).
Proof using T. apply tr_bind; [apply tr_handle_error|]. intros ?. steps. Qed.
Lemma tr_returning {A} m : tr m → tracks Rel Ex (A := A) (return_ m).
Proof using T. intros Hm. unfold return_. steps. Qed.

Context (Hkill : tr (call on_kill)) (Hpoll : ∀ f, tr (call (poll f))).

Lemma tr_shutdown : tr shutdown_from_handler.
Proof using T Hkill.
  unfold shutdown_from_handler, component_set_destroyed, handle_secondary_lifecycle_result.
  apply tr_bind; [step|]. intros _. apply tr_bind; [by apply tr_call_handler|]. intros r. steps.
Qed.
Lemma tr_run_blocking_task : tr run_blocking_task.
Proof using T Hpoll.
  unfold run_blocking_task, replace_blocking, unblock, component_set_active, component_set_passive, component_set_destroyed,
    notify_started.
  apply tr_bind; [step|]. intros c. destruct (c_blocking c) as [[fut t]|]; [|step].
  apply tr_bind; [step|]. intros _. apply tr_bind; [apply Hpoll|]. intros p. steps.
Qed.
Lemma tr_run_blocking {A} k : tracks Rel Ex (A := A) (run_blocking k).
Proof using T Hkill Hpoll.
  unfold run_blocking. apply tr_bind; [apply tr_run_blocking_task|]. intros r.
  apply tr_bind; [step|]. intros d. apply tr_returning.
  destruct r as [|[[|f|]|err|]]; try leaf.
  - apply tr_bind; [apply tr_set_blocking|]. intros _. step.
  - apply tr_shutdown.
  - apply tr_bind; [apply tr_handle_error|]. intros ?. steps.
Qed.
Lemma tr_block {A} fut t k : tracks Rel Ex (A := A) (_ ← set_blocking_with_state fut t; run_blocking k).
Proof using T Hkill Hpoll. apply tr_bind; [apply tr_set_blocking|]. intros _. apply tr_run_blocking. Qed.
Lemma tr_check k r : tr (check_and_handle_blocking k r).
Proof using T Hkill Hpoll.
  destruct r as [[|f|]|err|]; cbn [check_and_handle_blocking]; try leaf.
  - apply tr_block.
  - apply tr_returning, tr_shutdown.
  - apply tr_stop.
Qed.
Lemma tr_resume_blocked : tr resume_blocked.
Proof using T Hkill Hpoll.
  unfold resume_blocked, current_decision. apply tr_bind; [apply tr_run_blocking_task|].
  intros [|[[|f|]|err|]]; try leaf.
  - steps.
  - apply tr_bind; [apply tr_set_blocking|]. intros _. step.
  - apply tr_shutdown.
  - apply tr_bind; [apply tr_handle_error|]. intros ?. steps.
Qed.

Context (Hstart : tr (call on_start)) (Hstop : tr (call on_stop)).

Lemma tr_start_control ev : tr (start_control ev).
Proof using T Hkill Hpoll Hstart Hstop.
  destruct ev; cbn [start_control].
  1-3: apply tr_bind; [step|]; intros _; by apply tr_call_handler.
  unfold run_nonblocking_task. apply tr_bind; [step|]. intros c. destruct (c_futures c !! tag); [|step].
  apply tr_bind; [apply Hpoll|]. intros p. steps.
Qed.
Lemma tr_handle_control k ev r : tr (handle_control k ev r).
Proof using T Hkill Hpoll.
  assert (tr (complete_control ev)) as Hc.
  { destruct ev; unfold complete_control, component_set_passive, component_set_destroyed, notify_started; steps. }
  destruct r as [[|f|]|err|]; cbn [handle_control]; try leaf.
  - apply tr_block.
  - unfold component_set_destroyed. destruct ev; try apply tr_returning, tr_shutdown. steps.
  - destruct err; [exact Hc|apply tr_stop..].
Qed.
Lemma tr_control_loop fuel k : Ex NoFuel → (∀ c q, Rel c (upd_ctrl (λ _, q) c)) → tr (control_loop fuel k).
Proof using T Hkill Hpoll Hstart Hstop.
  intros Hnf Hpop. revert k. induction fuel as [|fuel IH]; intros k; cbn [control_loop]; [by apply tr_exit|].
  apply tr_bind; [step|]. intros c. destruct (c_ctrl c) as [|ev q]; [step|].
  apply tr_bind; [by apply tr_modify|]. intros _. apply tr_bind; [apply tr_start_control|]. intros r.
  apply tr_bind; [apply tr_handle_control|]. intros _. apply IH.
Qed.

Context (Htimer : tr next_timer) (Haction : ∀ a i, tr (call (run_action a i))).

Lemma tr_timer_loop rem k : tr (timer_loop rem k).
Proof using T Hkill Hpoll Htimer Haction.
  revert k. induction rem as [|rem IH]; intros k; cbn [timer_loop]; [step|].
  apply tr_bind; [done|]. intros [|id a|id a]; [step|..].
  all: apply tr_bind; [by apply tr_call_handler|]; intros r; (apply tr_bind; [apply tr_check|]); intros _; apply IH.
Qed.

Context (Hexecute : ∀ n s p, tr (call (execute_ports n s p))) (Hports : ∀ n c, Rel c (upd_ports (λ p, p - n) c)).

Lemma tr_run_ports rem : tr (run_ports rem).
Proof using T Hexecute Hports.
  unfold run_ports. apply tr_bind; [step|]. intros c. apply tr_bind; [apply Hexecute|]. intros [r|[]|]; [|step].
  apply tr_bind; [by apply tr_modify|]. intros _.
  apply tr_bind; [destruct (er_blocking r); [apply tr_set_blocking|step]|]. intros _. steps.
Qed.

(** The part of the port phase before more messages are handled. *)
Lemma tr_after_ports (res : ExecuteResult F Fut) k :
  tr (_ ← match er_error res with
          | Some e =>
              out ← handle_handler_error e;
              match out with Continue => mret () | StopWith d => exit (Return d) end
          | None => mret ()
          end;
      match er_blocking res with Some _ => run_blocking k | None => mret () end).
Proof using T Hkill Hpoll.
  apply tr_bind; [destruct (er_error res); [apply tr_stop|step]|]. intros _.
  destruct (er_blocking res); [apply tr_run_blocking|step].
Qed.

Context (Hmessage : ∀ rem k, tr (message_loop rem k)).

Lemma tr_port_phase max k : tr (port_phase max k).
Proof using T Hkill Hpoll Hexecute Hports Hmessage.
  unfold port_phase. case_decide; [|step]. apply tr_bind; [apply tr_run_ports|]. intros r.
  destruct (er_shutdown r); [apply tr_returning, tr_shutdown|].
  apply tr_bind; [destruct (er_error r); [apply tr_stop|step]|]. intros _.
  apply tr_bind; [destruct (er_blocking r); [apply tr_run_blocking|step]|]. intros _. apply Hmessage.
Qed.

Lemma tr_inner fuel me mm : (∀ k, tr (control_loop fuel k)) → tr (inner_execute fuel me mm).
Proof using T Hkill Hpoll Hexecute Hports Hmessage Htimer Haction.
  intros Hcl. unfold inner_execute. apply tr_bind; [step|]. intros c. destruct (c_mutex_poisoned c); [step|].
  destruct (c_blocking c); [apply tr_resume_blocked|]. apply tr_bind; [apply Hcl|]. intros k.
  apply tr_bind; [step|]. intros c1. destruct (negb _); [step|].
  apply tr_bind; [apply tr_timer_loop|]. intros k1. apply tr_bind; [apply Hmessage|]. intros k2.
  apply tr_bind; [apply tr_port_phase|]. intros k3. step.
Qed.
End Tracks.

Lemma tr_messages Rel Ex (T : tracking Rel Ex) : tracks Rel Ex (call on_kill) → (∀ f, tracks Rel Ex (call (poll f))) →
  (∀ c q, Rel c (upd_msgs (λ _, q) c)) → (∀ m, tracks Rel Ex (call (receive m))) →
  ∀ rem k, tracks Rel Ex (message_loop rem k).
Proof.
  intros Hk Hp Hpop Hr rem. induction rem as [|rem IH]; intros k; cbn [message_loop]; [by apply tr_ret|].
  apply tr_bind; [done|by apply tr_get|]. intros c. destruct (c_msgs c) as [|m q]; [by apply tr_ret|].
  apply tr_bind; [done|by apply tr_modify|]. intros _.
  apply tr_bind; [done|by apply tr_call_handler|]. intros r.
  apply tr_bind; [done|by apply tr_check|]. intros _. apply IH.
Qed.

(** Effects, one by one. *)
Lemma tr_call {A} Rel Ex (T : tracking Rel Ex) (h : CD → call_result A) :
  (∀ c, Rel c (set_def (h (c_def c)).1.1 c)) →
  (∀ c, Forall (λ e, tracks Rel Ex (perform e)) (h (c_def c)).1.2) → tracks Rel Ex (call h).
Proof.
  intros Hd He c. unfold call, get, mbind, m_bind. specialize (Hd c). specialize (He c).
  destruct (h (c_def c)) as [[d es] a]. cbn in *.
  assert (tracks Rel Ex (perform_all es)) as Hes.
  { clear Hd. induction es as [|e es IH]; cbn [perform_all]; [by apply tr_ret|]. apply Forall_cons in He as [??].
    apply tr_bind; [done..|]. intros []. by apply IH. }
  destruct (Hes (set_def d c)) as [H1 H2]. destruct (perform_all es (set_def d c)) as [c' [x|[]]]; cbn in *.
  - split; [by eapply tr_trans|]. intros y [= <-]. by apply H2.
  - split; [by eapply tr_trans|done].
Qed.

(** *** The poison flag and the supervisor *)
Definition kept (c c' : Comp) : Prop :=
  c_mutex_poisoned c' = c_mutex_poisoned c ∧ c_supervised c' = c_supervised c.

Lemma kept_tracking Ex : Ex = (λ _, True) → tracking kept Ex.
Proof. intros ->. split; try done; try (by intros ? []); try (by intros []). intros ??? [??] [??]. split; congruence. Qed.

Lemma enqueue_tracks Rel Ex (T : tracking Rel Ex) push :
  (∀ c, Rel c (push c)) → (∀ c, Rel c (count_schedule c)) → tracks Rel Ex (enqueue push).
Proof.
  intros Hp Hc. unfold enqueue, when. apply tr_bind; [done|by apply tr_on_word|]. intros sd.
  apply tr_bind; [done|by apply tr_modify|]. intros _. destruct (bool_decide _); [by apply tr_modify|by apply tr_ret].
Qed.

Lemma kept_perform Ex e (T : tracking kept Ex) : tracks kept Ex (perform e).
Proof.
  destruct e; cbn [perform]; try (apply enqueue_tracks; [done|by intros []..]); try (apply tr_modify; by intros []).
  apply tr_bind; [done|apply enqueue_tracks; [done|by intros []..]|]. intros _. apply tr_modify. by intros [].
Qed.

Lemma keeps_inner fuel me mm c : kept c (inner_execute fuel me mm c).1.
Proof.
  pose proof (kept_tracking _ eq_refl) as T.
  assert (∀ {A} (h : CD → call_result A), tracks kept (λ _, True) (call h)) as Hcall.
  { intros A h. apply tr_call; [done|by intros []|]. intros c'. apply Forall_forall. intros e _. by apply kept_perform. }
  assert (tracks kept (λ _, True) next_timer) as Hnt.
  { intros c'. unfold next_timer. destruct (try_action _). by destruct c'. }
  apply (tr_inner kept (λ _, True)); auto; try (by intros ? []).
  - intros rem k. apply tr_messages; auto. by intros [].
  - intros k. apply tr_control_loop; auto. by intros [].
Qed.

(** The same for [execute]. *)
Definition rests_or_ends (e : nat) (c : Comp) (o : Outcome) : Prop :=
  match o with
  | Decision d =>
      (∃ f n, terminal f ∧ c_word c = word f n ∧ n ≤ MAX_WORK)
      ∨ at_rest e c
        ∧ match c_blocking c with
          | Some _ => d = Blocked
          | None => d = Schedule ∨ d = Resume ∨ d = NoWork ∧ ∃ f, c_word c = word f 0
          end
  | Unwound => ∃ n, c_word c = word FFaulty n ∧ n ≤ MAX_WORK
  | Aborted => ∃ f, c_word c = word f MAX_WORK
  | Runs_on => True
  end.

Lemma post_rests e d c : c_mutex_poisoned c = false → post e d c → rests_or_ends e c (Decision d).
Proof.
  intros Hp [(f & n & Ht & Hw & Hn)|[(f & Hf & Hi & Hd)|(b & Hb & Hi & ->)]].
  - left. by exists f, n.
  - right. pose proof (proj1 Hi) as Hcb. unfold at_rest. rewrite Hcb. split_and!; [done| |naive_solver].
    exists f. split; [done|]. by destruct Hf as [-> | ->].
  - right. pose proof (proj1 Hi) as Hcb. split; [|by destruct (c_blocking c) as [[]|]; simplify_eq].
    split; [done|]. exists FBlocking. rewrite Hcb. done.
Qed.

(** What telling of a fault [k] does: [out] is how it ends. *)
Definition fault_told (k : FaultKind F) (c c' : Comp) (out : Exit + ()) : Prop :=
  if c_supervised c then
    c_system_poisoned c' = c_system_poisoned c ∧
    match c_recovery c with
    | Some recovery_function =>
        match recovery_function k with
        | Some handler => out = inr () ∧ c_sent c' = c_sent c ++ [SFaulty k handler] ∧ c_recovery c' = Some default_recovery_function
        | None => out = inl Unwind ∧ c_sent c' = c_sent c ∧ c_recovery c' = None
        end
    | None => out = inr () ∧ c_sent c' = c_sent c ∧ c_recovery c' = None
    end
  else out = inr () ∧ c_sent c' = c_sent c ∧ c_system_poisoned c' = true.

(** Marking a component as faulty after a panic. *)
Lemma escalate_spec k c : valid_word c → ∃ c' out, escalate k c = (c', out)
  ∧ (∃ n, c_word c' = word FFaulty n ∧ n ≤ MAX_WORK) ∧ fault_told k c c' out.
Proof.
  intros (f & n & Hw & Hn). exists (escalate k c).1, (escalate k c).2. split; [by destruct (escalate k c)|].
  assert (set_faulty (c_word c) = word FFaulty n) as Hf.
  { unfold set_faulty. change FAULTY with (flag_bits FFaulty). by rewrite Hw, set_state_word. }
  unfold escalate, fault_told, get, modify, to_supervisor, exit, mbind, m_bind, mret, m_ret.
  destruct c as [w ????????[recover|] [|] ????]; cbn in *; rewrite ?Hf;
    try (destruct (recover k) eqn:Hr; cbn; rewrite ?Hf); split; try done; by exists n.
Qed.

Lemma told_outcome k c c' out : fault_told k c c' out → out = inr () ∨ out = inl Unwind.
Proof.
  unfold fault_told. destruct (c_supervised c); [|intros (-> & _); by left].
  destruct (c_recovery c) as [r|]; [destruct (r k)|]; intros (_ & -> & _); auto.
Qed.

Lemma execute_rests fuel me mm e c c' o : at_rest e c → execute fuel me mm c = (c', o) → rests_or_ends e c' o.
Proof using Hok.
  intros Hr He. pose proof Hr as (Hp & f & Hi & Hb). pose proof Hi as (_ & x & Hw & Hm & _).
  unfold execute in He. rewrite Hw, from_current_word in He by done.
  pose proof (inner_execute_inv fuel me mm e c Hr) as Hin. pose proof (keeps_inner fuel me mm c) as [Hk _].
  destruct (inner_execute fuel me mm c) as [c1 [[d| | |]|d]] eqn:Hie; cbn in Hk, Hin.
  - destruct f; try done; injection He as <- <-; (apply post_rests; [congruence|done]).
  - destruct (escalate_spec FaultPanic (poison_mutex c1)) as (c2 & out & Hes & (n & Hw2 & Hn2) & Hto).
    { destruct Hin as (f1 & n1 & ? & ?). exists f1, n1. by destruct c1. }
    assert ((_ ← modify poison_mutex; escalate FaultPanic) c1 = (c2, out)) as Hb2 by exact Hes.
    rewrite Hb2 in He. apply told_outcome in Hto as [-> | ->];
      (destruct f; try done); injection He as <- <-; [left; exists FFaulty, n; (split; [by right|done])..|by exists n|by exists n|by exists n].
  - destruct f; try done; by injection He as <- <-.
  - destruct f; try done; by injection He as <- <-.
  - destruct f; try done; injection He as <- <-; (apply post_rests; [congruence|done]).
Qed.


(** *** Termination *)
Definition no_control (es : list (Effect Msg Act Fut)) : Prop :=
  Forall (λ e, match e with EControl _ | ESpawn _ _ => False | _ => True end) es.

(** Handlers of control events that enqueue no further ones. *)
Definition control_quiet : Prop :=
  (∀ d, no_control (on_start d).1.2 ∧ no_control (on_stop d).1.2 ∧ no_control (on_kill d).1.2)
  ∧ ∀ f d, no_control (poll f d).1.2.

Definition fewer_controls (c c' : Comp) : Prop := length (c_ctrl c') ≤ length (c_ctrl c).
Definition ends (x : Exit) : Prop := x ≠ NoFuel.

Lemma fewer_tracking : tracking fewer_controls ends.
Proof.
  split; unfold fewer_controls, ends; try done;
    first [intros; lia | intros ? []; cbn; lia | intros []; cbn; lia].
Qed.

Lemma fewer_call {A} (h : CD → call_result A) : (∀ d, no_control (h d).1.2) → tracks fewer_controls ends (call h).
Proof.
  intros Hh. pose proof fewer_tracking as T. unfold fewer_controls in *. apply tr_call; [done|intros []; cbn; lia|]. intros c.
  eapply Forall_impl; [apply Hh|]. intros e He. destruct e; try done; cbn [perform];
    try (apply enqueue_tracks; [done|intros []; cbn; lia..]); apply tr_modify; intros []; cbn; lia.
Qed.

Lemma control_loop_ends : control_quiet → ∀ fuel k c, length (c_ctrl c) < fuel → (control_loop fuel k c).2 ≠ inl NoFuel.
Proof.
  intros [Hq Hp] fuel. pose proof fewer_tracking as T. induction fuel as [|fuel IH]; intros k c Hl; [lia|].
  cbn [control_loop]. unfold get, mbind at 1, m_bind at 1. destruct (c_ctrl c) as [|ev q] eqn:Hc; [done|].
  unfold modify, mbind at 1, m_bind at 1.
  assert (∀ d, no_control (on_kill d).1.2) as Hk by (intros d; by destruct (Hq d) as (_ & _ & ?)).
  assert (tracks fewer_controls ends (start_control ev)) as Hs.
  { apply tr_start_control; try done; try (intros; apply fewer_call; auto);
      intros; destruct (Hq d) as (? & ? & ?); auto. }
  unfold mbind at 1, m_bind at 1. destruct (Hs (upd_ctrl (λ _, q) c)) as [H1 H2].
  destruct (start_control ev _) as [c1 [x|r]]; cbn in H1, H2; [intros [= ->]; by apply (H2 NoFuel)|].
  assert (tracks fewer_controls ends (handle_control (S k) ev r)) as Hh.
  { apply tr_handle_control; try done; intros; apply fewer_call; auto. }
  unfold mbind at 1, m_bind at 1. destruct (Hh c1) as [H3 H4].
  destruct (handle_control (S k) ev r c1) as [c2 [x|[]]]; cbn in H3, H4; [intros [= ->]; by apply (H4 NoFuel)|].
  apply IH. unfold fewer_controls in *. destruct c. cbn in *. subst. cbn in Hl. lia.
Qed.

Lemma any_tracking : tracking (λ _ _, True) ends.
Proof. split; done. Qed.

Lemma any_call {A} (h : CD → call_result A) : tracks (λ _ _, True) ends (call h).
Proof.
  pose proof any_tracking as T. apply tr_call; [done..|]. intros c. apply Forall_forall. intros e _.
  assert (∀ push, tracks (λ _ _, True) ends (enqueue push)) as He by (intros; by apply enqueue_tracks).
  destruct e; cbn [perform]; try apply He; try (by apply tr_modify).
  apply tr_bind; [done|apply He|]. intros _. by apply tr_modify.
Qed.

Lemma inner_execute_ends fuel me mm c : control_quiet → length (c_ctrl c) < fuel →
  (inner_execute fuel me mm c).2 ≠ inl NoFuel.
Proof.
  intros Hq Hl. pose proof any_tracking as T. unfold inner_execute, get, mbind at 1, m_bind at 1.
  destruct (c_mutex_poisoned c); [done|].
  assert (∀ {A} (m : M A) c, tracks (λ _ _, True) ends m → (m c).2 ≠ inl NoFuel) as Hends.
  { intros A m c' Hm Hx. destruct (Hm c') as [_ H2]. by apply (H2 NoFuel). }
  assert (tracks (λ _ _, True) ends next_timer) as Hnt by (intros c'; unfold next_timer; by destruct (try_action _)).
  destruct (c_blocking c).
  { apply Hends. apply tr_resume_blocked; auto using any_call. }
  unfold mbind at 1, m_bind at 1. pose proof (control_loop_ends Hq fuel 0 c Hl) as Hcl.
  destruct (control_loop fuel 0 c) as [c1 [x|k]]; [intros [= ->]; by apply Hcl|].
  cut (tracks (λ _ _, True) ends (c ← get; if negb (is_active (c_word c)) then decrement k
      else count ← timer_loop (me - k) k; count ← message_loop (mm - count) count;
           count ← port_phase me count; decrement count)); [apply Hends|].
  assert (∀ rem k, tracks (λ _ _, True) ends (message_loop rem k)) as Hm by (apply tr_messages; auto using any_call).
  apply tr_bind; [done|by apply tr_get|]. intros c'. destruct (negb _); [by apply tr_on_word|].
  apply tr_bind; [done|apply tr_timer_loop; auto using any_call|]. intros k1.
  apply tr_bind; [done|auto|]. intros k2. apply tr_bind; [done|apply tr_port_phase; auto using any_call|].
  intros k3. by apply tr_on_word.
Qed.

Lemma execute_returns_lemma fuel me mm c : control_quiet → length (c_ctrl c) < fuel →
  (execute fuel me mm c).2 ≠ Runs_on.
Proof.
  intros Hq Hl. pose proof (inner_execute_ends fuel me mm c Hq Hl) as Hi. unfold execute.
  destruct (from_current (c_word c)) as [[| | | |]|[]|]; try done;
    (destruct (inner_execute fuel me mm c) as [c1 [[d| | |]|d]]; try done;
     by destruct ((_ ← modify poison_mutex; escalate FaultPanic) c1) as [? [[]|]]).
Qed.

(** The recovery function stays what it was, or is one that does not panic, or its mutex
    is poisoned. *)
Definition recovery_kept (c c' : Comp) : Prop :=
  c_recovery c' = c_recovery c ∨ ∀ f k, c_recovery c' = Some f → f k ≠ None.

Lemma recovery_tracking : tracking recovery_kept (λ _, True).
Proof.
  split; unfold recovery_kept; try done; try (by intros ? []; left); try (by intros []; left); try (by left).
  - intros c1 c2 c3 H1 H2. destruct H2 as [-> |]; [done|by right].
  - intros r c Hr. right. intros f k. destruct c. cbn. intros Hf. by apply (Hr f k).
Qed.

Lemma recovery_inner fuel me mm : tracks recovery_kept (λ _, True) (inner_execute fuel me mm).
Proof.
  pose proof recovery_tracking as T.
  assert (∀ g, (∀ c, c_recovery (g c) = c_recovery c) → tracks recovery_kept (λ _, True) (modify g)) as Hg.
  { intros g Hg. apply tr_modify. intros c. left. apply Hg. }
  assert (∀ push, (∀ c, c_recovery (push c) = c_recovery c) → tracks recovery_kept (λ _, True) (enqueue push)) as He.
  { intros push Hp. apply enqueue_tracks; [done|intros c; left; apply Hp|by intros []; left]. }
  assert (∀ {A} (h : CD → call_result A), tracks recovery_kept (λ _, True) (call h)) as Hcall.
  { intros A h. apply tr_call; [done|by intros []; left|]. intros c. apply Forall_forall. intros e _.
    destruct e; cbn [perform]; try (by apply He; intros []); try (by apply Hg; intros []).
    apply tr_bind; [done|by apply He; intros []|]. intros _. by apply Hg; intros []. }
  assert (tracks recovery_kept (λ _, True) next_timer) as Hnt.
  { intros c'. unfold next_timer. destruct (try_action _). split; [|done]. left. by destruct c'. }
  apply (tr_inner recovery_kept (λ _, True)); auto; try (by intros ? []; left).
  - intros rem k. apply tr_messages; auto. by intros []; left.
  - intros k. apply tr_control_loop; auto. by intros []; left.
Qed.

(** A panic leaves [execute] only when the recovery function panics. *)
Lemma unwound_at_rest fuel me mm e c c' : at_rest e c →
  execute fuel me mm c = (c', Unwound) → ∃ r, c_recovery c = Some r ∧ r FaultPanic = None.
Proof using Hok.
  intros Hr He. pose proof (recovery_inner fuel me mm c) as [Hk _].
  pose proof (inner_execute_inv fuel me mm e c Hr) as Hho. unfold execute in He.
  assert (∀ c1, recovery_kept c c1 → valid_word c1 →
    match (_ ← modify poison_mutex; escalate FaultPanic) c1 with
    | (c2, inr _) => (c2, Decision NoWork) | (c2, inl Unwind) => (c2, Unwound) | (c2, inl _) => (c2, Aborted) end = (c', Unwound) →
    ∃ r, c_recovery c = Some r ∧ r FaultPanic = None) as Hgo.
  { intros c1 Hk1 (f & n & Hw & Hn) Hc1. destruct (escalate_spec FaultPanic (poison_mutex c1)) as (c2 & out & Hes & _ & Hto).
    { exists f, n. by destruct c1. }
    change ((_ ← modify poison_mutex; escalate FaultPanic) c1) with (escalate FaultPanic (poison_mutex c1)) in Hc1. rewrite Hes in Hc1.
    unfold fault_told in Hto. destruct c1 as [w ????????[recover|] [|] ????]; cbn in *; try (destruct Hto as (? & -> & ?) || destruct Hto as (-> & ?); done).
    destruct (recover FaultPanic) eqn:Hrf; [destruct Hto as (_ & -> & _); done|].
    destruct Hk1 as [Hk1|Hk1]; cbn in Hk1; [by exists recover|by destruct (Hk1 recover FaultPanic)]. }
  destruct (from_current (c_word c)) as [[| | | |]|[]|]; try done;
    (destruct (inner_execute fuel me mm c) as [c1 [[d| | |]|d]]; try done; by eapply Hgo).
Qed.

(** *** Messages *)
Context (log : CD → list Msg).

(** A definition that records the messages it receives. *)
Definition records : Prop :=
  (∀ d, log (on_start d).1.1 = log d ∧ log (on_stop d).1.1 = log d ∧ log (on_kill d).1.1 = log d)
  ∧ (∀ m d, log (receive m d).1.1 = log d ++ [m]) ∧ (∀ a i d, log (run_action a i d).1.1 = log d)
  ∧ (∀ f d, log (poll f d).1.1 = log d) ∧ (∀ n s p d, log (execute_ports n s p d).1.1 = log d).

(** Between two states, [handled] was taken off the queue and received, in order,
    and some messages arrived. *)
Definition delivered (handled : list Msg) (c c' : Comp) : Prop :=
  (∃ arrived, c_msgs c ++ arrived = handled ++ c_msgs c') ∧ log (c_def c') = log (c_def c) ++ handled.

Lemma delivered_trans h1 h2 c1 c2 c3 : delivered h1 c1 c2 → delivered h2 c2 c3 → delivered (h1 ++ h2) c1 c3.
Proof.
  intros [[a1 H1] L1] [[a2 H2] L2]. split.
  - exists (a1 ++ a2). by rewrite app_assoc, H1, <-!app_assoc, H2.
  - by rewrite L2, L1, app_assoc.
Qed.

Lemma delivered_refl c c' : c_msgs c' = c_msgs c → log (c_def c') = log (c_def c) → delivered [] c c'.
Proof. intros Hm Hl. split; [exists []; by rewrite app_nil_r, Hm|by rewrite app_nil_r, Hl]. Qed.

Abbreviation silent m := (tracks (delivered []) (λ _, True) m).

Lemma delivered_tracking : tracking (delivered []) (λ _, True).
Proof.
  split; try done; try (intros; by apply delivered_refl); try (by intros ? []; apply delivered_refl); try (by intros []; apply delivered_refl).
  - intros c1 c2 c3 H1 H2. exact (delivered_trans [] [] _ _ _ H1 H2).
  - intros m [] _. by apply delivered_refl.
  - intros r [] _. by apply delivered_refl.
Qed.

Lemma silent_perform e : silent (perform e).
Proof.
  pose proof delivered_tracking as T.
  destruct e; cbn [perform]; try (apply enqueue_tracks; [done|by intros []; apply delivered_refl..]);
    try (apply tr_modify; by intros []; apply delivered_refl).
  - apply enqueue_tracks; [done| |by intros []; apply delivered_refl].
    intros []. split; [by eexists|]. cbn. by rewrite app_nil_r.
  - apply tr_bind; [done|apply enqueue_tracks; [done|by intros []; apply delivered_refl..]|]. intros _.
    apply tr_modify. by intros []; apply delivered_refl.
Qed.

Lemma silent_call {A} (h : CD → call_result A) : (∀ d, log (h d).1.1 = log d) → silent (call h).
Proof.
  intros Hh. apply tr_call; [apply delivered_tracking| |].
  - intros []. apply delivered_refl; [done|]. apply Hh.
  - intros c. apply Forall_forall. intros e _. apply silent_perform.
Qed.

Definition delivers {A} (n : nat) (m : M A) : Prop := ∀ c, ∃ h, delivered h c (m c).1 ∧ length h ≤ n.

Lemma silent_delivers {A} n (m : M A) : silent m → delivers n m.
Proof. intros Hm c. exists []. split; [apply Hm|cbn; lia]. Qed.

Lemma silent_bind_delivers {A B} n (m : M A) (f : A → M B) : silent m → (∀ a, delivers n (f a)) → delivers n (m ≫= f).
Proof.
  intros Hm Hf c. unfold mbind, m_bind. destruct (Hm c) as [H1 _]. destruct (m c) as [c1 [x|a]]; cbn in *.
  - exists []. split; [done|cbn; lia].
  - destruct (Hf a c1) as (h & H2 & H3). exists h. split; [|done]. exact (delivered_trans [] h _ _ _ H1 H2).
Qed.

Context (Hrec : records).

Lemma silent_kill : silent (call on_kill).
Proof using Hrec. destruct Hrec as (H1 & _). apply silent_call. intros d. by destruct (H1 d) as (_ & _ & ?). Qed.
Lemma silent_poll f : silent (call (poll f)).
Proof using Hrec. destruct Hrec as (_ & _ & _ & H4 & _). apply silent_call. apply H4. Qed.

(** [message_loop] handles a prefix of the queue and counts it. *)
Lemma message_loop_delivers rem k c :
  match message_loop rem k c with
  | (c', r) => ∃ h, delivered h c c' ∧ length h ≤ rem ∧ ∀ k', r = inr k' → k' = k + length h
  end.
Proof using Hrec.
  pose proof delivered_tracking as T. revert k c. induction rem as [|rem IH]; intros k c; cbn [message_loop].
  { exists []. split_and!; [by apply delivered_refl|done|]. intros k' Hk'. injection Hk' as <-. cbn. lia. }
  unfold get, mbind at 1, m_bind at 1. destruct (c_msgs c) as [|m q] eqn:Hq.
  { exists []. split_and!; [by apply delivered_refl|cbn; lia|]. intros k' Hk'. injection Hk' as <-. cbn. lia. }
  unfold modify, mbind at 1, m_bind at 1. unfold mbind at 1, m_bind at 1.
  assert (∃ arrived, c_msgs (call_handler (receive m) (upd_msgs (λ _, q) c)).1 = q ++ arrived
    ∧ log (c_def (call_handler (receive m) (upd_msgs (λ _, q) c)).1) = log (c_def c) ++ [m]) as (arr & Ha & Hl).
  { destruct Hrec as (_ & Hr & _). unfold call_handler, call, get, modify, mbind, m_bind.
    replace (c_def (upd_msgs (λ _, q) c)) with (c_def c) by (by destruct c).
    specialize (Hr m (c_def c)). destruct (receive m (c_def c)) as [[d es] r]. cbn in Hr |- *.
    assert (silent (perform_all es)) as Hes.
    { clear Hr. induction es as [|e es IHes]; cbn [perform_all]; [by apply tr_ret|].
      apply tr_bind; [done|apply silent_perform|]. by intros []. }
    destruct (Hes (set_def d (upd_msgs (λ _, q) c))) as [[[arr Ha] Hl] _].
    rewrite app_nil_r in Hl. replace (c_def (set_def d (upd_msgs (λ _, q) c))) with d in Hl by (by destruct c).
    replace (c_msgs (set_def d (upd_msgs (λ _, q) c))) with q in Ha by (by destruct c).
    exists arr. destruct (perform_all es _) as [c1 [x|[]]]; cbn in Ha, Hl |- *.
    - split; [done|congruence].
    - destruct r; cbn; (split; [done|congruence]). }
  destruct (call_handler (receive m) (upd_msgs (λ _, q) c)) as [c1 [x|r]]; cbn in Ha, Hl.
  { exists [m]. split_and!; [|cbn; lia|done]. split; [|done]. exists arr. cbn. by rewrite Hq, Ha. }
  assert (delivered [m] c c1) as D1. { split; [|done]. exists arr. by rewrite Hq, Ha. }
  assert (silent (check_and_handle_blocking (S k) r)) as Hc by (apply tr_check; auto using silent_kill, silent_poll).
  unfold mbind at 1, m_bind at 1. destruct (Hc c1) as [D2 _].
  destruct (check_and_handle_blocking (S k) r c1) as [c2 [x|[]]]; cbn in D2.
  { exists [m]. split_and!; [exact (delivered_trans [m] [] _ _ _ D1 D2)|cbn; lia|done]. }
  specialize (IH (S k) c2). destruct (message_loop rem (S k) c2) as [c3 r3]. destruct IH as (h & D3 & Hlen & Hk).
  exists (m :: h). split_and!; [|cbn; lia|].
  - exact (delivered_trans [m] h _ _ _ (delivered_trans [m] [] _ _ _ D1 D2) D3).
  - intros k' Hk'. rewrite (Hk k' Hk'). cbn. lia.
Qed.

Lemma port_phase_delivers me k : delivers (me - k) (port_phase me k).
Proof using Hrec.
  pose proof delivered_tracking as T. pose proof Hrec as (_ & _ & _ & _ & He). unfold port_phase.
  case_decide; [|by apply silent_delivers, tr_ret]. apply silent_bind_delivers.
  { apply tr_run_ports; [done|intros; apply silent_call; apply He|by intros ? []; apply delivered_refl]. }
  intros r. destruct (er_shutdown r).
  { apply silent_delivers, tr_returning, tr_shutdown; auto using silent_kill. }
  apply silent_bind_delivers.
  { destruct (er_error r); [by apply tr_stop|by apply tr_ret]. }
  intros _. apply silent_bind_delivers.
  { destruct (er_blocking r); [apply tr_run_blocking; auto using silent_kill, silent_poll|by apply tr_ret]. }
  intros _ c. pose proof (message_loop_delivers (me - (k + er_count r)) (k + er_count r) c) as Hm.
  destruct (message_loop _ _ c) as [c1 r1]. destruct Hm as (h & D & Hl & _). exists h. split; [done|lia].
Qed.

Lemma inner_execute_delivers fuel me mm : delivers (me `max` mm) (inner_execute fuel me mm).
Proof using Hrec.
  pose proof delivered_tracking as T. pose proof Hrec as (Hc & _ & Ha & _).
  unfold inner_execute. apply silent_bind_delivers; [by apply tr_get|]. intros c.
  destruct (c_mutex_poisoned c); [by apply silent_delivers, tr_exit|].
  destruct (c_blocking c); [apply silent_delivers, tr_resume_blocked; auto using silent_kill, silent_poll|].
  apply silent_bind_delivers.
  { apply tr_control_loop; auto using silent_kill, silent_poll.
    - apply silent_call. intros d. by destruct (Hc d).
    - apply silent_call. intros d. by destruct (Hc d) as (_ & ? & _).
    - intros [] ?. by apply delivered_refl. }
  intros k. apply silent_bind_delivers; [by apply tr_get|]. intros c1.
  destruct (negb _); [by apply silent_delivers, tr_on_word|]. apply silent_bind_delivers.
  { apply tr_timer_loop; auto using silent_kill, silent_poll.
    - intros c'. unfold next_timer. destruct (try_action _). cbn. split; [|done]. destruct c'. by apply delivered_refl.
    - intros a i. apply silent_call. apply Ha. }
  intros k1 c2. unfold mbind at 1, m_bind at 1.
  pose proof (message_loop_delivers (mm - k1) k1 c2) as Hml.
  destruct (message_loop (mm - k1) k1 c2) as [c3 [x|k2]]; destruct Hml as (h1 & D1 & L1 & K1); cbn in *; [exists h1; split; [done|lia]|].
  specialize (K1 k2 eq_refl). unfold mbind at 1, m_bind at 1.
  destruct (port_phase_delivers me k2 c3) as (h2 & D2 & L2). exists (h1 ++ h2). rewrite length_app. split; [|lia].
  destruct (port_phase me k2 c3) as [c4 [x|k3]]; cbn in *; [exact (delivered_trans _ _ _ _ _ D1 D2)|].
  assert (silent (decrement k3)) as Hd by (by apply tr_on_word). destruct (Hd c4) as [D3 _].
  rewrite <-(app_nil_r h2). exact (delivered_trans _ _ _ _ _ D1 (delivered_trans _ _ _ _ _ D2 D3)).
Qed.

Lemma execute_delivers fuel me mm c : ∃ h, delivered h c (execute fuel me mm c).1 ∧ length h ≤ me `max` mm.
Proof using Hrec.
  destruct (inner_execute_delivers fuel me mm c) as (h & D & L). unfold execute.
  assert (∃ h, delivered h c c ∧ length h ≤ me `max` mm) as H0 by (exists []; split; [by apply delivered_refl|cbn; lia]).
  destruct (from_current (c_word c)) as [[| | | |]|[]|]; try done;
    (destruct (inner_execute fuel me mm c) as [c1 [[d| | |]|d]]; cbn in D; try (by exists h));
    (assert (tracks (delivered []) (λ _, True) (_ ← modify poison_mutex; escalate FaultPanic)) as He
      by (pose proof delivered_tracking as T; apply tr_bind; [done|apply tr_modify; by intros []; apply delivered_refl|];
          intros _; exact (tr_escalate _ _ T FaultPanic));
     destruct (He c1) as [D2 _];
     destruct ((_ ← modify poison_mutex; escalate FaultPanic) c1) as [c2 [[]|[]]]; cbn in *;
     exists h; (split; [|done]); rewrite <-(app_nil_r h); by eapply delivered_trans).
Qed.
End Component.

(** ** Properties *)
Section Properties.
Context {CD Msg Act Fut F R : Type} (ignore : R).
Context {H : @Handlers CD Msg Act Fut F}.

(** C3: Accounting of work over an execution.  From a component whose count covers
    the work in its queues, executing it, whatever its handlers return and
    whatever is enqueued while they run, ends in one of these ways: the component
    is destroyed or faulty; or it is at rest again with the count still covering
    all queued work (exactly, when it gets no timeouts), blocked if and only if
    it waits for a future, and otherwise asks to be scheduled or resumed unless
    nothing at all is left; or the process aborts because the counter is full.
    In particular the count never underflows and queued work is never
    forgotten. *)
Theorem execution_accounts (timeouts : bool) (fuel max_events max_messages e : nat) (c c' : Comp) (o : Outcome) :
  handlers_ok timeouts → at_rest timeouts e c → execute ignore fuel max_events max_messages c = (c', o) →
  rests_or_ends timeouts e c' o.
Proof. intros Hok. by apply execute_rests. Qed.

(** C29: An execution returns: when the handlers of control events and the futures
    enqueue no control events, the loop over the control queue ends within the
    events queued, every other loop within its budget, and the execution gives a
    decision unless the counter is full or a panic makes the component's recovery
    function panic as well, which then leaves [execute]. *)
Theorem execution_returns (timeouts : bool) (fuel max_events max_messages e : nat) (c : Comp) :
  handlers_ok timeouts → at_rest timeouts e c → control_quiet → length (c_ctrl c) < fuel →
  ∃ c', (∃ d, execute ignore fuel max_events max_messages c = (c', Decision d))
    ∨ execute ignore fuel max_events max_messages c = (c', Aborted) ∧ (∃ f, c_word c' = word f MAX_WORK)
    ∨ execute ignore fuel max_events max_messages c = (c', Unwound)
      ∧ ∃ recovery_function, c_recovery c = Some recovery_function ∧ recovery_function FaultPanic = None.
Proof.
  intros Hok Hr Hq Hl. destruct (execute ignore fuel max_events max_messages c) as [c' o] eqn:He. exists c'.
  pose proof (execute_rests ignore timeouts Hok _ _ _ _ _ _ _ Hr He) as Hrest.
  pose proof (execute_returns_lemma ignore fuel max_events max_messages c Hq Hl) as Hn. rewrite He in Hn.
  destruct o; [left; by eexists| |by right; left|done].
  right. right. split; [done|]. by eapply (unwound_at_rest ignore timeouts Hok).
Qed.

(** C17: Messages are received in the order in which they were enqueued, each once:
    over an execution, with any outcome, the messages a component receives are
    taken from the front of its queue, those left and those that arrived
    meanwhile remain queued in order, and it receives no more than the larger of
    the two budgets. *)
Theorem messages_in_order (log : CD → list Msg) (fuel max_events max_messages : nat) (c : Comp) :
  records (F := F) (Act := Act) (Fut := Fut) log →
  let c' := (execute ignore fuel max_events max_messages c).1 in
  ∃ handled arrived, c_msgs c ++ arrived = handled ++ c_msgs c'
    ∧ log (c_def c') = log (c_def c) ++ handled ∧ length handled ≤ max_events `max` max_messages.
Proof.
  intros Hrec c'. destruct (execute_delivers ignore log Hrec fuel max_events max_messages c) as (h & [[a Ha] Hl] & Hlen).
  by exists h, a.
Qed.

(** C33: A panic in any handler or future is contained: the component is marked
    faulty and from then on executing it does nothing.  Without a supervisor the system is
    poisoned.  With one, the supervisor gets one message with the handler that the recovery
    function returns for the fault, and the function is used up; if the recovery function
    panics in turn, that panic leaves [execute], the supervisor is told nothing and the
    mutex of the function is poisoned; and if the mutex had been poisoned before, the
    supervisor is told nothing either. *)
Theorem panic_contained (timeouts : bool) (fuel max_events max_messages e : nat) (c c1 : Comp) :
  handlers_ok timeouts → at_rest timeouts e c →
  inner_execute ignore fuel max_events max_messages c = (c1, inl Unwind) →
  ∃ c' o, execute ignore fuel max_events max_messages c = (c', o)
    ∧ is_faulty (c_word c') = true
    ∧ (if c_supervised c then
         match c_recovery c1 with
         | Some recovery_function =>
             match recovery_function FaultPanic with
             | Some handler => o = Decision NoWork ∧ c_sent c' = c_sent c1 ++ [SFaulty FaultPanic handler]
                 ∧ c_recovery c' = Some (default_recovery_function ignore)
             | None => o = Unwound ∧ c_sent c' = c_sent c1 ∧ c_recovery c' = None
             end
         | None => o = Decision NoWork ∧ c_sent c' = c_sent c1 ∧ c_recovery c' = None
         end
       else o = Decision NoWork ∧ c_sent c' = c_sent c1 ∧ c_system_poisoned c' = true)
    ∧ ∀ fuel' me' mm', execute ignore fuel' me' mm' c' = (c', Decision NoWork).
Proof.
  intros Hok Hr Hi. pose proof Hr as (Hp & f & Hinv & Hb). pose proof Hinv as (_ & x & Hw & Hm & _).
  pose proof (inner_execute_inv ignore timeouts Hok fuel max_events max_messages e c Hr) as Hv.
  pose proof (keeps_inner ignore fuel max_events max_messages c) as [_ Hs]. rewrite Hi in Hv, Hs. cbn in Hv, Hs.
  destruct (escalate_spec ignore FaultPanic (poison_mutex c1)) as (c2 & out & Hes & (n & Hw2 & Hn2) & Hto).
  { destruct Hv as (f1 & n1 & ? & ?). exists f1, n1. by destruct c1. }
  assert ((_ ← modify poison_mutex; escalate ignore FaultPanic) c1 = (c2, out)) as Hb2 by exact Hes.
  exists c2, (if out is inr _ then Decision NoWork else Unwound). split_and!.
  - unfold execute. rewrite Hw, from_current_word, Hi, Hb2 by done.
    destruct (told_outcome _ _ _ _ _ Hto) as [-> | ->]; by destruct f.
  - unfold is_faulty. rewrite Hw2, remove_count_word by done. done.
  - rewrite <-Hs. unfold fault_told in Hto. destruct c1 as [w ????????[recover|] [|] ????]; cbn in Hto |- *;
      try (destruct (recover FaultPanic)); naive_solver.
  - intros. unfold execute. by rewrite Hw2, from_current_word.
Qed.
(** Single steps of an execution that has nothing to do. *)
Lemma bind_step {A B} (m : M A) (f : A → M B) (c c' : @Comp CD Msg Act Fut F R) a :
  m c = (c', inr a) → (m ≫= f) c = f a c'.
Proof. intros Hm. unfold mbind, m_bind. by rewrite Hm. Qed.

Lemma control_loop_nil fu k (c : @Comp CD Msg Act Fut F R) : c_ctrl c = [] → control_loop ignore (S fu) k c = (c, inr k).
Proof. intros Hc. cbn [control_loop]. rewrite (bind_step get _ c c c) by done. by rewrite Hc. Qed.

Lemma timer_loop_none rem k (c : @Comp CD Msg Act Fut F R) t' : try_action (c_timers c) = (t', ANone) →
  timer_loop ignore (S rem) k c = (upd_timers (λ _, t') c, inr k).
Proof.
  intros Ht. cbn [timer_loop]. rewrite (bind_step _ _ c (upd_timers (λ _, t') c) ANone); [done|].
  unfold next_timer. by rewrite Ht.
Qed.

Lemma message_loop_nil rem k (c : @Comp CD Msg Act Fut F R) : c_msgs c = [] → message_loop ignore rem k c = (c, inr k).
Proof.
  intros Hc. destruct rem; [done|]. cbn [message_loop]. rewrite (bind_step get _ c c c) by done. by rewrite Hc.
Qed.

Definition ports_idle : Prop := ∀ n s d, execute_ports n s 0 d = (d, [], Ok (mkExecuteResult None false None 0 s)).

Lemma port_phase_idle me k (c : @Comp CD Msg Act Fut F R) : ports_idle → c_ports c = 0 → c_msgs c = [] →
  port_phase ignore me k c = (c, inr k).
Proof.
  intros Hp H0 Hm. unfold port_phase. case_decide; [|done].
  rewrite (bind_step _ _ c c (mkExecuteResult None false None 0 (c_skip c))).
  - cbn [er_count er_shutdown er_error er_blocking]. rewrite (bind_step _ _ c c ()), (bind_step _ _ c c ()) by done.
    rewrite Nat.add_0_r. by apply message_loop_nil.
  - unfold run_ports. rewrite (bind_step get _ c c c) by done.
    rewrite (bind_step _ _ c c (Ok (mkExecuteResult None false None 0 (c_skip c)))).
    + rewrite (bind_step _ _ c c ()), (bind_step _ _ c c ()), (bind_step _ _ c c ()); [done|..].
      * by destruct c.
      * done.
      * destruct c. cbn in H0. by subst.
    + unfold call. rewrite (bind_step get _ c c c) by done. rewrite H0, Hp. by destruct c.
Qed.

Lemma call_handler_quiet h (c : @Comp CD Msg Act Fut F R) : (∀ d, h d = (d, [], Ok HOk)) →
  call_handler h c = (c, inr (Ok HOk)).
Proof.
  intros Hh. unfold call_handler. rewrite (bind_step _ _ c c (Ok HOk)); [done|].
  unfold call. rewrite (bind_step get _ c c c) by done. rewrite Hh. by destruct c.
Qed.

Lemma control_step fu k ev q (c c1 c2 : @Comp CD Msg Act Fut F R) : c_ctrl c = ev :: q →
  start_control ev (upd_ctrl (λ _, q) c) = (c1, inr (Ok HOk)) → complete_control ev c1 = (c2, inr ()) →
  control_loop ignore (S fu) k c = control_loop ignore fu (S k) c2.
Proof.
  intros Hc Hs Hd. cbn [control_loop]. rewrite (bind_step get _ _ _ _ eq_refl), Hc.
  rewrite (bind_step _ _ _ _ _ eq_refl), (bind_step _ _ _ _ _ Hs). by rewrite (bind_step _ _ _ c2 ()).
Qed.

(** The rest of an execution after the control events, without messages and port events. *)
Lemma idle_pass fu me mm c c1 t' k : c_mutex_poisoned c = false → c_blocking c = None →
  control_loop ignore fu 0 c = (c1, inr k) → is_active (c_word c1) = true → ports_idle → c_ports c1 = 0 → c_msgs c1 = [] →
  (if decide (k < me) then try_action (c_timers c1) = (t', ANone) else t' = c_timers c1) →
  inner_execute ignore fu me mm c = decrement k (upd_timers (λ _, t') c1).
Proof.
  intros Hp Hb Hc Ha Hi H0 Hm Ht. unfold inner_execute. rewrite (bind_step get _ c c c) by done. rewrite Hp, Hb.
  rewrite (bind_step _ _ _ _ _ Hc), (bind_step get _ c1 c1 c1) by done. rewrite Ha. cbn [negb].
  rewrite (bind_step _ _ _ (upd_timers (λ _, t') c1) k).
  - rewrite (bind_step _ _ _ (upd_timers (λ _, t') c1) k), (bind_step _ _ _ (upd_timers (λ _, t') c1) k); [done|..].
    + apply port_phase_idle; [done|by destruct c1..].
    + apply message_loop_nil. by destruct c1.
  - case_decide.
    + replace (me - k) with (S (me - k - 1)) by lia. by apply timer_loop_none.
    + replace (me - k) with 0 by lia. subst t'. by destruct c1.
Qed.

(** A component in which nothing but its word, timers and control queue matters. *)
Definition idle_comp (w : Z) (ctrl : list ControlEvent) (t : TimerManager Act) (d : CD) (r : option (FaultKind F → option R))
    (sent : list (SupervisorMsg F R)) : @Comp CD Msg Act Fut F R :=
  mkComp w ctrl [] 0 t d 0 None ∅ r true sent 0 false false.

(** A timeout that was already queued when its timer was cancelled is taken off
    the queue without being counted as work done.  The count then never returns
    to zero: with all queues empty every further execution leaves the component
    as it is and asks to be scheduled again. *)
Theorem cancelled_timeout_spins (fuel max_events max_messages : nat) (id : Z) (t : TimerManager Act) (d : CD)
    (r : option (FaultKind F → option R)) :
  ports_idle → 0 < max_events → 0 < fuel → timer_queue t = [id] → handles t !! id = None →
  ∃ c1, execute ignore fuel max_events max_messages (idle_comp (word FActive 1) [] t d r []) = (c1, Decision Schedule)
    ∧ c_queued c1 = 0
    ∧ ∀ n, Nat.iter n (λ '(c, _), execute ignore fuel max_events max_messages c) (c1, Decision Schedule)
           = (c1, Decision Schedule).
Proof.
  intros Hp Hme Hf Hq Hh. pose proof MAX_WORK_Z as Hmax.
  set (t' := mkTimers (timer t) [] (delete id (handles t))). set (c1 := idle_comp (word FActive 1) [] t' d r []).
  assert (∀ ti, try_action ti = (t', ANone) →
    execute ignore fuel max_events max_messages (idle_comp (word FActive 1) [] ti d r []) = (c1, Decision Schedule)) as Hrun.
  { intros ti Ht. unfold execute. rewrite (from_current_word FActive 1) by lia. destruct fuel as [|fu]; [lia|].
    set (c0 := idle_comp (word FActive 1) [] ti d r []).
    rewrite (idle_pass (S fu) max_events max_messages c0 c0 t' 0); subst c0;
      [|reflexivity|reflexivity|by apply control_loop_nil| |exact Hp|reflexivity|reflexivity|].
    - unfold decrement, on_word. cbn [c_word idle_comp upd_timers].
      by rewrite (decrement_work_word FActive 1 0) by lia.
    - unfold is_active. cbn [c_word idle_comp]. by rewrite (remove_count_word FActive 1) by lia.
    - by rewrite decide_True. }
  exists c1. split_and!.
  - apply Hrun. unfold try_action. by rewrite Hq, Hh.
  - done.
  - induction n as [|n IH]; [done|]. rewrite Nat.iter_succ, IH. by apply Hrun.
Qed.

(** A killed component is not necessarily dead: when a start event is queued
    behind the kill event, both are handled in one execution; the supervisor is
    told that the component was killed and then that it was started, and the
    component is active again. *)
Theorem killed_component_restarts (fuel max_events max_messages : nat) (t : TimerManager Act) (d : CD)
    (r : option (FaultKind F → option R)) :
  ports_idle → 2 < fuel → timer_queue t = [] →
  (∀ d, on_kill d = (d, [], Ok HOk)) → (∀ d, on_start d = (d, [], Ok HOk)) →
  execute ignore fuel max_events max_messages (idle_comp (word FActive 2) [Kill; Start] t d r [])
  = (idle_comp (word FActive 0) [] t d r [SKilled; SStarted], Decision NoWork).
Proof.
  intros Hp Hf Hq Hk Hs. pose proof MAX_WORK_Z as Hmax.
  unfold execute. rewrite (from_current_word FActive 2) by lia.
  assert (set_active (set_destroyed (set_destroyed (word FActive 2))) = word FActive 2) as Hw.
  { unfold set_active, set_destroyed. change DESTROYED with (flag_bits FDestroyed). change ACTIVE with (flag_bits FActive).
    by rewrite !set_state_word by lia. }
  rewrite (idle_pass fuel max_events max_messages _ (idle_comp (word FActive 2) [] t d r [SKilled; SStarted]) t 2);
    [|reflexivity|reflexivity| | |exact Hp|reflexivity|reflexivity|].
  - unfold decrement, on_word. cbn [c_word idle_comp upd_timers]. by rewrite (decrement_work_word FActive 2 2) by lia.
  - destruct fuel as [|[|[|fu]]]; [lia..|].
    rewrite (control_step _ _ Kill [Start] _ (idle_comp (set_destroyed (word FActive 2)) [Start] t d r [])
      (idle_comp (set_destroyed (set_destroyed (word FActive 2))) [Start] t d r [SKilled]));
      [|reflexivity|exact (call_handler_quiet on_kill _ Hk)|reflexivity].
    rewrite (control_step _ _ Start [] _ (idle_comp (word FActive 2) [] t d r [SKilled])
      (idle_comp (word FActive 2) [] t d r [SKilled; SStarted])); [by apply control_loop_nil|reflexivity| |reflexivity].
    rewrite <-Hw at 2. exact (call_handler_quiet on_start _ Hs).
  - unfold is_active. cbn [c_word idle_comp]. by rewrite (remove_count_word FActive 2) by lia.
  - case_decide; [|done]. unfold try_action. cbn [c_timers idle_comp]. by rewrite Hq.
Qed.
End Properties.

(** ** A concrete component

    It records the messages it receives, panics on 13 and blocks on 7. *)
#[export] Instance example_handlers : @Handlers (list nat) nat () () () := {|
  on_start := λ d, (d, [], Ok HOk);
  on_stop := λ d, (d, [], Ok HOk);
  on_kill := λ d, (d, [], Ok HOk);
  receive := λ m d, (d ++ [m], [], if decide (m = 13) then Panic else if decide (m = 7) then Ok (BlockOn ()) else Ok HOk);
  run_action := λ _ _ d, (d, [], Ok HOk);
  execute_ports := λ _ s _ d, (d, [], Ok (mkExecuteResult None false None 0 s));
  poll := λ _ d, (d, [], Ready (Ok HOk));
|}.

Lemma example_handlers_ok b : handlers_ok b.
Proof.
  assert (∀ {A} (f : list nat → @call_result (list nat) nat () () A), (∀ d, (f d).1.2 = []) → call_ok b f) as Hc.
  { intros A f Hf. right. intros d. rewrite Hf. constructor. }
  split_and!; intros; try (apply Hc; reflexivity).
  all: match goal with Hr : _ = Ok _ |- _ => injection Hr as <- end; cbn; lia.
Qed.

Definition example_comp (msgs : list nat) : @Comp (list nat) nat () () () bool :=
  mkComp (word FActive (length msgs)) [] msgs 0 new_timers [] 0 None ∅ (Some (λ _, Some true)) true [] 0 false false.

Lemma example_at_rest msgs : length msgs ≤ 10 → at_rest false 0 (example_comp msgs).
Proof.
  intros Hl. pose proof MAX_WORK_Z. split; [done|]. exists FActive. split; [|done]. split; [done|]. exists 0.
  unfold c_queued. cbn [c_word c_ctrl c_msgs c_ports c_timers timer_queue example_comp length new_timers].
  split_and!; [f_equal; lia|lia|lia|intros _; split; reflexivity].
Qed.

Lemma execution_accounts_witness :
  let '(c', o) := execute false 1 2 2 (example_comp [1; 2; 3]) in rests_or_ends false 0 c' o.
Proof.
  destruct (execute false 1 2 2 (example_comp [1; 2; 3])) as [c' o] eqn:He.
  apply (execution_accounts false false 1 2 2 0 (example_comp [1; 2; 3]) c' o);
    [apply example_handlers_ok|apply example_at_rest; cbn; lia|exact He].
Defined.

Lemma execution_returns_witness :
  ∃ c', (∃ d, execute false 1 2 2 (example_comp [1; 2; 3]) = (c', Decision d))
    ∨ execute false 1 2 2 (example_comp [1; 2; 3]) = (c', Aborted) ∧ (∃ f, c_word c' = word f MAX_WORK)
    ∨ execute false 1 2 2 (example_comp [1; 2; 3]) = (c', Unwound)
      ∧ ∃ recovery_function, c_recovery (example_comp [1; 2; 3]) = Some recovery_function ∧ recovery_function FaultPanic = None.
Proof.
  apply (execution_returns false false 1 2 2 0 (example_comp [1; 2; 3]));
    [apply example_handlers_ok|apply example_at_rest; cbn; lia| |cbn; lia].
  split; [intros d; split_and!|intros f d]; constructor.
Defined.

Lemma messages_in_order_witness :
  ∃ handled arrived, [1; 2; 3] ++ arrived = handled ++ c_msgs (execute false 1 2 2 (example_comp [1; 2; 3])).1
    ∧ c_def (execute false 1 2 2 (example_comp [1; 2; 3])).1 = handled ∧ length handled ≤ 2.
Proof.
  apply (messages_in_order false (λ d, d) 1 2 2 (example_comp [1; 2; 3])). by repeat split.
Defined.

Lemma panic_contained_witness :
  ∃ c1 c' o, inner_execute false 1 2 2 (example_comp [13]) = (c1, inl Unwind)
    ∧ execute false 1 2 2 (example_comp [13]) = (c', o)
    ∧ o = Decision NoWork ∧ c_sent c' = c_sent c1 ++ [SFaulty FaultPanic true].
Proof.
  eexists. destruct (panic_contained false false 1 2 2 0 (example_comp [13]) _ (example_handlers_ok false)
    ltac:(apply example_at_rest; cbn; lia) eq_refl) as (c' & o & He & _ & (Ho & Hs & _) & _).
  exists c', o. split; [reflexivity|]. exact (conj He (conj Ho Hs)).
Defined.

Lemma cancelled_timeout_spins_witness :
  ∃ c1, execute false 1 1 1 (idle_comp (word FActive 1) [] (cancel_timer 5 (push_timeout 5 (schedule_once 5 10 () new_timers))) []
      (Some (λ _, Some true)) []) = (c1, Decision Schedule)
    ∧ c_queued c1 = 0 ∧ execute false 1 1 1 c1 = (c1, Decision Schedule).
Proof.
  destruct (cancelled_timeout_spins false 1 1 1 5 (cancel_timer 5 (push_timeout 5 (schedule_once 5 10 () new_timers))) []
    (Some (λ _, Some true))) as (c1 & H1 & H2 & H3); [done|lia|lia|done|reflexivity|].
  exists c1. exact (conj H1 (conj H2 (H3 1))).
Defined.

Lemma killed_component_restarts_witness :
  execute false 3 1 1 (idle_comp (word FActive 2) [Kill; Start] new_timers [] (Some (λ _, Some true)) [])
  = (idle_comp (word FActive 0) [] new_timers [] (Some (λ _, Some true)) [SKilled; SStarted], Decision NoWork).
Proof. apply (killed_component_restarts false 3 1 1 new_timers [] (Some (λ _, Some true))); [done|lia|done|done|done]. Defined.
