(* ===== verification/Derive.v ===== *)
(** * Derived component definitions

    Model of the derive macro for component definitions
    ([macros/component-definition-derive/src/lib.rs]) in its two halves.  [Macro] is
    what happens at compile time: the fields of a struct are sorted into ports, the
    context and the rest, the ports into those whose type is unique and those whose
    type is not, and an implementation is generated or the macro panics.  [Generated] is
    the generated [execute], which takes events off the ports in turn; it is what
    [Component] calls through [execute_ports].

    Types are their tokens, as far as the macro looks at them. *)

From S2P Require Import Prelude Lifecycle Scheduling Timers Component.

(** ** Compile time *)

(** Syntax of the [syn] crate, as far as it is inspected. *)
Inductive GenericArgument := GType (ty : string) | GOther.
Inductive PathArguments := ANone_ | AngleBracketed (args : list GenericArgument) | Parenthesized.
Record SynSegment := mkSegment { seg_ident : string; seg_arguments : PathArguments }.
Inductive SynType := TPath (segments : list SynSegment) | TOther.
Record Field := mkField { f_ident : string; f_ty : SynType }.
Inductive Data := DStruct (fields : list Field) | DEnum | DUnion.

Inductive PortField := Required (ty : string) | Provided (ty : string).
Inductive ComponentField := FCtx | FPort (pf : PortField) | FOther.

#[global] Instance PortField_eq_dec : EqDecision PortField.
Proof. solve_decision. Defined.

Definition REQP : string := "RequiredPort".
Definition PROVP : string := "ProvidedPort".
Definition CTX : string := "ComponentContext".
Definition KOMPICS : string := "kompact".

Definition port_type (p : PortField) : string := match p with Provided ty | Required ty => ty end.

(** Panics of a macro are compile errors. *)
Definition extract_port_type (seg : SynSegment) : res Empty_set string :=
  match seg_arguments seg with
  | AngleBracketed args =>
      match head args with
      | Some (GType ty) => Ok ty
      | Some GOther | None => Panic
      end
  | _ => Panic
  end.

Definition port_segment (segments : list SynSegment) : option SynSegment :=
  match segments with
  | [seg] => Some seg
  | [m; seg] => if decide (seg_ident m = KOMPICS) then Some seg else None
  | _ => None
  end.

Definition identify_field (f : Field) : res Empty_set ComponentField :=
  match f_ty f with
  | TPath segments =>
      match port_segment segments with
      | Some seg =>
          if decide (seg_ident seg = REQP) then ty ← extract_port_type seg; Ok (FPort (Required ty))
          else if decide (seg_ident seg = PROVP) then ty ← extract_port_type seg; Ok (FPort (Provided ty))
          else if decide (seg_ident seg = CTX) then Ok FCtx
          else Ok FOther
      | None => Ok FOther
      end
  | TOther => Ok FOther
  end.

Abbreviation PortEntry := (Field * PortField)%type.

(** [for field in fields.iter()]. *)
Fixpoint collect_fields (fields : list Field) (ctx_field : option Field) (ports : list PortEntry)
    : res Empty_set (option Field * list PortEntry) :=
  match fields with
  | [] => Ok (ctx_field, ports)
  | field :: fields =>
      cf ← identify_field field;
      match cf with
      | FCtx => collect_fields fields (Some field) ports
      | FPort pf => collect_fields fields ctx_field (ports ++ [(field, pf)])
      | FOther => collect_fields fields ctx_field ports
      end
  end.

(** The two maps kept for each direction. *)
Record PortMaps := mkPortMaps { unique : gmap string PortEntry; non_unique : gmap string (list PortEntry) }.

Definition add_port (ty : string) (port : PortEntry) (m : PortMaps) : PortMaps :=
  match non_unique m !! ty with
  | Some port_list => mkPortMaps (unique m) (<[ty := port_list ++ [port]]> (non_unique m))
  | None =>
      match unique m !! ty with
      | Some other_entry => mkPortMaps (delete ty (unique m)) (<[ty := [other_entry; port]]> (non_unique m))
      | None => mkPortMaps (<[ty := port]> (unique m)) (non_unique m)
      end
  end.

(** [for port in ports]: (provided, required). *)
Definition sort_port (ms : PortMaps * PortMaps) (port : PortEntry) : PortMaps * PortMaps :=
  match port.2 with
  | Required ty => (ms.1, add_port ty port ms.2)
  | Provided ty => (add_port ty port ms.1, ms.2)
  end.

Definition sort_ports (ports : list PortEntry) : PortMaps * PortMaps :=
  foldl sort_port (mkPortMaps ∅ ∅, mkPortMaps ∅ ∅) ports.

(** What is generated: the context field, the ports in order for [setup] and
    [execute], and the implementations of [ProvideRef], [RequireRef] and
    [DynamicPortAccess]. *)
Record Implementation := mkImpl {
  i_ctx : Field;
  i_ports : list PortEntry;
  i_provided : PortMaps;
  i_required : PortMaps;
}.

Definition impl_component_definition (data : Data) : res Empty_set Implementation :=
  match data with
  | DStruct fields =>
      '(ctx_field, ports) ← collect_fields fields None [];
      match ctx_field with
      | Some f => let ms := sort_ports ports in Ok (mkImpl f ports ms.1 ms.2)
      | None => Panic
      end
  | DEnum | DUnion => Panic
  end.

(** [provided_ref], [connect_to_required] and [disconnect] of the generated
    [ProvideRef<ty>]: the field they act on, an error when they are compiled, or
    no implementation at all. *)
Inductive PortRefImpl := OnField (ident : string) | CompileErrorImpl (idents : list string) | NoImpl.

Definition port_ref_impl (m : PortMaps) (ty : string) : PortRefImpl :=
  match unique m !! ty with
  | Some p => OnField (f_ident p.1)
  | None =>
      match non_unique m !! ty with
      | Some port_entries => CompileErrorImpl ((λ p, f_ident p.1) <$> port_entries)
      | None => NoImpl
      end
  end.

(** [get_provided_port_as_any] and [get_required_port_as_any]: the first arm whose
    type has the id, in the order of the hash map. *)
Section Dynamic.
Context (type_id : string → Z) (order : gmap string PortEntry → list (string * PortEntry)).

Definition get_port_as_any (m : PortMaps) (port_id : Z) : option string :=
  match list_find (λ arm, type_id arm.1 = port_id) (order (unique m)) with
  | Some (_, (_, p)) => Some (f_ident p.1)
  | None => None
  end.
End Dynamic.

(** [#[derive(Actor)]]: an actor that ignores its messages, which are of no type unless
    they come from the network ([macros/actor-derive/src/lib.rs]). *)
Definition impl_actor (data : Data) : res Empty_set () := match data with DStruct _ => Ok () | DEnum | DUnion => Panic end.
Definition derived_receive {CD Msg Act Fut F} (_ : Msg) (d : CD) : call_result (CD := CD) (Msg := Msg) (Act := Act) (Fut := Fut) (HandlerResult F Fut) :=
  (d, [], Ok HOk).

(** ** The generated [execute] *)
Definition execute_result_new {F Fut} (blocking : option Fut) (count skip : nat) : ExecuteResult F Fut :=
  mkExecuteResult blocking false None count skip.
Definition execute_result_shutdown {F Fut} (count skip : nat) : ExecuteResult F Fut :=
  mkExecuteResult None true None count skip.
Definition execute_result_error {F Fut} (error : HandlerError F) (count skip : nat) : ExecuteResult F Fut :=
  mkExecuteResult None false (Some error) count skip.

Section Generated.
Context {User Ev Msg Act Fut F : Type}.

(** [Provide::<ty>::handle] and [Require::<ty>::handle]: user code, which changes the
    component, during which events arrive at ports, and which has other effects. *)
Class PortHandlers :=
  handle : PortField → Ev → User → User * list (nat * Ev) * list (Effect Msg Act Fut) * HandlerResult F Fut.
Context {H : PortHandlers}.

(** The struct: its ports, with the queue of each, and the other fields. *)
Record Definition_ := mkDefinition { user : User; queues : list (list Ev) }.

(** The local variables; [served] lists the ports that events were taken from. *)
Record Exec := mkExec {
  definition : Definition_;
  count : nat;
  done_work : bool;
  effects : list (Effect Msg Act Fut);
  served : list nat;
}.

Inductive Leave := Returned (r : ExecuteResult F Fut) | OutOfFuel.
Abbreviation X := (St Exec Leave).

Definition arrive (qs : list (list Ev)) (arrivals : list (nat * Ev)) : list (list Ev) :=
  foldl (λ qs a, alter (λ q, q ++ [a.2]) a.1 qs) qs arrivals.

Definition return_result (r : ExecuteResult F Fut) : X () := st_lift (Err (Returned r)).

(** [self.#id.dequeue()] and the handler. *)
Definition take_event (i : nat) (q : list Ev) (u : User) (arrivals : list (nat * Ev)) (es : list (Effect Msg Act Fut)) (x : Exec) : Exec :=
  mkExec (mkDefinition u (arrive (<[i := q]> (queues (definition x))) arrivals)) (count x) (done_work x)
    (effects x ++ ((λ _, EPort) <$> arrivals) ++ es) (served x ++ [i]).
Definition count_one (x : Exec) : Exec := mkExec (definition x) (S (count x)) true (effects x) (served x).
Definition set_done_work (b : bool) (x : Exec) : Exec := mkExec (definition x) (count x) b (effects x) (served x).

(** What is generated for port number [i].  Events that other threads enqueue between two checks of ports appear as
    arrivals during the handler that ran before them, or as waiting from the start when none has. *)
Definition port_handle (max_events : nat) (port : nat * PortField) : X () :=
  let '(i, t) := port in
  x ← st_get;
  if decide (max_events ≤ count x) then return_result (execute_result_new None (count x) i)
  else
    match queues (definition x) !! i with
    | Some (event :: q) =>
        let '(u, arrivals, es, res) := handle t event (user (definition x)) in
        _ ← st_modify (take_event i q u arrivals es);
        match res with
        | Panic => st_panic
        | Ok handled =>
            _ ← st_modify count_one;
            match handled with
            | HOk => mret ()
            | BlockOn blocking_future => return_result (execute_result_new (Some blocking_future) (S (count x)) i)
            | Shutdown => return_result (execute_result_shutdown (S (count x)) i)
            end
        | Err error =>
            _ ← st_modify count_one;
            return_result (execute_result_error error (S (count x)) i)
        end
    | _ => mret ()
    end.

(** The ports with their numbers, and those the first pass does not skip. *)
Definition numbered (ports : list PortField) : list (nat * PortField) := imap pair ports.

Definition port_handle_skip (max_events skip : nat) (port : nat * PortField) : X () :=
  st_when (bool_decide (skip ≤ port.1)) (port_handle max_events port).

(** [while done_work]. *)
Fixpoint rounds (fuel max_events : nat) (ports : list PortField) : X () :=
  match fuel with
  | O => st_lift (Err OutOfFuel)
  | S fuel =>
      x ← st_get;
      if done_work x then
        _ ← st_modify (set_done_work false);
        _ ← st_for (numbered ports) (port_handle max_events);
        rounds fuel max_events ports
      else mret ()
  end.

Definition execute_body (ports : list PortField) (max_events skip : nat) : X () :=
  _ ← st_for (numbered ports) (port_handle_skip max_events skip);
  _ ← rounds (max_events + 2) max_events ports;
  x ← st_get;
  return_result (execute_result_new None (count x) 0).

Definition start_exec (d : Definition_) : Exec := mkExec d 0 true [] [].

(** The definition, effects and ports served, and the result: [Err] is a loop that
    does not end. *)
Definition derived_execute (ports : list PortField) (max_events skip : nat) (d : Definition_)
    : Exec * res () (ExecuteResult F Fut) :=
  match ports with
  | [] => (start_exec d, Ok (execute_result_new None 0 0))
  | _ =>
      let '(x, r) := execute_body ports max_events skip (start_exec d) in
      (x, match r with
          | Err (Returned r) => Ok r
          | Err OutOfFuel => Err ()
          | Ok _ => Err ()
          | Panic => Panic
          end)
  end.

(** ** What an execution does *)
Definition events (qs : list (list Ev)) : nat := sum_list (length <$> qs).

(** Events arrive at ports of the component, and are not counted twice. *)
Definition handlers_addressed (n : nat) : Prop := ∀ t e u,
  Forall (λ a, a.1 < n) (handle t e u).1.1.2 ∧ port_arrivals (handle t e u).1.2 = 0.

Lemma arrive_length qs arrivals : length (arrive qs arrivals) = length qs.
Proof. revert qs. induction arrivals as [|a l IH]; intros qs; [done|]. cbn. unfold arrive in IH. by rewrite IH, length_alter. Qed.

Lemma events_alter (f : list Ev → list Ev) k qs i q : qs !! i = Some q → length (f q) = k + length q →
  events (alter f i qs) = k + events qs.
Proof.
  unfold events. revert i. induction qs as [|q' qs IH]; intros i Hi Hf; [done|]. destruct i as [|i]; cbn in *.
  - injection Hi as ->. lia.
  - rewrite (IH i) by done. lia.
Qed.

Lemma events_insert qs i e (q : list Ev) : qs !! i = Some (e :: q) → S (events (<[i := q]> qs)) = events qs.
Proof.
  unfold events. revert i. induction qs as [|q' qs IH]; intros i Hi; [done|]. destruct i as [|i]; cbn in *; [injection Hi as ->; cbn; lia|].
  specialize (IH i Hi). apply (f_equal (Nat.add (length q'))) in IH. rewrite Nat.add_succ_r in IH. exact IH.
Qed.

Lemma arrive_events n qs arrivals : length qs = n → Forall (λ a, a.1 < n) arrivals →
  events (arrive qs arrivals) = length arrivals + events qs.
Proof.
  intros Hn Ha. revert qs Hn. induction Ha as [|[i e] l Hi _ IH]; intros qs Hn; [done|]. cbn in Hi.
  change (events (arrive (alter (λ q, q ++ [e]) i qs) l) = S (length l) + events qs). rewrite IH by (by rewrite length_alter). destruct (lookup_lt_is_Some_2 qs i) as [q Hq]; [lia|].
  rewrite (events_alter _ 1 _ _ q); [lia|done|]. rewrite length_app. cbn. lia.
Qed.

Lemma port_arrivals_app (es es' : list (Effect Msg Act Fut)) : port_arrivals (es ++ es') = port_arrivals es + port_arrivals es'.
Proof. unfold port_arrivals. induction es as [|e es IH]; [done|]. cbn. rewrite IH. by destruct e. Qed.

Lemma port_arrivals_ports {A} (l : list A) : port_arrivals ((λ _, EPort) <$> l : list (Effect Msg Act Fut)) = length l.
Proof. induction l as [|a l IH]; [done|]. cbn. by f_equal. Qed.

(** Triples for code that can leave early. *)
Definition triple {A} (P : Exec → Prop) (m : X A) (Q : A → Exec → Prop) (L : Leave → Exec → Prop) : Prop :=
  ∀ x, P x → match m x with (x', Ok a) => Q a x' | (x', Err e) => L e x' | (_, Panic) => True end.

Lemma x_triple_bind {A A'} P (m : X A) (f : A → X A') Q Q' L :
  triple P m Q L → (∀ a, triple (Q a) (f a) Q' L) → triple P (m ≫= f) Q' L.
Proof.
  intros Hm Hf x Hx. specialize (Hm x Hx). unfold mbind, st_bind. destruct (m x) as [x' [a|e|]]; [by apply Hf|done|done].
Qed.

Lemma triple_for {A} I (f : A → X ()) L l :
  (∀ a, a ∈ l → triple I (f a) (λ _, I) L) → triple I (st_for l f) (λ _, I) L.
Proof.
  induction l as [|a l IH]; intros Hf; [by intros x Hx|]. cbn [st_for]. eapply x_triple_bind; [apply Hf; by left|].
  intros []. apply IH. intros a' Ha'. apply Hf. by right.
Qed.

Section Run.
Context (ports : list PortField) (max_events : nat) (d0 : Definition_).
Hypothesis addressed : handlers_addressed (length ports).

(** Every event that was taken is counted. *)
Definition exec_ok (x : Exec) : Prop :=
  length (queues (definition x)) = length ports
  ∧ events (queues (definition x)) + count x = events (queues d0) + port_arrivals (effects x)
  ∧ count x = length (served x) ∧ count x ≤ max_events ∧ Forall (λ i, i < length ports) (served x).

(** A handler ended the execution. *)
Definition stopped (r : ExecuteResult F Fut) : Prop := er_blocking r ≠ None ∨ er_shutdown r = true ∨ er_error r ≠ None.

Definition exec_left (e : Leave) (x : Exec) : Prop :=
  match e with
  | Returned r => exec_ok x ∧ er_count r = count x ∧ er_skip r < length ports
      ∧ (stopped r ∨ count x = max_events ∨ events (queues (definition x)) = 0)
  | OutOfFuel => False
  end.

Lemma take_ok i e q x t : exec_ok x → count x < max_events → i < length ports →
  queues (definition x) !! i = Some (e :: q) →
  let '(u, arrivals, es, res) := handle t e (user (definition x)) in exec_ok (count_one (take_event i q u arrivals es x)).
Proof using addressed.
  intros (Hl & He & Hc & Hm & Hs) Hlt Hi Hq. destruct (addressed t e (user (definition x))) as [Ha Hes].
  destruct (handle t e (user (definition x))) as [[[u arrivals] es] res]. cbn -[port_arrivals] in Ha, Hes. unfold exec_ok. cbn -[arrive events port_arrivals].
  rewrite arrive_length, length_insert. split_and!; [done| |rewrite length_app; cbn; lia|lia|].
  - rewrite (arrive_events (length ports)) by (by rewrite ?length_insert).
    rewrite !port_arrivals_app, port_arrivals_ports, Hes. apply events_insert in Hq. lia.
  - rewrite Forall_app. split; [done|]. by constructor.
Qed.

(** One port: what was taken, if anything was. *)
Lemma port_handle_ok i t : i < length ports → triple exec_ok (port_handle max_events (i, t)) (λ _, exec_ok) exec_left.
Proof using addressed.
  intros Hi x Hx. unfold port_handle. unfold mbind, st_bind, st_get, st_modify, st_lift, return_result, st_panic, st_lift, mret, st_ret. cbn.
  case_decide as Hmax.
  { cbn. split; [done|]. split_and!; [done|done|]. right. left. destruct Hx as (_ & _ & _ & Hx & _). lia. }
  destruct (queues (definition x) !! i) as [[|e q]|] eqn:Hq; [done| |done].
  pose proof (take_ok i e q x t Hx ltac:(lia) Hi Hq) as Ht.
  destruct (handle t e (user (definition x))) as [[[u arrivals] es] [[| |]| |]]; cbn; try done;
    (split; [exact Ht|]); (split; [done|]); (split; [done|]); left; unfold stopped; cbn; auto.
Qed.

Lemma numbered_elem i t : (i, t) ∈ numbered ports → i < length ports.
Proof.
  unfold numbered. rewrite list_elem_of_lookup. intros [k Hk]. rewrite list_lookup_imap in Hk.
  destruct (ports !! k) eqn:Ht; [|done]. injection Hk as -> ->. by apply lookup_lt_Some in Ht.
Qed.

Lemma numbered_lookup i : i < length ports → ∃ t, (i, t) ∈ numbered ports.
Proof.
  intros [t Ht]%lookup_lt_is_Some_2. exists t. unfold numbered. apply list_elem_of_lookup. exists i. by rewrite list_lookup_imap, Ht.
Qed.

(** A port with nothing to take. *)
Definition idle_at (x : Exec) (port : nat * PortField) : Prop := ∀ e q, queues (definition x) !! port.1 ≠ Some (e :: q).

Lemma port_handle_step port x x' : port_handle max_events port x = (x', Ok ()) →
  (x' = x ∧ idle_at x port) ∨ (done_work x' = true ∧ count x < count x').
Proof.
  destruct port as [i t]. unfold port_handle, idle_at. unfold mbind, st_bind, st_get, st_modify, return_result, st_panic, st_lift, mret, st_ret.
  cbn. case_decide; [done|]. destruct (queues (definition x) !! i) as [[|e q]|] eqn:Hq; [by intros [= <-]; left| |by intros [= <-]; left].
  destruct (handle t e (user (definition x))) as [[[u arrivals] es] [[| |]| |]]; try done. intros [= <-]. right. cbn. split; [done|lia].
Qed.

Lemma pass_step l x x' : st_for l (port_handle max_events) x = (x', Ok ()) →
  (x' = x ∧ Forall (idle_at x) l) ∨ (done_work x' = true ∧ count x < count x').
Proof.
  revert x. induction l as [|p l IH]; intros x; cbn [st_for]; [intros [= <-]; by left|].
  unfold mbind at 1, st_bind. destruct (port_handle max_events p x) as [x1 [[]|e|]] eqn:Hp; [|done|done].
  intros Hl. apply port_handle_step in Hp as [[-> Hi]|[Hd Hc]]; apply IH in Hl as [[-> Hl]|[Hd' Hc']].
  - left. split; [done|]. by constructor.
  - by right.
  - by right.
  - right. split; [done|lia].
Qed.

Lemma idle_events x : length (queues (definition x)) = length ports → Forall (idle_at x) (numbered ports) →
  events (queues (definition x)) = 0.
Proof.
  intros Hl Hf. unfold events. assert (Forall (λ q, length q = 0) (queues (definition x))) as Hq.
  { apply Forall_lookup_2. intros i q Hi. destruct (numbered_lookup i) as [t Ht]; [rewrite <-Hl; by apply lookup_lt_Some in Hi|].
    rewrite Forall_forall in Hf. specialize (Hf _ Ht). destruct q as [|e q]; [done|]. by destruct (Hf e q). }
  clear -Hq. induction Hq as [|q qs Hq _ IH]; [done|]. cbn. by rewrite Hq.
Qed.

(** The loop ends: as long as it takes events, the count grows towards its limit. *)
Lemma rounds_ok fuel : triple
  (λ x, exec_ok x ∧ if done_work x then max_events + 2 ≤ count x + fuel else 0 < fuel ∧ events (queues (definition x)) = 0)
  (rounds fuel max_events ports) (λ _ x, exec_ok x ∧ events (queues (definition x)) = 0) exec_left.
Proof using addressed.
  induction fuel as [|fuel IH]; intros x [Hx Hf]; cbn [rounds].
  { destruct (done_work x); [|lia]. destruct Hx as (_ & _ & _ & Hm & _). lia. }
  unfold mbind at 1, st_bind, st_get. cbn beta iota. destruct (done_work x) eqn:Hd; [|by destruct Hf].
  unfold mbind at 1, st_bind, st_modify. cbn beta iota.
  assert (exec_ok (set_done_work false x)) as Hx' by exact Hx.
  pose proof (triple_for exec_ok (port_handle max_events) exec_left (numbered ports)
    (λ p Hp, match p return p ∈ numbered ports → _ with (i, t) => λ Hp, port_handle_ok i t (numbered_elem i t Hp) end Hp) _ Hx') as Hpass.
  unfold mbind at 1, st_bind. destruct (st_for _ _ _) as [x1 [[]|e|]] eqn:Hl; [|done|done].
  apply IH. split; [done|]. apply pass_step in Hl as [[-> Hi]|[Hd1 Hc]].
  - cbn. destruct Hx as (Hlen & _ & _ & Hm & _). split; [lia|]. by apply (idle_events (set_done_work false x)).
  - rewrite Hd1. cbn in Hc. lia.
Qed.

Lemma execute_body_ok skip : length (queues d0) = length ports → 0 < length ports →
  triple (λ x, x = start_exec d0) (execute_body ports max_events skip) (λ _ _, False) exec_left.
Proof using addressed.
  intros Hl Hp x ->. assert (exec_ok (start_exec d0) ∧ done_work (start_exec d0) = true) as Hs.
  { split; [|done]. unfold exec_ok. cbn. split_and!; [done|lia|done|lia|constructor]. }
  revert Hs. generalize (start_exec d0). intros x Hs. revert x Hs.
  apply (x_triple_bind _ _ _ (λ _ x, exec_ok x ∧ done_work x = true)).
  { apply triple_for. intros [i t] Hi x [Hx Hd]. unfold port_handle_skip, st_when. case_bool_decide; [|done].
    pose proof (port_handle_ok i t (numbered_elem i t Hi) x Hx) as Ho.
    destruct (port_handle max_events (i, t) x) as [x' [[]|e|]] eqn:Hh; [|done|done]. split; [done|].
    by apply port_handle_step in Hh as [[-> _]|[? _]]. }
  intros []. apply (x_triple_bind _ _ _ (λ _ x, exec_ok x ∧ events (queues (definition x)) = 0)).
  { intros x [Hx Hd]. apply rounds_ok. rewrite Hd. split; [done|lia]. }
  intros [] x [Hx He]. split; [done|]. split_and!; [done|exact Hp|]. auto.
Qed.
End Run.

(** C34: however the handlers of a derived component behave, [execute] ends; unless one
    panics it counts exactly the events taken off the ports, never more than allowed,
    and stops only because a handler blocks, fails or asks for a shutdown, because the
    allowance is used up, or because all ports are empty; the next execution resumes
    at an existing port.  This is what a component relies on. *)
Theorem derived_execute_contract (ports : list PortField) (max_events skip : nat) (d : Definition_) :
  length (queues d) = length ports → handlers_addressed (length ports) →
  let '(x, r) := derived_execute ports max_events skip d in
  r ≠ Err ()
  ∧ ∀ res, r = Ok res →
    er_count res ≤ max_events
    ∧ er_count res ≤ events (queues d) + port_arrivals (effects x)
    ∧ events (queues (definition x)) + er_count res = events (queues d) + port_arrivals (effects x)
    ∧ er_count res = length (served x)
    ∧ (ports ≠ [] → er_skip res < length ports)
    ∧ (stopped res ∨ er_count res = max_events ∨ events (queues (definition x)) = 0).
Proof.
  intros Hl Ha. destruct ports as [|p ports].
  - cbn. destruct (queues d) eqn:Hq; [|done]. split; [done|]. intros res [= <-]. rewrite ?Hq. cbn.
    split_and!; [lia|lia|lia|done|done|auto].
  - cbn [derived_execute]. pose proof (execute_body_ok (p :: ports) max_events d Ha skip Hl ltac:(cbn; lia) _ eq_refl) as Hb.
    destruct (execute_body _ _ _ _) as [x [[]|[r|]|]]; [done| |done|done]. split; [done|]. intros res [= <-].
    destruct Hb as ((_ & He & Hc & Hm & _) & Hr & Hs & Hstop). rewrite Hr. split_and!; try done; lia.
Qed.

(** ** Fairness *)

(** No code takes a port off the list of those served. *)
Definition grows {A} (m : X A) : Prop := ∀ x j, j ∈ served x → j ∈ served (m x).1.

Lemma grows_bind {A A'} (m : X A) (f : A → X A') : grows m → (∀ a, grows (f a)) → grows (m ≫= f).
Proof. intros Hm Hf x j Hj. specialize (Hm x j Hj). unfold mbind, st_bind. destruct (m x) as [x' [a|e|]]; [by apply Hf|done|done]. Qed.

Lemma grows_for {A} l (f : A → X ()) : (∀ a, grows (f a)) → grows (st_for l f).
Proof. intros Hf. induction l as [|a l IH]; [by intros x j|]. by apply grows_bind. Qed.

Lemma port_handle_grows max_events p : grows (port_handle max_events p).
Proof.
  intros x j Hj. destruct p as [i t]. unfold port_handle. unfold mbind, st_bind, st_get, st_modify, return_result, st_panic, st_lift, mret, st_ret.
  cbn. case_decide; [done|]. destruct (queues (definition x) !! i) as [[|e q]|]; [done| |done].
  destruct (handle t e (user (definition x))) as [[[u arrivals] es] [[| |]| |]]; cbn; apply elem_of_app; by left.
Qed.

Lemma rounds_grows fuel max_events ports : grows (rounds fuel max_events ports).
Proof.
  induction fuel as [|fuel IH]; [by intros x j|]. apply grows_bind; [by intros x j|]. intros x.
  destruct (done_work x); [|by intros ? ?]. apply grows_bind; [by intros ? ?|]. intros [].
  apply grows_bind; [apply grows_for, port_handle_grows|]. by intros [].
Qed.

(** Handlers that return [Handled::Ok]: they neither block, shut down, panic nor fail.  A handler that fails, even with
    a benign error, ends the execution, and the next one begins at its port. *)
Definition handlers_quiet : Prop := ∀ t e u, (handle t e u).2 = Ok HOk.

Definition waiting_at (j : nat) (d : Definition_) : Prop := ∃ e q, queues d !! j = Some (e :: q).

Lemma arrive_waiting j qs arrivals e q : qs !! j = Some (e :: q) → ∃ q', arrive qs arrivals !! j = Some (e :: q').
Proof.
  revert qs q. induction arrivals as [|[i a] l IH]; intros qs q Hq; [by exists q|].
  change (∃ q', arrive (alter (λ q, q ++ [a]) i qs) l !! j = Some (e :: q')). destruct (decide (i = j)) as [->|Hne].
  - apply (IH _ (q ++ [a])). rewrite list_lookup_alter_eq, Hq. done.
  - apply (IH _ q). by rewrite list_lookup_alter_ne.
Qed.

Section Fair.
Hypothesis quiet : handlers_quiet.
Context (max_events j : nat).

(** Port [j] was served, or an event is still waiting there. *)
Definition settled (x : Exec) : Prop := j ∈ served x ∨ waiting_at j (definition x).

Lemma port_handle_quiet i t x : settled x → count x ≤ max_events →
  (count x = max_events ∧ port_handle max_events (i, t) x = (x, Err (Returned (execute_result_new None (count x) i))))
  ∨ ∃ x', port_handle max_events (i, t) x = (x', Ok ()) ∧ settled x' ∧ count x' ≤ S (count x) ∧ count x' ≤ max_events
      ∧ (i = j → j ∈ served x').
Proof using quiet.
  intros Hs Hc. pose proof (port_handle_grows max_events (i, t) x j) as Hg. revert Hg.
  unfold port_handle. unfold mbind, st_bind, st_get, st_modify, return_result, st_panic, st_lift, mret, st_ret. cbn. unfold settled in *.
  case_decide; [left; split; [lia|done]|]. intros Hg. right. unfold waiting_at in *.
  destruct (queues (definition x) !! i) as [[|e q]|] eqn:Hq; cycle 1; [|eexists; split_and!; [done|done|lia|lia|]; intros ->; naive_solver..].
  pose proof (quiet t e (user (definition x))) as Hh. destruct (handle t e (user (definition x))) as [[[u arrivals] es] r] eqn:He.
  cbn in Hh. subst r. cbn. eexists. split; [done|]. cbn. split_and!; [|lia|lia|intros ->; apply elem_of_app; right; by constructor].
  destruct Hs as [Hs|(e' & q' & Hj)]; [left; apply elem_of_app; by left|]. destruct (decide (i = j)) as [->|Hne].
  { left. apply elem_of_app. right. by constructor. }
  right. destruct (arrive_waiting j (<[i := q]> (queues (definition x))) arrivals e' q') as [q'' Hq'']; [by rewrite list_lookup_insert_ne|]. eauto.
Qed.

(** A pass over the ports from number [a] on. *)
Definition pass (a : nat) (l : list PortField) : list (nat * PortField) := imap (λ k t, (a + k, t)) l.

Lemma pass_cons a t l : pass a (t :: l) = (a, t) :: pass (S a) l.
Proof. unfold pass. cbn. rewrite Nat.add_0_r. f_equal. apply imap_ext. intros k y _. cbn. f_equal. lia. Qed.

Lemma pass_quiet a l x : settled x → count x ≤ max_events →
  match st_for (pass a l) (port_handle max_events) x with
  | (x', Ok _) => settled x' ∧ count x' ≤ max_events ∧ count x' ≤ count x + length l ∧ (a ≤ j < a + length l → j ∈ served x')
  | (x', Err (Returned r)) => ∃ i, r = execute_result_new None (count x') i ∧ settled x' ∧ a ≤ i < a + length l
      ∧ count x' = max_events ∧ max_events ≤ count x + (i - a) ∧ (a ≤ j < i → j ∈ served x')
  | _ => False
  end.
Proof using quiet.
  revert a x. induction l as [|t l IH]; intros a x Hs Hc; [cbn; split_and!; [done|done|lia|lia]|].
  rewrite pass_cons. cbn [st_for]. unfold mbind, st_bind.
  destruct (port_handle_quiet a t x Hs Hc) as [[Hm ->]|(x1 & -> & Hs1 & Hc1 & Hm1 & Hj)].
  { exists a. split_and!; [done|done|lia|cbn; lia|done|lia|lia]. }
  specialize (IH (S a) x1 Hs1 Hm1). pose proof (grows_for (pass (S a) l) _ (port_handle_grows max_events) x1 j) as Hg.
  destruct (st_for (pass (S a) l) _ x1) as [x2 [[]|[r|]|]]; try done.
  - destruct IH as (Hs2 & Hm2 & Hc2 & Hr). cbn [length]. split_and!; [done|done|lia|]. intros Hin.
    destruct (decide (a = j)) as [->|Hne]; [by apply Hg, Hj|]. apply Hr. lia.
  - destruct IH as (i & -> & Hs2 & Hi & Hm2 & Hc2 & Hr). exists i. cbn [length]. split_and!; [done|done|lia|lia|done|lia|].
    intros Hin. destruct (decide (a = j)) as [->|Hne]; [by apply Hg, Hj|]. apply Hr. lia.
Qed.

Lemma skip_pass a skip l x : a ≤ skip →
  st_for (pass a l) (port_handle_skip max_events skip) x = st_for (pass skip (drop (skip - a) l)) (port_handle max_events) x.
Proof.
  revert a x. induction l as [|t l IH]; intros a x Ha; [by rewrite drop_nil|]. rewrite pass_cons. cbn [st_for].
  change (port_handle_skip max_events skip (a, t)) with (if bool_decide (skip ≤ a) then port_handle max_events (a, t) else mret ()). destruct (decide (a = skip)) as [->|Hne].
  - rewrite bool_decide_true by done. rewrite Nat.sub_diag. cbn [drop]. rewrite pass_cons. cbn [st_for]. unfold mbind, st_bind.
    destruct (port_handle max_events (skip, t) x) as [x1 [[]| |]]; [|done|done]. clear IH. revert x1.
    assert (∀ a l x, skip ≤ a → st_for (pass a l) (port_handle_skip max_events skip) x = st_for (pass a l) (port_handle max_events) x) as Hle.
    { clear. intros a l. revert a. induction l as [|t l IH]; intros a x Ha; [done|]. rewrite pass_cons. cbn [st_for]. unfold mbind, st_bind.
      change (port_handle_skip max_events skip (a, t)) with (if bool_decide (skip ≤ a) then port_handle max_events (a, t) else mret ()). rewrite bool_decide_true by done.
      destruct (port_handle max_events (a, t) x) as [x1 [[]| |]]; [|done|done]. apply IH. lia. }
    intros x1. apply Hle. lia.
  - rewrite bool_decide_false by lia. replace (skip - a) with (S (skip - S a)) by lia. cbn [drop]. rewrite <-IH by lia. done.
Qed.

Lemma bind_eq {A A'} (m : X A) (f : A → X A') x :
  (m ≫= f) x = match m x with (x', Ok a) => f a x' | (x', Err e) => (x', Err e) | (x', Panic) => (x', Panic) end.
Proof. done. Qed.

Lemma rounds_eq fuel ports x : done_work x = true →
  rounds (S fuel) max_events ports x =
  (_ ← st_for (pass 0 ports) (port_handle max_events); rounds fuel max_events ports) (set_done_work false x).
Proof. intros Hd. cbn [rounds]. rewrite bind_eq. cbn beta iota delta [st_get]. by rewrite Hd. Qed.

(** How many ports come before [j] when starting at [skip]. *)
Definition distance (n skip : nat) : nat := if decide (skip ≤ j) then j - skip else n - skip + j.

Lemma execute_closer ports skip d : waiting_at j d → j < length ports → skip < length ports →
  let '(x, r) := derived_execute ports max_events skip d in
  j ∈ served x
  ∨ ∃ r', r = Ok r' ∧ waiting_at j (definition x) ∧ er_skip r' < length ports
      ∧ distance (length ports) (er_skip r') + max_events ≤ distance (length ports) skip.
Proof using quiet.
  intros Hw Hj Hskip. destruct ports as [|p ports']; [cbn in Hj; lia|]. set (ports := p :: ports') in *.
  change (derived_execute ports max_events skip d) with
    (let '(x, r) := execute_body ports max_events skip (start_exec d) in
     (x, match r with Err (Returned r) => Ok r | Err OutOfFuel => Err () | Ok _ => Err () | Panic => Panic end : res () (ExecuteResult F Fut))).
  clearbody ports. unfold execute_body. change (numbered ports) with (pass 0 ports). rewrite bind_eq, skip_pass, Nat.sub_0_r by lia.
  pose proof (pass_quiet skip (drop skip ports) (start_exec d) (or_intror Hw) ltac:(cbn; lia)) as H1. rewrite length_drop in H1.
  destruct (st_for (pass skip _) _ _) as [x1 [[]|[r|]|]] eqn:Hp1; try done; cycle 1.
  { destruct H1 as (i & -> & [Hs|Hs] & Hi & Hm & Hc & Hr); [by left|]. cbn in Hc.
    destruct (decide (skip ≤ j < i)); [left; by apply Hr|]. right. eexists. split; [done|]. cbn [execute_result_new er_skip].
    split_and!; [done|lia|]. unfold distance. do 2 case_decide; lia. }
  destruct H1 as (Hs1 & Hm1 & Hc1 & Hr1). cbn in Hc1.
  assert (done_work x1 = true) as Hd1 by (by apply pass_step in Hp1 as [[-> _]|[? _]]).
  rewrite Nat.add_comm, bind_eq, (rounds_eq (S max_events)) by done. rewrite bind_eq.
  pose proof (pass_quiet 0 ports (set_done_work false x1) Hs1 Hm1) as H2.
  pose proof (grows_for (pass 0 ports) _ (port_handle_grows max_events) (set_done_work false x1) j) as Hg.
  destruct (st_for (pass 0 ports) _ _) as [x2 [[]|[r|]|]]; try done; cycle 1.
  { destruct H2 as (i & -> & [Hs|Hs] & Hi & Hm & Hc & Hr); [by left|]. cbn in Hc.
    destruct (decide (j < i)); [left; apply Hr; lia|]. destruct (decide (skip ≤ j)) as [Hle|Hle]; [left; apply Hg, Hr1; lia|].
    right. eexists. split; [done|]. cbn [execute_result_new er_skip]. split_and!; [done|lia|]. unfold distance. do 2 case_decide; lia. }
  destruct H2 as (_ & _ & _ & Hr2). pose proof (rounds_grows (S max_events) max_events ports x2 j (Hr2 ltac:(lia))) as H3.
  destruct (rounds (S max_events) max_events ports x2) as [x3 [[]|[r|]|]]; left; exact H3.
Qed.
End Fair.

(** Executions one after the other, with an allowance each and events that arrive
    before it; the ports that are served. *)
Fixpoint executions (ports : list PortField) (skip : nat) (d : Definition_) (turns : list (nat * list (nat * Ev))) : list nat :=
  match turns with
  | [] => []
  | (max_events, arrivals) :: turns =>
      let '(x, r) := derived_execute ports max_events skip (mkDefinition (user d) (arrive (queues d) arrivals)) in
      served x ++ match r with Ok r => executions ports (er_skip r) (definition x) turns | _ => [] end
  end.

(** C35: the ports of a derived component are served in turn: when every handler returns
    [Handled::Ok] (a benign error already makes its own port be served first again) and an
    event is waiting at a port, the port is served at the latest once as many events could
    be handled as there are ports, however the allowances of the executions are chosen and
    whatever arrives elsewhere. *)
Theorem derived_ports_fair (ports : list PortField) (skip j : nat) (d : Definition_) (turns : list (nat * list (nat * Ev))) :
  handlers_quiet → skip < length ports → j < length ports → waiting_at j d →
  Forall (λ turn, 0 < turn.1) turns → length ports ≤ sum_list turns.*1 →
  j ∈ executions ports skip d turns.
Proof.
  intros Hq Hskip Hj Hw Ht Hsum. assert (distance j (length ports) skip < sum_list turns.*1) as Hd.
  { unfold distance. case_decide; lia. }
  clear Hsum. revert skip d Hskip Hw Hd. induction Ht as [|[n arrivals] turns Hn _ IH]; intros skip d Hskip Hw Hd; [cbn in Hd; lia|].
  cbn [executions]. set (d' := mkDefinition (user d) (arrive (queues d) arrivals)).
  assert (waiting_at j d') as Hw'.
  { destruct Hw as (e & q & Hw). destruct (arrive_waiting j (queues d) arrivals e q Hw) as [q' Hq']. by exists e, q'. }
  pose proof (execute_closer Hq n j ports skip d' Hw' Hj Hskip) as Hc.
  destruct (derived_execute ports n skip d') as [x r]. destruct Hc as [Hc|(r' & -> & Hw2 & Hs2 & Hd2)]; apply elem_of_app; [by left|].
  right. apply IH; [done|done|]. cbn in Hd, Hn. lia.
Qed.

(** A port whose handler blocks is where the next execution starts again: while it has
    events no other port is served, however many executions there are. *)
Theorem blocking_port_starves (t : PortField) (ports : list PortField) (d : Definition_) (turns : list nat) :
  (∀ e u, ∃ u' es f, handle t e u = (u', [], es, Ok (BlockOn f))) →
  Forall (λ n, 0 < n) turns → (∃ q, queues d !! 0 = Some q ∧ length turns ≤ length q) →
  executions (t :: ports) 0 d ((λ n, (n, [])) <$> turns) = replicate (length turns) 0.
Proof.
  intros Hb Ht. revert d. induction Ht as [|n turns Hn _ IH]; intros d (q & Hq & Hl); [done|].
  destruct q as [|e q]; [cbn in Hl; lia|]. cbn [fmap list_fmap executions length replicate]. destruct d as [u qs]. cbn in Hq.
  destruct (Hb e u) as (u' & es & f & He).
  assert (derived_execute (t :: ports) n 0 (mkDefinition u qs) =
    (mkExec (mkDefinition u' (<[0 := q]> qs)) 1 true es [0], Ok (execute_result_new (Some f) 1 0))) as Hx.
  { assert (port_handle n (0, t) (start_exec (mkDefinition u qs)) =
      (mkExec (mkDefinition u' (<[0 := q]> qs)) 1 true es [0], Err (Returned (execute_result_new (Some f) 1 0)))) as Hp.
    { unfold port_handle. rewrite bind_eq. cbn [st_get start_exec count definition queues user].
      rewrite decide_False by lia. rewrite Hq, He. done. }
    unfold derived_execute, execute_body. change (numbered (t :: ports)) with (pass 0 (t :: ports)).
    rewrite bind_eq, skip_pass by done. cbn [Nat.sub drop]. rewrite pass_cons. cbn [st_for]. by rewrite bind_eq, Hp. }
  cbn [user queues arrive foldl]. rewrite Hx. cbn. f_equal. apply IH. cbn. exists q.
  rewrite list_lookup_insert_eq by (by apply lookup_lt_Some in Hq). split; [done|]. cbn in Hl. lia.
Qed.
End Generated.
Arguments PortHandlers User Ev Msg Act Fut F : clear implicits.

(** ** What is derived *)
Definition of_type (dir : string → PortField) (ty : string) (ports : list PortEntry) : list PortEntry :=
  filter (λ p, p.2 = dir ty) ports.

(** The maps tell how many ports have a type, and which. *)
Definition maps_of (dir : string → PortField) (ports : list PortEntry) (m : PortMaps) : Prop := ∀ ty,
  match of_type dir ty ports with
  | [] => unique m !! ty = None ∧ non_unique m !! ty = None
  | [p] => unique m !! ty = Some p ∧ non_unique m !! ty = None
  | l => unique m !! ty = None ∧ non_unique m !! ty = Some l
  end.

Lemma of_type_snoc dir ty ports p :
  of_type dir ty (ports ++ [p]) = of_type dir ty ports ++ (if decide (p.2 = dir ty) then [p] else []).
Proof. unfold of_type. by rewrite filter_app, filter_cons, filter_nil. Qed.

Lemma add_port_maps dir ports m ty p : Inj (=) (=) dir → p.2 = dir ty → maps_of dir ports m → maps_of dir (ports ++ [p]) (add_port ty p m).
Proof.
  intros Hd Hp Hm ty'. specialize (Hm ty) as Hty. specialize (Hm ty'). rewrite of_type_snoc, Hp. unfold add_port.
  destruct (decide (dir ty = dir ty')) as [->%(inj dir)|Hne].
  - destruct (of_type dir ty' ports) as [|p1 [|p2 l]]; cbn in *; clear Hm; destruct Hty as [Hu Hn]; rewrite ?Hu, ?Hn; cbn;
      rewrite ?lookup_insert_eq, ?lookup_delete_eq; auto.
  - assert (ty ≠ ty') by congruence. rewrite app_nil_r.
    destruct (non_unique m !! ty) as [l|]; cbn; [by simplify_map_eq|]. destruct (unique m !! ty); cbn; by simplify_map_eq.
Qed.

Lemma other_port_maps dir ports m p : (∀ ty, p.2 ≠ dir ty) → maps_of dir ports m → maps_of dir (ports ++ [p]) m.
Proof. intros Hp Hm ty. specialize (Hm ty). rewrite of_type_snoc, decide_False by done. by rewrite app_nil_r. Qed.

Lemma sort_ports_maps ports : maps_of Provided ports (sort_ports ports).1 ∧ maps_of Required ports (sort_ports ports).2.
Proof.
  unfold sort_ports. induction ports as [|p ports IH] using rev_ind; [done|]. rewrite foldl_snoc.
  destruct IH as [Hp Hr]. destruct p as [f [ty|ty]]; cbn; split.
  - by apply other_port_maps.
  - by apply add_port_maps; [intros ? ? [=]| |].
  - by apply add_port_maps; [intros ? ? [=]| |].
  - by apply other_port_maps.
Qed.

(** The fields of a struct, as the macro sees them. *)
Definition as_port (f : Field) : option PortEntry :=
  match identify_field f with Ok (FPort pf) => Some (f, pf) | _ => None end.
Definition as_ctx (f : Field) : option Field := match identify_field f with Ok FCtx => Some f | _ => None end.
Definition malformed (f : Field) : Prop := identify_field f = Panic.

Lemma collect_fields_spec fields ctx ports :
  match collect_fields fields ctx ports with
  | Ok (ctx', ports') =>
      Forall (λ f, ¬ malformed f) fields ∧ ports' = ports ++ omap as_port fields
      ∧ ctx' = match last (omap as_ctx fields) with Some f => Some f | None => ctx end
  | Err e => False
  | Panic => Exists malformed fields
  end.
Proof.
  revert ctx ports. induction fields as [|f fields IH]; intros ctx ports; cbn.
  { by rewrite app_nil_r. }
  assert (∀ c, identify_field f = Ok c → ¬ malformed f) as Hok by (unfold malformed; congruence).
  unfold as_ctx at 1, as_port at 1. destruct (identify_field f) as [[|pf|]|[]|] eqn:Hf; cbn; [..|by left].
  - specialize (IH (Some f) ports). destruct (collect_fields _ _ _) as [[c p]|[]|]; [|by right].
    destruct IH as (Hg & -> & ->). split_and!; [constructor; eauto|done|]. rewrite last_cons. by destruct (last _).
  - specialize (IH ctx (ports ++ [(f, pf)])). destruct (collect_fields _ _ _) as [[c p]|[]|]; [|by right].
    destruct IH as (Hg & -> & ->). split_and!; [constructor; eauto|by rewrite <-app_assoc|done].
  - specialize (IH ctx ports). destruct (collect_fields _ _ _) as [[c p]|[]|]; [|by right].
    destruct IH as (Hg & -> & ->). split_and!; [constructor; eauto|done|done].
Qed.

(** An implementation is derived for exactly the structs that have a context and
    well-formed ports; the last context counts, ports keep their order. *)
Theorem derive_outcome (data : Data) :
  match impl_component_definition data with
  | Ok impl => ∃ fields, data = DStruct fields ∧ Forall (λ f, ¬ malformed f) fields
      ∧ last (omap as_ctx fields) = Some (i_ctx impl) ∧ i_ports impl = omap as_port fields
  | Err e => False
  | Panic => ∀ fields, data = DStruct fields → Exists malformed fields ∨ omap as_ctx fields = []
  end.
Proof.
  destruct data as [fields| |]; [|done|done]. cbn. pose proof (collect_fields_spec fields None []) as Hs.
  destruct (collect_fields fields None []) as [[[ctx|] ports]|[]|]; cbn; [..|intros ? [= <-]; by left].
  - destruct Hs as (Hg & -> & Hc). exists fields. split_and!; [done|done| |done]. by destruct (last _).
  - intros ? [= <-]. right. destruct Hs as (_ & _ & Hc). destruct (omap as_ctx fields) as [|f l] using rev_ind; [done|].
    rewrite last_snoc in Hc. done.
Qed.

(** the generated port accessors follow the types of the port fields: a type that
    one field has, in the direction asked for, is accessed through that field, both
    statically and by the id of the type; for a type that several fields have
    the static accessors do not compile, naming all of them in order, and no port is
    found dynamically; for any other type there is nothing. *)
Theorem derived_port_access (type_id : string → Z) (order : gmap string PortEntry → list (string * PortEntry))
    (data : Data) (impl : Implementation) (ty : string) :
  (∀ m, order m ≡ₚ map_to_list m) → Inj (=) (=) type_id → impl_component_definition data = Ok impl →
  let accessors m dir :=
    match of_type dir ty (i_ports impl) with
    | [] => port_ref_impl m ty = NoImpl ∧ get_port_as_any type_id order m (type_id ty) = None
    | [p] => port_ref_impl m ty = OnField (f_ident p.1)
        ∧ get_port_as_any type_id order m (type_id ty) = Some (f_ident p.1)
    | l => port_ref_impl m ty = CompileErrorImpl ((λ p, f_ident p.1) <$> l)
        ∧ get_port_as_any type_id order m (type_id ty) = None
    end in
  accessors (i_provided impl) Provided ∧ accessors (i_required impl) Required.
Proof.
  intros Ho Hi Himpl accessors.
  assert (i_provided impl = (sort_ports (i_ports impl)).1 ∧ i_required impl = (sort_ports (i_ports impl)).2) as [-> ->].
  { destruct data as [fields| |]; [|done|done]. revert Himpl. cbn.
    destruct (collect_fields fields None []) as [[[ctx|] ports]| |]; cbn; try done. by intros [= <-]. }
  assert (∀ m, get_port_as_any type_id order m (type_id ty) = (λ p, f_ident p.1) <$> unique m !! ty) as Hget.
  { intros m. unfold get_port_as_any. destruct (list_find _ _) as [[k [ty' p]]|] eqn:Hf.
    - apply list_find_Some in Hf as (Hl & He%(inj type_id) & _). cbn in He. subst ty'.
      apply list_elem_of_lookup_2 in Hl. rewrite Ho in Hl. apply elem_of_map_to_list in Hl. by rewrite Hl.
    - apply list_find_None in Hf. destruct (unique m !! ty) as [p|] eqn:Hu; [|done].
      apply elem_of_map_to_list in Hu. rewrite <-Ho in Hu. rewrite Forall_forall in Hf. by destruct (Hf _ Hu). }
  destruct (sort_ports_maps (i_ports impl)) as [Hp Hr]. specialize (Hp ty). specialize (Hr ty). unfold accessors, port_ref_impl.
  rewrite !Hget. split.
  - destruct (of_type Provided ty (i_ports impl)) as [|p [|p' l]]; destruct Hp as [Hu Hn]; rewrite ?Hu, ?Hn; done.
  - destruct (of_type Required ty (i_ports impl)) as [|p [|p' l]]; destruct Hr as [Hu Hn]; rewrite ?Hu, ?Hn; done.
Qed.

(** ** Examples *)
Definition example_port (kind ty : string) : SynType := TPath [mkSegment kind (AngleBracketed [GType ty])].
Definition example_struct : Data := DStruct
  [mkField "ctx" (TPath [mkSegment "kompact" ANone_; mkSegment CTX (AngleBracketed [GType "Self"])]);
   mkField "a" (example_port PROVP "A"); mkField "b1" (example_port REQP "B"); mkField "counter" (TPath [mkSegment "u64" ANone_]);
   mkField "b2" (TPath [mkSegment KOMPICS ANone_; mkSegment REQP (AngleBracketed [GType "B"])])].
Definition example_ports : list PortField := [Provided "A"; Required "B"; Required "B"].
Definition example_id (ty : string) : Z := Zpos (encode ty).
Lemma example_id_inj : Inj (=) (=) example_id.
Proof. intros t t' [= He]. by apply (inj encode). Qed.
Definition example_impl : Implementation := match impl_component_definition example_struct with Ok i => i | _ => mkImpl (mkField "" TOther) [] (mkPortMaps ∅ ∅) (mkPortMaps ∅ ∅) end.

(** Events are logged; a 9 makes an event arrive at port 1, and a 7 blocks. *)
#[local] Instance example_port_handlers : PortHandlers (list nat) nat nat nat nat nat := λ t e u,
  (u ++ [e], if decide (e = 9) then [(1, 5)] else [], [], if decide (e = 7) then Ok (BlockOn 0) else Ok HOk).
Definition example_definition : Definition_ := mkDefinition (User := list nat) (Ev := nat) [] [[1; 2; 3; 9; 7]; []; [4]].

Lemma example_addressed : handlers_addressed (H := example_port_handlers) 3.
Proof. intros t e u. unfold handle, example_port_handlers. cbn. case_decide; split; repeat constructor; cbn; lia. Qed.

(** Four events and no more; then the rest up to the event that blocks. *)
Example derived_execute_budget : (derived_execute example_ports 4 0 example_definition).2 = Ok (execute_result_new None 4 1)
  ∧ user (definition (derived_execute example_ports 4 0 example_definition).1) = [1; 4; 2; 3].
Proof. split; reflexivity. Qed.
Example derived_execute_blocks : (derived_execute example_ports 9 0 example_definition).2 = Ok (execute_result_new (Some 0) 7 0)
  ∧ user (definition (derived_execute example_ports 9 0 example_definition).1) = [1; 4; 2; 3; 9; 5; 7].
Proof. split; reflexivity. Qed.

Lemma derived_execute_contract_witness :
  let '(x, r) := derived_execute example_ports 9 0 example_definition in r ≠ Err () ∧ port_arrivals (effects x) = 1.
Proof.
  pose proof (derived_execute_contract example_ports 9 0 example_definition eq_refl example_addressed) as Hc.
  destruct (derived_execute example_ports 9 0 example_definition) as [x r] eqn:He. split; [exact (proj1 Hc)|].
  change x with (x, r).1. rewrite <-He. reflexivity.
Defined.

#[local] Instance quiet_port_handlers : PortHandlers (list nat) nat nat nat nat nat := λ t e u, (u ++ [e], [], [], Ok HOk).

Lemma derived_ports_fair_witness :
  2 ∈ executions (H := quiet_port_handlers) example_ports 0 example_definition [(1, [(0, 8)]); (1, []); (1, [(0, 8)])].
Proof.
  apply (derived_ports_fair (H := quiet_port_handlers) example_ports 0 2 example_definition).
  - intros t e u. reflexivity.
  - cbn. lia.
  - cbn. lia.
  - exists 4, []. reflexivity.
  - repeat constructor.
  - cbn. lia.
Defined.

Lemma derived_port_access_witness :
  port_ref_impl (i_required example_impl) "B" = CompileErrorImpl ["b1"; "b2"]
  ∧ get_port_as_any example_id map_to_list (i_required example_impl) (example_id "B") = None
  ∧ get_port_as_any example_id map_to_list (i_provided example_impl) (example_id "A") = Some "a"%string.
Proof.
  destruct (derived_port_access example_id map_to_list example_struct example_impl "B") as [_ [H1 H2]].
  - intros m. reflexivity.
  - exact example_id_inj.
  - reflexivity.
  - destruct (derived_port_access example_id map_to_list example_struct example_impl "A") as [[_ H3] _].
    + intros m. reflexivity.
    + exact example_id_inj.
    + reflexivity.
    + split; [exact H1|]. split; [exact H2|exact H3].
Defined.
