(* ===== verification/Blocking.v ===== *)
(** * Scheduling a component that blocks on futures

    The protocol of [Scheduling] for components whose handlers may also return
    [Handled::BlockOn]: the blocking state of the lifecycle word, in which producers
    do not schedule the component, polling the future and coming out of blocking
    ([run_blocking!], the first part of [Component::inner_execute] and
    [ComponentContext::run_blocking_task]), and the wakers of the future, which
    schedule the component ([ArcWake for Component] in [future_task.rs]).  Executions
    hold the mutex around the definition; others wait for it.

    Every label is one atomic action of some thread.  A poll is the moment it begins:
    what the waker does during the poll comes after it.  As in [Scheduling] a timeout
    whose timer was cancelled while it was queued is taken without being counted.
    Faults, shutdown and killing leave the protocol. *)

From S2P Require Import Prelude Lifecycle Scheduling Timers Component.

(** Where the thread that holds the mutex is: handling events; about to poll, in
    [run_blocking!] with its [count] or when resuming a blocked component; after the
    poll, with or without completion. *)
Inductive Phase :=
| Handling (count : nat) (over : bool)  (** [over]: the timer loop has ended *)
| Polling (count : option nat)
| Polled (count : option nat) (completed : bool).

Record Blk := mkBlk {
  b_word : Z;                          (** [ComponentCore::state] *)
  b_ctrl : list ControlEvent;
  b_timeouts : list bool;              (** queued timeouts; [false] when the timer was cancelled since *)
  b_queued : nat;                      (** messages and port events *)
  b_inc_schedule : nat;                (** producers between [increment_work], which said [Schedule], and [push] *)
  b_inc_other : nat;                   (** producers between [increment_work], which said anything else, and [push] *)
  b_pushed : nat;                      (** producers between [push] and [schedule()] *)
  b_jobs : nat;                        (** executions handed to the scheduler and not begun *)
  b_waiting : nat;                     (** executions that wait for the mutex *)
  b_holder : option Phase;             (** the execution that holds it *)
  b_future : option StateTransition;   (** [blocking_future], with what follows its completion *)
  b_wakers : bool;                     (** somebody was given a waker *)
  b_woken : bool;                      (** a waker was called since the last poll began *)
  b_dropped : nat;                     (** cancelled timeouts that were taken and never subtracted *)
}.

Inductive PollOutcome := PPending | PReady | PBlockOn.

Inductive BLabel :=
| BIncrement
| BPushSchedule (e : Work)
| BPushOther (e : Work)
| BCallSchedule
| BWake                                (** [wake_by_ref]: [arc_self.schedule()] *)
| BExecute                             (** the scheduler runs a job *)
| BLock                                (** [self.mutable_core.lock()] *)
| BPopControl (blocks : bool)          (** a control event, whose handler may block *)
| BPopTimer (blocks : bool)            (** a timeout *)
| BPop (blocks : bool)                 (** a message or port event *)
| BCancel (k : nat)                    (** a handler or future cancels the timer of a queued timeout *)
| BPoll (o : PollOutcome)              (** [blocking_state.future.run(&component)] *)
| BSettle                              (** the rest of the execution after a poll *)
| BFinish.                             (** [decrement_work(count)] and [maybe_reschedule] *)

Definition set_b_word w (s : Blk) : Blk :=
  let '(mkBlk _ c t q i o p j wt h f wk wo d) := s in mkBlk w c t q i o p j wt h f wk wo d.
Definition set_b_queues c t q (s : Blk) : Blk :=
  let '(mkBlk w _ _ _ i o p j wt h f wk wo d) := s in mkBlk w c t q i o p j wt h f wk wo d.
Definition set_b_producers i o p (s : Blk) : Blk :=
  let '(mkBlk w c t q _ _ _ j wt h f wk wo d) := s in mkBlk w c t q i o p j wt h f wk wo d.
Definition set_b_jobs j (s : Blk) : Blk :=
  let '(mkBlk w c t q i o p _ wt h f wk wo d) := s in mkBlk w c t q i o p j wt h f wk wo d.
Definition set_b_waiting wt (s : Blk) : Blk :=
  let '(mkBlk w c t q i o p j _ h f wk wo d) := s in mkBlk w c t q i o p j wt h f wk wo d.
Definition set_b_holder h (s : Blk) : Blk :=
  let '(mkBlk w c t q i o p j wt _ f wk wo d) := s in mkBlk w c t q i o p j wt h f wk wo d.
Definition set_b_future f (s : Blk) : Blk :=
  let '(mkBlk w c t q i o p j wt h _ wk wo d) := s in mkBlk w c t q i o p j wt h f wk wo d.
Definition set_b_wakers wk wo (s : Blk) : Blk :=
  let '(mkBlk w c t q i o p j wt h f _ _ d) := s in mkBlk w c t q i o p j wt h f wk wo d.
Definition set_b_dropped d (s : Blk) : Blk :=
  let '(mkBlk w c t q i o p j wt h f wk wo _) := s in mkBlk w c t q i o p j wt h f wk wo d.

Abbreviation blk := (res NotEnabled Blk).

Definition b_increment (s : Blk) : blk :=
  '(w, sd) ← increment_work (b_word s);
  let s := set_b_word w s in
  Ok (if decide (sd = Schedule)
      then set_b_producers (S (b_inc_schedule s)) (b_inc_other s) (b_pushed s) s
      else set_b_producers (b_inc_schedule s) (S (b_inc_other s)) (b_pushed s) s).

Definition b_push (e : Work) (s : Blk) : Blk :=
  set_b_queues (push_ctrl e (b_ctrl s)) (push_timer e (b_timeouts s)) (push_queued e (b_queued s)) s.

Definition b_push_schedule (e : Work) (s : Blk) : blk :=
  n ← take_one (b_inc_schedule s);
  Ok (set_b_producers n (b_inc_other s) (S (b_pushed s)) (b_push e s)).
Definition b_push_other (e : Work) (s : Blk) : blk :=
  n ← take_one (b_inc_other s);
  Ok (set_b_producers (b_inc_schedule s) n (b_pushed s) (b_push e s)).
Definition b_call_schedule (s : Blk) : blk :=
  n ← take_one (b_pushed s);
  Ok (set_b_jobs (S (b_jobs s)) (set_b_producers (b_inc_schedule s) (b_inc_other s) n s)).

Definition wake_by_ref (s : Blk) : blk :=
  _ ← guard_ (b_wakers s = true);
  Ok (set_b_wakers true true (set_b_jobs (S (b_jobs s)) s)).

Definition b_execute (s : Blk) : blk :=
  n ← take_one (b_jobs s);
  Ok (set_b_waiting (S (b_waiting s)) (set_b_jobs n s)).

(** [if guard.definition.ctx().is_blocking()]. *)
Definition b_lock (s : Blk) : blk :=
  n ← take_one (b_waiting s);
  match b_holder s with
  | Some _ => Err not_enabled
  | None => Ok (set_b_holder (Some (if b_future s then Polling None else Handling 0 false)) (set_b_waiting n s))
  end.

(** [set_blocking_with_state] and the start of [run_blocking!]. *)
Definition b_block (t : StateTransition) (count : nat) (s : Blk) : Blk :=
  set_b_holder (Some (Polling (Some count)))
    (set_b_wakers (b_wakers s) false (set_b_future (Some t) (set_b_word (set_blocking (b_word s)) s))).

Definition b_handled (blocks : bool) (t : StateTransition) (count : nat) (over : bool) (s : Blk) : Blk :=
  if blocks then b_block t (S count) s else set_b_holder (Some (Handling (S count) over)) s.

Definition b_pop_control (blocks : bool) (s : Blk) : blk :=
  match b_holder s, b_ctrl s with
  | Some (Handling count over), e :: q =>
      w ← control_word e (b_word s);
      Ok (b_handled blocks (control_transition e) count over (set_b_word w (set_b_queues q (b_timeouts s) (b_queued s) s)))
  | _, _ => Err not_enabled
  end.

Definition b_pop (blocks : bool) (s : Blk) : blk :=
  match b_holder s with
  | Some (Handling count over) =>
      _ ← guard_ (is_active (b_word s) = true);
      q ← take_one (b_queued s);
      Ok (b_handled blocks TActive count over (set_b_queues (b_ctrl s) (b_timeouts s) q s))
  | _ => Err not_enabled
  end.

(** The timer loop: the action of a live timeout is run and counted; a cancelled one is
    taken, not counted, and ends the loop. *)
Definition b_pop_timer (blocks : bool) (s : Blk) : blk :=
  match b_holder s, b_timeouts s with
  | Some (Handling count false), live :: q =>
      _ ← guard_ (is_active (b_word s) = true);
      let s := set_b_queues (b_ctrl s) q (b_queued s) s in
      if live : bool then Ok (b_handled blocks TActive count false s)
      else Ok (set_b_dropped (S (b_dropped s)) (set_b_holder (Some (Handling count true)) s))
  | _, _ => Err not_enabled
  end.

(** [cancel_timer], by code of the component. *)
Definition b_cancel (k : nat) (s : Blk) : blk :=
  match b_holder s, b_timeouts s !! k with
  | Some _, Some true => Ok (set_b_queues (b_ctrl s) (<[k := false]> (b_timeouts s)) (b_queued s) s)
  | _, _ => Err not_enabled
  end.

(** The state a completed future leaves the component in. *)
Definition unblock_word (t : StateTransition) (w : Z) : res NotEnabled Z :=
  match t with
  | TActive | TStarted => Ok (set_active w)
  | TPassive => Ok (set_passive w)
  | TDestroyed => Err not_enabled
  end.

(** [run_blocking_task]; a future that completes with another one is replaced by it. *)
Definition b_poll (o : PollOutcome) (s : Blk) : blk :=
  match b_holder s, b_future s with
  | Some (Polling count), Some t =>
      match o with
      | PPending => Ok (set_b_holder (Some (Polled count false)) (set_b_wakers true false s))
      | PBlockOn => Ok (set_b_holder (Some (Polled count false)) (set_b_wakers (b_wakers s) false s))
      | PReady =>
          w ← unblock_word t (b_word s);
          Ok (set_b_holder (Some (Polled count true)) (set_b_wakers (b_wakers s) false (set_b_future None (set_b_word w s))))
      end
  | _, _ => Err not_enabled
  end.

(** [maybe_reschedule]. *)
Definition b_decide (d : SchedulingDecision) (s : Blk) : Blk :=
  match d with
  | Schedule => set_b_jobs (S (b_jobs s)) s
  | Resume => set_b_waiting (S (b_waiting s)) s
  | _ => s
  end.

Definition b_settle (s : Blk) : blk :=
  match b_holder s with
  | Some (Polled (Some count) completed) =>
      '(w, sd) ← decrement_work (b_word s) count;
      let s := set_b_holder None (set_b_word w s) in
      Ok (b_decide (if completed : bool then or_use NoWork sd else Blocked) s)
  | Some (Polled None completed) =>
      sd ← get_scheduling_decision (b_word s);
      Ok (b_decide (if completed : bool then or_from NoWork (λ _, sd) else Blocked) (set_b_holder None s))
  | _ => Err not_enabled
  end.

Definition b_finish (s : Blk) : blk :=
  match b_holder s with
  | Some (Handling count _) =>
      '(w, sd) ← decrement_work (b_word s) count;
      Ok (b_decide sd (set_b_holder None (set_b_word w s)))
  | _ => Err not_enabled
  end.

Definition b_step (l : BLabel) : Blk → blk :=
  match l with
  | BIncrement => b_increment
  | BPushSchedule e => b_push_schedule e
  | BPushOther e => b_push_other e
  | BCallSchedule => b_call_schedule
  | BWake => wake_by_ref
  | BExecute => b_execute
  | BLock => b_lock
  | BPopControl blocks => b_pop_control blocks
  | BPopTimer blocks => b_pop_timer blocks
  | BPop blocks => b_pop blocks
  | BCancel k => b_cancel k
  | BPoll o => b_poll o
  | BSettle => b_settle
  | BFinish => b_finish
  end.

Definition init_blk : Blk := mkBlk initial_state [] [] 0 0 0 0 0 0 None None false false 0.

Fixpoint b_run (ls : list BLabel) (s : Blk) : blk :=
  match ls with [] => Ok s | l :: ls => s ← b_step l s; b_run ls s end.

Inductive b_reachable : Blk → Prop :=
| b_reach_init : b_reachable init_blk
| b_reach_step s l s' : b_reachable s → b_step l s = Ok s' → b_reachable s'.

(** ** Invariant *)
Definition phase_count (h : option Phase) : nat :=
  match h with
  | Some (Handling c _) | Some (Polling (Some c)) | Some (Polled (Some c) _) => c
  | _ => 0
  end.

Definition b_outstanding (s : Blk) : nat :=
  length (b_ctrl s) + length (b_timeouts s) + b_queued s + b_inc_schedule s + b_inc_other s + phase_count (b_holder s).

(** What the counter counts. *)
Definition b_counted (s : Blk) : nat := b_outstanding s + b_dropped s.

(** The threads that run the component or are bound to. *)
Definition b_tickets (s : Blk) : nat :=
  b_inc_schedule s + b_pushed s + b_jobs s + b_waiting s + (if b_holder s then 1 else 0).

Definition flag_ok (future : option StateTransition) (f : Flag) : Prop :=
  match future with Some _ => f = FBlocking | None => schedulable f end.

Definition phase_ok (h : option Phase) (future : option StateTransition) : Prop :=
  match h with
  | None => True
  | Some (Handling _ _) | Some (Polled _ true) => future = None
  | Some (Polling _) | Some (Polled _ false) => future ≠ None
  end.

(** A thread polls the future next, or will take the mutex and poll it. *)
Definition about_to_poll (s : Blk) : Prop :=
  0 < b_jobs s + b_waiting s ∨ match b_holder s with Some (Polling _) => True | _ => False end.

Definition b_inv (s : Blk) : Prop :=
  b_counted s ≤ MAX_WORK
  ∧ (∃ f, flag_ok (b_future s) f ∧ b_word s = word f (b_counted s))
  ∧ phase_ok (b_holder s) (b_future s)
  ∧ (b_future s = None → b_counted s ≠ 0 → 0 < b_tickets s)
  ∧ (b_woken s = true → b_future s ≠ None → about_to_poll s).

Lemma init_blk_inv : b_inv init_blk.
Proof.
  unfold b_inv. cbn. split_and!; [pose proof MAX_WORK_Z; lia| |done|done|done]. exists FPassive. split; [by right|reflexivity].
Qed.

Ltac b_unfold := unfold b_inv, b_counted, b_outstanding, b_tickets, about_to_poll in *; cbn [b_word b_ctrl b_timeouts b_queued b_inc_schedule b_inc_other b_pushed
  b_jobs b_waiting b_holder b_future b_wakers b_woken b_dropped phase_count length] in *.

(** Steps that leave the word and the number of units alone. *)
Lemma b_frame s s' : b_word s' = b_word s → b_counted s' = b_counted s → b_future s' = b_future s →
  phase_ok (b_holder s') (b_future s') → (0 < b_tickets s → 0 < b_tickets s') →
  (b_woken s' = true → b_future s' ≠ None → about_to_poll s') → b_inv s → b_inv s'.
Proof.
  intros Hw Ho Hf Hp Ht Hk (Hm & (f & Hfl & Hfw) & _ & Htk & _). unfold b_inv. rewrite Hw, Ho.
  split_and!; [done|exists f; by rewrite Hf|done|rewrite Hf; auto|done].
Qed.

Lemma b_increment_inv s s' : b_inv s → b_increment s = Ok s' → b_inv s'.
Proof.
  intros HI H. pose proof HI as (Hm & (f & Hf & Hw) & Hp & Ht & Hk). unfold b_increment in H. rewrite Hw in H.
  destruct (decide (b_counted s = MAX_WORK)) as [He|Hne]; [rewrite He, increment_work_full in H; done|].
  rewrite increment_work_word in H by lia. cbn in H. injection H as <-. clear HI.
  destruct s as [w c tq q i o p j wt h fu wk wo d]. b_unfold.
  assert (decide_from f (length c + length tq + q + i + o + phase_count h + d) = Schedule → fu = None) as Hd.
  { destruct fu; [|done]. cbn in Hf. subst f. done. }
  assert (fu = None → decide_from f (length c + length tq + q + i + o + phase_count h + d) ≠ Schedule → length c + length tq + q + i + o + phase_count h + d ≠ 0) as Hz.
  { intros -> Hn He. apply Hn. rewrite He. cbn in Hf. by destruct Hf as [-> | ->]. }
  case_decide; cbn; b_unfold; (split_and!; [lia|exists f; split; [done|f_equal; lia]|done| |done]); intros Hfu _; [destruct h; lia|].
  specialize (Hz Hfu ltac:(done)). specialize (Ht Hfu Hz). destruct h; lia.
Qed.

(** Going out of the critical section: what is left to do is somebody's. *)
Lemma b_decide_inv d s : b_counted s ≤ MAX_WORK → (∃ f, flag_ok (b_future s) f ∧ b_word s = word f (b_counted s)) →
  b_holder s = None → (b_future s = None → b_counted s ≠ 0 → d = Schedule ∨ d = Resume) →
  (b_woken s = true → b_future s ≠ None → about_to_poll s) → b_inv (b_decide d s).
Proof.
  intros Hm Hw Hh Hd Hk. destruct s as [w c tq q i o p j wt h fu wk wo dr]. b_unfold. subst h.
  destruct d; cbn; b_unfold; (split_and!; [done|done|done| |]); try (intros; lia); try done;
    intros Hf Ho; destruct (Hd Hf Ho); done.
Qed.

Lemma b_finish_inv s s' : b_inv s → b_finish s = Ok s' → b_inv s'.
Proof.
  intros (Hm & (f & Hf & Hw) & Hp & Ht & Hk) H. unfold b_finish in H. destruct (b_holder s) as [[count over| |]|] eqn:Hh; try done.
  destruct s as [w c tq q i o p j wt h fu wk wo d]. b_unfold. subst h. b_unfold. rewrite Hw in H. cbn in H, Hp. rewrite decrement_work_word in H by lia.
  cbn in H. injection H as <-. apply b_decide_inv; b_unfold; [lia|exists f; split; [done|f_equal; lia]|done| |done].
  intros _ Ho. left. rewrite decide_False by lia. done.
Qed.

Lemma b_settle_inv s s' : b_inv s → b_settle s = Ok s' → b_inv s'.
Proof.
  intros (Hm & (f & Hf & Hw) & Hp & Ht & Hk) H. unfold b_settle in H. destruct (b_holder s) as [[| |[count|] completed]|] eqn:Hh; try done;
    destruct s as [w c tq q i o p j wt h fu wk wo d]; b_unfold; subst h; b_unfold; rewrite Hw in H; cbn in H, Hp.
  - rewrite decrement_work_word in H by (cbn; lia). cbn in H. injection H as <-.
    apply b_decide_inv; b_unfold; [lia|exists f; split; [done|f_equal; lia]|done| |done].
    intros Hfu Ho. destruct completed; [|done]. right. rewrite decide_False by lia. done.
  - rewrite decision_word in H by lia. cbn in H. injection H as <-.
    apply b_decide_inv; b_unfold; [lia|exists f; split; [done|f_equal; lia]|done| |done].
    intros Hfu Ho. destruct completed; [|done]. right. rewrite Hfu in Hf. cbn in Hf. destruct Hf as [-> | ->]; cbn; by case_decide.
Qed.

Lemma b_poll_inv o s s' : b_inv s → b_poll o s = Ok s' → b_inv s'.
Proof.
  intros (Hm & (f & Hf & Hw) & Hp & Ht & Hk) H. unfold b_poll in H. destruct (b_holder s) as [[|count|]|] eqn:Hh; try done.
  destruct (b_future s) as [t|] eqn:Hfu; [|done]. cbn in Hf. subst f.
  destruct s as [w c tq q i ot p j wt h fu wk wo d]. b_unfold. subst h fu. b_unfold.
  destruct o; [injection H as <-|apply bind_Ok in H as (w' & Hu & [= <-])|injection H as <-]; cbn; b_unfold.
  - by destruct count; (split_and!; [done|by exists FBlocking| | |]).
  - destruct count as [count|]; (split_and!; [done| |done|lia|done]); subst w; destruct t; cbn in Hu; try done; injection Hu as <-;
      first [exists FActive; split; [by left|]; by apply (set_state_word FBlocking FActive)|exists FPassive; split; [by right|]; by apply (set_state_word FBlocking FPassive)].
  - by destruct count; (split_and!; [done|by exists FBlocking| | |]).
Qed.

Lemma b_handled_inv blocks t count over s : b_holder s = Some (Handling count over) → b_future s = None → S (b_counted s) ≤ MAX_WORK →
  (∃ f, schedulable f ∧ b_word s = word f (S (b_counted s))) → b_inv (b_handled blocks t count over s).
Proof.
  intros Hh Hfu Hm (f & Hf & Hw). destruct s as [w c tq q i ot p j wt h fu wk wo d]. b_unfold. subst h fu. b_unfold.
  destruct blocks; cbn; b_unfold.
  - split_and!; [lia| |done|done|done]. exists FBlocking. split; [done|]. subst w. unfold set_blocking.
    rewrite (set_state_word f FBlocking) by lia. f_equal. lia.
  - split_and!; [lia|exists f; split; [done|rewrite Hw; f_equal; lia]|done|lia|done].
Qed.

Ltac b_same HI s :=
  eapply b_frame; [| | | | | |exact HI]; clear HI; destruct s as [? ? ? ? ? ? ? ? ? [?|] ? ? ? ?]; cbn in *; b_unfold; cbn in *;
  first [done | lia | intuition lia].

Lemma push_counts e c tq q :
  length (push_ctrl e c) + length (push_timer e tq) + push_queued e q = S (length c + length tq + q).
Proof. destruct e; cbn; rewrite ?length_app; cbn; lia. Qed.

Lemma b_pop_timer_inv blocks s s' : b_inv s → b_pop_timer blocks s = Ok s' → b_inv s'.
Proof.
  unfold b_pop_timer. intros (Hm & (f & Hf & Hw) & Hp & Ht & Hk). destruct (b_holder s) as [[count []| |]|] eqn:Hh; try done.
  destruct (b_timeouts s) as [|live q] eqn:Hq; [done|]. cbn in Hp. intros ([] & _ & H)%bind_Ok. rewrite Hp in Hf. cbn in Hf.
  destruct s as [w c tq qd i ot p j wt h fu wk wo d]. b_unfold. subst. b_unfold. destruct live; injection H as <-.
  - apply b_handled_inv; b_unfold; cbn; [done|done|lia|]. exists f. split; [done|]. f_equal; lia.
  - cbn; b_unfold. split_and!; [lia|exists f; split; [done|f_equal; lia]|done|lia|done].
Qed.

Lemma b_cancel_inv k s s' : b_inv s → b_cancel k s = Ok s' → b_inv s'.
Proof.
  unfold b_cancel. intros HI. destruct (b_holder s) as [h|] eqn:Hh; [|done]. destruct (b_timeouts s !! k) as [[]|]; try done. intros [= <-].
  destruct s as [w c tq qd i ot p j wt h' fu wk wo d]. b_unfold. cbn. by rewrite length_insert.
Qed.

Lemma b_step_inv l s s' : b_inv s → b_step l s = Ok s' → b_inv s'.
Proof.
  intros HI. destruct l; cbn [b_step].
  - by apply b_increment_inv.
  - intros (n & Hn%take_one_Ok & [= <-])%bind_Ok. pose proof (push_counts e (b_ctrl s) (b_timeouts s) (b_queued s)). pose proof HI as (_ & _ & Hp & _ & Hk).
    b_same HI s.
  - intros (n & Hn%take_one_Ok & [= <-])%bind_Ok. pose proof (push_counts e (b_ctrl s) (b_timeouts s) (b_queued s)). pose proof HI as (_ & _ & Hp & _ & Hk).
    b_same HI s.
  - intros (n & Hn%take_one_Ok & [= <-])%bind_Ok. pose proof HI as (_ & _ & Hp & _ & Hk).
    b_same HI s.
  - intros ([] & _ & [= <-])%bind_Ok. pose proof HI as (_ & _ & Hp & _ & Hk).
    b_same HI s.
  - intros (n & Hn%take_one_Ok & [= <-])%bind_Ok. pose proof HI as (_ & _ & Hp & _ & Hk).
    b_same HI s.
  - intros (n & Hn%take_one_Ok & H)%bind_Ok. destruct (b_holder s) eqn:Hh; [done|]. injection H as <-.
    destruct HI as (Hm & Hf & Hp & Ht & Hk). destruct s as [w c tq q i ot p j wt h fu wk wo d]. b_unfold. subst h wt. b_unfold.
    destruct fu; cbn; b_unfold; (split_and!; [lia|naive_solver|done|lia|naive_solver]).
  - unfold b_pop_control. destruct HI as (Hm & (f & Hf & Hw) & Hp & Ht & Hk). destruct (b_holder s) as [[count over| |]|] eqn:Hh; try done.
    destruct (b_ctrl s) as [|e q] eqn:Hq; [done|]. cbn in Hp. intros (w & Hcw & [= <-])%bind_Ok. rewrite Hp in Hf. cbn in Hf. rewrite Hw in Hcw.
    apply control_word_Ok in Hcw as (f' & Hf' & ->); [|done..]. destruct s. b_unfold. subst. cbn in *.
    apply b_handled_inv; b_unfold; [done|done|cbn; lia|]. exists f'. split; [done|]. f_equal; lia.
  - by apply b_pop_timer_inv.
  - unfold b_pop. destruct HI as (Hm & (f & Hf & Hw) & Hp & Ht & Hk). destruct (b_holder s) as [[count over| |]|] eqn:Hh; try done.
    cbn in Hp. intros ([] & _ & (q & Hq%take_one_Ok & [= <-])%bind_Ok)%bind_Ok. rewrite Hp in Hf. cbn in Hf. destruct s. b_unfold. subst. b_unfold.
    apply b_handled_inv; b_unfold; cbn; [done|done|lia|]. exists f. split; [done|]. f_equal; lia.
  - by apply b_cancel_inv.
  - by apply b_poll_inv.
  - by apply b_settle_inv.
  - by apply b_finish_inv.
Qed.

Lemma b_reachable_inv s : b_reachable s → b_inv s.
Proof. induction 1; [apply init_blk_inv|by eapply b_step_inv]. Qed.

Lemma b_run_reachable ls s s' : b_reachable s → b_run ls s = Ok s' → b_reachable s'.
Proof.
  revert s. induction ls as [|l ls IH]; intros s Hs; [by intros [= <-]|].
  intros (s1 & H1 & H2)%bind_Ok. eapply IH; [|done]. by econstructor.
Qed.

Lemma lock_polls s : b_holder s = None → b_future s ≠ None → 0 < b_jobs s + b_waiting s →
  ∃ ls s', b_run ls s = Ok s' ∧ b_holder s' = Some (Polling None).
Proof.
  destruct s as [w c tq q i o p j wt h [t|] wk wo d]; cbn; intros -> Hf Hj; [|done].
  destruct wt as [|wt]; [destruct j as [|j]; [lia|exists [BExecute; BLock]]|exists [BLock]]; by eexists.
Qed.

Lemma b_run_app ls ls' s s1 s2 : b_run ls s = Ok s1 → b_run ls' s1 = Ok s2 → b_run (ls ++ ls') s = Ok s2.
Proof.
  revert s. induction ls as [|l ls IH]; intros s; [by intros [= ->]|]. intros (s0 & H0 & H1)%bind_Ok H2. cbn. rewrite H0. by apply IH.
Qed.

Lemma woken_polled s : b_inv s → b_woken s = true → b_future s ≠ None →
  ∃ ls s' count, b_run ls s = Ok s' ∧ b_holder s' = Some (Polling count).
Proof.
  intros HI Hwo Hfu. pose proof HI as (Hm & (f & Hf & Hw) & Hp & _ & Hk). specialize (Hk Hwo Hfu). unfold about_to_poll in Hk.
  destruct (b_holder s) as [[c ov|c|c b]|] eqn:Hh; [by destruct Hfu|by exists [], s, c|..].
  - destruct b; [by destruct Hfu|].
    assert (∃ s1, b_settle s = Ok s1 ∧ b_holder s1 = None ∧ b_future s1 = b_future s ∧ 0 < b_jobs s1 + b_waiting s1) as (s1 & H1 & Hh1 & Hf1 & Hj1).
    { unfold b_settle. rewrite Hh, Hw. destruct c as [c|].
      - rewrite decrement_work_word; [|done|unfold b_counted, b_outstanding; rewrite Hh; cbn; lia]. cbn. eexists. split; [done|]. destruct s. cbn in *. intuition.
      - rewrite decision_word by done. cbn. eexists. split; [done|]. destruct s. cbn in *. intuition. }
    destruct (lock_polls s1 Hh1 ltac:(by rewrite Hf1) Hj1) as (ls & s' & Hr & Hs'). exists (BSettle :: ls), s', None. cbn. by rewrite H1.
  - destruct (lock_polls s Hh Hfu ltac:(lia)) as (ls & s' & Hr & Hs'). by exists ls, s', None.
Qed.

(** C26: whatever producers, wakers and executions of a component do that blocks on
    futures and is neither killed, shut down nor made faulty: the word counts its
    outstanding work, together with the timeouts that were taken from the queue after
    their timers had been cancelled and are never subtracted, and says whether the
    component is blocked; a component that is not blocked and has work is running or
    bound to run; and when a waker is called while a future blocks the component, the
    future is polled again: a thread is under way, and its own steps lead to the poll. *)
Theorem blocking_safe (s : Blk) : b_reachable s →
  (∃ f, flag_ok (b_future s) f ∧ b_word s = word f (b_outstanding s + b_dropped s))
  ∧ (b_future s = None → b_outstanding s ≠ 0 → 0 < b_tickets s)
  ∧ (b_woken s = true → b_future s ≠ None →
       about_to_poll s ∧ ∃ ls s' count, b_run ls s = Ok s' ∧ b_holder s' = Some (Polling count)).
Proof.
  intros Hr. pose proof (b_reachable_inv s Hr) as HI. pose proof HI as (_ & Hw & _ & Ht & Hk).
  split; [done|split]; [intros Hf Ho; apply Ht; [done|unfold b_counted; lia]|].
  intros Hwo Hfu. split; [by apply Hk|by apply woken_polled].
Qed.

(** ** Two faults *)

(** A component that comes out of blocking runs again at once, and a producer that finds
    it without work schedules it as well: two threads execute it, one of which waits
    for the mutex. *)
Definition two_threads_run : list BLabel :=
  [BIncrement; BPushSchedule (WControl Start); BCallSchedule; BExecute; BLock; BPopControl true; BPoll PPending; BSettle;
   BWake; BExecute; BLock; BPoll PReady; BIncrement; BPushSchedule WOther; BCallSchedule; BSettle; BExecute; BLock].

Theorem two_threads_execute : ∃ s, b_reachable s ∧ b_holder s = Some (Handling 0 false) ∧ b_waiting s = 1.
Proof.
  destruct (b_run two_threads_run init_blk) as [s|[]|] eqn:Hr; [|by vm_compute in Hr..].
  exists s. split; [by eapply b_run_reachable; [constructor|]|]. vm_compute in Hr. by injection Hr as <-.
Qed.

(** A component whose future completed with another one that nobody polled. *)
Definition forgotten (s : Blk) : Prop :=
  b_future s ≠ None ∧ b_holder s = None ∧ b_wakers s = false ∧ (∃ n, b_word s = word FBlocking n ∧ n ≤ MAX_WORK)
  ∧ b_inc_schedule s = 0 ∧ b_pushed s = 0 ∧ b_jobs s = 0 ∧ b_waiting s = 0.

Lemma forgotten_step l s s' : forgotten s → b_step l s = Ok s' → forgotten s'.
Proof.
  intros (Hf & Hh & Hk & (n & Hw & Hn) & Hi & Hp & Hj & Hwt).
  destruct s as [w c tq q i o p j wt h fu wk wo d]. cbn in *. subst. destruct l; try done.
  - unfold b_step, b_increment. cbn [b_word]. destruct (decide (n = MAX_WORK)) as [->|Hne]; [by rewrite increment_work_full|].
    rewrite increment_work_word by lia. cbn. intros [= <-]. unfold forgotten. cbn. split_and!; try done. exists (S n). split; [done|lia].
  - cbn. intros (m & Hm & [= <-])%bind_Ok. unfold forgotten. cbn. split_and!; try done. by exists n.
Qed.

Definition forgotten_run : list BLabel :=
  [BIncrement; BPushSchedule (WControl Start); BCallSchedule; BExecute; BLock; BPopControl true; BPoll PBlockOn; BSettle].

(** A future that a component blocks on and that completes with another future to block
    on leaves the component blocked forever: the second future is never polled, so that
    nobody has a waker for it. *)
Theorem chained_future_forgotten : ∃ s, b_reachable s ∧ b_future s = Some TStarted
  ∧ ∀ ls s', b_run ls s = Ok s' → b_future s' ≠ None ∧ b_holder s' = None ∧ b_jobs s' = 0.
Proof.
  destruct (b_run forgotten_run init_blk) as [s|[]|] eqn:Hr; [|by vm_compute in Hr..]. exists s.
  split; [by eapply b_run_reachable; [constructor|]|].
  assert (b_future s = Some TStarted ∧ forgotten s) as [Hf Hs].
  { vm_compute in Hr. injection Hr as <-. split; [done|]. unfold forgotten. split_and!; try done. exists 0. split; [vm_compute; reflexivity|lia]. }
  split; [done|]. clear Hr Hf. intros ls. revert s Hs. induction ls as [|l ls IH]; intros s Hs s'.
  - intros [= <-]. destruct Hs as (? & ? & _ & _ & _ & _ & ? & _). done.
  - intros (s1 & H1 & H2)%bind_Ok. eapply IH; [|done]. by eapply forgotten_step.
Qed.

(** A blocked component that is woken. *)
Definition woken_run : list BLabel :=
  [BIncrement; BPushSchedule (WControl Start); BCallSchedule; BExecute; BLock; BPopControl true; BPoll PPending; BIncrement; BWake].
Definition woken_state : Blk := match b_run woken_run init_blk with Ok s => s | _ => init_blk end.

Lemma blocking_safe_witness :
  b_woken woken_state = true ∧ ∃ ls s' count, b_run ls woken_state = Ok s' ∧ b_holder s' = Some (Polling count).
Proof.
  split; [vm_compute; reflexivity|]. destruct (blocking_safe woken_state) as (_ & _ & H).
  - apply (b_run_reachable woken_run init_blk); [constructor|]. vm_compute. reflexivity.
  - apply H; [vm_compute; reflexivity|]. vm_compute. discriminate.
Defined.
