(* ===== verification/Tasks.v ===== *)
(** * Futures that run on a component

    Model of the futures a component runs besides its handlers: [spawn_local]
    ([core/src/component/definition.rs]), [NonBlockingFuture] with its waker
    ([core/src/component/future_task.rs]), the table of futures in the context and
    [run_nonblocking_task] ([core/src/component/context.rs]).

    The futures are clients: what one does while it is polled (spawning other futures
    through its access to the definition, keeping clones of its waker) and how the poll
    ends is chosen by the label of a step, and so is whether an insertion makes the hash
    table of the futures move.  A tag stands for the [Uuid] of a future; every future
    has a new one.  Everything happens under the mutex of the component, but for the
    calls of wakers.  Blocking of the component is the matter of [Blocking]: it delays the
    steps that take control events. *)

From stdpp Require Import gmultiset.
From S2P Require Import Prelude Scheduling.

(** What a handler or a poll does that concerns futures. *)
Inductive Act :=
| ASpawn (moves : bool)   (** [spawn_local]; [moves]: the table is reallocated *)
| AClone.                 (** [cx.waker().clone()], handed to whoever completes the operation *)

(** How a poll ends. *)
Inductive Out := OPending | OReady | OPanic.

Record Tasks := mkTasks {
  t_futures : gset Z;            (** the keys of [non_blocking_futures] *)
  t_table : nat;                 (** the allocation the table is in *)
  t_ctrl : list ControlEvent;
  t_wakers : gmultiset Z;            (** clones of the wakers that others hold *)
  t_next : Z;                    (** the next tag *)
  t_live : bool;                 (** the component is still executed *)
  t_outside : nat;               (** strong references to the component from elsewhere *)
  t_log : list (Z * Out);        (** the polls so far, the last one first *)
}.

Definition init_tasks : Tasks := mkTasks ∅ 0 [] ∅ 0 true 1 [].

Definition set_futures f (s : Tasks) : Tasks :=
  let '(mkTasks _ tb c w n l o g) := s in mkTasks f tb c w n l o g.
Definition set_table tb (s : Tasks) : Tasks :=
  let '(mkTasks f _ c w n l o g) := s in mkTasks f tb c w n l o g.
Definition set_t_ctrl c (s : Tasks) : Tasks :=
  let '(mkTasks f tb _ w n l o g) := s in mkTasks f tb c w n l o g.
Definition set_wakers w (s : Tasks) : Tasks :=
  let '(mkTasks f tb c _ n l o g) := s in mkTasks f tb c w n l o g.
Definition set_next n (s : Tasks) : Tasks :=
  let '(mkTasks f tb c w _ l o g) := s in mkTasks f tb c w n l o g.
Definition set_live l (s : Tasks) : Tasks :=
  let '(mkTasks f tb c w n _ o g) := s in mkTasks f tb c w n l o g.
Definition set_outside o (s : Tasks) : Tasks :=
  let '(mkTasks f tb c w n l _ g) := s in mkTasks f tb c w n l o g.
Definition add_log p (s : Tasks) : Tasks :=
  let '(mkTasks f tb c w n l o g) := s in mkTasks f tb c w n l o (p :: g).

Ltac t_cbn := cbn [set_futures set_table set_t_ctrl set_wakers set_next set_live set_outside add_log
  t_futures t_table t_ctrl t_wakers t_next t_live t_outside t_log] in *.

(** A step that is not possible, and a use of the waker in a table that is gone. *)
Inductive TaskError := Disabled | Dangling.
Abbreviation tres := (res TaskError Tasks).

(** [TaskWaker::wake_by_ref]. *)
Definition task_wake (tag : Z) (s : Tasks) : Tasks := set_t_ctrl (t_ctrl s ++ [Poll tag]) s.

(** [non_blocking], [future.schedule()] and the insertion into the table. *)
Definition spawn_local (moves : bool) (s : Tasks) : Tasks :=
  let tag := t_next s in
  let s := task_wake tag (set_next (tag + 1)%Z s) in
  set_table (if moves then S (t_table s) else t_table s) (set_futures (t_futures s ∪ {[tag]}) s).

(** [waker] is where the waker of the future that is being polled lies: the [Context] of
    the poll has a reference into the entry of the table. *)
Definition act (waker : option (nat * Z)) (a : Act) (s : Tasks) : tres :=
  match a, waker with
  | ASpawn moves, _ => Ok (spawn_local moves s)
  | AClone, Some (table, tag) =>
      if decide (table = t_table s) then Ok (set_wakers ({[+ tag +]} ⊎ t_wakers s) s) else Err Dangling
  | AClone, None => Err Disabled
  end.
Definition acts (waker : option (nat * Z)) (l : list Act) (s : Tasks) : tres := for_each l (act waker) s.

(** [NonBlockingFuture::run]. *)
Definition run_future (tag : Z) (l : list Act) (out : Out) (s : Tasks) : tres :=
  s ← acts (Some (t_table s, tag)) l s; Ok (add_log (tag, out) s).

Definition t_run_nonblocking_task (tag : Z) (l : list Act) (out : Out) (s : Tasks) : tres :=
  if decide (tag ∈ t_futures s) then
    s ← run_future tag l out s;
    match out with
    | OPending => Ok s
    | OReady => Ok (set_futures (t_futures s ∖ {[tag]}) s)
    | OPanic => Ok (set_live false s)
    end
  else Ok s.

Inductive TLabel :=
| LPop (l : list Act) (out : Out)     (** the next control event is handled *)
| LHandle (l : list Act)              (** any other event is handled *)
| LControl (e : ControlEvent)         (** somebody starts, stops or kills the component *)
| LWake (tag : Z) (keeps : bool)      (** a clone of a waker is called, and then kept or dropped *)
| LEnd                                (** the component was destroyed, or is faulty *)
| LRelease.                           (** a reference to the component is dropped *)

Definition t_step (lab : TLabel) (s : Tasks) : tres :=
  match lab with
  | LPop l out =>
      if t_live s then
        match t_ctrl s with
        | Poll tag :: rest => t_run_nonblocking_task tag l out (set_t_ctrl rest s)
        | _ :: rest => acts None l (set_t_ctrl rest s)
        | [] => Err Disabled
        end
      else Err Disabled
  | LHandle l => if t_live s then acts None l s else Err Disabled
  | LControl (Poll _) => Err Disabled
  | LControl e => Ok (set_t_ctrl (t_ctrl s ++ [e]) s)
  | LWake tag keeps =>
      if decide (tag ∈ t_wakers s)
      then Ok (task_wake tag (if keeps then s else set_wakers (t_wakers s ∖ {[+ tag +]}) s))
      else Err Disabled
  | LEnd => Ok (set_live false s)
  | LRelease => match t_outside s with S n => Ok (set_outside n s) | O => Err Disabled end
  end.

Definition t_run (ls : list TLabel) (s : Tasks) : tres := for_each ls t_step s.

(** The contract of a future: a poll that ends in [Poll::Pending] keeps the waker. *)
Definition keeps_waker (lab : TLabel) (s : Tasks) : Prop :=
  match lab, t_ctrl s with
  | LPop l OPending, Poll tag :: _ => tag ∈ t_futures s → AClone ∈ l
  | _, _ => True
  end.

Inductive t_reachable : Tasks → Prop :=
| t_reach_init : t_reachable init_tasks
| t_reach_step s lab s' : t_reachable s → keeps_waker lab s → t_step lab s = Ok s' → t_reachable s'.

(** ** What a handler or a poll adds *)
Record grown (o : option Z) (s s' : Tasks) : Prop := {
  gr_futures : t_futures s ⊆ t_futures s';
  gr_new : ∀ t, t ∈ t_futures s' → t ∈ t_futures s ∨ (t_next s ≤ t < t_next s')%Z ∧ Poll t ∈ t_ctrl s';
  gr_ctrl : ∃ q, t_ctrl s' = t_ctrl s ++ q ∧ ∀ t, Poll t ∈ q → (t_next s ≤ t < t_next s')%Z;
  gr_wakers : ∀ t, t ∈ t_wakers s → t ∈ t_wakers s';
  gr_waker : ∀ t, t ∈ t_wakers s' → t ∈ t_wakers s ∨ o = Some t;
  gr_next : (t_next s ≤ t_next s')%Z;
  gr_rest : t_live s' = t_live s ∧ t_outside s' = t_outside s ∧ t_log s' = t_log s;
}.

Lemma grown_refl o s : grown o s s.
Proof. split; try done; try lia; try (intros t; by left). exists []. split; [by rewrite app_nil_r|]. intros t []%not_elem_of_nil. Qed.

Lemma grown_trans o s1 s2 s3 : grown o s1 s2 → grown o s2 s3 → grown o s1 s3.
Proof.
  intros [F1 N1 (q1 & C1 & Q1) W1 V1 X1 (L1 & O1 & G1)] [F2 N2 (q2 & C2 & Q2) W2 V2 X2 (L2 & O2 & G2)].
  split; try lia; try congruence.
  - set_solver.
  - intros t [Ht|Ht]%N2; [|right; split; [lia|apply Ht]].
    apply N1 in Ht as [Ht|[Hb Hp]]; [by left|]. right. split; [lia|]. rewrite C2. apply elem_of_app. by left.
  - exists (q1 ++ q2). split; [by rewrite C2, C1, app_assoc|].
    intros t [H|H]%elem_of_app; [apply Q1 in H|apply Q2 in H]; lia.
  - auto.
  - intros t [Ht|Ht]%V2; [|by right]. by apply V1.
  - split_and!; congruence.
Qed.

Lemma spawn_grown o moves s : grown o s (spawn_local moves s).
Proof.
  destruct s as [f tb c w n l og g]. split; cbn; try lia; try done; try (intros t; by left).
  - set_solver.
  - intros t. rewrite elem_of_union, elem_of_singleton. intros [Ht| ->]; [by left|]. right. split; [lia|].
    apply elem_of_app. right. by apply list_elem_of_singleton.
  - exists [Poll n]. split; [done|]. intros t Ht%list_elem_of_singleton. injection Ht as ->. lia.
Qed.

Lemma act_grown wk a s s' : act wk a s = Ok s' → grown (snd <$> wk) s s'.
Proof.
  unfold act. destruct a as [moves|]; [intros [= <-]; apply spawn_grown|].
  destruct wk as [[tb tag]|]; [|done]. case_decide; [|done]. intros [= <-].
  destruct s as [f tb' c w n l og g]. split; t_cbn; try lia; try done; try (intros t; by left).
  - exists []. split; [by rewrite app_nil_r|]. intros t []%not_elem_of_nil.
  - intros t Ht. apply gmultiset_elem_of_disj_union. by right.
  - intros t [->%gmultiset_elem_of_singleton|Ht]%gmultiset_elem_of_disj_union; auto.
Qed.

Lemma acts_grown wk l s s' : acts wk l s = Ok s' → grown (snd <$> wk) s s'.
Proof.
  unfold acts. revert s. induction l as [|a l IH]; intros s; [intros [= <-]; apply grown_refl|].
  intros (s1 & H1 & H2)%bind_Ok. eapply grown_trans; [by eapply act_grown|by apply IH].
Qed.

(** A waker that was cloned is held. *)
Lemma acts_clone tb tag l s s' : acts (Some (tb, tag)) l s = Ok s' → AClone ∈ l → tag ∈ t_wakers s'.
Proof.
  unfold acts. revert s. induction l as [|a l IH]; intros s; [by intros _ []%not_elem_of_nil|].
  intros (s1 & H1 & H2)%bind_Ok. intros [<-|Hin]%elem_of_cons; [|by eapply IH].
  eapply gr_wakers; [by eapply acts_grown|]. unfold act in H1. case_decide; [|done]. injection H1 as <-.
  destruct s; t_cbn. apply gmultiset_elem_of_disj_union. left. by apply gmultiset_elem_of_singleton.
Qed.

(** ** The invariant *)
Fixpoint log_ok (log : list (Z * Out)) : Prop :=
  match log with
  | [] => True
  | (t, _) :: earlier => (∀ o, (t, o) ∈ earlier → o = OPending) ∧ log_ok earlier
  end.

(** [x]: the future whose event was just taken. *)
Record t_inv (x : option Z) (s : Tasks) : Prop := {
  ti_future : ∀ t, t ∈ t_futures s →
    (t < t_next s)%Z ∧ (t_live s = true → x ≠ Some t → Poll t ∈ t_ctrl s ∨ t ∈ t_wakers s);
  ti_log : log_ok (t_log s);
  ti_pending : t_live s = true → ∀ t o, (t, o) ∈ t_log s → t ∈ t_futures s → o = OPending;
  ti_logged : ∀ t o, (t, o) ∈ t_log s → (t < t_next s)%Z;
}.

Lemma t_init_inv : t_inv None init_tasks.
Proof. split; cbn; try set_solver; try (intros; by apply not_elem_of_nil in H). all: intros; by apply not_elem_of_nil in H0. Qed.

(** Handlers and polls keep it. *)
Lemma grown_inv x o s s' : t_inv x s → grown o s s' → t_inv x s'.
Proof.
  intros [Hf Hl Hp Hg] [F N (q & C & Q) W V X (L & O & G)]. split.
  - intros t [Ht|[Hb Hq]]%N; [|split; [lia|by left]].
    destruct (Hf t Ht) as [Hlt Hor]. split; [lia|]. rewrite L, C. intros Hli Hx.
    destruct (Hor Hli Hx) as [H|H]; [left|right; by apply W]. apply elem_of_app. by left.
  - by rewrite G.
  - rewrite L, G. intros Hli t out Hin Ht. apply N in Ht as [Ht|[Hb _]]; [by eapply Hp|].
    apply Hg in Hin. lia.
  - rewrite G. intros t out Hin%Hg. lia.
Qed.

(** Taking an event out of the queue. *)
Lemma t_pop_inv s e rest : t_inv None s → t_ctrl s = e :: rest →
  t_inv (if e is Poll tag then Some tag else None) (set_t_ctrl rest s).
Proof.
  intros [Hf Hl Hp Hg] Hc. destruct s as [f tb c w n l og g]. t_cbn. subst c. split; t_cbn; [|done..].
  intros t Ht. destruct (Hf t Ht) as [Hlt Hor]. split; [done|]. intros Hli Hx.
  destruct (Hor Hli) as [[<-|H]%elem_of_cons|H]; auto; done.
Qed.

(** A poll. *)
Lemma task_inv s tag l out s' : t_inv (Some tag) s → (tag ∈ t_futures s → out = OPending → AClone ∈ l) →
  t_live s = true → t_run_nonblocking_task tag l out s = Ok s' → t_inv None s'.
Proof.
  intros HI Hk Hlive. unfold t_run_nonblocking_task, run_future. case_decide as Hin.
  2:{ intros [= <-]. destruct HI as [Hf Hl Hp Hg]. split; try done. intros t Ht. destruct (Hf t Ht) as [? Hor].
      split; [done|]. intros Hli _. apply Hor; [done|]. congruence. }
  intros (s2 & (s1 & H1 & [= <-])%bind_Ok & H3)%bind_Ok.
  pose proof (acts_grown _ _ _ _ H1) as Hgr. pose proof (acts_clone _ _ _ _ _ H1) as Hcl.
  pose proof (grown_inv _ _ _ _ HI Hgr) as [Hf Hl Hp Hg].
  assert (tag ∈ t_futures s1) as Hin1 by (by apply (gr_futures _ _ _ Hgr)).
  assert (t_live s1 = true) as Hl1 by (by rewrite (proj1 (gr_rest _ _ _ Hgr))).
  destruct s1 as [f tb c w n lv og g]. t_cbn. subst lv.
  assert (∀ o, (tag, o) ∈ g → o = OPending) as Hpend by (intros o Ho; by eapply Hp).
  assert (∀ t o, (t, o) ∈ (tag, out) :: g → (t < n)%Z) as Hg'.
  { intros t o [[= -> ->]|Ho]%elem_of_cons; [by apply Hf|by eapply Hg]. }
  destruct out; injection H3 as <-; split; t_cbn; try done.
  - intros t Ht. destruct (Hf t Ht) as [? Hor]. split; [done|]. intros _ _.
    destruct (decide (t = tag)) as [-> |Hne]; [right; by apply Hcl, Hk|]. apply Hor; congruence.
  - intros _ t o [[= -> ->]|Ho]%elem_of_cons; [done|]. by apply (Hp eq_refl).
  - intros t (Ht & Hne)%elem_of_difference. destruct (Hf t Ht) as [? Hor]. split; [done|]. intros _ _.
    apply Hor; [done|]. set_solver.
  - intros _ t o [[= -> ->]|Ho]%elem_of_cons; [set_solver|]. intros (Ht & _)%elem_of_difference. by eapply Hp.
  - intros t Ht. split; [by apply Hf|done].
Qed.

Lemma wake_inv tag keeps s : t_inv None s →
  t_inv None (task_wake tag (if keeps : bool then s else set_wakers (t_wakers s ∖ {[+ tag +]}) s)).
Proof.
  intros [Hf Hl Hp Hg]. destruct s as [f tb c w n l og g]. t_cbn.
  assert (∀ t, t ∈ f → (t < n)%Z ∧ (l = true → None ≠ Some t → Poll t ∈ c ++ [Poll tag]
    ∨ t ∈ (if keeps then w else w ∖ {[+ tag +]}))) as Hf'.
  { intros t Ht. destruct (Hf t Ht) as [? Hor]. split; [done|]. intros Hli Hx.
    destruct (decide (t = tag)) as [-> |Hne].
    - left. apply elem_of_app. right. by apply list_elem_of_singleton.
    - destruct (Hor Hli Hx) as [H'|H']; [left; apply elem_of_app; by left|]. right.
      destruct keeps; [done|]. revert H'. rewrite !elem_of_multiplicity, multiplicity_difference, multiplicity_singleton_ne by done. lia. }
  destruct keeps; by split; unfold task_wake; t_cbn.
Qed.

Lemma t_step_inv s lab s' : t_inv None s → keeps_waker lab s → t_step lab s = Ok s' → t_inv None s'.
Proof.
  intros HI Hk. destruct lab as [l out|l|e|tag keeps| |]; cbn [t_step].
  - destruct (t_live s) eqn:Hlive; [|done]. destruct (t_ctrl s) as [|e rest] eqn:Hc; [done|].
    pose proof (t_pop_inv s e rest HI Hc) as HI1.
    assert (t_live (set_t_ctrl rest s) = true) as Hl1 by (by destruct s).
    destruct e; try (intros H%acts_grown; by eapply grown_inv).
    apply task_inv; [done| |done]. unfold keeps_waker in Hk. rewrite Hc in Hk.
    destruct s. intros Hin ->. by apply Hk.
  - destruct (t_live s); [|done]. intros H%acts_grown. by eapply grown_inv.
  - destruct HI as [Hf Hl Hp Hg]. destruct s as [f tb c w n l og g].
    assert (∀ e, t_inv None (set_t_ctrl (c ++ [e]) (mkTasks f tb c w n l og g))) as H.
    { intros e'. split; t_cbn; try done. intros t Ht. destruct (Hf t Ht) as [? Hor]. split; [done|].
      intros Hli Hx. destruct (Hor Hli Hx); [left; apply elem_of_app; by left|by right]. }
    destruct e; [intros [= <-]; apply H..|done].
  - case_decide; [|done]. intros [= <-]. by apply wake_inv.
  - intros [= <-]. destruct HI as [Hf Hl Hp Hg]. destruct s as [f tb c w n l og g]. split; t_cbn; try done.
    intros t Ht. split; [by apply Hf|done].
  - destruct (t_outside s); [done|]. intros [= <-]. destruct HI as [Hf Hl Hp Hg].
    destruct s as [f tb c w n' l og g]. by split.
Qed.

Lemma t_reachable_inv s : t_reachable s → t_inv None s.
Proof. induction 1; [apply t_init_inv|by eapply t_step_inv]. Qed.

(** ** Every event is handled in its turn *)
Lemma log_ok_split l1 t o l2 o' : log_ok (l1 ++ (t, o) :: l2) → (t, o') ∈ l2 → o' = OPending.
Proof. induction l1 as [|[t1 o1] l1 IH]; cbn; [intros [H _]; apply H|intros [_ H]; by apply IH]. Qed.

(** Steps only add to the end of the queue, but for the event that is handled; a
    future leaves the table only when it is polled. *)
Definition advances (pop : bool) (s s' : Tasks) : Prop :=
  (∃ q, t_ctrl s' = drop (if pop then 1 else 0) (t_ctrl s) ++ q)
  ∧ ∃ polled, t_log s' = polled ++ t_log s ∧ ∀ t, t ∈ t_futures s → t ∈ t_futures s' ∨ t ∈ polled.*1.

Lemma grown_advances o s s' : grown o s s' → advances false s s'.
Proof.
  intros [F N (q & C & Q) W V X (L & O & G)]. split; [by exists q|]. exists []. split; [done|]. intros t Ht. left. by apply F.
Qed.

Lemma pop_advances s s' : advances false (set_t_ctrl (drop 1 (t_ctrl s)) s) s' → advances true s s'.
Proof. by destruct s. Qed.

Lemma task_advances tag l out s s' : t_run_nonblocking_task tag l out s = Ok s' →
  advances false s s' ∧ (tag ∈ t_futures s → ∃ o polled, t_log s' = (tag, o) :: polled ++ t_log s).
Proof.
  unfold t_run_nonblocking_task, run_future. case_decide as Hin.
  2:{ intros [= <-]. split; [|done]. by apply (grown_advances None), grown_refl. }
  intros (s2 & (s1 & H1%acts_grown & [= <-])%bind_Ok & H3)%bind_Ok.
  destruct H1 as [F N (q & C & Q) W V X (L & O & G)]. destruct s1 as [f tb c w n lv og g]. t_cbn. subst g.
  assert (t_log s' = (tag, out) :: t_log s ∧ t_ctrl s' = c ∧ ∀ t, t ∈ f → t ∈ t_futures s' ∨ t = tag) as (Hlog & Hc & Hf).
  { destruct out; injection H3 as <-; split_and!; try done; t_cbn; try (intros t Ht; by left).
    intros t Ht. destruct (decide (t = tag)); set_solver. }
  split.
  - split; [exists q; by rewrite Hc|]. exists [(tag, out)]. split; [done|]. intros t Ht%F.
    destruct (Hf t Ht) as [?| ->]; [by left|]. right. by apply list_elem_of_singleton.
  - intros _. by exists out, [].
Qed.

Definition is_pop (lab : TLabel) : bool := if lab is LPop _ _ then true else false.
Definition pops (ls : list TLabel) : nat := length (filter is_pop ls).

Lemma step_advances lab s s' : t_step lab s = Ok s' → advances (is_pop lab) s s'.
Proof.
  destruct lab as [l out|l|e|tag keeps| |]; cbn [t_step is_pop].
  - destruct (t_live s); [|done]. destruct (t_ctrl s) as [|e rest] eqn:Hc; [done|]. intros H. apply pop_advances.
    rewrite Hc. cbn [drop].
    destruct e; [by eapply grown_advances, acts_grown..|]. by apply task_advances in H as [H _].
  - destruct (t_live s); [|done]. intros H%acts_grown. by eapply grown_advances.
  - assert (∀ e, advances false s (set_t_ctrl (t_ctrl s ++ [e]) s)) as H.
    { intros e'. destruct s. split; [by exists [e']|]. exists []. split; [done|]. intros t Ht. by left. }
    destruct e; [intros [= <-]; apply H..|done].
  - case_decide; [|done]. intros [= <-]. destruct s, keeps; (split; [by exists [Poll tag]|]);
      exists []; (split; [done|]); intros t Ht; by left.
  - intros [= <-]. destruct s. split; [exists []; by rewrite app_nil_r|]. exists []. split; [done|]. intros t Ht. by left.
  - destruct (t_outside s); [done|]. intros [= <-]. destruct s. split; [exists []; by rewrite app_nil_r|].
    exists []. split; [done|]. intros t Ht. by left.
Qed.

Lemma pop_polls tag l out rest s s' : t_ctrl s = Poll tag :: rest → tag ∈ t_futures s →
  t_step (LPop l out) s = Ok s' → ∃ o polled, t_log s' = (tag, o) :: polled ++ t_log s.
Proof.
  intros Hc Hin. cbn [t_step]. destruct (t_live s); [|done]. rewrite Hc. intros [_ H]%task_advances.
  destruct s. by apply H.
Qed.

Lemma run_log ls s s' : t_run ls s = Ok s' → ∃ polled, t_log s' = polled ++ t_log s.
Proof.
  unfold t_run. revert s. induction ls as [|lab ls IH]; intros s; [intros [= <-]; by exists []|].
  intros (s1 & (_ & p1 & H1 & _)%step_advances & (p2 & H2)%IH)%bind_Ok. exists (p2 ++ p1). by rewrite H2, H1, app_assoc.
Qed.

Lemma queued_future_polled ls pre s s' t post : t ∈ t_futures s → t_ctrl s = pre ++ Poll t :: post →
  t_run ls s = Ok s' → length pre < pops ls → ∃ polled, t_log s' = polled ++ t_log s ∧ t ∈ polled.*1.
Proof.
  revert pre s post. induction ls as [|lab ls IH]; intros pre s post Hin Hc; [by cbn; lia|].
  intros (s1 & H1 & H2)%bind_Ok Hp. destruct (run_log ls s1 s' H2) as (p2 & Hp2).
  pose proof (step_advances lab s s1 H1) as ((q & Hq) & p1 & Hl1 & Hf).
  destruct (Hf t Hin) as [Hin1|Hpol].
  2:{ exists (p2 ++ p1). rewrite Hp2, Hl1, app_assoc. split; [done|]. rewrite fmap_app. apply elem_of_app. by right. }
  assert (pops (lab :: ls) = (if is_pop lab then 1 else 0) + pops ls) as Hpops.
  { unfold pops. rewrite filter_cons. by destruct (is_pop lab). }
  assert ((∃ o p, t_log s1 = (t, o) :: p ++ t_log s)
    ∨ ∃ pre', t_ctrl s1 = pre' ++ Poll t :: post ++ q ∧ length pre' < pops ls) as [(o & p & Hlog)|(pre' & Hc' & Hlen)].
  { rewrite Hc in Hq. destruct (is_pop lab) eqn:Hlab, pre as [|e pre]; simpl in Hq, Hp, Hpops; rewrite ?drop_0 in Hq.
    - left. destruct lab; try done. by eapply pop_polls.
    - right. exists pre. rewrite Hq, <-app_assoc. split; [done|lia].
    - right. exists []. rewrite Hq. split; [done|cbn; lia].
    - right. exists (e :: pre). rewrite Hq. simpl. rewrite <-app_assoc. split; [done|lia]. }
  - exists (p2 ++ (t, o) :: p). rewrite Hp2, Hlog, <-app_assoc. split; [done|]. rewrite fmap_app. set_solver.
  - destruct (IH pre' s1 (post ++ q) Hin1 Hc' H2 Hlen) as (p & Hpl & Hpt).
    exists (p ++ p1). rewrite Hpl, Hl1, app_assoc. split; [done|]. rewrite fmap_app. set_solver.
Qed.

(** C27: The futures of a component: while the component is executed, a future that has not
    completed has its event in the control queue or its waker is held by somebody who
    can call it; a future is polled again only after polls that ended in pending, never
    after it completed or panicked; and a future whose event is in the queue is polled
    at the latest when as many events were handled as stand before it. *)
Theorem local_futures_served (s : Tasks) : t_reachable s →
  (t_live s = true → ∀ t, t ∈ t_futures s → Poll t ∈ t_ctrl s ∨ t ∈ t_wakers s)
  ∧ (∀ later t o earlier o', t_log s = later ++ (t, o) :: earlier → (t, o') ∈ earlier → o' = OPending)
  ∧ (∀ t pre post ls s', t ∈ t_futures s → t_ctrl s = pre ++ Poll t :: post →
       t_run ls s = Ok s' → length pre < pops ls →
       ∃ polled, t_log s' = polled ++ t_log s ∧ t ∈ polled.*1).
Proof.
  intros [Hf Hl Hp Hg]%t_reachable_inv. split_and!.
  - intros Hlive t Ht. destruct (Hf t Ht) as [_ H]. by apply H.
  - intros later t o earlier o' Hlog. rewrite Hlog in Hl. by apply (log_ok_split later t o).
  - intros t pre post ls s' Ht Hc Hr Hlen. by eapply queued_future_polled.
Qed.

(** ** A waker in a table that is gone *)
Definition no_spawn (l : list Act) : bool := forallb (λ a, if a is ASpawn _ then false else true) l.

(** A poll that spawns nothing finds its waker where it was. *)
Theorem polls_without_spawning tag l out s : no_spawn l = true → t_run_nonblocking_task tag l out s ≠ Err Dangling.
Proof.
  intros Hn. unfold t_run_nonblocking_task, run_future. case_decide; [|done].
  assert (∃ s', acts (Some (t_table s, tag)) l s = Ok s') as (s' & ->).
  { unfold acts. generalize (eq_refl (t_table s)). generalize (t_table s) at 1 3. intros tb Htb. revert s H Htb.
    induction l as [|[moves|] l IH]; intros s H Htb; [by exists s|done|]. cbn -[disj_union].
    rewrite decide_True by done. cbn -[disj_union]. apply IH; [done|by destruct s..]. }
  cbn. by destruct out.
Qed.

(** A future that spawns another one and then waits for something, in the same poll,
    hands out a waker that it reads from the table as it was before the insertion; when
    the insertion made the table move, that memory is freed. *)
Theorem spawn_in_future_dangles tag l1 l2 out s s1 : tag ∈ t_futures s →
  acts (Some (t_table s, tag)) l1 s = Ok s1 → t_table s1 ≠ t_table s →
  t_run_nonblocking_task tag (l1 ++ AClone :: l2) out s = Err Dangling.
Proof.
  intros Hin H1 Hne. unfold t_run_nonblocking_task, run_future. rewrite decide_True by done.
  unfold acts in *. rewrite for_each_app, H1. cbn -[disj_union]. by rewrite decide_False by done.
Qed.

(** The first future of a component, which spawns a second one and waits. *)
Definition spawning_run : list TLabel := [LControl Start; LPop [ASpawn true] OReady].
Definition spawning_state : Tasks := match t_run spawning_run init_tasks with Ok s => s | _ => init_tasks end.
Example spawning_future_dangles : t_step (LPop [ASpawn true; AClone] OPending) spawning_state = Err Dangling.
Proof. vm_compute. reflexivity. Qed.

(** ** Who keeps a component *)

(** The strong references to the component: those from elsewhere and one in every
    [TaskWaker], which lives as long as the future in the table or a clone does. *)
Definition strong_count (s : Tasks) : nat := t_outside s + size (t_futures s ∪ dom (t_wakers s)).

(** A component that is no longer executed while a future waits keeps itself: the future
    in its table has a waker with a reference to the component, nothing takes the
    future out, and so the component with all it owns is never freed. *)
Theorem waiting_future_leaks (s s' : Tasks) (ls : list TLabel) : t_live s = false → t_futures s ≠ ∅ →
  t_run ls s = Ok s' → t_futures s' = t_futures s ∧ 0 < strong_count s'.
Proof.
  intros Hl Hf Hr. assert (t_live s' = false ∧ t_futures s' = t_futures s) as [_ Hs].
  { unfold t_run in Hr. revert s Hl Hf Hr. induction ls as [|lab ls IH]; intros s Hl Hf; [by intros [= <-]|].
    intros (s1 & H1 & H2)%bind_Ok. assert (t_live s1 = false ∧ t_futures s1 = t_futures s) as [Hl1 Hf1].
    { destruct lab as [l out|l|e|tag keeps| |]; cbn [t_step] in H1; rewrite ?Hl in H1; try done.
      - destruct e; try done; injection H1 as <-; by destruct s.
      - case_decide; [|done]. injection H1 as <-. by destruct s, keeps.
      - injection H1 as <-. by destruct s.
      - destruct (t_outside s); [done|]. injection H1 as <-. by destruct s. }
    rewrite <-Hf1 in Hf |- *. exact (IH s1 Hl1 Hf H2). }
  split; [done|]. unfold strong_count. rewrite Hs.
  assert (size (t_futures s ∪ dom (t_wakers s')) ≠ 0) as Hn by (apply size_non_empty_iff; set_solver). lia.
Qed.

(** A component that is killed while it waits for a timeout, say, and to which nobody
    has a reference any more. *)
Definition leaking_run : list TLabel :=
  [LControl Start; LPop [ASpawn true] OReady; LPop [AClone] OPending; LControl Kill; LPop [] OReady; LEnd; LRelease].
Example killed_component_leaks : ∃ s, t_run leaking_run init_tasks = Ok s
  ∧ t_outside s = 0 ∧ t_live s = false ∧ strong_count s = 1.
Proof. eexists. split_and!; vm_compute; reflexivity. Qed.

(** *** A future that is woken *)
Definition task_run : list TLabel :=
  [LControl Start; LPop [ASpawn true] OReady; LControl Stop; LPop [AClone] OPending; LWake 0 false; LHandle [ASpawn false]].
Definition task_state : Tasks := match t_run task_run init_tasks with Ok s => s | _ => init_tasks end.

(** Whether a run is one of futures that keep their contract. *)
Definition keeps_waker_b (lab : TLabel) (s : Tasks) : bool :=
  match lab, t_ctrl s with
  | LPop l OPending, Poll tag :: _ =>
      negb (bool_decide (tag ∈ t_futures s)) || existsb (λ a, if a is AClone then true else false) l
  | _, _ => true
  end.

Lemma keeps_waker_b_ok lab s : keeps_waker_b lab s = true → keeps_waker lab s.
Proof.
  unfold keeps_waker_b, keeps_waker. destruct lab as [l []| | | | |]; try done.
  destruct (t_ctrl s) as [|[| | |tag] rest]; try done. intros [H|H]%orb_true_iff Hin.
  - by rewrite bool_decide_true in H.
  - apply existsb_exists in H as ([|] & Hx & Ha); [done|]. by apply list_elem_of_In.
Qed.

Fixpoint honest_run (ls : list TLabel) (s : Tasks) : bool :=
  match ls with
  | [] => true
  | lab :: ls => keeps_waker_b lab s && match t_step lab s with Ok s => honest_run ls s | _ => false end
  end.

Lemma t_run_reachable ls s s' : t_reachable s → honest_run ls s = true → t_run ls s = Ok s' → t_reachable s'.
Proof.
  unfold t_run. revert s. induction ls as [|lab ls IH]; intros s Hs; [by intros _ [= <-]|].
  intros [Hk Hh]%andb_true_iff (s1 & H1 & H2)%bind_Ok. rewrite H1 in Hh. apply (IH s1); [|done..].
  eapply t_reach_step; [done|by apply keeps_waker_b_ok|done].
Qed.

Lemma local_futures_served_witness :
  ∃ s', t_run [LPop [] OReady; LControl Kill; LPop [] OReady] task_state = Ok s'
    ∧ ∃ polled, t_log s' = polled ++ t_log task_state ∧ 0%Z ∈ polled.*1.
Proof.
  eexists. split; [vm_compute; reflexivity|].
  destruct (local_futures_served task_state) as (_ & _ & H).
  - apply (t_run_reachable task_run init_tasks); [constructor|vm_compute; reflexivity..].
  - eapply (H 0%Z [Stop] _ [LPop [] OReady; LControl Kill; LPop [] OReady]); try (vm_compute; reflexivity).
Defined.
