(* ===== verification/Reports.v ===== *)
(** * What a component tells its supervisor

    An execution of a component ([Component::execute],
    [core/src/component/actual_component.rs]) reports its lifecycle changes to
    the supervision port.  This file shows what the supervisor can rely on:
    reports are only added, a component that has ended (is destroyed or faulty)
    said so in its last report, and a component that has been sent a kill event
    ends or is still going to handle it; all of it unless the recovery function of the
    component panicked, which silences it. *)

From S2P Require Import Prelude Lifecycle Scheduling Timers Component.

#[export] Instance ControlEvent_eq_dec : EqDecision ControlEvent.
Proof. solve_decision. Defined.

Section Reports.
Context {CD Msg Act Fut F R : Type} (ignore : R).
Context {H : @Handlers CD Msg Act Fut F}.
#[local] Abbreviation Comp := (@Comp CD Msg Act Fut F R).
#[local] Abbreviation M := (@M CD Msg Act Fut F R).

(** The reports after which a component is gone for its supervisor. *)
Definition is_gone (m : SupervisorMsg F R) : bool :=
  match m with SKilled | SFaulty _ _ => true | SStarted | SStopped => false end.

Definition gone_last (c : Comp) : Prop := ∃ m, last (c_sent c) = Some m ∧ is_gone m = true.
Definition live (c : Comp) : Prop := ∃ f n, ¬ terminal f ∧ c_word c = word f n ∧ n ≤ MAX_WORK.

(** The mutex of the recovery function is poisoned: faults are not reported any more. *)
Definition silenced (c : Comp) : Prop := c_recovery c = None.

(** A supervised component; one that has told its supervisor if it has ended; one that has not ended. *)
Definition watched (c : Comp) : Prop := c_supervised c = true ∧ valid_word c.
Definition told (c : Comp) : Prop := watched c ∧ (live c ∨ gone_last c ∨ silenced c).
Definition running (c : Comp) : Prop := watched c ∧ live c.

Lemma running_told c : running c → told c.
Proof. intros []. split; auto. Qed.
Lemma told_watched c : told c → watched c.
Proof. by intros []. Qed.
Lemma running_watched c : running c → watched c.
Proof. by intros []. Qed.
Hint Resolve running_told told_watched running_watched : core.

(** ** Changes that concern neither the flag nor the reports *)
Definition frame (c c' : Comp) : Prop :=
  c_supervised c' = c_supervised c ∧ (c_sent c' = c_sent c ∧ c_recovery c' = c_recovery c)
  ∧ ∀ f n, c_word c = word f n → n ≤ MAX_WORK → ∃ n', c_word c' = word f n' ∧ n' ≤ MAX_WORK.

Definition stable (P : Comp → Prop) : Prop := (∀ c, P c → valid_word c) ∧ ∀ c c', frame c c' → P c → P c'.

Lemma frame_refl c c' : c_supervised c' = c_supervised c → c_sent c' = c_sent c → c_recovery c' = c_recovery c → c_word c' = c_word c → frame c c'.
Proof. intros H1 H2 H4 H3. split; [done|split; [done|]]. intros f n. rewrite H3. eauto. Qed.

Lemma frame_trans c1 c2 c3 : frame c1 c2 → frame c2 c3 → frame c1 c3.
Proof.
  intros (A1 & [A2 A4] & A3) (B1 & [B2 B4] & B3). split_and!; [congruence..|]. intros f n Hw Hn.
  destruct (A3 f n Hw Hn) as (n' & Hw' & Hn'). eauto.
Qed.

Lemma stable_watched : stable watched.
Proof.
  split; [by intros c []|]. intros c c' (A1 & A2 & A3) (Hs & f & n & Hw & Hn). split; [congruence|].
  destruct (A3 f n Hw Hn) as (n' & ? & ?). by exists f, n'.
Qed.

Lemma live_frame c c' : frame c c' → live c → live c'.
Proof. intros (_ & _ & A3) (f & n & Ht & Hw & Hn). destruct (A3 f n Hw Hn) as (n' & ? & ?). by exists f, n'. Qed.

Lemma stable_running : stable running.
Proof.
  split; [by intros c [[]]|]. intros c c' Hf [Hw Hl]. split; [by eapply (proj2 stable_watched)|by eapply live_frame].
Qed.

Lemma stable_told : stable told.
Proof.
  split; [by intros c [[]]|]. intros c c' Hf [Hw Hl]. split; [by eapply (proj2 stable_watched)|].
  destruct Hl as [Hl|Hl]; [left; by eapply live_frame|right]. unfold gone_last, silenced.
  by destruct Hf as (_ & [-> ->] & _).
Qed.
Hint Resolve stable_watched stable_running stable_told : core.

(** ** Triples

    [triple L P m Q]: from [P], [m] ends in [Q], or exits as [L] says. *)
Definition triple (L : Exit → Comp → Prop) {A} (P : Comp → Prop) (m : M A) (Q : A → Comp → Prop) : Prop :=
  ∀ c, P c → match m c with (c', inr a) => Q a c' | (c', inl x) => L x c' end.

Section Triples.
Context (L : Exit → Comp → Prop).

Lemma triple_bind {A B} P (m : M A) (f : A → M B) Q Q' :
  triple L P m Q → (∀ a, triple L (Q a) (f a) Q') → triple L P (m ≫= f) Q'.
Proof.
  intros Hm Hf c Hc. specialize (Hm c Hc). unfold mbind, m_bind. destruct (m c) as [c' [x|a]]; [done|]. by apply Hf.
Qed.

Lemma triple_ret {A} (P : Comp → Prop) (a : A) (Q : A → Comp → Prop) : (∀ c, P c → Q a c) → triple L P (mret a) Q.
Proof. intros Hq c Hc. by apply Hq. Qed.

Lemma triple_exit {A} (P : Comp → Prop) x (Q : A → Comp → Prop) : (∀ c, P c → L x c) → triple L P (exit x) Q.
Proof. intros Hq c Hc. by apply Hq. Qed.

Lemma triple_get {A} P (f : Comp → M A) Q : (∀ c0, triple L P (f c0) Q) → triple L P (get ≫= f) Q.
Proof. intros Hf c Hc. exact (Hf c c Hc). Qed.

Lemma triple_get_with {A} (P : Comp → Prop) (f : Comp → M A) Q :
  (∀ c0, P c0 → triple L (λ c, c = c0) (f c0) Q) → triple L P (get ≫= f) Q.
Proof. intros Hf c Hc. exact (Hf c Hc c eq_refl). Qed.

Lemma triple_modify (P : Comp → Prop) g (Q : () → Comp → Prop) : (∀ c, P c → Q () (g c)) → triple L P (modify g) Q.
Proof. intros Hq c Hc. by apply Hq. Qed.

Lemma triple_weaken {A} (P P' : Comp → Prop) (m : M A) (Q Q' : A → Comp → Prop) :
  triple L P' m Q' → (∀ c, P c → P' c) → (∀ a c, Q' a c → Q a c) → triple L P m Q.
Proof. intros Hm HP HQ c Hc. specialize (Hm c (HP c Hc)). destruct (m c) as [c' [x|a]]; [done|]. by apply HQ. Qed.

Lemma triple_pre {A} (P' P : Comp → Prop) (m : M A) (Q : A → Comp → Prop) :
  triple L P' m Q → (∀ c, P c → P' c) → triple L P m Q.
Proof. intros Hm HP. by eapply triple_weaken. Qed.
End Triples.

Definition leaves (x : Exit) (c : Comp) : Prop :=
  match x with Return _ => told c | Unwind => watched c | Abort | NoFuel => True end.

Lemma triple_unwind {A} (P : Comp → Prop) (Q : A → Comp → Prop) :
  (∀ c, P c → watched c) → triple leaves P (exit Unwind) Q.
Proof. exact (triple_exit leaves P Unwind Q). Qed.

(** *** User code and the counters *)
Definition framed {A} (m : M A) : Prop :=
  ∀ c, valid_word c → match m c with (c', inr _) => frame c c' ∧ valid_word c' | (_, inl x) => x = Abort end.

Lemma frame_valid c c' : frame c c' → valid_word c → valid_word c'.
Proof. intros (_ & _ & A3) (f & n & Hw & Hn). destruct (A3 f n Hw Hn) as (n' & ? & ?). by exists f, n'. Qed.

Lemma framed_bind {A B} (m : M A) (f : A → M B) : framed m → (∀ a, framed (f a)) → framed (m ≫= f).
Proof.
  intros Hm Hf c Hc. specialize (Hm c Hc). unfold mbind, m_bind. destruct (m c) as [c' [x|a]]; [done|].
  destruct Hm as [H1 H2]. specialize (Hf a c' H2). destruct (f a c') as [c'' [x|b]]; [done|]. destruct Hf.
  split; [by eapply frame_trans|done].
Qed.

Lemma framed_ret {A} (a : A) : framed (mret a).
Proof. intros c Hc. split; [by apply frame_refl|done]. Qed.

Lemma framed_modify g :
  (∀ c, c_supervised (g c) = c_supervised c ∧ c_sent (g c) = c_sent c ∧ c_recovery (g c) = c_recovery c ∧ c_word (g c) = c_word c) →
  framed (modify g).
Proof.
  intros Hg c Hc. destruct (Hg c) as (? & ? & ? & ?). assert (frame c (g c)) as Hf by by apply frame_refl.
  split; [done|by eapply frame_valid].
Qed.

Lemma framed_get : framed get.
Proof. intros c Hc. split; [by apply frame_refl|done]. Qed.

Lemma framed_on_word {A} (f : Z → res Empty_set (Z * A)) :
  (∀ fl n w a, n ≤ MAX_WORK → f (word fl n) = Ok (w, a) → ∃ n', w = word fl n' ∧ n' ≤ MAX_WORK) → framed (on_word f).
Proof.
  intros Hf c (fl & n & Hw & Hn). unfold on_word. rewrite Hw.
  destruct (f (word fl n)) as [[w a]|[]|] eqn:He; [|done]. destruct (Hf _ _ _ _ Hn He) as (n' & -> & Hn').
  assert (frame c (upd_word (λ _, word fl n') c)) as Hfr.
  { destruct c. cbn in *. split; [done|split; [done|]]. cbn. intros f2 n2 Hw2 Hn2.
    assert (f2 = fl) as -> by (apply (word_inj f2 n2 fl n); congruence || done). eauto. }
  split; [done|]. eapply frame_valid; [done|]. by exists fl, n.
Qed.

Lemma framed_increment : framed (on_word increment_work).
Proof.
  apply framed_on_word. intros fl n w a Hn He. destruct (decide (n = MAX_WORK)) as [->|].
  - by rewrite increment_work_full in He.
  - rewrite increment_work_word in He by lia. injection He as <- _. exists (S n). split; [done|lia].
Qed.

Lemma framed_decrement k : framed (decrement k).
Proof.
  apply framed_on_word. intros fl n w a Hn He. destruct (decide (k ≤ n)).
  - rewrite decrement_work_word in He by lia. injection He as <- _. exists (n - k). split; [done|lia].
  - by rewrite decrement_work_under in He by lia.
Qed.

Lemma framed_current : framed current_decision.
Proof.
  apply framed_on_word. intros fl n w a Hn He. rewrite decision_word in He by done. injection He as <- _. by exists n.
Qed.

Lemma framed_enqueue push :
  (∀ c, c_supervised (push c) = c_supervised c ∧ c_sent (push c) = c_sent c ∧ c_recovery (push c) = c_recovery c ∧ c_word (push c) = c_word c) →
  framed (enqueue push).
Proof.
  intros Hp. unfold enqueue, when. apply framed_bind; [exact framed_increment|]. intros sd.
  apply framed_bind; [by apply framed_modify|]. intros _. destruct (bool_decide _); [|apply framed_ret].
  apply framed_modify. by intros [].
Qed.

Lemma framed_perform e : framed (perform e).
Proof.
  destruct e; cbn [perform]; try (apply framed_enqueue; by intros []); try (apply framed_modify; by intros []).
  apply framed_bind; [apply framed_enqueue; by intros []|]. intros _. apply framed_modify. by intros [].
Qed.

Lemma framed_call {A} (h : CD → call_result A) : framed (call h).
Proof.
  unfold call. apply framed_bind; [apply framed_get|]. intros c. destruct (h (c_def c)) as [[d es] a].
  apply framed_bind; [apply framed_modify; by intros []|]. intros _.
  apply framed_bind; [|intros _; apply framed_ret].
  induction es as [|e es IH]; cbn [perform_all]; [apply framed_ret|].
  apply framed_bind; [apply framed_perform|]. intros _. apply IH.
Qed.

Lemma triple_framed {A} P (m : M A) : stable P → framed m → triple leaves P m (λ _, P).
Proof.
  intros [Hv Hp] Hm c Hc. specialize (Hm c (Hv c Hc)). destruct (m c) as [c' [x|a]]; [by subst|]. destruct Hm. by eapply Hp.
Qed.

Lemma triple_call_handler P h : stable P → (∀ c, P c → watched c) → triple leaves P (call_handler h) (λ _, P).
Proof.
  intros HP Hw. unfold call_handler. eapply triple_bind; [apply triple_framed; [done|apply framed_call]|]. intros r.
  destruct r; cbn [unwinding]; [by apply triple_ret..|]. by apply triple_exit.
Qed.

(** ** Changing the flag and reporting *)
Lemma watched_flag f c : watched c → watched (upd_word (set_state (flag_bits f)) c).
Proof.
  intros (Hs & fl & n & Hw & Hn). destruct c. cbn in *. split; [done|]. exists f, n. cbn. by rewrite Hw, set_state_word.
Qed.

Lemma running_flag_set f c : ¬ terminal f → watched c → running (upd_word (set_state (flag_bits f)) c).
Proof.
  intros Ht Hc. split; [by apply watched_flag|]. destruct Hc as (Hs & fl & n & Hw & Hn). destruct c. cbn in *.
  exists f, n. cbn. by rewrite Hw, set_state_word.
Qed.

Lemma flag_watched f : triple leaves watched (modify (upd_word (set_state (flag_bits f)))) (λ _, watched).
Proof. apply triple_modify. intros c. apply watched_flag. Qed.
Lemma flag_running f : ¬ terminal f → triple leaves watched (modify (upd_word (set_state (flag_bits f)))) (λ _, running).
Proof. intros Ht. apply triple_modify. intros c. by apply running_flag_set. Qed.

Lemma not_terminal f : f = FActive ∨ f = FPassive ∨ f = FBlocking → ¬ terminal f.
Proof. intros Hf [-> | ->]; naive_solver. Qed.

Lemma report_gone m : is_gone m = true → triple leaves watched (to_supervisor m) (λ _, told).
Proof.
  intros Hg c (Hs & Hv). cbn. rewrite Hs. destruct c. cbn in *. split; [done|]. right. left. exists m. cbn. by rewrite last_snoc.
Qed.

Lemma report_running m : triple leaves running (to_supervisor m) (λ _, running).
Proof. intros c [[Hs Hv] Hl]. cbn. rewrite Hs. by destruct c. Qed.

Lemma active_running : triple leaves watched component_set_active (λ _, running).
Proof. apply (flag_running FActive). apply not_terminal. auto. Qed.

Lemma passive_running : triple leaves watched component_set_passive (λ _, running).
Proof.
  eapply triple_bind; [apply (flag_running FPassive); apply not_terminal; auto|]. intros ?. apply report_running.
Qed.

Lemma destroyed_told : triple leaves watched component_set_destroyed (λ _, told).
Proof. eapply triple_bind; [apply (flag_watched FDestroyed)|]. intros ?. by apply report_gone. Qed.

Lemma started_running : triple leaves running notify_started (λ _, running).
Proof. apply report_running. Qed.

Lemma escalate_told k : triple leaves watched (escalate ignore k) (λ _, told).
Proof.
  unfold escalate. eapply triple_bind; [apply (flag_watched FFaulty)|]. intros ?.
  apply triple_get_with. intros c Hc. rewrite (proj1 Hc).
  destruct (c_recovery c) as [r|] eqn:Hr; [|apply triple_ret; intros ? ->; split; [done|by right; right]].
  apply (triple_pre _ watched); [|by intros ? ->].
  assert (∀ r', triple leaves watched (modify (set_recovery r')) (λ _, watched)) as Hm by (intros r'; apply triple_modify; by intros []).
  eapply triple_bind; [apply Hm|]. intros ?. destruct (r k); [by apply report_gone|].
  eapply triple_bind; [apply Hm|]. intros ?. by apply triple_unwind.
Qed.

Lemma unrecoverable_told : triple leaves watched handle_unrecoverable_error (λ _, told).
Proof. apply triple_get_with. intros c Hc. rewrite (proj1 Hc). apply (triple_pre _ watched); [|by intros ? ->]. apply destroyed_told. Qed.

(** A fatal error is reported whatever the state of the component. *)
Definition fatal (e : HandlerError F) : Prop := match e with Benign _ => False | _ => True end.

Lemma fatal_told e : fatal e → triple leaves watched (handle_handler_error ignore e) (λ out c, told c ∧ out = StopWith NoWork).
Proof.
  destruct e; [done|intros _..]; cbn [handle_handler_error].
  - eapply triple_bind; [apply escalate_told|]. intros ?. by apply triple_ret.
  - eapply triple_bind; [apply unrecoverable_told|]. intros ?. by apply triple_ret.
Qed.

Lemma error_told e : triple leaves told (handle_handler_error ignore e) (λ _, told).
Proof.
  destruct e as [f|f|f]; [by apply triple_ret|..]; (eapply triple_weaken; [by apply fatal_told|auto|]); by intros ?? [].
Qed.

Lemma stop_told e :
  triple leaves told (out ← handle_handler_error ignore e; match out with Continue => mret () | StopWith d => exit (Return d) end)
    (λ _, told).
Proof.
  eapply triple_bind; [apply error_told|]. intros [|d]; [by apply triple_ret|by apply triple_exit].
Qed.

(** ** Blocking *)
Lemma set_blocking_running fut t : triple leaves watched (set_blocking_with_state fut t) (λ _, running).
Proof.
  apply triple_get. intros c. destruct (c_blocking c); [by apply triple_exit|].
  eapply triple_bind; [apply triple_framed; [exact stable_watched|]; apply framed_modify; by intros []|]. intros ?.
  apply (flag_running FBlocking), not_terminal. auto.
Qed.

Lemma replace_told fut t : triple leaves told (replace_blocking fut t) (λ _, told).
Proof.
  apply triple_get. intros c. destruct (c_blocking c); [apply triple_unwind; auto|].
  apply triple_framed; [done|]. apply framed_modify. by intros [].
Qed.

Lemma unblock_told t : triple leaves watched (unblock t) (λ _, told).
Proof.
  destruct t; cbn [unblock].
  - eapply triple_weaken; [apply active_running|done|auto].
  - eapply triple_bind; [apply active_running|]. intros ?. eapply triple_weaken; [apply started_running|done|auto].
  - eapply triple_weaken; [apply passive_running|done|auto].
  - apply destroyed_told.
Qed.

Lemma blocking_task_told : triple leaves told run_blocking_task (λ _, told).
Proof.
  apply triple_get. intros c. destruct (c_blocking c) as [[fut t]|]; [|apply triple_unwind; auto].
  eapply triple_bind; [apply triple_framed; [exact stable_told|]; apply framed_modify; by intros []|]. intros ?.
  eapply triple_bind; [apply triple_framed; [exact stable_told|apply framed_call]|]. intros p.
  assert (∀ f, triple leaves told (_ ← replace_blocking f t; mret (BPending (F := F) (Fut := Fut))) (λ _, told)) as Hr.
  { intros f. eapply triple_bind; [apply replace_told|]. intros ?. by apply triple_ret. }
  assert (∀ r : HandlerResult F Fut, triple leaves told (if bool_decide (t = TDestroyed) && is_shutdown r
     then _ ← component_set_destroyed; mret (BCompleted (Ok HOk))
     else _ ← match r with Ok HOk | Err (Benign _) => unblock t | _ => mret () end; mret (BCompleted r)) (λ _, told)) as Hd.
  { intros r. destruct (_ && _).
    - eapply triple_bind; [eapply triple_pre; [apply destroyed_told|auto]|]. intros ?. by apply triple_ret.
    - eapply (triple_bind _ _ _ _ (λ _, told)); [|intros ?; by apply triple_ret].
      destruct r as [[]|[]|]; try (by apply triple_ret); (eapply triple_pre; [apply unblock_told|auto]). }
  destruct p as [f|[[|f|]|e|]]; [apply Hr|apply Hd|apply Hr|apply Hd..|]. apply triple_unwind; auto.
Qed.

Lemma shutdown_told : triple leaves watched shutdown_from_handler (λ _, told).
Proof.
  unfold shutdown_from_handler. eapply triple_bind; [apply (flag_watched FDestroyed)|]. intros ?.
  eapply triple_bind; [apply triple_call_handler; [exact stable_watched|done]|]. intros r.
  eapply (triple_bind _ _ _ _ (λ _, watched)).
  { destruct r as [[]|e|]; cbn [handle_secondary_lifecycle_result]; first [by apply triple_ret | by apply triple_exit]. }
  intros ?. eapply triple_bind; [apply destroyed_told|]. intros ?. by apply triple_ret.
Qed.

Lemma return_told {A} P m (Q : A → Comp → Prop) : triple leaves P m (λ _, told) → triple leaves P (return_ m) Q.
Proof. intros Hm. eapply triple_bind; [exact Hm|]. intros d. by apply triple_exit. Qed.

Lemma run_blocking_told {A} k (Q : A → Comp → Prop) : triple leaves told (run_blocking ignore k) Q.
Proof.
  unfold run_blocking. eapply triple_bind; [apply blocking_task_told|]. intros r.
  eapply triple_bind; [apply triple_framed; [exact stable_told|apply framed_decrement]|]. intros d. apply return_told.
  destruct r as [|[[|f|]|e|]]; try (by apply triple_ret).
  - eapply triple_bind; [eapply triple_pre; [apply set_blocking_running|auto]|]. intros ?. apply triple_ret. auto.
  - eapply triple_pre; [apply shutdown_told|auto].
  - eapply triple_bind; [apply error_told|]. intros []; by apply triple_ret.
  - apply triple_unwind. auto.
Qed.

Lemma block_told {A} fut t k (Q : A → Comp → Prop) :
  triple leaves watched (_ ← set_blocking_with_state fut t; run_blocking ignore k) Q.
Proof.
  eapply triple_bind; [apply set_blocking_running|]. intros ?. eapply triple_pre; [apply run_blocking_told|auto].
Qed.

Lemma check_told k r : triple leaves told (check_and_handle_blocking ignore k r) (λ _, told).
Proof.
  destruct r as [[|f|]|e|]; cbn [check_and_handle_blocking].
  - by apply triple_ret.
  - eapply triple_pre; [apply block_told|auto].
  - apply return_told. eapply triple_pre; [apply shutdown_told|auto].
  - apply stop_told.
  - apply triple_unwind. auto.
Qed.

Lemma resume_told : triple leaves told (resume_blocked ignore) (λ _, told).
Proof.
  unfold resume_blocked. eapply triple_bind; [apply blocking_task_told|]. intros r.
  assert (triple leaves told (d ← current_decision; mret (or_from NoWork (λ _, d))) (λ _, told)) as Hd.
  { eapply triple_bind; [apply triple_framed; [exact stable_told|apply framed_current]|]. intros d. by apply triple_ret. }
  destruct r as [|[[|f|]|e|]]; [by apply triple_ret|exact Hd|..].
  - eapply triple_bind; [eapply triple_pre; [apply set_blocking_running|auto]|]. intros ?. apply triple_ret. auto.
  - eapply triple_pre; [apply shutdown_told|auto].
  - eapply triple_bind; [apply error_told|]. intros []; [exact Hd|by apply triple_ret].
  - apply triple_unwind. auto.
Qed.

(** ** The phases of an execution *)

(** What holds between calling the handler of a control event and dealing with its result. *)
Definition amid (e : ControlEvent) : Comp → Prop :=
  match e with Start | Stop => running | Kill => watched | Poll _ => told end.

Lemma start_control_amid e : triple leaves told (start_control e) (λ _, amid e).
Proof.
  destruct e as [| | |tag]; cbn [start_control amid].
  - eapply triple_bind; [eapply triple_pre; [apply (flag_running FActive), not_terminal; auto|auto]|]. intros ?.
    apply triple_call_handler; auto.
  - eapply triple_bind; [eapply triple_pre; [apply (flag_running FPassive), not_terminal; auto|auto]|]. intros ?.
    apply triple_call_handler; auto.
  - eapply triple_bind; [eapply triple_pre; [apply (flag_watched FDestroyed)|auto]|]. intros ?.
    apply triple_call_handler; auto.
  - apply triple_get. intros c. destruct (c_futures c !! tag); [|by apply triple_ret].
    eapply triple_bind; [apply triple_framed; [exact stable_told|apply framed_call]|]. intros p.
    assert (∀ g (r : HandlerResult F Fut), triple leaves told (_ ← modify (upd_futures g); mret r) (λ _, told)) as Hm.
    { intros g r. eapply triple_bind; [apply triple_framed; [exact stable_told|]; apply framed_modify; by intros []|].
      intros ?. by apply triple_ret. }
    destruct p as [f'|[r|e|]]; [apply Hm..|]. apply triple_unwind. auto.
Qed.

Lemma complete_told e : triple leaves (amid e) (complete_control e) (λ _, told).
Proof.
  destruct e; cbn [complete_control amid].
  - eapply triple_weaken; [apply started_running|done|auto].
  - eapply triple_weaken; [apply passive_running|auto|auto].
  - apply destroyed_told.
  - by apply triple_ret.
Qed.

Lemma amid_watched e c : amid e c → watched c.
Proof. destruct e; cbn; auto. Qed.
Hint Resolve amid_watched : core.

Lemma handle_control_told k e r : triple leaves (amid e) (handle_control ignore k e r) (λ _, told).
Proof.
  assert (∀ err, fatal err → triple leaves (amid e) (out ← handle_handler_error ignore err;
    match out with Continue => mret () | StopWith d => exit (Return d) end) (λ _, told)) as Hfatal.
  { intros err He. eapply triple_bind; [eapply triple_pre; [by apply fatal_told|eauto]|].
    intros [|d]; [apply triple_ret|apply triple_exit]; by intros ? []. }
  destruct r as [[|f|]|err|]; cbn [handle_control].
  - apply complete_told.
  - eapply triple_pre; [apply block_told|eauto].
  - destruct e; try (apply return_told; eapply triple_pre; [apply shutdown_told|eauto]).
    eapply triple_bind; [apply destroyed_told|]. intros ?. by apply triple_exit.
  - destruct err; [apply complete_told|by apply Hfatal..].
  - apply triple_unwind. eauto.
Qed.

Lemma control_loop_told fuel k : triple leaves told (control_loop ignore fuel k) (λ _, told).
Proof.
  revert k. induction fuel as [|fuel IH]; intros k; cbn [control_loop]; [by apply triple_exit|].
  apply triple_get. intros c. destruct (c_ctrl c) as [|e q]; [by apply triple_ret|].
  eapply triple_bind; [apply triple_framed; [exact stable_told|]; apply framed_modify; by intros []|]. intros ?.
  eapply triple_bind; [apply start_control_amid|]. intros r.
  eapply triple_bind; [apply handle_control_told|]. intros ?. apply IH.
Qed.

Lemma handler_told k h : triple leaves told (r ← call_handler h; check_and_handle_blocking ignore k r) (λ _, told).
Proof.
  eapply triple_bind; [apply triple_call_handler; auto|]. intros r. apply check_told.
Qed.

Lemma timer_loop_told rem k : triple leaves told (timer_loop ignore rem k) (λ _, told).
Proof.
  revert k. induction rem as [|rem IH]; intros k; cbn [timer_loop]; [by apply triple_ret|].
  eapply (triple_bind _ _ _ _ (λ _, told)).
  { apply triple_framed; [done|]. intros c Hc. unfold next_timer. destruct (try_action _) as [t a].
    assert (frame c (upd_timers (λ _, t) c)) as Hf by (by destruct c; apply frame_refl). split; [done|by eapply frame_valid]. }
  intros [|id a|id a]; [by apply triple_ret|..];
    (eapply triple_bind; [apply triple_call_handler; auto|]; intros r; eapply triple_bind; [apply check_told|]; intros ?; apply IH).
Qed.

Lemma message_loop_told rem k : triple leaves told (message_loop ignore rem k) (λ _, told).
Proof.
  revert k. induction rem as [|rem IH]; intros k; cbn [message_loop]; [by apply triple_ret|].
  apply triple_get. intros c. destruct (c_msgs c) as [|m q]; [by apply triple_ret|].
  eapply triple_bind; [apply triple_framed; [exact stable_told|]; apply framed_modify; by intros []|]. intros ?.
  eapply triple_bind; [apply triple_call_handler; auto|]. intros r.
  eapply triple_bind; [apply check_told|]. intros ?. apply IH.
Qed.

Lemma run_ports_told rem : triple leaves told (run_ports rem) (λ _, told).
Proof.
  apply triple_get. intros c. eapply triple_bind; [apply triple_framed; [exact stable_told|apply framed_call]|].
  intros [r|[]|]; [|apply triple_unwind; auto].
  eapply triple_bind; [apply triple_framed; [exact stable_told|]; apply framed_modify; by intros []|]. intros ?.
  eapply (triple_bind _ _ _ _ (λ _, told)).
  { destruct (er_blocking r); [|by apply triple_ret]. eapply triple_weaken; [apply set_blocking_running|auto|auto]. }
  intros ?. eapply triple_bind; [apply triple_framed; [exact stable_told|]; apply framed_modify; by intros []|]. intros ?.
  by apply triple_ret.
Qed.

Lemma port_phase_told max k : triple leaves told (port_phase ignore max k) (λ _, told).
Proof.
  unfold port_phase. case_decide; [|by apply triple_ret]. eapply triple_bind; [apply run_ports_told|]. intros r.
  destruct (er_shutdown r); [apply return_told; eapply triple_pre; [apply shutdown_told|auto]|].
  eapply (triple_bind _ _ _ _ (λ _, told)); [destruct (er_error r); [apply stop_told|by apply triple_ret]|]. intros ?.
  eapply (triple_bind _ _ _ _ (λ _, told)); [destruct (er_blocking r); [apply run_blocking_told|by apply triple_ret]|]. intros ?.
  apply message_loop_told.
Qed.

Lemma inner_execute_told fuel me mm : triple leaves told (inner_execute ignore fuel me mm) (λ _, told).
Proof.
  apply triple_get. intros c. destruct (c_mutex_poisoned c); [apply triple_unwind; auto|].
  destruct (c_blocking c); [apply resume_told|].
  assert (∀ k, triple leaves told (decrement k) (λ _, told)) as Hd.
  { intros k. apply triple_framed; [exact stable_told|apply framed_decrement]. }
  eapply triple_bind; [apply control_loop_told|]. intros k. apply triple_get. intros c1. destruct (negb _); [apply Hd|].
  eapply triple_bind; [apply timer_loop_told|]. intros k1. eapply triple_bind; [apply message_loop_told|]. intros k2.
  eapply triple_bind; [apply port_phase_told|]. intros k3. apply Hd.
Qed.

(** The fault of a panic is reported, unless the recovery function panics. *)
Lemma panic_told c : watched c →
  match (_ ← modify poison_mutex; escalate ignore FaultPanic) c with
  | (c', inr _) | (c', inl Unwind) => told c'
  | (_, inl _) => True
  end.
Proof.
  intros Hw. pose proof (escalate_told FaultPanic (poison_mutex c)) as Ht.
  change ((_ ← modify poison_mutex; escalate ignore FaultPanic) c) with (escalate ignore FaultPanic (poison_mutex c)).
  assert (watched (poison_mutex c)) as Hw' by (by destruct c). specialize (Ht Hw').
  destruct (escalate_spec ignore FaultPanic (poison_mutex c) (proj2 Hw')) as (c' & out & He & _ & Hto). rewrite He in *.
  destruct out as [[]|[]]; try done. split; [exact Ht|]. right. right. unfold fault_told in Hto. rewrite (proj1 Hw') in Hto.
  destruct Hto as (_ & Hto). destruct (c_recovery (poison_mutex c)) as [r|]; [destruct (r FaultPanic)|]; by destruct Hto as (? & ? & ?).
Qed.

(** The executions that end: with a decision, or with a panic of the recovery function. *)
Definition over (o : Outcome) : Prop := match o with Decision _ | Unwound => True | _ => False end.

(** An execution that ends leaves a component that has told its supervisor if it has
    ended, or is silenced. *)
Lemma execute_told fuel me mm c c' o : told c → execute ignore fuel me mm c = (c', o) → over o → told c'.
Proof.
  intros Ht He Ho. pose proof (inner_execute_told fuel me mm c Ht) as Hi. unfold execute in He.
  destruct (inner_execute ignore fuel me mm c) as [c1 [[d1| | |]|d1]].
  2: pose proof (panic_told c1 Hi) as Hp; destruct ((_ ← modify poison_mutex; escalate ignore FaultPanic) c1) as [c2 [[]|[]]].
  all: destruct (from_current (c_word c)) as [[| | | |]|[]|]; simplify_eq; done.
Qed.

(** ** Reports are only added *)
Definition reports_more (c c' : Comp) : Prop := c_sent c `prefix_of` c_sent c'.

Lemma reports_tracking : tracking reports_more (λ _, True).
Proof.
  split; unfold reports_more; try done; try (by intros ? []); try (by intros []).
  - intros ???. apply transitivity.
  - intros m [] _. cbn. by apply prefix_app_r.
Qed.

Lemma tracks_perform (Rel : Comp → Comp → Prop) Ex (T : tracking Rel Ex) e :
  (∀ c q, Rel c (upd_ctrl (λ l, l ++ q) c)) → (∀ c f, Rel c (upd_msgs f c)) → (∀ c f, Rel c (upd_timers f c)) →
  (∀ c f, Rel c (upd_ports f c)) → (∀ c, Rel c (count_schedule c)) → tracks Rel Ex (perform e).
Proof.
  intros Hc Hm Ht Hp Hs. pose proof (tr_futures _ _ T) as Hf.
  destruct e; cbn [perform]; try (apply enqueue_tracks; by auto); try (apply tr_modify; by auto).
  apply tr_bind; [done|apply enqueue_tracks; by auto|]. intros ?. apply tr_modify. auto.
Qed.

Lemma tracks_call (Rel : Comp → Comp → Prop) Ex (T : tracking Rel Ex) {A} (h : CD → call_result A) :
  (∀ c d, Rel c (set_def d c)) → (∀ e, tracks Rel Ex (perform e)) → tracks Rel Ex (call h).
Proof. intros Hd He. apply tr_call; [done|auto|]. intros c. by apply Forall_forall. Qed.

(** A change of fields that the relation does not look at. *)
Ltac same T := repeat intros []; intros; exact (tr_refl _ _ T _).

(** Relations between the states before and after an execution that do not
    depend on the queues and the definition. *)
Lemma tracks_execute (Rel : Comp → Comp → Prop) (T : tracking Rel (λ _, True)) fuel me mm c :
  (∀ c f, Rel c (upd_ctrl f c)) → (∀ c f, Rel c (upd_msgs f c)) → (∀ c f, Rel c (upd_timers f c)) →
  (∀ c f, Rel c (upd_ports f c)) → (∀ c, Rel c (count_schedule c)) → (∀ c d, Rel c (set_def d c)) →
  (∀ c, Rel c (poison_mutex c)) → Rel c (execute ignore fuel me mm c).1.
Proof.
  intros Hc Hm Ht Hp Hs Hd Hx.
  assert (∀ {A} (h : CD → call_result A), tracks Rel (λ _, True) (call h)) as Hcall.
  { intros A h. apply tracks_call; [done|auto|]. intros e. by apply tracks_perform. }
  assert (tracks Rel (λ _, True) next_timer) as Hnt.
  { intros c'. unfold next_timer. destruct (try_action _). split; [apply Ht|done]. }
  assert (tracks Rel (λ _, True) (inner_execute ignore fuel me mm)) as Hi.
  { apply tr_inner; auto; intros; [apply tr_messages; auto|apply tr_control_loop; auto]. }
  assert (tracks Rel (λ _, True) (_ ← modify poison_mutex; escalate ignore FaultPanic)) as He.
  { apply tr_bind; [done|by apply tr_modify|]. intros ?. by apply tr_escalate. }
  unfold execute. destruct (Hi c) as [H1 _].
  destruct (from_current (c_word c)) as [[| | | |]|[]|]; try exact (tr_refl _ _ T c);
    (destruct (inner_execute ignore fuel me mm c) as [c1 [[d1| | |]|d1]]; try exact H1; destruct (He c1) as [H2 _];
     destruct ((_ ← modify poison_mutex; escalate ignore FaultPanic) c1) as [c2 [[]|[]]];
     exact (tr_trans _ _ T _ _ _ H1 H2)).
Qed.

Lemma execute_reports_more fuel me mm c : reports_more c (execute ignore fuel me mm c).1.
Proof. pose proof reports_tracking as T. apply tracks_execute; [done|same T..]. Qed.

(** A component without a supervisor reports nothing. *)
Definition unheard (c c' : Comp) : Prop :=
  c_supervised c' = c_supervised c ∧ (c_supervised c = false → c_sent c' = c_sent c).

Lemma execute_unheard fuel me mm c : unheard c (execute ignore fuel me mm c).1.
Proof.
  assert (tracking unheard (λ _, True)) as T.
  { split; unfold unheard; try done; try (by intros ? []); try (by intros []).
    - intros c1 c2 c3 [A1 A2] [B1 B2]. split; [congruence|]. intros Hs. rewrite B2, A2; congruence.
    - intros m [] Hs. cbn in *. split; congruence. }
  apply tracks_execute; [done|same T..].
Qed.

(** A silenced component stays so. *)
Lemma execute_silenced fuel me mm c : silenced c → silenced (execute ignore fuel me mm c).1.
Proof.
  set (Rel := λ c c' : Comp, silenced c → silenced c').
  assert (tracking Rel (λ _, True)) as T.
  { split; unfold Rel, silenced; try done; try (by intros ? []); try (by intros []); [intros c1 c2 c3 Ha Hb Hs; by apply Hb, Ha|].
    intros r c0 Hr Hs. destruct r as [f|]; [by destruct (Hr f FaultPanic eq_refl)|by destruct c0]. }
  apply (tracks_execute Rel T); unfold Rel, silenced; by intros [].
Qed.

(** ** Kill events

    [dying c]: a kill event waits to be handled, or the handler of one is
    blocking.  [notified n c]: one of the reports after the first [n] says that
    the component is gone, or the component is silenced. *)
Definition blocked_in_kill (c : Comp) : Prop := ∃ fut, c_blocking c = Some (fut, TDestroyed).
Definition dying (c : Comp) : Prop := Kill ∈ c_ctrl c ∨ blocked_in_kill c.
Definition notified (n : nat) (c : Comp) : Prop := (∃ m, m ∈ drop n (c_sent c) ∧ is_gone m = true) ∨ silenced c.

(** What every step that takes no control event keeps. *)
Definition doomed (n : nat) (c : Comp) : Prop := notified n c ∨ Kill ∈ c_ctrl c.
Definition stays_doomed (n : nat) (c c' : Comp) : Prop :=
  c_supervised c' = c_supervised c ∧ (n ≤ length (c_sent c) → n ≤ length (c_sent c')) ∧ (doomed n c → doomed n c').

Lemma doomed_tracking n : tracking (stays_doomed n) (λ _, True).
Proof.
  split; unfold stays_doomed; try done; try (by intros ? []); try (by intros []).
  - intros c1 c2 c3 (A1 & A2 & A3) (B1 & B2 & B3). split_and!; [congruence|auto..].
  - intros m [] _. cbn. split_and!; [done|rewrite length_app; lia|]. intros [[(m' & Hm & Hg)|Hq]|Hk]; [left; left|left; by right|by right].
    exists m'. split; [|done]. cbn in *. rewrite drop_app. set_solver.
  - intros r c Hr. split_and!; [by destruct c..|]. intros [[Hm|Hq]|Hk]; [left; left; by destruct c|left; right|right; by destruct c].
    unfold silenced in *. destruct r as [f|]; [|by destruct c]. by destruct (Hr f FaultPanic eq_refl).
Qed.

Lemma doomed_call n {A} (h : CD → call_result A) : tracks (stays_doomed n) (λ _, True) (call h).
Proof.
  pose proof (doomed_tracking n) as T. apply tracks_call; [done|same T|]. intros e. apply tracks_perform; [done|..]; try same T.
  intros c q. destruct c. split_and!; [done|done|]. intros [Hn|Hk]; [by left|right]. cbn in *. set_solver.
Qed.

(** User code and counters can only exit by aborting the process. *)
Definition aborts {A} (m : M A) : Prop := ∀ c x, (m c).2 = inl x → x = Abort.

Lemma aborts_bind {A B} (m : M A) (f : A → M B) : aborts m → (∀ a, aborts (f a)) → aborts (m ≫= f).
Proof.
  intros Hm Hf c x. unfold mbind, m_bind. specialize (Hm c). destruct (m c) as [c' [y|a]]; [|apply Hf].
  cbn. intros [= <-]. by apply Hm.
Qed.

Lemma aborts_on_word {A} (f : Z → res Empty_set (Z * A)) : aborts (on_word f).
Proof. intros c x. unfold on_word. destruct (f (c_word c)) as [[]|[]|]; [done|]. by intros [= <-]. Qed.

Lemma aborts_enqueue push : aborts (enqueue push).
Proof.
  unfold enqueue. apply aborts_bind; [apply aborts_on_word|]. intros sd. apply aborts_bind; [done|]. intros _.
  unfold when. by destruct (bool_decide _).
Qed.

Lemma aborts_call {A} (h : CD → call_result A) : aborts (call h).
Proof.
  unfold call. apply aborts_bind; [done|]. intros c. destruct (h (c_def c)) as [[d es] a].
  apply aborts_bind; [done|]. intros _. apply aborts_bind; [|done].
  induction es as [|e es IH]; cbn [perform_all]; [done|]. apply aborts_bind; [|done].
  destruct e; cbn [perform]; try apply aborts_enqueue; try done. by apply aborts_bind; [apply aborts_enqueue|].
Qed.

Section Kill.
Context (n : nat).

Definition stake (c : Comp) : Prop := c_supervised c = true ∧ n ≤ length (c_sent c).
(** The supervisor has been told, or the component is still dying. *)
Definition accounted (c : Comp) : Prop := stake c ∧ (notified n c ∨ dying c).
Definition sealed (c : Comp) : Prop := stake c ∧ doomed n c.
Definition reported (c : Comp) : Prop := stake c ∧ notified n c.

Definition kill_leaves (x : Exit) (c : Comp) : Prop :=
  match x with Return _ => accounted c | Unwind => stake c | Abort | NoFuel => True end.
#[local] Abbreviation ktriple := (triple kill_leaves).

Lemma reported_sealed c : reported c → sealed c.
Proof. intros []. split; [done|by left]. Qed.
Lemma sealed_accounted c : sealed c → accounted c.
Proof. intros [? [?|?]]; (split; [done|]); [by left|right; by left]. Qed.
Lemma reported_accounted c : reported c → accounted c.
Proof. intros []. split; [done|by left]. Qed.
Lemma reported_stake c : reported c → stake c.
Proof. by intros []. Qed.
Lemma sealed_stake c : sealed c → stake c.
Proof. by intros []. Qed.
Hint Resolve reported_sealed sealed_accounted reported_accounted reported_stake sealed_stake : core.

Lemma stays_sealed c c' : stays_doomed n c c' → sealed c → sealed c'.
Proof. intros (A1 & A2 & A3) ((Hs & Hl) & Hd). split; [split; [congruence|auto]|auto]. Qed.
Lemma stays_stake c c' : stays_doomed n c c' → stake c → stake c'.
Proof. intros (A1 & A2 & A3) (Hs & Hl). split; [congruence|auto]. Qed.

Lemma tracks_sealed {A} (m : M A) : tracks (stays_doomed n) (λ _, True) m → ktriple sealed m (λ _, sealed).
Proof.
  intros Hm c Hc. destruct (Hm c) as [Hr _]. destruct (m c) as [c' [[d| | |]|a]]; cbn in *; try done;
    pose proof (stays_sealed _ _ Hr Hc); auto.
Qed.

Lemma tracks_stake {A} (m : M A) : tracks (stays_doomed n) (λ _, True) m → aborts m → ktriple stake m (λ _, stake).
Proof.
  intros Hm Ha c Hc. destruct (Hm c) as [Hr _]. specialize (Ha c). destruct (m c) as [c' [x|a]]; cbn in *.
  - by rewrite (Ha x).
  - by eapply stays_stake.
Qed.

Lemma modify_stake g : (∀ c, stays_doomed n c (g c)) → ktriple stake (modify g) (λ _, stake).
Proof. intros Hg. apply triple_modify. intros c. by apply stays_stake. Qed.

Lemma call_stake {A} (h : CD → call_result A) : ktriple stake (call h) (λ _, stake).
Proof. apply tracks_stake; [apply doomed_call|apply aborts_call]. Qed.

Lemma handler_stake h : ktriple stake (call_handler h) (λ _, stake).
Proof.
  eapply triple_bind; [apply call_stake|]. intros r. destruct r; [by apply triple_ret..|]. by apply triple_exit.
Qed.

Lemma gone_reported m : is_gone m = true → ktriple stake (to_supervisor m) (λ _, reported).
Proof.
  intros Hg c [Hs Hl]. cbn. rewrite Hs. destruct c. cbn in *. split; [split; [done|cbn; rewrite length_app; lia]|].
  left. exists m. split; [|done]. cbn. rewrite drop_app_le by done. set_solver.
Qed.

Lemma destroyed_reported : ktriple stake component_set_destroyed (λ _, reported).
Proof.
  eapply triple_bind; [apply modify_stake; intros c; exact (tr_word _ _ (doomed_tracking n) _ c)|]. intros ?. by apply gone_reported.
Qed.

Lemma escalate_reported k : ktriple stake (escalate ignore k) (λ _, reported).
Proof.
  unfold escalate. eapply triple_bind; [apply modify_stake; intros c; exact (tr_word _ _ (doomed_tracking n) _ c)|]. intros ?.
  apply triple_get_with. intros c Hc. rewrite (proj1 Hc).
  destruct (c_recovery c) as [r|] eqn:Hr; [|apply triple_ret; intros ? ->; split; [done|by right]].
  apply (triple_pre _ stake); [|by intros ? ->].
  assert (∀ r', ktriple stake (modify (set_recovery r')) (λ _, stake)) as Hm by (intros r'; apply triple_modify; by intros []).
  eapply triple_bind; [apply Hm|]. intros ?. destruct (r k); [by apply gone_reported|].
  eapply triple_bind; [apply Hm|]. intros ?. by apply triple_exit.
Qed.

Lemma fatal_reported e : fatal e →
  ktriple stake (handle_handler_error ignore e) (λ out c, reported c ∧ out = StopWith NoWork).
Proof.
  destruct e; [done|intros _..]; cbn [handle_handler_error].
  - eapply triple_bind; [apply escalate_reported|]. intros ?. by apply triple_ret.
  - eapply (triple_bind _ _ _ _ (λ _, reported)); [|intros ?; by apply triple_ret].
    apply triple_get_with. intros c Hc. rewrite (proj1 Hc). eapply triple_pre; [apply destroyed_reported|by intros ? ->].
Qed.

Lemma shutdown_reported : ktriple stake shutdown_from_handler (λ _, reported).
Proof.
  unfold shutdown_from_handler.
  eapply triple_bind; [apply modify_stake; intros c; exact (tr_word _ _ (doomed_tracking n) _ c)|]. intros ?.
  eapply triple_bind; [apply handler_stake|]. intros r.
  eapply (triple_bind _ _ _ _ (λ _, stake)).
  { destruct r as [[]|e|]; cbn [handle_secondary_lifecycle_result]; first [by apply triple_ret | by apply triple_exit]. }
  intros ?. eapply triple_bind; [apply destroyed_reported|]. intros ?. by apply triple_ret.
Qed.

(** What polling the future of a kill handler leads to. *)
Definition kill_polled (r : BlockingTaskResult F Fut) (c : Comp) : Prop :=
  match r with
  | BPending => stake c ∧ blocked_in_kill c
  | BCompleted r => stake c ∧ (notified n c ∨ ∃ e, r = Err e ∧ fatal e)
  end.

Lemma replace_blocked fut : ktriple stake (replace_blocking fut TDestroyed) (λ _ c, stake c ∧ blocked_in_kill c).
Proof.
  apply triple_get_with. intros c Hc. destruct (c_blocking c); [by apply triple_exit; intros ? ->|].
  apply triple_modify. intros ? ->. destruct c. split; [done|]. by exists fut.
Qed.

Lemma kill_task : ktriple (λ c, stake c ∧ blocked_in_kill c) run_blocking_task kill_polled.
Proof.
  apply triple_get_with. intros c (Hs & fut & ->). apply (triple_pre _ stake); [|by intros ? ->].
  eapply triple_bind; [apply modify_stake; intros c'; exact (tr_blocking _ _ (doomed_tracking n) _ c')|]. intros ?.
  eapply triple_bind; [apply call_stake|]. intros p.
  assert (∀ f, ktriple stake (_ ← replace_blocking f TDestroyed; mret (BPending (F := F) (Fut := Fut))) kill_polled) as Hr.
  { intros f. eapply triple_bind; [apply replace_blocked|]. intros ?. by apply triple_ret. }
  assert (∀ r : HandlerResult F Fut, ktriple stake (_ ← component_set_destroyed; mret (BCompleted r)) kill_polled) as Hd.
  { intros r. eapply triple_bind; [apply destroyed_reported|]. intros ?. apply triple_ret. intros c' [? ?]. split; auto. }
  destruct p as [f|[[|f|]|[e|e|e]|]]; cbn; try apply Hr; try apply Hd.
  - apply (triple_bind _ _ _ _ (λ _, stake)); [by apply triple_ret|]. intros ?. apply triple_ret. intros c' Hc'. split; [done|right; by eexists].
  - apply (triple_bind _ _ _ _ (λ _, stake)); [by apply triple_ret|]. intros ?. apply triple_ret. intros c' Hc'. split; [done|right; by eexists].
  - by apply triple_exit.
Qed.

Lemma polled_word r w c : kill_polled r c → kill_polled r (upd_word (λ _, w) c).
Proof. by destruct r, c. Qed.

(** Settling the result of a kill handler's future, before or after other work. *)
Lemma kill_settled r (continue : M SchedulingDecision) : (∀ c, reported c → match continue c with
    (c', inr _) => reported c' | (c', inl x) => x = Abort end) →
  ktriple (kill_polled r) match r with
    | BPending => mret Blocked
    | BCompleted (Ok HOk) => continue
    | BCompleted (Ok (BlockOn f)) => _ ← set_blocking_with_state f TActive; mret Blocked
    | BCompleted (Ok Shutdown) => shutdown_from_handler
    | BCompleted (Err e) =>
        out ← handle_handler_error ignore e;
        match out with Continue => continue | StopWith d => mret d end
    | BCompleted Panic => exit Unwind
    end (λ _, accounted).
Proof.
  intros Hc.
  assert (ktriple reported continue (λ _, accounted)) as Hcont.
  { intros c Hr. specialize (Hc c Hr). destruct (continue c) as [c' [x|d]]; [by subst|auto]. }
  destruct r as [|[[|f|]|e|]]; cbn [kill_polled].
  - apply triple_ret. intros c []. split; [done|]. right. by right.
  - apply (triple_pre _ reported); [exact Hcont|]. intros c (? & [?|(? & ? & _)]); done.
  - apply (triple_pre _ sealed); [|intros c (? & [?|(? & ? & _)]); [split; [done|by left]|done]].
    eapply triple_bind; [apply tracks_sealed, tr_set_blocking, doomed_tracking|]. intros ?. apply triple_ret. auto.
  - eapply triple_weaken; [apply shutdown_reported|by intros c []|auto].
  - destruct e as [e|e|e].
    + eapply (triple_bind _ _ _ _ (λ out c, reported c ∧ out = Continue)).
      * apply triple_ret. intros c (? & [?|(? & [= <-] & [])]). done.
      * intros [|d]; [eapply triple_pre; [exact Hcont|by intros ? []]|by intros c []].
    + eapply triple_bind; [eapply triple_pre; [by apply fatal_reported|by intros c []]|].
      intros [|d]; [by intros c []|]. apply triple_ret. intros c []. auto.
    + eapply triple_bind; [eapply triple_pre; [by apply fatal_reported|by intros c []]|].
      intros [|d]; [by intros c []|]. apply triple_ret. intros c []. auto.
  - apply triple_exit. by intros c [].
Qed.

Lemma decrement_polled k r : ktriple (kill_polled r) (decrement k) (λ _, kill_polled r).
Proof.
  intros c Hc. unfold decrement, on_word. destruct (decrement_work (c_word c) k) as [[w d]|[]|]; [|done].
  by apply polled_word.
Qed.

Lemma run_blocking_kill {A} k (Q : A → Comp → Prop) :
  ktriple (λ c, stake c ∧ blocked_in_kill c) (run_blocking ignore k) Q.
Proof.
  unfold run_blocking. eapply triple_bind; [apply kill_task|]. intros r.
  eapply triple_bind; [apply decrement_polled|]. intros d. eapply triple_bind; [by apply kill_settled|]. intros d'. by apply triple_exit.
Qed.

Lemma resume_kill : ktriple (λ c, stake c ∧ blocked_in_kill c) (resume_blocked ignore) (λ _, accounted).
Proof.
  unfold resume_blocked. eapply triple_bind; [apply kill_task|]. intros r. apply kill_settled.
  intros c Hc. unfold current_decision, on_word, mbind at 1, m_bind at 1.
  destruct (d ← get_scheduling_decision (c_word c); Ok (c_word c, d)) as [[w d]|[]|]; [|done]. by destruct c.
Qed.

Lemma handle_kill k r : ktriple stake (handle_control ignore k Kill r) (λ _, reported).
Proof.
  assert (∀ err, fatal err → ktriple stake (out ← handle_handler_error ignore err;
    match out with Continue => mret () | StopWith d => exit (Return d) end) (λ _, reported)) as Hfatal.
  { intros err He. eapply triple_bind; [by apply fatal_reported|].
    intros [|d]; [apply triple_ret; by intros c []|]. apply triple_exit. intros c []. cbn. auto. }
  destruct r as [[|f|]|[e|e|e]|]; cbn [handle_control complete_control control_transition].
  - apply destroyed_reported.
  - eapply triple_bind; [|intros ?; apply run_blocking_kill].
    apply triple_get_with. intros c Hc. destruct (c_blocking c); [by apply triple_exit; intros ? ->|].
    apply (triple_bind _ _ _ _ (λ _ c, stake c ∧ blocked_in_kill c)).
    + apply triple_modify. intros ? ->. destruct c. split; [done|]. by exists f.
    + intros ?. apply triple_modify. by intros [].
  - eapply triple_bind; [apply destroyed_reported|]. intros ?. apply triple_exit. cbn. auto.
  - apply destroyed_reported.
  - by apply Hfatal.
  - by apply Hfatal.
  - by apply triple_exit.
Qed.

Lemma control_sealed k e : ktriple sealed (r ← start_control e; handle_control ignore k e r) (λ _, sealed).
Proof.
  pose proof (doomed_tracking n) as T.
  eapply triple_bind; [apply tracks_sealed, tr_start_control; auto using doomed_call|]. intros r.
  apply tracks_sealed, tr_handle_control; auto using doomed_call.
Qed.

Lemma control_killed k : ktriple stake (r ← start_control Kill; handle_control ignore k Kill r) (λ _, sealed).
Proof.
  eapply (triple_bind _ _ _ _ (λ _, stake)).
  - eapply triple_bind; [apply modify_stake; intros c; exact (tr_word _ _ (doomed_tracking n) _ c)|]. intros ?. apply handler_stake.
  - intros r. eapply triple_weaken; [apply handle_kill|done|auto].
Qed.

Lemma control_loop_kill fuel k : ktriple sealed (control_loop ignore fuel k) (λ _, sealed).
Proof.
  revert k. induction fuel as [|fuel IH]; intros k; cbn [control_loop]; [by apply triple_exit|].
  apply triple_get_with. intros c Hc. destruct (c_ctrl c) as [|e q] eqn:Hq; [by apply triple_ret; intros ? ->|].
  intros ? ->. unfold modify, mbind at 1, m_bind at 1. set (c1 := upd_ctrl (λ _, q) c).
  assert (stake c1) as Hs by (by destruct c, Hc).
  assert (match (r ← start_control e; handle_control ignore (S k) e r) c1 with (c', inr _) => sealed c' | (c', inl x) => kill_leaves x c' end) as Ht.
  { destruct (decide (e = Kill)) as [->|Hne]; [by apply control_killed|]. apply control_sealed. split; [done|].
    destruct Hc as [_ [Hn|Hk]]; [left; by destruct c|right]. rewrite Hq in Hk. destruct c. cbn. set_solver. }
  specialize (IH (S k)). unfold mbind, m_bind in *. destruct (start_control e c1) as [c2 [x|r]]; [done|].
  destruct (handle_control ignore (S k) e r c2) as [c3 [x|[]]]; [done|]. by apply IH.
Qed.

Lemma phases_kill fuel me mm : ktriple sealed
  (count ← control_loop ignore fuel 0;
   c ← get;
   if negb (is_active (c_word c)) then decrement count
   else
     count ← timer_loop ignore (me - count) count;
     count ← message_loop ignore (mm - count) count;
     count ← port_phase ignore me count;
     decrement count) (λ _, sealed).
Proof.
  pose proof (doomed_tracking n) as T.
  assert (tracks (stays_doomed n) (λ _, True) next_timer) as Hnt.
  { intros c'. unfold next_timer. destruct (try_action _). split; [destruct c'; exact (tr_refl _ _ T _)|done]. }
  assert (∀ rem k, tracks (stays_doomed n) (λ _, True) (message_loop ignore rem k)) as Hm.
  { intros rem k. apply tr_messages; auto using doomed_call. same T. }
  eapply triple_bind; [apply control_loop_kill|]. intros k. apply tracks_sealed.
  apply tr_bind; [done|by apply tr_get|]. intros c. destruct (negb _); [by apply tr_on_word|].
  apply tr_bind; [done|apply tr_timer_loop; auto using doomed_call|]. intros k1.
  apply tr_bind; [done|apply Hm|]. intros k2.
  apply tr_bind; [done|apply tr_port_phase; auto using doomed_call; same T|]. intros k3. by apply tr_on_word.
Qed.

Lemma inner_execute_kill fuel me mm c : stake c → dying c →
  match inner_execute ignore fuel me mm c with (c', inr _) => accounted c' | (c', inl x) => kill_leaves x c' end.
Proof.
  intros Hs Hd. unfold inner_execute, get, mbind at 1, m_bind at 1.
  destruct (c_mutex_poisoned c); [done|]. destruct Hd as [Hk|(fut & Hb)].
  2: { rewrite Hb. apply resume_kill. split; [done|by exists fut]. }
  assert (sealed c) as Hc by (split; [done|by right]). destruct (c_blocking c).
  - pose proof (doomed_tracking n) as T.
    pose proof (tracks_sealed (resume_blocked ignore) ltac:(apply tr_resume_blocked; auto using doomed_call) c Hc) as Hr.
    destruct (resume_blocked ignore c) as [c' [x|d]]; [done|]. cbn in Hr. auto.
  - exact (triple_weaken _ _ _ _ _ _ (phases_kill fuel me mm) (λ _ Hs, Hs) (λ _, sealed_accounted) c Hc).
Qed.

Lemma panic_reported c : stake c → valid_word c →
  match (_ ← modify poison_mutex; escalate ignore FaultPanic) c with
  | (c', inr _) | (c', inl Unwind) => reported c'
  | (_, inl _) => True
  end.
Proof.
  intros Hc Hv. assert (stake (poison_mutex c)) as H2 by (by destruct c). assert (valid_word (poison_mutex c)) as Hv2 by (by destruct c).
  pose proof (escalate_reported FaultPanic (poison_mutex c) H2) as H3.
  change ((_ ← modify poison_mutex; escalate ignore FaultPanic) c) with (escalate ignore FaultPanic (poison_mutex c)).
  destruct (escalate_spec ignore FaultPanic (poison_mutex c) Hv2) as (c' & out & He & _ & Hto). rewrite He in *.
  destruct out as [[]|[]]; try done. split; [exact H3|]. right. unfold fault_told in Hto. rewrite (proj1 H2) in Hto.
  destruct Hto as (_ & Hto). destruct (c_recovery (poison_mutex c)) as [r|]; [destruct (r FaultPanic)|]; by destruct Hto as (? & ? & ?).
Qed.

Lemma execute_kill fuel me mm c c' o : told c → stake c → dying c → execute ignore fuel me mm c = (c', o) → over o → accounted c'.
Proof.
  intros Ht Hs Hd He Ho. pose proof (inner_execute_kill fuel me mm c Hs Hd) as Hi.
  pose proof (inner_execute_told fuel me mm c Ht) as Hin. unfold execute in He.
  destruct (inner_execute ignore fuel me mm c) as [c1 [[d1| | |]|d1]].
  2: pose proof (panic_reported c1 Hi (proj2 Hin)) as H1; destruct ((_ ← modify poison_mutex; escalate ignore FaultPanic) c1) as [c2 [[]|[]]].
  all: destruct (from_current (c_word c)) as [[| | | |]|[]|]; simplify_eq; try (by destruct Ho); auto; split; auto.
Qed.
End Kill.
End Reports.
