(* ===== verification/Supervision.v ===== *)
(** * The supervisor

    Model of [ComponentSupervisor] ([core/src/supervision.rs]): it tracks the
    components that have started, completes the promises of those who wait for a
    lifecycle change, runs recovery actions, and on shutdown kills its children
    and waits until the last one is gone.

    Components are known by their identifier.  Promises are a third-party type:
    completing one succeeds as long as its future exists ([awaited]).  The
    attempts to complete promises, the kill events sent to children and the
    recovery actions run are recorded in the order in which they happen. *)

From S2P Require Import Prelude Lifecycle Scheduling Timers Component.

Section Supervisor.
Context {P : Type}.
Inductive ListenEvent := LStarted (id : Z) | LStopped (id : Z) | LDestroyed (id : Z).

#[global] Instance ListenEvent_eq_dec : EqDecision ListenEvent.
Proof. solve_decision. Defined.

Definition listen_id (e : ListenEvent) : Z := match e with LStarted id | LStopped id | LDestroyed id => id end.

(** [SupervisorMsg]; a promise is [None] when [Arc::try_unwrap] fails. *)
Inductive SupervisionEvent :=
| Started (id : Z)
| Stopped (id : Z)
| Killed (id : Z)
| FaultyChild (id : Z)
| Listen (amp : option P) (event : ListenEvent)
| ShutdownRequest (amp : option P).

Record Supervisor := mkSupervisor {
  children : gset Z;
  listeners : gmap Z (list (ListenEvent * P));
  shutdown : option P;
  completed : list P;   (** calls of [complete] *)
  kills : list Z;       (** [enqueue_control(Kill)] *)
  recovered : list Z;   (** recovery handlers run, by component *)
}.

Definition new_supervisor : Supervisor := mkSupervisor ∅ ∅ None [] [] [].

Definition set_children cs (s : Supervisor) := mkSupervisor cs (listeners s) (shutdown s) (completed s) (kills s) (recovered s).
Definition set_listeners ls (s : Supervisor) := mkSupervisor (children s) ls (shutdown s) (completed s) (kills s) (recovered s).
Definition set_shutdown p (s : Supervisor) := mkSupervisor (children s) (listeners s) p (completed s) (kills s) (recovered s).
Definition add_completed ps (s : Supervisor) :=
  mkSupervisor (children s) (listeners s) (shutdown s) (completed s ++ ps) (kills s) (recovered s).
Definition add_kills ids (s : Supervisor) :=
  mkSupervisor (children s) (listeners s) (shutdown s) (completed s) (kills s ++ ids) (recovered s).
Definition add_recovered id (s : Supervisor) :=
  mkSupervisor (children s) (listeners s) (shutdown s) (completed s) (kills s) (recovered s ++ [id]).

(** [partition], then [swap] of the unselected; failures to complete are logged. *)
Definition notify_listeners (id : Z) (selector : ListenEvent → bool) (s : Supervisor) : Supervisor :=
  match listeners s !! id with
  | Some l =>
      let selected := filter (λ x, selector x.1 = true) l in
      let unselected := filter (λ x, selector x.1 = false) l in
      add_completed (snd <$> selected) (set_listeners (<[id := unselected]> (listeners s)) s)
  | None => s
  end.

Definition drop_listeners (id : Z) (s : Supervisor) : Supervisor := set_listeners (delete id (listeners s)) s.

(** ** What the supervisor promises

    The waiting promises are one list in the order of subscription. *)
Record Spec := mkSpec {
  sp_children : gset Z;
  sp_waiting : list (ListenEvent * P);
  sp_shutdown : option P;
}.

(** The promises completed, children killed and recoveries run by one event. *)
Record Output := mkOutput { o_completed : list P; o_kills : list Z; o_recovered : list Z }.

Definition waiting_for (e : ListenEvent) (w : list (ListenEvent * P)) : list P := snd <$> filter (λ x, x.1 = e) w.
Definition without (e : ListenEvent) (w : list (ListenEvent * P)) := filter (λ x, x.1 ≠ e) w.
Definition without_id (id : Z) (w : list (ListenEvent * P)) := filter (λ x, listen_id x.1 ≠ id) w.

(** The listener table holds, per component, the waiting promises in order. *)
Definition refines (s : Supervisor) (a : Spec) : Prop :=
  children s = sp_children a ∧ shutdown s = sp_shutdown a
  ∧ ∀ id, default [] (listeners s !! id) = filter (λ x, listen_id x.1 = id) (sp_waiting a).

(** One step adds exactly the outputs of the specification. *)
Definition outputs (s s' : Supervisor) (o : Output) : Prop :=
  completed s' = completed s ++ o_completed o ∧ kills s' = kills s ++ o_kills o ∧ recovered s' = recovered s ++ o_recovered o.

(** *** Listener tables *)
Abbreviation bucket id w := (filter (λ x : ListenEvent * P, listen_id x.1 = id) w).

(** The table [ls] holds the promises of [w]. *)
Definition table (ls : gmap Z (list (ListenEvent * P))) (w : list (ListenEvent * P)) : Prop :=
  ∀ id, default [] (ls !! id) = bucket id w.

Lemma bucket_without_eq e (w : list (ListenEvent * P)) sel : (∀ x, listen_id x = listen_id e → sel x = true ↔ x = e) →
  filter (λ x, sel x.1 = false) (bucket (listen_id e) w) = bucket (listen_id e) (without e w).
Proof.
  intros Hs. unfold without. rewrite !list_filter_filter. apply list_filter_iff. intros [x p]. cbn.
  split; intros [H1 H2].
  - split; [done|]. intros ->. assert (sel e = true) by (by apply Hs). congruence.
  - split; [|done]. destruct (sel x) eqn:Hx; [|done]. by apply Hs in Hx.
Qed.

Lemma bucket_without_ne e w id : id ≠ listen_id e → bucket id (without e w) = bucket id w.
Proof.
  intros Hne. unfold without. rewrite list_filter_filter. apply list_filter_iff. intros [x p]. cbn. naive_solver.
Qed.

Lemma waiting_selected e (w : list (ListenEvent * P)) sel : (∀ x, listen_id x = listen_id e → sel x = true ↔ x = e) →
  filter (λ x, sel x.1 = true) (bucket (listen_id e) w) = filter (λ x, x.1 = e) w.
Proof.
  intros Hs. rewrite list_filter_filter. apply list_filter_iff. intros [x p]. cbn.
  split; [intros [H1 H2]; by apply Hs|intros ->; split; [by apply Hs|done]].
Qed.

Lemma notify_table s w e sel : (∀ x, listen_id x = listen_id e → sel x = true ↔ x = e) → table (listeners s) w →
  let s' := notify_listeners (listen_id e) sel s in
  table (listeners s') (without e w) ∧ children s' = children s ∧ shutdown s' = shutdown s
  ∧ outputs s s' (mkOutput (waiting_for e w) [] []).
Proof.
  intros Hs Ht. unfold notify_listeners, outputs, waiting_for. rewrite <-(waiting_selected e w sel Hs), <-(Ht (listen_id e)).
  destruct (listeners s !! listen_id e) as [l|] eqn:Hl; cbn.
  - rewrite !app_nil_r. split_and!; try done. intros id. destruct (decide (id = listen_id e)) as [->|Hne].
    + rewrite lookup_insert_eq. cbn. rewrite <-(bucket_without_eq e w sel Hs), <-Ht, Hl. done.
    + rewrite lookup_insert_ne by done. rewrite bucket_without_ne by done. apply Ht.
  - rewrite !app_nil_r. split_and!; try done. intros id. destruct (decide (id = listen_id e)) as [->|Hne].
    + rewrite <-(bucket_without_eq e w sel Hs), <-Ht, Hl. done.
    + rewrite bucket_without_ne by done. apply Ht.
Qed.

Lemma drop_table ls w id : table ls w → table (delete id ls) (without_id id w).
Proof.
  intros Ht i. unfold without_id. rewrite list_filter_filter. destruct (decide (i = id)) as [->|Hne].
  - rewrite lookup_delete_eq. cbn. symmetry. clear Ht. induction w as [|x w IH]; [done|].
    rewrite filter_cons, decide_False by naive_solver. exact IH.
  - rewrite lookup_delete_ne by done. rewrite (Ht i). apply list_filter_iff. intros x. naive_solver.
Qed.

Lemma without_without_id e w : without_id (listen_id e) (without e w) = without_id (listen_id e) w.
Proof. unfold without_id, without. rewrite list_filter_filter. apply list_filter_iff. intros x. naive_solver. Qed.

Lemma listen_table ls w e p : table ls w →
  table (<[listen_id e := default [] (ls !! listen_id e) ++ [(e, p)]]> ls) (w ++ [(e, p)]).
Proof.
  intros Ht id. rewrite filter_app, filter_cons, filter_nil. cbn. destruct (decide (listen_id e = id)) as [<-|Hne].
  - by rewrite lookup_insert_eq, <-Ht.
  - by rewrite lookup_insert_ne, app_nil_r.
Qed.

(** [children.values()]: the hash map's iteration order. *)
Context (values : gset Z → list Z).
(** Whether the future of a promise still exists, so that completing it succeeds. *)
Context (awaited : P → bool).

(** Completing the shutdown once nobody is left, which also forgets all waiting promises. *)
Definition spec_check (a : Spec) (o : Output) : Spec * Output :=
  match sp_shutdown a with
  | Some p =>
      if decide (sp_children a = ∅)
      then (mkSpec ∅ [] None, mkOutput (o_completed o ++ [p]) (o_kills o) (o_recovered o))
      else (a, o)
  | None => (a, o)
  end.

Definition spec_step (event : SupervisionEvent) (a : Spec) : Spec * Output :=
  let none := mkOutput [] [] [] in
  match event with
  | Started id =>
      (mkSpec ({[id]} ∪ sp_children a) (without (LStarted id) (sp_waiting a)) (sp_shutdown a),
       mkOutput (waiting_for (LStarted id) (sp_waiting a)) (if sp_shutdown a then [id] else []) [])
  | Stopped id =>
      (mkSpec (sp_children a) (without (LStopped id) (sp_waiting a)) (sp_shutdown a),
       mkOutput (waiting_for (LStopped id) (sp_waiting a)) [] [])
  | Killed id =>
      if decide (id ∈ sp_children a) then
        spec_check (mkSpec (sp_children a ∖ {[id]}) (without_id id (sp_waiting a)) (sp_shutdown a))
          (mkOutput (waiting_for (LDestroyed id) (sp_waiting a)) [] [])
      else spec_check a none
  | FaultyChild id =>
      spec_check (mkSpec (sp_children a ∖ {[id]}) (without_id id (sp_waiting a)) (sp_shutdown a))
        (mkOutput [] [] (if sp_shutdown a then [] else [id]))
  | Listen (Some p) event => (mkSpec (sp_children a) (sp_waiting a ++ [(event, p)]) (sp_shutdown a), none)
  | ShutdownRequest (Some p) =>
      if decide (sp_children a = ∅)
      then (mkSpec (sp_children a) [] (sp_shutdown a), mkOutput [p] [] [])
      else (mkSpec (sp_children a) (sp_waiting a) (Some p), mkOutput [] (values (sp_children a)) [])
  | Listen None _ | ShutdownRequest None => (a, none)
  end.

(** ** Handling events *)

(** [promise.complete().expect(..)]. *)
Definition complete_shutdown (p : P) (s : Supervisor) : res Empty_set Supervisor :=
  _ ← assert_ (awaited p);
  Ok (set_listeners ∅ (add_completed [p] s)).

Definition shutdown_if_no_more_children (s : Supervisor) : res Empty_set Supervisor :=
  match shutdown s with
  | Some promise => if decide (children s = ∅) then complete_shutdown promise (set_shutdown None s) else Ok s
  | None => Ok s
  end.

Definition is_started (e : ListenEvent) : bool := match e with LStarted _ => true | _ => false end.
Definition is_stopped (e : ListenEvent) : bool := match e with LStopped _ => true | _ => false end.
Definition is_destroyed_event (e : ListenEvent) : bool := match e with LDestroyed _ => true | _ => false end.

Definition supervise (event : SupervisionEvent) (s : Supervisor) : res Empty_set Supervisor :=
  match event with
  | Started id =>
      let s := notify_listeners id is_started (set_children ({[id]} ∪ children s) s) in
      Ok (match shutdown s with Some _ => add_kills [id] s | None => s end)
  | Stopped id => Ok (notify_listeners id is_stopped s)
  | Killed id =>
      let s :=
        if decide (id ∈ children s)
        then drop_listeners id (notify_listeners id is_destroyed_event (set_children (children s ∖ {[id]}) s))
        else s in
      shutdown_if_no_more_children s
  | FaultyChild id =>
      let s := set_children (children s ∖ {[id]}) (drop_listeners id s) in
      let s := match shutdown s with None => add_recovered id s | Some _ => s end in
      shutdown_if_no_more_children s
  | Listen (Some p) event =>
      let l := default [] (listeners s !! listen_id event) in
      Ok (set_listeners (<[listen_id event := l ++ [(event, p)]]> (listeners s)) s)
  | Listen None _ => Ok s
  | ShutdownRequest (Some promise) =>
      if decide (children s = ∅) then complete_shutdown promise s
      else Ok (add_kills (values (children s)) (set_shutdown (Some promise) s))
  | ShutdownRequest None => Ok s
  end.

Fixpoint supervise_all (es : list SupervisionEvent) (s : Supervisor) : res Empty_set Supervisor :=
  match es with [] => Ok s | e :: es => s ← supervise e s; supervise_all es s end.


(** *** Refinement *)
Lemma complete_shutdown_spec p s s' : complete_shutdown p s = Ok s' → awaited p = true ∧ s' = set_listeners ∅ (add_completed [p] s).
Proof. unfold complete_shutdown. intros H. destruct (awaited p); [|done]. by injection H as <-. Qed.

Lemma table_empty : table ∅ [].
Proof. intros id. by rewrite lookup_empty. Qed.

(** What [shutdown_if_no_more_children] adds to a step that has already been accounted for. *)
Lemma check_refines s0 s a o s' : refines s a → outputs s0 s o → shutdown_if_no_more_children s = Ok s' →
  refines s' (spec_check a o).1 ∧ outputs s0 s' (spec_check a o).2.
Proof.
  intros Hr Ho H. pose proof Hr as (Hc & Hs & Ht). pose proof Ho as (O1 & O2 & O3).
  unfold shutdown_if_no_more_children in H. unfold spec_check. rewrite <-Hs, <-Hc.
  destruct (shutdown s) as [p|]; [|injection H as <-; split; [exact Hr|exact Ho]].
  destruct (decide (children s = ∅)) as [He|He]; [|injection H as <-; split; [exact Hr|exact Ho]].
  apply complete_shutdown_spec in H as [_ ->]. split.
  - split_and!; [exact He|done|exact table_empty].
  - unfold outputs. cbn. rewrite O1, O2, O3. by rewrite app_assoc.
Qed.

Lemma outputs_trans s0 s1 s2 c k r c' : outputs s0 s1 (mkOutput c [] []) → outputs s1 s2 (mkOutput c' k r) →
  outputs s0 s2 (mkOutput (c ++ c') k r).
Proof.
  unfold outputs. cbn. intros (H1 & H2 & H3) (H4 & H5 & H6).
  rewrite H4, H5, H6, H1, H2, H3, !app_nil_r, app_assoc. done.
Qed.

Lemma outputs_refl s s' : completed s' = completed s → kills s' = kills s → recovered s' = recovered s →
  outputs s s' (mkOutput [] [] []).
Proof. unfold outputs. cbn. rewrite !app_nil_r. done. Qed.

Lemma sel_started id x : listen_id x = listen_id (LStarted id) → is_started x = true ↔ x = LStarted id.
Proof. destruct x; cbn; naive_solver. Qed.
Lemma sel_stopped id x : listen_id x = listen_id (LStopped id) → is_stopped x = true ↔ x = LStopped id.
Proof. destruct x; cbn; naive_solver. Qed.
Lemma sel_destroyed id x : listen_id x = listen_id (LDestroyed id) → is_destroyed_event x = true ↔ x = LDestroyed id.
Proof. destruct x; cbn; naive_solver. Qed.

Lemma supervise_refines e s a s' : refines s a → supervise e s = Ok s' →
  refines s' (spec_step e a).1 ∧ outputs s s' (spec_step e a).2.
Proof.
  intros (Hc & Hs & Ht) H. destruct e as [id|id|id|id|[p|] ev|[p|]]; cbn [supervise spec_step] in *.
  - destruct (notify_table (set_children ({[id]} ∪ children s) s) (sp_waiting a) (LStarted id) is_started
      (sel_started id) Ht) as (T & C & S & O). cbn [listen_id] in *. cbn in S, C. rewrite S in H. rewrite <-Hs.
    destruct (shutdown s) as [p|] eqn:Hsd; injection H as <-; cbn [fst snd].
    + split; [split_and!; [cbn; by rewrite C, Hc|exact S|exact T]|].
      destruct O as (O1 & O2 & O3). unfold outputs. cbn in *. rewrite O1, O2, O3, !app_nil_r. done.
    + split; [split_and!; [cbn; by rewrite C, Hc|exact S|exact T]|exact O].
  - destruct (notify_table s (sp_waiting a) (LStopped id) is_stopped (sel_stopped id) Ht) as (T & C & S & O).
    injection H as <-. split; [split_and!; [by rewrite <-Hc|by rewrite <-Hs|exact T]|exact O].
  - rewrite <-Hc. destruct (decide (id ∈ children s)) as [Hin|Hin].
    + destruct (notify_table (set_children (children s ∖ {[id]}) s) (sp_waiting a) (LDestroyed id) is_destroyed_event
        (sel_destroyed id) Ht) as (T & C & S & O). cbn [listen_id] in *.
      eapply check_refines; [| |exact H]; [|exact O]. split_and!; [exact C|cbn; rewrite S; exact Hs|].
      rewrite <-(without_without_id (LDestroyed id)). exact (drop_table _ _ id T).
    + eapply check_refines; [done| |exact H]. by apply outputs_refl.
  - cbn [set_children drop_listeners set_listeners shutdown] in H. rewrite Hs in H.
    eapply check_refines; [| |exact H].
    + destruct (sp_shutdown a) eqn:Hsd; (split_and!; [cbn; by rewrite Hc|cbn; congruence|exact (drop_table _ _ id Ht)]).
    + destruct (sp_shutdown a); unfold outputs; cbn; by rewrite ?app_nil_r.
  - injection H as <-. split; [|by apply outputs_refl]. split_and!; [done|done|exact (listen_table _ _ ev p Ht)].
  - injection H as <-. split; [done|by apply outputs_refl].
  - rewrite <-Hc. destruct (decide (children s = ∅)) as [He|He].
    + apply complete_shutdown_spec in H as [_ ->]. split; [split_and!; [done|done|exact table_empty]|].
      unfold outputs. cbn. by rewrite !app_nil_r.
    + injection H as <-. split; [done|]. unfold outputs. cbn. by rewrite !app_nil_r.
  - injection H as <-. split; [done|by apply outputs_refl].
Qed.

Fixpoint spec_run (es : list SupervisionEvent) (a : Spec) : Spec * list Output :=
  match es with
  | [] => (a, [])
  | e :: es => ((spec_run es (spec_step e a).1).1, (spec_step e a).2 :: (spec_run es (spec_step e a).1).2)
  end.

(** The promise of a shutdown in progress is awaited, and so are those of all requests. *)
Definition awaits (s : Supervisor) : Prop := ∀ p, shutdown s = Some p → awaited p = true.
Definition request_awaited (e : SupervisionEvent) : Prop :=
  match e with ShutdownRequest (Some p) => awaited p = true | _ => True end.

Lemma notify_shutdown id sel s : shutdown (notify_listeners id sel s) = shutdown s
  ∧ children (notify_listeners id sel s) = children s ∧ kills (notify_listeners id sel s) = kills s.
Proof. unfold notify_listeners. by destruct (listeners s !! id). Qed.

Lemma check_returns s : awaits s → ∃ s', shutdown_if_no_more_children s = Ok s' ∧ awaits s'.
Proof.
  intros Ha. unfold shutdown_if_no_more_children. destruct (shutdown s) as [p|] eqn:Hs; [|eauto].
  destruct (decide _); [|eauto]. unfold complete_shutdown. rewrite (Ha p Hs). cbn. eexists. split; [done|]. done.
Qed.

Lemma supervise_returns e s : awaits s → request_awaited e → ∃ s', supervise e s = Ok s' ∧ awaits s'.
Proof.
  intros Ha Hq. destruct e as [id|id|id|id|[p|] ev|[p|]]; cbn [supervise] in *; try (by eauto).
  - eexists. split; [done|]. destruct (notify_shutdown id is_started (set_children ({[id]} ∪ children s) s)) as (S & _).
    unfold awaits. intros p. rewrite S. cbn. destruct (shutdown s) eqn:Hs; cbn; rewrite S; cbn; rewrite Hs; intros [=<-]; auto.
  - eexists. split; [done|]. destruct (notify_shutdown id is_stopped s) as (S & _). intros p. rewrite S. auto.
  - apply check_returns. case_decide; [|done]. intros p. cbn.
    rewrite (proj1 (notify_shutdown id is_destroyed_event (set_children (children s ∖ {[id]}) s))). exact (Ha p).
  - apply check_returns. intros p. cbn. destruct (shutdown s) eqn:Hs; cbn; rewrite Hs; intros [=<-]; auto.
  - case_decide; cbn in Hq.
    + unfold complete_shutdown. rewrite Hq. cbn. by eauto.
    + eexists. split; [done|]. intros q. cbn. by intros [=<-].
Qed.

Lemma supervise_all_refines es : ∀ s a, refines s a → awaits s → Forall request_awaited es →
  ∃ s', supervise_all es s = Ok s' ∧ refines s' (spec_run es a).1
  ∧ completed s' = completed s ++ concat (o_completed <$> (spec_run es a).2)
  ∧ kills s' = kills s ++ concat (o_kills <$> (spec_run es a).2)
  ∧ recovered s' = recovered s ++ concat (o_recovered <$> (spec_run es a).2).
Proof.
  induction es as [|e es IH]; intros s a Hr Ha Hf.
  - exists s. cbn. by rewrite !app_nil_r.
  - apply Forall_cons in Hf as [He Hf]. destruct (supervise_returns e s Ha He) as (s1 & H1 & Ha1).
    destruct (supervise_refines e s a s1 Hr H1) as (Hr1 & O1 & O2 & O3).
    destruct (IH s1 _ Hr1 Ha1 Hf) as (s2 & H2 & Hr2 & P1 & P2 & P3).
    exists s2. split; [cbn; rewrite H1; exact H2|split; [exact Hr2|]]. split_and!; cbn [spec_run fst snd fmap list_fmap concat].
    + by rewrite P1, O1, app_assoc.
    + by rewrite P2, O2, app_assoc.
    + by rewrite P3, O3, app_assoc.
Qed.

(** *** Runs *)
Lemma supervise_all_app es es' s : supervise_all (es ++ es') s = (s' ← supervise_all es s; supervise_all es' s').
Proof using Type. revert s. induction es as [|e es IH]; intros s; cbn; [done|]. by destruct (supervise e s); cbn. Qed.

Lemma supervise_all_snoc es e s s1 s2 :
  supervise_all es s = Ok s1 → supervise e s1 = Ok s2 → supervise_all (es ++ [e]) s = Ok s2.
Proof using Type. intros H1 H2. rewrite supervise_all_app, H1. cbn. by rewrite H2. Qed.

Lemma supervise_run_refines es : ∀ s a s', refines s a → supervise_all es s = Ok s' → refines s' (spec_run es a).1.
Proof using Type.
  induction es as [|e es IH]; cbn; intros s a s' Hr H; [by injection H as <-|].
  destruct (supervise e s) as [s1| |] eqn:H1; try done. destruct (supervise_refines e s a s1 Hr H1) as [Hr1 _].
  exact (IH _ _ _ Hr1 H).
Qed.

Lemma spec_run_snoc es e a : (spec_run (es ++ [e]) a).1 = (spec_step e (spec_run es a).1).1.
Proof using Type. revert a. induction es as [|x es IH]; intros a; cbn; [done|]. apply IH. Qed.

(** What an event does to the set of children. *)
Definition children_after (e : SupervisionEvent) (cs : gset Z) : gset Z :=
  match e with Started id => {[id]} ∪ cs | Killed id | FaultyChild id => cs ∖ {[id]} | _ => cs end.

Lemma spec_check_children a o : sp_children (spec_check a o).1 = sp_children a.
Proof using Type. unfold spec_check. destruct (sp_shutdown a); [|done]. by case_decide. Qed.

Lemma spec_step_children e a : sp_children (spec_step e a).1 = children_after e (sp_children a).
Proof using Type.
  destruct e as [id|id|id|id|[p|] ev|[p|]]; cbn; try done.
  - case_decide; rewrite spec_check_children; [done|]. set_solver.
  - by rewrite spec_check_children.
  - by case_decide.
Qed.

(** *** Shutdown *)

(** Neither a start nor a further request, and the component an event reports as gone. *)
Definition quiet (e : SupervisionEvent) : bool := match e with Started _ | ShutdownRequest _ => false | _ => true end.
Definition gone (e : SupervisionEvent) : gset Z := match e with Killed id | FaultyChild id => {[id]} | _ => ∅ end.

(** A shutdown for [p] either goes on with children left, or has just completed [p]. *)
Definition shutting (p : P) (s : Supervisor) : Prop :=
  (children s ≠ ∅ ∧ shutdown s = Some p) ∨ (children s = ∅ ∧ shutdown s = None ∧ p ∈ completed s).

Lemma check_shutting p s : awaited p = true → shutdown s = Some p →
  ∃ s', shutdown_if_no_more_children s = Ok s' ∧ children s' = children s ∧ shutting p s'.
Proof using Type.
  intros Ha Hs. unfold shutdown_if_no_more_children. rewrite Hs. case_decide as He.
  - unfold complete_shutdown. rewrite Ha. cbn. eexists. split_and!; [done|done|]. right. cbn. split_and!; [done|done|set_solver].
  - exists s. split_and!; [done|done|]. by left.
Qed.

Lemma check_idle s : shutdown s = None → shutdown_if_no_more_children s = Ok s.
Proof using Type. intros Hs. unfold shutdown_if_no_more_children. by rewrite Hs. Qed.

Lemma quiet_shutting p e s : awaited p = true → quiet e = true → shutting p s →
  ∃ s', supervise e s = Ok s' ∧ children s' = children s ∖ gone e ∧ shutting p s'.
Proof using Type.
  intros Ha Hq Hs. destruct e as [id|id|id|id|[q|] ev|[q|]]; cbn [supervise gone quiet] in *; try done.
  - destruct (notify_shutdown id is_stopped s) as (S & C & K). eexists. split; [done|]. rewrite C. split; [set_solver|].
    unfold shutting in *. rewrite S, C. destruct Hs as [?|(?&?&Hp)]; [by left|right]. split_and!; [done|done|].
    unfold notify_listeners. destruct (listeners s !! id); [|done]. cbn. set_solver.
  - destruct Hs as [[He Hs]|(He&Hs&Hp)].
    + case_decide as Hin.
      * destruct (notify_shutdown id is_destroyed_event (set_children (children s ∖ {[id]}) s)) as (S & C & K).
        cbn [set_children children shutdown] in S, C. rewrite Hs in S.
        destruct (check_shutting p (drop_listeners id (notify_listeners id is_destroyed_event
          (set_children (children s ∖ {[id]}) s))) Ha S) as (s' & H1 & H2 & H3).
        exists s'. split; [exact H1|]. split; [by rewrite H2|exact H3].
      * destruct (check_shutting p s Ha Hs) as (s' & H1 & H2 & H3). exists s'. split_and!; [done|set_solver|done].
    + rewrite decide_False by (rewrite He; set_solver). rewrite check_idle by done. exists s.
      split_and!; [done|set_solver|]. by right.
  - destruct Hs as [[He Hs]|(He&Hs&Hp)]; cbn; rewrite Hs.
    + by apply (check_shutting p (set_children _ (drop_listeners id s))).
    + rewrite check_idle by done. eexists. split_and!; [done|done|]. right. cbn. split_and!; [set_solver|done|done].
  - eexists. split; [done|]. split; [cbn; set_solver|exact Hs].
  - eexists. split; [done|]. split; [cbn; set_solver|exact Hs].
Qed.

Lemma quiet_run_shutting p es : awaited p = true → forallb quiet es = true → ∀ s, shutting p s →
  ∃ s', supervise_all es s = Ok s' ∧ children s' = children s ∖ ⋃ (gone <$> es) ∧ shutting p s'.
Proof using Type.
  intros Ha Hq. induction es as [|e es IH]; intros s Hs.
  - exists s. split_and!; [done|cbn; set_solver|done].
  - cbn in Hq. apply andb_true_iff in Hq as [Hqe Hq]. destruct (quiet_shutting p e s Ha Hqe Hs) as (s1 & H1 & C1 & S1).
    destruct (IH Hq s1 S1) as (s2 & H2 & C2 & S2). exists s2. split; [cbn; rewrite H1; exact H2|].
    split; [rewrite C2, C1; cbn; set_solver|exact S2].
Qed.

(** C11: The supervisor implements its specification, for every sequence of events and whatever the order in which
    the children's map is iterated: as long as the futures of shutdown requests are awaited it never panics, its
    children, pending shutdown and tables of listeners are those of the specification, and it has completed exactly
    the promises, killed exactly the children and run exactly the recoveries that the specification prescribes, in
    that order. *)
Theorem supervisor_refines (es : list SupervisionEvent) : Forall request_awaited es →
  ∃ s, supervise_all es new_supervisor = Ok s ∧ refines s (spec_run es (mkSpec ∅ [] None)).1
  ∧ completed s = concat (o_completed <$> (spec_run es (mkSpec ∅ [] None)).2)
  ∧ kills s = concat (o_kills <$> (spec_run es (mkSpec ∅ [] None)).2)
  ∧ recovered s = concat (o_recovered <$> (spec_run es (mkSpec ∅ [] None)).2).
Proof using Type.
  intros Hf. apply (supervise_all_refines es new_supervisor); [|done|done]. split_and!; [done|done|exact table_empty].
Qed.

(** A component that is killed before it was ever started is not known to the supervisor, so that the promise
    of someone who waits for its destruction ([kill_notify]) is never completed by the event that reports the
    kill: the promise stays in the table as if nothing had happened. *)
Theorem untracked_kill_loses_listener (s : Supervisor) (id : Z) (p : P) : shutdown s = None → id ∉ children s →
  ∃ s', supervise_all [Listen (Some p) (LDestroyed id); Killed id] s = Ok s'
  ∧ completed s' = completed s
  ∧ ∃ l, listeners s' !! id = Some l ∧ (LDestroyed id, p) ∈ l.
Proof using Type.
  intros Hs Hn. cbn. rewrite decide_False by done. rewrite check_idle by done. eexists. split; [done|]. cbn.
  split; [done|]. eexists. split; [by rewrite lookup_insert_eq|set_solver].
Qed.
(** While a shutdown is in progress there are children left, and each has been sent a kill. *)
Definition dying (s : Supervisor) : Prop :=
  shutdown s ≠ None → children s ≠ ∅ ∧ ∀ id, id ∈ children s → id ∈ kills s.

Context (values_spec : ∀ X, values X ≡ₚ elements X).

Lemma check_dying s s' : (shutdown s ≠ None → ∀ id, id ∈ children s → id ∈ kills s) →
  shutdown_if_no_more_children s = Ok s' → dying s'.
Proof using Type.
  intros Hk H. unfold shutdown_if_no_more_children in H. destruct (shutdown s) as [p|] eqn:Hs.
  - destruct (decide (children s = ∅)) as [He|He].
    + apply complete_shutdown_spec in H as [_ ->]. done.
    + injection H as <-. intros _. auto.
  - injection H as <-. intros Hn. by rewrite Hs in Hn.
Qed.

Lemma supervise_dying e s s' : dying s → supervise e s = Ok s' → dying s'.
Proof using values_spec.
  intros Hd H. destruct e as [id|id|id|id|[p|] ev|[p|]]; cbn [supervise] in H.
  - destruct (notify_shutdown id is_started (set_children ({[id]} ∪ children s) s)) as (S & C & K).
    rewrite S in H. cbn in S, C, K, H. destruct (shutdown s) eqn:Hs; injection H as <-; intros Hn; cbn in *; [|congruence].
    rewrite C, K. split; [set_solver|]. intros i [->%elem_of_singleton|Hi]%elem_of_union; [set_solver|].
    apply elem_of_app. left. apply Hd; [congruence|done].
  - injection H as <-. destruct (notify_shutdown id is_stopped s) as (S & C & K). unfold dying. by rewrite S, C, K.
  - eapply check_dying; [|exact H]. case_decide as Hin; [|intros Hn; by apply Hd].
    destruct (notify_shutdown id is_destroyed_event (set_children (children s ∖ {[id]}) s)) as (S & C & K).
    cbn in *. rewrite S, C, K. intros Hn i Hi. apply Hd; [done|set_solver].
  - eapply check_dying; [|exact H]. cbn. destruct (shutdown s) eqn:Hs; cbn; [|congruence].
    intros Hn i Hi. apply Hd; [congruence|set_solver].
  - by injection H as <-.
  - by injection H as <-.
  - case_decide as He.
    + apply complete_shutdown_spec in H as [_ ->]. intros Hn. cbn in *. by destruct (Hd Hn).
    + injection H as <-. intros _. cbn. split; [done|]. intros i Hi. apply elem_of_app. right.
      rewrite values_spec. by apply elem_of_elements.
  - by injection H as <-.
Qed.

Lemma run_dying es : ∀ s s', dying s → supervise_all es s = Ok s' → dying s'.
Proof using values_spec.
  induction es as [|e es IH]; cbn; intros s s' Hd H; [by injection H as <-|].
  destruct (supervise e s) as [s1| |] eqn:H1; try done. exact (IH _ _ (supervise_dying _ _ _ Hd H1) H).
Qed.
(** While a shutdown is in progress, a child is an old one that is not reported gone, or it is sent a kill. *)
Lemma spec_step_kills e a id : sp_shutdown (spec_step e a).1 ≠ None → id ∈ sp_children (spec_step e a).1 →
  (sp_shutdown a ≠ None ∧ id ∈ sp_children a ∧ id ∉ gone e) ∨ id ∈ o_kills (spec_step e a).2.
Proof using values_spec.
  clear awaited. rewrite spec_step_children. intros Hs Hc.
  assert (∀ b o, sp_shutdown (spec_check b o).1 ≠ None → sp_shutdown b ≠ None) as Hk.
  { intros b o. unfold spec_check. destruct (sp_shutdown b) eqn:Hb; [done|]. cbn. by rewrite Hb. }
  destruct e as [i|i|i|i|[p|] ev|[p|]]; cbn in *; try (left; split_and!; [done|done|set_solver]).
  - destruct (sp_shutdown a); [|done]. set_solver.
  - left. split_and!; [|set_solver..]. by case_decide; apply Hk in Hs.
  - left. split_and!; [|set_solver..]. by apply Hk in Hs.
  - case_decide; [set_solver|]. right. cbn. rewrite values_spec. by apply elem_of_elements.
Qed.

(** Shutting down terminates exactly when the last child is gone.  In every reachable state a shutdown in
    progress has children left and each of them has been sent a kill event; and once every child has been reported
    killed or faulty (with no component starting in between), the promise of the shutdown has been completed and
    the supervisor has neither children nor a pending shutdown. *)
Theorem shutdown_completes (es es' : list SupervisionEvent) (s : Supervisor) (p : P) :
  supervise_all es new_supervisor = Ok s → shutdown s = Some p → awaited p = true →
  (children s ≠ ∅ ∧ ∀ id, id ∈ children s → id ∈ kills s)
  ∧ (forallb quiet es' = true → children s ⊆ ⋃ (gone <$> es') →
     ∃ s', supervise_all es' s = Ok s' ∧ children s' = ∅ ∧ shutdown s' = None ∧ p ∈ completed s').
Proof using values_spec.
  intros Hr Hs Ha. assert (children s ≠ ∅ ∧ ∀ id, id ∈ children s → id ∈ kills s) as Hd
    by (apply (run_dying es new_supervisor s); [done|done|congruence]).
  split; [exact Hd|]. intros Hq Hc.
  destruct (quiet_run_shutting p es' Ha Hq s) as (s' & H1 & C1 & S1); [left; by destruct Hd|].
  exists s'. assert (children s' = ∅) as E by set_solver. split_and!; [done|done|..];
    destruct S1 as [[Hn _]|(_ & Hn & Hp)]; done.
Qed.

End Supervisor.
Arguments SupervisionEvent P : clear implicits.
Arguments Supervisor P : clear implicits.
Arguments Spec P : clear implicits.
Arguments Output P : clear implicits.

(** ** Witnesses *)
Definition kompact_day : list (SupervisionEvent nat) :=
  [Listen (Some 1) (LStarted 7); Started 7; Started 8; Listen (Some 2) (LStopped 7); Stopped 7; FaultyChild 8; Started 9;
   Listen (Some 3) (LDestroyed 9); ShutdownRequest (Some 4)].

Lemma supervisor_refines_witness :
  Forall (request_awaited (λ _, true)) kompact_day
  ∧ ∃ s, supervise_all elements (λ _, true) kompact_day new_supervisor = Ok s
    ∧ completed s = [1; 2] ∧ recovered s = [8%Z] ∧ kills s = [7%Z; 9%Z].
Proof.
  assert (Forall (request_awaited (λ _ : nat, true)) kompact_day) as Hf by (repeat constructor).
  split; [exact Hf|]. destruct (supervisor_refines elements (λ _, true) kompact_day Hf) as (s & H1 & _ & H2 & H3 & H4).
  exists s. split_and!; [exact H1|..]; [rewrite H2|rewrite H4|rewrite H3]; vm_compute; reflexivity.
Defined.

Lemma shutdown_completes_witness :
  ∃ s s', supervise_all elements (λ _, true) kompact_day new_supervisor = Ok s ∧ shutdown s = Some 4
  ∧ supervise_all elements (λ _, true) [Killed 9; Stopped 7; Killed 7]%Z s = Ok s' ∧ 4 ∈ completed s'.
Proof.
  destruct (supervise_all elements (λ _, true) kompact_day new_supervisor) as [s| |] eqn:Hr; [|by vm_compute in Hr..].
  assert (shutdown s = Some 4) as Hs by (vm_compute in Hr; by injection Hr as <-).
  assert (children s ⊆ ⋃ (gone <$> [Killed 9; Stopped 7; Killed (P := nat) 7]%Z)) as Hc.
  { vm_compute in Hr. injection Hr as <-. apply (bool_decide_unpack _). vm_compute. exact I. }
  destruct (shutdown_completes elements (λ _, true) (λ X, Permutation_refl _) kompact_day
    [Killed 9; Stopped 7; Killed 7]%Z s 4 Hr Hs eq_refl) as [_ H].
  destruct (H eq_refl Hc) as (s' & H1 & _ & _ & H2). exists s, s'. done.
Defined.

Lemma untracked_kill_loses_listener_witness :
  ∃ s', supervise_all elements (λ _, true) [Listen (Some 1) (LDestroyed 5); Killed 5] new_supervisor = Ok s'
  ∧ completed s' = [].
Proof.
  destruct (untracked_kill_loses_listener elements (λ _, true) new_supervisor 5 1 eq_refl (not_elem_of_empty 5%Z))
    as (s' & H1 & H2 & _). exists s'. done.
Defined.
