(* ===== verification/System.v ===== *)
(** * The running system

    Model of [KompactSystem] and [KompactRuntime] ([core/src/runtime/system.rs]),
    of the schedulers' [maybe_reschedule] ([core/src/runtime/scheduler.rs]) and
    of the way the system components are started and ended
    ([core/src/default_components.rs]): components are created, started, stopped
    and killed, executed when they are scheduled, report to the supervisor, and
    the system is shut down.

    The system composes [Component] (one execution of a component) and
    [Supervision] (the handling of one report).  A run is a sequence of
    [Action]s: calls of the interface by any thread, executions of scheduled
    components, the supervisor's handling of its next event and the polling of a
    shutdown.  The calls that handlers and recovery actions make are actions of
    the run; the reports of one execution reach the supervisor when it ends.

    Identifiers of components and promises are numbers, new promises are
    numbered consecutively.  Whether the timer and the thread pool can be
    stopped is up to the crates that implement them. *)

From S2P Require Import Prelude Lifecycle Scheduling Timers Component Reports Supervision.

(** ** The state *)
Inductive ShutdownResult := ShutdownOk | SystemComponentsError | TimerError | SchedulerError | ShutdownPanicked.

(** The point at which a call of [shutdown] or [kill_system] waits. *)
Inductive ShutdownPhase :=
| AwaitSupervisor (p : nat) | AwaitDispatcher | AwaitDeadletter | Finished (result : ShutdownResult).

(** [shutdown] or [kill_system]. *)
Inductive ShutdownMode := Graceful | Forced.

#[global] Instance ShutdownResult_eq_dec : EqDecision ShutdownResult.
Proof. solve_decision. Defined.
#[global] Instance ShutdownPhase_eq_dec : EqDecision ShutdownPhase.
Proof. solve_decision. Defined.

Inductive SupervisorState := NotStarted | Supervising | SupervisorFaulty.

#[global] Instance SupervisorState_eq_dec : EqDecision SupervisorState.
Proof. solve_decision. Defined.

(** What ends the process instead of a call. *)
Inductive Fatal := Aborts | Runs_forever.

Section System.
Context {CD Msg Act Fut F R : Type} (ignore : R).
Context {H : @Handlers CD Msg Act Fut F}.
#[local] Abbreviation Comp := (@Comp CD Msg Act Fut F R).

Record System := mkSystem {
  sys_state : Z;                                   (** [KompactRuntime::state] *)
  internal_components : option (Z * Z);            (** the dispatcher and the dead letter box *)
  components : gmap Z Comp;
  supervision : list (SupervisionEvent nat);       (** the queue of the supervision port *)
  handled : list (SupervisionEvent nat);           (** the events the supervisor has handled *)
  supervisor : Supervisor nat;
  supervising : SupervisorState;
  scheduled : list Z;                              (** the jobs of the thread pool *)
  promises : nat;
  shutdowns : list (ShutdownMode * ShutdownPhase);
  timer_stopped : bool;
  scheduler_stopped : bool;
}.

Definition upd_state f (s : System) : System :=
  let '(mkSystem st ic cs q hd sv sg sc p sd t e) := s in mkSystem (f st) ic cs q hd sv sg sc p sd t e.
Definition set_internal ic (s : System) : System :=
  let '(mkSystem st _ cs q hd sv sg sc p sd t e) := s in mkSystem st ic cs q hd sv sg sc p sd t e.
Definition upd_components f (s : System) : System :=
  let '(mkSystem st ic cs q hd sv sg sc p sd t e) := s in mkSystem st ic (f cs) q hd sv sg sc p sd t e.
Definition upd_supervision f (s : System) : System :=
  let '(mkSystem st ic cs q hd sv sg sc p sd t e) := s in mkSystem st ic cs (f q) hd sv sg sc p sd t e.
Definition set_supervised q hd sv (s : System) : System :=
  let '(mkSystem st ic cs _ _ _ sg sc p sd t e) := s in mkSystem st ic cs q hd sv sg sc p sd t e.
Definition set_supervising sg (s : System) : System :=
  let '(mkSystem st ic cs q hd sv _ sc p sd t e) := s in mkSystem st ic cs q hd sv sg sc p sd t e.
Definition upd_scheduled f (s : System) : System :=
  let '(mkSystem st ic cs q hd sv sg sc p sd t e) := s in mkSystem st ic cs q hd sv sg (f sc) p sd t e.
Definition upd_promises f (s : System) : System :=
  let '(mkSystem st ic cs q hd sv sg sc p sd t e) := s in mkSystem st ic cs q hd sv sg sc (f p) sd t e.
Definition upd_shutdowns f (s : System) : System :=
  let '(mkSystem st ic cs q hd sv sg sc p sd t e) := s in mkSystem st ic cs q hd sv sg sc p (f sd) t e.
Definition stop_timer (s : System) : System :=
  let '(mkSystem st ic cs q hd sv sg sc p sd _ e) := s in mkSystem st ic cs q hd sv sg sc p sd true e.
Definition stop_scheduler (s : System) : System :=
  let '(mkSystem st ic cs q hd sv sg sc p sd t _) := s in mkSystem st ic cs q hd sv sg sc p sd t true.

#[local] Abbreviation Sys := (St System Fatal).

(** [KompactRuntime::new]. *)
Definition new_runtime : System :=
  mkSystem runtime.initial_state None ∅ [] [] new_supervisor NotStarted [] 0 [] false false.

(** ** Guards *)
Definition assert_active : Sys () := s ← st_get; st_lift (assert_ (runtime.is_active (sys_state s))).
Definition assert_not_poisoned : Sys () := s ← st_get; st_lift (assert_ (negb (runtime.is_faulty (sys_state s)))).

Definition get_internal_components : Sys (Z * Z) :=
  s ← st_get;
  match internal_components s with Some ic => mret ic | None => st_panic end.

(** [KompactRuntime::poison] and [Scheduler::poison]. *)
Definition poison : Sys () :=
  _ ← st_modify (upd_state runtime.set_faulty);
  _ ← st_modify stop_timer;
  st_modify stop_scheduler.

(** ** Components *)
Definition schedule (id : Z) : Sys () := st_modify (upd_scheduled (λ q, q ++ [id])).

(** [Component::new] and [without_supervisor]. *)
Definition new_component (supervised : bool) (definition : CD) : Comp :=
  mkComp Lifecycle.initial_state [] [] 0 new_timers definition 0 None ∅ (Some (default_recovery_function ignore)) supervised [] 0 false false.

Definition create (id : Z) (definition : CD) : Sys Z :=
  _ ← assert_active;
  _ ← get_internal_components;
  _ ← st_modify (upd_components <[id := new_component true definition]>);
  mret id.

Definition create_unsupervised (id : Z) (definition : CD) : Sys Z :=
  _ ← st_modify (upd_components <[id := new_component false definition]>);
  mret id.

(** Work for component [id] from another thread: [enqueue_control] and the like. *)
Definition enqueue_to (id : Z) (e : Effect Msg Act Fut) : Sys () :=
  s ← st_get;
  match components s !! id with
  | Some c =>
      match perform e c with
      | (c', inr _) =>
          _ ← st_modify (upd_components <[id := c']>);
          st_when (bool_decide (c_schedules c < c_schedules c')) (schedule id)
      | (_, inl _) => st_lift (Err Aborts)
      end
  | None => mret ()
  end.

Definition enqueue_control (id : Z) (e : ControlEvent) : Sys () := enqueue_to id (EControl e).

(** [utils::promise]. *)
Definition promise : Sys nat :=
  s ← st_get;
  _ ← st_modify (upd_promises S);
  mret (promises s).

(** [supervision_port().enqueue(..)]. *)
Definition supervision_enqueue (e : SupervisionEvent nat) : Sys () :=
  _ ← get_internal_components;
  st_modify (upd_supervision (λ q, q ++ [e])).

(** ** The interface *)
Definition start (id : Z) : Sys () :=
  _ ← assert_not_poisoned;
  enqueue_control id Start.

Definition start_notify (id : Z) : Sys nat :=
  _ ← assert_active;
  p ← promise;
  _ ← supervision_enqueue (Listen (Some p) (LStarted id));
  _ ← enqueue_control id Start;
  mret p.

Definition stop (id : Z) : Sys () :=
  _ ← assert_active;
  enqueue_control id Stop.

Definition stop_notify (id : Z) : Sys nat :=
  _ ← assert_active;
  p ← promise;
  _ ← supervision_enqueue (Listen (Some p) (LStopped id));
  _ ← enqueue_control id Stop;
  mret p.

Definition kill (id : Z) : Sys () :=
  _ ← assert_active;
  enqueue_control id Kill.

Definition kill_notify (id : Z) : Sys nat :=
  _ ← assert_active;
  p ← promise;
  _ ← supervision_enqueue (Listen (Some p) (LDestroyed id));
  _ ← enqueue_control id Kill;
  mret p.

(** [self.recovery_function.lock().unwrap()]; the function may panic when it is called. *)
Definition set_recovery_function (id : Z) (f : FaultKind F → option R) : Sys () :=
  s ← st_get;
  match components s !! id with
  | Some c =>
      match c_recovery c with
      | Some _ => st_modify (upd_components <[id := set_recovery (Some f) c]>)
      | None => st_panic
      end
  | None => mret ()
  end.

(** [trigger_i] and [trigger_r]: the port's queue is in the component behind it. *)
Definition trigger (id : Z) : Sys () :=
  _ ← assert_active;
  enqueue_to id EPort.

(** ** Executing components *)
Definition report_event (id : Z) (m : SupervisorMsg F R) : SupervisionEvent nat :=
  match m with
  | SStarted => Started id
  | SStopped => Stopped id
  | SKilled => Killed id
  | SFaulty _ _ => FaultyChild id
  end.

(** The runtime's [throughput] and [max_messages]; [fuel] bounds the control
    events of one execution and the executions of one [maybe_reschedule]. *)
Context (throughput max_messages fuel : nat).

(** A panic that leaves [execute] ends the job like a decision not to run again; what it
    does to the thread of the pool is up to the [executors] library. *)
Definition decision_of (o : Outcome) : SchedulingDecision := match o with Decision d => d | _ => NoWork end.

Definition run_component (id : Z) : Sys SchedulingDecision :=
  s ← st_get;
  match components s !! id with
  | Some c =>
      match execute ignore fuel throughput max_messages c with
      | (_, Aborted) => st_lift (Err Aborts)
      | (_, Runs_on) => st_lift (Err Runs_forever)
      | (c', o) =>
          _ ← st_modify (upd_components <[id := c']>);
          _ ← st_modify (upd_supervision (λ q, q ++ (report_event id <$> drop (length (c_sent c)) (c_sent c'))));
          _ ← st_for (seq 0 (c_schedules c' - c_schedules c)) (λ _, schedule id);
          _ ← st_when (c_system_poisoned c' && negb (c_system_poisoned c)) poison;
          mret (decision_of o)
      end
  | None => mret NoWork
  end.

Fixpoint maybe_reschedule (n : nat) (id : Z) : Sys () :=
  d ← run_component id;
  match d with
  | Schedule => schedule id
  | Resume => match n with S n => maybe_reschedule n id | O => st_lift (Err Runs_forever) end
  | AlreadyScheduled | NoWork | Blocked => mret ()
  end.

(** A thread of the pool takes one of the jobs. *)
Definition run_job (i : nat) : Sys () :=
  s ← st_get;
  match scheduled s !! i with
  | Some id =>
      _ ← st_modify (upd_scheduled (delete i));
      maybe_reschedule fuel id
  | None => mret ()
  end.

(** ** The supervisor *)
(** The iteration order of its children, and whether the future of a promise still exists. *)
Context (values : gset Z → list Z) (awaited : nat → bool).

Definition start_supervisor : Sys () :=
  s ← st_get;
  st_when (bool_decide (supervising s = NotStarted)) (st_modify (set_supervising Supervising)).

(** The supervisor is not supervised: its panic poisons the system. *)
Definition supervise_next : Sys () :=
  s ← st_get;
  match supervising s, supervision s with
  | Supervising, e :: q =>
      match supervise values awaited e (supervisor s) with
      | Ok sv =>
          _ ← st_modify (set_supervised q (handled s ++ [e]) sv);
          st_for (drop (length (kills (supervisor s))) (kills sv)) (λ id, enqueue_control id Kill)
      | Panic =>
          _ ← st_modify (set_supervising SupervisorFaulty);
          poison
      | Err e => match (e : Empty_set) with end
      end
  | _, _ => mret ()
  end.

(** ** System components *)
Context (custom : bool).  (** [CustomComponents] or [DefaultComponents] *)

Definition ended (id : Z) (s : System) : bool :=
  match components s !! id with
  | Some c => is_faulty (c_word c) || is_destroyed (c_word c)
  | None => false
  end.

Definition components_start : Sys () :=
  ic ← get_internal_components;
  _ ← start (snd ic);
  start (fst ic).

(** Up to the first wait of [stop_notify] or [kill]. *)
Definition components_end (mode : ShutdownMode) : Sys () :=
  ic ← get_internal_components;
  _ ← st_when (custom && match mode with Graceful => true | Forced => false end) (stop (fst ic));
  _ ← kill (fst ic);
  kill (snd ic).

(** [KompactSystem::prepare_new], after the configuration. *)
Definition prepare_new (dispatcher deadletter : Z) (disp dead : CD) : Sys () :=
  _ ← create_unsupervised deadletter dead;
  _ ← create_unsupervised dispatcher disp;
  _ ← st_modify (set_internal (Some (dispatcher, deadletter)));
  _ ← components_start;
  st_modify (upd_state runtime.set_active).

(** ** Shutdown *)
(** Whether stopping the timer and the thread pool succeeds. *)
Context (timer_stops scheduler_stops : bool).

Definition begin_shutdown (mode : ShutdownMode) : Sys () :=
  _ ← assert_active;
  p ← promise;
  _ ← supervision_enqueue (ShutdownRequest (Some p));
  st_modify (upd_shutdowns (λ l, l ++ [(mode, AwaitSupervisor p)])).

Definition system_shutdown : Sys () := begin_shutdown Graceful.
Definition kill_system : Sys () := begin_shutdown Forced.

(** Nobody holds the promise of a shutdown any more. *)
Definition promise_dropped (p : nat) (s : System) : bool :=
  negb (bool_decide (p ∈ completed (supervisor s)) || bool_decide (Supervision.shutdown (supervisor s) = Some p)
        || existsb (λ e, match e with ShutdownRequest (Some q) => bool_decide (q = p) | _ => false end) (supervision s)).

Definition set_phase (i : nat) (mode : ShutdownMode) (phase : ShutdownPhase) : Sys () :=
  st_modify (upd_shutdowns (λ l, <[i := (mode, phase)]> l)).

(** The end of [KompactRuntime::shutdown_notify] and [kill], and of [shutdown] and [kill_system]. *)
Definition finish_shutdown (i : nat) (mode : ShutdownMode) (components_ok : bool) : Sys () :=
  _ ← st_modify stop_timer;
  _ ← st_modify (upd_state runtime.set_destroyed);
  if negb components_ok then set_phase i mode (Finished SystemComponentsError)
  else if negb timer_stops then set_phase i mode (Finished TimerError)
  else
    _ ← st_modify stop_scheduler;
    set_phase i mode (Finished (if scheduler_stops then ShutdownOk else SchedulerError)).

(** Polling shutdown [i]: a panic ends it. *)
Definition advance_shutdown (i : nat) : Sys () :=
  s ← st_get;
  match shutdowns s !! i with
  | Some (mode, AwaitSupervisor p) =>
      if bool_decide (p ∈ completed (supervisor s)) then
        if runtime.is_active (sys_state s) then
          _ ← components_end mode;
          set_phase i mode AwaitDispatcher
        else set_phase i mode (Finished ShutdownPanicked)
      else if promise_dropped p s then
        match mode with
        | Graceful => finish_shutdown i mode false
        | Forced => set_phase i mode (Finished ShutdownPanicked)
        end
      else mret ()
  | Some (mode, AwaitDispatcher) =>
      match internal_components s with
      | Some (dispatcher, _) => st_when (ended dispatcher s) (set_phase i mode AwaitDeadletter)
      | None => mret ()
      end
  | Some (mode, AwaitDeadletter) =>
      match internal_components s with
      | Some (_, deadletter) => st_when (ended deadletter s) (finish_shutdown i mode true)
      | None => mret ()
      end
  | Some (_, Finished _) | None => mret ()
  end.

(** ** Runs *)
Inductive Action :=
| ACreate (id : Z) (definition : CD) | ACreateUnsupervised (id : Z) (definition : CD)
| AStart (id : Z) | AStartNotify (id : Z) | AStop (id : Z) | AStopNotify (id : Z) | AKill (id : Z) | AKillNotify (id : Z)
| ASetRecovery (id : Z) (f : FaultKind F → option R)
| ATrigger (id : Z)
| ADeliver (id : Z) (e : Effect Msg Act Fut)   (** messages, timeouts and wake-ups of futures *)
| AWake (id : Z)                               (** the waker of a blocking future *)
| AShutdown | AKillSystem | AAdvance (i : nat)
| ARun (i : nat) | AStartSupervisor | ASupervise.

Definition act (a : Action) : Sys () :=
  match a with
  | ACreate id d => _ ← create id d; mret ()
  | ACreateUnsupervised id d => _ ← create_unsupervised id d; mret ()
  | AStart id => start id
  | AStartNotify id => _ ← start_notify id; mret ()
  | AStop id => stop id
  | AStopNotify id => _ ← stop_notify id; mret ()
  | AKill id => kill id
  | AKillNotify id => _ ← kill_notify id; mret ()
  | ASetRecovery id f => set_recovery_function id f
  | ATrigger id => trigger id
  | ADeliver id e => enqueue_to id e
  | AWake id => schedule id
  | AShutdown => system_shutdown
  | AKillSystem => kill_system
  | AAdvance i => advance_shutdown i
  | ARun i => run_job i
  | AStartSupervisor => start_supervisor
  | ASupervise => supervise_next
  end.

(** Fresh identifiers for new components. *)
Definition enabled (a : Action) (s : System) : Prop :=
  match a with ACreate id _ | ACreateUnsupervised id _ => components s !! id = None | _ => True end.

(** A call that panics leaves the system as it is then; the process goes on unless it is ended. *)
Inductive step (s : System) : Action → System → Prop :=
| step_ok a s' : enabled a s → act a s = (s', Ok ()) → step s a s'
| step_panic a s' : enabled a s → act a s = (s', Panic) → step s a s'.

Inductive steps (s : System) : System → Prop :=
| steps_refl : steps s s
| steps_next s1 a s2 : steps s s1 → step s1 a s2 → steps s s2.

(** The states of a system that has been built. *)
Inductive reachable : System → Prop :=
| reachable_boot dispatcher deadletter disp dead s :
    dispatcher ≠ deadletter → prepare_new dispatcher deadletter disp dead new_runtime = (s, Ok ()) → reachable s
| reachable_step s a s' : reachable s → step s a s' → reachable s'.
End System.
Arguments System CD Msg Act Fut F R : clear implicits.
Arguments Action CD Msg Act Fut F R : clear implicits.

(** ** Invariant *)
Section Invariant.
Context {CD Msg Act Fut F R : Type}.
Context (values : gset Z → list Z) (awaited : nat → bool).
#[local] Abbreviation Comp := (@Comp CD Msg Act Fut F R).
#[local] Abbreviation System := (System CD Msg Act Fut F R).
#[local] Abbreviation Sys := (St System Fatal).

Definition event_id (e : SupervisionEvent nat) : option Z :=
  match e with Started id | Stopped id | Killed id | FaultyChild id => Some id | Listen _ _ | ShutdownRequest _ => None end.

(** All events of the supervision port in order, and those that component [id] reported. *)
Definition log (s : System) : list (SupervisionEvent nat) := handled s ++ supervision s.
Definition reports_of (id : Z) (l : list (SupervisionEvent nat)) := filter (λ e, event_id e = Some id) l.

Definition has_ended (c : Comp) : Prop := ∃ f n, terminal f ∧ c_word c = word f n ∧ n ≤ MAX_WORK.

(** A component between executions.  One with work to do is scheduled, unless it is the one that is being run ([x]). *)
Definition rests (x : option Z) (jobs : list Z) (id : Z) (c : Comp) : Prop :=
  (c_supervised c = true → told c) ∧ (c_supervised c = false → c_sent c = [])
  ∧ (has_ended c
     ∨ at_rest true 0 c ∧ (c_blocking c = None → (∃ f, c_word c = word f 0) ∨ Some id = x ∨ id ∈ jobs)).

(** Every child is being killed, apart from those in [ks]. *)
Definition being_killed (s : System) (id : Z) : Prop :=
  ∃ c, components s !! id = Some c ∧ c_supervised c = true
    ∧ (Reports.dying c ∨ silenced c ∨ ∃ e, e ∈ supervision s ∧ id ∈ gone e).

Definition killing (ks : list Z) (s : System) : Prop :=
  Supervision.shutdown (supervisor s) ≠ None → ∀ id, id ∈ children (supervisor s) → id ∈ ks ∨ being_killed s id.

Record wf (x : option Z) (ks : list Z) (s : System) : Prop := {
  wf_supervised : supervise_all values awaited (handled s) new_supervisor = Ok (supervisor s);
  wf_reports id : reports_of id (log s) = match components s !! id with Some c => report_event id <$> c_sent c | None => [] end;
  wf_rests id c : components s !! id = Some c → rests x (scheduled s) id c;
  wf_killing : killing ks s;
}.

Lemma reports_of_app id l l' : reports_of id (l ++ l') = reports_of id l ++ reports_of id l'.
Proof. apply filter_app. Qed.

Lemma reports_of_one id e : reports_of id [e] = if decide (event_id e = Some id) then [e] else [].
Proof. done. Qed.

Lemma report_event_id id (m : SupervisorMsg F R) : event_id (report_event id m) = Some id.
Proof. by destruct m. Qed.

Lemma reports_of_own id (ms : list (SupervisorMsg F R)) : reports_of id (report_event id <$> ms) = report_event id <$> ms.
Proof.
  induction ms as [|m ms IH]; [done|]. rewrite fmap_cons.
  change (reports_of id ([report_event id m] ++ (report_event id <$> ms)) = report_event id m :: (report_event id <$> ms)).
  rewrite reports_of_app, reports_of_one, IH. by rewrite decide_True by apply report_event_id.
Qed.

Lemma reports_of_other id id' (ms : list (SupervisorMsg F R)) : id ≠ id' → reports_of id (report_event id' <$> ms) = [].
Proof.
  intros Hne. induction ms as [|m ms IH]; [done|]. rewrite fmap_cons.
  change (reports_of id ([report_event id' m] ++ (report_event id' <$> ms)) = []).
  rewrite reports_of_app, reports_of_one, IH. rewrite decide_False; [done|]. rewrite report_event_id. congruence.
Qed.

(** *** Children are components that have reported *)
Lemma run_children es sv id : supervise_all values awaited es new_supervisor = Ok sv → id ∈ children sv →
  ∃ e, last (reports_of id es) = Some e ∧ gone e = ∅.
Proof.
  intros Hr Hc. assert (refines (P := nat) new_supervisor (mkSpec ∅ [] None)) as H0 by (split_and!; [done|done|exact table_empty]).
  pose proof (supervise_run_refines values awaited es _ _ _ H0 Hr) as (Hch & _). rewrite Hch in Hc. clear Hch Hr H0 sv. revert Hc.
  induction es as [|e es IH] using rev_ind; [set_solver|].
  rewrite spec_run_snoc, spec_step_children, reports_of_app, reports_of_one.
  intros Hc. destruct (decide (event_id e = Some id)) as [He|He].
  - exists e. rewrite last_snoc. split; [done|]. destruct e; cbn in *; simplify_eq; set_solver.
  - rewrite app_nil_r. apply IH. destruct e; cbn in *; try done; set_solver.
Qed.

Lemma child_component x ks s id : wf x ks s → id ∈ children (supervisor s) →
  ∃ c, components s !! id = Some c ∧ c_supervised c = true.
Proof.
  intros W Hc. destruct (run_children _ _ _ (wf_supervised _ _ _ W) Hc) as (e & He & _).
  pose proof (wf_reports _ _ _ W id) as Hl. unfold log in Hl. rewrite reports_of_app in Hl.
  destruct (components s !! id) as [c|] eqn:Hid.
  - exists c. split; [done|]. destruct (wf_rests _ _ _ W id c Hid) as (_ & Hu & _).
    destruct (c_supervised c); [done|]. rewrite (Hu eq_refl) in Hl. apply app_nil in Hl as [Hl _]. by rewrite Hl in He.
  - apply app_nil in Hl as [Hl _]. by rewrite Hl in He.
Qed.

(** A component that ended and whose reports have all been handled is no child. *)
Lemma ended_no_child x ks s id c : wf x ks s → components s !! id = Some c → supervision s = [] → gone_last c →
  id ∉ children (supervisor s).
Proof.
  intros W Hid Hq (m & Hm & Hg) Hc. destruct (run_children _ _ _ (wf_supervised _ _ _ W) Hc) as (e & He & Hn).
  pose proof (wf_reports _ _ _ W id) as Hl. unfold log in Hl. rewrite Hq, app_nil_r, Hid in Hl.
  rewrite Hl, fmap_last, Hm in He. cbn in He. injection He as <-. destruct m; cbn in *; try done; set_solver.
Qed.

(** *** Preservation *)
Definition keeps {A} (P : System → Prop) (m : Sys A) : Prop :=
  ∀ s, P s → match m s with (s', Ok _) | (s', Panic) => P s' | (_, Err _) => True end.

Lemma keeps_bind {A B} P (m : Sys A) (f : A → Sys B) : keeps P m → (∀ a, keeps P (f a)) → keeps P (m ≫= f).
Proof.
  intros Hm Hf s Hs. specialize (Hm s Hs). unfold mbind, st_bind. destruct (m s) as [s1 [a|e|]]; [|done|done]. by apply Hf.
Qed.
Lemma keeps_get {A} P (f : System → Sys A) : (∀ s, P s → keeps (λ s', s' = s) (f s) ∨ keeps P (f s)) → keeps P (st_get ≫= f).
Proof.
  intros Hf s Hs. destruct (Hf s Hs) as [Hk|Hk]; [|exact (Hk s Hs)]. specialize (Hk s eq_refl). unfold mbind, st_bind. cbn.
  destruct (f s s) as [s1 [a|e|]]; by subst.
Qed.
Lemma keeps_ret {A} P (a : A) : keeps P (mret a : Sys A).
Proof. by intros s. Qed.
Lemma keeps_lift {A} P (r : res Fatal A) : keeps P (st_lift r).
Proof. intros s Hs. cbn. by destruct r. Qed.
Lemma keeps_modify (P : System → Prop) g : (∀ s, P s → P (g s)) → keeps P (st_modify g).
Proof. intros Hg s Hs. by apply Hg. Qed.
Lemma keeps_when P b m : keeps P m → keeps P (st_when b m).
Proof. intros Hm. destruct b; [done|apply keeps_ret]. Qed.
Lemma keeps_for {A} P (l : list A) f : (∀ a, keeps P (f a)) → keeps P (st_for l f).
Proof. intros Hf. induction l as [|a l IH]; cbn [st_for]; [apply keeps_ret|]. by apply keeps_bind. Qed.

(** *** Work from outside *)
Lemma increment_word f n w d : n ≤ MAX_WORK → increment_work (E := Empty_set) (word f n) = Ok (w, d) →
  w = word f (S n) ∧ d = decide_from f n ∧ n < MAX_WORK.
Proof.
  intros Hn Hi. destruct (decide (n = MAX_WORK)) as [->|]; [by rewrite increment_work_full in Hi|].
  rewrite increment_work_word in Hi by lia. injection Hi as <- <-. split_and!; [done|done|lia].
Qed.

(** The word stays, or counts one more unit of work and the component is scheduled if the count was zero. *)
Definition counts_one (c c' : Comp) : Prop :=
  c_word c' = c_word c
  ∨ ∃ d, increment_work (E := Empty_set) (c_word c) = Ok (c_word c', d) ∧ (d = Schedule → c_schedules c < c_schedules c').

Definition same_rest (c c' : Comp) : Prop :=
  c_blocking c' = c_blocking c ∧ c_supervised c' = c_supervised c ∧ c_sent c' = c_sent c
  ∧ (Kill ∈ c_ctrl c → Kill ∈ c_ctrl c').

Lemma enqueue_facts push c c' : enqueue push c = (c', inr ()) →
  (∀ c, c_word (push c) = c_word c ∧ c_schedules (push c) = c_schedules c ∧ same_rest c (push c)) →
  counts_one c c' ∧ same_rest c c'.
Proof.
  unfold enqueue, on_word, mbind, m_bind. intros He Hp.
  destruct (increment_work (c_word c)) as [[w d]|[]|] eqn:Hi; [|done]. cbn in He.
  destruct (Hp (upd_word (λ _, w) c)) as (P1 & P2 & P3 & P4 & P5 & P6).
  unfold when in He. case_bool_decide; injection He as <-.
  - destruct (push (upd_word (λ _, w) c)), c. cbn in *. subst. split; [right; exists Schedule; split; [done|cbn; lia]|]. done.
  - destruct (push (upd_word (λ _, w) c)), c. cbn in *. subst. split; [right; exists d; by split|]. done.
Qed.

Lemma perform_facts e (c c' : Comp) : perform e c = (c', inr ()) → counts_one c c' ∧ same_rest c c'.
Proof.
  clear values awaited. intros Hp. destruct e; cbn [perform] in Hp;
    try (apply enqueue_facts in Hp; [done|]; intros []; unfold same_rest; cbn; split_and!; try done; set_solver);
    try (injection Hp as <-; destruct c; split; [by left|by unfold same_rest]).
  destruct (enqueue (upd_ctrl (λ q, q ++ [Poll tag])) c) as [c1 [x|[]]] eqn:He; unfold mbind, m_bind in Hp; rewrite He in Hp; [done|].
  injection Hp as <-. apply enqueue_facts in He as [Hc Hr].
  - destruct c1. split; [exact Hc|exact Hr].
  - intros []. unfold same_rest. cbn. split_and!; try done. set_solver.
Qed.

Lemma perform_kill (c c' : Comp) : perform (EControl Kill) c = (c', inr ()) → Kill ∈ c_ctrl c'.
Proof.
  clear values awaited. cbn [perform]. unfold enqueue, on_word, mbind, m_bind.
  destruct (increment_work (c_word c)) as [[w d]|[]|]; [|done]. unfold when. cbn. case_bool_decide; intros [= <-]; destruct c; cbn; set_solver.
Qed.

Lemma at_rest_valid (c : Comp) : at_rest true 0 c → valid_word c.
Proof. intros (_ & f & Hi & _). by eapply inv_valid. Qed.

Lemma rests_valid x jobs id c : rests x jobs id c → valid_word c.
Proof. intros (_ & _ & [(f & n & _ & ? & ?)|[Hr _]]); [by exists f, n|by apply at_rest_valid]. Qed.

Lemma perform_at_rest e (c c' : Comp) : at_rest true 0 c → perform e c = (c', inr ()) → at_rest true 0 c'.
Proof.
  intros (Hp & f & Hi & Hb) He. pose proof (perform_inv true f (c_blocking c) 0 0 e (or_introl eq_refl) c Hi) as Hi'.
  rewrite He in Hi'. pose proof (proj1 Hi') as Hcb.
  assert (tracking (kept (CD := CD) (Msg := Msg) (Act := Act) (Fut := Fut) (F := F) (R := R)) (λ _, True)) as T by by apply kept_tracking.
  destruct (kept_perform _ e T c) as [[Hk _] _]. rewrite He in Hk. cbn in Hk. split; [congruence|]. exists f.
  rewrite Hcb. done.
Qed.

Lemma rests_perform e x jobs id (c c' : Comp) : rests x jobs id c → perform e c = (c', inr ()) →
  rests x (jobs ++ if decide (c_schedules c < c_schedules c') then [id] else []) id c'.
Proof.
  clear values awaited. intros Hr He. pose proof (rests_valid _ _ _ _ Hr) as Hv. destruct Hr as (Ht & Hu & Hr).
  destruct (perform_facts e c c' He) as (Hc & Hb & Hs & Hn & _).
  pose proof (framed_perform e c Hv) as Hf. rewrite He in Hf. destruct Hf as [Hf Hv'].
  split_and!; [intros Hsv|intros Hsv|].
  - eapply (proj2 stable_told); [exact Hf|]. apply Ht. congruence.
  - rewrite Hn. apply Hu. congruence.
  - destruct Hr as [(f & n & Htm & Hw & Hm)|[Hr Hj]].
    + left. destruct Hf as (_ & _ & Hf). destruct (Hf f n Hw Hm) as (n' & ? & ?). by exists f, n'.
    + right. split; [by eapply perform_at_rest|]. rewrite Hb. intros Hnb. destruct Hr as (_ & f & (_ & y & Hw & Hm & _) & Hbf).
      destruct Hc as [Hc|(d & Hi & Hd)]; [destruct (Hj Hnb) as [(g & ?)|[?|?]]; [left; exists g; congruence|auto|set_solver]|].
      rewrite Hw in Hi. apply increment_word in Hi as (Hw' & -> & Hlt); [|done].
      destruct (decide (c_queued c + 0 + y = 0)) as [Hz|Hz].
      * right. right. rewrite decide_True; [set_solver|]. apply Hd. rewrite Hz. destruct f; try done; congruence.
      * destruct (Hj Hnb) as [(g & Hg)|[?|?]]; [|auto|set_solver]. rewrite Hw in Hg.
        apply word_inj in Hg as [_ Hg]; [lia|done|lia].
Qed.

(** *** Changing the system *)
Definition same_core (s s' : System) : Prop :=
  components s' = components s ∧ supervision s' = supervision s ∧ handled s' = handled s ∧ supervisor s' = supervisor s
  ∧ scheduled s' = scheduled s.

Lemma wf_core x ks s s' : same_core s s' → wf x ks s → wf x ks s'.
Proof.
  intros (E1 & E2 & E3 & E4 & E5) [W1 W2 W3 W4]. split.
  - by rewrite E3, E4.
  - intros id. unfold log. rewrite E1, E2, E3. apply W2.
  - intros id c. rewrite E1, E5. apply W3.
  - unfold killing, being_killed. rewrite E1, E2, E4. exact W4.
Qed.

Lemma rests_more x jobs jobs' id c : jobs ⊆ jobs' → rests x jobs id c → rests x jobs' id c.
Proof.
  intros Hj (? & ? & Hr). split_and!; [done..|]. destruct Hr as [?|[? Hn]]; [by left|right]. split; [done|].
  intros Hb. destruct (Hn Hb) as [?|[?|?]]; auto.
Qed.

Lemma wf_scheduled x ks jobs s : scheduled s ⊆ jobs → wf x ks s → wf x ks (upd_scheduled (λ _, jobs) s).
Proof.
  intros Hj [W1 W2 W3 W4]. destruct s. split; [exact W1|exact W2| |exact W4]. intros id c Hc.
  eapply rests_more; [exact Hj|]. exact (W3 id c Hc).
Qed.

(** The component that was being run is scheduled again. *)
Lemma wf_schedule_run id ks s : wf (Some id) ks s → wf None ks (upd_scheduled (λ q, q ++ [id]) s).
Proof.
  intros W. destruct W as [W1 W2 W3 W4]. destruct s. split; [exact W1|exact W2| |exact W4]. intros i c Hc.
  destruct (W3 i c Hc) as (? & ? & Hr). split_and!; [done..|]. destruct Hr as [?|[? Hn]]; [by left|right]. split; [done|].
  intros Hb. cbn in *. destruct (Hn Hb) as [?|[[= ->]|?]]; [by left|right; right; apply elem_of_app; right; set_solver|].
  right. right. apply elem_of_app. by left.
Qed.

(** Component [id] becomes [c], reports [ms], and the jobs of the thread pool are [jobs]. *)
Definition put (id : Z) (c : Comp) (ms : list (SupervisorMsg F R)) (jobs : list Z) (s : System) : System :=
  upd_scheduled (λ _, jobs) (upd_supervision (λ q, q ++ (report_event id <$> ms)) (upd_components <[id := c]> s)).

Lemma log_put id c ms jobs s : log (put id c ms jobs s) = log s ++ (report_event id <$> ms).
Proof. destruct s. unfold log. cbn. by rewrite app_assoc. Qed.

Lemma wf_put x x' ks id c c' ms jobs s : wf x ks s → components s !! id = Some c →
  rests x' jobs id c' → (∀ i c0, i ≠ id → rests x (scheduled s) i c0 → rests x' jobs i c0) →
  c_sent c' = c_sent c ++ ms → c_supervised c' = c_supervised c →
  (c_supervised c = true → Reports.dying c → Reports.dying c' ∨ silenced c' ∨ ∃ m, m ∈ ms ∧ is_gone m = true) →
  (silenced c → silenced c') →
  wf x' ks (put id c' ms jobs s).
Proof.
  intros [W1 W2 W3 W4] Hc Hr Ho Hs Hv Hd Hsil.
  assert (components (put id c' ms jobs s) = <[id := c']> (components s)) as Hcs by by destruct s.
  split.
  - destruct s. exact W1.
  - intros i. rewrite log_put, reports_of_app, (W2 i), Hcs. destruct (decide (i = id)) as [->|Hne].
    + rewrite lookup_insert_eq, Hc, reports_of_own, Hs, fmap_app. done.
    + rewrite lookup_insert_ne, reports_of_other by done. apply app_nil_r.
  - intros i c0. rewrite Hcs. destruct s. cbn in *. destruct (decide (i = id)) as [->|Hne].
    + rewrite lookup_insert_eq. by intros [= <-].
    + rewrite lookup_insert_ne by done. intros Hi. apply Ho; [done|]. by apply W3.
  - destruct s. intros Hsd i Hi. cbn in *. destruct (W4 Hsd i Hi) as [?|(c0 & H0 & Hv0 & Hk)]; [by left|right].
    unfold being_killed. cbn in *.
    destruct (decide (i = id)) as [->|Hne].
    + assert (c0 = c) as -> by congruence. exists c'. rewrite lookup_insert_eq. split_and!; [done|congruence|].
      destruct Hk as [Hk|[Hk|(ev & He & Hg)]]; [|auto|right; right; exists ev; split; [apply elem_of_app; by left|done]].
      destruct (Hd Hv0 Hk) as [?|[?|(m & Hm & Hg)]]; [by left|by right; left|right; right]. exists (report_event id m).
      split; [apply elem_of_app; right; by apply list_elem_of_fmap_2|]. destruct m; cbn in *; try done; by apply elem_of_singleton.
    + exists c0. rewrite lookup_insert_ne by done. split_and!; [done..|].
      destruct Hk as [?|[?|(ev & He & Hg)]]; [by left|by right; left|right; right; exists ev; split; [apply elem_of_app; by left|done]].
Qed.
End Invariant.

(** *** Every operation keeps the invariant *)
Section Operations.
Context {CD Msg Act Fut F R : Type} (ignore : R).
Context {H : @Handlers CD Msg Act Fut F}.
Context (throughput max_messages fuel : nat) (values : gset Z → list Z) (awaited : nat → bool).
Context (custom timer_stops scheduler_stops : bool).
#[local] Abbreviation Comp := (@Comp CD Msg Act Fut F R).
#[local] Abbreviation System := (System CD Msg Act Fut F R).
#[local] Abbreviation wf := (wf (CD := CD) (Msg := Msg) (Act := Act) (Fut := Fut) (F := F) (R := R) values awaited).
#[local] Abbreviation enqueue_to := (enqueue_to (CD := CD) (Msg := Msg) (Act := Act) (Fut := Fut) (F := F) (R := R)).

Lemma enqueue_to_put id e (s : System) c c' : components s !! id = Some c → perform e c = (c', inr ()) →
  enqueue_to id e s
  = (put id c' [] (scheduled s ++ if decide (c_schedules c < c_schedules c') then [id] else []) s, Ok ()).
Proof.
  intros Hc He. unfold System.enqueue_to, st_get, mbind at 1, st_bind at 1. rewrite Hc, He. destruct s. cbn in *. unfold st_when, put.
  case_bool_decide as Hs; cbn; rewrite app_nil_r; [by rewrite decide_True|rewrite decide_False by done]. by rewrite app_nil_r.
Qed.

Lemma enqueue_put_wf x ks id e (s : System) c c' : wf x ks s → components s !! id = Some c → perform e c = (c', inr ()) →
  wf x ks (put id c' [] (scheduled s ++ if decide (c_schedules c < c_schedules c') then [id] else []) s).
Proof.
  intros W Hc He. destruct (perform_facts e c c' He) as (_ & Hb & Hv & Hn & Hk). eapply wf_put.
  - exact W.
  - exact Hc.
  - eapply rests_perform; [by eapply wf_rests|done].
  - intros i c0 _. apply rests_more. set_solver.
  - by rewrite app_nil_r.
  - done.
  - intros _ [?|(fut & ?)]; left; [left; auto|right; exists fut; congruence].
  - unfold silenced. pose proof (framed_perform e c (rests_valid _ _ _ _ (wf_rests _ _ _ _ _ W id c Hc))) as Hf.
    rewrite He in Hf. destruct Hf as [(_ & [_ ->] & _) _]. done.
Qed.

Lemma enqueue_to_wf x ks id e : keeps (wf x ks) (enqueue_to id e).
Proof.
  intros s W. destruct (components s !! id) as [c|] eqn:Hc.
  - destruct (perform e c) as [c' [y|[]]] eqn:He.
    + unfold System.enqueue_to, st_get, mbind at 1, st_bind at 1. by rewrite Hc, He.
    + rewrite (enqueue_to_put _ _ _ _ _ Hc He). by eapply enqueue_put_wf.
  - unfold System.enqueue_to, st_get, mbind at 1, st_bind at 1. by rewrite Hc.
Qed.

Lemma wf_drop x id ks (s : System) : wf x (id :: ks) s → (id ∈ children (supervisor s) → being_killed s id) → wf x ks s.
Proof.
  intros [W1 W2 W3 W4] Hk. split; [done..|]. intros Hs i Hi.
  destruct (W4 Hs i Hi) as [[->|?]%elem_of_cons|?]; auto.
Qed.

Lemma kill_wf x id ks (s : System) : wf x (id :: ks) s →
  match enqueue_control id Kill s with (s', Ok _) => wf x ks s' | (_, Panic) => False | (_, Err _) => True end.
Proof.
  intros W. unfold enqueue_control. destruct (components s !! id) as [c|] eqn:Hc.
  - destruct (perform (EControl Kill) c) as [c' [y|[]]] eqn:He.
    + unfold System.enqueue_to, st_get, mbind at 1, st_bind at 1. by rewrite Hc, He.
    + rewrite (enqueue_to_put _ _ _ _ _ Hc He). eapply wf_drop; [by eapply enqueue_put_wf|].
      intros Hi. assert (id ∈ children (supervisor s)) as Hi' by (by destruct s).
      destruct (child_component _ _ _ _ _ _ W Hi') as (c0 & Hc0 & Hv). assert (c0 = c) as -> by congruence.
      exists c'. destruct (perform_facts _ _ _ He) as (_ & _ & Hv' & _). split_and!; [destruct s; apply lookup_insert_eq|congruence|].
      left. left. by eapply perform_kill.
  - unfold System.enqueue_to, st_get, mbind at 1, st_bind at 1. rewrite Hc. eapply wf_drop; [exact W|].
    intros Hi. destruct (child_component _ _ _ _ _ _ W Hi) as (c0 & Hc0 & _). congruence.
Qed.

Lemma kills_wf x ks (s : System) : wf x ks s →
  match st_for ks (λ id, enqueue_control id Kill) s with (s', Ok _) => wf x [] s' | (_, Panic) => False | (_, Err _) => True end.
Proof.
  revert s. induction ks as [|id ks IH]; intros s W; [exact W|]. cbn [st_for]. unfold mbind, st_bind.
  pose proof (kill_wf x id ks s W) as Hk. destruct (enqueue_control id Kill s) as [s1 [[]|e|]]; [by apply IH|done|done].
Qed.

(** *** Executions *)
Context (handlers_fine : handlers_ok (H := H) true).

Definition runs_again (d : SchedulingDecision) : bool := match d with Schedule | Resume => true | _ => false end.

Lemma execute_ended c : has_ended c → execute ignore fuel throughput max_messages c = (c, Decision NoWork).
Proof. intros (f & n & [-> | ->] & Hw & Hn); unfold execute; by rewrite Hw, from_current_word. Qed.

Lemma rests_execute jobs id c c' o : rests (Some id) jobs id c →
  execute ignore fuel throughput max_messages c = (c', o) → over o →
  rests (if runs_again (decision_of o) then Some id else None) jobs id c'.
Proof using handlers_fine.
  intros (Ht & Hu & Hr) He Ho. pose proof (execute_unheard ignore fuel throughput max_messages c) as [Hv Hn].
  rewrite He in Hv, Hn. cbn in Hv, Hn. split_and!.
  - intros Hs. eapply execute_told; [|exact He|exact Ho]. apply Ht. congruence.
  - intros Hs. rewrite Hn by congruence. apply Hu. congruence.
  - destruct Hr as [Hr|[Hr _]]; [rewrite execute_ended in He by done; injection He as <- <-; by left|].
    pose proof (execute_rests ignore _ handlers_fine _ _ _ _ _ _ _ Hr He) as Hro. destruct o as [d| | |]; try done.
    2: { destruct Hro as (n & Hw & Hm). left. exists FFaulty, n. split; [by right|done]. }
    destruct Hro as [Hd|[Hd Hb]]; [by left|right]. split; [done|]. intros Hnb. rewrite Hnb in Hb. destruct Hb as [-> |[-> |[-> Hw]]]; cbn; auto.
Qed.

Lemma dying_execute c c' o : told c → Reports.dying c →
  execute ignore fuel throughput max_messages c = (c', o) → over o →
  Reports.dying c' ∨ silenced c' ∨ ∃ m, m ∈ drop (length (c_sent c)) (c_sent c') ∧ is_gone m = true.
Proof.
  intros Ht Hd He Ho. destruct (execute_kill ignore (length (c_sent c)) fuel throughput max_messages c c' o) as [_ [[?|?]|?]]; auto.
  by split; [apply Ht|].
Qed.

Lemma schedules_put id n (s : System) : st_for (E := Fatal) (seq 0 n) (λ _, schedule id) s
  = (upd_scheduled (λ q, q ++ repeat id n) s, Ok ()).
Proof.
  assert (∀ (l : list nat) (s : System), st_for (E := Fatal) l (λ _, schedule id) s
    = (upd_scheduled (λ q, q ++ repeat id (length l)) s, Ok ())) as Hl.
  { induction l as [|y l IH]; intros s0; cbn [st_for]; [destruct s0; cbn; by rewrite app_nil_r|].
    unfold mbind, st_bind. cbn. rewrite IH. destruct s0. cbn. by rewrite <-app_assoc. }
  by rewrite Hl, length_seq.
Qed.

#[local] Abbreviation run_component := (run_component ignore throughput max_messages fuel).

Lemma run_component_wf ks id (s : System) : wf (Some id) ks s →
  match run_component id s with
  | (s', Ok d) => wf (if runs_again d then Some id else None) ks s'
  | (_, Panic) => False
  | (_, Err _) => True
  end.
Proof using handlers_fine.
  intros W. unfold System.run_component, st_get, mbind at 1, st_bind at 1.
  destruct (components s !! id) as [c|] eqn:Hc.
  2: { cbn. destruct W as [W1 W2 W3 W4]. split; [done..| |done]. intros i c Hi. destruct (W3 i c Hi) as (? & ? & Hr).
       split_and!; [done..|]. destruct Hr as [?|[? Hn]]; [by left|right]. split; [done|]. intros Hb.
       destruct (Hn Hb) as [?|[[= ->]|?]]; [auto|congruence|auto]. }
  destruct (execute ignore fuel throughput max_messages c) as [c' o] eqn:He.
  assert (over o ∨ ¬ over o) as [Ho|Ho] by (destruct o; cbn; auto); [|destruct o; try (by destruct Ho); done].
  assert (∀ (k : St System Fatal SchedulingDecision) x y, match (c', o) with (_, Aborted) => x | (_, Runs_on) => y | (_, _) => k end = k) as Hm
    by (by destruct o).
  set (ms := drop (length (c_sent c)) (c_sent c')). set (n := c_schedules c' - c_schedules c).
  assert (wf (if runs_again (decision_of o) then Some id else None) ks (put id c' ms (scheduled s ++ repeat id n) s)) as Hw.
  { eapply wf_put; [exact W|exact Hc|..].
    - eapply rests_more; [|eapply rests_execute; [eapply (wf_rests _ _ _ _ _ W id c Hc)|exact He|exact Ho]]. set_solver.
    - intros i c0 Hne (? & ? & Hr). split_and!; [done..|]. destruct Hr as [?|[? Hn]]; [by left|right]. split; [done|].
      intros Hb. destruct (Hn Hb) as [?|[[= ->]|?]]; [auto|done|right; right; set_solver].
    - pose proof (execute_reports_more ignore fuel throughput max_messages c) as [l Hl]. rewrite He in Hl. cbn in Hl.
      subst ms. by rewrite Hl, drop_app_length.
    - pose proof (execute_unheard ignore fuel throughput max_messages c) as [Hv _]. by rewrite He in Hv.
    - intros Hs Hd. eapply dying_execute; [|done..]. by apply (proj1 (wf_rests _ _ _ _ _ W id c Hc)).
    - intros Hs. pose proof (execute_silenced ignore fuel throughput max_messages c Hs) as Hs'. by rewrite He in Hs'. }
  rewrite Hm.
  unfold mbind at 1, st_bind at 1. cbn [st_modify]. unfold mbind at 1, st_bind at 1. cbn [st_modify].
  unfold mbind at 1, st_bind at 1. rewrite schedules_put.
  match goal with |- context [upd_scheduled _ ?t] => assert (upd_scheduled (λ q, q ++ repeat id n) t
    = put id c' ms (scheduled s ++ repeat id n) s) as -> by (by destruct s) end.
  unfold mbind at 1, st_bind at 1. destruct (_ && _); cbn [st_when]; [|exact Hw].
  eapply wf_core; [|exact Hw]. by destruct s.
Qed.

Lemma maybe_reschedule_wf ks n id (s : System) : wf (Some id) ks s →
  match maybe_reschedule ignore throughput max_messages fuel n id s with
  | (s', Ok _) => wf None ks s' | (_, Panic) => False | (_, Err _) => True end.
Proof using handlers_fine.
  revert s. induction n as [|n IH]; intros s W; cbn [maybe_reschedule]; unfold mbind, st_bind;
    pose proof (run_component_wf ks id s W) as Hr;
    destruct (System.run_component ignore throughput max_messages fuel id s) as [s1 [d|e|]]; try done;
    destruct d; cbn in *; try done; try (by apply wf_schedule_run).
  by apply IH.
Qed.

Lemma wf_run_more id ks (s : System) i : scheduled s !! i = Some id → wf None ks s → wf (Some id) ks (upd_scheduled (delete i) s).
Proof.
  clear handlers_fine H. intros Hi [W1 W2 W3 W4]. destruct s. cbn in *. split; [exact W1|exact W2| |exact W4]. intros j c Hc. cbn in *.
  destruct (W3 j c Hc) as (? & ? & Hr). split_and!; [done..|]. destruct Hr as [?|[? Hn]]; [by left|right]. split; [done|].
  intros Hb. destruct (Hn Hb) as [?|[?|Hj]]; [auto|done|]. destruct (decide (j = id)) as [->|Hne]; [auto|]. right. right.
  rewrite <-(take_drop_middle _ _ _ Hi) in Hj. rewrite delete_take_drop. set_solver.
Qed.

Lemma run_job_wf i : keeps (wf None []) (run_job ignore throughput max_messages fuel i).
Proof using handlers_fine.
  intros s W. unfold run_job, st_get, mbind at 1, st_bind at 1. destruct (scheduled s !! i) as [id|] eqn:Hi; [|exact W].
  unfold mbind, st_bind. cbn [st_modify].
  pose proof (maybe_reschedule_wf [] fuel id _ (wf_run_more id [] s i Hi W)) as Hm.
  by destruct (maybe_reschedule _ _ _ _ _ _ _) as [s1 [a|e|]].
Qed.

(** *** The supervisor *)
Context (values_spec : ∀ X, values X ≡ₚ elements X).

Lemma start_refines : refines (P := nat) new_supervisor (mkSpec ∅ [] None).
Proof using Type. split_and!; [done|done|exact table_empty]. Qed.

Lemma supervise_wf e q sv (s : System) : wf None [] s → supervision s = e :: q →
  supervise values awaited e (supervisor s) = Ok sv →
  wf None (drop (length (kills (supervisor s))) (kills sv)) (set_supervised q (handled s ++ [e]) sv s).
Proof using values_spec.
  clear handlers_fine H. intros [W1 W2 W3 W4] Hq He.
  pose proof (supervise_run_refines _ _ _ _ _ _ start_refines W1) as Hr.
  destruct (supervise_refines _ _ _ _ _ _ Hr He) as [Hr' (_ & Hk & _)]. rewrite Hk, drop_app_length.
  destruct s as [st ic cs q0 hd sv0 sg sc p sd t x]. cbn in *. subst q0. split; cbn.
  - by eapply supervise_all_snoc.
  - intros id. pose proof (W2 id) as H2. unfold log in *. cbn [handled supervision set_supervised] in *. by rewrite <-app_assoc.
  - exact W3.
  - intros Hs id Hi. cbn in *. destruct Hr' as (Hch & Hsd & _). destruct Hr as (Hch0 & Hsd0 & _). rewrite Hch in Hi. rewrite Hsd in Hs.
    destruct (spec_step_kills values values_spec _ _ _ Hs Hi) as [(Hs0 & Hi0 & Hg)|?]; [right|by left].
    rewrite <-Hsd0 in Hs0. rewrite <-Hch0 in Hi0.
    destruct (W4 Hs0 id Hi0) as [?%not_elem_of_nil|(c & Hc & Hv & Hd)]; [done|]. exists c. cbn in *. split_and!; [done..|].
    destruct Hd as [?|[?|(ev & [->|Hev]%elem_of_cons & Hg')]]; [by left|by right; left|done|right; right; by exists ev].
Qed.

Lemma supervise_next_wf : keeps (wf None []) (supervise_next values awaited).
Proof using values_spec.
  intros s W. unfold supervise_next, st_get, mbind at 1, st_bind at 1.
  destruct (supervising s); [exact W| |exact W]. destruct (supervision s) as [|e q] eqn:Hq; [exact W|].
  destruct (supervise values awaited e (supervisor s)) as [sv|[]|] eqn:He.
  - unfold mbind, st_bind. cbn [st_modify]. pose proof (kills_wf None _ _ (supervise_wf e q sv s W Hq He)) as Hk.
    by destruct (st_for _ _ _) as [s1 [a|x|]].
  - cbn. eapply wf_core; [|exact W]. by destruct s.
Qed.

(** *** Everything else *)
Lemma create_wf b id d (s : System) : components s !! id = None → wf None [] s →
  wf None [] (upd_components <[id := new_component ignore b d]> s).
Proof using Type.
  clear handlers_fine H values_spec. intros Hid [W1 W2 W3 W4].
  assert (valid_word (new_component (CD := CD) (Msg := Msg) (Act := Act) (Fut := Fut) (F := F) ignore b d)) as Hv
    by (exists FPassive, 0; split; [done|lia]).
  split.
  - by destruct s.
  - intros i. replace (log (upd_components _ s)) with (log s) by (by destruct s). rewrite (W2 i). destruct s. cbn in *.
    destruct (decide (i = id)) as [->|Hne]; [by rewrite lookup_insert_eq, Hid|by rewrite lookup_insert_ne].
  - destruct s. cbn in *. intros i c. destruct (decide (i = id)) as [->|Hne].
    2: { rewrite lookup_insert_ne by done. apply W3. }
    rewrite lookup_insert_eq. intros [= <-]. split_and!; [intros Hs|done|right].
    + split; [by split|]. left. exists FPassive, 0. split_and!; [by intros []|done|lia].
    + split; [|intros _; left; by exists FPassive]. split; [done|]. exists FPassive. split; [|done]. split; [done|].
      exists 0. split_and!; [done|cbn; lia|done|done].
  - destruct s. intros Hs i Hi. cbn in *. destruct (W4 Hs i Hi) as [?|(c & Hc & Hr)]; [by left|right]. exists c. cbn in *.
    split; [|done]. rewrite lookup_insert_ne; [done|]. congruence.
Qed.

Lemma supervision_wf e x ks : event_id e = None → keeps (wf x ks) (supervision_enqueue e).
Proof using Type.
  clear handlers_fine H values_spec. intros He s W. unfold supervision_enqueue, get_internal_components, st_get. unfold mbind at 1, st_bind at 1, mbind at 1, st_bind at 1.
  destruct (internal_components s); [|exact W]. cbn. destruct W as [W1 W2 W3 W4].
  assert (log (upd_supervision (λ q, q ++ [e]) s) = log s ++ [e]) as Hl by (destruct s; unfold log; cbn; by rewrite app_assoc).
  split; [by destruct s| |by destruct s|].
  - intros i. rewrite Hl, reports_of_app, reports_of_one, He, (W2 i). rewrite decide_False, app_nil_r by done. by destruct s.
  - destruct s. intros Hs i Hi. destruct (W4 Hs i Hi) as [?|(c & Hc & Hv & Hd)]; [by left|right]. exists c. cbn in *. split_and!; [done..|].
    destruct Hd as [?|[?|(ev & ? & ?)]]; [by left|by right; left|right; right]. exists ev. split; [set_solver|done].
Qed.

Lemma keeps_reading {A} (P : System → Prop) (m : St System Fatal A) : (∀ s, (m s).1 = s) → keeps P m.
Proof using Type. intros Hm s Hs. specialize (Hm s). destruct (m s) as [s1 [a|e|]]; cbn in Hm; by subst. Qed.

Lemma keeps_core {A} x ks (m : St System Fatal A) : (∀ s, same_core s (m s).1) → keeps (wf x ks) m.
Proof using Type.
  intros Hm s Hs. specialize (Hm s). destruct (m s) as [s1 [a|e|]]; cbn in Hm; [|done|]; by eapply wf_core.
Qed.

Lemma active_reads (s : System) : (assert_active s).1 = s.
Proof using Type. done. Qed.
Lemma not_poisoned_reads (s : System) : (assert_not_poisoned s).1 = s.
Proof using Type. done. Qed.
Lemma internal_reads (s : System) : (get_internal_components s).1 = s.
Proof using Type. unfold get_internal_components, mbind, st_bind. cbn. by destruct (internal_components s). Qed.

#[local] Ltac keep :=
  first
    [ apply enqueue_to_wf
    | apply supervision_wf; reflexivity
    | apply keeps_reading; intros ?; first [apply active_reads | apply not_poisoned_reads | apply internal_reads | reflexivity]
    | apply keeps_core; intros []; by repeat split
    | apply keeps_when
    | apply keeps_bind; [|intros ?] ].

Lemma schedule_wf id : keeps (wf None []) (schedule id).
Proof using Type. clear handlers_fine H values_spec. apply keeps_modify. intros s W. apply (wf_scheduled _ _ _ _ (scheduled s ++ [id])) in W; [by destruct s|set_solver]. Qed.

Lemma set_recovery_wf id f : keeps (wf None []) (set_recovery_function id f).
Proof using Type.
  clear handlers_fine H values_spec. intros s W. unfold set_recovery_function, st_get, mbind at 1, st_bind at 1.
  destruct (components s !! id) as [c|] eqn:Hc; [|exact W]. destruct (c_recovery c) as [r|] eqn:Hrec; [|exact W]. cbn.
  assert (upd_components <[id := set_recovery (Some f) c]> s = put id (set_recovery (Some f) c) [] (scheduled s) s) as ->
    by (destruct s; unfold put; cbn; by rewrite app_nil_r).
  eapply wf_put; [exact W|exact Hc| |by intros| | | |].
  - pose proof (wf_rests _ _ _ _ _ W id c Hc) as (Ht & Hr). split; [|by destruct c].
    intros Hs. destruct (Ht ltac:(by destruct c)) as [Hw [Hl|[Hg|Hq]]]; [| |by rewrite Hq in Hrec].
    + split; [by destruct c|]. left. by destruct c.
    + split; [by destruct c|]. right. left. by destruct c.
  - rewrite app_nil_r. by destruct c.
  - by destruct c.
  - intros _ Hd. left. by destruct c.
  - intros Hq. by rewrite Hq in Hrec.
Qed.

Lemma ending_wf mode : keeps (wf None []) (components_end custom mode).
Proof using Type. unfold components_end, stop, kill, enqueue_control. repeat keep. Qed.

Lemma finish_wf i mode ok : keeps (wf None []) (finish_shutdown timer_stops scheduler_stops i mode ok).
Proof using Type. unfold finish_shutdown, set_phase. destruct ok, timer_stops, scheduler_stops; cbn; repeat keep. Qed.

Lemma shutdown_advance_wf i : keeps (wf None []) (advance_shutdown custom timer_stops scheduler_stops i).
Proof using Type.
  apply keeps_get. intros s _. right. destruct (shutdowns s !! i) as [[mode [p| | |r]]|]; try keep.
  - destruct (bool_decide _); [destruct (runtime.is_active _)|destruct (promise_dropped p s); [destruct mode|]];
      first [apply finish_wf | unfold set_phase; keep; first [apply ending_wf | keep] | unfold set_phase; keep | keep].
  - destruct (internal_components s) as [[d b]|]; unfold set_phase; repeat keep.
  - destruct (internal_components s) as [[d b]|]; [keep; apply finish_wf|keep].
Qed.

#[local] Abbreviation act := (act ignore throughput max_messages fuel values awaited custom timer_stops scheduler_stops).

Lemma act_wf a (s : System) : enabled a s → wf None [] s →
  match act a s with (s', Ok _) | (s', Panic) => wf None [] s' | (_, Err _) => True end.
Proof using handlers_fine values_spec.
  intros He. revert s He. cut (keeps (wf None []) (act a) ∨ ∃ b id d, enabled (R := R) a = (λ s, components s !! id = None)
    ∧ ∀ s, act a s = (s, Panic) ∨ act a s = (upd_components <[id := new_component ignore b d]> s, Ok ())).
  { intros [Hk|(b & id & d & -> & Ha)] s He Hs; [exact (Hk s Hs)|]. destruct (Ha s) as [-> | ->]; [done|]. by apply create_wf. }
  destruct a as [id d|id d|id|id|id|id|id|id|id f|id|id e|id| | |i|i| |]; cbn [System.act].
  1: { right. exists true, id, d. split; [done|]. intros s. unfold create, get_internal_components, assert_active, mbind, st_bind. cbn.
       destruct (runtime.is_active _); cbn; [|by left]. destruct (internal_components s); cbn; [by right|by left]. }
  1: { right. exists false, id, d. split; [done|]. intros s. by right. }
  all: left; unfold start, start_notify, stop, stop_notify, kill, kill_notify, trigger, enqueue_control, system_shutdown, kill_system,
    begin_shutdown, promise, start_supervisor.
  all: try apply set_recovery_wf; try apply schedule_wf; try apply shutdown_advance_wf; try apply run_job_wf; try apply supervise_next_wf.
  all: repeat keep.
Qed.

#[local] Abbreviation step := (step ignore throughput max_messages fuel values awaited custom timer_stops scheduler_stops).
#[local] Abbreviation steps := (steps ignore throughput max_messages fuel values awaited custom timer_stops scheduler_stops).
#[local] Abbreviation reachable := (reachable ignore throughput max_messages fuel values awaited custom timer_stops scheduler_stops).

Lemma new_runtime_wf : wf None [] new_runtime.
Proof using Type.
  split; [done| |done|done]. intros id. cbn. by rewrite lookup_empty.
Qed.

Lemma boot_wf dispatcher deadletter disp dead s : dispatcher ≠ deadletter →
  prepare_new ignore dispatcher deadletter disp dead new_runtime = (s, Ok ()) → wf None [] s.
Proof using Type.
  intros Hne Hb.
  set (s1 := set_internal (Some (dispatcher, deadletter))
    (upd_components <[dispatcher := new_component ignore false disp]>
      (upd_components <[deadletter := new_component ignore false dead]> (new_runtime (Msg := Msg) (Act := Act) (Fut := Fut) (F := F))))).
  assert (wf None [] s1) as W1.
  { eapply (wf_core _ _ _ _ (upd_components _ (upd_components _ new_runtime))); [by repeat split|].
    apply create_wf; [cbn; by rewrite lookup_insert_ne|]. apply create_wf; [done|apply new_runtime_wf]. }
  assert (keeps (wf None []) (_ ← components_start; st_modify (upd_state runtime.set_active))) as Hm.
  { unfold components_start, start, enqueue_control. repeat keep. }
  specialize (Hm s1 W1).
  change (prepare_new ignore dispatcher deadletter disp dead new_runtime)
    with ((_ ← components_start; st_modify (E := Fatal) (upd_state runtime.set_active)) s1) in Hb.
  by rewrite Hb in Hm.
Qed.

Lemma reachable_wf s : reachable s → wf None [] s.
Proof using handlers_fine values_spec.
  induction 1 as [dispatcher deadletter disp dead s Hne Hb|s a s' _ IH Hs]; [by eapply boot_wf|].
  destruct Hs as [a s' He Ha|a s' He Ha]; pose proof (act_wf a s He IH) as Hw; by rewrite Ha in Hw.
Qed.

Lemma steps_reachable s s' : reachable s → steps s s' → reachable s'.
Proof using Type. intros Hr. induction 1; [done|]. by eapply reachable_step. Qed.

(** ** What the supervisor knows *)
Lemma ended_not_live (c : Comp) : has_ended c → live c → False.
Proof using Type.
  intros (f & n & Ht & Hw & Hn) (f' & n' & Ht' & Hw' & Hn'). rewrite Hw in Hw'.
  apply word_inj in Hw' as [-> _]; done.
Qed.

(** C15: The supervisor is informed.  In every reachable state of a system the
    supervisor is in the state that handling its events, in order, leads to;
    the events of each component are exactly the reports the component made, in
    the order in which it made them, handled or still queued; a supervised
    component that is destroyed or faulty said so in its last report, unless its
    recovery function panicked (which poisons the function's mutex); and a
    component that is neither ended nor blocked and has work in its queues is
    scheduled to run. *)
Theorem supervisor_informed (s : System) : reachable s →
  supervise_all values awaited (handled s) new_supervisor = Ok (supervisor s)
  ∧ ∀ id c, components s !! id = Some c →
      reports_of id (log s) = report_event id <$> c_sent c
      ∧ (c_supervised c = true → has_ended c → gone_last c ∨ c_recovery c = None)
      ∧ (¬ has_ended c → c_blocking c = None → c_queued c ≠ 0 → id ∈ scheduled s).
Proof using handlers_fine values_spec.
  intros W%reachable_wf. split; [by eapply wf_supervised|]. intros id c Hc. split_and!.
  - pose proof (wf_reports _ _ _ _ _ W id) as Hr. by rewrite Hc in Hr.
  - intros Hs He. destruct (wf_rests _ _ _ _ _ W id c Hc) as (Ht & _). destruct (Ht Hs) as [_ [Hl|Hg]]; [|done].
    by destruct (ended_not_live c He Hl).
  - intros Hn Hb Hq. destruct (wf_rests _ _ _ _ _ W id c Hc) as (_ & _ & [?|[Hr Hj]]); [done|].
    destruct (Hj Hb) as [(f & Hw)|[?|?]]; [|done|done]. destruct Hr as (_ & f' & (_ & y & Hw' & Hm & _) & _).
    rewrite Hw in Hw'. apply word_inj in Hw' as [_ ?]; lia.
Qed.

(** C14: A shutdown cannot get stuck unless a recovery function panics.  Whenever a
    running system has come to rest (the supervisor has handled all events, nothing is
    scheduled, no component is blocked on a future) and no component's recovery function
    has panicked (which poisons the function's mutex), the promise of every shutdown
    request has been completed, unless it was dropped for a later request: no child can
    remain that was sent a kill event and neither handles it nor reports its end. *)
Theorem shutdown_never_stuck (s : System) (p : nat) :
  reachable s → promise_dropped p s = false → supervision s = [] → scheduled s = [] →
  (∀ id c, components s !! id = Some c → c_blocking c = None ∧ c_recovery c ≠ None) →
  p ∈ completed (supervisor s).
Proof using handlers_fine values_spec.
  intros W%reachable_wf Hp Hq Hj Hbr. unfold promise_dropped in Hp. rewrite Hq in Hp. cbn in Hp.
  assert (∀ id c, components s !! id = Some c → c_blocking c = None) as Hb by (intros id c Hc; apply (Hbr id c Hc)).
  rewrite orb_false_r in Hp. apply negb_false_iff, orb_true_iff in Hp as [Hp%bool_decide_eq_true|Hp%bool_decide_eq_true]; [done|].
  exfalso. assert (Supervision.dying (supervisor s)) as Hd.
  { eapply run_dying; [exact values_spec| |by eapply wf_supervised]. done. }
  destruct (Hd ltac:(congruence)) as [Hne _]. apply set_choose_L in Hne as [id Hid].
  destruct (wf_killing _ _ _ _ _ W ltac:(congruence) id Hid) as [?%not_elem_of_nil|(c & Hc & Hv & Hk)]; [done|].
  destruct (Hbr id c Hc) as [_ Hrec].
  destruct Hk as [[Hk|(fut & Hk)]|[Hk|(e & He & _)]]; [|by rewrite (Hb id c Hc) in Hk|done|rewrite Hq in He; set_solver].
  destruct (wf_rests _ _ _ _ _ W id c Hc) as (Ht & _ & [He|[Hr Hn]]).
  - destruct (Ht Hv) as [_ [Hl|[Hg|Hs]]]; [by destruct (ended_not_live c He Hl)|by eapply ended_no_child|done].
  - destruct (Hn (Hb id c Hc)) as [(f & Hw)|[?|Hs]]; [|done|rewrite Hj in Hs; set_solver].
    destruct Hr as (_ & f' & (_ & y & Hw' & Hm & _) & _). rewrite Hw in Hw'. apply word_inj in Hw' as [_ Hz]; [|lia|done].
    unfold c_queued in Hz. destruct (c_ctrl c); [set_solver|cbn in Hz; lia].
Qed.

(** ** Notifications *)

(** The events of the supervision port are only added to. *)
Definition extends (l : list (SupervisionEvent nat)) (s : System) : Prop := l `prefix_of` log s.

Lemma extends_same {A} l (m : St System Fatal A) : (∀ s, log (m s).1 = log s) → keeps (extends l) m.
Proof using Type.
  intros Hm s Hs. specialize (Hm s). unfold extends in *. destruct (m s) as [s1 [a|e|]]; cbn in Hm; [|done|]; by rewrite Hm.
Qed.

Lemma extends_more l l' (s s' : System) : log s' = log s ++ l' → extends l s → extends l s'.
Proof using Type. unfold extends. intros ->. apply prefix_app_r. Qed.

Lemma enqueue_to_extends l id e : keeps (extends l) (enqueue_to id e).
Proof using Type.
  intros s Hs. destruct (components s !! id) as [c|] eqn:Hc.
  - destruct (perform e c) as [c' [y|[]]] eqn:He.
    + unfold System.enqueue_to, st_get, mbind at 1, st_bind at 1. by rewrite Hc, He.
    + rewrite (enqueue_to_put _ _ _ _ _ Hc He). eapply extends_more; [apply log_put|done].
  - unfold System.enqueue_to, st_get, mbind at 1, st_bind at 1. by rewrite Hc.
Qed.

Lemma supervision_extends l e : keeps (extends l) (supervision_enqueue e).
Proof using Type.
  intros s Hs. unfold supervision_enqueue, get_internal_components, st_get. unfold mbind at 1, st_bind at 1, mbind at 1, st_bind at 1.
  destruct (internal_components s); [|exact Hs]. cbn. eapply (extends_more _ [e]); [|exact Hs].
  destruct s. unfold log. cbn. by rewrite app_assoc.
Qed.

Lemma schedule_extends l id : keeps (extends l) (schedule id).
Proof using Type. apply extends_same. by intros []. Qed.

Lemma reading_extends {A} l (m : St System Fatal A) : (∀ s, (m s).1 = s) → keeps (extends l) m.
Proof using Type. apply keeps_reading. Qed.

#[local] Ltac grow :=
  first
    [ apply enqueue_to_extends
    | apply supervision_extends
    | apply keeps_reading; intros ?; first [apply active_reads | apply not_poisoned_reads | apply internal_reads | reflexivity]
    | apply extends_same; intros []; reflexivity
    | apply keeps_lift
    | apply keeps_when
    | apply keeps_for; intros ?
    | apply keeps_bind; [|intros ?] ].

Lemma run_component_extends l id : keeps (extends l) (run_component id).
Proof using Type.
  apply keeps_get. intros s _. right. destruct (components s !! id) as [c|]; [|grow].
  assert (∀ c' o, keeps (extends l) (_ ← st_modify (upd_components <[id := c']>);
          _ ← st_modify (upd_supervision (λ q, q ++ fmap (report_event id) (drop (length (c_sent c)) (c_sent c'))));
          _ ← st_for (seq 0 (c_schedules c' - c_schedules c)) (λ _, schedule id);
          _ ← st_when (c_system_poisoned c' && negb (c_system_poisoned c)) poison;
          mret (decision_of o))) as Hgo.
  { intros c' o. apply keeps_bind; [grow|]. intros ?. apply keeps_bind; [|intros ?; unfold poison; repeat grow; apply schedule_extends].
    apply keeps_modify. intros s'. eapply extends_more. destruct s'. unfold log. cbn. by rewrite app_assoc. }
  destruct (execute ignore fuel throughput max_messages c) as [c' [d| | |]]; [apply Hgo|apply Hgo|grow..].
Qed.

Lemma maybe_reschedule_extends l n id : keeps (extends l) (maybe_reschedule ignore throughput max_messages fuel n id).
Proof using Type.
  induction n as [|n IH]; cbn [maybe_reschedule]; (apply keeps_bind; [apply run_component_extends|]); intros [];
    first [apply schedule_extends | exact IH | grow].
Qed.

Lemma act_extends l a : keeps (extends l) (act a).
Proof using Type.
  destruct a as [id d|id d|id|id|id|id|id|id|id f|id|id e|id| | |i|i| |]; cbn [System.act].
  all: unfold create, create_unsupervised, start, start_notify, stop, stop_notify, kill, kill_notify, trigger, enqueue_control, system_shutdown,
    kill_system, begin_shutdown, promise, start_supervisor; try (by repeat grow).
  - apply keeps_get. intros s _. right. destruct (components s !! id) as [c|]; [destruct (c_recovery c)|]; grow.
  - apply keeps_get. intros s _. right. destruct (shutdowns s !! i) as [[mode [p| | |r]]|]; try grow.
    + destruct (bool_decide _), (runtime.is_active (sys_state s)), (promise_dropped p s), mode; unfold finish_shutdown, set_phase, components_end, stop, kill,
        enqueue_control; cbn [negb]; repeat grow.
    + destruct (internal_components s) as [[d b]|]; unfold set_phase; repeat grow.
    + destruct (internal_components s) as [[d b]|]; unfold finish_shutdown, set_phase; [|grow].
      destruct timer_stops; cbn [negb]; repeat grow.
  - apply keeps_get. intros s _. right. destruct (scheduled s !! i); [|grow]. apply keeps_bind; [grow|]. intros ?.
    apply maybe_reschedule_extends.
  - intros s Hs. unfold supervise_next, st_get, mbind at 1, st_bind at 1.
    destruct (supervising s); [exact Hs| |exact Hs]. destruct (supervision s) as [|e q] eqn:Hq; [exact Hs|].
    destruct (supervise values awaited e (supervisor s)) as [sv|[]|].
    + unfold mbind, st_bind. cbn [st_modify].
      assert (keeps (extends l) (st_for (drop (length (kills (supervisor s))) (kills sv)) (λ id, enqueue_control id Kill))) as Hk.
      { apply keeps_for. intros id. apply enqueue_to_extends. }
      apply Hk. unfold extends in *. replace (log _) with (log s); [done|]. destruct s. unfold log. cbn in *. subst.
      by rewrite <-app_assoc.
    + unfold extends in *. cbn. by destruct s.
Qed.

Lemma steps_extends s s' : steps s s' → log s `prefix_of` log s'.
Proof using Type.
  induction 1 as [|s1 a s2 _ IH Hs]; [done|].
  destruct Hs as [a s2 _ Ha|a s2 _ Ha]; pose proof (act_extends (log s) a s1 IH) as Hw; by rewrite Ha in Hw.
Qed.

(** The specification of the supervisor, event by event: a promise waits until its event is announced. *)
Lemma spec_waits e ev (p : nat) a : (ev, p) ∈ sp_waiting a → sp_shutdown a = None → event_id e ≠ Some (listen_id ev) →
  (∀ q, e ≠ ShutdownRequest (Some q)) →
  (ev, p) ∈ sp_waiting (spec_step values e a).1 ∧ sp_shutdown (spec_step values e a).1 = None.
Proof using Type.
  clear handlers_fine H values_spec awaited. intros Hw Hs He Hn.
  assert (∀ b o, sp_shutdown b = None → spec_check (P := nat) b o = (b, o)) as Hc by (intros b o Hb; unfold spec_check; by rewrite Hb).
  destruct e as [i|i|i|i|[q|] ev'|[q|]]; cbn in *.
  - split; [|done]. apply list_elem_of_filter. split; [|done]. cbn. intros ->. cbn in He. congruence.
  - split; [|done]. apply list_elem_of_filter. split; [|done]. cbn. intros ->. cbn in He. congruence.
  - case_decide; rewrite Hc by done; [|done]. split; [|done]. apply list_elem_of_filter. cbn. split; [congruence|done].
  - rewrite Hc by done. split; [|done]. apply list_elem_of_filter. cbn. split; [congruence|done].
  - split; [|done]. apply elem_of_app. by left.
  - done.
  - by destruct (Hn q).
  - done.
Qed.

Lemma spec_run_waits es ev (p : nat) a : (ev, p) ∈ sp_waiting a → sp_shutdown a = None → reports_of (listen_id ev) es = [] →
  (∀ q, ShutdownRequest (Some q) ∉ es) →
  (ev, p) ∈ sp_waiting (spec_run values es a).1 ∧ sp_shutdown (spec_run values es a).1 = None.
Proof using Type.
  clear handlers_fine H values_spec awaited. revert a. induction es as [|e es IH]; intros a Hw Hs Hr Hn; [done|]. cbn [spec_run fst].
  change (e :: es) with ([e] ++ es) in Hr. rewrite reports_of_app, reports_of_one in Hr. apply app_nil in Hr as [Hr1 Hr2].
  destruct (spec_waits e ev p a Hw Hs) as [Hw' Hs'].
  - intros He. by rewrite decide_True in Hr1.
  - intros q ->. apply (Hn q). set_solver.
  - apply IH; [done|done|done|]. intros q Hq. apply (Hn q). set_solver.
Qed.

Lemma spec_run_idle es (a : Spec nat) : sp_shutdown a = None → (∀ q, ShutdownRequest (Some q) ∉ es) →
  sp_shutdown (spec_run values es a).1 = None.
Proof using Type.
  clear handlers_fine H values_spec awaited. revert a. induction es as [|e es IH]; intros a Hs Hn; [done|]. cbn [spec_run fst].
  apply IH; [|intros q Hq; apply (Hn q); set_solver].
  assert (∀ b o, sp_shutdown b = None → spec_check (P := nat) b o = (b, o)) as Hc by (intros b o Hb; unfold spec_check; by rewrite Hb).
  destruct e as [i|i|i|i|[q|] ev'|[q|]]; cbn in *; try done.
  - case_decide; by rewrite Hc.
  - by rewrite Hc.
  - destruct (Hn q). set_solver.
Qed.

(** Whether a component is a child depends on its own reports only. *)
Lemma spec_run_children es (a : Spec nat) id :
  id ∈ sp_children (spec_run values es a).1 ↔ id ∈ foldl (λ cs e, children_after e cs) (sp_children a) (reports_of id es).
Proof using Type.
  clear handlers_fine H values_spec awaited. revert a. induction es as [|e es IH]; intros a; [done|]. cbn [spec_run fst]. rewrite IH, spec_step_children.
  change (e :: es) with ([e] ++ es). rewrite reports_of_app, reports_of_one, foldl_app.
  destruct (decide (event_id e = Some id)) as [He|He]; [done|]. cbn [foldl].
  assert (∀ l (X Y : gset Z), (id ∈ X ↔ id ∈ Y) →
    id ∈ foldl (λ cs e, children_after (P := nat) e cs) X l ↔ id ∈ foldl (λ cs e, children_after e cs) Y l) as Hl.
  { induction l as [|x l IHl]; intros X Y Hxy; [done|]. cbn. apply IHl. destruct x; cbn; set_solver. }
  apply Hl. destruct e; cbn in *; set_solver.
Qed.

(** A component that reported its start and no end since. *)
Definition tracked (c : Comp) : Prop :=
  ∃ l1 l2, c_sent c = l1 ++ SStarted :: l2 ∧ Forall (λ m, is_gone m = false) l2.

Lemma tracked_child id (c : Comp) (X : gset Z) : tracked c →
  id ∈ foldl (λ cs e, children_after (P := nat) e cs) X (report_event id <$> c_sent c).
Proof using Type.
  clear handlers_fine H values_spec awaited values. intros (l1 & l2 & -> & Hf). rewrite fmap_app, foldl_app, fmap_cons. cbn [foldl].
  generalize (foldl (λ cs e, children_after e cs) X (report_event id <$> l1)) as Y. intros Y.
  assert (id ∈ children_after (P := nat) (report_event (F := F) (R := R) id SStarted) Y) as Hy by (cbn; set_solver).
  revert Hy. generalize (children_after (P := nat) (report_event (F := F) (R := R) id SStarted) Y) as Z. clear Y.
  induction Hf as [|m l2 Hm _ IH]; intros Z Hz; [done|]. cbn. apply IH. destruct m; cbn in *; try done. set_solver.
Qed.

Lemma run_completed es (sv sv' : Supervisor nat) a : refines sv a → supervise_all values awaited es sv = Ok sv' →
  completed sv `prefix_of` completed sv'.
Proof using Type.
  revert sv a. induction es as [|e es IH]; cbn; intros sv a Hr He; [by injection He as <-|].
  destruct (supervise values awaited e sv) as [sv1| |] eqn:H1; try done.
  destruct (supervise_refines _ _ _ _ _ _ Hr H1) as [Hr1 (O1 & _)]. etransitivity; [|by eapply IH].
  rewrite O1. by apply prefix_app_r.
Qed.

(** The three notifying calls, what they wait for and the report that announces it. *)
Inductive Notification := OnStart | OnStop | OnKill.

Definition notify (n : Notification) (id : Z) : St System Fatal nat :=
  match n with OnStart => start_notify id | OnStop => stop_notify id | OnKill => kill_notify id end.
Definition listens (n : Notification) (id : Z) : ListenEvent :=
  match n with OnStart => LStarted id | OnStop => LStopped id | OnKill => LDestroyed id end.
Definition announced (n : Notification) : SupervisorMsg F R :=
  match n with OnStart => SStarted | OnStop => SStopped | OnKill => SKilled end.

(** The event that announces it completes a waiting promise. *)
Lemma spec_announces n id (p : nat) a : (listens n id, p) ∈ sp_waiting a → (n = OnKill → id ∈ sp_children a) → sp_shutdown a = None →
  p ∈ o_completed (spec_step values (report_event id (announced n)) a).2.
Proof using Type.
  clear handlers_fine H values_spec awaited. intros Hw Hk Hs.
  assert (p ∈ waiting_for (listens n id) (sp_waiting a)) as Hp.
  { unfold waiting_for. apply list_elem_of_fmap. exists (listens n id, p). split; [done|]. by apply list_elem_of_filter. }
  destruct n; cbn in *; [done|done|]. rewrite decide_True by auto. unfold spec_check. cbn. by rewrite Hs.
Qed.

(** Placing the call in the log. *)
Lemma notify_log n id (s s1 : System) p : notify n id s = (s1, Ok p) → log s1 = log s ++ [Listen (Some p) (listens n id)].
Proof using Type.
  assert (∀ ev ce, ((_ ← assert_active; q ← promise; _ ← supervision_enqueue (Listen (Some q) ev); _ ← enqueue_control id ce; mret q)
    : St System Fatal nat) s = (s1, Ok p) → log s1 = log s ++ [Listen (Some p) ev]) as Hn.
  { intros ev ce. unfold assert_active, promise, supervision_enqueue, get_internal_components, mbind, st_bind, st_get, st_lift.
    destruct (runtime.is_active (sys_state s)); cbn; [|done]. destruct (internal_components (upd_promises S s)); [|done]. cbn.
    set (s0 := upd_supervision _ _). assert (log s0 = log s ++ [Listen (Some (promises s)) ev]) as Hl.
    { subst s0. destruct s. unfold log. cbn. by rewrite app_assoc. }
    unfold enqueue_control. destruct (components s0 !! id) as [c|] eqn:Hc.
    - destruct (perform (EControl ce) c) as [c' [y|[]]] eqn:He.
      + unfold System.enqueue_to, st_get, mbind at 1, st_bind at 1. by rewrite Hc, He.
      + rewrite (enqueue_to_put _ _ _ _ _ Hc He). intros [= <- <-]. rewrite log_put, Hl. apply app_nil_r.
    - unfold System.enqueue_to, st_get, mbind at 1, st_bind at 1. rewrite Hc. by intros [= <- <-]. }
  destruct n; apply Hn.
Qed.

Lemma notify_step n id (s s1 : System) p : notify n id s = (s1, Ok p) → ∃ a, step s a s1.
Proof using Type.
  intros Hn. exists (match n with OnStart => AStartNotify id | OnStop => AStopNotify id | OnKill => AKillNotify id end).
  apply step_ok; [by destruct n|]. destruct n; cbn in *; unfold mbind, st_bind; by rewrite Hn.
Qed.

Lemma first_report id (l : list (SupervisionEvent nat)) e es : reports_of id l = e :: es →
  ∃ la lb, l = la ++ e :: lb ∧ reports_of id la = [].
Proof using Type.
  clear handlers_fine H values_spec awaited values. induction l as [|x l IH]; [done|].
  change (x :: l) with ([x] ++ l). rewrite reports_of_app, reports_of_one. case_decide as Hx.
  - intros [= <- _]. by exists [], l.
  - intros (la & lb & -> & Hl)%IH. exists (x :: la), lb. split; [done|]. change (x :: la) with ([x] ++ la).
    by rewrite reports_of_app, reports_of_one, decide_False.
Qed.

(** A promise that listens, then the announcement without another report of the component in between. *)
Lemma announced_completes n id p l la lb (sv : Supervisor nat) :
  supervise_all values awaited (l ++ Listen (Some p) (listens n id) :: la ++ report_event id (announced n) :: lb) new_supervisor = Ok sv →
  reports_of id la = [] → (∀ q, ShutdownRequest (Some q) ∉ l ++ la) →
  (n = OnKill → id ∈ foldl (λ cs e, children_after e cs) ∅ (reports_of id l)) → p ∈ completed sv.
Proof using Type.
  intros Hr Hla Hn Hk.
  assert (∀ k, listen_id (listens n k) = k) as Hid by by destruct n.
  set (ev := report_event id (announced n)) in *. set (es := l ++ Listen (Some p) (listens n id) :: la).
  replace (l ++ Listen (Some p) (listens n id) :: la ++ ev :: lb) with (es ++ ev :: lb) in Hr by (subst es; by rewrite <-app_assoc).
  rewrite supervise_all_app in Hr. destruct (supervise_all values awaited es new_supervisor) as [s1| |] eqn:H1; try done.
  cbn in Hr. destruct (supervise values awaited ev s1) as [s2| |] eqn:H2; try done. cbn in Hr.
  pose proof (supervise_run_refines _ _ _ _ _ _ start_refines H1) as R1. destruct (supervise_refines _ _ _ _ _ _ R1 H2) as [R2 (O1 & _)].
  destruct (run_completed _ _ _ _ R2 Hr) as [k Hc]. rewrite Hc, O1. apply elem_of_app. left. apply elem_of_app. right.
  set (a0 := mkSpec ∅ [] None) in *. set (a1 := (spec_run values l a0).1).
  assert (sp_shutdown a1 = None) as Hs1.
  { apply spec_run_idle; [done|]. intros q Hq. apply (Hn q), elem_of_app. by left. }
  set (a2 := (spec_step values (Listen (Some p) (listens n id)) a1).1).
  assert ((spec_run values es a0).1 = (spec_run values la a2).1) as Hes.
  { subst es a2 a1. generalize a0 as a. clear. induction l as [|x l IH]; intros a; [done|]. apply IH. }
  destruct (spec_run_waits la (listens n id) p a2) as [Hw Hs2].
  { subst a2. cbn. apply elem_of_app. right. by apply list_elem_of_singleton. }
  { done. }
  { by rewrite Hid. }
  { intros q Hq. apply (Hn q), elem_of_app. by right. }
  rewrite Hes. apply spec_announces; [done| |done]. intros HK. rewrite <-Hes. apply spec_run_children.
  subst es. change (Listen (Some p) (listens n id) :: la) with ([Listen (Some p) (listens n id)] ++ la).
  rewrite !reports_of_app, Hla, reports_of_one, decide_False by done. cbn. rewrite app_nil_r. by apply Hk.
Qed.

(** C31: Notifications are not lost.  When [start_notify], [stop_notify] or [kill_notify]
    has been called on a component (for a kill: one that has reported its start and no end
    since) and the next thing the component reports is that it started, stopped or was
    killed, then, once the supervisor has handled its events, the promise has been
    completed, whatever else happened in the meantime, as long as no shutdown was
    requested. *)
Theorem notification_completes (n : Notification) (s s1 s2 : System) (id : Z) (p : nat) (c c2 : Comp) rest :
  reachable s → components s !! id = Some c → (n = OnKill → tracked c) →
  notify n id s = (s1, Ok p) → steps s1 s2 →
  components s2 !! id = Some c2 → c_sent c2 = c_sent c ++ announced n :: rest →
  supervision s2 = [] → (∀ q, ShutdownRequest (Some q) ∉ log s2) →
  p ∈ completed (supervisor s2).
Proof using handlers_fine values_spec.
  intros Hr Hc Hk Hn Hs Hc2 Hsent Hq Hnosd. destruct (notify_step _ _ _ _ _ Hn) as [a Ha].
  assert (reachable s2) as Hr2 by (eapply steps_reachable; [by eapply reachable_step|done]).
  pose proof (reachable_wf s Hr) as W. pose proof (reachable_wf s2 Hr2) as W2.
  destruct (steps_extends _ _ Hs) as [l Hl]. rewrite (notify_log _ _ _ _ _ Hn), <-app_assoc in Hl.
  pose proof (wf_reports _ _ _ _ _ W id) as Hrep. pose proof (wf_reports _ _ _ _ _ W2 id) as Hrep2. rewrite Hc in Hrep. rewrite Hc2, Hsent in Hrep2.
  rewrite Hl, !reports_of_app, Hrep, fmap_app, fmap_cons, reports_of_one, decide_False in Hrep2 by done.
  apply app_inv_head in Hrep2. cbn [app] in Hrep2. destruct (first_report _ _ _ _ Hrep2) as (la & lb & -> & Hla).
  pose proof (wf_supervised _ _ _ _ _ W2) as Hrun.
  assert (handled s2 = log s2) as Hh by (unfold log; by rewrite Hq, app_nil_r). rewrite Hh, Hl in Hrun.
  eapply (announced_completes n id p (log s) la lb); [exact Hrun|exact Hla| |].
  - intros q Hin. apply (Hnosd q). rewrite Hl. apply elem_of_app in Hin as [?|?]; apply elem_of_app; [by left|right].
    apply elem_of_cons. right. apply elem_of_app. by left.
  - intros ->. rewrite Hrep. apply tracked_child. by apply Hk.
Qed.
(** ** Executing a list of actions *)
Definition enabledb (a : Action CD Msg Act Fut F R) (s : System) : bool :=
  match a with
  | ACreate id _ | ACreateUnsupervised id _ => match components s !! id with None => true | Some _ => false end
  | _ => true
  end.

Fixpoint run_actions (l : list (Action CD Msg Act Fut F R)) (s : System) : option System :=
  match l with
  | [] => Some s
  | a :: l =>
      if enabledb a s then
        match act a s with
        | (s', Ok _) | (s', Panic) => run_actions l s'
        | (_, Err _) => None
        end
      else None
  end.

Lemma enabledb_enabled a s : enabledb a s = true → enabled a s.
Proof using Type. destruct a; cbn; try done; by destruct (components s !! id). Qed.

Lemma run_actions_steps l : ∀ s s1 s2, steps s s1 → run_actions l s1 = Some s2 → steps s s2.
Proof using Type.
  induction l as [|a l IH]; cbn; intros s s1 s2 Hs Hr; [by injection Hr as <-|].
  destruct (enabledb a s1) eqn:He; [|done]. apply enabledb_enabled in He.
  destruct (act a s1) as [s' [[]|e|]] eqn:Ha; [|done|]; (eapply IH; [|exact Hr]); (eapply steps_next; [exact Hs|]).
  - by apply step_ok.
  - by apply step_panic.
Qed.
End Operations.

(** ** Concrete runs

    A system with the dispatcher 1, the dead letter box 2 and the components of [example_handlers]. *)
Abbreviation example_system := (System (list nat) nat () () () bool).

Definition booted : example_system := (prepare_new false 1 2 [] [] new_runtime).1.

Definition example_run (l : list (Action (list nat) nat () () () bool)) (s : example_system) : option example_system :=
  run_actions false 2 2 9 elements (λ _, true) false true true l s.

Definition example_reachable : example_system → Prop := reachable false 2 2 9 elements (λ _, true) false true true.

Lemma booted_reachable : example_reachable booted.
Proof.
  apply (reachable_boot _ _ _ _ _ _ _ _ _ 1 2 [] []); [done|]. unfold booted.
  assert ((prepare_new (Msg := nat) (Act := ()) (Fut := ()) (F := ()) false 1 2 ([] : list nat) [] new_runtime).2 = Ok ()) as Hb by (by vm_compute).
  destruct (prepare_new (Msg := nat) (Act := ()) (Fut := ()) (F := ()) false 1 2 ([] : list nat) [] new_runtime) as [s r]. cbn in *. by subst.
Qed.

Lemma example_run_reachable l s : example_run l booted = Some s → example_reachable s.
Proof.
  intros Hr. eapply steps_reachable; [apply booted_reachable|]. eapply run_actions_steps; [apply steps_refl|exact Hr].
Qed.

Definition start_three : list (Action (list nat) nat () () () bool) := [AStartSupervisor; ACreate 3 []; AStart 3; ARun 2; ASupervise].

(** *** Witnesses *)
Definition after (l : list (Action (list nat) nat () () () bool)) : example_system := default booted (example_run l booted).

Lemma after_reachable l : is_Some (example_run l booted) → example_reachable (after l).
Proof. unfold after. intros [s Hs]. rewrite Hs. by apply (example_run_reachable l). Qed.

(** The component is started, the system shut down, and all that is scheduled is run. *)
Definition shut_down : list (Action (list nat) nat () () () bool) :=
  start_three ++ [AShutdown; ASupervise; ARun 2; ASupervise; ARun 0; ARun 0].

Lemma supervisor_informed_witness :
  ∃ c, components (after shut_down) !! 3%Z = Some c ∧ has_ended c
    ∧ supervise_all elements (λ _, true) (handled (after shut_down)) new_supervisor = Ok (supervisor (after shut_down))
    ∧ reports_of 3 (log (after shut_down)) = report_event 3 <$> c_sent c ∧ (gone_last c ∨ c_recovery c = None).
Proof.
  destruct (supervisor_informed false 2 2 9 elements (λ _, true) false true true (example_handlers_ok true) (λ X, Permutation_refl _)
    (after shut_down) (after_reachable shut_down ltac:(vm_compute; eauto))) as [H1 H2].
  destruct (components (after shut_down) !! 3%Z) as [c|] eqn:Hc; [|by vm_compute in Hc].
  assert (has_ended c) as He.
  { vm_compute in Hc. injection Hc as <-. exists FDestroyed, 0. split_and!; [by left|done|lia]. }
  assert (c_supervised c = true) as Hs by (vm_compute in Hc; by injection Hc as <-).
  destruct (H2 3%Z c Hc) as (H3 & H4 & _). exists c. exact (conj eq_refl (conj He (conj H1 (conj H3 (H4 Hs He))))).
Defined.

Lemma shutdown_never_stuck_witness : 0 ∈ completed (supervisor (after shut_down)).
Proof.
  apply (shutdown_never_stuck false 2 2 9 elements (λ _, true) false true true (example_handlers_ok true) (λ X, Permutation_refl _)
    (after shut_down) 0 (after_reachable shut_down ltac:(vm_compute; eauto))); [by vm_compute..|].
  intros id c Hc. change ((λ (_ : Z) (c : Component.Comp), c_blocking c = None ∧ c_recovery c ≠ None) id c). revert id c Hc. apply map_Forall_to_list.
  vm_compute. repeat first [discriminate | constructor].
Defined.

(** A component whose recovery function panics becomes faulty without telling the
    supervisor, for which it stays a child: the kill event of a shutdown is never handled,
    and when everything has come to rest the shutdown still waits for the component. *)
Definition panicking_recovery : list (Action (list nat) nat () () () bool) :=
  start_three ++ [ASetRecovery 3 (λ _, None); ADeliver 3 (EMessage 13); ARun 2; AShutdown; ASupervise; ARun 0; ARun 0; ARun 0].

Theorem panicking_recovery_hangs :
  let s := after panicking_recovery in
  example_reachable s ∧ supervision s = [] ∧ scheduled s = []
  ∧ (∃ c, components s !! 3%Z = Some c ∧ has_ended c ∧ c_sent c = [SStarted] ∧ c_recovery c = None)
  ∧ Supervision.shutdown (supervisor s) = Some 0 ∧ 0 ∉ completed (supervisor s).
Proof.
  cbn zeta. split; [apply after_reachable; vm_compute; eauto|]. split_and!; [vm_compute; reflexivity..| |vm_compute; reflexivity|].
  - destruct (components (after panicking_recovery) !! 3%Z) as [c|] eqn:Hc; [|by vm_compute in Hc]. exists c.
    vm_compute in Hc. injection Hc as <-. split_and!; [done| |done|done]. exists FFaulty, 2. split_and!; [by right|vm_compute; reflexivity|].
    apply Nat2Z.inj_le. rewrite MAX_WORK_Z. lia.
  - vm_compute. set_solver.
Qed.

Lemma notification_completes_witness :
  ∃ s1 s2, notify OnStop 3 (after start_three) = (s1, Ok 0) ∧ example_run [ASupervise; ARun 2; ASupervise] s1 = Some s2
    ∧ 0 ∈ completed (supervisor s2).
Proof.
  destruct (notify OnStop 3 (after start_three)) as [s1 r] eqn:Hn.
  assert (r = Ok 0) as -> by (assert ((notify OnStop 3 (after start_three)).2 = Ok 0) as Hr by (by vm_compute); by rewrite Hn in Hr).
  destruct (example_run [ASupervise; ARun 2; ASupervise] s1) as [s2|] eqn:Hr.
  2: { assert (is_Some (example_run [ASupervise; ARun 2; ASupervise] (notify OnStop 3 (after start_three)).1)) as [s2 Hs]
         by (vm_compute; eauto). rewrite Hn in Hs. cbn [fst] in Hs. congruence. }
  exists s1, s2. split; [done|]. split; [exact Hr|].
  set (c := default (new_component false true []) (components (after start_three) !! 3%Z)).
  assert (s2 = default booted (example_run [ASupervise; ARun 2; ASupervise] (notify OnStop 3 (after start_three)).1)) as Hs2
    by (rewrite Hn; cbn [fst]; by rewrite Hr).
  set (c2 := default (new_component false true []) (components s2 !! 3%Z)).
  refine (notification_completes false 2 2 9 elements (λ _, true) false true true (example_handlers_ok true) (λ X, Permutation_refl _)
    OnStop (after start_three) s1 s2 3 0 c c2 [] _ _ _ Hn _ _ _ _ _).
  - apply after_reachable. vm_compute. eauto.
  - vm_compute. reflexivity.
  - done.
  - eapply run_actions_steps; [apply steps_refl|exact Hr].
  - subst c2. rewrite Hs2. vm_compute. reflexivity.
  - subst c2. rewrite Hs2. vm_compute. reflexivity.
  - rewrite Hs2. vm_compute. reflexivity.
  - rewrite Hs2. intros q. vm_compute. intros Hin. repeat (apply elem_of_cons in Hin as [?|Hin]; [done|]). by apply not_elem_of_nil in Hin.
Defined.

(** ** Races with a shutdown *)

(** A component whose start is still unreported when the supervisor handles the
    shutdown request is not a child then: the shutdown ends successfully while the
    component is active and has been sent no kill event. *)
Theorem started_component_survives_shutdown :
  let s := after [AStartSupervisor; ACreate 3 []; AStart 3; AShutdown; ARun 2; ASupervise; ASupervise; AAdvance 0; ARun 0; ARun 0; AAdvance 0;
    AAdvance 0] in
  example_reachable s ∧ shutdowns s = [(Graceful, Finished ShutdownOk)] ∧ kills (supervisor s) = []
  ∧ ∃ c, components s !! 3%Z = Some c ∧ is_active (c_word c) = true ∧ c_ctrl c = [].
Proof.
  split; [apply after_reachable; vm_compute; eauto|]. split; [by vm_compute|]. split; [by vm_compute|].
  eexists. split; [vm_compute; reflexivity|]. by vm_compute.
Qed.

(** A second shutdown replaces the promise of the first in the supervisor: the
    first fails and marks the system as destroyed with its component still
    active; the second then panics instead of killing the dispatcher, which
    stays active. *)
Theorem concurrent_shutdowns_fail :
  let s1 := after (start_three ++ [AShutdown; AShutdown; ASupervise; ASupervise; AAdvance 0]) in
  let s2 := after (start_three ++ [AShutdown; AShutdown; ASupervise; ASupervise; AAdvance 0; ARun 2; ASupervise; ARun 0; ARun 0; AAdvance 1]) in
  example_reachable s1 ∧ shutdowns s1 = [(Graceful, Finished SystemComponentsError); (Graceful, AwaitSupervisor 1)]
  ∧ sys_state s1 = runtime.DESTROYED ∧ (∃ c, components s1 !! 3%Z = Some c ∧ is_active (c_word c) = true)
  ∧ example_reachable s2 ∧ shutdowns s2 = [(Graceful, Finished SystemComponentsError); (Graceful, Finished ShutdownPanicked)]
  ∧ ∃ c, components s2 !! 1%Z = Some c ∧ is_active (c_word c) = true ∧ c_ctrl c = [].
Proof.
  split; [apply after_reachable; vm_compute; eauto|]. split; [by vm_compute|]. split; [by vm_compute|].
  split; [eexists; split; [vm_compute; reflexivity|by vm_compute]|].
  split; [apply after_reachable; vm_compute; eauto|]. split; [by vm_compute|].
  eexists. split; [vm_compute; reflexivity|]. by vm_compute.
Qed.
