(* ===== verification/Ports.v ===== *)
(** * Ports and channels

    Model of [core/src/ports.rs] and of the functions of [core/src/utils/mod.rs]
    that connect ports: provided and required ports of one port type, the weak
    references they are connected by, triggering, connecting and disconnecting.

    A component has one provided and one required port of the type.  Its queue
    exists as long as the port does and is identified by the component; a
    component exists while it has a lifecycle word, which counts its work as in
    [Lifecycle].  Locks on components are held by the environment. *)

From S2P Require Import Prelude Extern Lifecycle.

Section Ports.
Context {U : UuidApi} {Indication Request : Type}.

(** [ProvidedRef] and [RequiredRef]: weak references to a component and to the
    queue of one of its ports. *)
Record PortRef := mkPortRef { ref_component : Uuid; ref_queue : Uuid }.

#[global] Instance PortRef_eq_dec : EqDecision PortRef.
Proof. solve_decision. Defined.

(** [PartialEq]: only the queues are compared. *)
Definition port_ref_eq (a b : PortRef) : bool := bool_decide (ref_queue a = ref_queue b).

Record CommonPortData := mkCommon { provide_channels : list PortRef; require_channels : list PortRef }.

(** [ProvidedPort] and [RequiredPort]. *)
Record Port := mkPort { common : CommonPortData; parent : option Uuid; msg_queue : Uuid }.

Definition uninitialised (q : Uuid) : Port := mkPort (mkCommon [] []) None q.
Definition set_parent (c : Uuid) (p : Port) : Port := mkPort (common p) (Some c) (msg_queue p).
Definition upd_common (f : CommonPortData → CommonPortData) (p : Port) : Port := mkPort (f (common p)) (parent p) (msg_queue p).

Inductive OwnershipResult := Owned | NotOwned | Deallocated.
Inductive TryLockError := LockPoisoned | LockWouldBlock.
Inductive TryDualLockError := LeftPoisoned | LeftWouldBlock | RightPoisoned | RightWouldBlock.
Inductive LockState := Unlocked | Held | PoisonedLock.

Record Sys := mkSys {
  words : gmap Uuid Z;                       (** components that exist, with their lifecycle word *)
  provided : gmap Uuid Port;
  required : gmap Uuid Port;
  request_queues : gmap Uuid (list Request);      (** queues of provided ports *)
  indication_queues : gmap Uuid (list Indication);  (** queues of required ports *)
  scheduled : list Uuid;                     (** calls of [system.schedule] *)
  locks : gmap Uuid LockState;               (** [mutable_core]; unlocked by default *)
}.

Definition upd_words f s := mkSys (f (words s)) (provided s) (required s) (request_queues s) (indication_queues s) (scheduled s) (locks s).
Definition upd_provided f s := mkSys (words s) (f (provided s)) (required s) (request_queues s) (indication_queues s) (scheduled s) (locks s).
Definition upd_required f s := mkSys (words s) (provided s) (f (required s)) (request_queues s) (indication_queues s) (scheduled s) (locks s).
Definition upd_requests f s := mkSys (words s) (provided s) (required s) (f (request_queues s)) (indication_queues s) (scheduled s) (locks s).
Definition upd_indications f s := mkSys (words s) (provided s) (required s) (request_queues s) (f (indication_queues s)) (scheduled s) (locks s).
Definition upd_scheduled f s := mkSys (words s) (provided s) (required s) (request_queues s) (indication_queues s) (f (scheduled s)) (locks s).

(** ** References *)
Section Side.
(** The queues that a kind of reference points into. *)
Context {Ev : Type} (queues : Sys → gmap Uuid (list Ev)) (upd_queues : (gmap Uuid (list Ev) → gmap Uuid (list Ev)) → Sys → Sys).

Definition is_live (s : Sys) (r : PortRef) : bool :=
  bool_decide (is_Some (words s !! ref_component r)) && bool_decide (is_Some (queues s !! ref_queue r)).

(** [enqueue]: whether the reference is dead. *)
Definition ref_enqueue {E} (r : PortRef) (event : Ev) : St Sys E bool := λ s,
  match queues s !! ref_queue r, words s !! ref_component r with
  | Some q, Some w =>
      match increment_work (E := E) w with
      | Ok (w, sd) =>
          let s := upd_words <[ref_component r := w]> s in
          let s := upd_queues <[ref_queue r := q ++ [event]]> s in
          (match sd with Schedule => upd_scheduled (λ l, l ++ [ref_component r]) s | _ => s end, Ok false)
      | Err e => (s, Err e)
      | Panic => (s, Panic)
      end
  | _, _ => (s, Ok true)
  end.

(** [for_each_with] over the channels of a port. *)
Fixpoint enqueue_all {E} (rs : list PortRef) (event : Ev) (cleanup_required : bool) : St Sys E bool :=
  match rs with
  | [] => mret cleanup_required
  | r :: rs =>
      dead ← ref_enqueue r event;
      enqueue_all rs event (cleanup_required || dead)
  end.

Definition ref_dequeue (c : Uuid) (s : Sys) : Sys * option Ev :=
  match queues s !! c with
  | Some (e :: q) => (upd_queues <[c := q]> s, Some e)
  | _ => (s, None)
  end.
End Side.

Definition provided_live := is_live request_queues.
Definition required_live := is_live indication_queues.

(** [owned_by_component_with_id]; whether a channel is removed by [clear_by_id]. *)
Definition owned_by_component_with_id (s : Sys) (r : PortRef) (id : Uuid) : OwnershipResult :=
  match words s !! ref_component r with
  | Some _ => if decide (ref_component r = id) then Owned else NotOwned
  | None => Deallocated
  end.
Definition cleared (s : Sys) (id : Uuid) (r : PortRef) : bool :=
  match owned_by_component_with_id s r id with Owned | Deallocated => true | NotOwned => false end.

Definition clear_by_id (s : Sys) (id : Uuid) (d : CommonPortData) : CommonPortData * bool :=
  (mkCommon (filter (λ r, cleared s id r = false) (provide_channels d)) (filter (λ r, cleared s id r = false) (require_channels d)),
   existsb (cleared s id) (provide_channels d) || existsb (cleared s id) (require_channels d)).

Definition cleanup (s : Sys) (d : CommonPortData) : CommonPortData :=
  mkCommon (filter (λ r, provided_live s r = true) (provide_channels d)) (filter (λ r, required_live s r = true) (require_channels d)).

(** ** Ports *)

(** [ProvidedPort::trigger] on the port of component [c]. *)
Definition trigger_indication {E} (c : Uuid) (event : Indication) : St Sys E () :=
  s ← st_get;
  match provided s !! c with
  | Some p =>
      cleanup_required ← enqueue_all indication_queues upd_indications (require_channels (common p)) event false;
      st_when cleanup_required (s ← st_get; st_modify (upd_provided <[c := upd_common (cleanup s) p]>))
  | None => st_panic
  end.

(** [RequiredPort::trigger]. *)
Definition trigger_request {E} (c : Uuid) (event : Request) : St Sys E () :=
  s ← st_get;
  match required s !! c with
  | Some p =>
      cleanup_required ← enqueue_all request_queues upd_requests (provide_channels (common p)) event false;
      st_when cleanup_required (s ← st_get; st_modify (upd_required <[c := upd_common (cleanup s) p]>))
  | None => st_panic
  end.

Definition provided_connect (r : PortRef) : Port → Port :=
  upd_common (λ d, mkCommon (provide_channels d) (require_channels d ++ [r])).
Definition required_connect (r : PortRef) : Port → Port :=
  upd_common (λ d, mkCommon (provide_channels d ++ [r]) (require_channels d)).

Definition remove_ref (c : PortRef) (l : list PortRef) : list PortRef := filter (λ other, port_ref_eq c other = false) l.

Definition provided_disconnect_port (c : PortRef) (p : Port) : Port * bool :=
  (upd_common (λ d, mkCommon (provide_channels d) (remove_ref c (require_channels d))) p,
   existsb (port_ref_eq c) (require_channels (common p))).
Definition required_disconnect_port (c : PortRef) (p : Port) : Port * bool :=
  (upd_common (λ d, mkCommon (remove_ref c (provide_channels d)) (require_channels d)) p,
   existsb (port_ref_eq c) (provide_channels (common p))).

Definition disconnect_component (s : Sys) (id : Uuid) (p : Port) : Port * bool :=
  let '(d, found) := clear_by_id s id (common p) in (upd_common (λ _, d) p, found).

Definition share {E} (p : Port) : res E PortRef :=
  match parent p with Some c => Ok (mkPortRef c (msg_queue p)) | None => Panic end.

(** ** Channels *)

(** [component.mutable_core.try_lock()?] for the extent of a change of a port. *)
Definition try_lock {E} (f : LockState → option E) (c : Uuid) : St Sys E () := λ s,
  match f (default Unlocked (locks s !! c)) with Some e => (s, Err e) | None => (s, Ok ()) end.

Definition lock_error (l : LockState) : option TryLockError :=
  match l with Unlocked => None | Held => Some LockWouldBlock | PoisonedLock => Some LockPoisoned end.

Record TwoWayChannel := mkTwoWay { tw_provider : Uuid; tw_requirer : Uuid; tw_provided_ref : PortRef; tw_required_ref : PortRef }.

(** [if let Some(component) = provider.upgrade() { lock; ProvideRef::disconnect(..) }]. *)
Definition provider_disconnect (provider : Uuid) (required_ref : PortRef) : St Sys TryLockError () :=
  s ← st_get;
  match words s !! provider with
  | Some _ =>
      _ ← try_lock lock_error provider;
      st_modify (upd_provided (alter (λ p, (provided_disconnect_port required_ref p).1) provider))
  | None => mret ()
  end.
Definition requirer_disconnect (requirer : Uuid) (provided_ref : PortRef) : St Sys TryLockError () :=
  s ← st_get;
  match words s !! requirer with
  | Some _ =>
      _ ← try_lock lock_error requirer;
      st_modify (upd_required (alter (λ p, (required_disconnect_port provided_ref p).1) requirer))
  | None => mret ()
  end.

Definition disconnect_by_ref (ch : TwoWayChannel) : St Sys TryLockError () :=
  _ ← provider_disconnect (tw_provider ch) (tw_required_ref ch);
  requirer_disconnect (tw_requirer ch) (tw_provided_ref ch).

Definition left_error (l : LockState) : option TryDualLockError :=
  match l with Unlocked => None | Held => Some LeftWouldBlock | PoisonedLock => Some LeftPoisoned end.
Definition right_error (l : LockState) : option TryDualLockError :=
  match l with Unlocked => None | Held => Some RightWouldBlock | PoisonedLock => Some RightPoisoned end.

(** The second lock of [on_dual_definition], while the first is held. *)
Definition try_lock_right (c1 c2 : Uuid) : St Sys TryDualLockError () :=
  if decide (c1 = c2) then st_lift (Err RightWouldBlock) else try_lock right_error c2.

(** Sharing both ports and connecting each to the other. *)
Definition biconnect {E} (provider requirer : Uuid) : St Sys E (PortRef * PortRef) :=
  s ← st_get;
  match provided s !! provider, required s !! requirer with
  | Some prov, Some req =>
      prov_share ← st_lift (share prov);
      req_share ← st_lift (share req);
      _ ← st_modify (upd_provided <[provider := provided_connect req_share prov]>);
      _ ← st_modify (upd_required <[requirer := required_connect prov_share req]>);
      mret (prov_share, req_share)
  | _, _ => st_panic
  end.

Definition biconnect_components (provider requirer : Uuid) : St Sys TryDualLockError TwoWayChannel :=
  _ ← try_lock left_error provider;
  _ ← try_lock_right provider requirer;
  shares ← biconnect provider requirer;
  mret (mkTwoWay provider requirer shares.1 shares.2).

(** [biconnect_ports], by a caller that has both ports at hand. *)
Definition biconnect_ports {E} (provider requirer : Uuid) : St Sys E () :=
  _ ← biconnect provider requirer;
  mret ().

(** [on_definition]: a held lock is waited for, which the error stands for; a
    poisoned one panics. *)
Inductive MustWait := mustWait.
Definition lock_unwrap (c : Uuid) : St Sys MustWait () := λ s,
  match default Unlocked (locks s !! c) with
  | Unlocked => (s, Ok ())
  | Held => (s, Err mustWait)
  | PoisonedLock => (s, Panic)
  end.

Record ProviderChannel := mkProviderChannel { pc_provider : Uuid; pc_required_ref : PortRef }.
Record RequirerChannel := mkRequirerChannel { rc_requirer : Uuid; rc_provided_ref : PortRef }.

(** [LockingProvideRef] and [LockingRequireRef]. *)
Definition connect_to_required (c : Uuid) (req : PortRef) : St Sys MustWait ProviderChannel :=
  _ ← lock_unwrap c;
  _ ← st_modify (upd_provided (alter (provided_connect req) c));
  mret (mkProviderChannel c req).
Definition connect_to_provided (c : Uuid) (prov : PortRef) : St Sys MustWait RequirerChannel :=
  _ ← lock_unwrap c;
  _ ← st_modify (upd_required (alter (required_connect prov) c));
  mret (mkRequirerChannel c prov).

Definition provider_channel_disconnect (ch : ProviderChannel) : St Sys TryLockError () :=
  provider_disconnect (pc_provider ch) (pc_required_ref ch).
Definition requirer_channel_disconnect (ch : RequirerChannel) : St Sys TryLockError () :=
  requirer_disconnect (rc_requirer ch) (rc_provided_ref ch).

(** ** Specification

    A port type connects components: each ordered pair of components is linked
    some number of times, and what is triggered arrives once per link. *)
Record Links := mkLinks {
  alive : gset Uuid;
  ind_links : Uuid → Uuid → nat;   (** from a provider to a requirer *)
  req_links : Uuid → Uuid → nat;   (** from a requirer to a provider *)
  held_ind : Uuid → list Indication;
  held_req : Uuid → list Request;
  held_locks : gmap Uuid LockState;
}.

Inductive PortOp :=
| OConnect (p r : Uuid) | OConnectPorts (p r : Uuid) | OConnectRequired (p r : Uuid) | OConnectProvided (r p : Uuid)
| ODisconnect (p r : Uuid) | ODisconnectRequired (p r : Uuid) | ODisconnectProvided (r p : Uuid)
| OForgetRequirer (p c : Uuid) | OForgetProvider (r c : Uuid)
| OIndicate (p : Uuid) (e : Indication) | ORequest (r : Uuid) (e : Request)
| ODequeueRequest (p : Uuid) | ODequeueIndication (r : Uuid)
| ODrop (c : Uuid) | OLock (c : Uuid) (l : LockState).

Definition set_link (f : Uuid → Uuid → nat) (x y : Uuid) (n : nat) : Uuid → Uuid → nat :=
  λ x' y', if decide (x' = x ∧ y' = y) then n else f x' y'.
Definition unlocked (a : Links) (c : Uuid) : bool :=
  match default Unlocked (held_locks a !! c) with Unlocked => true | _ => false end.

Definition cannot_lock (a : Links) (c : Uuid) : bool := bool_decide (c ∈ alive a) && negb (unlocked a c).

Definition link_ind (p r : Uuid) (n : nat) (a : Links) : Links :=
  mkLinks (alive a) (set_link (ind_links a) p r n) (req_links a) (held_ind a) (held_req a) (held_locks a).
Definition link_req (r p : Uuid) (n : nat) (a : Links) : Links :=
  mkLinks (alive a) (ind_links a) (set_link (req_links a) r p n) (held_ind a) (held_req a) (held_locks a).
Definition link_both (p r : Uuid) (a : Links) : Links :=
  link_req r p (S (req_links a r p)) (link_ind p r (S (ind_links a p r)) a).

(** Connecting needs both locks.  Disconnecting takes them in turn and gives up
    at the first that it cannot take.  What is sent arrives once per link. *)
Definition spec_op (op : PortOp) (a : Links) : Links :=
  match op with
  | OConnect p r => if unlocked a p && unlocked a r && bool_decide (p ≠ r) then link_both p r a else a
  | OConnectPorts p r => link_both p r a
  | OConnectRequired p r => if unlocked a p then link_ind p r (S (ind_links a p r)) a else a
  | OConnectProvided r p => if unlocked a r then link_req r p (S (req_links a r p)) a else a
  | ODisconnect p r =>
      if cannot_lock a p then a
      else let a := link_ind p r 0 a in if cannot_lock a r then a else link_req r p 0 a
  | ODisconnectRequired p r => if cannot_lock a p then a else link_ind p r 0 a
  | ODisconnectProvided r p => if cannot_lock a r then a else link_req r p 0 a
  | OForgetRequirer p c => link_ind p c 0 a
  | OForgetProvider r c => link_req r c 0 a
  | OIndicate p e =>
      mkLinks (alive a) (ind_links a) (req_links a) (λ r, held_ind a r ++ replicate (ind_links a p r) e) (held_req a) (held_locks a)
  | ORequest r e =>
      mkLinks (alive a) (ind_links a) (req_links a) (held_ind a) (λ p, held_req a p ++ replicate (req_links a r p) e) (held_locks a)
  | ODequeueRequest p =>
      mkLinks (alive a) (ind_links a) (req_links a) (held_ind a) (λ c, if decide (c = p) then tail (held_req a c) else held_req a c) (held_locks a)
  | ODequeueIndication r =>
      mkLinks (alive a) (ind_links a) (req_links a) (λ c, if decide (c = r) then tail (held_ind a c) else held_ind a c) (held_req a) (held_locks a)
  | ODrop c => mkLinks (alive a ∖ {[c]}) (ind_links a) (req_links a) (held_ind a) (held_req a) (held_locks a)
  | OLock c l => mkLinks (alive a) (ind_links a) (req_links a) (held_ind a) (held_req a) (<[c := l]> (held_locks a))
  end.

(** Only components that exist connect and trigger; waiting for a poisoned lock
    panics. *)
Definition op_ok (op : PortOp) (a : Links) : Prop :=
  match op with
  | OConnect p r | OConnectPorts p r | OForgetRequirer p r | OForgetProvider p r => p ∈ alive a ∧ r ∈ alive a
  | OConnectRequired c _ | OConnectProvided c _ => c ∈ alive a ∧ held_locks a !! c ≠ Some PoisonedLock
  | OIndicate c _ | ORequest c _ => c ∈ alive a
  | _ => True
  end.

Definition self_ref (c : Uuid) : PortRef := mkPortRef c c.

(** The component is deallocated, and with it its ports and their queues. *)
Definition drop_component (c : Uuid) (s : Sys) : Sys :=
  mkSys (delete c (words s)) (delete c (provided s)) (delete c (required s)) (delete c (request_queues s))
    (delete c (indication_queues s)) (scheduled s) (locks s).

(** The code behind an operation; errors are returned to the caller. *)
Definition ignore_err {E A} (m : St Sys E A) : St Sys Empty_set () := λ s,
  match m s with (s, Panic) => (s, Panic) | (s, _) => (s, Ok ()) end.

Definition run_op (op : PortOp) : St Sys Empty_set () :=
  match op with
  | OConnect p r => ignore_err (biconnect_components p r)
  | OConnectPorts p r => biconnect_ports p r
  | OConnectRequired p r => ignore_err (connect_to_required p (self_ref r))
  | OConnectProvided r p => ignore_err (connect_to_provided r (self_ref p))
  | ODisconnect p r => ignore_err (disconnect_by_ref (mkTwoWay p r (self_ref p) (self_ref r)))
  | ODisconnectRequired p r => ignore_err (provider_channel_disconnect (mkProviderChannel p (self_ref r)))
  | ODisconnectProvided r p => ignore_err (requirer_channel_disconnect (mkRequirerChannel r (self_ref p)))
  | OForgetRequirer p c => st_modify (λ s, upd_provided (alter (λ q, (disconnect_component s c q).1) p) s)
  | OForgetProvider r c => st_modify (λ s, upd_required (alter (λ q, (disconnect_component s c q).1) r) s)
  | OIndicate p e => trigger_indication p e
  | ORequest r e => trigger_request r e
  | ODequeueRequest p => st_modify (λ s, (ref_dequeue request_queues upd_requests p s).1)
  | ODequeueIndication r => st_modify (λ s, (ref_dequeue indication_queues upd_indications r s).1)
  | ODrop c => st_modify (drop_component c)
  | OLock c l => st_modify (λ s, mkSys (words s) (provided s) (required s) (request_queues s) (indication_queues s) (scheduled s) (<[c := l]> (locks s)))
  end.

Definition run_ops (ops : list PortOp) : St Sys Empty_set () := st_for ops run_op.
Definition spec_ops (ops : list PortOp) (a : Links) : Links := foldl (λ a op, spec_op op a) a ops.
Fixpoint ops_ok (ops : list PortOp) (a : Links) : Prop :=
  match ops with [] => True | op :: ops => op_ok op a ∧ ops_ok ops (spec_op op a) end.

(** ** Refinement *)
Definition links_to (c : Uuid) (rs : list PortRef) : nat := length (filter (λ x, ref_queue x = c) rs).

(** A port [p] of component [c] whose connections [rs] are the links [f]. *)
Definition port_refines (a : Links) (c : Uuid) (f : Uuid → nat) (p : Port) (rs : list PortRef) : Prop :=
  parent p = Some c ∧ msg_queue p = c ∧ Forall (λ x, ref_component x = ref_queue x) rs
  ∧ ∀ r, r ∈ alive a → links_to r rs = f r.

Definition refines (s : Sys) (a : Links) : Prop :=
  locks s = held_locks a
  ∧ (∀ c, c ∈ alive a ↔ is_Some (words s !! c))
  ∧ (∀ c, indication_queues s !! c = if decide (c ∈ alive a) then Some (held_ind a c) else None)
  ∧ (∀ c, request_queues s !! c = if decide (c ∈ alive a) then Some (held_req a c) else None)
  ∧ (∀ c, c ∈ alive a → ∃ p, provided s !! c = Some p ∧ port_refines a c (ind_links a c) p (require_channels (common p)))
  ∧ (∀ c, c ∈ alive a → ∃ p, required s !! c = Some p ∧ port_refines a c (req_links a c) p (provide_channels (common p))).

(** An abort: a component's count of work is full. *)
Definition aborted (s : Sys) : Prop := ∃ c w, words s !! c = Some w ∧ increment_work (E := Empty_set) w = Panic.

Section EnqueueAll.
Context {Ev Other : Type} (queues : Sys → gmap Uuid (list Ev)) (upd_queues : (gmap Uuid (list Ev) → gmap Uuid (list Ev)) → Sys → Sys).
Context (other : Sys → gmap Uuid (list Other)).

(** What enqueueing leaves alone. *)
Definition untouched (s s' : Sys) : Prop :=
  provided s' = provided s ∧ required s' = required s ∧ locks s' = locks s ∧ other s' = other s
  ∧ ∀ c, is_Some (words s' !! c) ↔ is_Some (words s !! c).

Context (queues_upd : ∀ f s, queues (upd_queues f s) = f (queues s)).
Context (queues_words : ∀ f s, queues (upd_words f s) = queues s) (queues_sched : ∀ f s, queues (upd_scheduled f s) = queues s).
Context (words_upd : ∀ f s, words (upd_queues f s) = words s).
Context (rest_upd : ∀ f s, provided (upd_queues f s) = provided s ∧ required (upd_queues f s) = required s ∧ locks (upd_queues f s) = locks s
  ∧ other (upd_queues f s) = other s).
Context (other_words : ∀ f s, other (upd_words f s) = other s) (other_sched : ∀ f s, other (upd_scheduled f s) = other s).

Lemma ref_enqueue_spec c e s : (is_Some (queues s !! c) ↔ is_Some (words s !! c)) →
  let '(s', r) := ref_enqueue (E := Empty_set) queues upd_queues (self_ref c) e s in
  untouched s s' ∧ match r with
  | Ok _ => queues s' = alter (λ q, q ++ [e]) c (queues s)
  | Err _ => False
  | Panic => aborted s'
  end.
Proof using queues_upd queues_words queues_sched words_upd rest_upd other_words other_sched.
  intros Hc. unfold ref_enqueue. cbn [self_ref ref_queue ref_component].
  destruct (queues s !! c) as [q|] eqn:Hq.
  2:{ split; [done|]. apply map_eq. intros x. destruct (decide (x = c)) as [->|].
      - by rewrite lookup_alter_eq, Hq.
      - by rewrite lookup_alter_ne. }
  destruct (words s !! c) as [w|] eqn:Hw; [|by destruct Hc as [[? ?] _]].
  destruct (increment_work w) as [[w' sd]|[]|] eqn:Hi; [|split; [done|by exists c, w]].
  set (s1 := upd_queues _ _).
  assert (untouched s s1 ∧ queues s1 = alter (λ q, q ++ [e]) c (queues s)) as [Hu Hs1].
  { subst s1. split; [|rewrite queues_upd, queues_words].
    - destruct (rest_upd <[c := q ++ [e]]> (upd_words <[c := w']> s)) as (R1 & R2 & R3 & R4). unfold untouched.
      rewrite R1, R2, R3, R4, other_words, words_upd.
      split_and!; try done. intros x. cbn. destruct (decide (x = c)) as [->|]; [rewrite lookup_insert_eq, Hw|rewrite lookup_insert_ne by done]; done.
    - apply map_eq. intros x. destruct (decide (x = c)) as [->|].
      + by rewrite lookup_insert_eq, lookup_alter_eq, Hq.
      + by rewrite lookup_insert_ne, lookup_alter_ne. }
  destruct sd; (split; [|by rewrite ?queues_sched]); try done.
  destruct Hu as (U1 & U2 & U3 & U4 & U5). unfold untouched. rewrite other_sched. by split_and!.
Qed.

Lemma untouched_trans s1 s2 s3 : untouched s1 s2 → untouched s2 s3 → untouched s1 s3.
Proof.
  intros (A1 & A2 & A3 & A4 & A5) (B1 & B2 & B3 & B4 & B5). split_and!; try congruence. intros c. by rewrite B5.
Qed.

Lemma links_to_cons c x rs : links_to c (x :: rs) = (if decide (ref_queue x = c) then 1 else 0) + links_to c rs.
Proof. unfold links_to. rewrite filter_cons. by case_decide. Qed.

(** Every queue gets the event once per reference into it. *)
Lemma enqueue_all_spec rs e : ∀ b s, Forall (λ x, ref_component x = ref_queue x) rs →
  (∀ c, is_Some (queues s !! c) ↔ is_Some (words s !! c)) →
  let '(s', r) := enqueue_all (E := Empty_set) queues upd_queues rs e b s in
  untouched s s' ∧ match r with
  | Ok _ => ∀ c, queues s' !! c = (λ q, q ++ replicate (links_to c rs) e) <$> queues s !! c
  | Err _ => False
  | Panic => aborted s'
  end.
Proof using queues_upd queues_words queues_sched words_upd rest_upd other_words other_sched.
  induction rs as [|x rs IH]; intros b s Hrs Hdom; cbn [enqueue_all].
  { split; [done|]. intros c. cbn. destruct (queues s !! c); cbn; [by rewrite app_nil_r|done]. }
  apply Forall_cons in Hrs as [Hx Hrs]. destruct x as [xc xq]. cbn in Hx. subst xc. fold (self_ref xq).
  pose proof (ref_enqueue_spec xq e s (Hdom xq)) as H1. unfold mbind, st_bind.
  destruct (ref_enqueue queues upd_queues (self_ref xq) e s) as [s1 [d|[]|]]; [|done]. destruct H1 as [Hu1 Hq1].
  assert (∀ c, is_Some (queues s1 !! c) ↔ is_Some (words s1 !! c)) as Hdom1.
  { intros c. destruct Hu1 as (_ & _ & _ & _ & ->). rewrite <-Hdom, Hq1.
    destruct (decide (c = xq)) as [->|]; [rewrite lookup_alter_eq; by rewrite fmap_is_Some|by rewrite lookup_alter_ne]. }
  specialize (IH (b || d) s1 Hrs Hdom1). destruct (enqueue_all queues upd_queues rs e (b || d) s1) as [s2 r].
  destruct IH as [Hu2 H2]. split; [by eapply untouched_trans|]. destruct r; try done.
  intros c. rewrite H2, Hq1, links_to_cons. cbn [self_ref ref_queue]. case_decide as Hc; [subst xq|].
  - rewrite lookup_alter_eq. destruct (queues s !! c); cbn; [|done]. by rewrite <-app_assoc.
  - rewrite lookup_alter_ne by done. done.
Qed.
End EnqueueAll.

(** *** Triggering *)
Lemma live_links {Ev} (queues : Sys → gmap Uuid (list Ev)) s c rs : Forall (λ x, ref_component x = ref_queue x) rs →
  is_Some (words s !! c) → is_Some (queues s !! c) →
  links_to c (filter (λ r, is_live queues s r = true) rs) = links_to c rs.
Proof.
  intros Hrs Hw Hq. induction Hrs as [|x rs Hx _ IH]; [done|]. rewrite filter_cons. case_decide as Hl.
  - by rewrite !links_to_cons, IH.
  - rewrite links_to_cons, IH. rewrite decide_False; [done|]. intros <-. apply Hl. unfold is_live.
    by rewrite Hx, !bool_decide_true.
Qed.

Lemma refines_dom s a : refines s a →
  (∀ c, is_Some (indication_queues s !! c) ↔ is_Some (words s !! c)) ∧ (∀ c, is_Some (request_queues s !! c) ↔ is_Some (words s !! c)).
Proof.
  intros (_ & H1 & H2 & H3 & _). split; intros c; rewrite <-H1; [rewrite H2|rewrite H3]; case_decide as Hc; split; intros Hd; try done; by destruct Hd.
Qed.

Lemma port_refines_filter a c f p rs rs' : port_refines a c f p rs → rs' ⊆ rs → (∀ r, r ∈ alive a → links_to r rs' = links_to r rs) →
  port_refines a c f p rs'.
Proof.
  intros (H1 & H2 & H3 & H4) Hsub Hl. split_and!; try done.
  - rewrite Forall_forall in *. intros x Hx. by apply H3, Hsub.
  - intros r Hr. by rewrite Hl, H4.
Qed.

Lemma trigger_indication_refines c e s a : refines s a → c ∈ alive a →
  let '(s', r) := trigger_indication (E := Empty_set) c e s in
  match r with Ok _ => refines s' (spec_op (OIndicate c e) a) | Err x => match x with end | Panic => aborted s' end.
Proof.
  intros Href Hc. pose proof (refines_dom s a Href) as [Hdi _]. pose proof Href as (R1 & R2 & R3 & R4 & R5 & R6).
  destruct (R5 c Hc) as (p & Hp & Hpr). unfold trigger_indication, mbind, st_bind, st_get. rewrite Hp.
  pose proof (enqueue_all_spec indication_queues upd_indications request_queues ltac:(done) ltac:(done) ltac:(done) ltac:(done)
    ltac:(done) ltac:(done) ltac:(done) (require_channels (common p)) e false s (proj1 (proj2 (proj2 Hpr))) Hdi) as Hen.
  destruct (enqueue_all _ _ _ e false s) as [s1 [d|[]|]]; [|by destruct Hen]. destruct Hen as [(U1 & U2 & U3 & U4 & U5) Hq].
  assert (refines s1 (spec_op (OIndicate c e) a)) as Hr1.
  { split_and!; cbn; try congruence.
    - intros x. by rewrite R2, <-U5.
    - intros x. rewrite Hq, R3. case_decide; [|done]. cbn. by rewrite (proj2 (proj2 (proj2 Hpr))).
    - intros x. by rewrite U4.
    - intros x Hx. rewrite U1. by apply R5.
    - intros x Hx. rewrite U2. by apply R6. }
  destruct d; [|done]. cbn [st_when]. unfold mbind, st_bind, st_modify. cbn [fst snd].
  pose proof (refines_dom _ _ Hr1) as [Hdi1 _]. destruct Hr1 as (Q1 & Q2 & Q3 & Q4 & Q5 & Q6). split_and!; try done.
  intros x Hx. cbn [upd_provided provided]. destruct (decide (x = c)) as [->|Hne]; [|rewrite lookup_insert_ne by done; by apply Q5].
  rewrite lookup_insert_eq. eexists. split; [done|]. cbn.
  destruct Hpr as (P1 & P2 & P3 & P4). eapply (port_refines_filter _ _ _ _ (require_channels (common p))); [done|by intros y [_ Hy]%list_elem_of_filter|].
  intros r Hr. apply live_links; [done|by apply Q2|by apply Hdi1, Q2].
Qed.

Lemma trigger_request_refines c e s a : refines s a → c ∈ alive a →
  let '(s', r) := trigger_request (E := Empty_set) c e s in
  match r with Ok _ => refines s' (spec_op (ORequest c e) a) | Err x => match x with end | Panic => aborted s' end.
Proof.
  intros Href Hc. pose proof (refines_dom s a Href) as [_ Hdi]. pose proof Href as (R1 & R2 & R3 & R4 & R5 & R6).
  destruct (R6 c Hc) as (p & Hp & Hpr). unfold trigger_request, mbind, st_bind, st_get. rewrite Hp.
  pose proof (enqueue_all_spec request_queues upd_requests indication_queues ltac:(done) ltac:(done) ltac:(done) ltac:(done)
    ltac:(done) ltac:(done) ltac:(done) (provide_channels (common p)) e false s (proj1 (proj2 (proj2 Hpr))) Hdi) as Hen.
  destruct (enqueue_all _ _ _ e false s) as [s1 [d|[]|]]; [|by destruct Hen]. destruct Hen as [(U1 & U2 & U3 & U4 & U5) Hq].
  assert (refines s1 (spec_op (ORequest c e) a)) as Hr1.
  { split_and!; cbn; try congruence.
    - intros x. by rewrite R2, <-U5.
    - intros x. by rewrite U4.
    - intros x. rewrite Hq, R4. case_decide; [|done]. cbn. by rewrite (proj2 (proj2 (proj2 Hpr))).
    - intros x Hx. rewrite U1. by apply R5.
    - intros x Hx. rewrite U2. by apply R6. }
  destruct d; [|done]. cbn [st_when]. unfold mbind, st_bind, st_modify. cbn [fst snd].
  pose proof (refines_dom _ _ Hr1) as [_ Hdi1]. destruct Hr1 as (Q1 & Q2 & Q3 & Q4 & Q5 & Q6). split_and!; try done.
  intros x Hx. cbn [upd_required required]. destruct (decide (x = c)) as [->|Hne]; [|rewrite lookup_insert_ne by done; by apply Q6].
  rewrite lookup_insert_eq. eexists. split; [done|]. cbn.
  destruct Hpr as (P1 & P2 & P3 & P4). eapply (port_refines_filter _ _ _ _ (provide_channels (common p))); [done|by intros y [_ Hy]%list_elem_of_filter|].
  intros r Hr. apply live_links; [done|by apply Q2|by apply Hdi1, Q2].
Qed.

(** *** Connecting and disconnecting *)

(** Changes to the ports alone. *)
Lemma refines_ports s a f g il rl : refines s a →
  (∀ c, c ∈ alive a → ∃ p, f (provided s) !! c = Some p ∧ port_refines a c (il c) p (require_channels (common p))) →
  (∀ c, c ∈ alive a → ∃ p, g (required s) !! c = Some p ∧ port_refines a c (rl c) p (provide_channels (common p))) →
  refines (upd_required g (upd_provided f s)) (mkLinks (alive a) il rl (held_ind a) (held_req a) (held_locks a)).
Proof. intros (R1 & R2 & R3 & R4 & _ & _) Hf Hg. split_and!; done. Qed.

Lemma links_to_snoc c rs x : links_to c (rs ++ [self_ref x]) = links_to c rs + if decide (x = c) then 1 else 0.
Proof. unfold links_to. rewrite filter_app, length_app, filter_cons. cbn. by case_decide. Qed.

Lemma links_to_remove c x rs : links_to c (remove_ref (self_ref x) rs) = if decide (c = x) then 0 else links_to c rs.
Proof.
  induction rs as [|y rs IH]; [by case_decide|]. unfold remove_ref, port_ref_eq in *. cbn [self_ref ref_queue] in *. rewrite filter_cons.
  destruct (decide (bool_decide (x = ref_queue y) = false)) as [Hy|Hy].
  - rewrite !links_to_cons, IH. apply bool_decide_eq_false in Hy. destruct (decide (c = x)) as [->|]; [by rewrite decide_False|done].
  - rewrite IH, links_to_cons. apply not_false_iff_true, bool_decide_eq_true in Hy. subst x.
    destruct (decide (c = ref_queue y)) as [->|]; [done|]. by rewrite (decide_False (P := ref_queue y = c)).
Qed.

Lemma set_link_elsewhere f x y n x' y' : x' ≠ x ∨ y' ≠ y → set_link f x y n x' y' = f x' y'.
Proof. intros H. unfold set_link. rewrite decide_False; [done|]. intros [-> ->]. by destruct H. Qed.
Lemma set_link_here f x y n : set_link f x y n x y = n.
Proof. unfold set_link. by rewrite decide_True. Qed.

(** One more connection to [y] at the port of [x]. *)
Lemma port_connect a x y n f p rs p' : port_refines a x (f x) p rs → parent p' = parent p → msg_queue p' = msg_queue p →
  n = S (f x y) → port_refines a x (set_link f x y n x) p' (rs ++ [self_ref y]).
Proof.
  intros (P1 & P2 & P3 & P4) H1 H2 ->. split_and!; try congruence.
  - apply Forall_app. split; [done|by constructor].
  - intros r Hr. rewrite links_to_snoc, P4 by done. case_decide as Hy; [subst; rewrite set_link_here; lia|].
    rewrite set_link_elsewhere by auto. lia.
Qed.

Lemma port_disconnect a x y f p rs p' : port_refines a x (f x) p rs → parent p' = parent p → msg_queue p' = msg_queue p →
  port_refines a x (set_link f x y 0 x) p' (remove_ref (self_ref y) rs).
Proof.
  intros (P1 & P2 & P3 & P4) H1 H2. split_and!; try congruence.
  - rewrite Forall_forall in *. intros z [_ Hz]%list_elem_of_filter. by apply P3.
  - intros r Hr. rewrite links_to_remove. case_decide as Hy; [subst; by rewrite set_link_here|].
    rewrite set_link_elsewhere by auto. by apply P4.
Qed.

Lemma port_elsewhere a x y f p rs c n : port_refines a c (f c) p rs → c ≠ x → port_refines a c (set_link f x y n c) p rs.
Proof.
  intros (P1 & P2 & P3 & P4) Hne. split_and!; try done. intros r Hr. rewrite set_link_elsewhere by auto. by apply P4.
Qed.

Lemma biconnect_refines {E} p r s a : refines s a → p ∈ alive a → r ∈ alive a →
  let '(s', x) := biconnect (E := E) p r s in x = Ok (self_ref p, self_ref r) ∧ refines s' (link_both p r a).
Proof.
  intros Href Hp Hr. pose proof Href as (R1 & R2 & R3 & R4 & R5 & R6). unfold biconnect, mbind, st_bind, st_get.
  destruct (R5 p Hp) as (pp & Hpp & Hpr1). destruct (R6 r Hr) as (pr & Hprr & Hpr2). rewrite Hpp, Hprr.
  unfold share, st_lift. rewrite (proj1 Hpr1), (proj1 Hpr2). cbn [st_modify mret st_ret fst snd].
  pose proof (proj1 (proj2 Hpr1)) as ->. pose proof (proj1 (proj2 Hpr2)) as ->. split; [done|].
  apply (refines_ports s a <[p := _]> <[r := _]>); [done| |]; intros c Hc.
  - destruct (decide (c = p)) as [->|Hne].
    + rewrite lookup_insert_eq. eexists. split; [done|]. by eapply port_connect.
    + rewrite lookup_insert_ne by done. destruct (R5 c Hc) as (q & Hq & Hqr). exists q. split; [done|]. by apply port_elsewhere.
  - destruct (decide (c = r)) as [->|Hne].
    + rewrite lookup_insert_eq. eexists. split; [done|]. by eapply port_connect.
    + rewrite lookup_insert_ne by done. destruct (R6 c Hc) as (q & Hq & Hqr). exists q. split; [done|]. by apply port_elsewhere.
Qed.

Lemma connect_refines p r s a : refines s a → p ∈ alive a → r ∈ alive a →
  let '(s', x) := biconnect_components p r s in
  x ≠ Panic ∧ refines s' (spec_op (OConnect p r) a).
Proof.
  intros Href Hp Hr. pose proof Href as (R1 & _).
  unfold biconnect_components, try_lock, try_lock_right, mbind, st_bind. cbn [spec_op]. unfold unlocked. rewrite R1.
  destruct (default Unlocked (held_locks a !! p)); cbn; [|done|done]. case_decide as Hpr; [subst; rewrite bool_decide_false, andb_false_r by tauto; done|].
  unfold try_lock. rewrite R1. destruct (default Unlocked (held_locks a !! r)); cbn; [|done|done]. rewrite bool_decide_true by done.
  pose proof (biconnect_refines (E := TryDualLockError) p r s a Href Hp Hr) as Hb. destruct (biconnect p r s) as [s' x]. by destruct Hb as [-> Hb].
Qed.

(** A change of one port of one side, which keeps the others. *)
Lemma alter_provided_refines p r n f s a : refines s a →
  (∀ q, port_refines a p (ind_links a p) q (require_channels (common q)) →
        port_refines a p (set_link (ind_links a) p r n p) (f q) (require_channels (common (f q)))) →
  refines (upd_provided (alter f p) s) (link_ind p r n a).
Proof.
  intros Href Hf. pose proof Href as (R1 & R2 & R3 & R4 & R5 & R6).
  apply (refines_ports s a (alter f p) id); [done| |done]. intros c Hc. destruct (R5 c Hc) as (q & Hq & Hqr).
  destruct (decide (c = p)) as [->|Hne].
  - rewrite lookup_alter_eq, Hq. eexists. split; [done|]. by apply Hf.
  - exists q. rewrite lookup_alter_ne by done. split; [done|]. by apply port_elsewhere.
Qed.

Lemma alter_required_refines r p n f s a : refines s a →
  (∀ q, port_refines a r (req_links a r) q (provide_channels (common q)) →
        port_refines a r (set_link (req_links a) r p n r) (f q) (provide_channels (common (f q)))) →
  refines (upd_required (alter f r) s) (link_req r p n a).
Proof.
  intros Href Hf. pose proof Href as (R1 & R2 & R3 & R4 & R5 & R6).
  assert (upd_provided id s = s) as Hid by (by destruct s). rewrite <-Hid.
  apply (refines_ports s a id (alter f r)); [done|done|]. intros c Hc. destruct (R6 c Hc) as (q & Hq & Hqr).
  destruct (decide (c = r)) as [->|Hne].
  - rewrite lookup_alter_eq, Hq. eexists. split; [done|]. by apply Hf.
  - exists q. rewrite lookup_alter_ne by done. split; [done|]. by apply port_elsewhere.
Qed.

(** Links of components that do not exist do not matter. *)
Lemma link_ind_dead p r n s a : refines s a → p ∉ alive a → refines s (link_ind p r n a).
Proof.
  intros Href Hp. assert (upd_required id (upd_provided id s) = s) as Hid by (by destruct s). rewrite <-Hid.
  destruct Href as (R1 & R2 & R3 & R4 & R5 & R6). apply refines_ports; [done| |done]. intros c Hc.
  destruct (R5 c Hc) as (q & Hq & Hqr). exists q. split; [done|]. apply port_elsewhere; [done|]. by intros ->.
Qed.
Lemma link_req_dead r p n s a : refines s a → r ∉ alive a → refines s (link_req r p n a).
Proof.
  intros Href Hp. assert (upd_required id (upd_provided id s) = s) as Hid by (by destruct s). rewrite <-Hid.
  destruct Href as (R1 & R2 & R3 & R4 & R5 & R6). apply refines_ports; [done|done|]. intros c Hc.
  destruct (R6 c Hc) as (q & Hq & Hqr). exists q. split; [done|]. apply port_elsewhere; [done|]. by intros ->.
Qed.

Lemma provider_disconnect_refines p r s a : refines s a →
  let '(s', x) := provider_disconnect p (self_ref r) s in
  if cannot_lock a p then s' = s ∧ ∃ e, x = Err e else x = Ok () ∧ refines s' (link_ind p r 0 a).
Proof.
  intros Href. pose proof Href as (R1 & R2 & _).
  unfold provider_disconnect, cannot_lock, unlocked, mbind, st_bind, st_get. rewrite <-R1.
  destruct (words s !! p) as [w|] eqn:Hw.
  - assert (p ∈ alive a) as Hp by (apply R2; by eexists). rewrite bool_decide_true by done. unfold try_lock.
    destruct (default Unlocked (locks s !! p)); cbn; (split; [done|]); [|by eexists|by eexists].
    apply alter_provided_refines; [done|]. intros q Hq. by eapply port_disconnect.
  - assert (p ∉ alive a) as Hp by (intros [? Hx]%R2; congruence). rewrite bool_decide_false by done. cbn. split; [done|].
    by apply link_ind_dead.
Qed.

Lemma requirer_disconnect_refines r p s a : refines s a →
  let '(s', x) := requirer_disconnect r (self_ref p) s in
  if cannot_lock a r then s' = s ∧ ∃ e, x = Err e else x = Ok () ∧ refines s' (link_req r p 0 a).
Proof.
  intros Href. pose proof Href as (R1 & R2 & _).
  unfold requirer_disconnect, cannot_lock, unlocked, mbind, st_bind, st_get. rewrite <-R1.
  destruct (words s !! r) as [w|] eqn:Hw.
  - assert (r ∈ alive a) as Hp by (apply R2; by eexists). rewrite bool_decide_true by done. unfold try_lock.
    destruct (default Unlocked (locks s !! r)); cbn; (split; [done|]); [|by eexists|by eexists].
    apply alter_required_refines; [done|]. intros q Hq. by eapply port_disconnect.
  - assert (r ∉ alive a) as Hp by (intros [? Hx]%R2; congruence). rewrite bool_decide_false by done. cbn. split; [done|].
    by apply link_req_dead.
Qed.

(** [disconnect_component] removes the links to a component that exists and,
    of the others, only those to components that do not. *)
Lemma port_forget s a c x f p rs p' : refines s a → port_refines a c (f c) p rs → x ∈ alive a →
  parent p' = parent p → msg_queue p' = msg_queue p →
  port_refines a c (set_link f c x 0 c) p' (filter (λ r, cleared s x r = false) rs).
Proof.
  intros (_ & R2 & _) (P1 & P2 & P3 & P4) Hx H1 H2. split_and!; try congruence.
  - rewrite Forall_forall in *. intros z [_ Hz]%list_elem_of_filter. by apply P3.
  - intros r Hr. assert (links_to r (filter (λ r, cleared s x r = false) rs) = if decide (r = x) then 0 else links_to r rs) as ->.
    + clear P4. induction P3 as [|y rs Hy _ IH]; [by case_decide|]. rewrite filter_cons.
      assert (ref_queue y = r → cleared s x y = bool_decide (r = x)) as Hcl.
      { intros E. unfold cleared, owned_by_component_with_id. rewrite Hy, E. destruct (proj1 (R2 r) Hr) as [w ->]. by case_decide; case_bool_decide. }
      destruct (decide (cleared s x y = false)) as [Hf|Hf]; rewrite ?links_to_cons, IH; destruct (decide (ref_queue y = r)) as [E|]; try done.
      * rewrite (Hcl E) in Hf. apply bool_decide_eq_false in Hf. rewrite !decide_False by done. done.
      * rewrite (Hcl E) in Hf. apply not_false_iff_true, bool_decide_eq_true in Hf. rewrite !decide_True by done. done.
    + case_decide; [subst; by rewrite set_link_here|]. rewrite set_link_elsewhere by auto. by apply P4.
Qed.

Lemma disconnect_refines p r s a : refines s a →
  let '(s', x) := disconnect_by_ref (mkTwoWay p r (self_ref p) (self_ref r)) s in
  x ≠ Panic ∧ refines s' (spec_op (ODisconnect p r) a).
Proof.
  intros Href. unfold disconnect_by_ref, mbind, st_bind. cbn [tw_provider tw_requirer tw_provided_ref tw_required_ref spec_op].
  pose proof (provider_disconnect_refines p r s a Href) as H1. destruct (provider_disconnect p (self_ref r) s) as [s1 x1].
  destruct (cannot_lock a p); [by destruct H1 as [-> [e ->]]|]. destruct H1 as [-> H1].
  pose proof (requirer_disconnect_refines r p s1 _ H1) as H2. destruct (requirer_disconnect r (self_ref p) s1) as [s2 x2].
  destruct (cannot_lock _ r); [by destruct H2 as [-> [e ->]]|]. by destruct H2 as [-> H2].
Qed.

(** *** Runs *)
Lemma drop_refines c s a : refines s a → refines (drop_component c s) (spec_op (ODrop c) a).
Proof.
  intros (R1 & R2 & R3 & R4 & R5 & R6). split_and!; cbn; try done.
  - intros x. rewrite elem_of_difference, elem_of_singleton. destruct (decide (x = c)) as [->|].
    + rewrite lookup_delete_eq. split; [tauto|by intros []].
    + rewrite lookup_delete_ne, <-R2 by done. tauto.
  - intros x. destruct (decide (x = c)) as [->|]; [rewrite lookup_delete_eq, decide_False by set_solver; done|].
    rewrite lookup_delete_ne, R3 by done. apply decide_ext. set_solver.
  - intros x. destruct (decide (x = c)) as [->|]; [rewrite lookup_delete_eq, decide_False by set_solver; done|].
    rewrite lookup_delete_ne, R4 by done. apply decide_ext. set_solver.
  - intros x [Hx Hne]%elem_of_difference. rewrite lookup_delete_ne by set_solver. destruct (R5 x Hx) as (p & Hp & P1 & P2 & P3 & P4).
    exists p. split; [done|]. split_and!; try done. intros r [Hr _]%elem_of_difference. by apply P4.
  - intros x [Hx Hne]%elem_of_difference. rewrite lookup_delete_ne by set_solver. destruct (R6 x Hx) as (p & Hp & P1 & P2 & P3 & P4).
    exists p. split; [done|]. split_and!; try done. intros r [Hr _]%elem_of_difference. by apply P4.
Qed.

Lemma dequeue_lookup {Ev} (m : gmap Uuid (list Ev)) (h : Uuid → list Ev) (al : gset Uuid) p c :
  (∀ c, m !! c = if decide (c ∈ al) then Some (h c) else None) →
  (match m !! p with Some (e :: q) => <[p := q]> m | _ => m end) !! c
  = if decide (c ∈ al) then Some (if decide (c = p) then tail (h c) else h c) else None.
Proof.
  intros Hm. rewrite (Hm p). destruct (decide (p ∈ al)) as [Hp|Hp].
  - destruct (h p) as [|e q] eqn:Hh.
    + rewrite Hm. case_decide; [|done]. case_decide; [subst; by rewrite Hh|done].
    + destruct (decide (c = p)) as [->|Hne]; [by rewrite lookup_insert_eq, decide_True, Hh|]. by rewrite lookup_insert_ne.
  - rewrite Hm. case_decide; [|done]. rewrite decide_False; [done|]. by intros ->.
Qed.

Lemma run_op_refines op s a : refines s a → op_ok op a →
  let '(s', r) := run_op op s in
  match r with Ok _ => refines s' (spec_op op a) | Err x => match x with end | Panic => aborted s' end.
Proof.
  intros Href Hok. destruct op as [p r|p r|p r|r p|p r|p r|r p|p c|r c|p e|r e|p|r|c|c l]; cbn [run_op].
  - destruct Hok as [Hp Hr]. pose proof (connect_refines p r s a Href Hp Hr) as H. unfold ignore_err.
    by destruct (biconnect_components p r s) as [s' []]; destruct H.
  - destruct Hok as [Hp Hr]. pose proof (biconnect_refines (E := Empty_set) p r s a Href Hp Hr) as H. unfold biconnect_ports, mbind, st_bind.
    destruct (biconnect p r s) as [s' x]. by destruct H as [-> H].
  - destruct Hok as [Hp Hl]. unfold ignore_err, connect_to_required, lock_unwrap, mbind, st_bind. cbn [spec_op]. unfold unlocked.
    destruct Href as [R1 Href]. rewrite R1. destruct (held_locks a !! p) as [[]|]; cbn; try done; apply alter_provided_refines; try done.
    all: intros q Hq; by eapply port_connect.
  - destruct Hok as [Hp Hl]. unfold ignore_err, connect_to_provided, lock_unwrap, mbind, st_bind. cbn [spec_op]. unfold unlocked.
    destruct Href as [R1 Href]. rewrite R1. destruct (held_locks a !! r) as [[]|]; cbn; try done; apply alter_required_refines; try done.
    all: intros q Hq; by eapply port_connect.
  - pose proof (disconnect_refines p r s a Href) as H. unfold ignore_err. by destruct (disconnect_by_ref _ s) as [s' []]; destruct H.
  - pose proof (provider_disconnect_refines p r s a Href) as H. unfold ignore_err, provider_channel_disconnect. cbn.
    destruct (provider_disconnect p _ s) as [s' x]. by destruct (cannot_lock a p); destruct H as [? H]; [destruct H|]; subst.
  - pose proof (requirer_disconnect_refines r p s a Href) as H. unfold ignore_err, requirer_channel_disconnect. cbn.
    destruct (requirer_disconnect r _ s) as [s' x]. by destruct (cannot_lock a r); destruct H as [? H]; [destruct H|]; subst.
  - destruct Hok as [Hp Hc]. apply alter_provided_refines; [done|]. intros q Hq. by apply (port_forget s a p c _ q).
  - destruct Hok as [Hp Hc]. apply alter_required_refines; [done|]. intros q Hq. by apply (port_forget s a r c _ q).
  - by apply trigger_indication_refines.
  - by apply trigger_request_refines.
  - destruct Href as (R1 & R2 & R3 & R4 & R5 & R6). unfold st_modify, ref_dequeue.
    assert (∀ c, request_queues (match request_queues s !! p with Some (e :: q) => (upd_requests <[p := q]> s, Some e) | _ => (s, None) end).1 !! c
      = (match request_queues s !! p with Some (e :: q) => <[p := q]> (request_queues s) | _ => request_queues s end) !! c) as Hq
      by (intros c; by destruct (request_queues s !! p) as [[]|]).
    split_and!; try (by destruct (request_queues s !! p) as [[]|]). intros c. rewrite Hq. by apply dequeue_lookup.
  - destruct Href as (R1 & R2 & R3 & R4 & R5 & R6). unfold st_modify, ref_dequeue.
    assert (∀ c, indication_queues (match indication_queues s !! r with Some (e :: q) => (upd_indications <[r := q]> s, Some e) | _ => (s, None) end).1 !! c
      = (match indication_queues s !! r with Some (e :: q) => <[r := q]> (indication_queues s) | _ => indication_queues s end) !! c) as Hq
      by (intros c; by destruct (indication_queues s !! r) as [[]|]).
    split_and!; try (by destruct (indication_queues s !! r) as [[]|]). intros c. rewrite Hq. by apply dequeue_lookup.
  - by apply drop_refines.
  - destruct Href as (R1 & R2 & R3 & R4 & R5 & R6). split_and!; try done. cbn. by rewrite R1.
Qed.

Lemma run_ops_refines ops : ∀ s a, refines s a → ops_ok ops a →
  let '(s', r) := run_ops ops s in
  match r with Ok _ => refines s' (spec_ops ops a) | Err x => match x with end | Panic => aborted s' end.
Proof.
  induction ops as [|op ops IH]; intros s a Href Hok; [done|]. destruct Hok as [Hop Hok]. unfold run_ops. cbn [st_for]. unfold mbind, st_bind.
  pose proof (run_op_refines op s a Href Hop) as H. destruct (run_op op s) as [s1 [[]|[]|]]; [|done]. by apply IH.
Qed.

(** Components that have just been created, and no links. *)
Definition fresh_sys (cs : gset Uuid) : Sys :=
  let ports := set_to_map (λ c, (c, set_parent c (uninitialised c))) cs in
  mkSys (gset_to_gmap initial_state cs) ports ports (gset_to_gmap [] cs) (gset_to_gmap [] cs) [] ∅.
Definition no_links (cs : gset Uuid) : Links := mkLinks cs (λ _ _, 0) (λ _ _, 0) (λ _, []) (λ _, []) ∅.

Lemma fresh_refines cs : refines (fresh_sys cs) (no_links cs).
Proof.
  assert (∀ c, c ∈ cs → (set_to_map (λ c, (c, set_parent c (uninitialised c))) cs : gmap Uuid Port) !! c = Some (set_parent c (uninitialised c))) as Hports.
  { intros c Hc. apply lookup_set_to_map; [|by exists c]. by intros ? ? _ _ [=]. }
  assert (∀ Ev c, (gset_to_gmap [] cs : gmap Uuid (list Ev)) !! c = if decide (c ∈ cs) then Some [] else None) as Hqs.
  { intros Ev c. case_decide; [by apply lookup_gset_to_gmap_Some|by apply lookup_gset_to_gmap_None]. }
  split_and!; cbn; try done.
  - intros c. split; [intros Hc; exists initial_state; by apply lookup_gset_to_gmap_Some|].
    by intros [w [Hc _]%lookup_gset_to_gmap_Some].
  - intros c Hc. exists (set_parent c (uninitialised c)). split; [by apply Hports|]. by split_and!.
  - intros c Hc. exists (set_parent c (uninitialised c)). split; [by apply Hports|]. by split_and!.
Qed.

(** C12: a run of connects, disconnects, triggers, dequeues, locks and
    deallocations on the ports of a system implements the links between its
    components: every queue of a component that exists holds exactly the events
    that its links prescribe, as often as it is linked and in the order they
    were triggered, and the run ends early only when a component's count of
    outstanding work is full. *)
Theorem ports_refine_links (cs : gset Uuid) (ops : list PortOp) : ops_ok ops (no_links cs) →
  let '(s, r) := run_ops ops (fresh_sys cs) in
  match r with
  | Ok _ =>
      refines s (spec_ops ops (no_links cs))
      ∧ ∀ c, c ∈ alive (spec_ops ops (no_links cs)) →
          indication_queues s !! c = Some (held_ind (spec_ops ops (no_links cs)) c)
          ∧ request_queues s !! c = Some (held_req (spec_ops ops (no_links cs)) c)
  | Err x => match x with end
  | Panic => aborted s
  end.
Proof.
  intros Hok. pose proof (run_ops_refines ops _ _ (fresh_refines cs) Hok) as H. destruct (run_ops ops (fresh_sys cs)) as [s [r|[]|]]; [|done].
  split; [done|]. intros c Hc. destruct H as (_ & _ & H1 & H2 & _). rewrite H1, H2, !decide_True by done. done.
Qed.
End Ports.

(** Two providers of which one is connected twice and dropped, and a requirer. *)
Definition example_id (n : Z) : Uuid (UuidApi := uuid128_api) := mk_uuid128 n.
Definition example_components : gset (Uuid (UuidApi := uuid128_api)) := {[example_id 1; example_id 2; example_id 3]}.
Definition example_port_ops : list (PortOp (U := uuid128_api) (Indication := nat) (Request := bool)) :=
  [OConnect (example_id 1) (example_id 2); OConnect (example_id 3) (example_id 2); OConnect (example_id 3) (example_id 2);
   OIndicate (example_id 1) 10; OIndicate (example_id 3) 30; ORequest (example_id 2) true;
   ODisconnect (example_id 1) (example_id 2); OIndicate (example_id 1) 11; ODrop (example_id 3);
   ORequest (example_id 2) false; ODequeueIndication (example_id 2)].
Abbreviation example_run := (run_ops example_port_ops (fresh_sys (U := uuid128_api) example_components)).

Lemma ports_refine_links_witness :
  ∃ s, example_run = (s, Ok ())
  ∧ indication_queues s !! example_id 2 = Some [30; 30] ∧ request_queues s !! example_id 1 = Some [true].
Proof.
  pose proof (ports_refine_links (U := uuid128_api) example_components example_port_ops) as H.
  destruct (example_run) as [s [[]|[]|]] eqn:Hrun.
  - exists s. split; [reflexivity|].
    assert (ops_ok example_port_ops (no_links (U := uuid128_api) example_components)) as Hok.
    { cbn [ops_ok op_ok]. repeat split; apply (bool_decide_unpack _); vm_compute; reflexivity. }
    destruct (H Hok) as [_ Hq]. split.
    + rewrite (proj1 (Hq (example_id 2) ltac:(apply (bool_decide_unpack _); vm_compute; reflexivity))). reflexivity.
    + rewrite (proj2 (Hq (example_id 1) ltac:(apply (bool_decide_unpack _); vm_compute; reflexivity))). reflexivity.
  - exfalso. apply (f_equal (λ r, match r.2 with Ok _ => true | _ => false end)) in Hrun. vm_compute in Hrun. discriminate Hrun.
Defined.
