(* ===== verification/Config.v ===== *)
(** * Configuration

    Model of [core/src/config] (documents, lookups, typed entries, converters) and
    of the part of [core/src/runtime/config.rs] and [runtime/system.rs] that builds
    the settings of a system from a list of sources.

    A document is a tree of tables.  The TOML parser, the parsers of byte sizes
    and durations, floating-point numbers and the text of type errors are
    parameters; what the converters rely on of them are the laws of
    [ConfigExtern]. *)

From Stdlib Require Import DecimalString DecimalN.
From S2P Require Import Prelude Paths.

(** [usize] and [u64] as text. *)
Definition decimal (n : N) : string := NilEmpty.string_of_uint (N.to_uint n).

(** What the code uses of [f64], [f32], [toml::value::Datetime], [byte_unit] and
    [humantime]; durations in nanoseconds. *)
Class ConfigExtern := {
  F64 : Type;
  F32 : Type;
  Datetime : Type;
  f64_of_i64 : Z → F64;
  f32_of_f64 : F64 → F32;
  f64_of_f32 : F32 → F64;
  f32_open_unit : F32 → bool;  (** [0.0 < v && v < 1.0] *)
  f32_half : F32;
  f32_zero : F32;
  parse_bytes : string → option N;
  parse_duration : string → option N;
  format_duration : N → string;
  f32_widen_narrow : ∀ v, f32_of_f64 (f64_of_f32 v) = v;
  f32_half_unit : f32_open_unit f32_half = true;
  parse_plain_bytes : ∀ n, (n < 2 ^ 64)%N → parse_bytes (decimal n +:+ "B") = Some n;
  parse_format_duration : ∀ d, parse_duration (format_duration d) = Some d;
}.

Section Config.
Context {X : ConfigExtern}.

(** ** Documents *)
(** [PATH_SEP] of [config/mod.rs]. *)
Definition CONFIG_PATH_SEP : ascii := "."%char.

Inductive ConfigValue :=
| CString (v : string)
| CInteger (v : Z)
| CReal (v : F64)
| CBoolean (v : bool)
| CDateTime (v : Datetime)
| CArray (values : list ConfigValue)
| CTable (values : gmap string ConfigValue).

Abbreviation ConfigTable := (gmap string ConfigValue).
Record Config := mkConfig { root : ConfigTable }.
Definition new_config : Config := mkConfig ∅.

(** [toml::Value] and its conversions. *)
Inductive TomlValue :=
| TString (v : string)
| TInteger (v : Z)
| TFloat (v : F64)
| TBoolean (v : bool)
| TDatetime (v : Datetime)
| TArray (values : list TomlValue)
| TTable (values : gmap string TomlValue).

Fixpoint from_toml (value : TomlValue) : ConfigValue :=
  match value with
  | TString v => CString v
  | TInteger v => CInteger v
  | TFloat v => CReal v
  | TBoolean v => CBoolean v
  | TDatetime v => CDateTime v
  | TArray values => CArray (from_toml <$> values)
  | TTable values => CTable (from_toml <$> values)
  end.
Fixpoint to_toml_value (value : ConfigValue) : TomlValue :=
  match value with
  | CString v => TString v
  | CInteger v => TInteger v
  | CReal v => TFloat v
  | CBoolean v => TBoolean v
  | CDateTime v => TDatetime v
  | CArray values => TArray (to_toml_value <$> values)
  | CTable values => TTable (to_toml_value <$> values)
  end.
Definition from_toml_table (t : gmap string TomlValue) : Config := mkConfig (from_toml <$> t).

Definition value_as_string (v : ConfigValue) : option string := match v with CString s => Some s | _ => None end.
Definition value_as_i64 (v : ConfigValue) : option Z := match v with CInteger i => Some i | _ => None end.
Definition value_as_f64 (v : ConfigValue) : option F64 :=
  match v with CInteger i => Some (f64_of_i64 i) | CReal r => Some r | _ => None end.
Definition value_as_bool (v : ConfigValue) : option bool := match v with CBoolean b => Some b | _ => None end.
Definition value_as_datetime (v : ConfigValue) : option Datetime := match v with CDateTime d => Some d | _ => None end.
Definition value_as_bytes (v : ConfigValue) : option N :=
  match v with
  | CInteger i => if decide (0 ≤ i)%Z then Some (Z.to_N i) else None
  | CString s => parse_bytes s
  | _ => None
  end.
Definition value_as_duration (v : ConfigValue) : option N := match v with CString s => parse_duration s | _ => None end.
Definition value_as_array (v : ConfigValue) : option (list ConfigValue) := match v with CArray vs => Some vs | _ => None end.

Definition value_type_name (v : ConfigValue) : string :=
  match v with
  | CString _ => "string" | CInteger _ => "integer" | CReal _ => "float" | CBoolean _ => "boolean"
  | CDateTime _ => "datetime" | CArray _ => "array" | CTable _ => "table"
  end.

(** [merge] and [merge_tables]: the keys of a table are distinct, so the order in
    which the second is walked through does not matter. *)
Fixpoint value_merge (current next : ConfigValue) : ConfigValue :=
  match current, next with
  | CTable current, CTable next => CTable (union_with (λ c n, Some (value_merge c n)) current next)
  | _, next => next
  end.
Definition merge_tables (current next : ConfigTable) : ConfigTable := union_with (λ c n, Some (value_merge c n)) current next.
Definition config_merge (self other : Config) : Config := mkConfig (merge_tables (root self) (root other)).

Fixpoint insert_segments (current : ConfigTable) (segments : list string) (value : ConfigValue) : ConfigTable :=
  match segments with
  | [] => current
  | [k] =>
      match current !! k with
      | Some existing => <[k := value_merge existing value]> current
      | None => <[k := value]> current
      end
  | k :: rest =>
      let child := default (CTable ∅) (current !! k) in
      let values := match child with CTable values => values | _ => ∅ end in
      <[k := CTable (insert_segments values rest value)]> current
  end.
Definition path_segments (key : string) : list string := split_char CONFIG_PATH_SEP key.
Definition insert_value (c : Config) (key : string) (value : ConfigValue) : Config :=
  mkConfig (insert_segments (root c) (path_segments key) value).

(** [Index]: the panicking access. *)
Definition config_index {E} (c : Config) (key : string) : res E ConfigValue := unwrap (root c !! key).
Definition value_index_key {E} (v : ConfigValue) (key : string) : res E ConfigValue :=
  match v with CTable values => unwrap (values !! key) | _ => Panic end.
Definition value_index {E} (v : ConfigValue) (index : nat) : res E ConfigValue :=
  match v with CArray values => unwrap (values !! index) | _ => Panic end.

(** ** Lookups *)
Inductive PathSegment := Key (key : string) | Index (index : nat).

Inductive LookupErrorKind :=
| KInvalidPath
| KMissingKey
| KMissingIndex
| KInvalidKeyAccess (key : string) (value_type : string)
| KInvalidIndexAccess (index : nat) (value_type : string).

(** Of the lookup that a child comes from only the path is ever displayed. *)
Inductive LookupPathSource :=
| FullPath (path : string)
| Child (parent : LookupPathSource) (segment : PathSegment) (prepend_separator : bool).

Inductive ConfigLookup :=
| LValue (value : ConfigValue) (path : LookupPathSource)
| LError (kind : LookupErrorKind) (path : LookupPathSource).
Definition lookup_path (l : ConfigLookup) : LookupPathSource := match l with LValue _ path | LError _ path => path end.

(** [Display]. *)
Definition segment_text (s : PathSegment) : string :=
  match s with Key key => key | Index index => "[" +:+ decimal (N.of_nat index) +:+ "]" end.
Fixpoint path_text (p : LookupPathSource) : string :=
  match p with
  | FullPath path => path
  | Child parent segment prepend_separator =>
      path_text parent +:+ (if prepend_separator then String CONFIG_PATH_SEP "" else "") +:+ segment_text segment
  end.
Definition lookup_text (l : ConfigLookup) : string := path_text (lookup_path l).

Definition is_empty_path (l : ConfigLookup) : bool :=
  match lookup_path l with FullPath path => bool_decide (path = "") | Child _ _ _ => false end.

Definition from_full_path (path : string) (value : ConfigValue) : ConfigLookup := LValue value (FullPath path).
Definition error_path (path : string) (kind : LookupErrorKind) : ConfigLookup := LError kind (FullPath path).

Definition config_get (c : Config) (key : string) : ConfigLookup :=
  match root c !! key with
  | Some value => from_full_path key value
  | None => error_path key KMissingKey
  end.

(** The loop of [select]. *)
Fixpoint select_segments (path : string) (value : ConfigValue) (segments : list string) : ConfigLookup :=
  match segments with
  | [] => from_full_path path value
  | segment :: segments =>
      if decide (segment = "") then error_path path KInvalidPath
      else match value with
           | CTable values =>
               match values !! segment with
               | Some value => select_segments path value segments
               | None => error_path path KMissingKey
               end
           | _ => error_path path (KInvalidKeyAccess segment (value_type_name value))
           end
  end.
Definition select (c : Config) (path : string) : ConfigLookup :=
  match path_segments path with
  | [] => error_path path KInvalidPath
  | first :: segments =>
      if decide (first = "") then error_path path KInvalidPath
      else match root c !! first with
           | None => error_path path KMissingKey
           | Some value => select_segments path value segments
           end
  end.

Definition lookup_get (l : ConfigLookup) (key : string) : ConfigLookup :=
  let path := Child (lookup_path l) (Key key) (negb (is_empty_path l)) in
  match l with
  | LValue value _ =>
      match value with
      | CTable values =>
          match values !! key with
          | Some value => LValue value path
          | None => LError KMissingKey path
          end
      | _ => LError (KInvalidKeyAccess key (value_type_name value)) path
      end
  | LError kind _ => LError kind path
  end.

Definition lookup_get_index (l : ConfigLookup) (index : nat) : ConfigLookup :=
  let path := Child (lookup_path l) (Index index) false in
  match l with
  | LValue value _ =>
      match value with
      | CArray values =>
          match values !! index with
          | Some value => LValue value path
          | None => LError KMissingIndex path
          end
      | _ => LError (KInvalidIndexAccess index (value_type_name value)) path
      end
  | LError kind _ => LError kind path
  end.

Inductive ConfigPathError :=
| InvalidPath (path : string)
| MissingKey (path : string)
| MissingIndex (path : string)
| InvalidKeyAccess (path key value_type : string)
| InvalidIndexAccess (path : string) (index : nat) (value_type : string).

Definition is_missing (e : ConfigPathError) : bool :=
  match e with MissingKey _ | MissingIndex _ => true | _ => false end.

Inductive ConfigError :=
| ConversionError (path : option string) (description : string)
| PathError (e : ConfigPathError)
| InvalidValue (path : option string) (description : string).

(** [path_error], on the error variant. *)
Definition path_error (kind : LookupErrorKind) (path : LookupPathSource) : ConfigPathError :=
  match kind with
  | KInvalidPath => InvalidPath (path_text path)
  | KMissingKey => MissingKey (path_text path)
  | KMissingIndex => MissingIndex (path_text path)
  | KInvalidKeyAccess key value_type => InvalidKeyAccess (path_text path) key value_type
  | KInvalidIndexAccess index value_type => InvalidIndexAccess (path_text path) index value_type
  end.

Definition lookup_value (l : ConfigLookup) : res ConfigError ConfigValue :=
  match l with LValue value _ => Ok value | LError kind path => Err (PathError (path_error kind path)) end.

(** ** Conversions *)
Section Typed.
(** [{:?}] of a value. *)
Context (debug : ConfigValue → string).

Definition description (type_name : string) (conf : ConfigValue) : string :=
  "Expected " +:+ type_name +:+ " config value, but got " +:+ debug conf.
Definition expected (type_name : string) (conf : ConfigValue) : ConfigError := ConversionError None (description type_name conf).
Definition expected_at (type_name path : string) (conf : ConfigValue) : ConfigError :=
  ConversionError (Some path) (description type_name conf).

Definition with_path (e : ConfigError) (path : string) : ConfigError :=
  match e with
  | ConversionError None d => ConversionError (Some path) d
  | InvalidValue None d => InvalidValue (Some path) d
  | other => other
  end.

(** The typed methods of a lookup. *)
Definition lookup_as {A} (type_name : string) (as_ : ConfigValue → option A) (l : ConfigLookup) : res ConfigError A :=
  value ← lookup_value l;
  ok_or (expected_at type_name (lookup_text l) value) (as_ value).
Definition lookup_as_string := lookup_as "alloc::string::String" value_as_string.
Definition lookup_as_i64 := lookup_as "i64" value_as_i64.
Definition lookup_as_f64 := lookup_as "f64" value_as_f64.
Definition lookup_as_bool := lookup_as "bool" value_as_bool.
Definition lookup_as_datetime := lookup_as "toml_datetime::datetime::Datetime" value_as_datetime.
Definition lookup_as_bytes := lookup_as "u64" value_as_bytes.
Definition lookup_as_duration := lookup_as "core::time::Duration" value_as_duration.
Definition lookup_as_array := lookup_as "&[kompact::config::ConfigValue]" value_as_array.

(** [array_entries] with the items of its iterator. *)
Definition array_entries (l : ConfigLookup) : res ConfigError (list (nat * ConfigLookup)) :=
  values ← lookup_as_array l;
  Ok (imap (λ index value, (index, LValue value (Child (lookup_path l) (Index index) false))) values).

(** The trait [ConfigValueType].  Converting to a config value can panic. *)
Record ConfigValueType := mkType {
  Value : Type;
  from_conf : ConfigValue → res ConfigError Value;
  into_config_value : Value → res Empty_set ConfigValue;
}.

Definition I64_MAX : Z := 2 ^ 63 - 1.
Definition USIZE_MAX : Z := 2 ^ 64 - 1.

Definition StringValue : ConfigValueType :=
  mkType string (λ conf, ok_or (expected "alloc::string::String" conf) (value_as_string conf)) (λ v, Ok (CString v)).
Definition IntegerValue : ConfigValueType :=
  mkType Z (λ conf, ok_or (expected "i64" conf) (value_as_i64 conf)) (λ v, Ok (CInteger v)).
Definition RealValue : ConfigValueType :=
  mkType F64 (λ conf, ok_or (expected "f64" conf) (value_as_f64 conf)) (λ v, Ok (CReal v)).
Definition BooleanValue : ConfigValueType :=
  mkType bool (λ conf, ok_or (expected "bool" conf) (value_as_bool conf)) (λ v, Ok (CBoolean v)).
Definition BytesValue : ConfigValueType :=
  mkType N (λ conf, ok_or (expected "u64" conf) (value_as_bytes conf)) (λ v, Ok (CString (decimal v +:+ "B"))).
Definition DurationValue : ConfigValueType :=
  mkType N (λ conf, ok_or (expected "core::time::Duration" conf) (value_as_duration conf)) (λ v, Ok (CString (format_duration v))).

Fixpoint try_fold {A B E} (f : A → res E B) (l : list A) (acc : list B) : res E (list B) :=
  match l with
  | [] => Ok acc
  | x :: l => v ← f x; try_fold f l (acc ++ [v])
  end.
Definition ArrayOfValues (T : ConfigValueType) : ConfigValueType :=
  mkType (list (Value T))
    (λ conf, match conf with
             | CArray values => try_fold (from_conf T) values []
             | _ => Err (expected "alloc::vec::Vec" conf)
             end)
    (λ vs, values ← try_fold (into_config_value T) vs []; Ok (CArray values)).

(** [TryFrom<i64> for usize] and back, on a 64-bit machine. *)
Definition UsizeValue : ConfigValueType :=
  mkType Z
    (λ conf,
       r ← ok_or (expected "usize" conf) (value_as_i64 conf);
       if decide (0 ≤ r)%Z then Ok r
       else Err (ConversionError None "out of range integral type conversion attempted"))
    (λ v, if decide (v ≤ I64_MAX)%Z then Ok (CInteger v) else Panic).
Definition F32Value : ConfigValueType :=
  mkType F32 (λ conf, ok_or (expected "f32" conf) (f32_of_f64 <$> value_as_f64 conf)) (λ v, Ok (CReal (f64_of_f32 v))).

(** ** Entries *)
Record ConfigEntry (T : ConfigValueType) := mkEntry {
  key : string;
  entry_default : option (() → Value T);
  validator : option (Value T → () + string);
}.
Arguments key {T}.
Arguments entry_default {T}.
Arguments validator {T}.

Definition default_value {T} (e : ConfigEntry T) : option (Value T) := (λ f, f ()) <$> entry_default e.
Definition entry_select {T} (e : ConfigEntry T) (conf : Config) : ConfigLookup := select conf (key e).

Definition entry_validate {T} (e : ConfigEntry T) (value : Value T) : res ConfigError (Value T) :=
  match validator e with
  | Some v => match v value with inl _ => Ok value | inr msg => Err (InvalidValue (Some (key e)) msg) end
  | None => Ok value
  end.

Definition read {T} (e : ConfigEntry T) (conf : Config) : res ConfigError (Value T) :=
  value ← lookup_value (entry_select e conf);
  value ← map_err (λ error, with_path error (key e)) (from_conf T value);
  entry_validate e value.

Definition read_or_default {T} (e : ConfigEntry T) (conf : Config) : res ConfigError (Value T) :=
  match read e conf with
  | Ok value => Ok value
  | Err (PathError error) =>
      if is_missing error then
        match default_value e with Some d => Ok d | None => Err (PathError error) end
      else Err (PathError error)
  | Err error => Err error
  | Panic => Panic
  end.

(** ** The settings of a system *)

(** The closure that [kompact_config!] makes of a condition. *)
Definition condition {A} (text : A → string) (b : A → bool) (value : A) : () + string :=
  if b value then inl () else inr (text value).

Section System.
(** The label a system gets by default, the number of processors, and the texts
    of failed validations. *)
Context (default_runtime_label : string) (num_cpus : Z) (text_usize : Z → string) (text_f32 : F32 → string) (text_scheduler : string → string).

Definition LABEL : ConfigEntry StringValue :=
  mkEntry StringValue "kompact.runtime.label" (Some (λ _, default_runtime_label)) None.
Definition THROUGHPUT : ConfigEntry UsizeValue :=
  mkEntry UsizeValue "kompact.runtime.throughput" (Some (λ _, 50%Z)) (Some (condition text_usize (λ v, bool_decide (0 < v)%Z))).
Definition MESSAGE_PRIORITY : ConfigEntry F32Value :=
  mkEntry F32Value "kompact.runtime.message-priority" (Some (λ _, f32_half)) (Some (condition text_f32 f32_open_unit)).
Definition THREADS : ConfigEntry UsizeValue :=
  mkEntry UsizeValue "kompact.runtime.threads" (Some (λ _, Z.max 1 num_cpus)) (Some (condition text_usize (λ v, bool_decide (0 < v)%Z))).
Definition scheduler_names : list string := ["auto"; "small"; "large"; "dynamic"; "custom"].
Definition SCHEDULER : ConfigEntry StringValue :=
  mkEntry StringValue "kompact.runtime.scheduler" (Some (λ _, "auto"))
    (Some (condition text_scheduler (λ v, bool_decide (v ∈ scheduler_names)))).

Inductive SchedulerBuilder := SmallPool | LargePool | DynPool | UserBuilder (id : nat).

Inductive ConfigSource := SFile (path : string) | SStr (config : string) | SValue (key : string) (value : ConfigValue).

(** Without the builders of the timer and of the system components, and the
    logger, which are passed on as they are. *)
Record KompactConfig := mkKompactConfig {
  label : string;
  throughput : Z;
  msg_priority : F32;
  threads : Z;
  scheduler_builder : SchedulerBuilder;
  config_sources : list ConfigSource;
}.
(** [Default]. *)
Definition default_kompact_config : KompactConfig := mkKompactConfig "<unset>" 0 f32_zero 1 SmallPool [].
Definition push_source (c : KompactConfig) (s : ConfigSource) : KompactConfig :=
  mkKompactConfig (label c) (throughput c) (msg_priority c) (threads c) (scheduler_builder c) (config_sources c ++ [s]).

Definition load_config_file (c : KompactConfig) (path : string) : KompactConfig := push_source c (SFile path).
Definition load_config_str (c : KompactConfig) (config : string) : KompactConfig := push_source c (SStr config).
Definition set_config_value {T} (c : KompactConfig) (e : ConfigEntry T) (value : Value T) : res Empty_set KompactConfig :=
  v ← into_config_value T value;
  Ok (push_source c (SValue (key e) v)).

(** [scheduler] and [executor]: a builder of the user. *)
Definition set_scheduler (c : KompactConfig) (id : nat) : res Empty_set KompactConfig :=
  c ← set_config_value c SCHEDULER "custom";
  Ok (mkKompactConfig (label c) (throughput c) (msg_priority c) (threads c) (UserBuilder id) (config_sources c)).

(** The deprecated [threads]. *)
Definition set_threads (c : KompactConfig) (n : Z) : res Empty_set KompactConfig :=
  _ ← assert_ (bool_decide (0 < n)%Z);
  set_config_value c THREADS n.

(** Reading files and parsing TOML. *)
Context {LoadingError : Type} (read_to_string : string → string + LoadingError) (toml_from_str : string → gmap string TomlValue + LoadingError).
Definition from_sum {A} (r : A + LoadingError) : res LoadingError A := match r with inl a => Ok a | inr e => Err e end.

Definition parse_config_str (config_string : string) : res LoadingError Config :=
  config ← from_sum (toml_from_str config_string);
  Ok (from_toml_table config).
Definition parse_config_file (path : string) : res LoadingError Config :=
  config_string ← from_sum (read_to_string path);
  parse_config_str config_string.

Definition source_load (s : ConfigSource) : res LoadingError Config :=
  match s with
  | SFile path => parse_config_file path
  | SStr config => parse_config_str config
  | SValue key value => Ok (insert_value new_config key value)
  end.

Definition load_config (conf : KompactConfig) : res LoadingError Config :=
  for_each (config_sources conf) (λ source config, next ← source_load source; Ok (config_merge config next)) new_config.

Definition pool_for (threads : Z) : SchedulerBuilder :=
  if decide (threads ≤ 32)%Z then SmallPool else if decide (threads ≤ 64)%Z then LargePool else DynPool.

(** The match on the name of the scheduler; the last case is [unreachable!]. *)
Definition choose_scheduler {E} (own : SchedulerBuilder) (threads : Z) (scheduler_option : string) : res E SchedulerBuilder :=
  if decide (scheduler_option = "auto") then Ok (pool_for threads)
  else if decide (scheduler_option = "small") then Ok SmallPool
  else if decide (scheduler_option = "large") then Ok LargePool
  else if decide (scheduler_option = "dynamic") then Ok DynPool
  else if decide (scheduler_option = "custom") then Ok own
  else Panic.

Definition override_from_config (c : KompactConfig) (conf : Config) : res ConfigError KompactConfig :=
  label ← read_or_default LABEL conf;
  throughput ← read_or_default THROUGHPUT conf;
  msg_priority ← read_or_default MESSAGE_PRIORITY conf;
  threads ← read_or_default THREADS conf;
  scheduler_option ← read_or_default SCHEDULER conf;
  builder ← choose_scheduler (scheduler_builder c) threads scheduler_option;
  Ok (mkKompactConfig label throughput msg_priority threads builder (config_sources c)).

(** The first part of [prepare_new]. *)
Definition configure (conf : KompactConfig) : res (LoadingError + ConfigError) (Config * KompactConfig) :=
  config ← map_err inl (load_config conf);
  conf ← map_err inr (override_from_config conf config);
  Ok (config, conf).

(** ** Specification

    The value at a list of segments, and whether the way to it leads through
    a value that is not a table. *)
Fixpoint find (v : ConfigValue) (segments : list string) : option ConfigValue :=
  match segments with
  | [] => Some v
  | s :: segments => match v with CTable t => t !! s ≫= λ v, find v segments | _ => None end
  end.
Fixpoint blocked (v : ConfigValue) (segments : list string) : bool :=
  match segments with
  | [] => false
  | s :: segments =>
      match v with CTable t => match t !! s with Some v => blocked v segments | None => false end | _ => true end
  end.

Definition valid_path (path : string) : Prop := Forall (λ s, s ≠ "") (path_segments path).
Definition unrelated (p q : list string) : Prop := ¬ p `prefix_of` q ∧ ¬ q `prefix_of` p.
Definition is_table (v : ConfigValue) : bool := match v with CTable _ => true | _ => false end.

(** What a converter owes the entries that use it: values of its domain survive
    the way into a document and back. *)
Class RoundTrips (T : ConfigValueType) (dom : Value T → Prop) : Prop :=
  round_trips v : dom v → ∃ c, into_config_value T v = Ok c ∧ is_table c = false ∧ from_conf T c = Ok v.

#[export] Instance string_round_trips : RoundTrips StringValue (λ _, True).
Proof. intros v _. by eexists. Qed.
#[export] Instance integer_round_trips : RoundTrips IntegerValue (λ _, True).
Proof. intros v _. by eexists. Qed.
#[export] Instance real_round_trips : RoundTrips RealValue (λ _, True).
Proof. intros v _. by eexists. Qed.
#[export] Instance boolean_round_trips : RoundTrips BooleanValue (λ _, True).
Proof. intros v _. by eexists. Qed.
#[export] Instance bytes_round_trips : RoundTrips BytesValue (λ n, (n < 2 ^ 64)%N).
Proof. intros v Hv. eexists. split_and!; [done..|]. cbn. by rewrite parse_plain_bytes. Qed.
#[export] Instance duration_round_trips : RoundTrips DurationValue (λ _, True).
Proof. intros v _. eexists. split_and!; [done..|]. cbn. by rewrite parse_format_duration. Qed.
#[export] Instance usize_round_trips : RoundTrips UsizeValue (λ v, 0 ≤ v ≤ I64_MAX)%Z.
Proof. intros v [H1 H2]. exists (CInteger v). cbn. by rewrite !decide_True. Qed.
#[export] Instance f32_round_trips : RoundTrips F32Value (λ _, True).
Proof. intros v _. eexists. split_and!; [done..|]. cbn. by rewrite f32_widen_narrow. Qed.

Lemma try_fold_inverse {A B E E'} (f : A → res E B) (g : B → res E' A) l acc :
  (∀ x, x ∈ l → ∃ y, f x = Ok y ∧ g y = Ok x) →
  ∃ ys, try_fold f l acc = Ok (acc ++ ys) ∧ ∀ acc', try_fold g ys acc' = Ok (acc' ++ l).
Proof.
  revert acc. induction l as [|x l IH]; intros acc Hl.
  { exists []. split; cbn; [by rewrite app_nil_r|]. intros acc'. by rewrite app_nil_r. }
  destruct (Hl x) as (y & Hf & Hg); [by left|]. destruct (IH (acc ++ [y])) as (ys & H1 & H2); [intros z Hz; apply Hl; by right|].
  exists (y :: ys). cbn. rewrite Hf. cbn. rewrite H1, <-app_assoc. split; [done|].
  intros acc'. rewrite Hg. cbn. by rewrite H2, <-app_assoc.
Qed.

#[export] Instance array_round_trips T dom `{!RoundTrips T dom} : RoundTrips (ArrayOfValues T) (Forall dom).
Proof.
  intros vs Hvs. destruct (try_fold_inverse (into_config_value T) (from_conf T) vs []) as (cs & H1 & H2).
  { intros v Hv. rewrite Forall_forall in Hvs. destruct (round_trips v (Hvs v Hv)) as (c & ? & _ & ?). by exists c. }
  exists (CArray cs). cbn. rewrite H1. cbn. split_and!; [done..|]. apply H2.
Qed.

(** ** Merging *)
Lemma find_merge p : ∀ a b,
  find (value_merge a b) p =
  match find b p with
  | Some vb => Some (match find a p with Some va => value_merge va vb | None => vb end)
  | None => if blocked b p then None else find a p
  end.
Proof.
  induction p as [|s p IH]; intros a b; [done|]. destruct b as [| | | | | |tb]; try (by destruct a).
  destruct a as [| | | | | |ta]; cbn.
  7: rewrite lookup_union_with; destruct (ta !! s) as [va|], (tb !! s) as [vb|]; cbn; [apply IH|done| |done].
  all: try destruct (tb !! s) as [vb|]; cbn; try done; destruct (find vb p); [done|by destruct (blocked vb p)].
Qed.

Abbreviation single segments v := (CTable (insert_segments ∅ segments v)).

Lemma insert_cons t s s' rest v :
  insert_segments t (s :: s' :: rest) v
  = <[s := CTable (insert_segments (match default (CTable ∅) (t !! s) with CTable values => values | _ => ∅ end) (s' :: rest) v)]> t.
Proof. done. Qed.
Lemma single_cons s s' rest v : single (s :: s' :: rest) v = CTable {[s := single (s' :: rest) v]}.
Proof. by rewrite insert_cons, lookup_empty. Qed.
Lemma single_one s v : single [s] v = CTable {[s := v]}.
Proof. cbn. by rewrite lookup_empty. Qed.

Lemma find_single segments v : segments ≠ [] → find (single segments v) segments = Some v.
Proof.
  induction segments as [|s [|s' rest] IH]; intros Hne; [done| |].
  - rewrite single_one. cbn. by rewrite lookup_singleton_eq.
  - rewrite single_cons. cbn -[insert_segments]. rewrite lookup_singleton_eq. cbn -[insert_segments find]. by apply IH.
Qed.

Lemma find_single_unrelated segments v : ∀ p, segments ≠ [] → unrelated segments p →
  find (single segments v) p = None ∧ blocked (single segments v) p = false.
Proof.
  induction segments as [|s [|s' rest] IH]; intros p Hne [H1 H2]; [done| |].
  all: destruct p as [|x p]; [destruct H2; apply prefix_nil|].
  - rewrite single_one. cbn. rewrite lookup_singleton_ne; [done|]. intros ->. apply H1, prefix_cons, prefix_nil.
  - rewrite single_cons. cbn -[insert_segments]. destruct (decide (s = x)) as [->|].
    + rewrite lookup_singleton_eq. cbn -[insert_segments find]. apply IH; [done|]. split; intros H; [apply H1|apply H2]; by apply prefix_cons.
    + by rewrite lookup_singleton_ne.
Qed.

(** Inserting is merging with a document that holds nothing else. *)
Lemma insert_is_merge segments v : segments ≠ [] → ∀ t, CTable (insert_segments t segments v) = value_merge (CTable t) (single segments v).
Proof.
  intros Hne. induction segments as [|s [|s' rest] IH]; [done| |]; intros t.
  - rewrite single_one. cbn. f_equal. apply map_eq. intros k. rewrite lookup_union_with. destruct (decide (k = s)) as [->|].
    + rewrite lookup_singleton_eq. destruct (t !! s) eqn:Ht; cbn; by rewrite lookup_insert_eq.
    + rewrite lookup_singleton_ne by done. destruct (t !! s) eqn:Ht; cbn; rewrite lookup_insert_ne by done; by destruct (t !! k).
  - rewrite single_cons. cbn [value_merge]. f_equal. apply map_eq. intros k. rewrite lookup_union_with.
    destruct (decide (k = s)) as [->|].
    + rewrite lookup_singleton_eq, insert_cons, lookup_insert_eq.
      destruct (t !! s) as [[]|]; cbn [default from_option id union_with option_union_with]; f_equal; try done. by apply IH.
    + rewrite lookup_singleton_ne, insert_cons, lookup_insert_ne by done. by destruct (t !! k).
Qed.

(** ** Lookups *)
Definition lookup_spec (path : string) (value : ConfigValue) (segments : list string) (l : ConfigLookup) : Prop :=
  match find value segments with
  | Some v => l = from_full_path path v
  | None =>
      if blocked value segments then ∃ k ty, l = error_path path (KInvalidKeyAccess k ty)
      else l = error_path path KMissingKey
  end.

Lemma select_segments_spec path segments : ∀ value, Forall (λ s, s ≠ "") segments →
  lookup_spec path value segments (select_segments path value segments).
Proof.
  unfold lookup_spec. induction segments as [|s segments IH]; intros value Hs; [done|]. apply Forall_cons in Hs as [Hs Hrest]. cbn.
  rewrite decide_False by done. destruct value as [| | | | | |t]; cbn; try (by do 2 eexists). destruct (t !! s) as [v|]; cbn; [|done]. by apply IH.
Qed.

Lemma path_segments_cons path : ∃ s rest, path_segments path = s :: rest.
Proof. destruct (path_segments path) eqn:E; [by apply split_char_nonnil in E|]. by do 2 eexists. Qed.

Lemma select_spec c path : valid_path path → lookup_spec path (CTable (root c)) (path_segments path) (select c path).
Proof.
  unfold valid_path, select. destruct (path_segments_cons path) as (s & rest & ->). intros [Hs Hrest]%Forall_cons.
  rewrite decide_False by done. unfold lookup_spec. cbn. destruct (root c !! s) as [v|]; cbn; [|done]. by apply select_segments_spec.
Qed.

Lemma select_found c path v : valid_path path →
  lookup_value (select c path) = Ok v ↔ find (CTable (root c)) (path_segments path) = Some v.
Proof.
  intros Hp. pose proof (select_spec c path Hp) as H. unfold lookup_spec in H. destruct (find _ _) as [v'|].
  - rewrite H. cbn. split; congruence.
  - destruct (blocked _ _); [destruct H as (k & ty & ->)|rewrite H]; done.
Qed.

(** *** Following a path step by step *)
Definition dotted (rest : list string) : string := foldr (λ s acc, String CONFIG_PATH_SEP (s +:+ acc)) "" rest.

Lemma join_dotted s rest : join_sep CONFIG_PATH_SEP (s :: rest) = s +:+ dotted rest.
Proof.
  revert s. induction rest as [|s' rest IH]; intros s; [by rewrite string_app_nil_r|].
  change (join_sep CONFIG_PATH_SEP (s :: s' :: rest)) with (s +:+ String CONFIG_PATH_SEP (join_sep CONFIG_PATH_SEP (s' :: rest))). by rewrite IH.
Qed.

Lemma path_error_text kind p q : path_text p = path_text q → path_error kind p = path_error kind q.
Proof. intros H. destruct kind; cbn; by rewrite H. Qed.

Lemma get_path l k : is_empty_path l = false →
  is_empty_path (lookup_get l k) = false ∧ lookup_text (lookup_get l k) = lookup_text l +:+ String CONFIG_PATH_SEP k.
Proof.
  intros H. assert (lookup_path (lookup_get l k) = Child (lookup_path l) (Key k) true) as Hp.
  { unfold lookup_get. rewrite H. destruct l as [[| | | | | |t]|]; try done. by destruct (t !! k). }
  split; [unfold is_empty_path; by rewrite Hp|].
  unfold lookup_text. by rewrite Hp.
Qed.

Lemma gets_path rest : ∀ l, is_empty_path l = false → lookup_text (foldl lookup_get l rest) = lookup_text l +:+ dotted rest.
Proof.
  induction rest as [|k rest IH]; intros l Hl; cbn [foldl]; [by rewrite string_app_nil_r|].
  destruct (get_path l k Hl) as [He Ht]. rewrite IH, Ht by done. by rewrite <-string_app_assoc.
Qed.

Lemma gets_error kind rest : ∀ p, ∃ q, foldl lookup_get (LError kind p) rest = LError kind q.
Proof. induction rest as [|k rest IH]; intros p; cbn [foldl]; [by exists p|]. apply IH. Qed.

Lemma gets_select path rest : ∀ value p, is_empty_path (LValue value p) = false → Forall (λ s, s ≠ "") rest →
  path_text p +:+ dotted rest = path →
  lookup_value (foldl lookup_get (LValue value p) rest) = lookup_value (select_segments path value rest).
Proof.
  induction rest as [|k rest IH]; intros value p Hp Hr Htext; [done|]. apply Forall_cons in Hr as [Hk Hr].
  destruct (get_path _ k Hp) as [He Ht].
  pose proof (gets_path rest _ He) as Hall. rewrite Ht, <-string_app_assoc in Hall. cbn [foldl].
  assert (∀ kind q, lookup_get (LValue value p) k = LError kind q →
    lookup_value (foldl lookup_get (lookup_get (LValue value p) k) rest) = Err (PathError (path_error kind (FullPath path)))) as Herr.
  { intros kind q Hq. rewrite Hq in *. destruct (gets_error kind rest q) as [q' Hq']. rewrite Hq' in *. cbn. do 2 f_equal.
    apply path_error_text. cbn. rewrite <-Htext. exact Hall. }
  cbn [select_segments]. rewrite decide_False by done.
  destruct value as [| | | | | |t]; try (by rewrite (Herr _ _ eq_refl)).
  destruct (t !! k) as [v|] eqn:Hv.
  - unfold lookup_get in He, Ht |- *. rewrite Hv in He, Ht |- *. apply IH; [done|done|]. etransitivity; [exact (f_equal (λ x, x +:+ dotted rest) Ht)|]. by rewrite <-string_app_assoc.
  - erewrite Herr; [done|]. unfold lookup_get. by rewrite Hv.
Qed.

(** looking a dotted path up in one step gives the same as following its
    segments one by one: the same value, or the same error with the same path
    written in it, and the same path in the errors of later conversions. *)
Theorem select_follows_gets (c : Config) (path : string) : valid_path path →
  ∃ first rest, path_segments path = first :: rest
  ∧ let l := foldl lookup_get (config_get c first) rest in
    lookup_value (select c path) = lookup_value l ∧ lookup_text l = path.
Proof.
  intros Hp. destruct (path_segments_cons path) as (s & rest & Hs). exists s, rest. split; [done|].
  assert (s +:+ dotted rest = path) as Htext by (rewrite <-join_dotted, <-Hs; apply join_split).
  unfold valid_path in Hp. rewrite Hs in Hp. apply Forall_cons in Hp as [Hne Hr].
  assert (is_empty_path (config_get c s) = false ∧ lookup_text (config_get c s) = s) as [He Ht].
  { unfold config_get. destruct (root c !! s); cbn; (split; [by rewrite bool_decide_false|done]). }
  cbn. rewrite gets_path, Ht by done. split; [|done]. unfold select. rewrite Hs, decide_False by done.
  unfold config_get in *. destruct (root c !! s) as [v|]; [symmetry; by apply gets_select|].
  destruct (gets_error KMissingKey rest (FullPath s)) as [q Hq]. pose proof (gets_path rest _ He) as Hall.
  unfold error_path in *. rewrite Hq in *. cbn in *. do 2 f_equal. by rewrite Hall, Htext.
Qed.

(** ** Sources *)
Lemma load_push conf s : load_config (push_source conf s) = (config ← load_config conf; next ← source_load s; Ok (config_merge config next)).
Proof. unfold load_config, push_source. cbn. rewrite for_each_app. destruct (for_each _ _ _); cbn; try done. by destruct (source_load s). Qed.

(** a setting made last wins: whatever the sources before it hold, reading
    the entry gives back the value that was set, or the complaint of its
    validator about it; and every lookup of a path that neither leads to the
    entry nor through it finds what it found before. *)
Theorem last_setting_wins (T : ConfigValueType) (dom : Value T → Prop) `{!RoundTrips T dom} (e : ConfigEntry T) (v : Value T)
    (conf : KompactConfig) (before : Config) :
  dom v → valid_path (key e) → load_config conf = Ok before →
  ∃ conf' after, set_config_value conf e v = Ok conf' ∧ load_config conf' = Ok after
  ∧ read e after = entry_validate e v
  ∧ ∀ path w, valid_path path → unrelated (path_segments (key e)) (path_segments path) →
      lookup_value (select after path) = Ok w ↔ lookup_value (select before path) = Ok w.
Proof.
  intros Hv Hkey Hload. destruct (round_trips v Hv) as (c & Hinto & Htab & Hfrom).
  exists (push_source conf (SValue (key e) c)), (config_merge before (insert_value new_config (key e) c)).
  split; [unfold set_config_value; by rewrite Hinto|]. split; [by rewrite load_push, Hload|].
  destruct (path_segments_cons (key e)) as (s & rest & Hs).
  assert (path_segments (key e) ≠ []) as Hne by (by rewrite Hs).
  assert (∀ p, find (CTable (root (config_merge before (insert_value new_config (key e) c)))) p
    = find (value_merge (CTable (root before)) (single (path_segments (key e)) c)) p) as Hmerge by done.
  split.
  - unfold read, entry_select. assert (lookup_value (select (config_merge before (insert_value new_config (key e) c)) (key e)) = Ok c) as ->.
    { apply select_found; [done|]. rewrite Hmerge, find_merge, find_single by done.
      f_equal. destruct (find _ _) as [va|]; [|done]. destruct c; try done; by destruct va. }
    cbn. by rewrite Hfrom.
  - intros path w Hp Hun. rewrite !select_found, Hmerge, find_merge by done.
    by destruct (find_single_unrelated (path_segments (key e)) c (path_segments path) Hne Hun) as [-> ->].
Qed.

(** every branch of reading an entry or its default: a value that is found
    is converted and validated; where nothing is found the default is taken as
    it is, without validation, or a missing key reported; and where the path
    leads through a value that is not a table there is an error even if the
    entry has a default. *)
Theorem entry_outcomes (T : ConfigValueType) (e : ConfigEntry T) (conf : Config) : valid_path (key e) →
  (∀ c error, from_conf T c ≠ Err (PathError error)) →
  match find (CTable (root conf)) (path_segments (key e)) with
  | Some c => read_or_default e conf = (v ← map_err (λ error, with_path error (key e)) (from_conf T c); entry_validate e v)
  | None =>
      if blocked (CTable (root conf)) (path_segments (key e))
      then ∃ k ty, read_or_default e conf = Err (PathError (InvalidKeyAccess (key e) k ty))
      else read_or_default e conf = ok_or (PathError (MissingKey (key e))) (default_value e)
  end.
Proof.
  intros Hp Hc. pose proof (select_spec conf (key e) Hp) as H. unfold lookup_spec in H. unfold read_or_default, read, entry_select.
  destruct (find _ _) as [c|].
  - rewrite H. cbn. specialize (Hc c). destruct (from_conf T c) as [v|[]|]; cbn; try done.
    + unfold entry_validate. destruct (validator e) as [f|]; [|done]. by destruct (f v).
    + by destruct path.
    + by destruct (Hc e0).
    + by destruct path.
  - destruct (blocked _ _); [destruct H as (k & ty & ->); by exists k, ty|]. rewrite H. cbn. by destruct (default_value e).
Qed.

(** ** Settings *)
Lemma read_no_panic {T} (e : ConfigEntry T) conf : (∀ c, from_conf T c ≠ Panic) → read e conf ≠ Panic.
Proof.
  intros Hc. unfold read. destruct (entry_select e conf) as [c p|k p]; cbn; [|done]. specialize (Hc c). destruct (from_conf T c) as [v|err|]; cbn; try done.
  unfold entry_validate. destruct (validator e) as [f|]; [|done]. by destruct (f v).
Qed.

Lemma read_or_default_valid {T} (e : ConfigEntry T) conf (P : Value T → Prop) : (∀ c, from_conf T c ≠ Panic) →
  (∀ v, default_value e = Some v → P v) → (∀ v, entry_validate e v = Ok v → P v) →
  match read_or_default e conf with Ok v => P v | Err _ => True | Panic => False end.
Proof.
  intros Hc Hd Hv. pose proof (read_no_panic e conf Hc) as Hn. unfold read_or_default. destruct (read e conf) as [v|[]|] eqn:Hr; try done.
  - apply Hv. unfold read in Hr. apply bind_Ok in Hr as (c & _ & Hr). apply bind_Ok in Hr as (w & _ & Hr).
    assert (w = v) as ->; [|done]. unfold entry_validate in Hr. destruct (validator e) as [f|]; [destruct (f w)|]; congruence.
  - destruct (is_missing e0); [|done]. destruct (default_value e) eqn:E; [by apply Hd|done].
Qed.

Lemma condition_valid {A} text (b : A → bool) v : condition text b v = inl () → b v = true.
Proof. unfold condition. by destruct (b v). Qed.

Lemma ok_or_no_panic {E A} (err : E) (o : option A) : ok_or err o ≠ Panic.
Proof. by destruct o. Qed.

Lemma usize_no_panic c : from_conf UsizeValue c ≠ Panic.
Proof. cbn. destruct (value_as_i64 c); cbn; [|done]. by case_decide. Qed.

(** The four entries that are validated. *)
Lemma throughput_legal conf : match read_or_default THROUGHPUT conf with Ok v => (0 < v)%Z | Err _ => True | Panic => False end.
Proof.
  apply read_or_default_valid; [apply usize_no_panic|by intros v [=<-]|]. intros v. unfold entry_validate. cbn [validator THROUGHPUT].
  destruct (condition _ _ _) as [[]|] eqn:H; [|done]. intros _. by apply condition_valid, bool_decide_eq_true in H.
Qed.
Lemma threads_legal conf : match read_or_default THREADS conf with Ok v => (0 < v)%Z | Err _ => True | Panic => False end.
Proof.
  apply read_or_default_valid; [apply usize_no_panic|intros v [=<-]; lia|]. intros v. unfold entry_validate. cbn [validator THREADS].
  destruct (condition _ _ _) as [[]|] eqn:H; [|done]. intros _. by apply condition_valid, bool_decide_eq_true in H.
Qed.
Lemma priority_legal conf : match read_or_default MESSAGE_PRIORITY conf with Ok v => f32_open_unit v = true | Err _ => True | Panic => False end.
Proof.
  apply read_or_default_valid; [intros c; apply ok_or_no_panic|intros v [=<-]; apply f32_half_unit|]. intros v. unfold entry_validate. cbn [validator MESSAGE_PRIORITY].
  destruct (condition _ _ _) as [[]|] eqn:H; [|done]. intros _. by apply condition_valid in H.
Qed.
Lemma scheduler_legal conf : match read_or_default SCHEDULER conf with Ok v => v ∈ scheduler_names | Err _ => True | Panic => False end.
Proof.
  apply read_or_default_valid; [intros c; apply ok_or_no_panic|intros v [=<-]; by left|]. intros v. unfold entry_validate. cbn [validator SCHEDULER].
  destruct (condition _ _ _) as [[]|] eqn:H; [|done]. intros _. by apply condition_valid, bool_decide_eq_true in H.
Qed.

Lemma label_no_panic conf : read_or_default LABEL conf ≠ Panic.
Proof.
  pose proof (read_or_default_valid LABEL conf (λ _, True) ltac:(intros c; apply ok_or_no_panic) ltac:(done) ltac:(done)) as H. by destruct (read_or_default LABEL conf).
Qed.

Lemma source_load_no_panic s : source_load s ≠ Panic.
Proof.
  assert (∀ t, parse_config_str t ≠ Panic) as Hp by (intros t; unfold parse_config_str; by destruct (toml_from_str t)).
  destruct s as [p|t|k v]; cbn; [|apply Hp|done]. unfold parse_config_file. destruct (read_to_string p); cbn; [apply Hp|done].
Qed.

Lemma load_no_panic conf : load_config conf ≠ Panic.
Proof.
  unfold load_config. generalize new_config. induction (config_sources conf) as [|s l IH]; intros c; cbn; [done|].
  pose proof (source_load_no_panic s). destruct (source_load s); cbn; [apply IH|done|done].
Qed.

(** The scheduler that a name stands for. *)
Definition builder_for (user : SchedulerBuilder) (threads : Z) (name : string) : SchedulerBuilder :=
  if decide (name = "auto") then pool_for threads
  else if decide (name = "small") then SmallPool
  else if decide (name = "large") then LargePool
  else if decide (name = "dynamic") then DynPool
  else user.

Lemma choose_builder {E} user n name : name ∈ scheduler_names → choose_scheduler (E := E) user n name = Ok (builder_for user n name).
Proof.
  unfold scheduler_names. intros H. do 5 (apply elem_of_cons in H as [->|H]; [done|]). by apply not_elem_of_nil in H.
Qed.

Lemma bind_no_panic {E A B} (m : res E A) (f : A → res E B) : m ≠ Panic → (∀ a, m = Ok a → f a ≠ Panic) → m ≫= f ≠ Panic.
Proof. intros Hm Hf. destruct m as [a| |]; [by apply Hf|done|done]. Qed.

Lemma legal_no_panic {E A} (P : A → Prop) (m : res E A) : match m with Ok v => P v | Err _ => True | Panic => False end → m ≠ Panic.
Proof. by destruct m. Qed.
Lemma legal_ok {E A} (P : A → Prop) (m : res E A) v : match m with Ok v => P v | Err _ => True | Panic => False end → m = Ok v → P v.
Proof. by intros H ->. Qed.

Lemma override_no_panic c config : override_from_config c config ≠ Panic.
Proof.
  unfold override_from_config. apply bind_no_panic; [apply label_no_panic|intros v1 _].
  apply bind_no_panic; [eapply legal_no_panic, throughput_legal|intros v2 _].
  apply bind_no_panic; [eapply legal_no_panic, priority_legal|intros v3 _].
  apply bind_no_panic; [eapply legal_no_panic, threads_legal|intros v4 _].
  apply bind_no_panic; [eapply legal_no_panic, scheduler_legal|intros v5 H5].
  pose proof (legal_ok _ _ v5 (scheduler_legal config) H5) as H. apply bind_no_panic; [by rewrite choose_builder|done].
Qed.

(** C40: configuring a system from any sources ends in an error or in legal
    settings, never in a panic: the settings are those of the entries or their
    defaults, throughput and number of threads are positive, the message
    priority lies strictly between zero and one, and the scheduler is the one
    named, of the user only where the name is custom. *)
Theorem settings_legal (conf : KompactConfig) :
  match configure conf with
  | Ok (config, c) =>
      load_config conf = Ok config
      ∧ read_or_default LABEL config = Ok (label c)
      ∧ (read_or_default THROUGHPUT config = Ok (throughput c) ∧ 0 < throughput c)%Z
      ∧ (read_or_default MESSAGE_PRIORITY config = Ok (msg_priority c) ∧ f32_open_unit (msg_priority c) = true)
      ∧ (read_or_default THREADS config = Ok (threads c) ∧ 0 < threads c)%Z
      ∧ ∃ name, read_or_default SCHEDULER config = Ok name ∧ name ∈ scheduler_names
        ∧ scheduler_builder c = builder_for (scheduler_builder conf) (threads c) name
  | Err _ => True
  | Panic => False
  end.
Proof.
  unfold configure. pose proof (load_no_panic conf) as Hl. destruct (load_config conf) as [config| |]; [|done|done].
  pose proof (override_no_panic conf config) as Hn. cbn [map_err mbind res_bind].
  destruct (override_from_config conf config) as [c| |] eqn:Ho; [|done|done]. cbn [map_err]. unfold override_from_config in Ho.
  apply bind_Ok in Ho as (v1 & E1 & Ho). apply bind_Ok in Ho as (v2 & E2 & Ho). apply bind_Ok in Ho as (v3 & E3 & Ho).
  apply bind_Ok in Ho as (v4 & E4 & Ho). apply bind_Ok in Ho as (v5 & E5 & Ho). apply bind_Ok in Ho as (b & Hb & Ho).
  pose proof (legal_ok _ _ _ (scheduler_legal config) E5) as H5. rewrite choose_builder in Hb by done.
  injection Hb as <-. injection Ho as <-. split; [done|]. split; [done|].
  split; [split; [done|by apply (legal_ok _ _ _ (throughput_legal config))]|].
  split; [split; [done|by apply (legal_ok _ _ _ (priority_legal config))]|].
  split; [split; [done|by apply (legal_ok _ _ _ (threads_legal config))]|].
  by exists v5.
Qed.
End System.
End Typed.

(** ** TOML values *)
Fixpoint value_size (v : ConfigValue) : nat :=
  match v with
  | CArray values => S (sum_list_with value_size values)
  | CTable values => S (map_fold (λ _ v n, value_size v + n) 0 values)
  | _ => 1
  end.

Lemma table_size (t : gmap string ConfigValue) k v : t !! k = Some v → value_size v < value_size (CTable t).
Proof.
  intros Hk. cbn. rewrite (map_fold_delete_L _ _ k v t); [lia| |done]. intros; lia.
Qed.

Lemma array_size l v : v ∈ l → value_size v < value_size (CArray l).
Proof. intros Hv. cbn. induction Hv; cbn; lia. Qed.

(** The values of a document survive the conversion to TOML values. *)
Lemma toml_round_trip v : from_toml (to_toml_value v) = v.
Proof.
  induction (Nat.lt_wf_0_projected value_size v) as [v _ IH]. destruct v as [| | | | |l|t]; cbn; try done; f_equal.
  - rewrite <-list_fmap_compose. rewrite <-(list_fmap_id l) at 2. apply list_fmap_ext. intros i x Hx. apply IH, array_size.
    by eapply list_elem_of_lookup_2.
  - apply map_eq. intros k. rewrite !lookup_fmap. destruct (t !! k) as [x|] eqn:Hx; cbn; [|done]. f_equal. by eapply IH, table_size.
Qed.
End Config.

(** ** An instance

    Numbers with three decimals for floating-point numbers, and the plain
    notations for sizes and durations. *)
Fixpoint take_before (suffix s : string) : option string :=
  if decide (s = suffix) then Some ""
  else match s with "" => None | String a s => String a <$> take_before suffix s end.

Lemma length_string_app s t : String.length (s +:+ t) = String.length s + String.length t.
Proof. induction s as [|a s IH]; [done|]. rewrite string_app_cons. cbn. by rewrite IH. Qed.

Lemma take_before_app suffix s : take_before suffix (s +:+ suffix) = Some s.
Proof.
  induction s as [|a s IH].
  - change ("" +:+ suffix) with suffix. destruct suffix; cbn; by rewrite decide_True.
  - rewrite string_app_cons. cbn [take_before]. rewrite decide_False; [by rewrite IH|].
    intros H. apply (f_equal String.length) in H. cbn in H. rewrite length_string_app in H. lia.
Qed.

Definition parse_decimal (suffix s : string) : option N :=
  d ← take_before suffix s ≫= NilEmpty.uint_of_string; Some (N.of_uint d).
Lemma parse_decimal_inverse suffix n : parse_decimal suffix (decimal n +:+ suffix) = Some n.
Proof. unfold parse_decimal, decimal. rewrite take_before_app. cbn. rewrite NilEmpty.usu. cbn. by rewrite DecimalN.Unsigned.of_to. Qed.

#[program] Definition milli_extern : ConfigExtern := {|
  F64 := Z; F32 := Z; Datetime := Z;
  f64_of_i64 := λ z, (1000 * z)%Z; f32_of_f64 := id; f64_of_f32 := id;
  f32_open_unit := λ v, bool_decide (0 < v < 1000)%Z; f32_half := 500%Z; f32_zero := 0%Z;
  parse_bytes := parse_decimal "B"; parse_duration := parse_decimal "ns"; format_duration := λ d, decimal d +:+ "ns";
|}.
Next Obligation. done. Qed.
Next Obligation. done. Qed.
Next Obligation. intros n _. apply parse_decimal_inverse. Qed.
Next Obligation. intros d. apply parse_decimal_inverse. Qed.

(** A document with one table, and a system that sets its number of threads. *)
Definition example_document : Config (X := milli_extern) :=
  mkConfig {[ "kompact" := CTable {[ "runtime" := CTable {[ "threads" := CInteger 4; "label" := CString "test" ]} ]} ]}.
Definition example_toml (s : string) : gmap string (TomlValue (X := milli_extern)) + () :=
  inl {[ "kompact" := TTable {[ "runtime" := TTable {[ "threads" := TInteger 4; "label" := TString s ]} ]} ]}.
Definition example_builder : KompactConfig (X := milli_extern) := load_config_str default_kompact_config "test".
Definition no_debug (_ : ConfigValue (X := milli_extern)) : string := "".
Definition example_threads := THREADS (X := milli_extern) no_debug 8 (λ _, "").

Definition found_integer (r : res (ConfigError) (ConfigValue (X := milli_extern))) : option Z :=
  match r with Ok (CInteger v) => Some v | _ => None end.
Definition found_string (r : res (ConfigError) (ConfigValue (X := milli_extern))) : option string :=
  match r with Ok (CString v) => Some v | _ => None end.
Abbreviation example_load conf := (load_config (λ _, inr ()) example_toml conf).

Ltac solve_valid_path := unfold valid_path; apply (bool_decide_unpack _); vm_compute; reflexivity.

Lemma select_follows_gets_witness :
  valid_path "kompact.runtime.threads"
  ∧ found_integer (lookup_value (select example_document "kompact.runtime.threads")) = Some 4%Z
  ∧ found_integer (lookup_value (foldl lookup_get (config_get example_document "kompact") ["runtime"; "threads"])) = Some 4%Z.
Proof.
  assert (valid_path "kompact.runtime.threads") as Hp by solve_valid_path.
  assert (found_integer (lookup_value (select example_document "kompact.runtime.threads")) = Some 4%Z) as Hv by (vm_compute; reflexivity).
  destruct (select_follows_gets (X := milli_extern) example_document "kompact.runtime.threads" Hp) as (first & rest & Hs & Hl & _).
  split; [exact Hp|]. split; [exact Hv|]. vm_compute in Hs. injection Hs as <- <-. rewrite <-Hl. exact Hv.
Defined.

Lemma last_setting_wins_witness :
  ∃ conf after, set_config_value example_builder example_threads 2%Z = Ok conf
  ∧ example_load conf = Ok after ∧ read example_threads after = Ok 2%Z
  ∧ lookup_value (select after "kompact.runtime.label") = Ok (CString "test").
Proof.
  assert (match example_load example_builder with Ok c => found_string (lookup_value (select c "kompact.runtime.label")) | _ => None end = Some "test") as Hl
    by (vm_compute; reflexivity).
  destruct (example_load example_builder) as [before| |] eqn:Hload; [|discriminate Hl..].
  destruct (last_setting_wins (X := milli_extern) (λ _, inr ()) example_toml (UsizeValue no_debug) (λ v, 0 ≤ v ≤ I64_MAX)%Z
    example_threads 2%Z example_builder before ltac:(unfold I64_MAX; lia) ltac:(solve_valid_path) Hload)
    as (conf & after & H1 & H2 & H3 & H4).
  exists conf, after. split; [exact H1|]. split; [exact H2|]. split; [rewrite H3; reflexivity|].
  apply H4; [solve_valid_path| |].
  - split; intros [k Hk]; vm_compute in Hk; discriminate Hk.
  - destruct (lookup_value (select before "kompact.runtime.label")) as [[]| |]; try discriminate Hl. injection Hl as ->. reflexivity.
Defined.

Lemma entry_outcomes_witness :
  ∃ k ty, read_or_default example_threads (mkConfig {[ "kompact" := CInteger 1 ]})
  = Err (PathError (InvalidKeyAccess "kompact.runtime.threads" k ty)).
Proof.
  pose proof (entry_outcomes (X := milli_extern) (UsizeValue no_debug) example_threads (mkConfig {[ "kompact" := CInteger 1 ]})
    ltac:(solve_valid_path) ltac:(intros c error; cbn; destruct (value_as_i64 c); cbn; [case_decide|]; discriminate)) as H.
  exact H.
Defined.
