(* ===== verification/Startup.v ===== *)
(** * Waiting for a system to come up

    Model of the end of [KompactConfig::build]: [PendingKompactSystem] in
    [core/src/runtime/system.rs], which waits for the dead letter box and the dispatcher
    to announce that they are ready, and of [KompactError] ([core/src/runtime/mod.rs]).

    What happens in the meantime is given by what a turn of the waiting loop finds: the
    state of the runtime when the turn begins, and what has become of the two promises when
    its interval ends.  The runtime stays poisoned and a promise is kept or dropped once
    and for all. *)

From S2P Require Import Prelude Extern Promises Config.

Section KompactError.
Context {ConfigLoadingError ConfigError Error : Type}.

Inductive KompactError :=
| Poisoned
| KConfigLoadingError (e : ConfigLoadingError)
| KConfigError (e : ConfigError)
| Other (e : Error).
End KompactError.
Arguments KompactError ConfigLoadingError ConfigError Error : clear implicits.

(** What a promise has come to. *)
Inductive Ready := NotYet | Kept | Dropped.

Record Turn := mkTurn { is_poisoned : bool; deadletter_ready : Ready; dispatcher_ready : Ready }.

Section Startup.
Context {ConfigLoadingError ConfigError : Type}.
Context (turn : nat → Turn).

Abbreviation error := (KompactError ConfigLoadingError ConfigError PromiseDropped).

(** [await_component_ready], from turn [t] on: the result and the next turn, or [None]
    when it still waits after [fuel] turns. *)
Fixpoint await_component_ready (ready : Turn → Ready) (fuel t : nat) : option (res error () * nat) :=
  match fuel with
  | O => None
  | S fuel =>
      if is_poisoned (turn t) then Some (Err Poisoned, t)
      else match ready (turn t) with
           | Kept => Some (Ok (), S t)
           | Dropped => Some (Err (Other MkPromiseDropped), S t)
           | NotYet => await_component_ready ready fuel (S t)
           end
  end.

(** [await_ready]; a promise that was kept is found at once by the next turn. *)
Definition await_ready (fuel : nat) : option (res error ()) :=
  match await_component_ready deadletter_ready fuel 0 with
  | Some (Ok (), t) => fst <$> await_component_ready dispatcher_ready fuel t
  | Some (Err e, _) => Some (Err e)
  | Some (Panic, _) => Some Panic
  | None => None
  end.

(** ** What waiting comes to *)
Definition decided (r : Ready) : Prop := r ≠ NotYet.

Hypothesis poisoned_stays : ∀ t, is_poisoned (turn t) = true → is_poisoned (turn (S t)) = true.
Hypothesis deadletter_stays : ∀ t, decided (deadletter_ready (turn t)) → deadletter_ready (turn (S t)) = deadletter_ready (turn t).
Hypothesis dispatcher_stays : ∀ t, decided (dispatcher_ready (turn t)) → dispatcher_ready (turn (S t)) = dispatcher_ready (turn t).

(** The turn at which the wait for one promise ends. *)
Definition ends (ready : Turn → Ready) (t : nat) : Prop := is_poisoned (turn t) = true ∨ decided (ready (turn t)).
#[local] Instance ends_dec ready t : Decision (ends ready t).
Proof. unfold ends, decided. destruct (is_poisoned (turn t)), (ready (turn t)); solve [left; auto|right; naive_solver]. Defined.

Definition verdict (ready : Turn → Ready) (t : nat) : res error () :=
  if is_poisoned (turn t) then Err Poisoned
  else if ready (turn t) is Dropped then Err (Other MkPromiseDropped) else Ok ().

Lemma await_component_spec ready fuel t :
  match await_component_ready ready fuel t with
  | Some (r, t') => ∃ k, t ≤ k < t + fuel ∧ ends ready k ∧ (∀ j, t ≤ j < k → ¬ ends ready j)
      ∧ r = verdict ready k ∧ (r = Ok () → t' = S k ∧ ready (turn k) = Kept)
  | None => ∀ k, t ≤ k < t + fuel → ¬ ends ready k
  end.
Proof.
  revert t. induction fuel as [|fuel IH]; intros t; cbn [await_component_ready]; [lia|].
  destruct (is_poisoned (turn t)) eqn:Hp.
  { exists t. unfold ends, verdict. rewrite Hp. split_and!; solve [lia|done|by left]. }
  destruct (ready (turn t)) eqn:Hr.
  2,3: exists t; unfold ends, decided, verdict; rewrite Hp, Hr; split_and!; solve [lia|done|by right].
  assert (¬ ends ready t) as Hne by (unfold ends, decided; rewrite Hp, Hr; naive_solver).
  specialize (IH (S t)). destruct (await_component_ready ready fuel (S t)) as [[r t']|].
  - destruct IH as (k & Hk & He & Hj & Hv & Ho). exists k. split_and!; try done; try lia.
    intros j Hjk. destruct (decide (j = t)) as [-> |]; [done|]. apply Hj. lia.
  - intros k Hk. destruct (decide (k = t)) as [-> |]; [done|]. apply IH. lia.
Qed.

Lemma stays (P : nat → Prop) : (∀ t, P t → P (S t)) → ∀ t t', t ≤ t' → P t → P t'.
Proof. intros Hs t t' Hle Ht. induction Hle; auto. Qed.

Lemma ends_stays ready : (∀ t, decided (ready (turn t)) → ready (turn (S t)) = ready (turn t)) →
  ∀ t t', t ≤ t' → ends ready t → ends ready t'.
Proof using poisoned_stays.
  intros Hr. apply stays. intros t [H|H]; [left; auto|right]. unfold decided in *. by rewrite Hr.
Qed.

Lemma kept_stays ready : (∀ t, decided (ready (turn t)) → ready (turn (S t)) = ready (turn t)) →
  ∀ t t', t ≤ t' → ready (turn t) = Kept → ready (turn t') = Kept.
Proof. intros Hr. apply stays. intros t Ht. rewrite Hr; [done|]. unfold decided. congruence. Qed.

(** Building a system ends as soon as the system is poisoned or both components have kept
    or dropped their promise, and what it returns is what happened: the system when both
    announced that they are ready and the runtime was not poisoned, an error when a promise
    was dropped or the runtime is poisoned. *)
Theorem startup_outcome (T : nat) :
  (ends deadletter_ready T ∧ ends dispatcher_ready T → ∃ r, await_ready (S (S T)) = Some r)
  ∧ ∀ fuel r, await_ready fuel = Some r →
      match r with
      | Ok _ => ∃ t, deadletter_ready (turn t) = Kept ∧ dispatcher_ready (turn t) = Kept ∧ is_poisoned (turn t) = false
      | Err Poisoned => ∃ t, is_poisoned (turn t) = true
      | Err (Other _) => ∃ t, deadletter_ready (turn t) = Dropped ∨ dispatcher_ready (turn t) = Dropped
      | _ => False
      end.
Proof using All.
  unfold await_ready. split.
  - intros [H1 H2]. pose proof (await_component_spec deadletter_ready (S (S T)) 0) as Ha.
    destruct (await_component_ready deadletter_ready (S (S T)) 0) as [[[[]|e|] t]|]; [|eauto..|].
    + destruct Ha as (k & Hk & He & Hj & _ & Ho). destruct (Ho eq_refl) as [-> _].
      assert (k ≤ T) as HkT by (destruct (decide (k ≤ T)); [done|]; exfalso; apply (Hj T); [lia|done]).
      pose proof (await_component_spec dispatcher_ready (S (S T)) (S k)) as Hb.
      destruct (await_component_ready dispatcher_ready (S (S T)) (S k)) as [[r t']|]; [eauto|].
      exfalso. apply (Hb (S T)); [lia|]. apply (ends_stays _ dispatcher_stays T); [lia|done].
    + exfalso. apply (Ha T); [lia|done].
  - intros fuel r. pose proof (await_component_spec deadletter_ready fuel 0) as Ha.
    destruct (await_component_ready deadletter_ready fuel 0) as [[r1 t1]|]; [|done].
    destruct Ha as (k & Hk & He & Hj & Hv & Ho). destruct r1 as [[]|e|].
    + destruct (Ho eq_refl) as [-> Hkept].
      pose proof (await_component_spec dispatcher_ready fuel (S k)) as Hb.
      destruct (await_component_ready dispatcher_ready fuel (S k)) as [[r2 t2]|]; [|done]. intros [= <-].
      destruct Hb as (k2 & Hk2 & He2 & Hj2 & Hv2 & Ho2). unfold verdict in Hv2. cbn.
      destruct (is_poisoned (turn k2)) eqn:Hp; [subst r2; eauto|].
      destruct (dispatcher_ready (turn k2)) eqn:Hd; subst r2; [by destruct He2 as [He2|He2]; congruence| |eauto].
      exists k2. split_and!; try done. apply (kept_stays deadletter_ready deadletter_stays k); [lia|done].
    + intros [= <-]. unfold verdict in Hv. destruct (is_poisoned (turn k)) eqn:Hp; [injection Hv as ->; eauto|].
      destruct (deadletter_ready (turn k)) eqn:Hd; try done. injection Hv as ->. eauto.
    + unfold verdict in Hv. destruct (is_poisoned (turn k)); [done|]. by destruct (deadletter_ready (turn k)).
Qed.
End Startup.

(** ** Building a system *)
Section Build.
Context {X : ConfigExtern} (debug : ConfigValue → string) (default_runtime_label : string) (num_cpus : Z).
Context (text_usize : Z → string) (text_f32 : F32 → string) (text_scheduler : string → string).
Context {LoadingError : Type} (read_to_string : string → string + LoadingError).
Context (toml_from_str : string → gmap string TomlValue + LoadingError).

(** What [prepare_new] makes of the errors of the configuration. *)
Definition prepare (conf : KompactConfig) : res (KompactError LoadingError ConfigError PromiseDropped) () :=
  match configure debug default_runtime_label num_cpus text_usize text_f32 text_scheduler read_to_string toml_from_str conf with
  | Ok _ => Ok ()
  | Err (inl e) => Err (KConfigLoadingError e)
  | Err (inr e) => Err (KConfigError e)
  | Panic => Panic
  end.

(** [KompactSystem::build_from_config]. *)
Definition build_from_config (conf : KompactConfig) (turn : nat → Turn) (fuel : nat)
    : option (res (KompactError LoadingError ConfigError PromiseDropped) ()) :=
  match prepare conf with
  | Ok _ => await_ready turn fuel
  | Err e => Some (Err e)
  | Panic => Some Panic
  end.

(** Errors of the configuration are reported before anything is waited for. *)
Theorem bad_config_not_awaited (conf : KompactConfig) (turn : nat → Turn) (fuel : nat) e :
  configure debug default_runtime_label num_cpus text_usize text_f32 text_scheduler read_to_string toml_from_str conf = Err e →
  build_from_config conf turn fuel
  = Some (Err (match e with inl e => KConfigLoadingError e | inr e => KConfigError e end)).
Proof. intros He. unfold build_from_config, prepare. rewrite He. by destruct e. Qed.
End Build.

(** A dispatcher that is ready before the dead letter box, one that panics while it starts, and
    one that neither keeps nor drops its promise. *)
Definition example_turn (poison : bool) (disp : Ready) (t : nat) : Turn :=
  mkTurn (poison && (3 <=? t)) (if t <=? 1 then NotYet else Kept) disp.
Example startups :
  await_ready (ConfigLoadingError := ()) (ConfigError := ()) (example_turn false Kept) 9 = Some (Ok ())
  ∧ await_ready (ConfigLoadingError := ()) (ConfigError := ()) (example_turn true NotYet) 9 = Some (Err Poisoned)
  ∧ await_ready (ConfigLoadingError := ()) (ConfigError := ()) (example_turn false NotYet) 9 = None.
Proof. done. Qed.
