(* ===== verification/BlockList.v ===== *)
(** * Block list of the network thread

    Model of [BlockList] ([network/src/transport/network_thread.rs]): two sets of
    blocked networks, one per address family, and explicit rules for single
    socket addresses.  The sets of networks come from the crates [ipnet] and
    [iprange]; what the sources rely on is stated as a class. *)

From S2P Require Import Prelude Extern.

(** A network holds addresses; a range is a set of addresses that grows and
    shrinks by networks; [to_network] is the network of a single address. *)
Class IpNetApi := {
  Net : Type;
  NetRange : Type;
  to_network : Z → Net;
  net_contains : Net → Z → bool;
  range_empty : NetRange;
  range_add : Net → NetRange → NetRange;
  range_remove : Net → NetRange → NetRange;
  range_contains : NetRange → Net → bool;
  to_network_contains : ∀ a b, net_contains (to_network a) b = bool_decide (a = b);
  range_contains_empty : ∀ a, range_contains range_empty (to_network a) = false;
  range_contains_add : ∀ n r a,
    range_contains (range_add n r) (to_network a) = net_contains n a || range_contains r (to_network a);
  range_contains_remove : ∀ n r a,
    range_contains (range_remove n r) (to_network a) = negb (net_contains n a) && range_contains r (to_network a);
}.

(** Networks as an address and the number of host bits, ranges as the operations
    that made them, newest first. *)
Definition prefix_contains (n : Z * Z) (a : Z) : bool := bool_decide (Z.shiftr a n.2 = Z.shiftr n.1 n.2).
Fixpoint ops_contain (r : list (bool * (Z * Z))) (a : Z) : bool :=
  match r with
  | [] => false
  | (true, n) :: r => prefix_contains n a || ops_contain r a
  | (false, n) :: r => negb (prefix_contains n a) && ops_contain r a
  end.

#[global, program] Instance prefix_nets : IpNetApi := {
  Net := Z * Z;
  NetRange := list (bool * (Z * Z));
  to_network := λ a, (a, 0%Z);
  net_contains := prefix_contains;
  range_empty := [];
  range_add := λ n r, (true, n) :: r;
  range_remove := λ n r, (false, n) :: r;
  range_contains := λ r n, ops_contain r n.1;
}.
Next Obligation.
  intros a b. unfold prefix_contains. cbn. rewrite !Z.shiftr_0_r. apply bool_decide_ext. naive_solver.
Qed.
Next Obligation. done. Qed.
Next Obligation. done. Qed.
Next Obligation. done. Qed.

Section BlockList.
Context {N : IpNetApi}.

Inductive IpNet := NetV4 (net : Net) | NetV6 (net : Net).

(** [IpNet::contains]. *)
Definition ip_net_contains (n : IpNet) (ip : IpAddr) : bool :=
  match n, ip with
  | NetV4 n, V4 a | NetV6 n, V6 a => net_contains n a
  | _, _ => false
  end.

Record BlockList := mkBlockList {
  ipv4_set : NetRange;
  ipv6_set : NetRange;
  blocked_socket_addr : gset SocketAddr;
  allowed_socket_addr : gset SocketAddr;
}.

Definition default_block_list : BlockList := mkBlockList range_empty range_empty ∅ ∅.

Definition ip_sets_contains_ip_addr (b : BlockList) (ip : IpAddr) : bool :=
  match ip with
  | V4 addr => range_contains (ipv4_set b) (to_network addr)
  | V6 addr => range_contains (ipv6_set b) (to_network addr)
  end.

Definition set_ipv4 r (b : BlockList) := mkBlockList r (ipv6_set b) (blocked_socket_addr b) (allowed_socket_addr b).
Definition set_ipv6 r (b : BlockList) := mkBlockList (ipv4_set b) r (blocked_socket_addr b) (allowed_socket_addr b).

Definition list_block_ip_addr (b : BlockList) (ip : IpAddr) : BlockList * bool :=
  match ip with
  | V4 addr =>
      if range_contains (ipv4_set b) (to_network addr) then (b, false)
      else (set_ipv4 (range_add (to_network addr) (ipv4_set b)) b, true)
  | V6 addr =>
      if range_contains (ipv6_set b) (to_network addr) then (b, false)
      else (set_ipv6 (range_add (to_network addr) (ipv6_set b)) b, true)
  end.

Definition list_block_ip_net (b : BlockList) (n : IpNet) : BlockList :=
  match n with
  | NetV4 net => set_ipv4 (range_add net (ipv4_set b)) b
  | NetV6 net => set_ipv6 (range_add net (ipv6_set b)) b
  end.

Definition list_allow_ip_net (b : BlockList) (n : IpNet) : BlockList :=
  match n with
  | NetV4 net => set_ipv4 (range_remove net (ipv4_set b)) b
  | NetV6 net => set_ipv6 (range_remove net (ipv6_set b)) b
  end.

Definition list_allow_ip_addr (b : BlockList) (ip : IpAddr) : BlockList * bool :=
  match ip with
  | V4 addr =>
      if range_contains (ipv4_set b) (to_network addr)
      then (set_ipv4 (range_remove (to_network addr) (ipv4_set b)) b, true) else (b, false)
  | V6 addr =>
      if range_contains (ipv6_set b) (to_network addr)
      then (set_ipv6 (range_remove (to_network addr) (ipv6_set b)) b, true) else (b, false)
  end.

(** [HashSet::remove] and [HashSet::insert] report whether the set changed; the
    second is not reached when the first one succeeds. *)
Definition list_block_socket_addr (b : BlockList) (s : SocketAddr) : BlockList * bool :=
  if decide (s ∈ allowed_socket_addr b)
  then (mkBlockList (ipv4_set b) (ipv6_set b) (blocked_socket_addr b) (allowed_socket_addr b ∖ {[s]}), true)
  else (mkBlockList (ipv4_set b) (ipv6_set b) ({[s]} ∪ blocked_socket_addr b) (allowed_socket_addr b),
        bool_decide (s ∉ blocked_socket_addr b)).

Definition list_allow_socket_addr (b : BlockList) (s : SocketAddr) : BlockList * bool :=
  if decide (s ∈ blocked_socket_addr b)
  then (mkBlockList (ipv4_set b) (ipv6_set b) (blocked_socket_addr b ∖ {[s]}) (allowed_socket_addr b), true)
  else (mkBlockList (ipv4_set b) (ipv6_set b) (blocked_socket_addr b) ({[s]} ∪ allowed_socket_addr b),
        bool_decide (s ∉ allowed_socket_addr b)).

Definition ip_addr_is_blocked (b : BlockList) (ip : IpAddr) : bool :=
  ip_sets_contains_ip_addr b ip && negb (existsb (λ s, bool_decide (sa_ip s = ip)) (elements (allowed_socket_addr b))).

Definition socket_addr_is_blocked (b : BlockList) (s : SocketAddr) : bool :=
  if decide (s ∈ allowed_socket_addr b) then false
  else if decide (s ∈ blocked_socket_addr b) then true
  else ip_sets_contains_ip_addr b (sa_ip s).

(** ** What the rules mean

    The rule for a socket address: an explicit one, or that of its network. *)
Inductive Rule := RAllowed | RBlocked | RByIp.

Definition rule (b : BlockList) (s : SocketAddr) : Rule :=
  if decide (s ∈ allowed_socket_addr b) then RAllowed
  else if decide (s ∈ blocked_socket_addr b) then RBlocked else RByIp.

(** No address has two explicit rules. *)
Definition rules_ok (b : BlockList) : Prop := blocked_socket_addr b ## allowed_socket_addr b.

Inductive BlockOp :=
| OBlockIp (ip : IpAddr) | OAllowIp (ip : IpAddr) | OBlockNet (n : IpNet) | OAllowNet (n : IpNet)
| OBlockSocket (s : SocketAddr) | OAllowSocket (s : SocketAddr).

Definition block_op (b : BlockList) (o : BlockOp) : BlockList :=
  match o with
  | OBlockIp ip => (list_block_ip_addr b ip).1
  | OAllowIp ip => (list_allow_ip_addr b ip).1
  | OBlockNet n => list_block_ip_net b n
  | OAllowNet n => list_allow_ip_net b n
  | OBlockSocket s => (list_block_socket_addr b s).1
  | OAllowSocket s => (list_allow_socket_addr b s).1
  end.

(** The specification, from [docs/src/distributed/networkstatusport.md].  Requests for addresses and networks are
    applied in the order in which they arrive and make one set of blocked addresses. *)
Definition spec_ip (o : BlockOp) (ip : IpAddr) (blocked : bool) : bool :=
  match o with
  | OBlockIp ip' => bool_decide (ip = ip') || blocked
  | OAllowIp ip' => bool_decide (ip ≠ ip') && blocked
  | OBlockNet n => ip_net_contains n ip || blocked
  | OAllowNet n => negb (ip_net_contains n ip) && blocked
  | _ => blocked
  end.

(** A request for a socket address decides for it, whatever its network says and whatever was requested before:
    blocking it blocks it, and allowing it is how to undo that and takes precedence over blocked networks. *)
Definition documented_rule (s : SocketAddr) (r : Rule) (o : BlockOp) : Rule :=
  match o with
  | OBlockSocket s' => if decide (s = s') then RBlocked else r
  | OAllowSocket s' => if decide (s = s') then RAllowed else r
  | _ => r
  end.

Definition verdict (r : Rule) (network_blocked : bool) : bool :=
  match r with RAllowed => false | RBlocked => true | RByIp => network_blocked end.

(** What the code does with the explicit rule: a request against the rule in force takes that rule back and puts
    none in its place. *)
Definition kept_rule (s : SocketAddr) (r : Rule) (o : BlockOp) : Rule :=
  match o with
  | OBlockSocket s' => if decide (s = s') then match r with RAllowed => RByIp | _ => RBlocked end else r
  | OAllowSocket s' => if decide (s = s') then match r with RBlocked => RByIp | _ => RAllowed end else r
  | _ => r
  end.

Lemma blocked_by_rule b s : socket_addr_is_blocked b s = verdict (rule b s) (ip_sets_contains_ip_addr b (sa_ip s)).
Proof. unfold socket_addr_is_blocked, rule, verdict. by repeat case_decide. Qed.

Lemma sets_step b o ip : ip_sets_contains_ip_addr (block_op b o) ip = spec_ip o ip (ip_sets_contains_ip_addr b ip).
Proof.
  destruct o as [[a|a]|[a|a]|[n|n]|[n|n]|s|s]; cbn [block_op]; unfold list_block_ip_addr, list_allow_ip_addr,
    list_block_socket_addr, list_allow_socket_addr, list_block_ip_net, list_allow_ip_net.
  all: try (case_decide; by destruct ip).
  all: destruct ip as [i|i]; cbn; try (case_match eqn:Hc; cbn);
    rewrite ?range_contains_add, ?range_contains_remove, ?to_network_contains; try done.
  all: repeat case_bool_decide; simplify_eq/=; by rewrite ?Hc, ?orb_true_r.
Qed.

Lemma rules_step b o s : rules_ok b → rule (block_op b o) s = kept_rule s (rule b s) o ∧ rules_ok (block_op b o).
Proof.
  unfold rules_ok, rule. intros Hd. destruct o as [[a|a]|[a|a]|[n|n]|[n|n]|s'|s']; cbn [block_op kept_rule];
    unfold list_block_ip_addr, list_allow_ip_addr; try done; try (destruct (range_contains _ _); done).
  - unfold list_block_socket_addr. destruct (decide (s' ∈ allowed_socket_addr b)) as [Ha|Ha]; cbn [fst blocked_socket_addr allowed_socket_addr]; split.
    2,4: set_solver.
    all: destruct (decide (s = s')) as [->|Hne]; repeat case_decide; set_solver.
  - unfold list_allow_socket_addr. destruct (decide (s' ∈ blocked_socket_addr b)) as [Ha|Ha]; cbn [fst blocked_socket_addr allowed_socket_addr]; split.
    2,4: set_solver.
    all: destruct (decide (s = s')) as [->|Hne]; repeat case_decide; set_solver.
Qed.

Definition block_ops (b : BlockList) (os : list BlockOp) : BlockList := foldl block_op b os.

(** The block list after any requests: the networks are those of the specification, the explicit rule is the one
    that the code keeps. *)
Lemma block_ops_follow os s :
  rule (block_ops default_block_list os) s = foldl (kept_rule s) RByIp os
  ∧ ip_sets_contains_ip_addr (block_ops default_block_list os) (sa_ip s) = foldl (λ b o, spec_ip o (sa_ip s) b) false os.
Proof.
  cut (∀ b, rules_ok b →
    rule (block_ops b os) s = foldl (kept_rule s) (rule b s) os
    ∧ ip_sets_contains_ip_addr (block_ops b os) (sa_ip s)
      = foldl (λ b o, spec_ip o (sa_ip s) b) (ip_sets_contains_ip_addr b (sa_ip s)) os).
  { intros H. destruct (H default_block_list) as [-> ->]; [by apply disjoint_empty_l|].
    unfold rule. cbn. rewrite !decide_False by set_solver. destruct (sa_ip s); cbn; by rewrite range_contains_empty. }
  induction os as [|o os IH]; intros b Hb; [done|]. unfold block_ops in *. cbn [foldl].
  destruct (rules_step b o s Hb) as [Hr Hb']. destruct (IH _ Hb') as [-> ->]. by rewrite Hr, sets_step.
Qed.

(** The rule that is kept is the documented one, or none; as long as the requests for an address are all of one
    kind it is the documented one. *)
Lemma kept_or_none os s :
  (foldl (kept_rule s) RByIp os = foldl (documented_rule s) RByIp os ∨ foldl (kept_rule s) RByIp os = RByIp)
  ∧ (foldl (documented_rule s) RByIp os = RBlocked → OBlockSocket s ∈ os)
  ∧ (foldl (documented_rule s) RByIp os = RAllowed → OAllowSocket s ∈ os).
Proof.
  induction os as [|o os (IH1 & IH2 & IH3)] using rev_ind; [split; [by left|done]|].
  rewrite !foldl_app. cbn [foldl]. rewrite !elem_of_app, !list_elem_of_singleton.
  destruct o; cbn [kept_rule documented_rule]; try case_decide; subst; try naive_solver.
  all: destruct (foldl (kept_rule _) _ _); naive_solver.
Qed.

(** Networks need not be comparable for a search of the requests that name an address. *)
#[local] Instance blocks_socket_dec (os : list BlockOp) s : Decision (OBlockSocket s ∈ os).
Proof.
  induction os as [|o os [IH|IH]]; [right; by apply not_elem_of_nil|left; by apply list_elem_of_further|].
  destruct o as [| | | |s'|]; try (right; by intros [?|?]%elem_of_cons).
  destruct (decide (s = s')) as [->|]; [left; by apply list_elem_of_here|right; intros [?|?]%elem_of_cons; naive_solver].
Defined.

#[local] Instance allows_socket_dec (os : list BlockOp) s : Decision (OAllowSocket s ∈ os).
Proof.
  induction os as [|o os [IH|IH]]; [right; by apply not_elem_of_nil|left; by apply list_elem_of_further|].
  destruct o as [| | | | |s']; try (right; by intros [?|?]%elem_of_cons).
  destruct (decide (s = s')) as [->|]; [left; by apply list_elem_of_here|right; intros [?|?]%elem_of_cons; naive_solver].
Defined.

Lemma one_kind_kept os s :
  OBlockSocket s ∉ os ∨ OAllowSocket s ∉ os → foldl (kept_rule s) RByIp os = foldl (documented_rule s) RByIp os.
Proof.
  induction os as [|o os IH] using rev_ind; [done|]. rewrite !elem_of_app, !list_elem_of_singleton. intros H.
  rewrite !foldl_app. cbn [foldl]. rewrite IH by naive_solver. destruct (kept_or_none os s) as (_ & HB & HA).
  destruct o; cbn [kept_rule documented_rule]; try done; case_decide; try done; subst.
  all: destruct (foldl (documented_rule _) _ _); naive_solver.
Qed.

(** C39: The block list against its documented rules, after any sequence of requests.  Addresses and networks:
    blocked and allowed in the order of the requests, one set of addresses.  A socket address: the last request
    that names it decides, whatever its network; without one, its network does.  The verdict of the list is the
    documented one for every address that has not been named both by a request to block it and by one to allow it.
    For an address that has, the verdict may differ from the documented one, and is then that of its network: the
    request has only taken the older rule back. *)
Theorem block_list_semantics (os : list BlockOp) (s : SocketAddr) :
  let network_blocked := foldl (λ b o, spec_ip o (sa_ip s) b) false os in
  let documented := verdict (foldl (documented_rule s) RByIp os) network_blocked in
  let actual := socket_addr_is_blocked (block_ops default_block_list os) s in
  actual = documented
  ∨ (OBlockSocket s ∈ os ∧ OAllowSocket s ∈ os ∧ actual = network_blocked).
Proof.
  cbn zeta. rewrite blocked_by_rule. destruct (block_ops_follow os s) as [-> ->].
  destruct (decide (OBlockSocket s ∈ os ∧ OAllowSocket s ∈ os)) as [[HB HA]|Hone].
  - destruct (kept_or_none os s) as ([->| ->] & _); [by left|by right].
  - left. by rewrite one_kind_kept by (destruct (decide (OBlockSocket s ∈ os)); naive_solver).
Qed.

(** Blocking a socket address that was explicitly allowed before does not block it, and allowing one that was
    explicitly blocked does not allow it while its network is blocked: both only take the older rule back, although
    the list reports that it has been changed. *)
Theorem opposite_rule_only_withdrawn (b : BlockList) (s : SocketAddr) : rules_ok b →
  (s ∈ allowed_socket_addr b → ip_sets_contains_ip_addr b (sa_ip s) = false →
   (list_block_socket_addr b s).2 = true ∧ socket_addr_is_blocked (list_block_socket_addr b s).1 s = false)
  ∧ (s ∈ blocked_socket_addr b → ip_sets_contains_ip_addr b (sa_ip s) = true →
     (list_allow_socket_addr b s).2 = true ∧ socket_addr_is_blocked (list_allow_socket_addr b s).1 s = true).
Proof.
  intros Hok. unfold rules_ok in Hok. split; intros Hin Hip.
  - pose proof (sets_step b (OBlockSocket s) (sa_ip s)) as Hs. cbn in Hs.
    unfold list_block_socket_addr in *. rewrite decide_True in * by done. split; [done|].
    unfold socket_addr_is_blocked. cbn in *. rewrite !decide_False by set_solver. by rewrite Hs.
  - pose proof (sets_step b (OAllowSocket s) (sa_ip s)) as Hs. cbn in Hs.
    unfold list_allow_socket_addr in *. rewrite decide_True in * by done. split; [done|].
    unfold socket_addr_is_blocked. cbn in *. rewrite !decide_False by set_solver. by rewrite Hs.
Qed.
End BlockList.

Lemma opposite_rule_only_withdrawn_witness :
  let s := MkSocketAddr (V4 1) 80 in
  let b := block_op (N := prefix_nets) default_block_list (OAllowSocket s) in
  (list_block_socket_addr b s).2 = true ∧ socket_addr_is_blocked (list_block_socket_addr b s).1 s = false.
Proof.
  intros s b. apply (opposite_rule_only_withdrawn b s).
  - unfold rules_ok. set_solver.
  - subst b. set_solver.
  - reflexivity.
Defined.
