(* ===== verification/Contexts.v ===== *)
(** * Components and their contexts

    Model of how a component comes into being ([KompactSystem::create] and its variants
    in [core/src/runtime/system.rs], the constructors of
    [core/src/component/actual_component.rs] and [core.rs], the [setup] that the derive
    macro generates) and of the context through which its definition reaches the
    component ([core/src/component/context.rs]), with the buffers the context makes on
    demand from the configuration ([core/src/net/buffers/mod.rs]).

    A component is a number, its place among the [Arc]s handed out; which of them are
    still allocated is told by [alive].  Whether the operating system grants a thread
    is told by [spawned]. *)

From S2P Require Import Prelude Extern Paths Serialisation ChunkLease Buffers EncodeBuffer Lifecycle Scheduling Timers Config.

(** ** Buffer configuration *)
Section BufferSettings.
Context {X : ConfigExtern} (debug : ConfigValue → string).

Definition if_ok {A} (r : res ConfigError A) (f : A → res Empty_set BufferConfig) (c : BufferConfig) : res Empty_set BufferConfig :=
  match r with Ok a => f a | _ => Ok c end.

Definition set_chunk_size (n : nat) (c : BufferConfig) : BufferConfig :=
  Buffers.mkConfig n (cfg_initial_chunk_count c) (cfg_max_chunk_count c) (cfg_encode_buf_min_free_space c).
Definition set_initial_chunk_count (n : nat) (c : BufferConfig) : BufferConfig :=
  Buffers.mkConfig (cfg_chunk_size c) n (cfg_max_chunk_count c) (cfg_encode_buf_min_free_space c).
Definition set_max_chunk_count (n : nat) (c : BufferConfig) : BufferConfig :=
  Buffers.mkConfig (cfg_chunk_size c) (cfg_initial_chunk_count c) n (cfg_encode_buf_min_free_space c).
Definition set_encode_buf_min_free_space (n : nat) (c : BufferConfig) : BufferConfig :=
  Buffers.mkConfig (cfg_chunk_size c) (cfg_initial_chunk_count c) (cfg_max_chunk_count c) n.

(** [usize::try_from(i).expect(..)]. *)
Definition usize_of_i64 (i : Z) : res Empty_set nat := if decide (0 ≤ i)%Z then Ok (Z.to_nat i) else Panic.

Definition buffer_from_config (config : Config) : res Empty_set BufferConfig :=
  let buffer_section := config_get config "buffer_config" in
  let c := default_config in
  c ← if_ok (lookup_as_bytes debug (lookup_get buffer_section "chunk_size")) (λ n, Ok (set_chunk_size (N.to_nat n) c)) c;
  c ← if_ok (lookup_as_i64 debug (lookup_get buffer_section "initial_chunk_count"))
        (λ i, n ← usize_of_i64 i; Ok (set_initial_chunk_count n c)) c;
  c ← if_ok (lookup_as_i64 debug (lookup_get buffer_section "max_chunk_count"))
        (λ i, n ← usize_of_i64 i; Ok (set_max_chunk_count n c)) c;
  c ← if_ok (lookup_as_bytes debug (lookup_get buffer_section "encode_min_remaining"))
        (λ n, Ok (set_encode_buf_min_free_space (N.to_nat n) c)) c;
  _ ← validate c;
  Ok c.
End BufferSettings.

Section Contexts.
Context {U : UuidApi} {X : ConfigExtern} (debug : ConfigValue → string).
Context (new_v4 : nat → Uuid).   (** [Uuid::new_v4()] for each component *)
Context (spawned : bool).        (** starting a thread succeeds *)
Context (refs : Refs).

(** ** State *)
Record ContextInner := mkInner {
  ci_timer_manager : TimerManager ();
  ci_component : nat;              (** a weak reference *)
  ci_actor_ref : nat;
  ci_config : Config;
  ci_id : Uuid;
}.

Record ComponentContext := mkContext { cx_inner : option ContextInner; cx_buffer : option EncodeBuffer.EncodeBuffer }.

Record Instance_ := mkInstance {
  core_id : Uuid;
  core_state : Z;
  core_component : option nat;     (** a weak reference *)
  custom_scheduler : option nat;   (** a dedicated thread *)
  supervised : bool;
  in_ctx : ComponentContext;       (** the field of the definition *)
  in_parents : list (option nat);  (** the parent of each of its ports *)
}.

Record World := mkWorld {
  instances : list Instance_;
  threads : list (option nat);     (** dedicated threads with the component they were given *)
  w_state : Z;                     (** [KompactRuntime::state] *)
  w_config : Config;
  w_path : SystemPath;
}.

Abbreviation Sys := (St World Empty_set).

Definition set_instances (l : list Instance_) (w : World) : World := mkWorld l (threads w) (w_state w) (w_config w) (w_path w).
Definition set_spawned_threads (l : list (option nat)) (w : World) : World := mkWorld (instances w) l (w_state w) (w_config w) (w_path w).
Definition upd_instance (c : nat) (f : Instance_ → Instance_) (w : World) : World := set_instances (alter f c (instances w)) w.
Definition set_ctx (x : ComponentContext) (i : Instance_) : Instance_ :=
  mkInstance (core_id i) (core_state i) (core_component i) (custom_scheduler i) (supervised i) x (in_parents i).
Definition set_parents (l : list (option nat)) (i : Instance_) : Instance_ :=
  mkInstance (core_id i) (core_state i) (core_component i) (custom_scheduler i) (supervised i) (in_ctx i) l.
Definition set_core_component (o : option nat) (i : Instance_) : Instance_ :=
  mkInstance (core_id i) (core_state i) o (custom_scheduler i) (supervised i) (in_ctx i) (in_parents i).

Definition is_poisoned_ (w : World) : bool := runtime.is_faulty (w_state w).
Definition w_assert_active : Sys () := w ← st_get; st_lift (assert_ (runtime.is_active (w_state w))).
Definition w_assert_not_poisoned : Sys () := w ← st_get; st_lift (assert_ (negb (is_poisoned_ w))).

Definition the_instance (c : nat) : Sys Instance_ := w ← st_get; st_lift (unwrap (instances w !! c)).

(** ** Construction *)
Definition uninitialised_context : ComponentContext := mkContext None None.

(** [ComponentCore::with], for the next component. *)
Definition core_with (n : nat) (sched : option nat) (sup : bool) (ports : nat) : Instance_ :=
  mkInstance (new_v4 n) initial_state None sched sup uninitialised_context (replicate ports None).

(** [Component::new], [with_dedicated_scheduler], [without_supervisor] and
    [without_supervisor_with_dedicated_scheduler], behind [Arc::new]. *)
Definition arc_new (i : nat → Instance_) : Sys nat :=
  w ← st_get;
  let c := length (instances w) in
  _ ← st_modify (set_instances (instances w ++ [i c]));
  mret c.
Definition component_new (ports : nat) : Sys nat := arc_new (λ n, core_with n None true ports).
Definition with_dedicated_scheduler (ports thread : nat) : Sys nat := arc_new (λ n, core_with n (Some thread) true ports).
Definition without_supervisor (ports : nat) : Sys nat := arc_new (λ n, core_with n None false ports).
Definition without_supervisor_with_dedicated_scheduler (ports thread : nat) : Sys nat :=
  arc_new (λ n, core_with n (Some thread) false ports).

(** [timer_ref] of the system panics when it is poisoned. *)
Definition ctx_initialise (c : nat) : Sys () :=
  _ ← w_assert_not_poisoned;
  w ← st_get;
  i ← the_instance c;
  st_modify (upd_instance c (set_ctx (mkContext (Some (mkInner new_timers c c (w_config w) (core_id i))) (cx_buffer (in_ctx i))))).

(** The derived [setup]. *)
Definition setup (c : nat) : Sys () :=
  _ ← ctx_initialise c;
  st_modify (upd_instance c (λ i, set_parents ((λ _, Some c) <$> in_parents i) i)).

Definition set_component (c : nat) : Sys () :=
  i ← the_instance c;
  match core_component i with
  | Some _ => st_panic
  | None => st_modify (upd_instance c (set_core_component (Some c)))
  end.

(** [DedicatedThreadScheduler::new().expect(..)] and [pinned]: a thread that waits for
    its component, and the promise for it. *)
Definition dedicated_scheduler_new : Sys nat :=
  if spawned then
    w ← st_get;
    _ ← st_modify (set_spawned_threads (threads w ++ [None]));
    mret (length (threads w))
  else st_panic.

(** [promise.fulfil(c).expect(..)]: the thread is waiting. *)
Definition fulfil_component (thread c : nat) : Sys () :=
  w ← st_get;
  match threads w !! thread with
  | Some None => st_modify (set_spawned_threads (<[thread := Some c]> (threads w)))
  | _ => st_panic
  end.

(** ** The functions of the system; the definition is known by its number of ports *)
Definition sys_create (ports : nat) : Sys nat :=
  _ ← w_assert_active;
  c ← component_new ports;
  _ ← setup c;
  _ ← set_component c;
  mret c.

Definition sys_create_unsupervised (ports : nat) : Sys nat :=
  c ← without_supervisor ports;
  _ ← setup c;
  _ ← set_component c;
  mret c.

Definition sys_create_dedicated (ports : nat) : Sys nat :=
  _ ← w_assert_active;
  scheduler ← dedicated_scheduler_new;
  c ← with_dedicated_scheduler ports scheduler;
  _ ← setup c;
  _ ← set_component c;
  _ ← fulfil_component scheduler c;
  mret c.

Definition sys_create_dedicated_unsupervised (ports : nat) : Sys nat :=
  scheduler ← dedicated_scheduler_new;
  c ← without_supervisor_with_dedicated_scheduler ports scheduler;
  _ ← setup c;
  _ ← set_component c;
  _ ← fulfil_component scheduler c;
  mret c.

(** ** The context *)
Definition inner_ref (x : ComponentContext) : res Empty_set ContextInner := unwrap (cx_inner x).

Section Access.
Context (alive : nat → bool).

Definition upgrade (c : nat) : option nat := if alive c then Some c else None.
Definition typed_component (x : ComponentContext) : res Empty_set nat := i ← inner_ref x; unwrap (upgrade (ci_component i)).
Definition ctx_id (x : ComponentContext) : res Empty_set Uuid := i ← inner_ref x; Ok (ci_id i).
Definition ctx_actor_ref (x : ComponentContext) : res Empty_set nat := i ← inner_ref x; Ok (ci_actor_ref i).
(** [ComponentCore::component]. *)
Definition core_get_component (i : Instance_) : res Empty_set nat := unwrap (core_component i ≫= upgrade).

(** [actor_path]; the path of the system, which must be active. *)
Definition ctx_actor_path (w : World) (x : ComponentContext) : res Empty_set ActorPath :=
  id ← ctx_id x;
  _ ← typed_component x;
  _ ← assert_ (runtime.is_active (w_state w));
  Ok (Unique (MkUniquePath (w_path w) id)).
End Access.

(** *** Buffers; [allocator] is the chunk size of a custom allocator *)
Definition get_buffer_config (x : ComponentContext) : res Empty_set BufferConfig :=
  i ← inner_ref x; buffer_from_config debug (ci_config i).

Definition init_buffers (buffer_config : option BufferConfig) (custom_allocator : option nat) (x : ComponentContext)
    : res Empty_set ComponentContext :=
  match cx_buffer x with
  | Some _ => Ok x
  | None =>
      cfg ← match buffer_config with Some cfg => Ok cfg | None => get_buffer_config x end;
      buffer ← encode_with_config refs cfg custom_allocator true;
      Ok (mkContext (cx_inner x) (Some buffer))
  end.

Definition never_err {E A} (r : res Empty_set A) : res E A := match r with Ok a => Ok a | Err e => match e with end | Panic => Panic end.

(** [with_buffer] calls itself after making a buffer; [Err] is a call that never ends. *)
Fixpoint with_buffer {A} (fuel : nat) (f : EncodeBuffer.EncodeBuffer → EncodeBuffer.EncodeBuffer * A) (x : ComponentContext)
    : res () (ComponentContext * A) :=
  match fuel with
  | O => Err ()
  | S fuel =>
      match cx_buffer x with
      | Some buffer => let '(buffer, a) := f buffer in Ok (mkContext (cx_inner x) (Some buffer), a)
      | None =>
          x ← never_err (init_buffers None None x);
          with_buffer fuel f x
      end
  end.

(** ** What a created component is *)
Inductive Creator := Supervised | Unsupervised | DedicatedSupervised | DedicatedUnsupervised.

Definition create_by (k : Creator) : nat → Sys nat :=
  match k with
  | Supervised => sys_create
  | Unsupervised => sys_create_unsupervised
  | DedicatedSupervised => sys_create_dedicated
  | DedicatedUnsupervised => sys_create_dedicated_unsupervised
  end.
Definition has_supervisor (k : Creator) : bool := match k with Supervised | DedicatedSupervised => true | _ => false end.
Definition has_thread (k : Creator) : bool := match k with DedicatedSupervised | DedicatedUnsupervised => true | _ => false end.

(** When a creator succeeds. *)
Definition can_create (k : Creator) (w : World) : Prop :=
  is_poisoned_ w = false ∧ (has_supervisor k = true → runtime.is_active (w_state w) = true) ∧ (has_thread k = true → spawned = true).

(** The instance number [c]. *)
Definition newborn (k : Creator) (ports c t : nat) (w : World) : Instance_ :=
  mkInstance (new_v4 c) initial_state (Some c) (if has_thread k then Some t else None) (has_supervisor k)
    (mkContext (Some (mkInner new_timers c c (w_config w) (new_v4 c))) None) (replicate ports (Some c)).

Lemma alter_last {A} (f : A → A) l (a : A) : alter f (length l) (l ++ [a]) = l ++ [f a].
Proof. rewrite <-(Nat.add_0_r (length l)). by rewrite alter_app_r. Qed.
Lemma lookup_last {A} l (a : A) : (l ++ [a]) !! length l = Some a.
Proof. by rewrite lookup_app_r, Nat.sub_diag. Qed.
Lemma insert_last {A} l (a b : A) : <[length l := b]> (l ++ [a]) = l ++ [b].
Proof. rewrite <-(Nat.add_0_r (length l)). by rewrite insert_app_r. Qed.

Lemma set_up c (w : World) l i : instances w = l ++ [i] → c = length l → is_poisoned_ w = false → core_component i = None →
  (_ ← setup c; set_component c) w =
  (set_instances (l ++ [mkInstance (core_id i) (core_state i) (Some c) (custom_scheduler i) (supervised i)
     (mkContext (Some (mkInner new_timers c c (w_config w) (core_id i))) (cx_buffer (in_ctx i))) ((λ _, Some c) <$> in_parents i)]) w, Ok ()).
Proof.
  intros Hw -> Hp Hc. unfold setup, ctx_initialise, set_component, the_instance, w_assert_not_poisoned, upd_instance.
  unfold mbind, st_bind, st_get, st_lift, st_modify, mret, st_ret. cbn. rewrite Hp. cbn. rewrite Hw, lookup_last. cbn.
  rewrite !alter_last. cbn. rewrite lookup_last. cbn. rewrite Hc. cbn. by rewrite alter_last.
Qed.

Lemma set_up_bind {A} c (w : World) l i (f : Sys A) :
  instances w = l ++ [i] → c = length l → is_poisoned_ w = false → core_component i = None →
  (_ ← setup c; _ ← set_component c; f) w =
  f (set_instances (l ++ [mkInstance (core_id i) (core_state i) (Some c) (custom_scheduler i) (supervised i)
     (mkContext (Some (mkInner new_timers c c (w_config w) (core_id i))) (cx_buffer (in_ctx i))) ((λ _, Some c) <$> in_parents i)]) w).
Proof.
  intros Hw Hl Hp Hc. pose proof (set_up c w l i Hw Hl Hp Hc) as Hs. revert Hs. unfold mbind, st_bind.
  destruct (setup c w) as [w1 [[]|e|]]; [|done|done]. by intros ->.
Qed.

Lemma fulfil_last c (w : World) l : threads w = l ++ [None] → fulfil_component (length l) c w = (set_spawned_threads (l ++ [Some c]) w, Ok ()).
Proof.
  intros Hw. unfold fulfil_component, mbind, st_bind, st_get, st_modify. cbn. by rewrite Hw, lookup_last, insert_last.
Qed.

Lemma create_by_spec k ports w : can_create k w →
  create_by k ports w =
  (mkWorld (instances w ++ [newborn k ports (length (instances w)) (length (threads w)) w])
     (threads w ++ if has_thread k then [Some (length (instances w))] else []) (w_state w) (w_config w) (w_path w),
   Ok (length (instances w))).
Proof.
  intros (Hp & Ha & Hs). assert (∀ o : option nat, (λ _ : option nat, o) <$> replicate ports None = replicate ports o) as Hrep
    by (intros o; apply fmap_replicate).
  assert (∀ A (f : Sys A), has_supervisor k = true → (_ ← w_assert_active; f) w = f w) as Hact.
  { intros A f Hk. unfold w_assert_active, mbind, st_bind, st_get, st_lift. cbn. by rewrite (Ha Hk). }
  destruct w as [l ts st cf pa]. unfold is_poisoned_ in Hp. cbn in Hp.
  destruct k; cbn [create_by has_supervisor has_thread] in *; unfold sys_create, sys_create_unsupervised, sys_create_dedicated,
    sys_create_dedicated_unsupervised, dedicated_scheduler_new; rewrite ?Hact, ?Hs by done.
  - etrans; [apply (set_up_bind (length l) (mkWorld (l ++ [core_with (length l) None true ports]) ts st cf pa) l); done|].
    cbn. rewrite Hrep, app_nil_r. done.
  - etrans; [apply (set_up_bind (length l) (mkWorld (l ++ [core_with (length l) None false ports]) ts st cf pa) l); done|].
    cbn. rewrite Hrep, app_nil_r. done.
  - etrans; [apply (set_up_bind (length l) (mkWorld (l ++ [core_with (length l) (Some (length ts)) true ports]) (ts ++ [None]) st cf pa) l); done|].
    unfold mbind, st_bind. rewrite (fulfil_last _ _ ts) by done. cbn. rewrite Hrep. done.
  - etrans; [apply (set_up_bind (length l) (mkWorld (l ++ [core_with (length l) (Some (length ts)) false ports]) (ts ++ [None]) st cf pa) l); done|].
    unfold mbind, st_bind. rewrite (fulfil_last _ _ ts) by done. cbn. rewrite Hrep. done.
Qed.

(** However a component is created, it is passive and knows itself: its core, the context
    of its definition and all of its ports refer to it, its context has the id of its
    core, a dedicated thread was given it; the ways to create one differ only in the
    supervisor and the thread, and what was there before stays. *)
Theorem created_component (k : Creator) (ports : nat) (w : World) (alive : nat → bool) :
  can_create k w → alive (length (instances w)) = true →
  ∃ w' i, create_by k ports w = (w', Ok (length (instances w)))
    ∧ instances w' = instances w ++ [i]
    ∧ core_get_component alive i = Ok (length (instances w))
    ∧ typed_component alive (in_ctx i) = Ok (length (instances w))
    ∧ ctx_id (in_ctx i) = Ok (core_id i)
    ∧ Forall (λ p, p = Some (length (instances w))) (in_parents i) ∧ length (in_parents i) = ports
    ∧ from_current (E := Empty_set) (core_state i) = Ok (Passive 0)
    ∧ supervised i = has_supervisor k
    ∧ match custom_scheduler i with
      | Some t => has_thread k = true ∧ t = length (threads w) ∧ threads w' = threads w ++ [Some (length (instances w))]
      | None => has_thread k = false ∧ threads w' = threads w
      end
    ∧ (runtime.is_active (w_state w) = true → ctx_actor_path alive w' (in_ctx i) = Ok (Unique (MkUniquePath (w_path w) (core_id i)))).
Proof.
  intros Hc Hal. rewrite (create_by_spec k ports w Hc). eexists _, _. split; [done|]. split; [done|].
  unfold core_get_component, typed_component, ctx_actor_path, typed_component, upgrade. cbn -[length]. rewrite Hal. cbn -[length].
  split_and!; try done.
  - by apply Forall_replicate.
  - by rewrite length_replicate.
  - destruct (has_thread k); cbn; [done|]. by rewrite app_nil_r.
  - intros Ha. by rewrite Ha.
Qed.

(** Before it is set up a context is of no use, and a core takes only one component. *)
Theorem set_up_once c (w : World) i : instances w !! c = Some i → core_component i ≠ None → (set_component c w).2 = Panic.
Proof.
  intros Hi Hc. unfold set_component, the_instance, mbind, st_bind, st_get, st_lift. rewrite Hi. cbn. by destruct (core_component i).
Qed.

(** ** Buffers *)

(** The first buffer a context is given stays, whatever configuration comes later; asking
    for a buffer makes one from the configuration of the system if there is none, which
    ends after one attempt. *)
Theorem context_buffers {A} (f : EncodeBuffer.EncodeBuffer → EncodeBuffer.EncodeBuffer * A) (x : ComponentContext) :
  (∀ cfg alloc x', init_buffers cfg alloc x = Ok x' →
     cx_buffer x' ≠ None ∧ cx_inner x' = cx_inner x ∧ ∀ cfg' alloc', init_buffers cfg' alloc' x' = Ok x')
  ∧ with_buffer 2 f x ≠ Err ()
  ∧ with_buffer 2 f x = (x' ← never_err (init_buffers None None x); with_buffer 1 f x').
Proof.
  assert (∀ cfg alloc x', init_buffers cfg alloc x = Ok x' → ∃ b, cx_buffer x' = Some b ∧ cx_inner x' = cx_inner x) as Hinit.
  { intros cfg alloc x'. unfold init_buffers. destruct (cx_buffer x) as [b|] eqn:Hb; [intros [= <-]; eauto|].
    intros (c & _ & (b & _ & [= <-])%bind_Ok)%bind_Ok. by exists b. }
  split_and!.
  - intros cfg alloc x' Hx. destruct (Hinit _ _ _ Hx) as (b & Hb & Hi). split_and!; [by rewrite Hb|done|].
    intros cfg' alloc'. unfold init_buffers. by rewrite Hb.
  - cbn [with_buffer]. destruct (cx_buffer x) as [b|]; [by destruct (f b)|].
    destruct (init_buffers None None x) as [x'|[]|] eqn:Hx; cbn; [|done]. destruct (Hinit _ _ _ Hx) as (b & -> & _). by destruct (f b).
  - cbn [with_buffer]. unfold init_buffers. destruct (cx_buffer x) as [b|] eqn:Hb; cbn; [|done]. by rewrite Hb.
Qed.
End Contexts.

(** ** What the configuration decides *)
Section BufferSettingsSpec.
Context {X : ConfigExtern} (debug : ConfigValue → string).

Definition setting {A} (r : res ConfigError A) (f : A → nat) (d : nat) : nat := match r with Ok a => f a | _ => d end.

Lemma if_ok_set {A} (r : res ConfigError A) (conv : A → res Empty_set nat) (f : A → nat) (set : nat → BufferConfig → BufferConfig) c c' :
  (∀ a n, conv a = Ok n → n = f a) → if_ok r (λ a, n ← conv a; Ok (set n c)) c = Ok c' →
  c' = match r with Ok a => set (f a) c | _ => c end.
Proof.
  intros Hc. destruct r as [a| |]; cbn; [|by intros [= <-]..]. intros (n & Hn & [= <-])%bind_Ok. by rewrite (Hc _ _ Hn).
Qed.

(** A configuration read from a document is valid, and each of its values is the one of
    the document where that has the right type, and the default otherwise. *)
Theorem buffer_config_read (config : Config) (c : BufferConfig) : buffer_from_config debug config = Ok c →
  let at_ key := lookup_get (config_get config "buffer_config") key in
  validate (E := Empty_set) c = Ok ()
  ∧ cfg_chunk_size c = setting (lookup_as_bytes debug (at_ "chunk_size")) N.to_nat (cfg_chunk_size default_config)
  ∧ cfg_initial_chunk_count c = setting (lookup_as_i64 debug (at_ "initial_chunk_count")) Z.to_nat 2
  ∧ cfg_max_chunk_count c = setting (lookup_as_i64 debug (at_ "max_chunk_count")) Z.to_nat 1000
  ∧ cfg_encode_buf_min_free_space c = setting (lookup_as_bytes debug (at_ "encode_min_remaining")) N.to_nat 64.
Proof.
  unfold buffer_from_config, setting. intros H. cbv zeta in H.
  apply bind_Ok in H as (c1 & H1 & H). apply bind_Ok in H as (c2 & H2 & H). apply bind_Ok in H as (c3 & H3 & H).
  apply bind_Ok in H as (c4 & H4 & H). apply bind_Ok in H as ([] & Hv & [= <-]). cbv zeta. split; [done|].
  assert (∀ i n, usize_of_i64 i = Ok n → n = Z.to_nat i) as Hi by (intros i n; unfold usize_of_i64; case_decide; [by intros [= <-]|done]).
  assert (∀ i n, Ok (E := Empty_set) (N.to_nat i) = Ok n → n = N.to_nat i) as Hb by (by intros i n [= <-]).
  apply (if_ok_set _ (λ n, Ok (N.to_nat n)) N.to_nat set_chunk_size) in H1; [|exact Hb].
  apply (if_ok_set _ usize_of_i64 Z.to_nat set_initial_chunk_count) in H2; [|exact Hi].
  apply (if_ok_set _ usize_of_i64 Z.to_nat set_max_chunk_count) in H3; [|exact Hi].
  apply (if_ok_set _ (λ n, Ok (N.to_nat n)) N.to_nat set_encode_buf_min_free_space) in H4; [|exact Hb].
  subst c4 c3 c2 c1. clear Hv.
  destruct (lookup_as_bytes debug (lookup_get _ "chunk_size")), (lookup_as_i64 debug (lookup_get _ "initial_chunk_count")),
    (lookup_as_i64 debug (lookup_get _ "max_chunk_count")), (lookup_as_bytes debug (lookup_get _ "encode_min_remaining")); done.
Qed.
End BufferSettingsSpec.
