(* ===== verification/QueueManager.v ===== *)
(** * Queues of the network dispatcher

    Model of [QueueManager] ([network/src/queue_manager.rs]): per remote socket
    one queue of data waiting for a connection and one queue of data that the
    network thread rejected and that goes out first.  The queued
    [DispatchData] is never inspected, so its type is a parameter. *)

From S2P Require Import Prelude Extern.

Section Queues.
Context {D : Type}.

Record QueueManager := mkQueues {
  inner : gmap SocketAddr (list D);
  priority_queue : gmap SocketAddr (list D);
}.

Definition new_queues : QueueManager := mkQueues ∅ ∅.

(** [map.entry(dst).or_default().push_back(data)]. *)
Definition push_back (m : gmap SocketAddr (list D)) (dst : SocketAddr) (data : D) : gmap SocketAddr (list D) :=
  <[dst := default [] (m !! dst) ++ [data]]> m.

Definition enqueue_data (q : QueueManager) (data : D) (dst : SocketAddr) : QueueManager :=
  mkQueues (push_back (inner q) dst data) (priority_queue q).

Definition enqueue_priority_data (q : QueueManager) (data : D) (dst : SocketAddr) : QueueManager :=
  mkQueues (inner q) (push_back (priority_queue q) dst data).

(** [map.get_mut(dst).and_then(|q| q.pop_front())]. *)
Definition pop_front (m : gmap SocketAddr (list D)) (dst : SocketAddr) : gmap SocketAddr (list D) * option D :=
  match m !! dst with
  | Some (x :: l) => (<[dst := l]> m, Some x)
  | _ => (m, None)
  end.

(** Pop, and remove the entry of an empty queue. *)
Definition pop_or_remove (m : gmap SocketAddr (list D)) (dst : SocketAddr) : gmap SocketAddr (list D) * option D :=
  let '(m, res) := pop_front m dst in
  if bool_decide (is_Some (m !! dst)) && bool_decide (¬ is_Some res) then (delete dst m, res) else (m, res).

Definition pop_data (q : QueueManager) (dst : SocketAddr) : QueueManager * option D :=
  let '(pq, res) := pop_or_remove (priority_queue q) dst in
  match res with
  | Some _ => (mkQueues (inner q) pq, res)
  | None => let '(iq, res) := pop_or_remove (inner q) dst in (mkQueues iq pq, res)
  end.

Definition drop_queue (q : QueueManager) (addr : SocketAddr) : QueueManager :=
  mkQueues (delete addr (inner q)) (delete addr (priority_queue q)).

Definition queue_nonempty (m : gmap SocketAddr (list D)) (dst : SocketAddr) : bool :=
  match m !! dst with Some (_ :: _) => true | _ => false end.

Definition has_data (q : QueueManager) (dst : SocketAddr) : bool :=
  if queue_nonempty (priority_queue q) dst then true else queue_nonempty (inner q) dst.

(** ** Specification: the data waiting for an address, in sending order *)
Definition rejected (q : QueueManager) (a : SocketAddr) : list D := default [] (priority_queue q !! a).
Definition regular (q : QueueManager) (a : SocketAddr) : list D := default [] (inner q !! a).
Definition waiting (q : QueueManager) (a : SocketAddr) : list D := rejected q a ++ regular q a.

Implicit Types (q : QueueManager) (m : gmap SocketAddr (list D)).

Lemma pop_or_remove_spec m dst :
  let '(m', res) := pop_or_remove m dst in
  res = head (default [] (m !! dst))
  ∧ default [] (m' !! dst) = tail (default [] (m !! dst))
  ∧ ∀ a, a ≠ dst → m' !! a = m !! a.
Proof.
  unfold pop_or_remove, pop_front.
  destruct (m !! dst) as [[|x l]|] eqn:Hm; rewrite ?Hm, ?lookup_insert_eq;
    repeat case_bool_decide; try naive_solver; cbn.
  - rewrite lookup_delete_eq. split_and!; [done..|]. intros. by rewrite lookup_delete_ne.
  - rewrite lookup_insert_eq. split_and!; [done..|]. intros. by rewrite lookup_insert_ne.
  - by rewrite Hm.
Qed.

Lemma waiting_new a : waiting new_queues a = [].
Proof. done. Qed.

Lemma push_back_lookup m dst x a :
  default [] (push_back m dst x !! a) = default [] (m !! a) ++ (if decide (a = dst) then [x] else []).
Proof.
  unfold push_back. case_decide; subst.
  - by rewrite lookup_insert_eq.
  - rewrite lookup_insert_ne by done. by rewrite app_nil_r.
Qed.

Lemma enqueue_data_spec q x dst a :
  rejected (enqueue_data q x dst) a = rejected q a
  ∧ regular (enqueue_data q x dst) a = regular q a ++ (if decide (a = dst) then [x] else []).
Proof. split; [done|]. apply push_back_lookup. Qed.

Lemma enqueue_priority_data_spec q x dst a :
  rejected (enqueue_priority_data q x dst) a = rejected q a ++ (if decide (a = dst) then [x] else [])
  ∧ regular (enqueue_priority_data q x dst) a = regular q a.
Proof. split; [|done]. apply push_back_lookup. Qed.

Lemma pop_data_result q dst : (pop_data q dst).2 = head (waiting q dst).
Proof.
  unfold pop_data, waiting, rejected, regular.
  pose proof (pop_or_remove_spec (priority_queue q) dst) as Hp.
  pose proof (pop_or_remove_spec (inner q) dst) as Hi.
  destruct (pop_or_remove (priority_queue q) dst) as [pq r], (pop_or_remove (inner q) dst) as [iq r'].
  destruct Hp as [-> _], Hi as [-> _].
  by destruct (default [] (priority_queue q !! dst)).
Qed.

Lemma pop_data_queues q dst a :
  let q' := (pop_data q dst).1 in
  rejected q' a = (if decide (a = dst) then tail (rejected q a) else rejected q a)
  ∧ regular q' a = (if decide (a = dst ∧ rejected q a = []) then tail (regular q a) else regular q a).
Proof.
  unfold pop_data, rejected, regular.
  pose proof (pop_or_remove_spec (priority_queue q) dst) as Hp.
  pose proof (pop_or_remove_spec (inner q) dst) as Hi.
  destruct (pop_or_remove (priority_queue q) dst) as [pq r], (pop_or_remove (inner q) dst) as [iq r'].
  destruct Hp as [-> [Hp1 Hp2]], Hi as [-> [Hi1 Hi2]].
  destruct (default [] (priority_queue q !! dst)) as [|x l] eqn:Hq; cbn in *;
    (destruct (decide (a = dst)); [subst a|rewrite (decide_False (P:=a = dst ∧ _)) by tauto; by rewrite Hp2, ?Hi2]).
  - by rewrite Hp1, Hi1, Hq, decide_True.
  - rewrite Hp1, Hq. by rewrite decide_False by naive_solver.
Qed.

Lemma drop_queue_spec q dst a :
  rejected (drop_queue q dst) a = (if decide (a = dst) then [] else rejected q a)
  ∧ regular (drop_queue q dst) a = (if decide (a = dst) then [] else regular q a).
Proof.
  unfold rejected, regular, drop_queue. cbn. case_decide; subst.
  - by rewrite !lookup_delete_eq.
  - by rewrite !lookup_delete_ne.
Qed.

Lemma has_data_spec q dst : has_data q dst = bool_decide (waiting q dst ≠ []).
Proof.
  unfold has_data, queue_nonempty, waiting, rejected, regular.
  destruct (priority_queue q !! dst) as [[|]|], (inner q !! dst) as [[|]|]; done.
Qed.
End Queues.
Arguments QueueManager D : clear implicits.
