(* ===== verification/Dispatcher.v ===== *)
(** * Connection management of the network dispatcher

    Model of the remote side of [NetworkDispatcher]
    ([network/src/dispatcher.rs]) and of the [Bridge] through which it talks to
    the network thread ([network/src/transport/mod.rs]): routing over TCP and
    UDP, the connection states, the events of the network thread, the requests
    of the network status port and the periodic connection retries.

    Registration and reaping use the lookup table and are modelled in [ActorStore],
    local delivery in [Delivery].  The network thread is the environment: it consumes
    the events put into the bridge and produces [NetworkDispatcherEvent]s. *)

From S2P Require Import Prelude Extern Paths Frames QueueManager.

Inductive NetworkBridgeError := UnsupportedProtocol (protocol : Transport) | SendError | IoError.

Section Types.
Context {U : UuidApi} {D IpNet : Type}.

Inductive ConnectionState :=
| New
| Initializing
| Connected (id : SessionId)
| Closed (id : SessionId)
| Lost (id : SessionId)
| Blocked.

(** [events::DispatchEvent]. *)
Inductive DispatchEvent :=
| SendTcp (addr : SocketAddr) (data : D)
| SendUdp (addr : SocketAddr) (data : D)
| StopThread
| KillThread
| Connect (addr : SocketAddr)
| ClosedAck (addr : SocketAddr)
| Close (addr : SocketAddr)
| BlockSocket (addr : SocketAddr)
| BlockIpAddr (ip : IpAddr)
| BlockIpNet (net : IpNet)
| AllowSocket (addr : SocketAddr)
| AllowIpAddr (ip : IpAddr)
| AllowIpNet (net : IpNet).

Inductive NetworkStatus :=
| ConnectionEstablished (system_path : SystemPath) (id : SessionId)
| ConnectionLost (system_path : SystemPath) (id : SessionId)
| ConnectionDropped (system_path : SystemPath)
| ConnectionClosed (system_path : SystemPath) (id : SessionId)
| BlockedSystem (system_path : SystemPath)
| BlockedIp (ip : IpAddr)
| BlockedIpNet (net : IpNet)
| AllowedIpNet (net : IpNet)
| AllowedSystem (system_path : SystemPath)
| AllowedIp (ip : IpAddr)
| SoftConnectionLimitExceeded
| HardConnectionLimitReached
| CriticalNetworkFailure.

Inductive NetworkStatusRequest :=
| DisconnectSystem (system_path : SystemPath)
| ConnectSystem (system_path : SystemPath)
| BlockSystem (system_path : SystemPath)
| ReqBlockIp (ip : IpAddr)
| ReqBlockIpNet (net : IpNet)
| AllowSystem (system_path : SystemPath)
| ReqAllowIp (ip : IpAddr)
| ReqAllowIpNet (net : IpNet).

Inductive NetworkDispatcherEvent :=
| Network (ev : NetworkStatus)
| RejectedData (addr : SocketAddr) (data : D).

Inductive Protocol := PTcp | PUdp.

(** [Bridge]: the queue to the network thread, whether its receiving end still
    exists, and the number of times the waker was used. *)
Record Bridge := mkBridge {
  network_input_queue : list DispatchEvent;
  receiver_alive : bool;
  wakes : nat;
  bound_address : option SocketAddr;
}.

Record NetworkConfig := mkNetworkConfig {
  cfg_addr : SocketAddr;
  cfg_transport : Transport;
  max_connection_retry_attempts : Z;
}.

(** The fields of [NetworkDispatcher] used by connection management; the status
    port is the list of indications triggered on it. *)
Record NetworkDispatcher := mkDispatcher {
  connections : gmap SocketAddr ConnectionState;
  cfg : NetworkConfig;
  net_bridge : option Bridge;
  queue_manager : QueueManager D;
  retry_map : gmap SocketAddr Z;
  network_status_port : list NetworkStatus;
}.

Definition set_connections (f : gmap SocketAddr ConnectionState → gmap SocketAddr ConnectionState)
    (d : NetworkDispatcher) : NetworkDispatcher :=
  mkDispatcher (f (connections d)) (cfg d) (net_bridge d) (queue_manager d) (retry_map d) (network_status_port d).
Definition set_net_bridge (b : option Bridge) (d : NetworkDispatcher) : NetworkDispatcher :=
  mkDispatcher (connections d) (cfg d) b (queue_manager d) (retry_map d) (network_status_port d).
Definition set_queue_manager (f : QueueManager D → QueueManager D) (d : NetworkDispatcher) : NetworkDispatcher :=
  mkDispatcher (connections d) (cfg d) (net_bridge d) (f (queue_manager d)) (retry_map d) (network_status_port d).
Definition set_retry_map (f : gmap SocketAddr Z → gmap SocketAddr Z) (d : NetworkDispatcher) : NetworkDispatcher :=
  mkDispatcher (connections d) (cfg d) (net_bridge d) (queue_manager d) (f (retry_map d)) (network_status_port d).
Definition trigger_status (ev : NetworkStatus) (d : NetworkDispatcher) : NetworkDispatcher :=
  mkDispatcher (connections d) (cfg d) (net_bridge d) (queue_manager d) (retry_map d)
    (network_status_port d ++ [ev]).
End Types.
Arguments DispatchEvent D IpNet : clear implicits.
Arguments NetworkStatus {U} IpNet.
Arguments NetworkStatusRequest IpNet : clear implicits.
Arguments NetworkDispatcherEvent {U} D IpNet.
Arguments Bridge D IpNet : clear implicits.
Arguments NetworkDispatcher {U} D IpNet.
Arguments ConnectionState {U}.

(** ** A state and error monad for the handlers

    A handler changes the dispatcher and returns, fails with a bridge error or
    panics. *)
Section Monad.
Context {U : UuidApi} {D IpNet : Type}.

Definition Act (A : Type) : Type :=
  NetworkDispatcher D IpNet → NetworkDispatcher D IpNet * res NetworkBridgeError A.

#[global] Instance act_ret : MRet Act := λ A a d, (d, Ok a).
#[global] Instance act_bind : MBind Act := λ A B f m d,
  match m d with
  | (d, Ok a) => f a d
  | (d, Err e) => (d, Err e)
  | (d, Panic) => (d, Panic)
  end.

Definition get_self : Act (NetworkDispatcher D IpNet) := λ d, (d, Ok d).
Definition modify (f : NetworkDispatcher D IpNet → NetworkDispatcher D IpNet) : Act () := λ d, (f d, Ok ()).
Definition panic {A} : Act A := λ d, (d, Panic).

(** [if let Err(e) = m { error!(..) }]. *)
Definition log_error (m : Act ()) : Act () := λ d,
  match m d with (d, Err _) => (d, Ok ()) | r => r end.
(** [m.unwrap()]. *)
Definition unwrap_act (m : Act ()) : Act () := λ d,
  match m d with (d, Err _) => (d, Panic) | r => r end.
(** [if b { m }]. *)
Definition when (b : bool) (m : Act ()) : Act () := if b then m else mret ().

(** [for x in l { f(x) }]. *)
Fixpoint for_all_act {A} (l : list A) (f : A → Act ()) : Act () :=
  match l with
  | [] => mret ()
  | x :: l => _ ← f x; for_all_act l f
  end.
End Monad.
Arguments Act {U} D IpNet A.

Section Dispatcher.
Context {U : UuidApi} {D IpNet : Type}.
(** Outcome of the [n]-th call of [mio::Waker::wake] on a bridge. *)
Context (wake : nat → bool).
(** The address a listener is bound to by the operating system, if it can be. *)
Context (bind_socket : SocketAddr → option SocketAddr).

Abbreviation act := (Act D IpNet).

(** ** The bridge *)
Definition send_and_wake (b : Bridge D IpNet) (event : DispatchEvent D IpNet)
    : Bridge D IpNet * res NetworkBridgeError () :=
  if receiver_alive b then
    let b' := mkBridge (network_input_queue b ++ [event]) true (S (wakes b)) (bound_address b) in
    (b', if wake (wakes b) then Ok () else Err IoError)
  else (b, Err SendError).

Definition bridge_route (b : Bridge D IpNet) (addr : SocketAddr) (data : D) (protocol : Protocol) :=
  let event := match protocol with PTcp => SendTcp addr data | PUdp => SendUdp addr data end in
  send_and_wake b event.

Definition bridge_connect (b : Bridge D IpNet) (proto : Transport) (addr : SocketAddr) :=
  match proto with
  | Tcp => send_and_wake b (Connect addr)
  | other => (b, Err (UnsupportedProtocol other))
  end.

(** [if let Some(bridge) = &self.net_bridge { f(bridge) }]. *)
Definition on_bridge (f : Bridge D IpNet → Bridge D IpNet * res NetworkBridgeError ()) : act () := λ d,
  match net_bridge d with
  | Some b => let '(b, r) := f b in (set_net_bridge (Some b) d, r)
  | None => (d, Ok ())
  end.

Definition has_bridge (d : NetworkDispatcher D IpNet) : bool :=
  match net_bridge d with Some _ => true | None => false end.

Definition trigger (ev : NetworkStatus IpNet) : act () := modify (trigger_status ev).

(** ** Draining the queues *)

(** [while let Some(data) = self.queue_manager.pop_data(addr) { handle(data) }]. *)
Fixpoint drain (fuel : nat) (addr : SocketAddr) (handle : D → act ()) : act () :=
  match fuel with
  | O => panic
  | S fuel =>
      d ← get_self;
      let '(q, data) := pop_data (queue_manager d) addr in
      _ ← modify (set_queue_manager (λ _, q));
      match data with
      | Some data => _ ← handle data; drain fuel addr handle
      | None => mret ()
      end
  end.

(** [while self.queue_manager.has_data(&addr) { pop_data(&addr).map(handle) }]. *)
Fixpoint drain_while (fuel : nat) (addr : SocketAddr) (handle : D → act ()) : act () :=
  match fuel with
  | O => panic
  | S fuel =>
      d ← get_self;
      if has_data (queue_manager d) addr then
        let '(q, data) := pop_data (queue_manager d) addr in
        _ ← modify (set_queue_manager (λ _, q));
        _ ← match data with Some data => handle data | None => mret () end;
        drain_while fuel addr handle
      else mret ()
  end.

(** One more than the elements the loop can pop. *)
Definition drain_fuel (d : NetworkDispatcher D IpNet) (addr : SocketAddr) : nat :=
  S (length (waiting (queue_manager d) addr)).

(** ** Connection events *)
Definition connection_established (system_path : SystemPath) (id : SessionId) : act () :=
  let addr := socket_address system_path in
  _ ← trigger (ConnectionEstablished system_path id);
  _ ← modify (set_retry_map (delete addr));
  d ← get_self;
  _ ← when (has_data (queue_manager d) addr)
        (drain (drain_fuel d addr) addr
           (λ frame, log_error (on_bridge (λ b, bridge_route b addr frame PTcp))));
  modify (set_connections <[addr := Connected id]>).

Definition connection_closed (system_path : SystemPath) (id : SessionId) : act () :=
  let addr := socket_address system_path in
  _ ← trigger (ConnectionClosed system_path id);
  _ ← log_error (on_bridge (λ b, send_and_wake b (ClosedAck addr)));
  _ ← modify (set_connections <[addr := Closed id]>);
  d ← get_self;
  when (has_data (queue_manager d) addr) (modify (set_retry_map <[addr := 0%Z]>)).

Definition connection_lost (system_path : SystemPath) (id : SessionId) : act () :=
  let addr := socket_address system_path in
  d ← get_self;
  _ ← when (negb (bool_decide (is_Some (retry_map d !! addr)))) (modify (set_retry_map <[addr := 0%Z]>));
  _ ← trigger (ConnectionLost system_path id);
  _ ← log_error (on_bridge (λ b, send_and_wake b (ClosedAck addr)));
  modify (set_connections <[addr := Lost id]>).

(** [Bridge::new] panics when the listener cannot be bound. *)
Definition start_bridge (address : SocketAddr) : act () :=
  match bind_socket address with
  | Some bound => modify (set_net_bridge (Some (mkBridge [] true 0 (Some bound))))
  | None => panic
  end.

(** The body of the loop over the drained connections. *)
Definition fail_connection (c : SocketAddr * ConnectionState) : act () :=
  let '(address, state) := c in
  match state with
  | Connected id => connection_lost (with_socket Tcp address) id
  | _ => modify (set_connections <[address := state]>)
  end.

Definition handle_network_failure : act () :=
  _ ← trigger CriticalNetworkFailure;
  d ← get_self;
  let faulty_bridge := net_bridge d in
  _ ← modify (set_net_bridge None);
  let drained := map_to_list (connections d) in
  _ ← modify (set_connections (λ _, ∅));
  _ ← for_all_act drained fail_connection;
  let bound_address :=
    match faulty_bridge with
    | Some b => default (cfg_addr (cfg d)) (bound_address b)
    | None => cfg_addr (cfg d)
    end in
  start_bridge bound_address.

Definition or_insert (a : SocketAddr) (v : Z) (m : gmap SocketAddr Z) : gmap SocketAddr Z :=
  match m !! a with Some _ => m | None => <[a := v]> m end.

Definition on_event (ev : NetworkDispatcherEvent D IpNet) : act () :=
  match ev with
  | Network ev =>
      match ev with
      | ConnectionEstablished system_path session => connection_established system_path session
      | ConnectionLost system_path session => connection_lost system_path session
      | ConnectionClosed system_path session => connection_closed system_path session
      | ConnectionDropped system_path =>
          _ ← modify (set_retry_map (delete (socket_address system_path)));
          trigger (ConnectionDropped system_path)
      | BlockedSystem system_path =>
          _ ← modify (set_connections <[socket_address system_path := Blocked]>);
          trigger (BlockedSystem system_path)
      | BlockedIp ip_addr => trigger (BlockedIp ip_addr)
      | BlockedIpNet ip_net => trigger (BlockedIpNet ip_net)
      | AllowedSystem system_path =>
          _ ← modify (set_connections (delete (socket_address system_path)));
          trigger (AllowedSystem system_path)
      | AllowedIp ip_addr => trigger (AllowedIp ip_addr)
      | AllowedIpNet ip_net => trigger (AllowedIpNet ip_net)
      | SoftConnectionLimitExceeded => trigger SoftConnectionLimitExceeded
      | HardConnectionLimitReached => trigger HardConnectionLimitReached
      | CriticalNetworkFailure => handle_network_failure
      end
  | RejectedData addr data =>
      _ ← modify (set_queue_manager (λ q, enqueue_priority_data q data addr));
      modify (set_retry_map (or_insert addr 0))
  end.

(** ** Routing *)
Definition route_remote_udp (addr : SocketAddr) (data : D) : act () :=
  on_bridge (λ b, bridge_route b addr data PUdp).

Definition enqueue (addr : SocketAddr) (data : D) : act () :=
  modify (set_queue_manager (λ q, enqueue_data q data addr)).

(** The match of [route_remote_tcp]: what to do and the next state. *)
Definition route_in_state (state : ConnectionState) (addr : SocketAddr) (data : D) : act (option ConnectionState) :=
  match state with
  | New =>
      _ ← enqueue addr data;
      d ← get_self;
      if has_bridge d then
        _ ← modify (set_retry_map <[addr := 0%Z]>);
        _ ← unwrap_act (on_bridge (λ b, bridge_connect b Tcp addr));
        mret (Some Initializing)
      else mret None
  | Connected _ =>
      d ← get_self;
      if has_data (queue_manager d) addr then
        _ ← enqueue addr data;
        d ← get_self;
        _ ← when (has_bridge d)
              (drain (drain_fuel d addr) addr
                 (λ queued_data, on_bridge (λ b, bridge_route b addr queued_data PTcp)));
        mret None
      else
        _ ← on_bridge (λ b, bridge_route b addr data PTcp);
        mret None
  | Initializing => _ ← enqueue addr data; mret None
  | Closed _ =>
      _ ← enqueue addr data;
      d ← get_self;
      _ ← when (has_bridge d)
            (_ ← modify (set_retry_map (or_insert addr 0));
             on_bridge (λ b, bridge_connect b Tcp addr));
      mret (Some Initializing)
  | Lost _ => _ ← enqueue addr data; mret None
  | Blocked => mret None
  end.

Definition route_remote_tcp (addr : SocketAddr) (data : D) : act () :=
  d ← get_self;
  let state := default New (connections d !! addr) in
  _ ← modify (set_connections <[addr := state]>);
  next ← route_in_state state addr data;
  match next with
  | Some next => modify (set_connections <[addr := next]>)
  | None => mret ()
  end.

(** ** Closing and retrying *)
Definition close_channel (addr : SocketAddr) : act () :=
  d ← get_self;
  match connections d !! addr with
  | Some (Connected _) =>
      when (has_bridge d)
        (_ ← drain_while (drain_fuel d addr) addr
               (λ data, log_error (on_bridge (λ b, bridge_route b addr data PTcp)));
         log_error (on_bridge (λ b, send_and_wake b (Close addr))))
  | _ => mret ()
  end.

Definition retry_one (addr : SocketAddr) (retry : Z) : act () :=
  d ← get_self;
  if decide (retry < max_connection_retry_attempts (cfg d))%Z then
    _ ← modify (set_retry_map <[addr := (retry + 1)%Z]>);
    unwrap_act (on_bridge (λ b, bridge_connect b Tcp addr))
  else
    _ ← modify (set_queue_manager (λ q, drop_queue q addr));
    _ ← modify (set_connections (delete addr));
    trigger (ConnectionDropped (with_socket Tcp addr)).

Definition schedule_retries : act () :=
  d ← get_self;
  let drain := map_to_list (retry_map d) in
  _ ← modify (set_retry_map (λ _, ∅));
  for_all_act drain (λ '(addr, retry), retry_one addr retry).

(** [Provide<NetworkStatusPort>::handle]. *)
Definition handle_request (event : NetworkStatusRequest IpNet) : act () :=
  match event with
  | DisconnectSystem system_path => close_channel (socket_address system_path)
  | ConnectSystem system_path =>
      unwrap_act (on_bridge (λ b, bridge_connect b (sp_protocol system_path) (socket_address system_path)))
  | ReqBlockIp ip_addr => unwrap_act (on_bridge (λ b, send_and_wake b (BlockIpAddr ip_addr)))
  | BlockSystem system_path =>
      unwrap_act (on_bridge (λ b, send_and_wake b (BlockSocket (socket_address system_path))))
  | ReqBlockIpNet ip_net => unwrap_act (on_bridge (λ b, send_and_wake b (BlockIpNet ip_net)))
  | ReqAllowIp ip_addr => unwrap_act (on_bridge (λ b, send_and_wake b (AllowIpAddr ip_addr)))
  | AllowSystem system_path =>
      unwrap_act (on_bridge (λ b, send_and_wake b (AllowSocket (socket_address system_path))))
  | ReqAllowIpNet ip_net => unwrap_act (on_bridge (λ b, send_and_wake b (AllowIpNet ip_net)))
  end.

(** A dispatcher whose bridge has been started. *)
Definition new_dispatcher (c : NetworkConfig) : NetworkDispatcher D IpNet :=
  mkDispatcher ∅ c None new_queues ∅ [].

(** What reaches the dispatcher: messages to remote actors, events of the
    network thread, requests on the status port and the retry timer. *)
Inductive Input :=
| RouteTcp (addr : SocketAddr) (data : D)
| RouteUdp (addr : SocketAddr) (data : D)
| Event (ev : NetworkDispatcherEvent D IpNet)
| Request (req : NetworkStatusRequest IpNet)
| Retries.

Definition step (i : Input) : act () :=
  match i with
  | RouteTcp addr data => route_remote_tcp addr data
  | RouteUdp addr data => route_remote_udp addr data
  | Event ev => on_event ev
  | Request req => handle_request req
  | Retries => schedule_retries
  end.

(** Inputs one after the other, up to a bridge error or a panic. *)
Definition run (inputs : list Input) : act () := for_all_act inputs step.

(** ** Specification: one independent link per remote address *)
Record Link := mkLink {
  l_state : option ConnectionState;
  l_retry : option Z;
  l_rejected : list D;   (** rejected by the network thread, go out first *)
  l_regular : list D;    (** waiting for a connection *)
  l_sent : list D;       (** handed to the network thread *)
}.

Definition flush (st : ConnectionState) (retry : option Z) (L : Link) : Link :=
  mkLink (Some st) retry [] [] (l_sent L ++ l_rejected L ++ l_regular L).

Definition set_link (st : option ConnectionState) (retry : option Z) (L : Link) : Link :=
  mkLink st retry (l_rejected L) (l_regular L) (l_sent L).

Definition append (x : D) (L : Link) : Link :=
  mkLink (l_state L) (l_retry L) (l_rejected L) (l_regular L ++ [x]) (l_sent L).

Definition append_rejected (x : D) (L : Link) : Link :=
  mkLink (l_state L) (l_retry L) (l_rejected L ++ [x]) (l_regular L) (l_sent L).

(** At least one retry is pending. *)
Definition retry_or_zero (o : option Z) : option Z := Some (default 0%Z o).

Definition send_spec (x : D) (L : Link) : Link :=
  match default New (l_state L) with
  | New => set_link (Some Initializing) (Some 0%Z) (append x L)
  | Connected id => flush (Connected id) (l_retry L) (append x L)
  | Initializing => set_link (Some Initializing) (l_retry L) (append x L)
  | Closed _ => set_link (Some Initializing) (retry_or_zero (l_retry L)) (append x L)
  | Lost id => set_link (Some (Lost id)) (l_retry L) (append x L)
  | Blocked => set_link (Some Blocked) (l_retry L) L
  end.

Definition retry_spec (max : Z) (L : Link) : Link :=
  match l_retry L with
  | Some r =>
      if decide (r < max)%Z then set_link (l_state L) (Some (r + 1)%Z) L
      else mkLink None None [] [] (l_sent L)
  | None => L
  end.

(** The new bridge has an empty queue. *)
Definition failure_spec (L : Link) : Link :=
  match l_state L with
  | Some (Connected id) =>
      mkLink (Some (Lost id)) (retry_or_zero (l_retry L)) (l_rejected L) (l_regular L) []
  | st => mkLink st (l_retry L) (l_rejected L) (l_regular L) []
  end.

(** The effect of an input on the link to [a]. *)
Definition link_step (max : Z) (i : Input) (a : SocketAddr) (L : Link) : Link :=
  match i with
  | RouteTcp addr x => if decide (a = addr) then send_spec x L else L
  | RouteUdp _ _ => L
  | Event (RejectedData addr x) =>
      if decide (a = addr) then append_rejected x (set_link (l_state L) (retry_or_zero (l_retry L)) L) else L
  | Event (Network CriticalNetworkFailure) => failure_spec L
  | Event (Network (ConnectionEstablished sp id)) =>
      if decide (a = socket_address sp) then flush (Connected id) None L else L
  | Event (Network (ConnectionLost sp id)) =>
      if decide (a = socket_address sp) then set_link (Some (Lost id)) (retry_or_zero (l_retry L)) L else L
  | Event (Network (ConnectionClosed sp id)) =>
      if decide (a = socket_address sp) then
        set_link (Some (Closed id)) (if decide (l_rejected L ++ l_regular L = []) then l_retry L else Some 0%Z) L
      else L
  | Event (Network (ConnectionDropped sp)) =>
      if decide (a = socket_address sp) then set_link (l_state L) None L else L
  | Event (Network (BlockedSystem sp)) =>
      if decide (a = socket_address sp) then set_link (Some Blocked) (l_retry L) L else L
  | Event (Network (AllowedSystem sp)) =>
      if decide (a = socket_address sp) then set_link None (l_retry L) L else L
  | Event (Network _) => L
  | Request (DisconnectSystem sp) =>
      match l_state L with
      | Some (Connected id) =>
          if decide (a = socket_address sp) then flush (Connected id) (l_retry L) L else L
      | _ => L
      end
  | Request _ => L
  | Retries => retry_spec max L
  end.

(** The data handed to the network thread for [a], in order. *)
Definition sent_event (a : SocketAddr) (ev : DispatchEvent D IpNet) : option D :=
  match ev with SendTcp addr x => if decide (addr = a) then Some x else None | _ => None end.

Definition sent (d : NetworkDispatcher D IpNet) (a : SocketAddr) : list D :=
  match net_bridge d with Some b => omap (sent_event a) (network_input_queue b) | None => [] end.

Definition view (d : NetworkDispatcher D IpNet) (a : SocketAddr) : Link :=
  mkLink (connections d !! a) (retry_map d !! a) (rejected (queue_manager d) a)
    (regular (queue_manager d) a) (sent d a).

(** A bridge whose network thread is running. *)
Definition running_bridge (o : option (Bridge D IpNet)) : Prop :=
  match o with Some b => receiver_alive b = true | None => False end.
Definition bridge_ok (d : NetworkDispatcher D IpNet) : Prop := running_bridge (net_bridge d).

(** Requests that the bridge supports. *)
Definition supported (i : Input) : Prop :=
  match i with Request (ConnectSystem sp) => sp_protocol sp = Tcp | _ => True end.

(** ** Effects of the building blocks *)
Hypothesis wake_ok : ∀ n, wake n = true.
Implicit Types (d : NetworkDispatcher D IpNet) (a addr : SocketAddr).

(** [m] succeeds in [d], re-establishes [I] and acts on the links as [g]. *)
Definition acts_on (I : NetworkDispatcher D IpNet → Prop) (m : act ()) d (g : SocketAddr → Link → Link) : Prop :=
  ∃ d', m d = (d', Ok ()) ∧ I d' ∧ cfg d' = cfg d ∧ ∀ a, view d' a = g a (view d a).
Abbreviation acts := (acts_on bridge_ok).

Definition at_addr addr (g : Link → Link) : SocketAddr → Link → Link :=
  λ a L, if decide (a = addr) then g L else L.

Definition add_sent (xs : list D) (L : Link) : Link :=
  mkLink (l_state L) (l_retry L) (l_rejected L) (l_regular L) (l_sent L ++ xs).

Section Generic.
Context (I : NetworkDispatcher D IpNet → Prop).

Lemma acts_bind (m1 m2 : act ()) d g1 g2 :
  acts_on I m1 d g1 → (∀ d1, I d1 → cfg d1 = cfg d → (∀ a, view d1 a = g1 a (view d a)) → acts_on I m2 d1 g2) →
  acts_on I (_ ← m1; m2) d (λ a L, g2 a (g1 a L)).
Proof.
  intros (d1 & H1 & Hb1 & Hc1 & Hv1) H2.
  destruct (H2 d1 Hb1 Hc1 Hv1) as (d2 & Hd2 & Hb2 & Hc2 & Hv2).
  exists d2. split_and!; [|done|congruence|].
  - unfold mbind, act_bind. by rewrite H1.
  - intros a. by rewrite Hv2, Hv1.
Qed.

Lemma acts_ext (m : act ()) d g g' : acts_on I m d g → (∀ a, g a (view d a) = g' a (view d a)) → acts_on I m d g'.
Proof. intros (d' & ? & ? & ? & Hv) Hg. exists d'. split_and!; [done..|]. intros a. by rewrite Hv, Hg. Qed.

Lemma acts_ret d : I d → acts_on I (mret ()) d (λ _ L, L).
Proof. intros. exists d. done. Qed.

Lemma acts_modify f d g : I (f d) → cfg (f d) = cfg d → (∀ a, view (f d) a = g a (view d a)) → acts_on I (modify f) d g.
Proof. intros. exists (f d). done. Qed.

Lemma acts_get (F : NetworkDispatcher D IpNet → act ()) d g : acts_on I (F d) d g → acts_on I (get_self ≫= F) d g.
Proof. done. Qed.

Lemma acts_when (b : bool) (m : act ()) d g : I d → (b = true → acts_on I m d g) →
  acts_on I (when b m) d (λ a L, if b then g a L else L).
Proof. intros Hd Hm. destruct b; [by apply Hm|by apply acts_ret]. Qed.

(** A loop over distinct addresses that acts on each of them separately. *)
Lemma acts_for_all {V} (l : list (SocketAddr * V)) (f : SocketAddr * V → act ()) (g : V → Link → Link) c d :
  NoDup l.*1 → I d → cfg d = c →
  (∀ addr v d, I d → cfg d = c → acts_on I (f (addr, v)) d (at_addr addr (g v))) →
  acts_on I (for_all_act l f) d (λ a L, match (list_to_map l : gmap SocketAddr V) !! a with Some v => g v L | None => L end).
Proof.
  revert d. induction l as [|[addr v] l IH]; intros d Hnd HI Hc Hf; cbn [for_all_act].
  - by apply acts_ret.
  - cbn in Hnd. apply NoDup_cons in Hnd as [Hni Hnd].
    eapply acts_ext.
    + apply acts_bind; [by apply Hf|]. intros d1 HI1 Hc1 _. apply IH; [done|done|congruence|done].
    + intros a. cbn. unfold at_addr. destruct (decide (a = addr)) as [->|Hne].
      * rewrite lookup_insert_eq. by rewrite (proj1 (not_elem_of_list_to_map l addr) Hni).
      * by rewrite lookup_insert_ne.
Qed.
End Generic.

Lemma acts_trigger ev d : bridge_ok d → acts (trigger ev) d (λ _ L, L).
Proof. intros. by apply acts_modify. Qed.

Lemma acts_send ev d : bridge_ok d →
  acts (on_bridge (λ b, send_and_wake b ev)) d (λ a, add_sent (option_list (sent_event a ev))).
Proof using wake_ok.
  intros Hb. unfold bridge_ok, running_bridge in Hb. destruct (net_bridge d) as [b|] eqn:Hn; [|done].
  unfold acts_on, on_bridge, send_and_wake. rewrite Hn, Hb, wake_ok. eexists. split_and!; [done|done|done|].
  intros a. unfold view, add_sent, sent, set_net_bridge. cbn. rewrite Hn, omap_app. cbn.
  by destruct (sent_event a ev).
Qed.

Lemma acts_log_error I m d g : acts_on I m d g → acts_on I (log_error m) d g.
Proof. intros (d' & Hm & ?). exists d'. split; [|done]. unfold log_error. by rewrite Hm. Qed.

Lemma acts_unwrap I m d g : acts_on I m d g → acts_on I (unwrap_act m) d g.
Proof. intros (d' & Hm & ?). exists d'. split; [|done]. unfold unwrap_act. by rewrite Hm. Qed.

Lemma add_sent_nil L : add_sent [] L = L.
Proof. destruct L. unfold add_sent. cbn. by rewrite app_nil_r. Qed.

(** Events other than TCP data do not change the links. *)
Lemma acts_control ev d : bridge_ok d → (∀ a, sent_event a ev = None) →
  acts (on_bridge (λ b, send_and_wake b ev)) d (λ _ L, L).
Proof using wake_ok.
  intros Hb Hev. eapply acts_ext; [by apply acts_send|]. intros a. cbn beta. rewrite Hev. apply add_sent_nil.
Qed.

Lemma acts_route x d addr : bridge_ok d →
  acts (on_bridge (λ b, bridge_route b addr x PTcp)) d (at_addr addr (add_sent [x])).
Proof using wake_ok.
  intros Hb. eapply acts_ext; [by apply acts_send|]. intros a. unfold at_addr. cbn.
  repeat case_decide; subst; try done. apply add_sent_nil.
Qed.

(** Popping moves the head of a link out. *)
Definition pop_link (L : Link) : Link :=
  match l_rejected L with
  | _ :: l => mkLink (l_state L) (l_retry L) l (l_regular L) (l_sent L)
  | [] => mkLink (l_state L) (l_retry L) [] (tail (l_regular L)) (l_sent L)
  end.

Definition link_waiting (L : Link) : list D := l_rejected L ++ l_regular L.

Definition flush_queues (L : Link) : Link :=
  mkLink (l_state L) (l_retry L) [] [] (l_sent L ++ link_waiting L).

Lemma acts_pop d addr : bridge_ok d →
  acts (modify (set_queue_manager (λ _, (pop_data (queue_manager d) addr).1))) d (at_addr addr pop_link).
Proof.
  intros Hb. apply acts_modify; [done..|]. intros a.
  pose proof (pop_data_queues (queue_manager d) addr a) as [Hr Hq].
  unfold view, set_queue_manager, at_addr, pop_link. cbn. fold (sent d a).
  change (sent (mkDispatcher (connections d) (cfg d) (net_bridge d)
    (pop_data (queue_manager d) addr).1 (retry_map d) (network_status_port d)) a) with (sent d a).
  rewrite Hr, Hq. destruct (decide (a = addr)) as [->|Hne].
  - destruct (rejected (queue_manager d) addr) eqn:Hj; cbn.
    + by rewrite decide_True.
    + by rewrite decide_False by (by intros [? ?]).
  - by rewrite decide_False by (by intros [? ?]).
Qed.

Lemma pop_flush x l L : link_waiting L = x :: l →
  link_waiting (pop_link L) = l ∧ flush_queues (add_sent [x] (pop_link L)) = flush_queues L.
Proof.
  destruct L as [st rt [|y rj] rg sn]; unfold link_waiting, flush_queues, add_sent, pop_link; cbn.
  - intros ->. cbn. by rewrite <-app_assoc.
  - intros [= -> <-]. split; [done|]. unfold link_waiting. cbn. by rewrite <-app_assoc.
Qed.

Lemma view_waiting d a : waiting (queue_manager d) a = link_waiting (view d a).
Proof. done. Qed.

Lemma flush_queues_nil L : link_waiting L = [] → flush_queues L = L.
Proof.
  destruct L as [st rt rj rg sn]. unfold link_waiting, flush_queues. cbn. intros H.
  rewrite H, app_nil_r. by apply app_eq_nil in H as [-> ->].
Qed.

Lemma pop_link_nil L : link_waiting L = [] → pop_link L = L.
Proof. destruct L as [st rt [|] [|] sn]; unfold link_waiting; by cbn. Qed.

Section Drain.
Context (addr : SocketAddr) (handle : D → act ()).
Hypothesis handle_sends : ∀ x d, bridge_ok d → acts (handle x) d (at_addr addr (add_sent [x])).

(** One round of either loop, and the rest of the loop. *)
Lemma acts_round x l (rest : act ()) d : bridge_ok d → waiting (queue_manager d) addr = x :: l →
  (∀ d', bridge_ok d' → waiting (queue_manager d') addr = l → acts rest d' (at_addr addr flush_queues)) →
  acts (_ ← modify (set_queue_manager (λ _, (pop_data (queue_manager d) addr).1)); _ ← handle x; rest) d
    (at_addr addr flush_queues).
Proof using handle_sends.
  intros Hb Hw Hrest. rewrite view_waiting in Hw.
  destruct (pop_flush _ _ _ Hw) as [Hl Hf].
  eapply acts_ext.
  - apply acts_bind; [by apply acts_pop|]. intros d1 Hb1 _ Hv1.
    apply acts_bind; [by apply handle_sends|]. intros d2 Hb2 _ Hv2.
    apply Hrest; [done|]. rewrite view_waiting, Hv2, Hv1. unfold at_addr. by rewrite !decide_True.
  - intros a. cbn. unfold at_addr. by destruct (decide (a = addr)) as [->|].
Qed.

Lemma acts_drain fuel d : bridge_ok d → length (waiting (queue_manager d) addr) < fuel →
  acts (drain fuel addr handle) d (at_addr addr flush_queues).
Proof using handle_sends.
  revert d. induction fuel as [|fuel IH]; intros d Hb Hlen; [lia|].
  cbn [drain]. apply acts_get. pose proof (pop_data_result (queue_manager d) addr) as Hres.
  rewrite (surjective_pairing (pop_data (queue_manager d) addr)), Hres.
  destruct (waiting (queue_manager d) addr) as [|x l] eqn:Hw; cbn [head].
  - eapply acts_ext; [apply acts_bind; [by apply acts_pop|intros; by apply acts_ret]|].
    intros a. cbn. unfold at_addr. destruct (decide (a = addr)) as [->|]; [|done].
    rewrite view_waiting in Hw. by rewrite pop_link_nil, flush_queues_nil.
  - apply (acts_round x l); [done..|]. intros d' Hb' Hw'. apply IH; [done|]. rewrite Hw'. cbn in Hlen. lia.
Qed.

Lemma acts_drain_while fuel d : bridge_ok d → length (waiting (queue_manager d) addr) < fuel →
  acts (drain_while fuel addr handle) d (at_addr addr flush_queues).
Proof using handle_sends.
  revert d. induction fuel as [|fuel IH]; intros d Hb Hlen; [lia|].
  cbn [drain_while]. apply acts_get. pose proof (pop_data_result (queue_manager d) addr) as Hres.
  rewrite has_data_spec, (surjective_pairing (pop_data (queue_manager d) addr)), Hres.
  destruct (waiting (queue_manager d) addr) as [|x l] eqn:Hw.
  - rewrite bool_decide_false by (intros Hn; by apply Hn). eapply acts_ext; [by apply acts_ret|].
    intros a. unfold at_addr. case_decide; [subst|done]. by rewrite flush_queues_nil.
  - rewrite bool_decide_true by done. apply (acts_round x l); [done..|].
    intros d' Hb' Hw'. apply IH; [done|]. rewrite Hw'. cbn in Hlen. lia.
Qed.
End Drain.

(** Field updates, under a condition on the bridge alone. *)
Section Setters.
Context (J : option (Bridge D IpNet) → Prop).
Abbreviation I := (λ d : NetworkDispatcher D IpNet, J (net_bridge d)).

Lemma view_connections f d a :
  view (set_connections f d) a = set_link (f (connections d) !! a) (l_retry (view d a)) (view d a).
Proof. done. Qed.

Lemma view_retry_map f d a :
  view (set_retry_map f d) a = set_link (l_state (view d a)) (f (retry_map d) !! a) (view d a).
Proof. done. Qed.

Lemma set_link_same L : set_link (l_state L) (l_retry L) L = L.
Proof. by destruct L. Qed.

Lemma acts_set_state addr st d : I d →
  acts_on I (modify (set_connections <[addr := st]>)) d (at_addr addr (λ L, set_link (Some st) (l_retry L) L)).
Proof.
  intros. apply acts_modify; [done..|]. intros a. rewrite view_connections. unfold at_addr. case_decide.
  - subst. by rewrite lookup_insert_eq.
  - by rewrite lookup_insert_ne by done.
Qed.

Lemma acts_delete_state addr d : I d →
  acts_on I (modify (set_connections (delete addr))) d (at_addr addr (λ L, set_link None (l_retry L) L)).
Proof.
  intros. apply acts_modify; [done..|]. intros a. rewrite view_connections. unfold at_addr. case_decide.
  - subst. by rewrite lookup_delete_eq.
  - by rewrite lookup_delete_ne by done.
Qed.

Lemma acts_set_retry addr r d : I d →
  acts_on I (modify (set_retry_map <[addr := r]>)) d (at_addr addr (λ L, set_link (l_state L) (Some r) L)).
Proof.
  intros. apply acts_modify; [done..|]. intros a. rewrite view_retry_map. unfold at_addr. case_decide.
  - subst. by rewrite lookup_insert_eq.
  - by rewrite lookup_insert_ne by done.
Qed.

Lemma acts_delete_retry addr d : I d →
  acts_on I (modify (set_retry_map (delete addr))) d (at_addr addr (λ L, set_link (l_state L) None L)).
Proof.
  intros. apply acts_modify; [done..|]. intros a. rewrite view_retry_map. unfold at_addr. case_decide.
  - subst. by rewrite lookup_delete_eq.
  - by rewrite lookup_delete_ne by done.
Qed.

Lemma acts_or_insert addr d : I d →
  acts_on I (modify (set_retry_map (or_insert addr 0))) d
    (at_addr addr (λ L, set_link (l_state L) (retry_or_zero (l_retry L)) L)).
Proof.
  intros. apply acts_modify; [done..|]. intros a. rewrite view_retry_map. unfold at_addr, or_insert. case_decide.
  - subst. destruct (retry_map d !! addr) eqn:Hr; rewrite ?Hr, ?lookup_insert_eq; unfold view; cbn; by rewrite Hr.
  - destruct (retry_map d !! addr); by rewrite ?lookup_insert_ne by done.
Qed.

Lemma acts_enqueue addr x d : I d → acts_on I (enqueue addr x) d (at_addr addr (append x)).
Proof.
  intros. apply acts_modify; [done..|]. intros a.
  pose proof (enqueue_data_spec (queue_manager d) x addr a) as [Hr Hq].
  unfold view, at_addr, append. cbn. rewrite Hr, Hq. case_decide; [done|]. by rewrite app_nil_r.
Qed.

Lemma acts_enqueue_priority addr x d : I d →
  acts_on I (modify (set_queue_manager (λ q, enqueue_priority_data q x addr))) d (at_addr addr (append_rejected x)).
Proof.
  intros. apply acts_modify; [done..|]. intros a.
  pose proof (enqueue_priority_data_spec (queue_manager d) x addr a) as [Hr Hq].
  unfold view, at_addr, append_rejected. cbn. rewrite Hr, Hq. case_decide; [done|]. by rewrite app_nil_r.
Qed.

Lemma acts_drop_queue addr d : I d →
  acts_on I (modify (set_queue_manager (λ q, drop_queue q addr))) d
    (at_addr addr (λ L, mkLink (l_state L) (l_retry L) [] [] (l_sent L))).
Proof.
  intros. apply acts_modify; [done..|]. intros a.
  pose proof (drop_queue_spec (queue_manager d) addr a) as [Hr Hq].
  unfold view, at_addr. cbn. rewrite Hr, Hq. by case_decide.
Qed.

Lemma acts_status ev d : I d → acts_on I (trigger ev) d (λ _ L, L).
Proof. intros. by apply acts_modify. Qed.
End Setters.

(** ** Effects of the handlers *)
Lemma socket_with_socket t a : socket_address (with_socket t a) = a.
Proof. by destruct a. Qed.


(** Composes the effects of the statements of a handler; what is left compares
    the composed effect with the specification at one address. *)
Ltac acts_seq :=
  lazymatch goal with
  | |- acts_on _ (get_self ≫= _) _ _ => apply acts_get; acts_seq
  | |- acts_on _ (_ ≫= _) _ _ => eapply acts_bind; [acts_seq|intros ? ? ? ?; acts_seq]
  | _ => idtac
  end.

Lemma acts_flush addr handle d : bridge_ok d →
  (∀ x d, bridge_ok d → acts (handle x) d (at_addr addr (add_sent [x]))) →
  acts (when (has_data (queue_manager d) addr) (drain (drain_fuel d addr) addr handle)) d (at_addr addr flush_queues).
Proof.
  intros Hb Hh. eapply acts_ext.
  - apply acts_when; [done|]. intros _. apply acts_drain; [done..|]. unfold drain_fuel. lia.
  - intros a. cbn. rewrite has_data_spec. case_bool_decide as Hw; [done|]. unfold at_addr.
    case_decide; [|done]. subst. by rewrite flush_queues_nil.
Qed.

Lemma acts_established sp id d : bridge_ok d →
  acts (connection_established sp id) d (at_addr (socket_address sp) (flush (Connected id) None)).
Proof using wake_ok.
  intros Hb. eapply acts_ext.
  - unfold connection_established. acts_seq.
    + by apply acts_trigger.
    + by apply (acts_delete_retry running_bridge).
    + apply acts_flush; [done|]. intros. by apply acts_log_error, acts_route.
    + by apply (acts_set_state running_bridge).
  - intros a. cbn. unfold at_addr. by case_decide.
Qed.

Lemma acts_closed sp id d : bridge_ok d →
  acts (connection_closed sp id) d
    (at_addr (socket_address sp) (λ L, set_link (Some (Closed id))
       (if decide (l_rejected L ++ l_regular L = []) then l_retry L else Some 0%Z) L)).
Proof using wake_ok.
  intros Hb. eapply acts_ext.
  - unfold connection_closed. acts_seq.
    + by apply acts_trigger.
    + by apply acts_log_error, acts_control.
    + by apply (acts_set_state running_bridge).
    + eapply (acts_ext _ _ _ _ (at_addr (socket_address sp)
        (λ L, if decide (link_waiting L = []) then L else set_link (l_state L) (Some 0%Z) L))).
      * apply acts_when; [done|]. intros _. by apply (acts_set_retry running_bridge).
      * intros a. cbn. rewrite has_data_spec. unfold at_addr.
        destruct (decide (a = socket_address sp)) as [->|]; [|by case_bool_decide].
        case_bool_decide as Hw; case_decide as Hw'; done.
  - intros a. cbn. unfold at_addr. case_decide; [|done]. unfold link_waiting. cbn. by case_decide.
Qed.

(** Generic in the bridge: also used while there is none. *)
Lemma acts_lost J sp id d : J (net_bridge d) →
  (∀ d, J (net_bridge d) → acts_on (λ d, J (net_bridge d))
     (on_bridge (λ b, send_and_wake b (ClosedAck (socket_address sp)))) d (λ _ L, L)) →
  acts_on (λ d, J (net_bridge d)) (connection_lost sp id) d
    (at_addr (socket_address sp) (λ L, set_link (Some (Lost id)) (retry_or_zero (l_retry L)) L)).
Proof.
  intros Hb Hack. eapply acts_ext.
  - unfold connection_lost. acts_seq.
    + eapply (acts_ext _ _ _ _ (at_addr (socket_address sp)
        (λ L, set_link (l_state L) (retry_or_zero (l_retry L)) L))).
      * apply acts_when; [done|]. intros _. by apply (acts_set_retry J).
      * intros a. cbn. unfold at_addr. destruct (decide (a = socket_address sp)) as [->|].
        -- unfold view. cbn. by destruct (retry_map d !! socket_address sp).
        -- by case_match.
    + by apply (acts_status J).
    + by apply acts_log_error, Hack.
    + by apply (acts_set_state J).
  - intros a. cbn. unfold at_addr. by case_decide.
Qed.

(** A new bridge starts with an empty queue. *)
Lemma acts_start_bridge address d : is_Some (bind_socket address) →
  acts (start_bridge address) d (λ _ L, mkLink (l_state L) (l_retry L) (l_rejected L) (l_regular L) []).
Proof. intros [bound Hb]. unfold start_bridge. rewrite Hb. by apply acts_modify. Qed.

Lemma acts_no_bridge f d : net_bridge d = None → acts_on (λ d, net_bridge d = None) (on_bridge f) d (λ _ L, L).
Proof. intros Hn. exists d. unfold on_bridge. by rewrite Hn. Qed.

(** What happens to a drained connection of state [st]. *)
Definition failed (st : ConnectionState) (L : Link) : Link :=
  match st with
  | Connected id => set_link (Some (Lost id)) (retry_or_zero (l_retry L)) L
  | _ => set_link (Some st) (l_retry L) L
  end.

Lemma acts_failure d : (∀ a, is_Some (bind_socket a)) → acts handle_network_failure d (λ _, failure_spec).
Proof.
  intros Hbind. unfold handle_network_failure.
  assert (acts_on (λ d, net_bridge d = None) (for_all_act (map_to_list (connections d)) fail_connection)
    (set_connections (λ _, ∅) (set_net_bridge None (trigger_status CriticalNetworkFailure d)))
    (λ a L, match connections d !! a with Some st => failed st L | None => L end))
    as (d1 & Hd1 & Hb1 & Hc1 & Hv1).
  { eapply acts_ext.
    - apply (acts_for_all _ _ _ failed (cfg d)); [apply NoDup_fst_map_to_list|done|done|].
      intros addr st d' Hn _. destruct st; cbn;
        try by apply (acts_set_state (λ b, b = None)).
      rewrite <-(socket_with_socket Tcp addr) at 2.
      apply (acts_lost (λ b, b = None)); [done|]. intros. by apply acts_no_bridge.
    - intros a. cbn. by rewrite list_to_map_to_list. }
  pose (address := match net_bridge d with
                   | Some b => default (cfg_addr (cfg d)) (bound_address b)
                   | None => cfg_addr (cfg d)
                   end).
  destruct (acts_start_bridge address d1 (Hbind _)) as (d2 & Hd2 & Hb2 & Hc2 & Hv2).
  exists d2. split_and!; [|done|by rewrite Hc2, Hc1|].
  - unfold mbind, act_bind, trigger, modify, get_self. cbn [connections trigger_status].
    by rewrite Hd1.
  - intros a. rewrite Hv2, Hv1. unfold failure_spec, failed, view. cbn.
    destruct (connections d !! a) as [[]|]; done.
Qed.

Lemma acts_close_channel addr d : bridge_ok d →
  acts (close_channel addr) d
    (λ a L, match l_state L with
            | Some (Connected id) => if decide (a = addr) then flush (Connected id) (l_retry L) L else L
            | _ => L
            end).
Proof using wake_ok.
  intros Hb. unfold close_channel. apply acts_get.
  destruct (connections d !! addr) as [[| |id| | |]|] eqn:Hst.
  3: { assert (has_bridge d = true) as ->
         by (unfold has_bridge; unfold bridge_ok in Hb; by destruct (net_bridge d)).
    eapply acts_ext.
    - cbn [when]. acts_seq.
      + apply acts_drain_while; [|done|unfold drain_fuel; lia]. intros. by apply acts_log_error, acts_route.
      + by apply acts_log_error, acts_control.
    - intros a. cbn. unfold at_addr. destruct (decide (a = addr)) as [->|].
      + rewrite Hst. unfold flush_queues, flush, link_waiting. cbn. by rewrite Hst.
      + by repeat case_match. }
  all: eapply acts_ext; [by apply acts_ret|]; intros a; cbn;
    destruct (decide (a = addr)) as [->|]; [by rewrite Hst|by repeat case_match].
Qed.

Lemma acts_retry_one addr r d : bridge_ok d →
  acts (retry_one addr r) d (at_addr addr (λ L, 
    if decide (r < max_connection_retry_attempts (cfg d))%Z then set_link (l_state L) (Some (r + 1)%Z) L
    else mkLink None (l_retry L) [] [] (l_sent L))).
Proof using wake_ok.
  intros Hb. unfold retry_one. apply acts_get. case_decide.
  - eapply acts_ext; [acts_seq; [by apply (acts_set_retry running_bridge)|by apply acts_unwrap, acts_control]|done].
  - eapply acts_ext; [acts_seq; [by apply (acts_drop_queue running_bridge)|by apply (acts_delete_state running_bridge)
      |by apply acts_trigger]|].
    intros a. cbn. unfold at_addr. by case_decide.
Qed.

Lemma acts_retries d : bridge_ok d →
  acts schedule_retries d (λ _, retry_spec (max_connection_retry_attempts (cfg d))).
Proof using wake_ok.
  intros Hb. unfold schedule_retries. apply acts_get. eapply acts_ext.
  - eapply acts_bind.
    + apply (acts_modify _ _ _ (λ _ L, set_link (l_state L) None L)); [done..|].
      intros a. rewrite view_retry_map. by rewrite lookup_empty.
    + intros d1 Hb1 Hc1 _. apply (acts_for_all _ _ _ (λ r L,
        if decide (r < max_connection_retry_attempts (cfg d))%Z then set_link (l_state L) (Some (r + 1)%Z) L
        else mkLink None (l_retry L) [] [] (l_sent L)) (cfg d)); [apply NoDup_fst_map_to_list|done|done|].
      intros addr r d2 Hb2 Hc2. rewrite <-Hc2. by apply acts_retry_one.
  - intros a. cbn. rewrite list_to_map_to_list. unfold retry_spec, view. cbn.
    destruct (retry_map d !! a) as [r|] eqn:Hr; [by case_decide|]. unfold set_link. cbn. done.
Qed.

(** Monad laws at a state, to bring a handler that returns a value into sequence. *)
Lemma acts_eq I (m m' : act ()) d g : m d = m' d → acts_on I m' d g → acts_on I m d g.
Proof. intros Heq (d' & ? & ?). exists d'. by rewrite Heq. Qed.

Lemma bind_assoc {A B} (m : act A) (f : A → act B) (k : B → act ()) d :
  ((m ≫= f) ≫= k) d = (m ≫= λ x, f x ≫= k) d.
Proof. unfold mbind, act_bind. by destruct (m d) as [? [| |]]. Qed.

Lemma bridge_ok_has d : bridge_ok d → has_bridge d = true.
Proof. unfold bridge_ok, has_bridge. by destruct (net_bridge d). Qed.

Definition set_next (addr : SocketAddr) (next : option ConnectionState) : act () :=
  match next with
  | Some next => modify (set_connections <[addr := next]>)
  | None => mret ()
  end.

Lemma acts_next addr next d : bridge_ok d →
  acts (set_next addr next) d
    (at_addr addr (λ L, match next with Some st => set_link (Some st) (l_retry L) L | None => L end)).
Proof.
  intros Hb. destruct next; cbn; [by apply (acts_set_state running_bridge)|].
  eapply acts_ext; [by apply acts_ret|]. intros a. unfold at_addr. by case_decide.
Qed.

(** A queueing branch of [route_in_state]: [m] after the data was queued. *)
Lemma acts_queueing addr x (m : act ()) next g d : bridge_ok d →
  (∀ d, bridge_ok d → acts m d (at_addr addr g)) →
  acts ((_ ← enqueue addr x; _ ← m; mret next) ≫= set_next addr) d
    (at_addr addr (λ L, let L := g (append x L) in
       match next with Some st => set_link (Some st) (l_retry L) L | None => L end)).
Proof.
  intros Hb Hm. eapply acts_eq; [apply bind_assoc|]. eapply acts_ext.
  - eapply acts_bind; [by apply (acts_enqueue running_bridge)|]. intros d1 Hb1 _ _.
    eapply acts_eq; [apply bind_assoc|].
    apply (acts_bind _ m (set_next addr next) _ (at_addr addr g)); [by apply Hm|]. intros d2 Hb2 _ _.
    by apply acts_next.
  - intros a. cbn. unfold at_addr. by case_decide.
Qed.

Lemma acts_new_connection addr d : bridge_ok d →
  acts (_ ← modify (set_retry_map <[addr := 0%Z]>); unwrap_act (on_bridge (λ b, bridge_connect b Tcp addr))) d
    (at_addr addr (λ L, set_link (l_state L) (Some 0%Z) L)).
Proof using wake_ok.
  intros Hb. eapply acts_ext; [acts_seq; [by apply (acts_set_retry running_bridge)|by apply acts_unwrap, acts_control]|done].
Qed.

Lemma acts_reconnect addr d : bridge_ok d →
  acts (_ ← modify (set_retry_map (or_insert addr 0)); on_bridge (λ b, bridge_connect b Tcp addr)) d
    (at_addr addr (λ L, set_link (l_state L) (retry_or_zero (l_retry L)) L)).
Proof using wake_ok.
  intros Hb. eapply acts_ext; [acts_seq; [by apply (acts_or_insert running_bridge)|by apply acts_control]|done].
Qed.

Lemma acts_nothing addr d : bridge_ok d → acts (mret ()) d (at_addr addr (λ L, L)).
Proof. intros. eapply acts_ext; [by apply acts_ret|]. intros a. unfold at_addr. by case_decide. Qed.

(** A connected link sends what is queued before the new data. *)
Lemma acts_connected id addr x d : bridge_ok d → l_state (view d addr) = Some (Connected id) →
  acts (route_in_state (Connected id) addr x ≫= set_next addr) d (at_addr addr (send_spec x)).
Proof using wake_ok.
  intros Hb Hst. cbn [route_in_state].
  eapply acts_eq; [apply bind_assoc|]. apply acts_get. rewrite has_data_spec. case_bool_decide as Hw.
  - apply (acts_ext _ _ _ (at_addr addr (λ L, flush_queues (append x L)))).
    + eapply acts_eq; [|apply (acts_queueing addr x (d ← get_self; when (has_bridge d) (drain (drain_fuel d addr) addr
        (λ y, on_bridge (λ b, bridge_route b addr y PTcp)))) None flush_queues d Hb)]; [reflexivity|].
      intros d' Hb'. apply acts_get. rewrite (bridge_ok_has _ Hb').
      apply acts_drain; [intros; by apply acts_route|done|unfold drain_fuel; lia].
    + intros a. unfold at_addr. destruct (decide (a = addr)) as [->|]; [|done].
      unfold send_spec, flush_queues, flush. rewrite Hst. cbn -[view]. by rewrite Hst.
  - eapply acts_eq; [apply bind_assoc|]. eapply acts_ext.
    + apply (acts_bind _ _ (set_next addr None)); [by apply acts_route|]. intros. by apply acts_next.
    + intros a. cbn. unfold at_addr. destruct (decide (a = addr)) as [->|]; [|done].
      rewrite view_waiting in Hw. apply app_eq_nil in Hw as [Hw1 Hw2].
      destruct (view d addr) as [st rt rj rg sn]. cbn in Hst, Hw1, Hw2. by subst.
Qed.

(** The branches of [route_in_state], composed with the update of the state. *)
Lemma acts_in_state st addr x d : bridge_ok d → l_state (view d addr) = Some st →
  acts (route_in_state st addr x ≫= set_next addr) d (at_addr addr (send_spec x)).
Proof using wake_ok.
  intros Hb Hst. pose proof (bridge_ok_has _ Hb) as Hh.
  assert (∀ g, g (view d addr) = send_spec x (view d addr) →
    ∀ a, at_addr addr g a (view d a) = at_addr addr (send_spec x) a (view d a)) as Hext
    by (intros g Hg a; unfold at_addr; by case_decide; subst).
  destruct st as [| |id|id|id|]; cbn [route_in_state].
  - eapply acts_eq.
    2: { eapply acts_ext; [apply (acts_queueing addr x _ (Some Initializing) _ d Hb (acts_new_connection addr))|].
         apply Hext. unfold send_spec. by rewrite Hst. }
    unfold mbind, act_bind, enqueue, modify, get_self. cbn.
    change (has_bridge (set_queue_manager _ d)) with (has_bridge d). rewrite Hh.
    by destruct (unwrap_act _ _) as [? [| |]].
  - eapply acts_ext; [apply (acts_queueing addr x (mret ()) None _ d Hb (acts_nothing addr))|].
    apply Hext. unfold send_spec. rewrite Hst. cbn -[view]. unfold append, set_link. by rewrite Hst.
  - apply (acts_connected id); done.
  - eapply acts_eq.
    2: { eapply acts_ext; [apply (acts_queueing addr x _ (Some Initializing) _ d Hb (acts_reconnect addr))|].
         apply Hext. unfold send_spec. by rewrite Hst. }
    unfold mbind, act_bind, enqueue, modify, get_self. cbn.
    change (has_bridge (set_queue_manager _ d)) with (has_bridge d). by rewrite Hh.
  - eapply acts_ext; [apply (acts_queueing addr x (mret ()) None _ d Hb (acts_nothing addr))|].
    apply Hext. unfold send_spec. rewrite Hst. cbn -[view]. unfold append, set_link. by rewrite Hst.
  - eapply acts_ext; [by apply (acts_next addr None)|].
    apply Hext. unfold send_spec. rewrite Hst. cbn -[view]. rewrite <-Hst. symmetry. apply set_link_same.
Qed.

Lemma acts_route_tcp addr x d : bridge_ok d → acts (route_remote_tcp addr x) d (at_addr addr (send_spec x)).
Proof using wake_ok.
  intros Hb. unfold route_remote_tcp. apply acts_get. eapply acts_ext.
  - eapply acts_bind; [by apply (acts_set_state running_bridge)|]. intros d1 Hb1 _ Hv1.
    apply (acts_in_state (default New (connections d !! addr))); [done|].
    rewrite Hv1. unfold at_addr. by rewrite decide_True.
  - intros a. cbn. unfold at_addr. destruct (decide (a = addr)) as [->|]; [|done].
    unfold send_spec. cbn. by destruct (default New _).
Qed.

Hypothesis bind_ok : ∀ a, is_Some (bind_socket a).

Lemma acts_event ev d : bridge_ok d →
  acts (on_event ev) d (link_step (max_connection_retry_attempts (cfg d)) (Event ev)).
Proof using wake_ok bind_ok.
  intros Hb. destruct ev as [[]|]; cbn [on_event]; try (by apply acts_trigger).
  - by apply acts_established.
  - apply (acts_lost running_bridge); [done|]. intros. by apply acts_control.
  - eapply acts_ext; [acts_seq; [by apply (acts_delete_retry running_bridge)|by apply acts_trigger]|done].
  - by apply acts_closed.
  - eapply acts_ext; [acts_seq; [by apply (acts_set_state running_bridge)|by apply acts_trigger]|done].
  - eapply acts_ext; [acts_seq; [by apply (acts_delete_state running_bridge)|by apply acts_trigger]|done].
  - by apply acts_failure.
  - eapply acts_ext; [acts_seq; [by apply (acts_enqueue_priority running_bridge)|by apply (acts_or_insert running_bridge)]|].
    intros a. cbn. unfold at_addr. by case_decide.
Qed.

Lemma acts_request req d : bridge_ok d → supported (Request req) →
  acts (handle_request req) d (link_step (max_connection_retry_attempts (cfg d)) (Request req)).
Proof using wake_ok.
  intros Hb Hs. destruct req; cbn [handle_request]; try (by apply acts_unwrap, acts_control).
  - by apply acts_close_channel.
  - cbn in Hs. rewrite Hs. by apply acts_unwrap, acts_control.
Qed.

Lemma acts_step i d : bridge_ok d → supported i →
  acts (step i) d (link_step (max_connection_retry_attempts (cfg d)) i).
Proof using wake_ok bind_ok.
  intros Hb Hs. destruct i; cbn [step].
  - by apply acts_route_tcp.
  - by apply acts_control.
  - by apply acts_event.
  - by apply acts_request.
  - by apply acts_retries.
Qed.

(** The specification of a run: every link sees all inputs. *)
Definition link_run (max : Z) (inputs : list Input) (a : SocketAddr) (L : Link) : Link :=
  foldl (λ L i, link_step max i a L) L inputs.

Lemma run_refines inputs d : bridge_ok d → Forall supported inputs →
  acts (run inputs) d (link_run (max_connection_retry_attempts (cfg d)) inputs).
Proof using wake_ok bind_ok.
  unfold run. revert d. induction inputs as [|i inputs IH]; intros d Hb Hs; cbn [for_all_act].
  - by apply acts_ret.
  - apply Forall_cons in Hs as [Hi Hs]. eapply acts_ext.
    + eapply (acts_bind _ _ _ _ _ (link_run (max_connection_retry_attempts (cfg d)) inputs)); [by apply acts_step|].
      intros d1 Hb1 Hc1 _. rewrite <-Hc1. by apply IH.
    + done.
Qed.

(** ** Order and conservation of the data of a link *)
Definition offered (a : SocketAddr) (i : Input) : option D :=
  match i with RouteTcp addr x => if decide (a = addr) then Some x else None | _ => None end.
Definition rejection (a : SocketAddr) (i : Input) : option D :=
  match i with Event (RejectedData addr x) => if decide (a = addr) then Some x else None | _ => None end.
Definition is_failure (i : Input) : Prop :=
  match i with Event (Network CriticalNetworkFailure) => True | _ => False end.

(** The input discards data of the link: sending while blocked, or giving up. *)
Definition discards (max : Z) (a : SocketAddr) (i : Input) (L : Link) : Prop :=
  match i with
  | RouteTcp addr _ => a = addr ∧ l_state L = Some Blocked
  | Retries => match l_retry L with Some r => (max ≤ r)%Z | None => False end
  | _ => False
  end.

(** A condition on every input of a run and the link it meets. *)
Fixpoint along (max : Z) (P : Input → Link → Prop) (inputs : list Input) (a : SocketAddr) (L : Link) : Prop :=
  match inputs with
  | [] => True
  | i :: inputs => P i L ∧ along max P inputs a (link_step max i a L)
  end.

(** Everything the link has been given and still has, in sending order. *)
Definition out (L : Link) : list D := l_sent L ++ link_waiting L.

Lemma out_flush st rt L : out (flush st rt L) = out L.
Proof. unfold out, flush, link_waiting. cbn. by rewrite app_nil_r. Qed.

Lemma out_set_link st rt L : out (set_link st rt L) = out L.
Proof. done. Qed.

Lemma out_append x L : out (append x L) = out L ++ [x].
Proof. unfold out, append, link_waiting. cbn. by rewrite !app_assoc. Qed.

Lemma out_append_rejected x L : out (append_rejected x L) ≡ₚ out L ++ [x].
Proof. unfold out, append_rejected, link_waiting. cbn. solve_Permutation. Qed.

#[local] Instance discards_dec max a i L : Decision (discards max a i L).
Proof.
  destruct i; cbn; try apply _.
  - apply and_dec; [apply _|]. destruct (l_state L) as [[]|]; (by left) || (by right).
  - destruct (l_retry L); apply _.
Defined.

Lemma out_step_keeps max i a L : ¬ is_failure i → rejection a i = None → ¬ discards max a i L →
  out (link_step max i a L) = out L ++ option_list (offered a i).
Proof.
  intros Hf Hr Hd. destruct i as [addr x|addr x|[[]|addr x]|[]|]; cbn [link_step offered option_list];
    try (by rewrite app_nil_r); try (by repeat case_match; rewrite ?out_flush, ?out_set_link, app_nil_r).
  - cbn in Hd. case_decide; [|by rewrite app_nil_r]. unfold send_spec.
    destruct (l_state L) as [[]|] eqn:Hst; cbn -[out append flush set_link];
      rewrite ?out_flush, ?out_set_link, ?out_append; try done.
    by destruct Hd.
  - cbn in Hr. case_decide; [done|]. by rewrite app_nil_r.
  - cbn in Hd. unfold retry_spec. destruct (l_retry L); [|by rewrite app_nil_r].
    case_decide; [|lia]. by rewrite out_set_link, app_nil_r.
Qed.

Lemma out_step_discards max i a L : discards max a i L → out (link_step max i a L) `sublist_of` out L.
Proof.
  intros Hd. destruct i; cbn in Hd; try done; cbn [link_step].
  - destruct Hd as [-> Hst]. rewrite decide_True by done. unfold send_spec. by rewrite Hst.
  - unfold retry_spec. destruct (l_retry L); [|done]. case_decide; [lia|].
    unfold out at 1, link_waiting. cbn. rewrite app_nil_r. apply sublist_inserts_r, reflexivity.
Qed.

Lemma out_step_sublist max i a L : ¬ is_failure i → rejection a i = None →
  out (link_step max i a L) `sublist_of` out L ++ option_list (offered a i).
Proof.
  intros Hf Hr. destruct (decide (discards max a i L)) as [Hd|Hd].
  - etrans; [by apply out_step_discards|]. apply sublist_inserts_r, reflexivity.
  - by rewrite out_step_keeps.
Qed.

Lemma out_step_bag max i a L : ¬ is_failure i →
  out (link_step max i a L) ⊆+ out L ++ option_list (offered a i) ++ option_list (rejection a i).
Proof.
  intros Hf. destruct (rejection a i) as [x|] eqn:Hr.
  - destruct i as [| |[|addr y]| |]; cbn in Hr; try done. case_decide; [|done]. injection Hr as ->. subst.
    cbn [link_step]. rewrite decide_True by done. rewrite out_append_rejected. done.
  - rewrite app_nil_r. by apply sublist_submseteq, out_step_sublist.
Qed.

(** The same along a run. *)
Lemma link_run_bag max inputs a L : Forall (λ i, ¬ is_failure i) inputs →
  out (link_run max inputs a L) ⊆+ out L ++ omap (offered a) inputs ++ omap (rejection a) inputs.
Proof.
  revert L. induction inputs as [|i inputs IH]; intros L Hf; [cbn; by rewrite app_nil_r|].
  apply Forall_cons in Hf as [Hi Hf]. etrans; [apply (IH (link_step max i a L)); done|].
  etrans; [apply submseteq_app; [apply (out_step_bag max i a L Hi)|reflexivity]|]. apply Permutation_submseteq.
  cbn. destruct (offered a i), (rejection a i); cbn; solve_Permutation.
Qed.

Lemma link_run_sublist max inputs a L : Forall (λ i, ¬ is_failure i) inputs → omap (rejection a) inputs = [] →
  out (link_run max inputs a L) `sublist_of` out L ++ omap (offered a) inputs.
Proof.
  revert L. induction inputs as [|i inputs IH]; intros L Hf Hr; [cbn; by rewrite app_nil_r|].
  apply Forall_cons in Hf as [Hi Hf]. cbn in Hr. destruct (rejection a i) eqn:Hri; [done|].
  etrans; [apply (IH (link_step max i a L)); done|].
  etrans; [apply sublist_app; [by apply out_step_sublist|reflexivity]|].
  cbn. destruct (offered a i); cbn; by rewrite <-app_assoc.
Qed.

Lemma link_run_keeps max inputs a L : Forall (λ i, ¬ is_failure i) inputs → omap (rejection a) inputs = [] →
  along max (λ i L, ¬ discards max a i L) inputs a L →
  out (link_run max inputs a L) = out L ++ omap (offered a) inputs.
Proof.
  revert L. induction inputs as [|i inputs IH]; intros L Hf Hr Hd; [cbn; by rewrite app_nil_r|].
  apply Forall_cons in Hf as [Hi Hf]. cbn in Hr. destruct (rejection a i) eqn:Hri; [done|].
  destruct Hd as [Hd Hal]. change (link_run max (i :: inputs) a L) with (link_run max inputs a (link_step max i a L)).
  rewrite IH by done. rewrite out_step_keeps by done. cbn. destruct (offered a i); cbn; by rewrite <-app_assoc.
Qed.

(** ** Retries *)

(** A link that is waiting for a connection. *)
Definition unsettled (L : Link) : Prop :=
  link_waiting L ≠ [] ∨ match l_state L with Some Initializing | Some (Lost _) => True | _ => False end.

(** The network thread reports a dropped connection only for a settled link. *)
Definition dropped_settled (a : SocketAddr) (i : Input) (L : Link) : Prop :=
  match i with
  | Event (Network (ConnectionDropped sp)) => a = socket_address sp → ¬ unsettled L
  | _ => True
  end.

Definition retried (L : Link) : Prop := unsettled L → is_Some (l_retry L).

Lemma retried_send x L : retried L → retried (send_spec x L).
Proof.
  unfold retried, unsettled, send_spec. destruct L as [st rt rj rg sn]. cbn.
  destruct st as [[]|]; cbn; try (by eauto); intros H [Hw|Hw]; try done; apply H; (by right) || (by left).
Qed.

Lemma retried_step max i a L : retried L → dropped_settled a i L → retried (link_step max i a L).
Proof.
  intros HL Hd. destruct i as [addr x|addr x|[[]|addr x]|[]|]; cbn [link_step]; try done;
    try (case_decide; [|done]).
  - by apply retried_send.
  - intros [[]|[]]; done.
  - intros _. by eexists.
  - intros Hu. exfalso. by apply (Hd ltac:(done)).
  - unfold retried, unsettled, link_waiting. cbn. intros [Hw|[]]. case_decide; first [done|by eexists].
  - unfold retried, unsettled, link_waiting. cbn. intros [Hw|[]]. apply HL. by left.
  - unfold retried, unsettled, link_waiting. cbn. intros [Hw|[]]. apply HL. by left.
  - unfold retried, unsettled, failure_spec. destruct L as [[[]|] rt rj rg sn]; cbn; try done; by eexists.
  - intros _. by eexists.
  - destruct (l_state L) as [[]|]; try done. case_decide; [|done]. intros [[]|[]]; done.
  - unfold retried, retry_spec. destruct (l_retry L) eqn:Hr; [|exact HL].
    case_decide; [intros _; by eexists|]. intros [[]|[]]; done.
Qed.

Lemma retried_run max inputs a L : retried L → along max (dropped_settled a) inputs a L →
  retried (link_run max inputs a L).
Proof.
  revert L. induction inputs as [|i inputs IH]; intros L HL Hal; [done|].
  destruct Hal as [Hd Hal]. apply IH; [by apply retried_step|done].
Qed.

(** A link that is retried [n] times. *)
Lemma retry_run max a n r L : l_retry L = Some r → (r + Z.of_nat n ≤ max)%Z →
  link_run max (replicate n Retries) a L = set_link (l_state L) (Some (r + Z.of_nat n)%Z) L.
Proof.
  revert r L. induction n as [|n IH]; intros r L Hr Hn; cbn [replicate].
  - rewrite Z.add_0_r, <-Hr. symmetry. apply set_link_same.
  - change (link_run max (Retries :: replicate n Retries) a L)
      with (link_run max (replicate n Retries) a (retry_spec max L)).
    unfold retry_spec. rewrite Hr, decide_True by lia.
    rewrite (IH (r + 1)%Z) by (done || lia). unfold set_link. cbn. f_equal. f_equal. lia.
Qed.

(** ** Properties *)



(** No queued message is forgotten: if every address with queued messages (or
    with a connection under way or lost) is in the retry map, this stays so over
    every run in which the network thread reports dropped connections only for
    addresses that are not waiting for one. *)
Theorem queued_data_retried inputs d : bridge_ok d → Forall supported inputs →
  (∀ a, retried (view d a)) →
  (∀ a, along (max_connection_retry_attempts (cfg d)) (dropped_settled a) inputs a (view d a)) →
  ∃ d', run inputs d = (d', Ok ()) ∧ (∀ a, retried (view d' a))
    ∧ ∀ a, waiting (queue_manager d') a ≠ [] → is_Some (retry_map d' !! a).
Proof using wake_ok bind_ok.
  intros Hb Hs Hr Hal. destruct (run_refines inputs d Hb Hs) as (d' & Hd' & _ & _ & Hv).
  assert (∀ a, retried (view d' a)) as Hr' by (intros a; rewrite Hv; by apply retried_run).
  exists d'. split_and!; [done..|]. intros a Hw. apply (Hr' a). by left.
Qed.

(** The dispatcher retries an unanswered connection exactly
    [max_connection_retry_attempts] times, keeping its queue, and on the next
    timeout gives up: the queue, the connection state and the retry counter of the
    address are gone, and nothing was sent. *)
Theorem retries_give_up d a : bridge_ok d → retry_map d !! a = Some 0%Z →
  (0 ≤ max_connection_retry_attempts (cfg d))%Z →
  (∀ n, (Z.of_nat n ≤ max_connection_retry_attempts (cfg d))%Z →
     ∃ d', run (replicate n Retries) d = (d', Ok ()) ∧ retry_map d' !! a = Some (Z.of_nat n)
       ∧ connections d' !! a = connections d !! a ∧ waiting (queue_manager d') a = waiting (queue_manager d) a)
  ∧ ∃ d', run (replicate (S (Z.to_nat (max_connection_retry_attempts (cfg d)))) Retries) d = (d', Ok ())
      ∧ retry_map d' !! a = None ∧ connections d' !! a = None ∧ waiting (queue_manager d') a = []
      ∧ sent d' a = sent d a.
Proof using wake_ok bind_ok.
  intros Hb Hr Hmax.
  assert (∀ n, Forall supported (replicate n Retries)) as Hs by (intros; by apply Forall_replicate).
  split.
  - intros n Hn. destruct (run_refines (replicate n Retries) d Hb (Hs n)) as (d' & Hd' & _ & _ & Hv).
    exists d'. specialize (Hv a). rewrite (retry_run _ _ _ 0) in Hv by done.
    split; [done|]. injection Hv as H1 H2 H3 H4 H5. split_and!; [done..|].
    unfold waiting. by rewrite H3, H4.
  - set (n := Z.to_nat _).
    destruct (run_refines (replicate (S n) Retries) d Hb (Hs _)) as (d' & Hd' & _ & _ & Hv).
    exists d'. specialize (Hv a). rewrite replicate_S_end in Hv. unfold link_run in Hv. rewrite foldl_snoc in Hv.
    fold (link_run (max_connection_retry_attempts (cfg d)) (replicate n Retries) a (view d a)) in Hv.
    rewrite (retry_run _ _ _ 0) in Hv by (done || lia). cbn [link_step] in Hv.
    unfold retry_spec in Hv. cbn [set_link l_retry] in Hv. rewrite decide_False in Hv by lia.
    injection Hv as H1 H2 H3 H4 H5. split_and!; [done..| |done]. unfold waiting. by rewrite H3, H4.
Qed.
End Dispatcher.

(** ** Witnesses *)
Definition example_remote : SocketAddr := MkSocketAddr (V4 2130706433) 8080.
Definition example_network : NetworkConfig := mkNetworkConfig example_remote Tcp 2.
Definition example_dispatcher {U : UuidApi} : NetworkDispatcher nat () :=
  mkDispatcher ∅ example_network (Some (mkBridge [] true 0 (Some example_remote))) new_queues ∅ [].
(** Two messages before the connection is established and one after. *)
Definition example_inputs {U : UuidApi} (id : SessionId) : list (Input (D:=nat) (IpNet:=())) :=
  [RouteTcp example_remote 1; RouteTcp example_remote 2; Retries;
   Event (Network (ConnectionEstablished (with_socket Tcp example_remote) id));
   RouteTcp example_remote 3].
Definition example_session : SessionId (U:=uuid128_api) := uuid_from_u128 7.

Lemma example_link {U : UuidApi} id :
  link_run 2 (example_inputs id) example_remote (view example_dispatcher example_remote)
  = mkLink (Some (Connected id)) None [] [] [1; 2; 3].
Proof. vm_compute. reflexivity. Qed.

Lemma example_keeps {U : UuidApi} id :
  along 2 (λ i L, ¬ discards 2 example_remote i L) (example_inputs id) example_remote
    (view example_dispatcher example_remote).
Proof. vm_compute. split_and!; try done; intros [_ H]; done. Qed.



Lemma queued_data_retried_witness :
  ∃ d', run (λ _, true) Some (example_inputs example_session) example_dispatcher = (d', Ok ())
    ∧ ∀ a, waiting (queue_manager d') a ≠ [] → is_Some (retry_map d' !! a).
Proof.
  destruct (queued_data_retried (λ _, true) Some (λ _, eq_refl) (λ a, ex_intro _ a eq_refl)
    (example_inputs example_session) example_dispatcher) as (d' & Hd & _ & Hr);
    [done|by repeat constructor|by intros a [[]|[]]|by intros a; repeat split|].
  exists d'. exact (conj Hd Hr).
Defined.

Lemma retries_give_up_witness :
  ∃ d', run (λ _, true) Some (replicate 3 Retries)
          (mkDispatcher {[example_remote := Initializing]} example_network
             (Some (mkBridge [] true 0 (Some example_remote))) (enqueue_data new_queues 5 example_remote)
             {[example_remote := 0%Z]} [] : NetworkDispatcher (U:=uuid128_api) nat ()) = (d', Ok ())
    ∧ retry_map d' !! example_remote = None.
Proof.
  destruct (retries_give_up (λ _, true) Some (λ _, eq_refl) (λ a, ex_intro _ a eq_refl)
    (mkDispatcher {[example_remote := Initializing]} example_network
       (Some (mkBridge [] true 0 (Some example_remote))) (enqueue_data new_queues 5 example_remote)
       {[example_remote := 0%Z]} [] : NetworkDispatcher (U:=uuid128_api) nat ()) example_remote)
    as (_ & d' & Hd & Hr & _); [done|done|done|].
  exists d'. exact (conj Hd Hr).
Defined.
