(* ===== verification/Delivery.v ===== *)
(** * Delivery through the dispatchers

    Model of the dispatchers as the actors they are: [LocalDispatcher] with the
    dead letter box ([core/src/default_components.rs]) and the handlers of
    [NetworkDispatcher] that [Dispatcher] leaves out ([network/src/dispatcher.rs]):
    local routing, registration, the cached system path, start and stop.  Further
    the methods with which a message is sent to a path
    ([core/src/actors/paths_dispatch.rs]) and with which an actor receives it
    ([core/src/actors/distributed.rs]), and the registration types
    ([core/src/messaging/registration.rs]).

    Enqueueing at an actor ([DynActorRef::tell]) is recorded: [told] lists the
    calls in order; what enqueueing does is the subject of [Scheduling].  A
    promise is a number, [answers] lists those fulfilled.  Which components are
    alive and which chunks have leases is told with every step ([Env]). *)

From S2P Require Import Prelude Extern Paths Serialisation Framing PathTrie Routing ActorStore ChunkLease Frames Buffers EncodeBuffer Messages QueueManager Dispatcher.

(** ** Registrations and envelopes *)
Section Types.
Context {U : UuidApi} {IpNet : Type}.

Abbreviation Store := (ActorStore (M := NetMessage)).
Abbreviation Policy := (StorePolicy DynActorRef NetMessage).

Inductive RegistrationPromise := Fulfil (promise : nat) | NoPromise.

Record ActorRegistration := mkActorRegistration { ar_actor : DynActorRef; ar_path : PathResolvable }.
Record PolicyRegistration := mkPolicyRegistration { pr_policy : Policy; pr_path : list string }.

Inductive RegistrationEvent :=
| RegActor (r : ActorRegistration)
| RegPolicy (r : PolicyRegistration).

Record RegistrationEnvelope := mkRegistration {
  re_event : RegistrationEvent;
  re_update : bool;
  re_promise : RegistrationPromise;
}.

Definition envelope_actor (actor : DynActorRef) (path : PathResolvable) (update : bool) : RegistrationEnvelope :=
  mkRegistration (RegActor (mkActorRegistration actor path)) update NoPromise.
Definition envelope_actor_with_promise (actor : DynActorRef) (path : PathResolvable) (update : bool) (promise : nat)
    : RegistrationEnvelope :=
  mkRegistration (RegActor (mkActorRegistration actor path)) update (Fulfil promise).
Definition envelope_policy (policy : Policy) (path : list string) (update : bool) : RegistrationEnvelope :=
  mkRegistration (RegPolicy (mkPolicyRegistration policy path)) update NoPromise.
Definition envelope_policy_with_promise (policy : Policy) (path : list string) (update : bool) (promise : nat)
    : RegistrationEnvelope :=
  mkRegistration (RegPolicy (mkPolicyRegistration policy path)) update (Fulfil promise).

(** [None] is an event of a type the dispatcher does not know. *)
Inductive DispatchEnvelope :=
| EMsg (src dst : ActorPath) (msg : DispatchData)
| EForwardedMsg (msg : NetMessage)
| ERegistration (reg : RegistrationEnvelope)
| EEvent (ev : option (NetworkDispatcherEvent DispatchData IpNet))
| ELockedChunk (trash : BufferChunk).

(** What both dispatchers have: the lookup table and what they did. *)
Record LocalSide := mkSide {
  lookup : Store;
  told : list (DynActorRef * NetMessage);
  deadletters : list NetMessage;
  answers : list (nat * res RegistrationError ActorPath);
}.

Definition set_lookup (s : Store) (l : LocalSide) : LocalSide := mkSide s (told l) (deadletters l) (answers l).
Definition add_told (d : list (DynActorRef * NetMessage)) (l : LocalSide) : LocalSide :=
  mkSide (lookup l) (told l ++ d) (deadletters l) (answers l).
Definition deadletter_network_msg (m : NetMessage) (l : LocalSide) : LocalSide :=
  mkSide (lookup l) (told l) (deadletters l ++ [m]) (answers l).
Definition add_answer (promise : RegistrationPromise) (r : res RegistrationError ActorPath) (l : LocalSide) : LocalSide :=
  match promise with
  | Fulfil p => mkSide (lookup l) (told l) (deadletters l) (answers l ++ [(p, r)])
  | NoPromise => l
  end.
End Types.
Arguments DispatchEnvelope {U} IpNet.

(** ** Sending to a path *)
Section Sending.
Context {B : BytesApi} {U : UuidApi} {IpNet : Type}.
Context (cuts : list byte → list (list byte)).

Definition ap_protocol (p : ActorPath) : Transport := sp_protocol (ap_system p).

Definition tell_with_sender (self : ActorPath) (m : BoxedSer) (from : ActorPath) : DispatchEnvelope IpNet :=
  EMsg from self (Lazy m from self).

(** [from_path] is [from.actor_path()]. *)
Definition path_tell (self : ActorPath) (m : BoxedSer) (from_path : ActorPath) : DispatchEnvelope IpNet :=
  let src := set_protocol (ap_protocol self) from_path in
  tell_with_sender self m src.

(** [dispatch.ctx().with_buffer(f)]: an encoder for the component's buffer, which
    is dropped after [f]. *)
Definition with_encoder {A} (refs : Refs) (buffer : EncodeBuffer.EncodeBuffer)
    (f : BufferEncoder → res SerError (BufferEncoder * A)) : res SerError (EncodeBuffer.EncodeBuffer * A) :=
  r ← lift_panic (get_buffer_encoder refs buffer);
  match r with
  | inl (_, err) => Err err
  | inr buf => '(buf, a) ← f buf; Ok (drop_encoder buf, a)
  end.

(** [ComponentContext::preserialise]. *)
Definition context_preserialise (refs : Refs) (content : BoxedSer) (buffer : EncodeBuffer.EncodeBuffer)
    : res SerError (EncodeBuffer.EncodeBuffer * ChunkRef) :=
  with_encoder refs buffer (preserialise_msg (Serialisable0 := boxed_impl content) cuts refs (boxed content)).

Definition tell_serialised_with_sender (refs : Refs) (self : ActorPath) (m : BoxedSer) (from : ActorPath)
    (buffer : EncodeBuffer.EncodeBuffer) : res SerError (EncodeBuffer.EncodeBuffer * DispatchEnvelope IpNet) :=
  if decide (ap_protocol self = Local) then Ok (buffer, tell_with_sender self m from)
  else
    '(buffer, msg) ← with_encoder refs buffer
      (serialise_msg (Serialisable0 := boxed_impl m) cuts refs from self (boxed m));
    Ok (buffer, EMsg from self (DSerialised (FrameLease msg))).

Definition tell_serialised (refs : Refs) (self : ActorPath) (m : BoxedSer) (from_path : ActorPath)
    (buffer : EncodeBuffer.EncodeBuffer) : res SerError (EncodeBuffer.EncodeBuffer * DispatchEnvelope IpNet) :=
  let src := set_protocol (ap_protocol self) from_path in
  tell_serialised_with_sender refs self m src buffer.

Definition tell_preserialised_with_sender (refs : Refs) (self : ActorPath) (content : ChunkRef) (from : ActorPath)
    (buffer : EncodeBuffer.EncodeBuffer) : res SerError (EncodeBuffer.EncodeBuffer * DispatchEnvelope IpNet) :=
  '(buffer, msg) ← with_encoder refs buffer (serialise_msg_with_preserialised cuts refs from self content);
  Ok (buffer, EMsg from self (DSerialised (FrameRef msg))).

Definition tell_preserialised (refs : Refs) (self : ActorPath) (content : ChunkRef) (from_path : ActorPath)
    (buffer : EncodeBuffer.EncodeBuffer) : res SerError (EncodeBuffer.EncodeBuffer * DispatchEnvelope IpNet) :=
  let src := set_protocol (ap_protocol self) from_path in
  tell_preserialised_with_sender refs self content src buffer.

Definition forward_with_original_sender (self : ActorPath) (m : NetMessage) : DispatchEnvelope IpNet :=
  EForwardedMsg (mkNetMessage (sender m) self (nm_data m) (session m)).

Definition forward_with_sender (self : ActorPath) (m : NetMessage) (from : ActorPath) : DispatchEnvelope IpNet :=
  EForwardedMsg (mkNetMessage from self (nm_data m) (session m)).
End Sending.

(** ** Receiving *)

(** What [receive_local] and [receive_network] of a [NetworkActor] call: [receive]
    with sender and message, or [on_error]. *)
Inductive Received (M : Type) {U : UuidApi} :=
| Receive (sender : option ActorPath) (msg : M)
| OnError (e : UnpackError NetMessage).
Arguments Receive {M U} _ _.
Arguments OnError {M U} _.

Definition actor_receive_local {U : UuidApi} {M} (msg : M) : Received M := Receive None msg.

Definition actor_receive_network {U : UuidApi} {M} `{!Deserialiser M}
    (unbox : BoxedSer → res (UnpackError NetData) M) (msg : NetMessage) : res Empty_set (Received M) :=
  match try_into_deserialised unbox msg with
  | Ok m => Ok (Receive (Some (d_sender _ m)) (content _ m))
  | Err e => Ok (OnError e)
  | Panic => Panic
  end.

(** ** The ways of sending agree *)
Section Tells.
Context {B : BytesApi} {U : UuidApi} {IpNet : Type}.
Context (cuts : list byte → list (list byte)).
Hypothesis cuts_join : ∀ bs, mjoin (cuts bs) = bs.
Context (m : nat) (refs : Refs).
Hypothesis head_fits : FRAME_HEAD_LEN ≤ m.
Context {T : Type} {ok : T → Prop} `{C : Codec T ok}.
(** [Serialisable::local] and the downcast of the receiving actor. *)
Context (unbox : BoxedSer → res (UnpackError NetData) T).

(** A buffer of a component between two messages. *)
Definition can_send (e : EncodeBuffer.EncodeBuffer) : Prop :=
  wf_encode m refs e ∧ write_offset e = read_offset e ∧ FRAME_HEAD_LEN ≤ min_remaining e ≤ m
  ∧ 0 < pool_chunk_size (buffer_pool e).

Definition box (v : T) : BoxedSer := mkBoxed T _ v.

(** The dispatcher is given a message for [dst] that, delivered locally, makes
    the actor receive [v] from [src]. *)
Definition reaches (src dst : ActorPath) (v : T) (e : DispatchEnvelope IpNet) : Prop :=
  ∃ data nm, e = EMsg src dst data ∧ into_local data = Ok nm ∧ receiver nm = dst
    ∧ actor_receive_network unbox nm = Ok (Receive (Some src) v).

(** Either the buffers are used up or the message reaches the actor. *)
Definition sent (src dst : ActorPath) (v : T) (r : res SerError (EncodeBuffer.EncodeBuffer * DispatchEnvelope IpNet)) : Prop :=
  r = Err NoBuffersAvailable ∨ ∃ e env, r = Ok (e, env) ∧ reaches src dst v env.

Lemma arrives_received src dst v nm : arrives src dst v nm → actor_receive_network unbox nm = Ok (Receive (Some src) v).
Proof.
  intros (Hs & _ & _ & Hd). specialize (Hd unbox). unfold actor_receive_network, try_into_deserialised, data_try_deserialise.
  unfold try_deserialise, try_deserialise_unchecked in Hd. case_decide; [|done].
  destruct (data_try_deserialise_unchecked unbox (nm_data nm)) as [t|[]|]; try done. injection Hd as ->. cbn. by rewrite Hs.
Qed.

Lemma with_encoder_spec {A} (e : EncodeBuffer.EncodeBuffer) (f : BufferEncoder → res SerError (BufferEncoder * A)) : can_send e →
  with_encoder refs e f = Err NoBuffersAvailable
  ∨ ∃ enc, fresh_encoder m refs enc ∧ with_encoder refs e f = ('(buf, a) ← f enc; Ok (drop_encoder buf, a)).
Proof.
  clear head_fits. intros (Hw & Ho & [Hm1 Hm2] & Hc). unfold with_encoder.
  destruct (get_buffer_encoder_spec m refs e Hw Ho Hm2) as [->|(e' & Hg & Hw' & Ho' & Hroom & _)]; [by left|].
  right. rewrite Hg. eexists. split; [|done]. destruct (new_encoder_spec m refs e' Hw' Ho') as (_ & Hwe & He).
  apply get_buffer_encoder_pool in Hg. unfold fresh_encoder. cbn in *. split_and!; [done|done|lia|by rewrite Hg].
Qed.

Lemma lazy_reaches src dst v : ser_id v = SER_ID T → unbox (box v) = Ok v → reaches src dst v (tell_with_sender dst (box v) src).
Proof.
  intros Hid Hu. eexists _, _. split_and!; [done|done|done|]. unfold actor_receive_network, try_into_deserialised, data_try_deserialise.
  cbn -[box]. rewrite decide_True by done. unfold data_try_deserialise_unchecked. cbn -[box]. by rewrite Hu.
Qed.

(** however a message is sent to a path, boxed, serialised by the sender or
    prepared beforehand, the dispatcher is given a message for that path, and an
    actor it is delivered to receives the same value from the same sender, whose
    path carries the transport of the destination; only running out of buffers
    stops it, and it is reported. *)
Theorem tells_agree (self from : ActorPath) (v : T) (e1 e2 e3 : EncodeBuffer.EncodeBuffer) :
  let src := set_protocol (ap_protocol self) from in
  can_send e1 → can_send e2 → can_send e3 → path_fits src → path_fits self → in_u 64 (ser_id v) → ok v →
  unbox (box v) = Ok v →
  reaches src self v (path_tell self (box v) from)
  ∧ sent src self v (tell_serialised cuts refs self (box v) from e1)
  ∧ (context_preserialise cuts refs (box v) e2 = Err NoBuffersAvailable
     ∨ ∃ e2' c, context_preserialise cuts refs (box v) e2 = Ok (e2', c)
         ∧ sent src self v (tell_preserialised cuts refs self c from e3)).
Proof using cuts_join head_fits C.
  intros src H1 H2 H3 Hs Hd Hid Hok Hu. assert (0 < m) as Hm by (unfold FRAME_HEAD_LEN in head_fits; lia).
  destruct (codec_round_trip v [] Hok) as (mb & Hmb & _). pose proof (codec_id v) as Hcid.
  destruct (deserialise_head_spec src self (ser_id v) mb Hs Hd Hid) as (sb & db & Hsb & Hdb & _). split_and!.
  - by apply lazy_reaches.
  - unfold tell_serialised, tell_serialised_with_sender. fold src. case_decide; [right; eexists _, _; split; [done|by apply lazy_reaches]|].
    destruct (with_encoder_spec e1 (serialise_msg (Serialisable0 := boxed_impl (box v)) cuts refs src self (boxed (box v))) H1) as [->|(enc & Hf & ->)];
      [by left|]. cbn [boxed_type boxed_impl boxed box].
    destruct (serialise_msg_frame cuts cuts_join m refs Hm head_fits src self v sb db mb enc Hf Hsb Hdb Hmb)
      as [->|(enc' & l & -> & Hw & Hr & Hb)]; [by left|]. right. cbn [mbind res_bind]. eexists _, _. split; [done|].
    destruct (frame_lease_arrives src self v sb db mb l Hok Hmb Hs Hd Hid Hsb Hdb Hw Hr Hb) as (nm & Hn & Ha).
    eexists _, nm. split_and!; [done|done|by destruct Ha as (_ & ? & _)|by eapply arrives_received].
  - unfold context_preserialise.
    destruct (with_encoder_spec e2 (preserialise_msg (Serialisable0 := boxed_impl (box v)) cuts refs (boxed (box v))) H2) as [->|(enc & Hf & ->)];
      [by left|]. cbn [boxed_type boxed_impl boxed box].
    destruct (preserialise_content cuts cuts_join m refs Hm head_fits v mb enc Hf Hmb) as [->|(enc' & c & -> & Hwc & Hbc)]; [by left|].
    right. cbn [mbind res_bind]. eexists _, c. split; [done|]. unfold tell_preserialised, tell_preserialised_with_sender. fold src.
    destruct (with_encoder_spec e3 (serialise_msg_with_preserialised cuts refs src self c) H3) as [->|(enc3 & Hf3 & ->)]; [by left|].
    destruct (preserialised_frame cuts cuts_join m refs Hm head_fits src self sb db c enc3 Hf3 Hsb Hdb Hwc)
      as [->|(enc3' & f & -> & Hwf & Hrf & Hbf)]; [by left|]. right. cbn [mbind res_bind]. eexists _, _. split; [done|].
    rewrite Hbc, <-app_assoc in Hbf.
    destruct (frame_ref_arrives src self v sb db mb f Hok Hmb Hs Hd Hid Hsb Hdb Hwf Hrf Hbf) as (nm & Hn & Ha).
    eexists _, nm. split_and!; [done|done|by destruct Ha as (_ & ? & _)|by eapply arrives_received].
Qed.
End Tells.

(** ** Local routing *)
Section Local.
Context {B : BytesApi} {U : UuidApi} {IpNet : Type}.
Context (default_hasher : ActorPath → Z) (implicit_routes : bool).

Abbreviation side := (St LocalSide Empty_set).

Definition lookup_path (s : ActorStore) (p : ActorPath) : res Empty_set LookupResult :=
  get_by_actor_path Messages.sender default_hasher implicit_routes s p.

(** Routing changes a policy through a shared reference, so the change stays in
    the table.  The default policies of implicit routes have no state; the
    broadcast and select parts of the policies of the crate are the policies
    themselves. *)
Definition keep_policy (dst : ActorPath) (p : StorePolicy DynActorRef NetMessage) (s : ActorStore) : ActorStore :=
  match dst with
  | Named np =>
      match split_marker (np_path np) with
      | Ok (path, _) =>
          match get (name_map s) path with
          | Some (EPolicy _) => (insert_name s path (EPolicy p)).1
          | _ => s
          end
      | _ => s
      end
  | Unique _ => s
  end.

Definition route_group (dst : ActorPath) (group : RoutingGroup DynActorRef NetMessage) (netmsg : NetMessage) : side () :=
  '(p, deliveries) ← st_lift (group_route group netmsg);
  _ ← st_modify (λ l, set_lookup (keep_policy dst p (lookup l)) l);
  st_modify (add_told deliveries).

(** The same in both dispatchers, up to what is logged. *)
Definition route_local (dst : ActorPath) (msg : DispatchData) : side () :=
  l ← st_get;
  lookup_result ← st_lift (lookup_path (lookup l) dst);
  match into_local msg with
  | Ok netmsg =>
      match lookup_result with
      | LRef actor => st_modify (add_told [(actor, netmsg)])
      | LGroup group => route_group dst group netmsg
      | LNone | LErr _ => st_modify (deadletter_network_msg netmsg)
      end
  | Err _ => mret ()
  | Panic => st_panic
  end.

(** Registration with the system path the path is resolved against. *)
Definition register_actor_in (system_path : SystemPath) (registration : ActorRegistration) (update : bool)
    (promise : RegistrationPromise) : side bool :=
  l ← st_get;
  let '(s, r) := register_actor system_path (lookup l) (ar_path registration) (ar_actor registration) update in
  _ ← st_modify (set_lookup s);
  _ ← st_modify (add_answer promise r);
  mret (match r with Ok _ => true | _ => false end).

Definition register_policy_in (system_path : SystemPath) (registration : PolicyRegistration) (update : bool)
    (promise : RegistrationPromise) : side () :=
  l ← st_get;
  let '(s, r) := register_policy system_path (lookup l) (pr_path registration) (pr_policy registration) update in
  _ ← st_modify (set_lookup s);
  st_modify (add_answer promise r).

(** [insert(PathResolvable::System, deadletter).expect(..)]. *)
Definition insert_deadletter (deadletter : DynActorRef) : side () :=
  l ← st_get;
  match store_insert (lookup l) RSystem deadletter with
  | Ok (s, _) => st_modify (set_lookup s)
  | _ => st_panic
  end.

(** *** The local dispatcher *)
Record LocalDispatcher := mkLocalDispatcher {
  ld_notify_ready : option nat;
  ld_system_path : SystemPath;
  ld_side : LocalSide;
  ld_completed : list nat;      (** promises completed *)
}.

Definition new_local_dispatcher (notify_ready : nat) : LocalDispatcher :=
  mkLocalDispatcher (Some notify_ready) (MkSystemPath Local (V4 2130706433) 0) (mkSide new_store [] [] []) [].

Abbreviation ld := (St LocalDispatcher Empty_set).

Definition ld_on_side {A} (m : side A) : ld A := λ d,
  let '(l, r) := m (ld_side d) in
  (mkLocalDispatcher (ld_notify_ready d) (ld_system_path d) l (ld_completed d), r).

Definition ld_route_local (dst : ActorPath) (msg : DispatchData) : ld () := ld_on_side (route_local dst msg).

Definition ld_deadletter (m : NetMessage) : ld () := ld_on_side (st_modify (deadletter_network_msg m)).

Definition ld_register_actor (registration : ActorRegistration) (update : bool) (promise : RegistrationPromise) : ld () :=
  d ← st_get;
  _ ← ld_on_side (register_actor_in (ld_system_path d) registration update promise);
  mret ().

Definition ld_register_policy (registration : PolicyRegistration) (update : bool) (promise : RegistrationPromise) : ld () :=
  d ← st_get;
  ld_on_side (register_policy_in (ld_system_path d) registration update promise).

(** [dst.system() == &self.system_path || dst.protocol() == Transport::Local]. *)
Definition is_home (system_path : SystemPath) (dst : ActorPath) : bool :=
  bool_decide (ap_system dst = system_path) || bool_decide (ap_protocol dst = Local).

Definition ld_receive_local (msg : DispatchEnvelope IpNet) : ld () :=
  d ← st_get;
  match msg with
  | EMsg _ dst msg =>
      if is_home (ld_system_path d) dst then ld_route_local dst msg
      else
        match into_local msg with
        | Ok netmsg => ld_deadletter netmsg
        | Err _ => mret ()
        | Panic => st_panic
        end
  | EForwardedMsg msg =>
      if is_home (ld_system_path d) (receiver msg) then ld_route_local (receiver msg) (DNetMessage msg)
      else ld_deadletter msg
  | ERegistration reg =>
      match re_event reg with
      | RegActor registration => ld_register_actor registration (re_update reg) (re_promise reg)
      | RegPolicy registration => ld_register_policy registration (re_update reg) (re_promise reg)
      end
  | EEvent _ => mret ()
  | ELockedChunk _ => mret ()
  end.

Definition ld_on_start (deadletter : DynActorRef) : ld () :=
  _ ← ld_on_side (insert_deadletter deadletter);
  st_modify (λ d, mkLocalDispatcher None (ld_system_path d) (ld_side d)
    (ld_completed d ++ match ld_notify_ready d with Some p => [p] | None => [] end)).
End Local.

(** ** The network dispatcher *)
Section Network.
Context {B : BytesApi} {U : UuidApi} {IpNet : Type}.
Context (default_hasher : ActorPath → Z) (implicit_routes : bool).
Context (wake : nat → bool) (bind_socket : SocketAddr → option SocketAddr).

(** What a step is told about the world: which components are alive, and which
    chunks have leases. *)
Record Env := mkEnv { env_alive : Alive; env_refs : Refs }.

(** All of [NetworkDispatcher]; [remote] holds the fields of connection
    management. *)
Record NetDispatcher := mkNetDispatcher {
  remote : NetworkDispatcher DispatchData IpNet;
  system_path : option SystemPath;
  reaper : ActorRefReaper;
  notify_ready : option nat;
  garbage_buffers : list BufferChunk;
  nd_side : LocalSide;
  completed : list nat;                              (** promises completed *)
  wakeups : list Z;                                  (** intervals of the reaper timers scheduled *)
  retired : list (Bridge DispatchData IpNet);        (** bridges that were stopped *)
}.

Definition set_remote (r : NetworkDispatcher DispatchData IpNet) (d : NetDispatcher) : NetDispatcher :=
  mkNetDispatcher r (system_path d) (reaper d) (notify_ready d) (garbage_buffers d) (nd_side d) (completed d) (wakeups d) (retired d).
Definition set_system_path (p : option SystemPath) (d : NetDispatcher) : NetDispatcher :=
  mkNetDispatcher (remote d) p (reaper d) (notify_ready d) (garbage_buffers d) (nd_side d) (completed d) (wakeups d) (retired d).
Definition set_reaper (r : ActorRefReaper) (d : NetDispatcher) : NetDispatcher :=
  mkNetDispatcher (remote d) (system_path d) r (notify_ready d) (garbage_buffers d) (nd_side d) (completed d) (wakeups d) (retired d).
Definition set_garbage (g : list BufferChunk) (d : NetDispatcher) : NetDispatcher :=
  mkNetDispatcher (remote d) (system_path d) (reaper d) (notify_ready d) g (nd_side d) (completed d) (wakeups d) (retired d).
Definition set_side (l : LocalSide) (d : NetDispatcher) : NetDispatcher :=
  mkNetDispatcher (remote d) (system_path d) (reaper d) (notify_ready d) (garbage_buffers d) l (completed d) (wakeups d) (retired d).
Definition add_wakeup (z : Z) (d : NetDispatcher) : NetDispatcher :=
  mkNetDispatcher (remote d) (system_path d) (reaper d) (notify_ready d) (garbage_buffers d) (nd_side d) (completed d) (wakeups d ++ [z]) (retired d).
Definition retire (b : Bridge DispatchData IpNet) (d : NetDispatcher) : NetDispatcher :=
  mkNetDispatcher (set_net_bridge None (remote d)) (system_path d) (reaper d) (notify_ready d) (garbage_buffers d) (nd_side d) (completed d) (wakeups d) (retired d ++ [b]).
(** [if let Some(promise) = self.notify_ready.take() { promise.complete() }]. *)
Definition complete_ready (d : NetDispatcher) : NetDispatcher :=
  mkNetDispatcher (remote d) (system_path d) (reaper d) None (garbage_buffers d) (nd_side d)
    (completed d ++ match notify_ready d with Some p => [p] | None => [] end) (wakeups d) (retired d).

Abbreviation nd := (St NetDispatcher NetworkBridgeError).

Definition on_side {A} (m : St LocalSide Empty_set A) : nd A := λ d,
  let '(l, r) := m (nd_side d) in
  (set_side l d, match r with Ok a => Ok a | Err e => match e with end | Panic => Panic end).

Definition on_remote {A} (m : Act DispatchData IpNet A) : nd A := λ d,
  let '(r, a) := m (remote d) in (set_remote r d, a).

(** [NetworkDispatcher::with_config]. *)
Definition with_config (c : NetworkConfig) (notify_ready : nat) : NetDispatcher :=
  mkNetDispatcher (new_dispatcher c) None (new_reaper Aimd) (Some notify_ready) [] (mkSide new_store [] [] []) [] [] [].

(** *** The system path *)
Definition get_system_path : nd SystemPath :=
  d ← st_get;
  match system_path d with
  | Some path => mret path
  | None =>
      match net_bridge (remote d) with
      | Some net_bridge =>
          match bound_address net_bridge with
          | Some bound_addr =>
              let sp := with_socket (cfg_transport (cfg (remote d))) bound_addr in
              _ ← st_modify (set_system_path (Some sp));
              mret sp
          | None => st_panic
          end
      | None => st_panic
      end
  end.

Definition system_path_ref : nd SystemPath :=
  d ← st_get;
  _ ← match system_path d with None => (_ ← get_system_path; mret ()) | Some _ => mret () end;
  d ← st_get;
  st_lift (unwrap (system_path d)).

(** *** Routing *)
Definition net_route_local (dst : ActorPath) (msg : DispatchData) : nd () :=
  on_side (route_local default_hasher implicit_routes dst msg).

Definition net_route (dst : ActorPath) (msg : DispatchData) : nd () :=
  sys ← system_path_ref;
  if decide (sys = ap_system dst) then net_route_local dst msg
  else
    match ap_protocol dst with
    | Local => net_route_local dst msg
    | Tcp => on_remote (route_remote_tcp wake (socket_address (ap_system dst)) msg)
    | Udp => on_remote (route_remote_udp wake (socket_address (ap_system dst)) msg)
    end.

(** *** Registration and reaping *)

(** [garbage_buffers.drain(..)], keeping the chunks that cannot be freed yet. *)
Definition collect_garbage (refs : Refs) (garbage : list BufferChunk) : list BufferChunk :=
  omap (λ trash, let '(trash, freed) := free refs trash in if freed : bool then None else Some trash) garbage.

Definition net_schedule_reaper (env : Env) : nd () :=
  d ← st_get;
  match schedule_reaper (env_alive env) (lookup (nd_side d)) (reaper d) with
  | Ok (s, r, next_wakeup) =>
      _ ← st_modify (set_side (set_lookup s (nd_side d)));
      _ ← st_modify (set_reaper r);
      _ ← st_modify (set_garbage (collect_garbage (env_refs env) (garbage_buffers d)));
      st_modify (add_wakeup next_wakeup)
  | _ => st_panic
  end.

(** What a path is resolved against; complete paths need no system path. *)
Definition resolve_against (path : PathResolvable) : nd SystemPath :=
  match path with
  | RPath actor_path => mret (ap_system actor_path)
  | _ => get_system_path
  end.

Definition net_register_actor (env : Env) (registration : ActorRegistration) (update : bool)
    (promise : RegistrationPromise) : nd () :=
  sys ← resolve_against (ar_path registration);
  ok ← on_side (register_actor_in sys registration update promise);
  d ← st_get;
  st_when (ok && negb (scheduled (reaper d))) (net_schedule_reaper env).

Definition net_register_policy (registration : PolicyRegistration) (update : bool) (promise : RegistrationPromise) : nd () :=
  sys ← get_system_path;
  on_side (register_policy_in sys registration update promise).

(** [if let Err(e) = m { error!(..) }]. *)
Definition nd_log_error (m : nd ()) : nd () := _ ← st_try m; mret ().

Definition net_receive_local (env : Env) (msg : DispatchEnvelope IpNet) : nd () :=
  match msg with
  | EMsg _ dst msg => nd_log_error (net_route dst msg)
  | EForwardedMsg msg => nd_log_error (net_route (receiver msg) (DNetMessage msg))
  | ERegistration reg =>
      match re_event reg with
      | RegActor rea => net_register_actor env rea (re_update reg) (re_promise reg)
      | RegPolicy rep => net_register_policy rep (re_update reg) (re_promise reg)
      end
  | EEvent (Some ev) => on_remote (on_event wake bind_socket ev)
  | EEvent None => mret ()
  | ELockedChunk trash => st_modify (λ d, set_garbage (garbage_buffers d ++ [trash]) d)
  end.

(** *** Lifecycle *)

(** [algorithm] is the reaper algorithm named in the configuration. *)
Definition net_start (algorithm : option string) (deadletter : DynActorRef) : nd () :=
  r ← st_lift (match reaper_from_config algorithm with Ok r => Ok r | _ => Panic end);
  _ ← st_modify (set_reaper r);
  d ← st_get;
  _ ← on_remote (start_bridge bind_socket (cfg_addr (cfg (remote d))));
  _ ← on_side (insert_deadletter deadletter);
  on_remote (schedule_retries wake).

Definition net_on_start (algorithm : option string) (deadletter : DynActorRef) : nd () :=
  _ ← net_start algorithm deadletter;
  st_modify complete_ready.

(** [Bridge::stop] and [Bridge::kill] consume the bridge after telling the
    network thread; that the thread is waited for is not visible here. *)
Definition net_end (event : DispatchEvent DispatchData IpNet) : nd () :=
  d ← st_get;
  match net_bridge (remote d) with
  | Some b => st_modify (retire (send_and_wake wake b event).1)
  | None => mret ()
  end.
Definition net_on_stop : nd () := net_end StopThread.
Definition net_on_kill : nd () := net_end KillThread.

(** ** Runs

    Everything that reaches the dispatcher component or its lookup table: the
    messages of other components, requests on the status port, its timers and
    lifecycle events, calls of [system_path], and the messages that the network
    thread delivers through the shared table. *)
Inductive Stimulus :=
| Envelope (e : DispatchEnvelope IpNet)
| StatusRequest (req : NetworkStatusRequest IpNet)
| RetryTimer
| ReaperTimer
| AskSystemPath
| Incoming (envelope : NetMessage)
| OnStart (algorithm : option string) (deadletter : DynActorRef)
| OnStop
| OnKill.

(** [deliver_net_message] of the network thread. *)
Definition incoming (envelope : NetMessage) : St LocalSide Empty_set () :=
  l ← st_get;
  lookup_result ← st_lift (lookup_path default_hasher implicit_routes (lookup l) (receiver envelope));
  match lookup_result with
  | LRef actor => st_modify (add_told [(actor, envelope)])
  | LGroup group => route_group (receiver envelope) group envelope
  | LNone | LErr _ => mret ()
  end.

Definition net_step (env : Env) (s : Stimulus) : nd () :=
  match s with
  | Envelope e => net_receive_local env e
  | StatusRequest req => on_remote (handle_request wake req)
  | RetryTimer => on_remote (schedule_retries wake)
  | ReaperTimer => net_schedule_reaper env
  | AskSystemPath => _ ← get_system_path; mret ()
  | Incoming envelope => on_side (incoming envelope)
  | OnStart algorithm deadletter => net_on_start algorithm deadletter
  | OnStop => net_on_stop
  | OnKill => net_on_kill
  end.

Definition net_run (l : list (Env * Stimulus)) : nd () := st_for l (λ '(env, s), net_step env s).
End Network.
Arguments Stimulus {U} IpNet.
Arguments NetDispatcher {U} IpNet.

(** Evaluate stateful code on a given state. *)
Ltac st_unfold := unfold mbind, st_bind, st_get, st_modify, st_lift, mret, st_ret; cbn -[view register_actor register_policy lookup_path keep_policy].

(** ** What stays registered *)
Section Kept.
Context {U : UuidApi}.
Context (k : Key) (a : DynActorRef).

Definition holds (l : LocalSide) : Prop := ActorStore.view (lookup l) k = Some (ERef a).
Definition keeps (l l' : LocalSide) : Prop := holds l → holds l'.

#[global] Instance keeps_preorder : PreOrder keeps.
Proof. split; unfold keeps; [by intros l|intros l1 l2 l3; auto]. Qed.

(** No registration replaces the entry. *)
Definition leaves (reg : RegistrationEnvelope) : Prop :=
  re_update reg = true →
  match re_event reg with
  | RegActor r => key_of (ar_path r) ≠ k
  | RegPolicy r => KName (pr_path r) ≠ k
  end.

Lemma keep_policy_holds dst p s : ActorStore.view s k = Some (ERef a) → ActorStore.view (keep_policy dst p s) k = Some (ERef a).
Proof.
  intros Hk. destruct dst as [up|np]; [done|]. cbn [keep_policy]. destruct (split_marker (np_path np)) as [[path m]| |]; [|done..].
  destruct (get (name_map s) path) as [[r|q]|] eqn:Hg; [done| |done].
  rewrite (proj1 (insert_name_view s path (EPolicy p))). unfold point_update. case_decide as Hd; [|done].
  subst k. cbn in Hk. rewrite to_map_lookup, Hg in Hk. congruence.
Qed.

Lemma register_actor_holds sys (s : ActorStore (M := NetMessage)) path actor update : (update = true → key_of path ≠ k) →
  ActorStore.view s k = Some (ERef a) → ActorStore.view (register_actor sys s path actor update).1 k = Some (ERef a).
Proof.
  intros Hu Hk. unfold register_actor. destruct (resolve_path sys path); [|done..].
  rewrite contains_view. destruct (bool_decide _ && negb update) eqn:Hc; [done|].
  pose proof (store_insert_view s path actor) as Hs. destruct (validated path) as [[]| |].
  - destruct Hs as (s' & -> & Hv). cbn. rewrite Hv. unfold point_update. case_decide as Hd; [|done].
    destruct update; [by destruct (Hu eq_refl)|]. rewrite andb_true_r, bool_decide_eq_false, Hd in Hc.
    destruct Hc. by exists (ERef a).
  - by rewrite Hs.
  - by rewrite Hs.
Qed.

Lemma register_policy_holds sys (s : ActorStore (M := NetMessage)) path pol update : (update = true → KName path ≠ k) →
  ActorStore.view s k = Some (ERef a) → ActorStore.view (register_policy sys s path pol update).1 k = Some (ERef a).
Proof.
  intros Hu Hk. unfold register_policy. destruct (resolve_path sys (RSegments path)); [|done..].
  rewrite contains_view. cbn [key_of]. destruct (bool_decide _ && negb update) eqn:Hc; [done|].
  pose proof (set_routing_policy_view s path pol) as Hs. destruct (validate_insert_path path) as [[]| |].
  - destruct Hs as (s' & -> & Hv). cbn. rewrite Hv. unfold point_update. case_decide as Hd; [|done].
    destruct update; [by destruct (Hu eq_refl)|]. rewrite andb_true_r, bool_decide_eq_false, Hd in Hc.
    destruct Hc. by exists (ERef a).
  - by rewrite Hs.
  - by rewrite Hs.
Qed.

Lemma add_answer_lookup pr r l : lookup (add_answer pr r l) = lookup l.
Proof. by destruct pr. Qed.

Lemma register_actor_in_keeps sys r update pr : (update = true → key_of (ar_path r) ≠ k) →
  respects keeps (register_actor_in sys r update pr).
Proof.
  intros Hu l _. unfold register_actor_in. st_unfold. pose proof (register_actor_holds sys (lookup l) (ar_path r) (ar_actor r) update Hu) as Hr.
  destruct (register_actor _ _ _ _ _) as [s res]. cbn in *. unfold keeps, holds. by rewrite add_answer_lookup.
Qed.

Lemma register_policy_in_keeps sys r update pr : (update = true → KName (pr_path r) ≠ k) →
  respects keeps (register_policy_in sys r update pr).
Proof.
  intros Hu l _. unfold register_policy_in. st_unfold. pose proof (register_policy_holds sys (lookup l) (pr_path r) (pr_policy r) update Hu) as Hr.
  destruct (register_policy _ _ _ _ _) as [s res]. cbn in *. unfold keeps, holds. by rewrite add_answer_lookup.
Qed.

Lemma insert_deadletter_keeps d : k ≠ KDeadletter → respects keeps (insert_deadletter d).
Proof.
  intros Hk l _. unfold insert_deadletter. st_unfold. unfold keeps, holds. cbn. by destruct k.
Qed.

Lemma cleanup_holds alive (s : ActorStore (M := NetMessage)) : alive (component a) = true → ActorStore.view s k = Some (ERef a) → ActorStore.view (cleanup alive s).1 k = Some (ERef a).
Proof.
  intros Ha Hk. rewrite (proj1 (cleanup_view alive s)), Hk. unfold keep_view, ref_alive, can_upgrade_component.
  destruct k; cbn; by rewrite ?Ha.
Qed.

Section Routes.
Context {B : BytesApi} (default_hasher : ActorPath → Z) (implicit_routes : bool).

Lemma route_group_keeps dst g m : respects keeps (route_group dst g m).
Proof.
  unfold route_group. respects; apply respects_modify; intros ? Hk; unfold holds in *; cbn; [by apply keep_policy_holds|done].
Qed.

Lemma route_local_keeps dst msg : respects keeps (route_local default_hasher implicit_routes dst msg).
Proof.
  pose proof route_group_keeps. unfold route_local. respects; apply respects_modify; intros ? Hk; exact Hk.
Qed.

Lemma incoming_keeps m : respects keeps (incoming default_hasher implicit_routes m).
Proof.
  pose proof route_group_keeps. unfold incoming. respects; apply respects_modify; intros ? Hk; exact Hk.
Qed.
End Routes.
End Kept.

(** A path that is completed with the path of the system, and does not name the
    dead letter box. *)
Definition own_path {U : UuidApi} (path : PathResolvable) : bool :=
  match path with
  | RPath _ | RSystem => false
  | RSegments p => bool_decide (p ≠ [])
  | RActorId _ | RAlias _ => true
  end.

Lemma own_path_key {U : UuidApi} path : own_path path = true → key_of path ≠ KName [] ∧ key_of path ≠ KDeadletter.
Proof.
  destruct path as [[up|np]|id|alias|p|]; cbn; try done; intros Hp.
  - split; [|done]. intros [= H]. by apply validate_parse_nonempty in H.
  - rewrite bool_decide_eq_true in Hp. split; [|done]. congruence.
Qed.

Lemma own_path_system {U : UuidApi} sys path ap : own_path path = true → resolve_path sys path = Ok ap → ap_system ap = sys.
Proof.
  destruct path as [[up|np]|id|alias|p|]; cbn; try done; intros _ H.
  - by injection H as <-.
  - apply bind_Ok in H as (np & Hn & [= <-]). apply bind_Ok in Hn as (? & _ & [= <-]). done.
  - apply bind_Ok in H as (np & Hn & [= <-]). apply bind_Ok in Hn as (? & _ & [= <-]). done.
Qed.

Section Delivering.
Context {B : BytesApi} {U : UuidApi} {IpNet : Type}.
Context (default_hasher : ActorPath → Z) (implicit_routes : bool).

Lemma own_path_found sys path ap a (s : ActorStore (M := NetMessage)) : own_path path = true →
  resolve_path sys path = Ok ap → validated path = Ok () → ActorStore.view s (key_of path) = Some (ERef a) →
  lookup_path default_hasher implicit_routes s ap = Ok (LRef a).
Proof.
  intros Ho Hr Hv Hk. destruct (own_path_key path Ho) as [Hn _]. eapply resolved_lookup; try done.
  intros np ->. done.
Qed.

Lemma route_local_ref l dst msg a nm : lookup_path default_hasher implicit_routes (lookup l) dst = Ok (LRef a) →
  into_local msg = Ok nm → route_local default_hasher implicit_routes dst msg l = (add_told [(a, nm)] l, Ok ()).
Proof. intros Hl Hi. unfold route_local. st_unfold. by rewrite Hl, Hi. Qed.

(** *** Groups *)

(** The lookup of a group path, and the table after its policy was used. *)
Lemma group_path_lookup sys p (s : ActorStore (M := NetMessage)) pol cs : p ≠ [] → validate_insert_path p = Ok () →
  get_node (name_map s) p = Some (Node (Some (EPolicy pol)) cs) →
  lookup_path default_hasher implicit_routes s (Named (MkNamedPath sys p))
  = Ok (LGroup (mkGroup (omap entry_ref (list_values (map_to_list cs))) pol)).
Proof.
  intros Hne Hv Hn. unfold lookup_path, get_by_actor_path, get_by_named_path. cbn [np_path]. rewrite decide_False by done.
  rewrite insert_path_last by done. cbn [mbind res_bind]. rewrite Hn. cbn. by rewrite <-(group_members_policy (Some pol) cs).
Qed.

Lemma keep_policy_node sys p (s : ActorStore (M := NetMessage)) pol pol' cs : p ≠ [] → validate_insert_path p = Ok () →
  get_node (name_map s) p = Some (Node (Some (EPolicy pol)) cs) →
  get_node (name_map (keep_policy (Named (MkNamedPath sys p)) pol' s)) p = Some (Node (Some (EPolicy pol')) cs).
Proof.
  intros Hne Hv Hn. cbn [keep_policy np_path]. rewrite insert_path_last by done.
  assert (get (name_map s) p = Some (EPolicy pol)) as -> by (unfold get; by rewrite Hn).
  unfold insert_name. pose proof (insert_owned_node p (EPolicy pol') (name_map s) _ Hn) as Hi.
  by destruct (insert_owned p (EPolicy pol') (name_map s)).
Qed.

(** dispatching messages one after the other to the path of a routing group is
    routing them through the policy registered there, whose state is kept from
    message to message: every message is delivered as the policy decides, in
    order, to the actors registered below the path, and none to dead letters. *)
Theorem group_dispatch_routes {P} (I : RoutingPolicy P DynActorRef NetMessage) (sys : SystemPath) (p : list string)
    (pol q : P) (cs : gmap string (PathTrie ActorTreeEntry)) (msgs : list DispatchData) (nms : list NetMessage)
    (ds : list (DynActorRef * NetMessage)) (l : LocalSide) :
  p ≠ [] → validate_insert_path p = Ok () →
  get_node (name_map (lookup l)) p = Some (Node (Some (EPolicy (mkStorePolicy pol))) cs) →
  Forall2 (λ msg nm, into_local msg = Ok nm) msgs nms →
  route_all pol (omap entry_ref (list_values (map_to_list cs))) nms = Ok (q, ds) →
  ∃ l', st_for msgs (route_local default_hasher implicit_routes (Named (MkNamedPath sys p))) l = (l', Ok ())
    ∧ told l' = told l ++ ds ∧ deadletters l' = deadletters l
    ∧ get_node (name_map (lookup l')) p = Some (Node (Some (EPolicy (mkStorePolicy q))) cs)
    ∧ uuid_map (lookup l') = uuid_map (lookup l).
Proof.
  intros Hne Hv Hn Hm. revert pol ds l Hn. induction Hm as [|msg nm msgs nms Hi _ IH]; intros pol ds l Hn Hr; cbn in Hr.
  { injection Hr as <- <-. exists l. by rewrite app_nil_r. }
  apply bind_Ok in Hr as ([p1 d1] & H1 & Hr). apply bind_Ok in Hr as ([p2 d2] & H2 & [= <- <-]).
  cbn [st_for]. pose proof (keep_policy_node sys p (lookup l) _ (mkStorePolicy p1) cs Hne Hv Hn) as Hn'.
  assert (route_local default_hasher implicit_routes (Named (MkNamedPath sys p)) msg l
    = (add_told d1 (set_lookup (keep_policy (Named (MkNamedPath sys p)) (mkStorePolicy p1) (lookup l)) l), Ok ())) as Hl.
  { unfold route_local. st_unfold. rewrite (group_path_lookup sys p (lookup l) _ cs Hne Hv Hn), Hi. unfold route_group. st_unfold.
    unfold group_route, store_route. cbn [group_policy members policy policy_impl policy_type]. by rewrite H1. }
  unfold mbind at 1, st_bind at 1. rewrite Hl. destruct (IH p1 d2 (add_told d1 (set_lookup (keep_policy (Named (MkNamedPath sys p)) (mkStorePolicy p1) (lookup l)) l)) Hn' H2) as (l' & -> & Ht & Hd & Hp & Hu). exists l'.
  split_and!; [done|rewrite Ht; cbn; by rewrite <-app_assoc|done|done|]. rewrite Hu. cbn [add_told set_lookup lookup keep_policy np_path]. rewrite insert_path_last by done.
  assert (get (name_map (lookup l)) p = Some (EPolicy (mkStorePolicy pol))) as -> by (unfold get; by rewrite Hn).
  unfold insert_name. by destruct (insert_owned _ _ _).
Qed.

(** *** The local dispatcher *)
Local Abbreviation ld_receive := (ld_receive_local (IpNet := IpNet) default_hasher implicit_routes).

Definition ld_run (l : list (DispatchEnvelope IpNet)) : St LocalDispatcher Empty_set () :=
  st_for l (ld_receive).

Section LdKept.
Context (k : Key) (a : DynActorRef) (sys : SystemPath).

Definition ld_keeps (d d' : LocalDispatcher) : Prop :=
  ld_system_path d' = ld_system_path d ∧ keeps k a (ld_side d) (ld_side d').

#[local] Instance ld_keeps_preorder : PreOrder ld_keeps.
Proof. split; [by intros d|]. intros d1 d2 d3 [H1 H2] [H3 H4]. split; [congruence|by etrans]. Qed.

Lemma ld_on_side_keeps {A} (m : St LocalSide Empty_set A) : respects (keeps k a) m → respects ld_keeps (ld_on_side m).
Proof.
  intros Hm d Hp. specialize (Hm (ld_side d)). unfold ld_on_side in *. destruct (m (ld_side d)) as [l r]. cbn in *. split; [done|by apply Hm].
Qed.

Definition spares (e : DispatchEnvelope IpNet) : Prop :=
  match e with ERegistration reg => leaves k reg | _ => True end.

Lemma ld_receive_keeps e : spares e → respects ld_keeps (ld_receive e).
Proof.
  intros He. pose proof route_local_keeps. unfold ld_receive_local, ld_route_local, ld_deadletter, ld_register_actor, ld_register_policy.
  apply respects_bind; [exact _|apply respects_get; exact _|]. intros d.
  assert (∀ m, respects ld_keeps (ld_on_side (st_modify (deadletter_network_msg m)))) as Hdl.
  { intros m. apply ld_on_side_keeps, respects_modify. intros ? Hk. exact Hk. }
  destruct e as [src dst msg|msg|[[r|r] upd pr]|ev|trash]; cbn [re_event re_update re_promise].
  - respects; by apply ld_on_side_keeps.
  - respects; by apply ld_on_side_keeps.
  - respects. by apply ld_on_side_keeps, register_actor_in_keeps.
  - respects. by apply ld_on_side_keeps, register_policy_in_keeps.
  - respects.
  - respects.
Qed.

Lemma ld_run_keeps l : Forall spares l → respects ld_keeps (ld_run l).
Proof.
  induction 1 as [|e l He _ IH]; [apply respects_ret; exact _|]. apply respects_bind; [exact _| |by intros _].
  by apply ld_receive_keeps.
Qed.
End LdKept.

Lemma ld_registers a path update pr d d1 ap :
  ld_receive (ERegistration (envelope_actor_with_promise a path update pr)) d = (d1, Ok ()) →
  answers (ld_side d1) = answers (ld_side d) ++ [(pr, Ok ap)] →
  ld_system_path d1 = ld_system_path d ∧ resolve_path (ld_system_path d) path = Ok ap ∧ validated path = Ok ()
  ∧ holds (key_of path) a (ld_side d1).
Proof.
  unfold ld_receive_local, ld_register_actor, ld_on_side, register_actor_in. st_unfold.
  destruct (register_actor _ _ _ _ _) as [s r] eqn:Hr. cbn. intros [= <-] Ha. cbn in Ha.
  apply app_inv_head in Ha as [= ->]. apply register_actor_Ok in Hr as (Hres & Hv & Hk). split_and!; try done.
  unfold holds. cbn. rewrite Hk. unfold point_update. by rewrite decide_True.
Qed.

(** in a system without network, a message to the path under which an actor was
    registered reaches that actor and no other, unchanged, whatever messages and
    registrations the dispatcher handles in between, as long as none of them
    replaces the entry. *)
Theorem local_registered_actor_receives (d d1 d2 : LocalDispatcher) (path : PathResolvable) (a : DynActorRef)
    (update : bool) (promise : nat) (ap src : ActorPath) (between : list (DispatchEnvelope IpNet))
    (msg : DispatchData) (nm : NetMessage) :
  own_path path = true →
  ld_receive (ERegistration (envelope_actor_with_promise a path update promise)) d = (d1, Ok ()) →
  answers (ld_side d1) = answers (ld_side d) ++ [(promise, Ok ap)] →
  Forall (spares (key_of path)) between →
  ld_run between d1 = (d2, Ok ()) →
  into_local msg = Ok nm →
  ∃ d3, ld_receive (EMsg src ap msg) d2 = (d3, Ok ())
    ∧ told (ld_side d3) = told (ld_side d2) ++ [(a, nm)]
    ∧ deadletters (ld_side d3) = deadletters (ld_side d2)
    ∧ lookup (ld_side d3) = lookup (ld_side d2).
Proof.
  intros Ho Hreg Hans Hb Hrun Hi. destruct (ld_registers _ _ _ _ _ _ _ Hreg Hans) as (Hs & Hres & Hv & Hk).
  pose proof (ld_run_keeps (key_of path) a between Hb d1) as Hkeep. rewrite Hrun in Hkeep.
  destruct (Hkeep ltac:(done)) as [Hs2 Hk2]. cbn in Hs2, Hk2. specialize (Hk2 Hk).
  pose proof (own_path_found _ _ _ _ _ Ho Hres Hv Hk2) as Hl. pose proof (own_path_system _ _ _ Ho Hres) as Hsys.
  unfold ld_receive_local. st_unfold. unfold is_home. rewrite bool_decide_true by congruence. cbn [orb].
  unfold ld_route_local, ld_on_side. rewrite (route_local_ref _ _ _ a nm) by done. eexists. split; [done|]. done.
Qed.

(** *** The network dispatcher *)
Context (wake : nat → bool) (bind_socket : SocketAddr → option SocketAddr).
Local Abbreviation receive := (net_receive_local (IpNet := IpNet) default_hasher implicit_routes wake bind_socket).
Local Abbreviation step := (net_step (IpNet := IpNet) default_hasher implicit_routes wake bind_socket).
Local Abbreviation run := (net_run (IpNet := IpNet) default_hasher implicit_routes wake bind_socket).

Section NdKept.
Context (k : Key) (a : DynActorRef).

(** A known system path stays, and so does the entry. *)
Definition nd_keeps (d d' : NetDispatcher IpNet) : Prop :=
  (∀ p, system_path d = Some p → system_path d' = Some p) ∧ keeps k a (nd_side d) (nd_side d').

#[local] Instance nd_keeps_preorder : PreOrder nd_keeps.
Proof. split; [by intros d|]. intros d1 d2 d3 [H1 H2] [H3 H4]. split; [by auto|by etrans]. Qed.

Lemma on_side_keeps {A} (m : St LocalSide Empty_set A) : respects (keeps k a) m → respects nd_keeps (on_side m).
Proof.
  intros Hm d Hp. specialize (Hm (nd_side d)). unfold on_side in *. destruct (m (nd_side d)) as [l [x|[]|]]; cbn in *; [|done].
  split; [done|by apply Hm].
Qed.

Lemma on_remote_keeps {A} (m : Act DispatchData IpNet A) : respects nd_keeps (on_remote m).
Proof. intros d _. unfold on_remote. destruct (m (remote d)) as [r x]. by split. Qed.

Lemma modify_keeps (f : NetDispatcher IpNet → NetDispatcher IpNet) : (∀ d, system_path (f d) = system_path d) →
  (∀ d, nd_side (f d) = nd_side d) → respects nd_keeps (st_modify (E := NetworkBridgeError) f).
Proof. intros H1 H2. apply respects_modify. intros d. split; [intros p; by rewrite H1|]. unfold keeps. by rewrite H2. Qed.

Lemma get_system_path_keeps : respects nd_keeps (get_system_path (IpNet := IpNet)).
Proof.
  intros d _. unfold get_system_path. st_unfold. destruct (system_path d) as [p|] eqn:Hp; [reflexivity|].
  destruct (net_bridge (remote d)) as [b|]; [|by split]. destruct (bound_address b); [|by split]. split; [|done]. intros p. by rewrite Hp.
Qed.

Lemma route_keeps dst msg : respects nd_keeps (net_route default_hasher implicit_routes wake (IpNet := IpNet) dst msg).
Proof.
  unfold net_route, system_path_ref, net_route_local. pose proof get_system_path_keeps.
  respects; first [by apply on_side_keeps, route_local_keeps|apply on_remote_keeps|done].
Qed.

Lemma reaper_keeps env : env_alive env (component a) = true → respects nd_keeps (net_schedule_reaper (IpNet := IpNet) env).
Proof.
  intros Ha d _. unfold net_schedule_reaper, schedule_reaper. st_unfold. destruct (scheduled (reaper d)); cbn; [|split; [done|intros Hk; exact Hk]].
  pose proof (cleanup_holds k a (env_alive env) (lookup (nd_side d)) Ha) as Hc.
  destruct (cleanup (env_alive env) (lookup (nd_side d))) as [s n]. cbn in *.
  destruct (if decide (n = 0) then _ else _); (split; [done|]); [exact Hc|done..].
Qed.

Lemma receive_keeps env e : env_alive env (component a) = true → spares k e → respects nd_keeps (receive env e).
Proof.
  intros Ha He. pose proof route_keeps. pose proof get_system_path_keeps. pose proof (reaper_keeps env Ha).
  assert (∀ A (m : Act DispatchData IpNet A), respects nd_keeps (on_remote m)) by (intros ? m; apply on_remote_keeps).
  destruct e as [src dst msg|msg|[[r|r] upd pr]|[ev|]|trash]; cbn [net_receive_local re_event re_update re_promise];
    unfold nd_log_error, net_register_actor, net_register_policy, resolve_against; respects.
  - by apply on_side_keeps, register_actor_in_keeps.
  - by apply on_side_keeps, register_policy_in_keeps.
  - by apply modify_keeps.
Qed.

(** Nothing in a run replaces or reaps the entry. *)
Definition undisturbed (x : Env * Stimulus IpNet) : Prop :=
  env_alive x.1 (component a) = true ∧ match x.2 with Envelope e => spares k e | _ => True end.

Lemma step_keeps env s : k ≠ KDeadletter → undisturbed (env, s) → respects nd_keeps (step env s).
Proof.
  intros Hk [Ha Hs]. pose proof receive_keeps. pose proof get_system_path_keeps. pose proof (reaper_keeps env Ha).
  assert (∀ A (m : Act DispatchData IpNet A), respects nd_keeps (on_remote m)) by (intros ? m; apply on_remote_keeps).
  destruct s as [e|req| | | |m|alg dl| |]; cbn [net_step]; unfold net_on_start, net_start, net_on_stop, net_on_kill, net_end; respects;
    try by apply modify_keeps.
  - by apply on_side_keeps, incoming_keeps.
  - by apply on_side_keeps, insert_deadletter_keeps.
Qed.

Lemma run_keeps l : k ≠ KDeadletter → Forall undisturbed l → respects nd_keeps (run l).
Proof.
  intros Hk. induction 1 as [|[env s] l He _ IH]; [apply respects_ret; exact _|]. apply respects_bind; [exact _| |by intros _].
  by apply step_keeps.
Qed.
End NdKept.

Lemma get_system_path_Ok (d d' : NetDispatcher IpNet) sys : get_system_path d = (d', Ok sys) →
  system_path d' = Some sys ∧ nd_side d' = nd_side d.
Proof.
  unfold get_system_path. st_unfold. destruct (system_path d) as [p|] eqn:Hp; [by intros [= <- <-]|].
  destruct (net_bridge (remote d)) as [b|]; [|done]. destruct (bound_address b); [|done]. by intros [= <- <-].
Qed.

Lemma nd_registers env a path update pr (d d1 : NetDispatcher IpNet) ap : own_path path = true → env_alive env (component a) = true →
  receive env (ERegistration (envelope_actor_with_promise a path update pr)) d = (d1, Ok ()) →
  answers (nd_side d1) = answers (nd_side d) ++ [(pr, Ok ap)] →
  ∃ sys, system_path d1 = Some sys ∧ resolve_path sys path = Ok ap ∧ validated path = Ok () ∧ holds (key_of path) a (nd_side d1).
Proof.
  intros Ho Ha Hrec Hans. cbn [net_receive_local envelope_actor_with_promise re_event re_update re_promise] in Hrec.
  unfold net_register_actor in Hrec. cbn [ar_path] in Hrec.
  assert (resolve_against (IpNet := IpNet) path = get_system_path) as Hra by (by destruct path).
  rewrite Hra in Hrec. destruct (st_bind_Ok _ _ _ _ (f_equal snd Hrec)) as (d' & sys & Hs & Hb). rewrite Hb in Hrec. clear Hb.
  destruct (get_system_path_Ok _ _ _ Hs) as [Hsys Hside].
  destruct (st_bind_Ok _ _ _ _ (f_equal snd Hrec)) as (d2 & ok & Hreg & Hb). rewrite Hb in Hrec. clear Hb.
  unfold on_side, register_actor_in in Hreg. revert Hreg. st_unfold. rewrite Hside. cbn [ar_path ar_actor].
  destruct (register_actor sys (lookup (nd_side d)) path a update) as [s r] eqn:Hr. cbn. intros [= <- <-].
  set (d2 := set_side _ d') in *. exists sys.
  assert (answers (nd_side d2) = answers (nd_side d1) ∧ nd_keeps (key_of path) a d2 d1) as [Hans2 Hkeep].
  { revert Hrec. st_unfold. unfold st_when. destruct (_ && _); [|by intros [= <-]]. intros Hrec.
    pose proof (reaper_keeps (key_of path) a env Ha d2) as Hk. rewrite Hrec in Hk. split; [|by apply Hk].
    revert Hrec. unfold net_schedule_reaper. st_unfold. destruct (schedule_reaper _ _ _) as [[[s' r'] w]| |]; [|done..]. by intros [= <-]. }
  rewrite <-Hans2 in Hans. unfold d2 in Hans. cbn in Hans. apply app_inv_head in Hans as [= ->].
  apply register_actor_Ok in Hr as (Hres & Hv & Hk). destruct Hkeep as [Hsp Hh]. split_and!; [by apply Hsp|done|done|].
  apply Hh. unfold holds, d2. cbn. rewrite Hk. unfold point_update. by rewrite decide_True.
Qed.

Lemma nd_delivers env (d : NetDispatcher IpNet) sys src dst msg a nm : system_path d = Some sys → ap_system dst = sys →
  lookup_path default_hasher implicit_routes (lookup (nd_side d)) dst = Ok (LRef a) → into_local msg = Ok nm →
  receive env (EMsg src dst msg) d = (set_side (add_told [(a, nm)] (nd_side d)) d, Ok ()).
Proof.
  intros Hs Hd Hl Hi. cbn [net_receive_local]. unfold nd_log_error, net_route, system_path_ref, st_try. st_unfold.
  rewrite Hs. cbn. rewrite Hs. cbn. rewrite decide_True by done. unfold net_route_local, on_side.
  by rewrite (route_local_ref _ _ _ a nm).
Qed.

(** C13: on a networked system, a message to the path under which an actor was registered
    (relative to the system, and not the dead letter box) is handed to that actor,
    unchanged and without touching the network, whatever the dispatcher handled in between
    without panicking: other messages, events of the network thread up to its failure,
    requests, retries, runs of the reaper while the actor is alive, stopping and starting;
    only a registration that is told to replace the entry is excluded. *)
Theorem registered_actor_receives (env env' : Env) (d d1 d2 : NetDispatcher IpNet) (path : PathResolvable) (a : DynActorRef)
    (update : bool) (promise : nat) (ap src : ActorPath) (between : list (Env * Stimulus IpNet))
    (msg : DispatchData) (nm : NetMessage) :
  own_path path = true → env_alive env (component a) = true →
  receive env (ERegistration (envelope_actor_with_promise a path update promise)) d = (d1, Ok ()) →
  answers (nd_side d1) = answers (nd_side d) ++ [(promise, Ok ap)] →
  Forall (undisturbed (key_of path) a) between →
  run between d1 = (d2, Ok ()) →
  into_local msg = Ok nm →
  receive env' (EMsg src ap msg) d2 = (set_side (add_told [(a, nm)] (nd_side d2)) d2, Ok ()).
Proof.
  intros Ho Ha Hreg Hans Hb Hrun Hi. destruct (nd_registers _ _ _ _ _ _ _ _ Ho Ha Hreg Hans) as (sys & Hs & Hres & Hv & Hk).
  destruct (own_path_key path Ho) as [_ Hnd]. pose proof (run_keeps (key_of path) a between Hnd Hb d1) as Hkeep.
  rewrite Hrun in Hkeep. destruct (Hkeep ltac:(done)) as [Hs2 Hk2]. cbn in Hs2, Hk2.
  apply (nd_delivers _ _ sys); [by apply Hs2|by apply (own_path_system _ path)| |done].
  eapply own_path_found; try done. by apply Hk2.
Qed.
End Delivering.

(** ** Concrete runs *)
Section Examples.
Local Existing Instance uuid128_api.
Local Existing Instance be_bytes_api.

Definition example_actor : DynActorRef := mkRef (uuid_from_u128 7).
Definition example_deadletter : DynActorRef := mkRef (uuid_from_u128 8).
Definition example_env : Env := mkEnv (λ _, true) (λ _, 0).
Definition example_data (sys : SystemPath) : DispatchData :=
  Lazy (mkBoxed string _ "hi"%string) (example_path "a") (Named (MkNamedPath sys ["b"])).
Definition example_message (sys : SystemPath) : NetMessage :=
  with_box serialisation_ids.STR (example_path "a") (Named (MkNamedPath sys ["b"])) (mkBoxed string _ "hi"%string).
Definition example_registration : DispatchEnvelope () :=
  ERegistration (envelope_actor_with_promise example_actor (RAlias "b") false 1).

(** A message to nobody, a routing group, and an entry that is replaced. *)
Definition example_between (sys : SystemPath) : list (DispatchEnvelope ()) :=
  [EMsg (example_path "a") (Named (MkNamedPath sys ["c"])) (example_data sys);
   ERegistration (envelope_policy (mkStorePolicy new_round_robin) ["g"] true);
   EForwardedMsg (example_message sys);
   ERegistration (envelope_actor example_deadletter (RAlias "b") false)].

Lemma with_outcome {A C} (p : A * C) c : p.2 = c → p = (p.1, c).
Proof. by destruct p; intros <-. Qed.

Definition example_local := new_local_dispatcher 0.
Definition example_local1 := (ld_receive_local (λ _, 0%Z) false example_registration example_local).1.
Definition example_local2 :=
  (ld_run (λ _, 0%Z) false (example_between (ld_system_path example_local)) example_local1).1.
Definition local_system := ld_system_path example_local.

Definition example_config : NetworkConfig := mkNetworkConfig (MkSocketAddr (V4 2130706433) 8080) Tcp 3.
Definition example_net :=
  (net_step (λ _, 0%Z) false (λ _, true) Some example_env (OnStart None example_deadletter) (with_config (IpNet := ()) example_config 0)).1.
Definition example_net1 := (net_receive_local (λ _, 0%Z) false (λ _, true) Some example_env example_registration example_net).1.
Definition example_stimuli : list (Env * Stimulus ()) :=
  pair example_env <$>
    ((Envelope <$> example_between example_system)
     ++ [ReaperTimer; Envelope (EEvent (Some (Network CriticalNetworkFailure))); RetryTimer; AskSystemPath; OnStop]).
Definition example_net2 := (net_run (λ _, 0%Z) false (λ _, true) Some example_stimuli example_net1).1.

Lemma example_spares sys : Forall (spares (KName ["b"])) (example_between sys).
Proof. repeat constructor; cbn; unfold leaves; cbn; congruence. Qed.
End Examples.

Lemma local_registered_actor_receives_witness :
  ∃ d3, ld_receive_local (U := uuid128_api) (IpNet := ()) (λ _, 0%Z) false
      (EMsg (example_path "a") (Named (MkNamedPath local_system ["b"])) (example_data local_system)) example_local2 = (d3, Ok ())
    ∧ told (ld_side d3) = told (ld_side example_local2) ++ [(example_actor, example_message local_system)]
    ∧ deadletters (ld_side d3) = deadletters (ld_side example_local2)
    ∧ lookup (ld_side d3) = lookup (ld_side example_local2).
Proof.
  apply (local_registered_actor_receives (IpNet := ()) (λ _, 0%Z) false example_local example_local1 example_local2
    (RAlias "b") example_actor false 1 _ (example_path "a") (example_between local_system)).
  - vm_compute. reflexivity.
  - apply with_outcome. vm_compute. reflexivity.
  - reflexivity.
  - apply example_spares.
  - apply with_outcome. vm_compute. reflexivity.
  - reflexivity.
Defined.

Lemma registered_actor_receives_witness :
  net_receive_local (U := uuid128_api) (IpNet := ()) (λ _, 0%Z) false (λ _, true) Some example_env
    (EMsg (example_path "a") (Named (MkNamedPath example_system ["b"])) (example_data example_system)) example_net2
  = (set_side (add_told [(example_actor, example_message example_system)] (nd_side example_net2)) example_net2, Ok ()).
Proof.
  apply (registered_actor_receives (IpNet := ()) (λ _, 0%Z) false (λ _, true) Some example_env example_env
    example_net example_net1 example_net2 (RAlias "b") example_actor false 1 _ (example_path "a") example_stimuli).
  - vm_compute. reflexivity.
  - reflexivity.
  - unfold example_net1. apply with_outcome. vm_compute. reflexivity.
  - reflexivity.
  - unfold example_stimuli. rewrite fmap_app, Forall_app, !Forall_fmap. split.
    + eapply Forall_impl; [apply example_spares|]. by intros e He.
    + by repeat constructor.
  - unfold example_net2. apply with_outcome. vm_compute. reflexivity.
  - reflexivity.
Defined.

Section GroupExample.
Local Existing Instance uuid128_api.

Definition group_node : gmap string (PathTrie (ActorTreeEntry (M := NetMessage))) :=
  {[ "x" := Node (Some (ERef example_actor)) ∅; "y" := Node (Some (ERef example_deadletter)) ∅ ]}.
Definition group_side : LocalSide :=
  mkSide (mkStore ∅ (Node None {[ "g" := Node (Some (EPolicy (mkStorePolicy (mkRoundRobin 3)))) group_node ]}) None) [] [] [].
End GroupExample.

Lemma group_dispatch_routes_witness : ∃ l',
  st_for [example_data example_system; example_data example_system; example_data example_system]
    (route_local (B := be_bytes_api) (U := uuid128_api) (λ _, 0%Z) false (Named (MkNamedPath example_system ["g"]))) group_side = (l', Ok ())
  ∧ (told l').*1 = [example_actor; example_deadletter; example_actor].
Proof.
  destruct (group_dispatch_routes (B := be_bytes_api) (λ _, 0%Z) false RoundRobinRouting_policy example_system ["g"] (mkRoundRobin 3) (mkRoundRobin 6) group_node
    [example_data example_system; example_data example_system; example_data example_system]
    [example_message example_system; example_message example_system; example_message example_system]
    [(example_actor, example_message example_system); (example_deadletter, example_message example_system);
     (example_actor, example_message example_system)] group_side) as (l' & Hl & Ht & _).
  - done.
  - vm_compute. reflexivity.
  - reflexivity.
  - repeat constructor.
  - reflexivity.
  - exists l'. split; [exact Hl|]. rewrite Ht. reflexivity.
Defined.

Definition example_buffer : EncodeBuffer.EncodeBuffer := encode_buffer example_encoder.

Lemma example_can_send : can_send 128 example_leases example_buffer.
Proof.
  destruct example_fresh as (Hw & _). unfold can_send. destruct Hw as (Hw & _). cbn in Hw.
  split_and!; [|reflexivity|unfold FRAME_HEAD_LEN; cbn; lia|cbn; lia|cbn; lia].
  eapply wf_encode_refs; [exact Hw|]. intros i _. rewrite own_refs_spec. lia.
Qed.

Lemma tells_agree_witness :
  reaches (IpNet := ()) (U := uuid128_api) (B := be_bytes_api) (λ _, Ok "hi"%string) (example_path "a") (example_path "b") "hi"%string
    (path_tell (example_path "b") (box (H := String_serialisable) "hi"%string) (example_path "a")).
Proof.
  destruct (tells_agree (IpNet := ()) (U := uuid128_api) (B := be_bytes_api) one_cut one_cut_join 128 example_leases ltac:(unfold FRAME_HEAD_LEN; lia)
    (λ _, Ok "hi"%string) (example_path "b") (example_path "a") "hi"%string example_buffer example_buffer example_buffer
    example_can_send example_can_send example_can_send) as [H _].
  - exact (proj1 example_path_fits).
  - exact (proj1 (proj2 example_path_fits)).
  - exact (proj1 (proj2 example_ok)).
  - exact (proj1 example_ok).
  - reflexivity.
  - exact H.
Defined.
