(* ===== verification/Registration.v ===== *)
(** * Registering actors and policies with a system

    Model of the registration methods of [KompactSystem] and [KompactRuntime]
    ([core/src/runtime/system.rs]): each makes a promise, puts a registration into the
    queue of the dispatcher and returns the future; a policy whose path is invalid is
    answered at once.  The dispatcher is the [LocalDispatcher] of [Delivery], which
    takes the envelopes off its queue one by one. *)

From S2P Require Import Prelude Extern Paths Serialisation Lifecycle PathTrie Routing ActorStore Messages Dispatcher Delivery.

Section registration.
Context {B : BytesApi} {U : UuidApi} {IpNet : Type}.
Context (default_hasher : ActorPath → Z) (implicit_routes : bool).

Abbreviation Policy := (StorePolicy DynActorRef NetMessage).

Record Runtime := mkRuntime {
  rt_state : Z;                                       (** [KompactRuntime::state] *)
  rt_promises : nat;                                  (** promises made so far *)
  rt_queue : list (DispatchEnvelope IpNet);           (** the message queue of the dispatcher *)
  rt_dispatcher : LocalDispatcher;
  rt_early : list (nat * res RegistrationError ActorPath); (** promises fulfilled by the caller *)
}.

Abbreviation Run := (St Runtime Empty_set).

Definition upd_promises (f : nat → nat) (r : Runtime) : Runtime :=
  mkRuntime (rt_state r) (f (rt_promises r)) (rt_queue r) (rt_dispatcher r) (rt_early r).
Definition enqueue_envelope (e : DispatchEnvelope IpNet) (r : Runtime) : Runtime :=
  mkRuntime (rt_state r) (rt_promises r) (rt_queue r ++ [e]) (rt_dispatcher r) (rt_early r).
Definition answer_early (p : nat) (x : res RegistrationError ActorPath) (r : Runtime) : Runtime :=
  mkRuntime (rt_state r) (rt_promises r) (rt_queue r) (rt_dispatcher r) (rt_early r ++ [(p, x)]).

Definition rt_assert_active : Run () := r ← st_get; st_lift (assert_ (runtime.is_active (rt_state r))).
Definition rt_promise : Run nat := r ← st_get; _ ← st_modify (upd_promises S); mret (rt_promises r).

(** [KompactRuntime]. *)
Definition runtime_register_by_path (actor_ref : DynActorRef) (update : bool) (path : PathResolvable) : Run nat :=
  promise ← rt_promise;
  _ ← st_modify (enqueue_envelope (ERegistration (envelope_actor_with_promise actor_ref path update promise)));
  mret promise.

Definition runtime_register_by_alias (actor_ref : DynActorRef) (update : bool) (alias : string) : Run nat :=
  let path := RAlias alias in
  runtime_register_by_path actor_ref update path.

Definition runtime_set_routing_policy (policy : Policy) (path : string) (update : bool) : Run nat :=
  promise ← rt_promise;
  let parsed_path := parse_path path in
  match validate_insert_path parsed_path with
  | Ok _ =>
      _ ← st_modify (enqueue_envelope (ERegistration (envelope_policy_with_promise policy parsed_path update promise)));
      mret promise
  | Err e => _ ← st_modify (answer_early promise (Err (InvalidPath e))); mret promise
  | Panic => st_panic
  end.

(** [KompactSystem]; the id of a component is that of its reference. *)
Definition system_register (c : DynActorRef) : Run nat :=
  _ ← rt_assert_active;
  let id_path := RActorId (component c) in
  runtime_register_by_path c false id_path.
Definition system_register_by_alias (c : DynActorRef) (alias : string) : Run nat :=
  _ ← rt_assert_active; runtime_register_by_alias c false alias.
Definition system_update_alias_registration (c : DynActorRef) (alias : string) : Run nat :=
  _ ← rt_assert_active; runtime_register_by_alias c true alias.
Definition system_set_routing_policy (policy : Policy) (path : string) (update : bool) : Run nat :=
  _ ← rt_assert_active; runtime_set_routing_policy policy path update.

(** [actor_path_for], with the path of the system. *)
Definition actor_path_for (system_path : SystemPath) (c : DynActorRef) : ActorPath :=
  Unique (MkUniquePath system_path (component c)).

(** The dispatcher takes one envelope. *)
Definition rt_dispatch : Run () := λ r,
  match rt_queue r with
  | [] => (r, Ok ())
  | e :: q =>
      let '(d, x) := ld_receive_local default_hasher implicit_routes e (rt_dispatcher r) in
      (mkRuntime (rt_state r) (rt_promises r) q d (rt_early r), x)
  end.

(** ** Runs *)
Inductive RAction :=
| RRegister (c : DynActorRef)
| RRegisterAlias (c : DynActorRef) (alias : string)
| RUpdateAlias (c : DynActorRef) (alias : string)
| RSetPolicy (policy : Policy) (path : string) (update : bool)
| RTell (src dst : ActorPath) (msg : DispatchData)  (** a message to some path *)
| RForward (msg : NetMessage)
| RDispatch.

Definition ract (a : RAction) : Run () :=
  match a with
  | RRegister c => _ ← system_register c; mret ()
  | RRegisterAlias c alias => _ ← system_register_by_alias c alias; mret ()
  | RUpdateAlias c alias => _ ← system_update_alias_registration c alias; mret ()
  | RSetPolicy policy path update => _ ← system_set_routing_policy policy path update; mret ()
  | RTell src dst msg => st_modify (enqueue_envelope (EMsg src dst msg))
  | RForward msg => st_modify (enqueue_envelope (EForwardedMsg msg))
  | RDispatch => rt_dispatch
  end.

(** A started system that nothing has been registered with. *)
Definition rt_init (d : LocalDispatcher) : Runtime := mkRuntime runtime.ACTIVE 0 [] d [].

Inductive rt_reachable (d0 : LocalDispatcher) : Runtime → Prop :=
| rt_reach_init : rt_reachable d0 (rt_init d0)
| rt_reach_step r a r' : rt_reachable d0 r → ract a r = (r', Ok ()) → rt_reachable d0 r'.

(** ** Promises are answered once *)
Definition env_promise (e : DispatchEnvelope IpNet) : list nat :=
  match e with
  | ERegistration reg => match re_promise reg with Fulfil p => [p] | NoPromise => [] end
  | _ => []
  end.

(** The promises in the queue, and the answers given. *)
Definition waiting (r : Runtime) : list nat := rt_queue r ≫= env_promise.
Definition given (r : Runtime) : list (nat * res RegistrationError ActorPath) :=
  rt_early r ++ answers (ld_side (rt_dispatcher r)).

Definition rt_inv (r : Runtime) : Prop := waiting r ++ (given r).*1 ≡ₚ seq 0 (rt_promises r).

(** Everything but a registration leaves the answers alone. *)
Definition same_answers (d d' : LocalDispatcher) : Prop := answers (ld_side d') = answers (ld_side d).
#[local] Instance same_answers_preorder : PreOrder same_answers.
Proof. split; [by intros d|]. intros d1 d2 d3 H1 H2. unfold same_answers in *. congruence. Qed.

Definition side_same (l l' : LocalSide) : Prop := answers l' = answers l.
#[local] Instance side_same_preorder : PreOrder side_same.
Proof. split; [by intros d|]. intros d1 d2 d3 H1 H2. unfold side_same in *. congruence. Qed.

Lemma ld_on_side_same {A} (m : St LocalSide Empty_set A) :
  respects side_same m → respects same_answers (ld_on_side m).
Proof.
  intros Hm d Hp. specialize (Hm (ld_side d)). unfold ld_on_side in *.
  destruct (m (ld_side d)) as [l x]. cbn in *. by apply Hm.
Qed.

Lemma route_local_same dst msg : respects side_same (route_local default_hasher implicit_routes dst msg).
Proof. unfold route_local, route_group. respects; by apply respects_modify. Qed.

Lemma other_same e :
  (∀ reg, e ≠ ERegistration reg) → respects same_answers (ld_receive_local (IpNet := IpNet) default_hasher implicit_routes e).
Proof.
  intros He. unfold ld_receive_local, ld_route_local, ld_deadletter.
  pose proof (λ m, ld_on_side_same _ (respects_modify side_same (E := Empty_set) (deadletter_network_msg m) (λ l, eq_refl))).
  destruct e; try (by destruct (He reg)); respects; apply ld_on_side_same, route_local_same.
Qed.

(** A registration adds one answer, for its promise. *)
Lemma registration_answers reg d :
  ∃ d' x, ld_receive_local (IpNet := IpNet) default_hasher implicit_routes (ERegistration reg) d = (d', Ok ())
    ∧ answers (ld_side d') = answers (ld_side d) ++ match re_promise reg with Fulfil p => [(p, x)] | NoPromise => [] end.
Proof.
  destruct reg as [[r|r] update pr]; cbn [ld_receive_local re_event re_update re_promise];
    unfold ld_receive_local, ld_register_actor, ld_register_policy, ld_on_side, register_actor_in, register_policy_in;
    unfold mbind, st_bind, st_get, st_lift, st_modify, mret, st_ret; cbn -[register_actor register_policy].
  - destruct (register_actor (M := NetMessage) _ _ _ _ _) as [s x]. cbn. eexists _, x. split; [done|]. destruct pr; cbn; [done|]. by rewrite app_nil_r.
  - destruct (register_policy (M := NetMessage) _ _ _ _ _) as [s x]. cbn. eexists _, x. split; [done|]. destruct pr; cbn; [done|]. by rewrite app_nil_r.
Qed.

Lemma dispatch_answers e d d' : ld_receive_local default_hasher implicit_routes e d = (d', Ok ()) →
  (answers (ld_side d')).*1 = (answers (ld_side d)).*1 ++ env_promise e.
Proof.
  assert ((∀ reg, e ≠ ERegistration reg) → ld_receive_local default_hasher implicit_routes e d = (d', Ok ()) →
    answers (ld_side d') = answers (ld_side d)) as Hother.
  { intros Hn Hd. pose proof (other_same e Hn d) as Ho. rewrite Hd in Ho. by apply Ho. }
  intros Hd. destruct e as [| |reg| |]; cbn [env_promise]; rewrite ?app_nil_r; try by rewrite Hother.
  destruct (registration_answers reg d) as (d1 & x & H1 & Ha). rewrite H1 in Hd. injection Hd as <-.
  rewrite Ha, fmap_app. by destruct (re_promise reg).
Qed.

Lemma request_inv e r : rt_inv r → env_promise e = [rt_promises r] →
  rt_inv (enqueue_envelope e (upd_promises S r)).
Proof.
  unfold rt_inv, waiting, given. cbn -[seq]. intros Hi He. rewrite bind_app, seq_S. cbn. rewrite He, <-Hi. solve_Permutation.
Qed.

Lemma early_inv x r : rt_inv r → rt_inv (answer_early (rt_promises r) x (upd_promises S r)).
Proof.
  unfold rt_inv, waiting, given. cbn -[seq]. intros Hi. rewrite seq_S, <-Hi, !fmap_app. cbn. solve_Permutation.
Qed.

Lemma other_inv e r : rt_inv r → env_promise e = [] → rt_inv (enqueue_envelope e r).
Proof. unfold rt_inv, waiting, given. cbn. intros Hi He. rewrite bind_app. cbn. by rewrite He, !app_nil_r. Qed.

Lemma dispatch_inv r r' : rt_inv r → rt_dispatch r = (r', Ok ()) → rt_inv r'.
Proof.
  unfold rt_inv, waiting, given, rt_dispatch. intros Hi. destruct (rt_queue r) as [|e q] eqn:Hq; [by intros [= <-]; rewrite Hq|].
  destruct (ld_receive_local _ _ _ _) as [d x] eqn:Hd. intros [= <- ->]. cbn in *. rewrite <-Hi, !fmap_app.
  rewrite (dispatch_answers _ _ _ Hd). solve_Permutation.
Qed.

Lemma ract_inv a r r' : rt_inv r → ract a r = (r', Ok ()) → rt_inv r'.
Proof.
  intros Hi. destruct a; cbn [ract]; [| | | | | |by apply dispatch_inv];
    unfold system_register, system_register_by_alias, system_update_alias_registration, system_set_routing_policy, runtime_set_routing_policy,
      runtime_register_by_alias, runtime_register_by_path, rt_assert_active, rt_promise, assert_;
    unfold mbind, st_bind, st_get, st_lift, st_modify, mret, st_ret;
    try (destruct (runtime.is_active _); [|done]); cbn; try (intros [= <-]; first [by apply request_inv|by apply other_inv]).
  destruct (validate_insert_path _); [intros [= <-]; by apply request_inv|intros [= <-]; by apply early_inv|done].
Qed.

Lemma NoDup_fmap_fst_unique {K A} (l : list (K * A)) k x y : NoDup l.*1 → (k, x) ∈ l → (k, y) ∈ l → x = y.
Proof.
  induction l as [|[k' z] l IH]; cbn; [by intros _ ?%elem_of_nil|]. rewrite NoDup_cons, !elem_of_cons.
  intros [Hn Hl] [Hx|Hx] [Hy|Hy]; simplify_eq; try done.
  - destruct Hn. by apply (list_elem_of_fmap_2 fst) in Hy.
  - destruct Hn. by apply (list_elem_of_fmap_2 fst) in Hx.
  - by apply IH.
Qed.

Lemma rt_reachable_inv d0 r : answers (ld_side d0) = [] → rt_reachable d0 r → rt_inv r.
Proof.
  intros H0. induction 1 as [|r a r' _ IH Hs]; [|by eapply ract_inv].
  unfold rt_inv, waiting, given. cbn. by rewrite H0.
Qed.

(** C37: however registrations and policies are requested of a running system, between
    whatever messages, no promise is answered twice, each is answered or still in
    the queue of the dispatcher, and when the queue is empty each has exactly one
    answer: none is lost. *)
Theorem registrations_answered (d0 : LocalDispatcher) (r : Runtime) :
  answers (ld_side d0) = [] → rt_reachable d0 r →
  NoDup (given r).*1
  ∧ (∀ p, p < rt_promises r ↔ p ∈ waiting r ∨ p ∈ (given r).*1)
  ∧ (∀ p, p ∈ waiting r → p ∉ (given r).*1)
  ∧ (rt_queue r = [] → ∀ p, p < rt_promises r → ∃ x, ∀ y, (p, y) ∈ given r ↔ y = x).
Proof.
  intros H0 Hr. pose proof (rt_reachable_inv d0 r H0 Hr) as Hi. unfold rt_inv in Hi.
  assert (NoDup (waiting r ++ (given r).*1)) as Hnd by (rewrite Hi; apply NoDup_seq).
  apply NoDup_app in Hnd as (_ & Hdis & Hnd).
  assert (∀ p, p < rt_promises r ↔ p ∈ waiting r ∨ p ∈ (given r).*1) as Hall.
  { intros p. rewrite <-elem_of_app, Hi, elem_of_seq. lia. }
  split_and!; [done|done|done|]. intros Hq p Hp. apply Hall in Hp as [Hp|Hp].
  - unfold waiting in Hp. rewrite Hq in Hp. by apply elem_of_nil in Hp.
  - apply list_elem_of_fmap in Hp as ([p' x] & -> & Hx). exists x. intros y. split; [|by intros ->]. intros Hy. symmetry.
    by apply (NoDup_fmap_fst_unique _ p' x y Hnd).
Qed.

(** A request is refused on the spot if, and only if, it is a policy for a path
    that no entry can have; otherwise it waits behind what is in the queue. *)
Theorem policy_refused_early (policy : Policy) (path : string) (update : bool) (r : Runtime) :
  runtime.is_active (rt_state r) = true →
  ∃ r', system_set_routing_policy policy path update r = (r', Ok (rt_promises r))
    ∧ match validate_insert_path (parse_path path) with
      | Err e => rt_queue r' = rt_queue r ∧ rt_early r' = rt_early r ++ [(rt_promises r, Err (InvalidPath e))]
      | _ => rt_early r' = rt_early r
          ∧ rt_queue r' = rt_queue r ++ [ERegistration (envelope_policy_with_promise policy (parse_path path) update (rt_promises r))]
      end.
Proof.
  intros Ha. unfold system_set_routing_policy, runtime_set_routing_policy, rt_assert_active, rt_promise, assert_.
  unfold mbind, st_bind, st_get, st_lift, st_modify, mret, st_ret. rewrite Ha. cbn.
  destruct (validate_insert_path _) eqn:Hv; [by eexists|by eexists|]. by destruct (validate_insert_no_panic (parse_path path)).
Qed.
End registration.

(** ** A concrete run *)
Section RegistrationExample.
Local Existing Instance uuid128_api.
Local Existing Instance be_bytes_api.

(** A policy at an impossible path, an alias, the same alias again, a message, and the
    dispatcher's turns. *)
Definition example_requests : list (RAction (U := uuid128_api)) :=
  [RSetPolicy (mkStorePolicy new_round_robin) "a//b" false; RRegisterAlias example_actor "b"; RRegisterAlias example_deadletter "b";
   RForward (example_message local_system); RDispatch; RDispatch; RDispatch].

Definition example_act (a : RAction) (r : Runtime (IpNet := ())) : Runtime := (ract (λ _, 0%Z) false a r).1.
Definition example_runtime : Runtime := foldl (λ r a, example_act a r) (rt_init example_local) example_requests.

Lemma example_runtime_reachable : rt_reachable (IpNet := ()) (λ _, 0%Z) false example_local example_runtime.
Proof.
  unfold example_runtime, example_requests. cbn [foldl].
  repeat (eapply rt_reach_step; [|unfold example_act at 1; apply with_outcome; vm_compute; reflexivity]). constructor.
Qed.
End RegistrationExample.

Lemma registrations_answered_witness :
  rt_queue example_runtime = []
  ∧ (given example_runtime).*1 = [0; 1; 2]
  ∧ ∃ x, ∀ y, (1, y) ∈ given example_runtime ↔ y = x.
Proof.
  destruct (registrations_answered (B := be_bytes_api) (U := uuid128_api) (IpNet := ()) (λ _, 0%Z) false example_local example_runtime) as (_ & _ & _ & H).
  - reflexivity.
  - exact example_runtime_reachable.
  - assert (rt_queue example_runtime = []) as Hq by (apply nil_length_inv; vm_compute; reflexivity).
    split; [exact Hq|]. split; [vm_compute; reflexivity|]. apply H; [exact Hq|].
    replace (rt_promises example_runtime) with 3 by (vm_compute; reflexivity). lia.
Defined.
