(* ===== verification/Channel.v ===== *)
(** * TCP channels

    Model of [TcpChannel] ([network/src/transport/network_channel.rs]): the queue
    of outgoing frames and its draining into a socket, reading and decoding of
    incoming frames, the handshake and the graceful close.

    Sockets belong to the operating system.  A [TcpStream] holds the bytes that
    have arrived, the bytes accepted for sending, and the outcomes of the reads
    and writes to come, which are arbitrary; once these run out every call would
    block.  A read returns at most the bytes that have arrived and that fit its
    buffer, a write accepts at most the bytes it is given. *)

From S2P Require Import Prelude Extern ChunkLease Frames Buffers DecodeBuffer Messages.

(** ** Sockets *)
Inductive ErrorKind := WouldBlock | Interrupted | InvalidInput | InvalidData | ConnectionReset | BrokenPipe | OtherKind.

#[global] Instance ErrorKind_eq_dec : EqDecision ErrorKind.
Proof. solve_decision. Defined.

Inductive IoOutcome := IoBytes (n : nat) | IoError (k : ErrorKind).

Record TcpStream := mkStream {
  inbox : list byte;
  reads : list IoOutcome;
  outbox : list byte;
  writes : list IoOutcome;
  stream_error : option ErrorKind;   (** what [take_error] reports *)
  nodelay_ok : bool;                 (** whether [set_nodelay] succeeds *)
  stream_shut : bool;
}.

Definition MAX_INTERRUPTS : nat := 9.

Definition stream_read (len : nat) (s : TcpStream) : TcpStream * res ErrorKind (list byte) :=
  match reads s with
  | [] => (s, Err WouldBlock)
  | IoError k :: rs => (mkStream (inbox s) rs (outbox s) (writes s) (stream_error s) (nodelay_ok s) (stream_shut s), Err k)
  | IoBytes n :: rs =>
      let n := Nat.min n len in
      (mkStream (drop n (inbox s)) rs (outbox s) (writes s) (stream_error s) (nodelay_ok s) (stream_shut s),
       Ok (take n (inbox s)))
  end.

Definition stream_write (bs : list byte) (s : TcpStream) : TcpStream * res ErrorKind nat :=
  match writes s with
  | [] => (s, Err WouldBlock)
  | IoError k :: ws => (mkStream (inbox s) (reads s) (outbox s) ws (stream_error s) (nodelay_ok s) (stream_shut s), Err k)
  | IoBytes n :: ws =>
      let n := Nat.min n (length bs) in
      (mkStream (inbox s) (reads s) (outbox s ++ take n bs) ws (stream_error s) (nodelay_ok s) (stream_shut s), Ok n)
  end.

Definition take_error (s : TcpStream) : TcpStream * option ErrorKind :=
  (mkStream (inbox s) (reads s) (outbox s) (writes s) None (nodelay_ok s) (stream_shut s), stream_error s).
Definition shutdown_stream (s : TcpStream) : TcpStream :=
  mkStream (inbox s) (reads s) (outbox s) (writes s) (stream_error s) (nodelay_ok s) true.

(** ** Serialised frames *)
Definition frame_len (f : SerialisedFrame) : nat :=
  match f with FrameLease chunk => remaining chunk | FrameRef chunk => ref_remaining chunk | FrameBytes bytes => length bytes end.

Definition frame_chunk (f : SerialisedFrame) : res Empty_set (list byte) :=
  match f with FrameLease c => chunk c | FrameRef c => ref_chunk c | FrameBytes bytes => Ok bytes end.

Definition frame_advance (f : SerialisedFrame) (n : nat) : SerialisedFrame :=
  match f with
  | FrameLease c => FrameLease (advance c n)
  | FrameRef c => FrameRef (ref_advance c n)
  | FrameBytes bytes => FrameBytes (drop n bytes)
  end.

(** ** Channels *)
Section Channel.
Context {B : BytesApi} {U : UuidApi}.

Inductive ChannelState :=
| Requested (addr : SocketAddr) (id : SessionId)
| Initialising
| Initialised (addr : SocketAddr) (id : SessionId)
| ChConnected (addr : SocketAddr) (id : SessionId)
| CloseRequested (addr : SocketAddr) (id : SessionId)
| CloseReceived (addr : SocketAddr) (id : SessionId)
| ChClosed (addr : SocketAddr) (id : SessionId)
| ChError (error : ErrorKind).

Definition state_session_id (s : ChannelState) : option SessionId :=
  match s with
  | Requested _ session => Some session
  | Initialising => None
  | Initialised _ session => Some session
  | ChConnected _ session => Some session
  | CloseRequested _ session => Some session
  | CloseReceived _ session => Some session
  | ChClosed _ session => Some session
  | ChError _ => None
  end.

Record TcpChannel := mkChannel {
  stream_ : TcpStream;
  outbound_queue : list SerialisedFrame;
  token : nat;
  address : SocketAddr;
  input_buffer : DecodeBuffer;
  state : ChannelState;
  messages : Z;             (** a [u32] *)
  own_addr : SocketAddr;
  nodelay : bool;
}.

Definition new_channel (stream : TcpStream) (token : nat) (address : SocketAddr) (buffer_chunk : BufferChunk)
    (state : ChannelState) (own_addr : SocketAddr) (config : BufferConfig) (nodelay : bool) : TcpChannel :=
  mkChannel stream [] token address (new_decode buffer_chunk config) state 0 own_addr nodelay.

Definition set_stream s (c : TcpChannel) := mkChannel s (outbound_queue c) (token c) (address c) (input_buffer c) (state c) (messages c) (own_addr c) (nodelay c).
Definition upd_queue f (c : TcpChannel) := mkChannel (stream_ c) (f (outbound_queue c)) (token c) (address c) (input_buffer c) (state c) (messages c) (own_addr c) (nodelay c).
Definition set_address a (c : TcpChannel) := mkChannel (stream_ c) (outbound_queue c) (token c) a (input_buffer c) (state c) (messages c) (own_addr c) (nodelay c).
Definition set_input d (c : TcpChannel) := mkChannel (stream_ c) (outbound_queue c) (token c) (address c) d (state c) (messages c) (own_addr c) (nodelay c).
Definition set_chan_state s (c : TcpChannel) := mkChannel (stream_ c) (outbound_queue c) (token c) (address c) (input_buffer c) s (messages c) (own_addr c) (nodelay c).
Definition count_message (c : TcpChannel) := mkChannel (stream_ c) (outbound_queue c) (token c) (address c) (input_buffer c) (state c) (wrap 32 (messages c + 1)) (own_addr c) (nodelay c).

Abbreviation Chan := (St TcpChannel ErrorKind).

Definition connected (c : TcpChannel) : bool := match state c with ChConnected _ _ => true | _ => false end.
Definition channel_session_id (c : TcpChannel) : option SessionId := state_session_id (state c).

Definition on_stream {A} (f : TcpStream → TcpStream * res ErrorKind A) : Chan A := λ c,
  let '(s, r) := f (stream_ c) in (set_stream s c, r).

Definition lift_panic_ {E A} (r : res Empty_set A) : res E A := match r with Ok a => Ok a | Err e => match e with end | Panic => Panic end.

(** *** Sending *)
Definition write_serialized (f : SerialisedFrame) : Chan nat :=
  bs ← st_lift (lift_panic_ (frame_chunk f));
  on_stream (stream_write bs).

(** The loop of [try_drain]; every round takes one outcome of the socket. *)
Fixpoint drain_loop (fuel sent_bytes interrupts : nat) : Chan nat :=
  match fuel with
  | O => st_panic
  | S fuel =>
      c ← st_get;
      match outbound_queue c with
      | [] => mret sent_bytes
      | serialized_frame :: q =>
          _ ← st_modify (upd_queue (λ _, q));
          w ← st_try (write_serialized serialized_frame);
          match w with
          | inl n =>
              _ ← st_when (bool_decide (n < frame_len serialized_frame))
                    (st_modify (upd_queue (cons (frame_advance serialized_frame n))));
              drain_loop fuel (sent_bytes + n) interrupts
          | inr WouldBlock =>
              _ ← st_modify (upd_queue (cons serialized_frame));
              mret sent_bytes
          | inr Interrupted =>
              _ ← st_modify (upd_queue (cons serialized_frame));
              if decide (MAX_INTERRUPTS ≤ S interrupts) then st_lift (Err Interrupted)
              else drain_loop fuel sent_bytes (S interrupts)
          | inr err =>
              _ ← st_modify (upd_queue (cons serialized_frame));
              st_lift (Err err)
          end
      end
  end.

Definition try_drain : Chan nat := λ c, drain_loop (S (length (writes (stream_ c)))) 0 0 c.

Definition enqueue_serialised (f : SerialisedFrame) (c : TcpChannel) : TcpChannel := upd_queue (λ q, q ++ [f]) c.

(** [let _ = m]. *)
Definition ignore_result {A} (m : Chan A) : Chan () := _ ← st_try m; mret ().

(** Only called with frames that have no payload. *)
Definition send_frame (f : Frame) : Chan () :=
  match encode_control f with
  | Some bytes =>
      _ ← st_modify (enqueue_serialised (FrameBytes bytes));
      ignore_result try_drain
  | None => st_panic
  end.

Definition send_bye : Chan () :=
  _ ← send_frame FBye;
  c ← st_get;
  if decide (outbound_queue c = []) then mret () else st_lift (Err Interrupted).

(** *** The handshake *)
Definition read_state : Chan ChannelState :=
  c ← st_get;
  let '(s, e) := take_error (stream_ c) in
  _ ← st_modify (set_stream s);
  _ ← match e with Some error => st_modify (set_chan_state (ChError error)) | None => mret () end;
  c ← st_get;
  mret (state c).

Definition initialise (addr : SocketAddr) : Chan () :=
  c ← st_get;
  match state c with
  | Initialising => send_frame (FHello (mkHello addr))
  | _ => mret ()
  end.

Definition channel_handle_hello (hello : Hello) : Chan () :=
  c ← st_get;
  match state c with
  | Requested _ id =>
      _ ← send_frame (FStart (mkStart (own_addr c) id));
      _ ← st_modify (set_chan_state (Initialised (hello_addr hello) id));
      st_modify (set_address (hello_addr hello))
  | _ => mret ()
  end.

(** [set_nodelay(..).expect(..)]. *)
Definition set_nodelay : Chan () := c ← st_get; st_lift (assert_ (nodelay_ok (stream_ c))).

Definition channel_handle_start (start : Start) : Chan () :=
  c ← st_get;
  match state c with
  | Initialising =>
      _ ← set_nodelay;
      _ ← send_frame FAck;
      _ ← st_modify (set_chan_state (ChConnected (start_addr start) (start_id start)));
      st_modify (set_address (start_addr start))
  | _ => mret ()
  end.

Definition handle_ack : Chan () :=
  c ← st_get;
  match state c with
  | Initialised addr id =>
      _ ← set_nodelay;
      st_modify (set_chan_state (ChConnected addr id))
  | _ => mret ()
  end.

(** *** Closing *)
Definition channel_handle_bye : Chan () :=
  c ← st_get;
  match state c with
  | ChConnected addr id =>
      _ ← st_modify (set_chan_state (CloseReceived addr id));
      r ← st_try send_bye;
      match r with
      | inl _ => st_modify (set_chan_state (ChClosed addr id))
      | inr _ => mret ()
      end
  | CloseRequested addr id => st_modify (set_chan_state (ChClosed addr id))
  | _ => mret ()
  end.

Definition initiate_graceful_shutdown : Chan () :=
  c ← st_get;
  match state c with
  | ChConnected addr id =>
      _ ← st_modify (set_chan_state (CloseRequested addr id));
      ignore_result send_bye
  | _ => mret ()
  end.

Definition channel_shutdown (c : TcpChannel) : TcpChannel :=
  let c := set_stream (shutdown_stream (stream_ c)) c in
  match state c with ChConnected addr id => set_chan_state (ChClosed addr id) c | _ => c end.

Definition channel_kill (c : TcpChannel) : TcpChannel := set_stream (shutdown_stream (stream_ c)) c.

Definition take_outbound (c : TcpChannel) : TcpChannel * list SerialisedFrame := (upd_queue (λ _, []) c, outbound_queue c).

(** *** Receiving *)

(** Reading into the buffer; every round takes one outcome of the socket. *)
Fixpoint receive_loop (fuel interrupts : nat) : Chan () :=
  match fuel with
  | O => st_panic
  | S fuel =>
      c ← st_get;
      w ← st_lift (is_writeable (input_buffer c));
      if w : bool then
        len ← st_lift (writeable_len (input_buffer c));
        r ← st_try (on_stream (stream_read len));
        match r with
        | inl [] => mret ()
        | inl bs =>
            o ← st_lift (lift_panic_ (fill (input_buffer c) bs));
            match o with
            | Some d => _ ← st_modify (set_input d); receive_loop fuel interrupts
            | None => st_panic
            end
        | inr WouldBlock => mret ()
        | inr Interrupted =>
            if decide (MAX_INTERRUPTS ≤ S interrupts) then st_lift (Err Interrupted)
            else receive_loop fuel (S interrupts)
        | inr err => st_lift (Err err)
        end
      else st_lift (Err InvalidInput)
  end.

Definition channel_receive : Chan () := λ c, receive_loop (S (length (reads (stream_ c)))) 0 c.

(** An operation of the decode buffer. *)
Definition on_input {E A} (f : DecodeBuffer → DecodeBuffer * res E A) (g : E → ErrorKind) : Chan A := λ c,
  let '(d, r) := f (input_buffer c) in (set_input d c, map_err g r).

Definition channel_has_frame : Chan bool := on_input has_frame (λ _, InvalidData).

Definition channel_decode : St TcpChannel FramingError Frame := λ c,
  let '(d, r) := get_frame (input_buffer c) in
  let c := set_input d c in
  (match r with Ok (FData _) => count_message c | _ => c end, r).

Definition channel_swap_buffer (refs : Refs) (new_buffer : BufferChunk) : Chan BufferChunk := λ c,
  match swap_buffer refs (input_buffer c) new_buffer with
  | Ok (d, old) => (set_input d c, Ok old)
  | Err e => match e with end
  | Panic => (c, Panic)
  end.

(** The leases alive, which include those a channel holds. *)
Context (refs : TcpChannel → Refs).

(** [read_frame]: the pool is shared by all channels. *)
Definition with_pool {A} (f : BufferPool → BufferPool * A) : St (TcpChannel * BufferPool) ErrorKind A := λ '(c, p),
  let '(p, a) := f p in ((c, p), Ok a).
Definition on_channel {A} (m : Chan A) : St (TcpChannel * BufferPool) ErrorKind A := λ '(c, p),
  let '(c, r) := m c in ((c, p), r).

Definition handle_decoded : Chan (option Frame) := λ c,
  match channel_decode c with
  | (c, Ok FAck) => (_ ← handle_ack; mret (Some FAck)) c
  | (c, Ok FBye) => (_ ← channel_handle_bye; mret (Some FBye)) c
  | (c, Ok frame) => (c, Ok (Some frame))
  | (c, Err NoData) => (c, Ok None)
  | (c, Err _) => (c, Err InvalidData)
  | (c, Panic) => (c, Panic)
  end.

Fixpoint read_frame (fuel : nat) : St (TcpChannel * BufferPool) ErrorKind (option Frame) :=
  match fuel with
  | O => st_panic
  | S fuel =>
      has ← on_channel channel_has_frame;
      if has : bool then on_channel handle_decoded
      else
        r ← st_try (on_channel channel_receive);
        match r with
        | inl _ => on_channel handle_decoded
        | inr InvalidInput =>
            has ← on_channel channel_has_frame;
            if has : bool then on_channel handle_decoded
            else
              c ← st_get;
              b ← with_pool (get_buffer (refs c.1));
              match b with
              | None => st_lift (Err InvalidInput)
              | Some buffer_chunk =>
                  old ← on_channel (channel_swap_buffer (refs c.1) buffer_chunk);
                  _ ← with_pool (λ p, (return_buffer p old, ()));
                  read_frame fuel
              end
        | inr err => st_lift (Err err)
        end
  end.

(** ** What is on its way out *)
Definition frame_bytes (f : SerialisedFrame) : list byte :=
  match f with
  | FrameLease c => readable c
  | FrameRef c => drop (ref_read_pointer c) (ref_bytes c)
  | FrameBytes bytes => bytes
  end.

Definition frame_wf (f : SerialisedFrame) : Prop :=
  match f with
  | FrameLease c => wf_lease c ∧ 0 < remaining c
  | FrameRef c => wf_ref c ∧ 0 < ref_remaining c
  | FrameBytes bytes => True
  end.

Definition queue_bytes (q : list SerialisedFrame) : list byte := mjoin (frame_bytes <$> q).

(** Everything handed to the channel for sending, in order. *)
Definition outgoing (c : TcpChannel) : list byte := outbox (stream_ c) ++ queue_bytes (outbound_queue c).

Definition queue_ok (c : TcpChannel) : Prop := Forall frame_wf (outbound_queue c).

(** The parts of a channel that sending does not touch. *)
Definition unsent_parts (c c' : TcpChannel) : Prop :=
  inbox (stream_ c') = inbox (stream_ c) ∧ reads (stream_ c') = reads (stream_ c)
  ∧ nodelay_ok (stream_ c') = nodelay_ok (stream_ c) ∧ input_buffer c' = input_buffer c
  ∧ token c' = token c ∧ own_addr c' = own_addr c ∧ nodelay c' = nodelay c ∧ messages c' = messages c.

(** [c'] is [c] after [bs] was handed over for sending. *)
Definition sends (bs : list byte) (c c' : TcpChannel) : Prop :=
  queue_ok c' ∧ outgoing c' = outgoing c ++ bs ∧ unsent_parts c c'
  ∧ ∃ more, outbox (stream_ c') = outbox (stream_ c) ++ more.

Lemma ref_get_chunk_at_spec c pos : wf_ref c → pos < ref_chain_len c →
  ∃ x rest, ref_get_chunk_at c pos = Ok x ∧ drop pos (ref_bytes c) = x ++ rest.
Proof.
  revert pos. induction c as [x r h k n|x r h k t n IH] using ref_ind; intros pos Hw Hp;
    cbn in Hw, Hp; cbn [ref_get_chunk_at ref_bytes].
  - destruct Hw as [-> ->]. rewrite decide_False by lia. exists (drop pos x), []. by rewrite !app_nil_r.
  - destruct Hw as (-> & Ht & ->). case_decide.
    + destruct (IH (pos - length x) Ht) as (y & rest & Hy & Hd); [lia|].
      exists y, rest. by rewrite drop_app_ge by lia.
    + exists (drop pos x), (ref_bytes t). by rewrite drop_app_le by lia.
Qed.

Lemma frame_len_bytes f : frame_wf f → frame_len f = length (frame_bytes f).
Proof.
  destruct f as [bs|c|c]; cbn; [done| |].
  - intros [Hw _]. by rewrite length_readable.
  - intros [Hw _]. by rewrite length_drop, <-wf_ref_len.
Qed.

Lemma frame_chunk_spec f : frame_wf f → ∃ bs rest, frame_chunk f = Ok bs ∧ frame_bytes f = bs ++ rest.
Proof.
  destruct f as [bs|c|c]; cbn.
  - intros _. exists bs, []. by rewrite app_nil_r.
  - intros [[Hw Hr] Hl]. unfold remaining in Hl.
    destruct (get_chunk_at_spec c (read_pointer c) Hw) as (x & rest & H1 & _ & H2); [lia|]. by exists x, rest.
  - intros [Hw Hl]. unfold ref_remaining in Hl. apply ref_get_chunk_at_spec; [done|lia].
Qed.

Lemma frame_advance_spec f n : frame_wf f → n < frame_len f →
  frame_wf (frame_advance f n) ∧ frame_bytes (frame_advance f n) = drop n (frame_bytes f).
Proof.
  destruct f as [bs|c|c]; cbn; [done| |].
  - intros [Hw _] Hn. split; [|apply readable_advance]. split; [apply advance_wf; [done|lia]|].
    destruct c. unfold remaining, advance in *. cbn in *. lia.
  - intros [Hw _] Hn. destruct c as [x r h k t m]. unfold ref_remaining in *. cbn in *.
    split; [split; [done|lia]|]. by rewrite drop_drop.
Qed.

Lemma sends_refl c : queue_ok c → sends [] c c.
Proof. intros Hq. split; [done|]. split; [by rewrite app_nil_r|]. split; [done|]. exists []. by rewrite app_nil_r. Qed.

Lemma sends_trans b1 b2 c1 c2 c3 : sends b1 c1 c2 → sends b2 c2 c3 → sends (b1 ++ b2) c1 c3.
Proof.
  intros (Q1 & O1 & U1 & m1 & E1) (Q2 & O2 & U2 & m2 & E2).
  split; [done|]. split; [by rewrite O2, O1, app_assoc|]. split.
  - unfold unsent_parts in *. destruct_and!. split_and!; congruence.
  - exists (m1 ++ m2). by rewrite E2, E1, app_assoc.
Qed.

(** *** Draining *)
Lemma write_serialized_spec f c : frame_wf f →
  ∃ s r, write_serialized f c = (set_stream s c, r) ∧ r ≠ Panic
    ∧ inbox s = inbox (stream_ c) ∧ reads s = reads (stream_ c) ∧ nodelay_ok s = nodelay_ok (stream_ c)
    ∧ match r with
      | Ok n => n ≤ frame_len f ∧ outbox s = outbox (stream_ c) ++ take n (frame_bytes f)
          ∧ length (writes s) < length (writes (stream_ c))
      | Err k => outbox s = outbox (stream_ c) ∧ (k = WouldBlock ∨ length (writes s) < length (writes (stream_ c)))
      | Panic => False
      end.
Proof.
  intros Hw. destruct (frame_chunk_spec f Hw) as (bs & rest & Hc & Hb). unfold write_serialized, on_stream, stream_write.
  unfold mbind at 1, st_bind at 1, st_lift at 1. rewrite Hc. cbn [lift_panic_].
  rewrite (frame_len_bytes f Hw), Hb, length_app.
  destruct (writes (stream_ c)) as [|[n|k] ws] eqn:Hws; cbn.
  - exists (stream_ c), (Err WouldBlock). split_and!; try done. by left.
  - eexists _, (Ok (n `min` length bs)). split; [reflexivity|]. cbn. split_and!; try done; try lia.
    rewrite take_app_le by lia. done.
  - eexists _, (Err k). split; [reflexivity|]. cbn. split_and!; try done. right. lia.
Qed.

Lemma queue_bytes_cons f q : queue_bytes (f :: q) = frame_bytes f ++ queue_bytes q.
Proof. done. Qed.

(** The outcome of draining [c] with [sent] bytes counted before. *)
Definition drained (sent : nat) (c : TcpChannel) (p : TcpChannel * res ErrorKind nat) : Prop :=
  p.2 ≠ Panic ∧ sends [] c p.1 ∧ state p.1 = state c ∧ address p.1 = address c
  ∧ ∀ n, p.2 = Ok n → n + length (outbox (stream_ c)) = sent + length (outbox (stream_ p.1)).

Lemma drained_trans sent n c c1 p : sends [] c c1 → state c1 = state c → address c1 = address c →
  length (outbox (stream_ c1)) = n + length (outbox (stream_ c)) → drained (sent + n) c1 p → drained sent c p.
Proof.
  intros Hs Hst Ha Hl (H1 & H2 & H3 & H4 & H5). split; [done|]. split; [exact (sends_trans [] [] _ _ _ Hs H2)|].
  split_and!; [congruence|congruence|]. intros m Hm. specialize (H5 m Hm). lia.
Qed.

Lemma drain_loop_spec fuel : ∀ sent interrupts c, length (writes (stream_ c)) < fuel → queue_ok c →
  drained sent c (drain_loop fuel sent interrupts c).
Proof.
  induction fuel as [|fuel IH]; intros sent interrupts c Hf Hq; [lia|]. cbn [drain_loop].
  unfold mbind at 1, st_bind at 1, st_get at 1. destruct (outbound_queue c) as [|f q] eqn:Ho.
  { split; [done|]. split; [by apply sends_refl|]. split_and!; try done. by intros n [= ->]. }
  unfold queue_ok in Hq. rewrite Ho in Hq. apply Forall_cons in Hq as [Hwf Hq].
  unfold mbind at 1, st_bind at 1, st_modify at 1.
  destruct (write_serialized_spec f (upd_queue (λ _, q) c) Hwf) as (s & r & Hw & Hnp & Hin & Hr & Hnd & Hres).
  unfold mbind at 1, st_bind at 1, st_try at 1. rewrite Hw. cbn [stream_ upd_queue] in Hin, Hr, Hnd, Hres.
  assert (∀ q', Forall frame_wf q' →
    outbox s ++ queue_bytes q' = outbox (stream_ c) ++ frame_bytes f ++ queue_bytes q →
    (∃ m, outbox s = outbox (stream_ c) ++ m) → sends [] c (upd_queue (λ _, q') (set_stream s c))) as Hback.
  { intros q' Hwf' He Hm. split; [exact Hwf'|]. split; [|split; [by split_and!|exact Hm]].
    unfold outgoing. cbn [stream_ outbound_queue upd_queue set_stream]. by rewrite Ho, queue_bytes_cons, app_nil_r. }
  destruct r as [n|k|]; [|destruct Hres as [Hout Hk]|done].
  - destruct Hres as (Hn & Hout & Hlt).
    assert (length (outbox s) = n + length (outbox (stream_ c))) as Hlen.
    { rewrite Hout, length_app, length_take, <-frame_len_bytes by done. lia. }
    case_bool_decide as Hc; cbn [st_when].
    + destruct (frame_advance_spec f n Hwf Hc) as [Hwf' Hb'].
      assert (sends [] c (upd_queue (λ _, frame_advance f n :: q) (set_stream s c))) as Hs1.
      { apply Hback; [by apply Forall_cons| |by eexists].
        by rewrite Hout, queue_bytes_cons, Hb', <-app_assoc, (app_assoc (take _ _)), take_drop. }
      apply (drained_trans _ n _ (upd_queue (λ _, frame_advance f n :: q) (set_stream s c))); try done.
      apply IH; [cbn; lia|apply Hs1].
    + assert (sends [] c (upd_queue (λ _, q) (set_stream s c))) as Hs1.
      { apply Hback; [done| |by eexists].
        by rewrite Hout, take_ge, app_assoc by (rewrite <-frame_len_bytes by done; lia). }
      apply (drained_trans _ n _ (upd_queue (λ _, q) (set_stream s c))); try done. apply IH; [cbn; lia|apply Hs1].
  - assert (sends [] c (upd_queue (λ _, f :: q) (set_stream s c))) as Hkeep.
    { apply Hback; [by apply Forall_cons|by rewrite Hout|]. exists []. by rewrite app_nil_r. }
    assert (∀ e, drained sent c (upd_queue (λ _, f :: q) (set_stream s c), Err e)) as Herr by done.
    destruct k; try exact (Herr _).
    + split; [done|]. split; [exact Hkeep|]. split_and!; try done.
      intros n Hn. injection Hn as <-. rewrite <-Hout. reflexivity.
    + cbn. case_decide; [exact (Herr _)|].
      apply (drained_trans _ 0 _ (upd_queue (λ _, f :: q) (set_stream s c))); try done; [cbn; by rewrite Hout|].
      rewrite Nat.add_0_r. apply IH; [destruct Hk as [|Hk]; [done|]; cbn; lia|apply Hkeep].
Qed.

Lemma try_drain_spec c : queue_ok c → drained 0 c (try_drain c).
Proof. intros Hq. apply drain_loop_spec; [lia|done]. Qed.

(** *** Decoding *)

(** Decoding leaves the chunk and the configuration of a buffer alone. *)
Definition home (d d' : DecodeBuffer) : Prop :=
  buffer d' = buffer d ∧ write_offset d' = write_offset d ∧ buffer_config d' = buffer_config d.

Lemma read_chunk_lease_home d n d' l : read_chunk_lease d n = Ok (d', l) → home d d'.
Proof.
  unfold read_chunk_lease. intros H. destruct (chain_head d) as [c|]; [destruct (Nat.compare _ _)|];
    repeat (first [progress inv_ok|progress simplify_eq/=]); done.
Qed.

Lemma decode_frame_head_home d : home d (decode_frame_head d).1.
Proof.
  unfold decode_frame_head. destruct (next_frame_head d); [done|]. destruct (readable_len d); try done.
  case_decide; [|done]. destruct (read_chunk_lease d _) as [[d' l]| |] eqn:Hr; try done.
  apply read_chunk_lease_home in Hr. by destruct (head_decode_from l) as [[]| |].
Qed.

Lemma has_frame_home d : home d (has_frame d).1.
Proof.
  pose proof (decode_frame_head_home d) as Hh. unfold has_frame.
  destruct (decode_frame_head d) as [d' [| |]]; try done.
  destruct (next_frame_head d'); [|done]. by destruct (readable_len d').
Qed.

Lemma decode_body_home d d1 n f : home d d1 → home d (decode_body d1 n f).1.
Proof.
  intros H. unfold decode_body. destruct (read_chunk_lease d1 n) as [[d2 l]| |] eqn:Hr; try done.
  apply read_chunk_lease_home in Hr. unfold home in *. cbn. destruct_and!. split_and!; congruence.
Qed.

Lemma get_frame_home d : home d (get_frame d).1.
Proof.
  pose proof (decode_frame_head_home d) as Hh. unfold get_frame.
  destruct (decode_frame_head d) as [d' [| |]]; try done.
  destruct (next_frame_head d') as [h|]; [|done]. destruct (readable_len d'); try done.
  case_decide; [|done]. destruct (head_type h); try done; by apply decode_body_home.
Qed.

(** What a stream of valid frames lets the decoder do next. *)
Lemma stream_cases d fs rest : wf_decode d → Forall frame_ok fs → stream d ++ rest = wires fs →
  (∃ f fs' s, fs = f :: fs' ∧ stream d = wire f ++ s ∧ s ++ rest = wires fs')
  ∨ (∃ d', get_frame d = (d', Err NoData) ∧ wf_decode d' ∧ stream d' = stream d)
    ∧ (length (stream d) < FRAME_HEAD_LEN
       ∨ ∃ f m, frame_ok f ∧ wire f = stream d ++ m ∧ m ≠ [] ∧ FRAME_HEAD_LEN ≤ length (stream d)).
Proof.
  intros Hw Hok Hs. destruct fs as [|f fs].
  - right. apply app_nil in Hs as [Hs _]. rewrite Hs. split; [|left; cbn; lia].
    exists d. unfold get_frame. destruct (decode_head_short d Hw) as [-> ->]; [rewrite Hs; cbn; lia|done].
  - apply Forall_cons in Hok as [Hf Hok]. destruct (front_cases _ _ _ _ Hs) as [[s Hs']|(m & Hm & Hne)].
    + left. exists f, fs, s. split_and!; [done|done|]. rewrite Hs', <-app_assoc in Hs. by apply app_inv_head in Hs.
    + right. split; [exact (get_frame_part d f m Hw Hf Hm Hne)|].
      destruct (decide (length (stream d) < FRAME_HEAD_LEN)); [by left|right]. exists f, m. split_and!; try done. lia.
Qed.

Lemma has_frame_spec d fs rest : wf_decode d → Forall frame_ok fs → stream d ++ rest = wires fs →
  ∃ d' b, has_frame d = (d', Ok b) ∧ wf_decode d' ∧ stream d' = stream d.
Proof.
  intros Hw Hok Hs. unfold has_frame.
  assert (∀ h r, (Z.of_nat (content_length h) < 2 ^ 32)%Z → stream d = head_bytes h ++ r →
    ∃ d' b, (match decode_frame_head d with
      | (d, Ok _) =>
          match next_frame_head d, readable_len (E:=FramingError) d with
          | Some head, Ok n => (d, Ok (bool_decide (content_length head ≤ n)))
          | None, _ => (d, Ok false)
          | Some _, _ => (d, Panic)
          end
      | (d, Err _) => (d, Err Io)
      | (d, Panic) => (d, Panic)
      end) = (d', Ok b) ∧ wf_decode d' ∧ stream d' = stream d) as Hhead.
  { intros h r Hb Hst. destruct (decode_head_full d h r Hw Hb Hst) as (d1 & -> & Hw1 & Hn1 & Hp1).
    rewrite Hn1, readable_len_Ok by done. do 2 eexists. split; [done|]. split; [done|]. unfold stream at 1. by rewrite Hn1, Hp1. }
  destruct (stream_cases d fs rest Hw Hok Hs) as [(f & fs' & s & -> & Hst & _)|[_ [Hlt|(f & m & Hf & Hm & _ & Hl)]]].
  - apply Forall_cons in Hok as [Hf _]. unfold wire in Hst. rewrite <-app_assoc in Hst.
    exact (Hhead _ _ (frame_head_bound f Hf) Hst).
  - destruct (decode_head_short d Hw Hlt) as [-> ->]. by exists d, false.
  - apply (Hhead (frame_head f) (drop FRAME_HEAD_LEN (stream d)) (frame_head_bound f Hf)).
    apply (f_equal (take FRAME_HEAD_LEN)) in Hm. unfold wire in Hm.
    rewrite take_app_length_eq in Hm by (by rewrite length_head_bytes). rewrite take_app_le in Hm by done.
    by rewrite Hm, take_drop.
Qed.

(** *** Receiving *)

(** The bytes that have arrived and not been decoded, in order. *)
Definition incoming (c : TcpChannel) : list byte := stream (input_buffer c) ++ inbox (stream_ c).

(** Room for [get_writeable] to return a slice. *)
Definition writeable (d : DecodeBuffer) : bool := bool_decide (8 < chunk_len (buffer d) - write_offset d).

(** Chunks larger than the minimum a decode buffer writes to, which the free
    space kept after a swap leaves room for. *)
Definition roomy (d : DecodeBuffer) : Prop :=
  8 < chunk_len (buffer d) ∧ 8 ≤ cfg_encode_buf_min_free_space (buffer_config d).

Definition chan_ok (c : TcpChannel) : Prop :=
  wf_decode (input_buffer c) ∧ roomy (input_buffer c) ∧ queue_ok c ∧ nodelay_ok (stream_ c) = true.

(** The parts of a channel that receiving does not touch. *)
Definition unread_parts (c c' : TcpChannel) : Prop :=
  outbound_queue c' = outbound_queue c ∧ outbox (stream_ c') = outbox (stream_ c)
  ∧ nodelay_ok (stream_ c') = nodelay_ok (stream_ c) ∧ token c' = token c ∧ address c' = address c
  ∧ state c' = state c ∧ own_addr c' = own_addr c ∧ nodelay c' = nodelay c ∧ messages c' = messages c.

(** [c'] is [c] after bytes moved from the socket to the buffer. *)
Definition received (c c' : TcpChannel) : Prop :=
  wf_decode (input_buffer c') ∧ (roomy (input_buffer c) → roomy (input_buffer c')) ∧ incoming c' = incoming c
  ∧ length (reads (stream_ c')) ≤ length (reads (stream_ c)) ∧ unread_parts c c'.

Lemma received_refl c : wf_decode (input_buffer c) → received c c.
Proof. intros Hw. split; [done|]. split; [done|]. split; [done|]. split; done. Qed.

Lemma received_trans c1 c2 c3 : received c1 c2 → received c2 c3 → received c1 c3.
Proof.
  intros (W1 & R1 & I1 & L1 & U1) (W2 & R2 & I2 & L2 & U2). split; [done|]. split; [auto|]. split; [congruence|].
  split; [lia|]. unfold unread_parts in *. destruct_and!. split_and!; congruence.
Qed.

Lemma is_writeable_Ok {E} d : wf_decode d → is_writeable (E:=E) d = Ok (writeable d).
Proof. intros ([_ H] & _). unfold is_writeable, writeable_len. by rewrite csub_Ok by done. Qed.

Lemma writeable_len_Ok {E} d : wf_decode d → writeable_len (E:=E) d = Ok (chunk_len (buffer d) - write_offset d).
Proof. intros ([_ H] & _). unfold writeable_len. by rewrite csub_Ok by done. Qed.

Lemma fill_config d bs o d' : fill (E:=Empty_set) d bs = Ok o → o = Some d' → buffer_config d' = buffer_config d.
Proof. unfold fill. intros H ->. inv_ok. case_match; inv_ok; [|done]. by simplify_eq/=. Qed.

Lemma receive_loop_spec fuel : ∀ interrupts c, length (reads (stream_ c)) < fuel → wf_decode (input_buffer c) →
  let p := receive_loop fuel interrupts c in
  p.2 ≠ Panic ∧ received c p.1
  ∧ (p.2 = Err InvalidInput → writeable (input_buffer c) = true → length (reads (stream_ p.1)) < length (reads (stream_ c))).
Proof.
  induction fuel as [|fuel IH]; intros interrupts c Hf Hw; [lia|]. cbn [receive_loop].
  unfold mbind, st_bind, st_get, st_lift. rewrite is_writeable_Ok by done.
  destruct (writeable (input_buffer c)) eqn:Hwr; cbn [negb].
  2:{ split; [done|]. split; [by apply received_refl|done]. }
  rewrite writeable_len_Ok by done. unfold st_try, on_stream, stream_read.
  destruct (reads (stream_ c)) as [|[n|k] rs] eqn:Hr; cbn -[take drop receive_loop decide].
  { split; [done|]. split; [|done]. replace (set_stream (stream_ c) c) with c by (by destruct c). by apply received_refl. }
  - set (s := mkStream _ _ _ _ _ _ _). set (m := n `min` _) in *.
    destruct (take m (inbox (stream_ c))) as [|b bs] eqn:Ht.
    { split; [done|]. split; [|done]. split; [done|]. split; [done|]. split; [|split; [cbn; rewrite Hr; cbn; lia|done]].
      unfold incoming. cbn. f_equal. rewrite <-(take_drop m (inbox (stream_ c))) at 2. by rewrite Ht. }
    destruct (fill_spec (input_buffer c) (b :: bs) Hw) as (o & Ho & Hd).
    { rewrite <-Ht, length_take. destruct Hw as ([_ Hwo] & _). lia. }
    rewrite Ho. cbn [lift_panic_]. destruct o as [d|].
    2:{ unfold writeable in Hwr. rewrite bool_decide_eq_true in Hwr. lia. }
    destruct Hd as (Hwd & Hst & Hcl). pose proof (fill_config _ _ _ d Ho eq_refl) as Hcfg.
    assert (received c (set_input d (set_stream s c))) as Hrec.
    { split; [exact Hwd|]. split; [unfold roomy; cbn; by rewrite Hcl, Hcfg|]. split; [|split; [cbn; rewrite Hr; cbn; lia|done]].
      unfold incoming. cbn. rewrite Hst, <-app_assoc. f_equal. by rewrite <-Ht, take_drop. }
    destruct (IH interrupts (set_input d (set_stream s c))) as (H1 & H2 & H3); [cbn; cbn in Hf; lia|exact Hwd|].
    split; [exact H1|]. split; [exact (received_trans _ _ _ Hrec H2)|]. intros _ _.
    destruct H2 as (_ & _ & _ & Hle & _). cbn in Hle |- *. lia.
  - assert (received c (set_stream (mkStream (inbox (stream_ c)) rs (outbox (stream_ c)) (writes (stream_ c))
      (stream_error (stream_ c)) (nodelay_ok (stream_ c)) (stream_shut (stream_ c))) c)) as Hrec.
    { split; [done|]. split; [done|]. split; [done|]. split; [cbn; rewrite Hr; cbn; lia|done]. }
    destruct k; try (by (split; [done|]; split; [exact Hrec|intros _ _; cbn; lia])).
    case_decide; [by (split; [done|]; split; [exact Hrec|])|].
    destruct (IH (S interrupts) (set_stream (mkStream (inbox (stream_ c)) rs (outbox (stream_ c)) (writes (stream_ c))
      (stream_error (stream_ c)) (nodelay_ok (stream_ c)) (stream_shut (stream_ c))) c)) as (H1 & H2 & H3);
      [cbn; cbn in Hf; lia|exact Hw|].
    split; [exact H1|]. split; [exact (received_trans _ _ _ Hrec H2)|]. intros _ _.
    destruct H2 as (_ & _ & _ & Hle & _). cbn in Hle |- *. lia.
Qed.

Lemma channel_receive_spec c : wf_decode (input_buffer c) →
  let p := channel_receive c in
  p.2 ≠ Panic ∧ received c p.1
  ∧ (p.2 = Err InvalidInput → writeable (input_buffer c) = true → length (reads (stream_ p.1)) < length (reads (stream_ c))).
Proof. intros Hw. apply receive_loop_spec; [lia|done]. Qed.

(** *** Swapping chunks *)
Definition pool_roomy (p : BufferPool) : Prop := 8 < alloc_size p ∧ Forall (λ b, 8 < chunk_len b) (pool p).

Lemma reclaim_loop_roomy rf n l : Forall (λ b, 8 < chunk_len b) l →
  let '(l', o) := reclaim_loop rf n l in
  Forall (λ b, 8 < chunk_len b) l' ∧ match o with Some b => 8 < chunk_len b ∧ locked b = false | None => True end.
Proof.
  revert l. induction n as [|n IH]; intros l Hl; [done|]. destruct l as [|b l]; [by apply IH|]. cbn [reclaim_loop].
  apply Forall_cons in Hl as [Hb Hl]. unfold free. destruct (locked b) eqn:Hk; [destruct (unreferenced rf b)|]; cbn.
  - done.
  - apply IH. apply Forall_app. split; [done|by constructor].
  - done.
Qed.

Lemma get_buffer_roomy rf p : pool_roomy p →
  let '(p', o) := get_buffer rf p in
  pool_roomy p' ∧ match o with Some b => 8 < chunk_len b ∧ (free rf b).2 = true | None => True end.
Proof.
  intros [Ha Hl]. unfold get_buffer, try_reclaim. pose proof (reclaim_loop_roomy rf (length (pool p)) (pool p) Hl) as H.
  destruct (reclaim_loop rf (length (pool p)) (pool p)) as [l [b|]]; destruct H as [Hl' Hb].
  - split; [done|]. split; [apply Hb|]. unfold free. by destruct Hb as [_ ->].
  - unfold increase_pool. case_decide; [done|]. cbn. split; [done|]. unfold chunk_len. cbn. by rewrite length_replicate.
Qed.

Lemma return_buffer_roomy p b : pool_roomy p → 8 < chunk_len b → pool_roomy (return_buffer p b).
Proof. intros [Ha Hl] Hb. split; [done|]. cbn. apply Forall_app. split; [done|by constructor]. Qed.

Lemma swap_writeable rf d other d' o : wf_decode d → 8 < chunk_len other → (free rf other).2 = true →
  8 ≤ cfg_encode_buf_min_free_space (buffer_config d) → swap_buffer rf d other = Ok (d', o) →
  writeable d' = true ∧ buffer_config d' = buffer_config d.
Proof using B.
  intros Hw Hc Hfree Hm H. destruct (get_overflow_spec d Hw) as (d1 & ov & Hov & _ & _ & _ & Hcfg & _).
  destruct (swap_buffer_spec rf d other Hw Hfree) as (d2 & o2 & H2 & _ & _ & _ & Hlen & _).
  rewrite H in H2. injection H2 as <- <-. unfold writeable. rewrite Hlen.
  unfold swap_buffer in H. destruct (free rf other) as [other' b] eqn:Hf. cbn in Hfree. subst b.
  assert (chunk_len other' = chunk_len other) as Hl.
  { clear -Hf. unfold free in Hf. repeat case_match; by simplify_eq/=. }
  cbn [assert_ mbind res_bind] in H. rewrite Hov in H. cbn [mbind res_bind] in H.
  destruct ov as [l|]; [|cbn in H; injection H as <- _; cbn; rewrite bool_decide_true by lia; done].
  unfold writeable_len in H. cbn [buffer write_offset buffer_config] in H. rewrite csub_Ok in H by lia.
  cbn [mbind res_bind] in H. rewrite Hl, Nat.sub_0_r, Hcfg in H. destruct (_ && _) eqn:Hb in H.
  - apply andb_true_iff in Hb as [Hb1%bool_decide_eq_true Hb2%bool_decide_eq_true].
    destruct (read_bytes l _) as [[bs l']| |]; try done. cbn [mbind res_bind] in H.
    destruct (write_slice _ _ _ _) as [b| |]; try done. cbn [mbind res_bind] in H.
    injection H as <- _. cbn. rewrite bool_decide_true by lia. done.
  - cbn in H. injection H as <- _. cbn. rewrite bool_decide_true by lia. done.
Qed.

(** *** Reading a frame *)

(** [c'] has handed [bs] over for sending since [c], whatever it received. *)
Definition emits (bs : list byte) (c c' : TcpChannel) : Prop :=
  queue_ok c' ∧ outgoing c' = outgoing c ++ bs ∧ own_addr c' = own_addr c
  ∧ ∃ more, outbox (stream_ c') = outbox (stream_ c) ++ more.

Lemma sends_emits bs c c' : sends bs c c' → emits bs c c'.
Proof. intros (H1 & H2 & H3 & H4). unfold unsent_parts in H3. destruct_and!. by split_and!. Qed.

Lemma received_emits c c' : queue_ok c → received c c' → emits [] c c'.
Proof.
  intros Hq (_ & _ & _ & _ & Hqu & Ho & _ & _ & _ & _ & Ha & _). unfold emits, queue_ok, outgoing.
  rewrite Hqu, Ho, Ha, app_nil_r. split_and!; try done. exists []. by rewrite app_nil_r.
Qed.

Lemma emits_trans b1 b2 c1 c2 c3 : emits b1 c1 c2 → emits b2 c2 c3 → emits (b1 ++ b2) c1 c3.
Proof.
  intros (Q1 & O1 & A1 & m1 & E1) (Q2 & O2 & A2 & m2 & E2).
  split_and!; [done|by rewrite O2, O1, app_assoc|congruence|]. exists (m1 ++ m2). by rewrite E2, E1, app_assoc.
Qed.

Lemma send_frame_spec f c : queue_ok c → (∀ p, f ≠ FData p) →
  ∃ c', send_frame f c = (c', Ok ()) ∧ sends (wire f) c c' ∧ state c' = state c ∧ address c' = address c.
Proof.
  intros Hq Hf. unfold send_frame. rewrite encode_control_wire by done.
  unfold ignore_result, mbind, st_bind, st_modify, st_try. set (c1 := enqueue_serialised _ c).
  assert (sends (wire f) c c1) as Hs1.
  { split; [apply Forall_app; split; [done|by constructor]|]. split; [|split; [done|exists []; by rewrite app_nil_r]].
    unfold outgoing, c1. cbn. unfold queue_bytes. rewrite fmap_app, join_app. cbn. by rewrite app_nil_r, app_assoc. }
  destruct (try_drain_spec c1 (proj1 Hs1)) as (Hp & Hs & Hst & Ha & _). destruct (try_drain c1) as [c' r]. cbn in *.
  exists c'. split; [by destruct r|]. split; [|split; congruence].
  rewrite <-(app_nil_r (wire f)). exact (sends_trans _ _ _ _ _ Hs1 Hs).
Qed.

Lemma send_bye_spec c : queue_ok c →
  ∃ c' r, send_bye c = (c', r) ∧ r ≠ Panic ∧ sends (wire FBye) c c' ∧ state c' = state c ∧ address c' = address c
    ∧ (r = Ok () → outbound_queue c' = []).
Proof.
  intros Hq. destruct (send_frame_spec FBye c Hq) as (c' & H & Hs & Hst & Ha); [done|].
  unfold send_bye, mbind, st_bind, st_get. rewrite H. case_decide; (do 2 eexists; split; [reflexivity|]); done.
Qed.

(** How a channel reacts to a frame it reads, and what it sends. *)
Definition read_reaction (f : Frame) (s s' : ChannelState) (out : list Frame) : Prop :=
  match f, s with
  | FAck, Initialised addr id => s' = ChConnected addr id ∧ out = []
  | FBye, ChConnected addr id => (s' = CloseReceived addr id ∨ s' = ChClosed addr id) ∧ out = [FBye]
  | FBye, CloseRequested addr id => s' = ChClosed addr id ∧ out = []
  | _, _ => s' = s ∧ out = []
  end.

(** The outcome of reading from a channel into which the frames [fs] flow, whose
    last bytes [rest] have not arrived. *)
Definition read_ok (fs : list Frame) (rest : list byte) (c c' : TcpChannel) (r : res ErrorKind (option Frame)) : Prop :=
  chan_ok c' ∧ match r with
  | Ok (Some f) => ∃ g fs' out, fs = g :: fs' ∧ same_frame g f ∧ incoming c' ++ rest = wires fs'
      ∧ emits (wires out) c c' ∧ read_reaction f (state c) (state c') out ∧ address c' = address c
  | Ok None | Err _ => received c c'
  | Panic => False
  end.

Lemma received_ok c c' : chan_ok c → received c c' → chan_ok c'.
Proof.
  intros (Hw & Hr & Hq & Hn) (Hw' & Hr' & _ & _ & Hqu & _ & Hn' & _). split; [done|]. split; [auto|].
  unfold queue_ok in *. rewrite Hqu, Hn'. done.
Qed.

Lemma read_ok_received fs rest c0 c c' r : chan_ok c0 → received c0 c → read_ok fs rest c c' r → read_ok fs rest c0 c' r.
Proof.
  intros Hok Hrec [Hok' Hr]. split; [done|]. destruct r as [[f|]|k|]; [|exact (received_trans _ _ _ Hrec Hr)..|done].
  destruct Hr as (g & fs' & out & H1 & H2 & H3 & H4 & H5 & H6). exists g, fs', out.
  split; [done|]. split; [done|]. split; [done|]. split; [|split].
  - exact (emits_trans [] _ _ _ _ (received_emits _ _ (proj1 (proj2 (proj2 Hok))) Hrec) H4).
  - by destruct Hrec as (_ & _ & _ & _ & _ & _ & _ & _ & _ & <- & _).
  - rewrite H6. by destruct Hrec as (_ & _ & _ & _ & _ & _ & _ & _ & -> & _).
Qed.

Lemma sends_ok bs c c' : chan_ok c → sends bs c c' → chan_ok c'.
Proof.
  intros (Hw & Hr & Hq & Hn) (Hq' & _ & (_ & _ & Hn' & Hd & _) & _). unfold chan_ok. by rewrite Hd, Hn'.
Qed.

Lemma handle_ack_spec c : chan_ok c →
  ∃ s, handle_ack c = (set_chan_state s c, Ok ()) ∧ read_reaction FAck (state c) s [].
Proof.
  intros (_ & _ & _ & Hn). unfold handle_ack, set_nodelay, mbind, st_bind, st_get, st_lift, st_modify.
  assert (set_chan_state (state c) c = c) as Hid by (by destruct c).
  destruct (state c) eqn:Hs; try (exists (state c); rewrite Hs, Hid; done).
  rewrite Hn. by eexists.
Qed.

Lemma control_wires f : wires [f] = wire f.
Proof. unfold wires. cbn [fmap list_fmap mjoin list_join]. by rewrite app_nil_r. Qed.

Lemma handle_bye_spec c : chan_ok c →
  ∃ c' out, channel_handle_bye c = (c', Ok ()) ∧ sends (wires out) c c' ∧ read_reaction FBye (state c) (state c') out
    ∧ address c' = address c.
Proof.
  intros (_ & _ & Hq & _). unfold channel_handle_bye, mbind, st_bind, st_get, st_try, st_modify.
  destruct (state c) as [a id| |a id|a id|a id|a id|a id|e] eqn:Hs;
    try (exists c, []; rewrite Hs; split; [done|]; split; [by apply sends_refl|done]).
  - destruct (send_bye_spec (set_chan_state (CloseReceived a id) c) Hq) as (c1 & r & -> & Hp & Hse & Hst & Ha & _).
    rewrite <-control_wires in Hse. destruct r as [[]|k|]; [| |done]; (eexists _, [FBye]; split; [reflexivity|]);
      (split; [exact Hse|]); (split; [|exact Ha]); (split; [|done]); cbn; [by right|left; by rewrite Hst].
  - exists (set_chan_state (ChClosed a id) c), []. split; [done|]. split; [exact (sends_refl c Hq)|done].
Qed.

Lemma home_roomy d d' : home d d' → roomy d → roomy d'.
Proof. unfold home, roomy. by intros (-> & _ & ->). Qed.

Lemma home_writeable d d' : home d d' → writeable d' = writeable d.
Proof. unfold home, writeable. by intros (-> & -> & _). Qed.

(** A decode step that returns nothing. *)
Lemma decoded_received c d : chan_ok c → wf_decode d → home (input_buffer c) d → stream d = stream (input_buffer c) →
  received c (set_input d c).
Proof.
  intros (_ & Hr & _) Hw Hh Hs. split; [exact Hw|]. split; [by apply home_roomy|].
  split; [unfold incoming; cbn; by rewrite Hs|]. done.
Qed.

Lemma handle_decoded_spec c fs rest : chan_ok c → Forall frame_ok fs → incoming c ++ rest = wires fs →
  read_ok fs rest c (handle_decoded c).1 (handle_decoded c).2.
Proof.
  intros Hok Hfs Hin. pose proof Hok as (Hw & Hr & Hq & Hn). unfold incoming in Hin. rewrite <-app_assoc in Hin.
  pose proof (get_frame_home (input_buffer c)) as Hh. unfold handle_decoded, channel_decode.
  destruct (stream_cases _ fs _ Hw Hfs Hin) as [(g & fs' & s & -> & Hst & Hrest)|[(d & Hg & Hwd & Hsd) _]].
  2:{ rewrite Hg in *. cbn in Hh |- *. pose proof (decoded_received c d Hok Hwd Hh Hsd) as Hrec.
      split; [exact (received_ok _ _ Hok Hrec)|exact Hrec]. }
  apply Forall_cons in Hfs as [Hg _]. destruct (get_frame_full _ g s Hw Hg Hst) as (d & fr & Hgf & Hsame & Hwd & Hsd).
  rewrite Hgf in *. cbn in Hh.
  assert (∀ c1, outbound_queue c1 = outbound_queue c → stream_ c1 = stream_ c → input_buffer c1 = d → chan_ok c1) as Hok1.
  { intros c1 H1 H2 H3. unfold chan_ok, queue_ok. rewrite H1, H2, H3. split_and!; [done| |done|done].
    exact (home_roomy _ _ Hh Hr). }
  assert (incoming (set_input d c) ++ rest = wires fs') as Hin'.
  { unfold incoming. cbn. by rewrite Hsd, <-app_assoc. }
  assert (∀ c1, outbound_queue c1 = outbound_queue c → stream_ c1 = stream_ c → own_addr c1 = own_addr c → emits [] c c1) as Hem.
  { intros c1 H1 H2 H3. unfold emits, queue_ok, outgoing. rewrite H1, H2, H3, app_nil_r. split_and!; try done.
    exists []. by rewrite app_nil_r. }
  assert (∀ c1, c1 = set_input d c ∨ c1 = count_message (set_input d c) → ∀ f, (f ≠ FAck ∧ f ≠ FBye) → same_frame g f →
    read_ok (g :: fs') rest c c1 (Ok (Some f))) as Hplain.
  { intros c1 Hc f [Hna Hnb] Hs. split; [destruct Hc as [-> | ->]; by apply Hok1|]. exists g, fs', [].
    split; [done|]. split; [done|]. split; [by destruct Hc as [-> | ->]|].
    split; [apply Hem; by destruct Hc as [-> | ->]|]. split; [|by destruct Hc as [-> | ->]].
    assert (state c1 = state c) as Hs1 by (by destruct Hc as [-> | ->]). destruct f; try done. }
  pose proof (Hok1 (set_input d c) eq_refl eq_refl eq_refl) as Hokd.
  destruct fr as [p|h|st| |].
  - apply Hplain; auto.
  - apply Hplain; auto.
  - apply Hplain; auto.
  - destruct (handle_ack_spec _ Hokd) as (s1 & H1 & H2). unfold mbind, st_bind. rewrite H1.
    split; [by apply Hok1|]. exists g, fs', [].
    split; [done|]. split; [done|]. split; [exact Hin'|]. split; [by apply Hem|done].
  - destruct (handle_bye_spec _ Hokd) as (c1 & out & H1 & H2 & H3 & H4). unfold mbind, st_bind. rewrite H1. cbn [mret st_ret fst snd].
    split; [exact (sends_ok _ _ _ Hokd H2)|]. exists g, fs', out.
    split; [done|]. split; [done|]. split; [|split; [|done]].
    + unfold incoming. destruct H2 as (_ & _ & (Hi & _ & _ & Hd & _) & _). rewrite Hi, Hd. exact Hin'.
    + exact (emits_trans [] _ _ _ _ (Hem (set_input d c) eq_refl eq_refl eq_refl) (sends_emits _ _ _ H2)).
Qed.

(** Rounds of [read_frame] that are still possible. *)
Definition rounds (c : TcpChannel) : nat := length (reads (stream_ c)) + if writeable (input_buffer c) then 0 else 1.

Lemma has_frame_step c fs rest : chan_ok c → Forall frame_ok fs → incoming c ++ rest = wires fs →
  ∃ c' b, channel_has_frame c = (c', Ok b) ∧ received c c' ∧ reads (stream_ c') = reads (stream_ c)
    ∧ writeable (input_buffer c') = writeable (input_buffer c).
Proof.
  intros Hok Hfs Hin. pose proof Hok as (Hw & _). unfold incoming in Hin. rewrite <-app_assoc in Hin.
  destruct (has_frame_spec (input_buffer c) fs _ Hw Hfs Hin) as (d & b & Hh & Hwd & Hsd).
  pose proof (has_frame_home (input_buffer c)) as Hhome. rewrite Hh in Hhome. cbn in Hhome.
  exists (set_input d c), b. unfold channel_has_frame, on_input. rewrite Hh. split; [done|].
  split; [by apply decoded_received|]. split; [done|by apply home_writeable].
Qed.

Lemma read_frame_spec fuel : ∀ c p fs rest, chan_ok c → pool_roomy p → rounds c < fuel → Forall frame_ok fs →
  incoming c ++ rest = wires fs →
  ∃ c' p' r, read_frame fuel (c, p) = (c', p', r) ∧ read_ok fs rest c c' r ∧ pool_roomy p'.
Proof.
  induction fuel as [|fuel IH]; intros c p fs rest Hok Hp Hf Hfs Hin; [lia|]. cbn [read_frame].
  assert (∀ c1 p1, received c c1 → pool_roomy p1 →
    ∃ c' p' r, on_channel handle_decoded (c1, p1) = (c', p', r) ∧ read_ok fs rest c c' r ∧ pool_roomy p') as Hdec.
  { intros c1 p1 Hrec Hp1. pose proof Hrec as (_ & _ & Hi & _).
    pose proof (handle_decoded_spec c1 fs rest (received_ok _ _ Hok Hrec) Hfs ltac:(by rewrite Hi)) as Hd.
    unfold on_channel. destruct (handle_decoded c1) as [c' r]. exists c', p1, r. split; [done|]. split; [|done].
    exact (read_ok_received _ _ _ _ _ _ Hok Hrec Hd). }
  destruct (has_frame_step c fs rest Hok Hfs Hin) as (c1 & b & H1 & Hrec1 & Hrd1 & Hwr1).
  unfold mbind at 1, st_bind at 1, on_channel at 1. rewrite H1. destruct b; [by apply Hdec|].
  destruct (channel_receive_spec c1) as (Hnp & Hrec2 & Hcons); [apply Hrec1|].
  unfold mbind at 1, st_bind at 1, st_try at 1, on_channel at 1.
  destruct (channel_receive c1) as [c2 r2]. cbn [fst snd] in *. pose proof (received_trans _ _ _ Hrec1 Hrec2) as Hrec.
  assert (∀ k, ∃ c' p' r, (c2, p, Err k : res ErrorKind (option Frame)) = (c', p', r) ∧ read_ok fs rest c c' r ∧ pool_roomy p') as Herr.
  { intros k. do 3 eexists. split; [done|]. split; [|done]. split; [exact (received_ok _ _ Hok Hrec)|exact Hrec]. }
  destruct r2 as [[]|k|]; [by apply Hdec| |done]. destruct k; try exact (Herr _).
  pose proof (received_ok _ _ Hok Hrec) as Hok2. pose proof Hrec as (_ & _ & Hin2 & _).
  destruct (has_frame_step c2 fs rest Hok2 Hfs ltac:(by rewrite Hin2)) as (c3 & b & H3 & Hrec3 & Hrd3 & _).
  unfold mbind at 1, st_bind at 1, on_channel at 1. rewrite H3.
  pose proof (received_trans _ _ _ Hrec Hrec3) as Hrec'. destruct b; [by apply Hdec|].
  pose proof (received_ok _ _ Hok Hrec') as Hok3. pose proof Hok3 as (Hw3 & Hr3 & _).
  unfold mbind at 1, st_bind at 1, st_get at 1, mbind at 1, st_bind at 1, with_pool at 1. cbn [fst].
  pose proof (get_buffer_roomy (refs c3) p Hp) as Hgb. destruct (get_buffer (refs c3) p) as [p1 [b|]]; destruct Hgb as [Hp1 Hb].
  2:{ do 3 eexists. split; [reflexivity|]. split; [|done]. split; [exact Hok3|exact Hrec']. }
  destruct Hb as [Hbl Hbf].
  destruct (swap_buffer_spec (refs c3) (input_buffer c3) b Hw3 Hbf) as (d & o & Hsw & Hwd & Hsd & _ & Hcl & ->).
  destruct (swap_writeable (refs c3) (input_buffer c3) b d _ Hw3 Hbl Hbf (proj2 Hr3) Hsw) as [Hwr Hcfg].
  unfold mbind at 1, st_bind at 1, on_channel at 1, channel_swap_buffer. rewrite Hsw.
  unfold mbind at 1, st_bind at 1, with_pool at 1.
  assert (received c3 (set_input d c3)) as Hrec4.
  { split; [exact Hwd|]. split; [intros _; split; cbn; [lia|rewrite Hcfg; apply Hr3]|].
    split; [unfold incoming; cbn; by rewrite Hsd|done]. }
  pose proof (received_trans _ _ _ Hrec' Hrec4) as Hrec5. pose proof Hrec5 as (_ & _ & Hi5 & _).
  destruct (IH (set_input d c3) (return_buffer p1 (lock_chunk (buffer (input_buffer c3)))) fs rest) as (c' & p' & r & He & Hr' & Hp').
  - exact (received_ok _ _ Hok Hrec5).
  - apply return_buffer_roomy; [done|apply Hr3].
  - destruct Hrec2 as (_ & _ & _ & Hle & _). unfold rounds in *. cbn. rewrite Hwr, Hrd3. rewrite Hwr1 in Hcons.
    rewrite Hrd1 in Hle, Hcons. destruct (writeable (input_buffer c)); [specialize (Hcons eq_refl eq_refl)|]; lia.
  - done.
  - by rewrite Hi5.
  - exists c', p', r. split; [exact He|]. split; [|done]. exact (read_ok_received _ _ _ _ _ _ Hok Hrec5 Hr').
Qed.

(** *** The handshake and the graceful close *)
Lemma initialise_spec addr c : chan_ok c → state c = Initialising →
  ∃ c', initialise addr c = (c', Ok ()) ∧ sends (wire (FHello (mkHello addr))) c c' ∧ state c' = Initialising.
Proof.
  intros (_ & _ & Hq & _) Hs. unfold initialise, mbind, st_bind, st_get. rewrite Hs.
  destruct (send_frame_spec (FHello (mkHello addr)) c Hq) as (c' & -> & Hse & Hst & _); [done|].
  exists c'. split_and!; try done. congruence.
Qed.

Lemma handle_hello_spec h c : chan_ok c →
  ∃ c', channel_handle_hello h c = (c', Ok ()) ∧ match state c with
    | Requested _ id => sends (wire (FStart (mkStart (own_addr c) id))) c c' ∧ state c' = Initialised (hello_addr h) id
    | _ => c' = c
    end.
Proof.
  intros (_ & _ & Hq & _). unfold channel_handle_hello, mbind, st_bind, st_get, st_modify.
  destruct (state c) as [a id| | | | | | |] eqn:Hs; try (by exists c).
  destruct (send_frame_spec (FStart (mkStart (own_addr c) id)) c Hq) as (c' & -> & Hse & Hst & _); [done|].
  by eexists.
Qed.

Lemma handle_start_spec st c : chan_ok c →
  ∃ c', channel_handle_start st c = (c', Ok ()) ∧ match state c with
    | Initialising => sends (wire FAck) c c' ∧ state c' = ChConnected (start_addr st) (start_id st)
    | _ => c' = c
    end.
Proof.
  intros (_ & _ & Hq & Hn). unfold channel_handle_start, set_nodelay, mbind, st_bind, st_get, st_lift, st_modify.
  destruct (state c) as [a id| | | | | | |] eqn:Hs; try (by exists c). rewrite Hn. cbn [assert_].
  destruct (send_frame_spec FAck c Hq) as (c' & -> & Hse & Hst & _); [done|]. by eexists.
Qed.

Lemma graceful_shutdown_spec c : chan_ok c →
  ∃ c', initiate_graceful_shutdown c = (c', Ok ()) ∧ match state c with
    | ChConnected a id => sends (wire FBye) c c' ∧ state c' = CloseRequested a id
    | _ => c' = c
    end.
Proof.
  intros (_ & _ & Hq & _). unfold initiate_graceful_shutdown, ignore_result, mbind, st_bind, st_get, st_try, st_modify.
  destruct (state c) as [a id| | |a id| | | |] eqn:Hs; try (by exists c).
  destruct (send_bye_spec (set_chan_state (CloseRequested a id) c) Hq) as (c' & r & -> & Hp & Hse & Hst & _).
  exists c'. split; [by destruct r|]. split; [exact Hse|]. by rewrite Hst.
Qed.

(** *** A configuration that reading does not return from *)

(** Part of a frame fills a chunk but for at most eight bytes, and the free space
    that a swap keeps is smaller than that. *)
Definition stuck (n w : nat) (h : FrameHead) (c : TcpChannel) : Prop :=
  let d := input_buffer c in
  wf_decode d ∧ next_frame_head d = Some h ∧ chain_head d = None ∧ read_offset d = 0 ∧ write_offset d = w
  ∧ chunk_len (buffer d) = n ∧ cfg_encode_buf_min_free_space (buffer_config d) < n - w ≤ 8 ∧ 0 < w < content_length h.

Definition uniform (n : nat) (p : BufferPool) : Prop := pool p ≠ [] ∧ Forall (λ b, chunk_len b = n) (pool p).

Lemma stuck_swap rf n w h c b : stuck n w h c → chunk_len b = n → locked b = false →
  ∃ d, swap_buffer rf (input_buffer c) b = Ok (d, lock_chunk (buffer (input_buffer c))) ∧ stuck n w h (set_input d c).
Proof using B U.
  intros (Hw & Hh & Hch & Hro & Hwo & Hn & Hm & Hc) Hb Hl.
  assert ((free rf b).2 = true) as Hfree by (unfold free; by rewrite Hl).
  destruct (swap_buffer_spec rf (input_buffer c) b Hw Hfree) as (d & o & Hsw & Hwd & _ & _ & Hcl & ->).
  exists d. split; [done|].
  assert (next_frame_head d = Some h ∧ chain_head d = None ∧ read_offset d = 0 ∧ write_offset d = w
    ∧ buffer_config d = buffer_config (input_buffer c)) as (E1 & E2 & E3 & E4 & E5).
  { unfold swap_buffer in Hsw. unfold free in Hsw. rewrite Hl in Hsw. cbn [assert_ mbind res_bind] in Hsw.
    unfold get_overflow in Hsw. rewrite Hro, Hwo, csub_Ok, Nat.sub_0_r in Hsw by lia. cbn [mbind res_bind] in Hsw.
    rewrite decide_True in Hsw by lia. rewrite get_lease_Ok in Hsw by (try apply Hw; lia). cbn [mbind res_bind] in Hsw.
    rewrite drop_0, Nat.sub_0_r in Hsw. cbn [buffer write_offset buffer_config chain_head next_frame_head] in Hsw.
    unfold writeable_len in Hsw. cbn [buffer write_offset] in Hsw. rewrite csub_Ok, Hb in Hsw by lia.
    cbn [mbind res_bind] in Hsw. rewrite Nat.sub_0_r in Hsw.
    assert (remaining (new_lease (take w (data (buffer (input_buffer c)))) (chunk_id (buffer (input_buffer c)))) = w) as Hrem.
    { unfold remaining. cbn. rewrite length_take. unfold chunk_len in Hn. lia. }
    rewrite Hrem in Hsw. rewrite !bool_decide_true in Hsw by lia. cbn [andb] in Hsw.
    destruct (read_bytes _ w) as [[bs l]| |]; try done. cbn [mbind res_bind] in Hsw.
    destruct (write_slice _ 0 w bs) as [b'| |]; try done. cbn [mbind res_bind] in Hsw. injection Hsw as <-.
    cbn. by rewrite Hh, Hch. }
  unfold stuck. cbn. rewrite E5, Hcl, Hb. split_and!; try done; lia.
Qed.

Lemma stuck_has_frame n w h c : stuck n w h c → channel_has_frame c = (c, Ok false).
Proof using B U.
  intros (Hw & Hh & Hch & Hro & Hwo & Hn & Hm & Hc). unfold channel_has_frame, on_input, has_frame, decode_frame_head.
  rewrite Hh, Hh, readable_len_Ok by done. unfold pending, chain_bytes. rewrite Hch, Hro, Hwo. cbn [app].
  rewrite drop_0, length_take. rewrite bool_decide_false by lia. cbn [map_err]. by destruct c.
Qed.

Lemma stuck_receive n w h c : stuck n w h c → channel_receive c = (c, Err InvalidInput).
Proof using B U.
  intros (Hw & Hh & Hch & Hro & Hwo & Hn & Hm & Hc). unfold channel_receive. cbn [receive_loop].
  unfold mbind, st_bind, st_get, st_lift. rewrite is_writeable_Ok by done. unfold writeable.
  rewrite bool_decide_false by lia. done.
Qed.

Lemma stuck_pool n p : uniform n p →
  ∃ p' b, get_buffer (λ _, 0) p = (p', Some b) ∧ chunk_len b = n ∧ locked b = false
    ∧ ∀ o, chunk_len o = n → uniform n (return_buffer p' o).
Proof.
  intros [Hne Hall]. unfold get_buffer, try_reclaim. destruct (pool p) as [|b l] eqn:Hp; [done|].
  apply Forall_cons in Hall as [Hb Hl]. cbn [length reclaim_loop]. unfold free, unreferenced. cbn.
  destruct (locked b) eqn:Hk; (do 2 eexists; split; [reflexivity|]); (split_and!; [done|done|]); intros o Ho; split; cbn;
    try (by destruct l); apply Forall_app; (split; [done|by constructor]).
Qed.
End Channel.

(** Reading need not return: with less free space configured for the buffers than the eight bytes a decode buffer
    refuses to write into (which the configuration check accepts), a frame that fills a chunk but for some of those
    bytes is copied to a chunk that is just as full; reading then asks for another chunk, again and again, without
    ever reaching the socket.  No number of rounds is enough. *)
Theorem small_free_space_loops {B : BytesApi} {U : UuidApi} (fuel n w : nat) (h : FrameHead) (c : TcpChannel) (p : BufferPool) :
  stuck n w h c → uniform n p → (read_frame (λ _ _, 0) fuel (c, p)).2 = Panic.
Proof.
  revert c p. induction fuel as [|fuel IH]; intros c p Hs Hp; [done|]. cbn [read_frame].
  unfold mbind at 1, st_bind at 1, on_channel at 1. rewrite (stuck_has_frame _ _ _ _ Hs).
  unfold mbind at 1, st_bind at 1, st_try at 1, on_channel at 1. rewrite (stuck_receive _ _ _ _ Hs).
  unfold mbind at 1, st_bind at 1, on_channel at 1. rewrite (stuck_has_frame _ _ _ _ Hs).
  unfold mbind at 1, st_bind at 1, st_get at 1, mbind at 1, st_bind at 1, with_pool at 1.
  destruct (stuck_pool n p Hp) as (p' & b & -> & Hb & Hl & Hret).
  unfold mbind at 1, st_bind at 1, on_channel at 1, channel_swap_buffer.
  destruct (stuck_swap (λ _, 0) n w h c b Hs Hb Hl) as (d & -> & Hs').
  unfold mbind at 1, st_bind at 1, with_pool at 1. apply IH; [done|]. apply Hret. apply Hs.
Qed.

(** A validated configuration in which it happens. *)
Lemma small_free_space_loops_witness :
  let cfg := mkConfig 128 1 2 0 in
  validate (E := Empty_set) cfg = Ok ()
  ∧ ∀ fuel, (read_frame (B := be_bytes_api) (U := uuid128_api) (λ _ _, 0) fuel
      (mkChannel (mkStream [] [] [] [] None true false) [] 3 (MkSocketAddr (V4 1) 80)
         (mkDecode (new_chunk 0 128) 124 0 (Some (mkHead FT_Data 500)) None cfg) Initialising 0 (MkSocketAddr (V4 2) 80) true,
       mkPool [new_chunk 1 128] 2 128 128 2 2)).2 = Panic.
Proof.
  split; [reflexivity|]. intros fuel. apply (small_free_space_loops fuel 128 124 (mkHead FT_Data 500)).
  - unfold stuck, wf_decode, chunk_len. cbn. split_and!; done || lia.
  - split; [done|]. by repeat constructor.
Defined.
