(* ===== verification/Session.v ===== *)
(** * Sessions between two systems

    Two channels connected by a network that delivers bytes in order, in pieces
    of any size: the one that requested the connection and the one that accepted
    it.  Each endpoint sends, drains, reads and closes as the network thread
    makes it ([read_tcp], [write_tcp], [send_tcp_message], [handle_bye], [stop] and,
    for a connected channel, [close_connection] in
    [network/src/transport/network_thread.rs]), in any interleaving.  A write that
    fails with a broken pipe and a read that fails with a connection reset lose the
    connection and end the session, as does a frame after which the thread drops the
    channel; a failing [set_nodelay] panics.  The theorems are about sessions whose
    connection is not lost, with any other outcomes of the socket calls.  A channel that has closed is deregistered, and what
    its queue still holds is rejected, that is handed back to the dispatcher.

    The channels implement a protocol on frames ([proto]); the theorems about
    sessions are proved on that protocol. *)

From S2P Require Import Prelude Extern ChunkLease Frames Buffers DecodeBuffer Messages Channel.

Section Session.
Context {B : BytesApi} {U : UuidApi}.

(** ** One endpoint *)

(** The outcomes the environment has in store for the next calls. *)
Definition with_io (rs ws : list IoOutcome) (c : TcpChannel) : TcpChannel :=
  let s := stream_ c in
  set_stream (mkStream (inbox s) rs (outbox s) ws (stream_error s) (nodelay_ok s) (stream_shut s)) c.

Inductive LocalOp :=
| OpSend (frame : SerialisedFrame) (payload : ChunkLease)
| OpWrite (ws : list IoOutcome)
| OpClose (ws : list IoOutcome)
| OpRead (refs : TcpChannel → Refs) (p : BufferPool) (rs ws : list IoOutcome).

(** The frames sent in reaction to a frame that was read. *)
Definition reply (own : SocketAddr) (s : ChannelState) (f : Frame) : list Frame :=
  match f, s with
  | FHello _, Requested _ id => [FStart (mkStart own id)]
  | FStart _, Initialising => [FAck]
  | FBye, ChConnected _ _ => [FBye]
  | _, _ => []
  end.

(** [drop_channel] and [lost_connection], which end the session. *)
Inductive LocalEnd := Dropped | Lost.

(** The thread does not get events for a channel that has closed ([deregister_channel]). *)
Definition closed (s : ChannelState) : bool := match s with ChClosed _ _ => true | _ => false end.

(** [reject_outbound_for_channel], as far as the channel is concerned. *)
Definition reject_outbound (c : TcpChannel) : TcpChannel := (take_outbound c).1.

(** [write_tcp]. *)
Definition local_write (ws : list IoOutcome) (c : TcpChannel) : res LocalEnd TcpChannel :=
  match try_drain (with_io [] ws c) with
  | (c, Ok _) =>
      Ok (match state c with
          | CloseReceived addr id => reject_outbound (set_chan_state (ChClosed addr id) c)
          | _ => c
          end)
  | (c, Err BrokenPipe) => Err Lost
  | (c, Err _) => Ok c
  | (_, Panic) => Panic
  end.

(** [handle_bye] of the network thread, after that of the channel. *)
Definition local_bye (c : TcpChannel) : res LocalEnd TcpChannel :=
  match state c with
  | ChClosed _ _ => Ok (reject_outbound c)
  | CloseReceived _ _ => Ok c
  | _ => Err Dropped
  end.

Definition run_chan {A} (m : St TcpChannel ErrorKind A) (c : TcpChannel) : res LocalEnd TcpChannel :=
  match m c with (c, Panic) => Panic | (c, _) => Ok c end.

(** The endpoint after an operation, with the frames sent and read.  Reading is a round of the loop of [read_tcp];
    [handle_start] is the one for hosts with a single connection between them (for simultaneous ones see
    [ThreadBehaviour]). *)
Definition local_run (op : LocalOp) (c : TcpChannel) : res LocalEnd (TcpChannel * list Frame * list Frame) :=
  match op with
  | OpSend frame payload =>
      Ok (if connected c then (enqueue_serialised frame c, [FData payload], []) else (c, [], []))
  | OpWrite ws => if closed (state c) then Ok (c, [], []) else c ← local_write ws c; Ok (c, [], [])
  | OpClose ws =>
      c' ← run_chan initiate_graceful_shutdown (with_io [] ws c);
      Ok (c', if connected c then [FBye] else [], [])
  | OpRead refs p rs ws =>
      if closed (state c) then Ok (c, [], []) else
      match read_frame refs (S (S (length rs))) (with_io rs ws c, p) with
      | (c', _, Ok (Some f)) =>
          c'' ← match f with
                | FHello h => run_chan (channel_handle_hello h) c'
                | FStart st => run_chan (channel_handle_start st) c'
                | FBye => local_bye c'
                | _ => Ok c'
                end;
          Ok (c'', reply (own_addr c) (state c) f, [f])
      | (c', _, Err ConnectionReset) => Err Lost
      | (c', _, Panic) => Panic
      | (c', _, _) => Ok (c', [], [])
      end
  end.

(** A frame to be sent holds the wire format of its payload, and reads find
    chunks that are large enough. *)
Definition op_ok (op : LocalOp) : Prop :=
  match op with
  | OpSend frame payload => frame_wf frame ∧ frame_bytes frame = wire (FData payload) ∧ frame_ok (FData payload)
  | OpWrite ws | OpClose ws => Forall (λ o, o ≠ IoError BrokenPipe) ws   (** the connection is not lost *)
  | OpRead _ p rs ws => pool_roomy p ∧ Forall (λ o, o ≠ IoError ConnectionReset) rs
  end.

(** *** Errors that the socket does not report *)

(** From states with [I], [m] leads to states with [J] and does not fail with [k]. *)
Definition spares {S A} (k : ErrorKind) (I J : S → Prop) (m : St S ErrorKind A) : Prop :=
  ∀ s, I s → J (m s).1 ∧ (m s).2 ≠ Err k.

Lemma spares_ret {S A} k (I : S → Prop) (a : A) : spares k I I (mret a).
Proof. by intros s Hs. Qed.

Lemma spares_lift {S A} k (I : S → Prop) (r : res ErrorKind A) : r ≠ Err k → spares k I I (st_lift r).
Proof. by intros Hr s Hs. Qed.

Lemma spares_modify {S} k (I : S → Prop) f : (∀ s, I s → I (f s)) → spares k I I (st_modify f).
Proof. intros Hf s Hs. split; [by apply Hf|done]. Qed.

Lemma spares_weaken {S A} k (I J K : S → Prop) (m : St S ErrorKind A) : spares k I J m → (∀ s, J s → K s) → spares k I K m.
Proof. intros Hm HJ s Hs. destruct (Hm s Hs). auto. Qed.

Lemma spares_try {S A A'} k (I J K : S → Prop) (m : St S ErrorKind A) (f : A + ErrorKind → St S ErrorKind A') :
  spares k I J m → (∀ s, J s → K s) → (∀ a, spares k J K (f (inl a))) → (∀ e, e ≠ k → spares k J K (f (inr e))) →
  spares k I K (st_try m ≫= f).
Proof.
  intros Hm HJ Hl Hr s Hs. unfold mbind, st_bind, st_try. destruct (Hm s Hs) as [H1 H2].
  destruct (m s) as [s1 [a|e|]]; cbn [fst snd] in *; [by apply Hl|apply Hr; [congruence|done]|auto].
Qed.

Lemma spares_bind {S A A'} k (I J K : S → Prop) (m : St S ErrorKind A) (f : A → St S ErrorKind A') :
  spares k I J m → (∀ s, J s → K s) → (∀ a, spares k J K (f a)) → spares k I K (m ≫= f).
Proof.
  intros Hm HJ Hf s Hs. unfold mbind, st_bind. destruct (Hm s Hs) as [H1 H2].
  destruct (m s) as [s1 [a|e|]]; cbn [fst snd] in *; [by apply Hf|split; [auto|congruence]|auto].
Qed.

Lemma spares_get {S A} k (I K : S → Prop) (f : S → St S ErrorKind A) :
  (∀ s, I s → K s) → (∀ s, spares k I K (f s)) → spares k I K (st_get ≫= f).
Proof. intros HI Hf. by apply (spares_bind k I I); [by intros s Hs|..]. Qed.

Definition writes_spare (k : ErrorKind) (c : TcpChannel) : Prop := Forall (λ o, o ≠ IoError k) (writes (stream_ c)).
Definition reads_spare (k : ErrorKind) (c : TcpChannel) : Prop := Forall (λ o, o ≠ IoError k) (reads (stream_ c)).

Local Ltac spare_step :=
  lazymatch goal with
  | |- spares _ _ _ (mbind _ st_get) => apply spares_get; [done|intros ?]
  | |- spares _ _ _ (mbind _ (st_try _)) => eapply spares_try; [|intros ? Hj; exact Hj|intros ?|intros e He; destruct e]
  | |- spares _ _ _ (mbind _ _) => eapply spares_bind; [|intros ? Hj; exact Hj|intros ?]
  | |- spares _ _ _ (st_lift _) => apply spares_lift; congruence
  | |- spares _ _ _ (st_modify _) => by apply spares_modify
  | |- spares _ _ _ (mret _) => apply spares_ret
  end.

Lemma drain_spares fuel : ∀ sent interrupts,
  spares BrokenPipe (writes_spare BrokenPipe) (writes_spare BrokenPipe) (drain_loop fuel sent interrupts).
Proof.
  induction fuel as [|fuel IH]; intros sent interrupts; [by apply spares_lift|]. cbn [drain_loop].
  spare_step. destruct (outbound_queue _) as [|f q]; [spare_step|].
  spare_step; [spare_step|]. spare_step; try done; try (spare_step; spare_step; fail).
  - unfold write_serialized. spare_step; [apply spares_lift; by destruct (frame_chunk f)|].
    intros c1 Hc1. unfold on_stream, stream_write, writes_spare in *. destruct (writes (stream_ c1)) as [|[n|k] ws] eqn:Hw; cbn; rewrite ?Hw; [done|..];
      apply Forall_cons in Hc1 as [Hh Ht]; split; congruence.
  - spare_step; [case_bool_decide; cbn [st_when]; spare_step|done].
  - spare_step; [spare_step|]. case_decide; [spare_step|apply IH].
Qed.

Lemma receive_spares fuel : ∀ interrupts,
  spares ConnectionReset (reads_spare ConnectionReset) (reads_spare ConnectionReset) (receive_loop fuel interrupts).
Proof.
  induction fuel as [|fuel IH]; intros interrupts; [by apply spares_lift|]. cbn [receive_loop].
  spare_step. spare_step; [apply spares_lift; unfold is_writeable, writeable_len, csub; by destruct (decide _)|]. case_match; [|spare_step].
  spare_step; [apply spares_lift; unfold writeable_len, csub; by destruct (decide _)|]. spare_step; try spare_step; try done.
  - intros c1 Hc1. unfold on_stream, stream_read, reads_spare in *. destruct (reads (stream_ c1)) as [|[n|k] rs] eqn:Hr; cbn; rewrite ?Hr; [done|..];
      apply Forall_cons in Hc1 as [Hh Ht]; split; congruence.
  - case_match; [spare_step|]. spare_step; [apply spares_lift; by destruct (fill _ _)|].
    case_match; [|by apply spares_lift]. spare_step; [spare_step|done].
  - case_decide; [spare_step|apply IH].
Qed.

Lemma on_channel_spares {A} k I J (m : St TcpChannel ErrorKind A) : spares k I J m → spares k (λ s, I s.1) (λ s, J s.1) (on_channel m).
Proof. intros Hm [c p] Hc. unfold on_channel. destruct (Hm c Hc). by destruct (m c) as [c1 r]. Qed.

Lemma decoded_spares I : spares ConnectionReset I (λ _, True) handle_decoded.
Proof.
  intros c _. split; [done|]. unfold handle_decoded. destruct (channel_decode c) as [c1 [[| | | |]|[]|]]; try done.
  - unfold handle_ack, set_nodelay, mbind, st_bind, st_get, st_lift, st_modify, assert_.
    destruct (state c1); try done. by destruct (nodelay_ok _).
  - unfold channel_handle_bye, mbind, st_bind, st_get, st_try, st_modify. destruct (state c1); try done.
    by destruct (send_bye _) as [? [|[]|]].
Qed.

(** Reading fails with a reset only when the socket has reported one. *)
Lemma read_frame_spares refs fuel :
  spares ConnectionReset (λ s, reads_spare ConnectionReset s.1) (λ _, True) (read_frame refs fuel).
Proof.
  assert (∀ I, spares ConnectionReset I (λ _, True) (on_channel handle_decoded)) as Hd.
  { intros I s _. exact (on_channel_spares _ (λ _, True) _ _ (decoded_spares _) s Logic.I). }
  assert (spares ConnectionReset (reads_spare ConnectionReset) (reads_spare ConnectionReset) channel_has_frame) as Hf.
  { intros c Hc. unfold channel_has_frame, on_input. destruct (has_frame (input_buffer c)) as [d [b|e|]]; by split. }
  induction fuel as [|fuel IH]; [by intros s _|]. cbn [read_frame].
  eapply spares_bind; [exact (on_channel_spares _ _ _ _ Hf)|done|]. intros [|]; [apply Hd|].
  eapply spares_try; [apply on_channel_spares; intros c; apply receive_spares|done|intros _; apply Hd|].
  intros e He. destruct e; try (by intros s _).
  eapply spares_bind; [exact (on_channel_spares _ _ _ _ Hf)|done|]. intros [|]; [apply Hd|].
  apply spares_get; [done|]. intros cp. eapply (spares_bind _ _ (λ s, reads_spare ConnectionReset s.1)); [|done|].
  { intros [c p] Hc. unfold with_pool. by destruct (get_buffer (refs cp.1) p). }
  intros [b|]; [|by intros s _].
  eapply (spares_bind _ _ (λ s, reads_spare ConnectionReset s.1)); [|done|intros old].
  { apply on_channel_spares. intros c Hc. unfold channel_swap_buffer.
    destruct (swap_buffer (refs cp.1) (input_buffer c) b) as [[d o]|[]|]; by split. }
  eapply (spares_bind _ _ (λ s, reads_spare ConnectionReset s.1)); [|done|intros _; exact IH].
  by intros [c p] Hc.
Qed.

(** ** The protocol on frames *)

(** Frames that a state reacts to. *)
Definition expects (s : ChannelState) (f : Frame) : bool :=
  match s, f with
  | Requested _ _, FHello _ | Initialising, FStart _ | Initialised _ _, FAck
  | ChConnected _ _, FBye | CloseRequested _ _, FBye => true
  | _, _ => false
  end.

(** [proto own s got out s']: in state [s] an endpoint with address [own] reads
    [got], sends [out] and is then in [s']. *)
Inductive proto (own : SocketAddr) : ChannelState → list Frame → list Frame → ChannelState → Prop :=
| proto_idle s : proto own s [] [] s
| proto_send a i p : frame_ok (FData p) → proto own (ChConnected a i) [] [FData p] (ChConnected a i)
| proto_written a i : proto own (CloseReceived a i) [] [] (ChClosed a i)
| proto_close a i : proto own (ChConnected a i) [] [FBye] (CloseRequested a i)
| proto_hello x i h : proto own (Requested x i) [FHello h] [FStart (mkStart own i)] (Initialised (hello_addr h) i)
| proto_start st : proto own Initialising [FStart st] [FAck] (ChConnected (start_addr st) (start_id st))
| proto_ack a i : proto own (Initialised a i) [FAck] [] (ChConnected a i)
| proto_bye a i s : s = CloseReceived a i ∨ s = ChClosed a i → proto own (ChConnected a i) [FBye] [FBye] s
| proto_bye_reply a i : proto own (CloseRequested a i) [FBye] [] (ChClosed a i)
| proto_other s f : expects s f = false → proto own s [f] [] s.

(** [c'] is [c] after the frames [out] were handed over; a channel that has closed may
    have taken bytes back. *)
Definition hands (out : list Frame) (c c' : TcpChannel) : Prop :=
  own_addr c' = own_addr c
  ∧ ∃ lost, outgoing c' ++ lost = outgoing c ++ wires out ∧ (lost = [] ∨ closed (state c') = true).

(** What an operation does to an endpoint into which the frames [fs] flow. *)
Definition local_ok (fs : list Frame) (rest : list byte) (c c' : TcpChannel) (out got : list Frame) : Prop :=
  chan_ok c' ∧ hands out c c' ∧ proto (own_addr c) (state c) got out (state c')
  ∧ (got = [] ∧ incoming c' = incoming c
     ∨ ∃ f g fs', got = [f] ∧ fs = g :: fs' ∧ same_frame g f ∧ incoming c' ++ rest = wires fs').

Lemma with_io_ok rs ws c : chan_ok c → chan_ok (with_io rs ws c).
Proof. done. Qed.

Lemma emits_hands out c c' : emits (wires out) c c' → hands out c c'.
Proof. intros (_ & Ho & Ha & _). split; [done|]. exists []. rewrite app_nil_r. auto. Qed.

(** Rejecting what is queued. *)
Lemma local_reject fs rest c c' out got : local_ok fs rest c c' out got → closed (state c') = true →
  local_ok fs rest c (reject_outbound c') out got.
Proof.
  intros ((H1 & H2 & H3 & H4) & (Ha & lost & Hl & _) & Hp & Hi) Hc. split; [split_and!; [done..|by apply Forall_nil|done]|].
  split; [|split; [done|exact Hi]]. split; [done|]. exists (queue_bytes (outbound_queue c') ++ lost). split; [|by right].
  rewrite <-Hl. unfold outgoing. cbn. unfold queue_bytes at 1. cbn. by rewrite app_nil_r, <-app_assoc.
Qed.

Lemma local_refl fs rest c : chan_ok c → local_ok fs rest c c [] [].
Proof.
  intros Hok. split; [done|]. split; [split; [done|exists []; rewrite !app_nil_r; auto]|]. split; [constructor|]. by left.
Qed.

Lemma sends_incoming bs c c' : sends bs c c' → incoming c' = incoming c.
Proof. intros (_ & _ & (Hi & _ & _ & Hd & _) & _). unfold incoming. by rewrite Hi, Hd. Qed.

(** An operation that only sends. *)
Lemma sends_local fs rest c c' out : chan_ok c → sends (wires out) c c' → proto (own_addr c) (state c) [] out (state c') →
  local_ok fs rest c c' out [].
Proof.
  intros Hok Hs Hp. split; [exact (sends_ok _ _ _ Hok Hs)|]. split; [exact (emits_hands _ _ _ (sends_emits _ _ _ Hs))|]. split; [done|].
  left. split; [done|exact (sends_incoming _ _ _ Hs)].
Qed.

Lemma send_local fs rest frame payload c : op_ok (OpSend frame payload) → chan_ok c →
  ∃ c' out got, local_run (OpSend frame payload) c = Ok (c', out, got) ∧ local_ok fs rest c c' out got.
Proof.
  intros (Hw & Hb & Hf) Hok. cbn. unfold connected. destruct (state c) as [| | |a i| | | |] eqn:Hs;
    do 3 eexists; (split; [reflexivity|]); (apply sends_local; [done| |]);
    try (apply (sends_refl c); apply Hok); try (rewrite Hs; constructor).
  - rewrite control_wires, <-Hb. destruct Hok as (_ & _ & Hq & _). split; [apply Forall_app; split; [done|by constructor]|].
    split; [|split; [done|exists []; by rewrite app_nil_r]].
    unfold outgoing. cbn. unfold queue_bytes. rewrite fmap_app, join_app. cbn. by rewrite app_nil_r, app_assoc.
  - cbn. rewrite Hs. by constructor.
Qed.

Lemma write_local fs rest ws c : op_ok (OpWrite ws) → chan_ok c →
  ∃ c' out got, local_run (OpWrite ws) c = Ok (c', out, got) ∧ local_ok fs rest c c' out got.
Proof.
  intros Hop Hok. cbn [local_run]. destruct (closed (state c)); [do 3 eexists; split; [reflexivity|by apply local_refl]|]. unfold local_write.
  destruct (drain_spares (S (length (writes (stream_ (with_io [] ws c))))) 0 0 (with_io [] ws c) Hop) as [_ Hnb].
  change (drain_loop _ 0 0 (with_io [] ws c)) with (try_drain (with_io [] ws c)) in Hnb.
  destruct (try_drain_spec (with_io [] ws c)) as (Hp & Hs & Hst & _); [apply Hok|].
  destruct (try_drain (with_io [] ws c)) as [c1 r]. cbn [fst snd] in *. cbn in Hst.
  assert (∀ c2, stream_ c2 = stream_ c1 → outbound_queue c2 = outbound_queue c1 → input_buffer c2 = input_buffer c1 →
    own_addr c2 = own_addr c1 → proto (own_addr c) (state c) [] [] (state c2) → local_ok fs rest c c2 [] []) as Hfin.
  { intros c2 H1 H2 H3 H4 Hpr. pose proof (sends_ok _ _ _ (with_io_ok [] ws c Hok) Hs) as Hok1.
    split; [unfold chan_ok, queue_ok in *; by rewrite H1, H2, H3|].
    split; [|split; [done|left; split; [done|]]].
    - pose proof (sends_emits _ _ _ Hs) as (E1 & E2 & E3 & E4). apply emits_hands. unfold emits, queue_ok, outgoing in *.
      by rewrite H1, H2, H4.
    - transitivity (incoming c1); [unfold incoming; by rewrite H1, H3|exact (sends_incoming _ _ _ Hs)]. }
  destruct r as [n|k|]; [|replace (match k with BrokenPipe => _ | _ => _ end) with (Ok (E:=LocalEnd) c1) by (by destruct k)|done];
    cbn [mbind res_bind]; do 3 eexists; (split; [reflexivity|]).
  - destruct (state c1) as [| | | | |a i| |] eqn:Hs1; try (apply local_reject; [|done]); apply Hfin; try done; cbn; rewrite ?Hs1, <-?Hst; constructor.
  - apply Hfin; try done. rewrite Hst. constructor.
Qed.

Lemma close_local fs rest ws c : chan_ok c →
  ∃ c' out got, local_run (OpClose ws) c = Ok (c', out, got) ∧ local_ok fs rest c c' out got.
Proof.
  intros Hok. cbn [local_run]. unfold run_chan, connected.
  destruct (graceful_shutdown_spec _ (with_io_ok [] ws c Hok)) as (c1 & -> & H1). cbn [mbind res_bind].
  change (state (with_io [] ws c)) with (state c) in H1.
  destruct (state c) as [| | |a i| | | |] eqn:Hs; do 3 eexists; (split; [reflexivity|]).
  4:{ destruct H1 as [H1 H2]. rewrite <-control_wires in H1. apply (sends_local fs rest (with_io [] ws c)); [done|done|].
      cbn. rewrite Hs, H2. constructor. }
  all: subst c1; apply (sends_local fs rest (with_io [] ws c)); [done|apply sends_refl; apply Hok|constructor].
Qed.

Lemma rounds_io rs ws c : rounds (with_io rs ws c) < S (S (length rs)).
Proof. unfold rounds. cbn. destruct (writeable (input_buffer c)); lia. Qed.

(** What reading does by itself agrees with the protocol, but for the two
    frames of the handshake handled afterwards. *)
Lemma read_reaction_proto own f s s' out : read_reaction f s s' out → (∀ h, f ≠ FHello h) → (∀ st, f ≠ FStart st) →
  proto own s [f] out s' ∧ out = reply own s f.
Proof.
  intros Hr Hh Hst. destruct f as [p|h|st| |]; [|by destruct (Hh h)|by destruct (Hst st)| |];
    destruct s; cbn in Hr; destruct Hr as [Hr ->]; try subst s'; try (split; [by constructor|done]).
Qed.

Lemma read_local fs rest refs p rs ws c : op_ok (OpRead refs p rs ws) → chan_ok c → Forall frame_ok fs →
  incoming c ++ rest = wires fs → (∀ fs', fs = FBye :: fs' → expects (state c) FBye = true) →
  ∃ c' out got, local_run (OpRead refs p rs ws) c = Ok (c', out, got) ∧ local_ok fs rest c c' out got.
Proof.
  intros [Hp Hnr] Hok Hfs Hin Hbye. cbn [local_run]. destruct (closed (state c)); [do 3 eexists; split; [reflexivity|by apply local_refl]|].
  destruct (read_frame_spec refs (S (S (length rs))) (with_io rs ws c) p fs rest (with_io_ok rs ws c Hok) Hp (rounds_io rs ws c) Hfs Hin)
    as (c1 & p1 & r & Hread & [Hok1 Hr] & _).
  pose proof (proj2 (read_frame_spares refs (S (S (length rs))) (with_io rs ws c, p) Hnr)) as Hnl. rewrite Hread in *.
  assert (received (with_io rs ws c) c1 → local_ok fs rest c c1 [] []) as Hnone.
  { intros Hrec. split; [done|]. split; [exact (emits_hands [] c _ (received_emits (with_io rs ws c) _ (proj1 (proj2 (proj2 Hok))) Hrec))|].
    destruct Hrec as (_ & _ & Hi & _ & _ & _ & _ & _ & _ & Hs & _). split; [rewrite Hs; constructor|]. by left. }
  destruct r as [[f|]|k|]; [|by do 3 eexists; split; [reflexivity|apply Hnone]| |done].
  2:{ cbn in Hnl. destruct k; try done; do 3 eexists; (split; [reflexivity|by apply Hnone]). }
  destruct Hr as (g & fs' & out & -> & Hsame & Hin' & Hem & Hre & _). change (state (with_io rs ws c)) with (state c) in Hre.
  assert ((∀ h, f ≠ FHello h) → (∀ st, f ≠ FStart st) → local_ok (g :: fs') rest c c1 (reply (own_addr c) (state c) f) [f]) as Hplain.
  { intros Hh Hst. destruct (read_reaction_proto (own_addr c) f _ _ _ Hre Hh Hst) as [Hpr ->].
    split; [done|]. split; [exact (emits_hands _ c _ Hem)|]. split; [done|]. right. by exists f, g, fs'. }
  destruct f as [q|h|st| |]; try (do 3 eexists; split; [reflexivity|]; by apply Hplain).
  3: { assert (g = FBye) as -> by (by destruct g). specialize (Hbye fs' eq_refl). unfold local_bye. cbn in Hre.
       assert (closed (state c1) = true ∨ ∃ a i, state c1 = CloseReceived a i) as Hs1.
       { destruct (state c); try done; destruct Hre as [Hs _]; [destruct Hs as [-> | ->]|rewrite Hs]; eauto. }
       specialize (Hplain ltac:(done) ltac:(done)).
       destruct Hs1 as [Hc1|(a & i & Hc1)].
       - destruct (state c1) eqn:Hst1; try done. do 3 eexists. split; [reflexivity|]. apply local_reject; [done|]. by rewrite Hst1.
       - rewrite Hc1. do 3 eexists. split; [reflexivity|done]. }
  - destruct Hre as [Hs1 ->]. destruct (handle_hello_spec h c1 Hok1) as (c2 & Hc2 & Hres). unfold run_chan. rewrite Hc2.
    cbn [mbind res_bind]. do 3 eexists. split; [reflexivity|].
    destruct (state c) as [x i| | | | | | |] eqn:Hs; rewrite Hs1 in Hres;
      try (subst c2; split; [done|]; split; [exact (emits_hands [] c _ Hem)|]; split; [rewrite Hs, Hs1; by constructor|]; right; by exists (FHello h), g, fs').
    destruct Hres as [Hse Hst2]. destruct Hem as (E1 & E2 & E3 & E4).
    split; [exact (sends_ok _ _ _ Hok1 Hse)|]. split; [|split].
    + apply emits_hands. cbn [reply]. rewrite control_wires. change (own_addr (with_io rs ws c)) with (own_addr c) in E3. rewrite <-E3.
      exact (emits_trans [] _ (with_io rs ws c) c1 c2 (conj E1 (conj E2 (conj E3 E4))) (sends_emits _ _ _ Hse)).
    + cbn. rewrite Hs, Hst2. constructor.
    + right. exists (FHello h), g, fs'. split_and!; try done. by rewrite (sends_incoming _ _ _ Hse).
  - destruct Hre as [Hs1 ->]. destruct (handle_start_spec st c1 Hok1) as (c2 & Hc2 & Hres). unfold run_chan. rewrite Hc2.
    cbn [mbind res_bind]. do 3 eexists. split; [reflexivity|].
    destruct (state c) as [x i| | | | | | |] eqn:Hs; rewrite Hs1 in Hres;
      try (subst c2; split; [done|]; split; [exact (emits_hands [] c _ Hem)|]; split; [rewrite Hs, Hs1; by constructor|]; right; by exists (FStart st), g, fs').
    destruct Hres as [Hse Hst2].
    split; [exact (sends_ok _ _ _ Hok1 Hse)|]. split; [|split].
    + apply emits_hands. cbn [reply]. rewrite control_wires. exact (emits_trans [] _ (with_io rs ws c) c1 c2 Hem (sends_emits _ _ _ Hse)).
    + cbn. rewrite Hs, Hst2. constructor.
    + right. exists (FStart st), g, fs'. split_and!; try done. by rewrite (sends_incoming _ _ _ Hse).
Qed.

Lemma local_run_spec op fs rest c : op_ok op → chan_ok c → Forall frame_ok fs → incoming c ++ rest = wires fs →
  (∀ fs', fs = FBye :: fs' → expects (state c) FBye = true) →
  ∃ c' out got, local_run op c = Ok (c', out, got) ∧ local_ok fs rest c c' out got.
Proof.
  destruct op; intros Hop Hok Hfs Hin Hbye; [by apply send_local|by apply write_local|by apply close_local|by apply read_local].
Qed.

(** ** Two endpoints *)
Record Session := mkSession {
  ea : TcpChannel; eb : TcpChannel;
  sent_a : list Frame; sent_b : list Frame;   (** frames handed over for sending *)
  got_a : list Frame; got_b : list Frame;     (** frames read *)
}.

Inductive SessionOp := OnA (op : LocalOp) | OnB (op : LocalOp) | AtoB (n : nat) | BtoA (n : nat).

(** The network moves bytes from one socket to the other. *)
Definition take_out (n : nat) (c : TcpChannel) : TcpChannel :=
  let s := stream_ c in
  set_stream (mkStream (inbox s) (reads s) (drop n (outbox s)) (writes s) (stream_error s) (nodelay_ok s) (stream_shut s)) c.
Definition put_in (bs : list byte) (c : TcpChannel) : TcpChannel :=
  let s := stream_ c in
  set_stream (mkStream (inbox s ++ bs) (reads s) (outbox s) (writes s) (stream_error s) (nodelay_ok s) (stream_shut s)) c.

Definition session_step (o : SessionOp) (s : Session) : res LocalEnd Session :=
  let '(mkSession a b sa sb ga gb) := s in
  match o with
  | OnA op => '(a, out, got) ← local_run op a; Ok (mkSession a b (sa ++ out) sb (ga ++ got) gb)
  | OnB op => '(b, out, got) ← local_run op b; Ok (mkSession a b sa (sb ++ out) ga (gb ++ got))
  | AtoB n => Ok (mkSession (take_out n a) (put_in (take n (outbox (stream_ a))) b) sa sb ga gb)
  | BtoA n => Ok (mkSession (put_in (take n (outbox (stream_ b))) a) (take_out n b) sa sb ga gb)
  end.

Fixpoint session_run (os : list SessionOp) (s : Session) : res LocalEnd Session :=
  match os with [] => Ok s | o :: os => s ← session_step o s; session_run os s end.

Definition session_op_ok (o : SessionOp) : Prop := match o with OnA op | OnB op => op_ok op | _ => True end.

(** The acceptor greets; the requester waits. *)
Definition session_start (a b : TcpChannel) : Session :=
  mkSession a (initialise (own_addr b) b).1 [] [FHello (mkHello (own_addr b))] [] [].

(** *** Flow of frames in one direction *)
Definition flows (from to : TcpChannel) (sent got : list Frame) (dn td : list Frame) : Prop :=
  sent = dn ++ td ∧ Forall2 same_frame dn got ∧ Forall frame_ok sent
  ∧ ∃ lost, incoming to ++ outgoing from ++ lost = wires td ∧ (lost = [] ∨ closed (state from) = true).

Lemma wires_app fs gs : wires (fs ++ gs) = wires fs ++ wires gs.
Proof. unfold wires. by rewrite fmap_app, join_app. Qed.

(** A channel that has closed sends nothing more. *)
Lemma closed_silent own s got out s' : proto own s got out s' → closed s = true → out = [] ∧ s' = s.
Proof. intros Hp Hc. destruct Hp; try done. Qed.

(** The sender hands [out] over. *)
Lemma flows_send own from from' to sent got got' dn td out : flows from to sent got dn td → hands out from from' →
  proto own (state from) got' out (state from') → Forall frame_ok out → flows from' to (sent ++ out) got dn (td ++ out).
Proof.
  intros (H1 & H2 & H3 & lost & H4 & Hl) (_ & lost' & He & Hl') Hp Hout.
  split; [by rewrite H1, app_assoc|]. split; [done|]. split; [by apply Forall_app|].
  destruct (decide (lost = [])) as [->|Hne].
  - exists lost'. split; [|done]. by rewrite He, app_assoc, wires_app, <-H4, app_nil_r.
  - destruct Hl as [?|Hl]; [done|]. destruct (closed_silent _ _ _ _ _ Hp Hl) as [-> Hs]. exists (lost' ++ lost).
    rewrite Hs. split; [|by right]. rewrite !app_nil_r in *. by rewrite (app_assoc (outgoing from')), He.
Qed.

(** The receiver reads. *)
Lemma flows_read from to to' sent got got' dn td out lost : flows from to sent got dn td →
  incoming to ++ outgoing from ++ lost = wires td → (lost = [] ∨ closed (state from) = true) →
  local_ok td (outgoing from ++ lost) to to' out got' →
  (got' = [] ∧ flows from to' sent got dn td)
  ∨ ∃ f g td', got' = [f] ∧ td = g :: td' ∧ same_frame g f ∧ flows from to' sent (got ++ [f]) (dn ++ [g]) td'.
Proof.
  intros (H1 & H2 & H3 & _) H4 Hl (_ & _ & _ & [[-> Hi]|(f & g & td' & -> & -> & Hs & Hi)]).
  - left. split; [done|]. split; [done|]. split; [done|]. split; [done|]. exists lost. by rewrite Hi.
  - right. exists f, g, td'. split; [done|]. split; [done|]. split; [done|].
    split; [by rewrite H1, <-app_assoc|]. split; [apply Forall2_app; [done|by constructor]|]. split; [done|]. by exists lost.
Qed.

Lemma flows_deliver n from to sent got dn td : flows from to sent got dn td →
  flows (take_out n from) (put_in (take n (outbox (stream_ from))) to) sent got dn td.
Proof.
  intros (H1 & H2 & H3 & lost & H4 & Hl). split; [done|]. split; [done|]. split; [done|]. exists lost. split; [|done].
  rewrite <-H4. unfold incoming, outgoing. cbn.
  rewrite <-!app_assoc. do 2 f_equal. by rewrite app_assoc, take_drop.
Qed.

(** Delivery leaves the other direction alone. *)
Lemma flows_other n bs from to sent got dn td : flows from to sent got dn td → flows (put_in bs from) (take_out n to) sent got dn td.
Proof. done. Qed.

(** *** The protocol as an invariant of both endpoints *)
Definition established (s : ChannelState) : option (SocketAddr * SessionId) :=
  match s with
  | ChConnected a i | CloseRequested a i | CloseReceived a i | ChClosed a i => Some (a, i)
  | _ => None
  end.
Definition said_bye (s : ChannelState) : bool :=
  match s with CloseRequested _ _ | CloseReceived _ _ | ChClosed _ _ => true | _ => false end.
Definition heard_bye (s : ChannelState) : bool :=
  match s with CloseReceived _ _ | ChClosed _ _ => true | _ => false end.
Definition bye (b : bool) : list Frame := if b then [FBye] else [].
Definition is_data (f : Frame) : Prop := match f with FData _ => True | _ => False end.

(** What an endpoint sends: its part of the handshake, data, at most one farewell. *)
Definition speaks (pre sent : list Frame) : Prop :=
  sent `prefix_of` pre ∨ ∃ ds b, Forall is_data ds ∧ sent = pre ++ ds ++ bye b.

(** An endpoint that has sent [sent] and read [dn]; before the connection is
    established its role decides. *)
Definition endpoint_inv (start : ChannelState → list Frame → list Frame → Prop) (peer : SocketAddr) (sid : SessionId)
    (pre_out pre_in : list Frame) (s : ChannelState) (sent dn : list Frame) : Prop :=
  match established s with
  | Some (a, i) => a = peer ∧ i = sid ∧ ∃ ds es, Forall is_data ds ∧ Forall is_data es
      ∧ sent = pre_out ++ ds ++ bye (said_bye s) ∧ dn = pre_in ++ es ++ bye (heard_bye s)
  | None => start s sent dn
  end.

(** The next frame behind data already read is data, or the final farewell. *)
Lemma next_frame ds es b g td : Forall is_data ds → Forall is_data es → ds ++ bye b = es ++ g :: td →
  is_data g ∨ g = FBye ∧ td = [] ∧ es = ds.
Proof.
  intros Hds Hes. revert es Hes. induction Hds as [|d ds Hd Hds IH]; intros es Hes H.
  - destruct Hes as [|e es He Hes]; [|destruct b; cbn in H; [injection H as -> H; by destruct es|done]].
    destruct b; cbn in H; [|done]. injection H as <- <-. by right.
  - destruct Hes as [|e es He Hes]; cbn in H; injection H as -> H; [by left|].
    destruct (IH es Hes H) as [?|(-> & -> & ->)]; [by left|by right].
Qed.

Lemma speaks_next pre sent es b g td : speaks pre sent → Forall is_data es → sent = (pre ++ es ++ bye b) ++ g :: td →
  b = false ∧ (is_data g ∨ g = FBye ∧ td = []).
Proof.
  intros Hsp Hes ->. destruct Hsp as [Hp|(ds & b' & Hds & H)].
  - apply prefix_length in Hp. rewrite !length_app in Hp. cbn in Hp. lia.
  - rewrite <-!app_assoc in H. apply app_inv_head in H. destruct b; cbn in H.
    + symmetry in H. destruct (next_frame _ _ _ _ _ Hds Hes H) as [[]|(_ & ? & _)]. done.
    + split; [done|]. symmetry in H. destruct (next_frame _ _ _ _ _ Hds Hes H) as [?|(-> & -> & _)]; [by left|by right].
Qed.

Lemma established_step start own s got out s' peer sid pre_out pre_in sent dn :
  endpoint_inv start peer sid pre_out pre_in s sent dn → is_Some (established s) → proto own s got out s' →
  ∀ sent_in, speaks pre_in sent_in →
  ∀ dn', (got = [] ∧ dn' = dn ∨ ∃ f g td, got = [f] ∧ same_frame g f ∧ dn' = dn ++ [g] ∧ sent_in = dn ++ g :: td) →
  endpoint_inv start peer sid pre_out pre_in s' (sent ++ out) dn' ∧ is_Some (established s').
Proof.
  unfold endpoint_inv. intros Hinv [[a i] He] Hp sent_in Hsp dn' Hgot. rewrite He in Hinv.
  destruct Hinv as (-> & -> & ds & es & Hds & Hes & -> & ->).
  inversion Hp; subst; try done; cbn in He; try discriminate He;
    (destruct Hgot as [[Hg ->]|(f' & g & td & Hg & Hsame & -> & Hin)]; try discriminate Hg).
  - rewrite He, app_nil_r. split; [|done]. split_and!; try done. by exists ds, es.
  - injection He as -> ->. split; [|done]. split_and!; try done. exists (ds ++ [FData p]), es.
    cbn. rewrite !app_nil_r, <-!app_assoc. split; [apply Forall_app; split; [done|by constructor]|done].
  - injection He as -> ->. split; [|done]. split_and!; try done. exists ds, es. cbn. by rewrite app_nil_r.
  - injection He as -> ->. split; [|done]. split_and!; try done. exists ds, es. cbn. by rewrite !app_nil_r, app_assoc.
  - injection Hg as <-. injection He as -> ->. destruct g; try done. split; [|by destruct H as [-> | ->]].
    assert (established s' = Some (peer, sid) ∧ said_bye s' = true ∧ heard_bye s' = true) as (-> & -> & ->)
      by (by destruct H as [-> | ->]).
    split_and!; try done. exists ds, es. cbn. by rewrite !app_nil_r, !app_assoc.
  - injection Hg as <-. injection He as -> ->. destruct g; try done. split; [|done]. split_and!; try done.
    exists ds, es. cbn. by rewrite !app_nil_r, <-app_assoc.
  - injection Hg as <-. destruct (speaks_next _ _ _ _ _ _ Hsp Hes Hin) as [Hb Hgd]. split; [|by eexists].
    rewrite He. split_and!; try done. exists ds, (es ++ [g]). rewrite Hb, app_nil_r. cbn. rewrite !app_nil_r, <-app_assoc.
    split; [done|]. split; [|done]. apply Forall_app. split; [done|]. constructor; [|done].
    destruct Hgd as [Hgd|[-> _]]; [done|]. destruct f; try done. destruct s'; done.
Qed.

(** The two roles before the connection is established. *)
Section Roles.
Context (own_a own_b : SocketAddr) (sid : SessionId).

Definition hello_b : Frame := FHello (mkHello own_b).
Definition start_a : Frame := FStart (mkStart own_a sid).

Definition requester (s : ChannelState) (sent dn : list Frame) : Prop :=
  match s with
  | Requested _ i => i = sid ∧ sent = [] ∧ dn = []
  | Initialised a i => a = own_b ∧ i = sid ∧ sent = [start_a] ∧ dn = [hello_b]
  | _ => False
  end.

Definition acceptor (s : ChannelState) (sent dn : list Frame) : Prop := s = Initialising ∧ sent = [hello_b] ∧ dn = [].

Definition inv_a := endpoint_inv requester own_b sid [start_a] [hello_b; FAck].
Definition inv_b := endpoint_inv acceptor own_a sid [hello_b; FAck] [start_a].

Lemma inv_a_speaks s sent dn : inv_a s sent dn → speaks [start_a] sent.
Proof.
  unfold inv_a, endpoint_inv. destruct (established s) as [[a i]|] eqn:He.
  - intros (_ & _ & ds & es & Hds & _ & -> & _). right. by exists ds, (said_bye s).
  - intros Hr. left. destruct s; try done; cbn in Hr; destruct_and!; subst; [apply prefix_nil|done].
Qed.

Lemma inv_b_speaks s sent dn : inv_b s sent dn → speaks [hello_b; FAck] sent.
Proof.
  unfold inv_b, endpoint_inv. destruct (established s) as [[a i]|] eqn:He.
  - intros (_ & _ & ds & es & Hds & _ & -> & _). right. by exists ds, (said_bye s).
  - intros (_ & -> & _). left. by exists [FAck].
Qed.

(** One endpoint moves: nothing read, or the next frame of the peer. *)
Definition reads_next (got dn dn' sent_in : list Frame) : Prop :=
  got = [] ∧ dn' = dn ∨ ∃ f g td, got = [f] ∧ same_frame g f ∧ dn' = dn ++ [g] ∧ sent_in = dn ++ g :: td.

Lemma inv_b_first s sent dn : inv_b s sent dn →
  ∃ rest, sent = hello_b :: rest ∧ match rest with [] => True | f :: _ => f = FAck end.
Proof.
  unfold inv_b, endpoint_inv. destruct (established s) as [[a i]|] eqn:He.
  - intros (_ & _ & ds & es & Hds & _ & -> & _). by eexists.
  - intros (_ & -> & _). by exists [].
Qed.

Lemma inv_a_first s sent dn : inv_a s sent dn → match sent with [] => True | f :: _ => f = start_a end.
Proof.
  unfold inv_a, endpoint_inv. destruct (established s) as [[a i]|] eqn:He.
  - by intros (_ & _ & ds & es & Hds & _ & -> & _).
  - destruct s; try done; cbn; intros; destruct_and!; by subst.
Qed.

Lemma inv_a_step s got out s' sent dn dn' sb sent_in dnb : inv_a s sent dn → proto own_a s got out s' →
  inv_b sb sent_in dnb → reads_next got dn dn' sent_in → inv_a s' (sent ++ out) dn'.
Proof.
  intros Hinv Hp Hb Hr. destruct (established s) as [[a i]|] eqn:He.
  { eapply established_step; [exact Hinv|by eexists|exact Hp|exact (inv_b_speaks _ _ _ Hb)|exact Hr]. }
  unfold inv_a, endpoint_inv in Hinv. rewrite He in Hinv. destruct (inv_b_first _ _ _ Hb) as (rest & -> & Hrest).
  destruct s as [x i| |x i| | | | |]; try done; cbn in Hinv.
  - destruct Hinv as (-> & -> & ->). destruct Hr as [[-> ->]|(f & g & td & -> & Hs & -> & Hin)].
    + inversion Hp; subst. done.
    + injection Hin as <- <-. destruct f; try done. cbn in Hs. subst. inversion Hp; subst; [|done]. done.
  - destruct Hinv as (-> & -> & -> & ->). destruct Hr as [[-> ->]|(f & g & td & -> & Hs & -> & Hin)].
    + inversion Hp; subst. done.
    + injection Hin as Hin. subst rest. subst g. destruct f; try done. inversion Hp; subst; [|done].
      split_and!; try done. by exists [], [].
Qed.

Lemma inv_b_step s got out s' sent dn dn' sa sent_in dna : inv_b s sent dn → proto own_b s got out s' →
  inv_a sa sent_in dna → reads_next got dn dn' sent_in → inv_b s' (sent ++ out) dn'.
Proof.
  intros Hinv Hp Ha Hr. destruct (established s) as [[a i]|] eqn:He.
  { eapply established_step; [exact Hinv|by eexists|exact Hp|exact (inv_a_speaks _ _ _ Ha)|exact Hr]. }
  unfold inv_b, endpoint_inv in Hinv. rewrite He in Hinv. destruct Hinv as (-> & -> & ->).
  pose proof (inv_a_first _ _ _ Ha) as Hf. destruct Hr as [[-> ->]|(f & g & td & -> & Hs & -> & ->)].
  - inversion Hp; subst. done.
  - cbn in Hf. subst g. destruct f; try done. cbn in Hs. subst. inversion Hp; subst; [|done].
    split_and!; try done. by exists [], [].
Qed.

(** The farewell comes when it is expected. *)
Lemma bye_expected start peer pre_out pre_in s sent dn td : endpoint_inv start peer sid pre_out pre_in s sent dn → is_Some (established s) →
  speaks pre_in (dn ++ FBye :: td) → expects s FBye = true.
Proof.
  unfold endpoint_inv. intros Hinv [[a i] He] Hsp. rewrite He in Hinv. destruct Hinv as (_ & _ & ds & es & _ & Hes & _ & ->).
  destruct (speaks_next _ _ _ _ _ _ Hsp Hes eq_refl) as [Hb _]. by destruct s.
Qed.

Lemma bye_expected_a s sent dn td sb dnb : inv_a s sent dn → inv_b sb (dn ++ FBye :: td) dnb → expects s FBye = true.
Proof.
  intros Ha Hb. destruct (established s) as [x|] eqn:He.
  { eapply bye_expected; [exact Ha|by eexists|exact (inv_b_speaks _ _ _ Hb)]. }
  unfold inv_a, endpoint_inv in Ha. rewrite He in Ha. destruct (inv_b_first _ _ _ Hb) as (rest & Hr & Hrest).
  destruct s; try done; cbn in Ha; destruct_and!; subst; cbn in Hr; [done|]. injection Hr as Hr. by subst rest.
Qed.

Lemma bye_expected_b s sent dn td sa dna : inv_b s sent dn → inv_a sa (dn ++ FBye :: td) dna → expects s FBye = true.
Proof.
  intros Hb Ha. destruct (established s) as [x|] eqn:He.
  { eapply bye_expected; [exact Hb|by eexists|exact (inv_a_speaks _ _ _ Ha)]. }
  unfold inv_b, endpoint_inv in Hb. rewrite He in Hb. destruct Hb as (_ & _ & ->). by pose proof (inv_a_first _ _ _ Ha).
Qed.

Definition session_inv (s : Session) : Prop :=
  let '(mkSession a b sa sb ga gb) := s in
  chan_ok a ∧ chan_ok b ∧ own_addr a = own_a ∧ own_addr b = own_b
  ∧ ∃ dna tda dnb tdb, flows a b sa gb dnb tdb ∧ flows b a sb ga dna tda ∧ inv_a (state a) sa dna ∧ inv_b (state b) sb dnb.

Context (wf_a : wf_socket own_a) (wf_b : wf_socket own_b).

Lemma proto_out_ok own s got out s' : wf_socket own → proto own s got out s' → Forall frame_ok out.
Proof using Type. intros Hw Hp. destruct Hp; try (by apply Forall_nil); by apply Forall_singleton. Qed.

(** A move of one endpoint [c] with peer [c2], seen from both directions. *)
Lemma endpoint_move own c c2 c' out got sent sent_in got0 got_in dn td dn2 td2 lost : wf_socket own → own_addr c = own →
  flows c c2 sent got0 dn2 td2 → flows c2 c sent_in got_in dn td →
  incoming c ++ outgoing c2 ++ lost = wires td → (lost = [] ∨ closed (state c2) = true) →
  local_ok td (outgoing c2 ++ lost) c c' out got →
  own_addr c' = own ∧ proto own (state c) got out (state c') ∧ chan_ok c'
  ∧ ∃ dn' td', flows c' c2 (sent ++ out) got0 dn2 (td2 ++ out) ∧ flows c2 c' sent_in (got_in ++ got) dn' td'
    ∧ reads_next got dn dn' sent_in.
Proof using Type.
  intros Hw Hown Hf1 Hf2 Hin Hlost Hloc. pose proof Hloc as (Hok & Hem & Hp & _). rewrite Hown in Hp.
  split; [destruct Hem as (-> & _); done|]. split; [done|]. split; [done|].
  pose proof (flows_send _ _ _ _ _ _ _ _ _ _ Hf1 Hem Hp (proto_out_ok _ _ _ _ _ Hw Hp)) as Hf1'.
  destruct (flows_read _ _ _ _ _ _ _ _ _ _ Hf2 Hin Hlost Hloc) as [[-> Hf2']|(f & g & td' & -> & -> & Hs & Hf2')].
  - exists dn, td. split; [done|]. split; [by rewrite app_nil_r|by left].
  - exists (dn ++ [g]), td'. split; [done|]. split; [done|]. right. exists f, g, td'. split_and!; try done. apply Hf2.
Qed.

Lemma session_step_inv o s : session_op_ok o → session_inv s → ∃ s', session_step o s = Ok s' ∧ session_inv s'.
Proof using wf_a wf_b.
  destruct s as [a b sa sb ga gb]. intros Ho (Hoka & Hokb & Ha & Hb & dna & tda & dnb & tdb & Hab & Hba & Hia & Hib).
  destruct o as [op|op|n|n]; cbn [session_step].
  - pose proof Hba as (Hsb & _ & Hfr & lost & Hin & Hlost). rewrite Hsb in Hfr. apply Forall_app in Hfr as [_ Hfr].
    destruct (local_run_spec op tda (outgoing b ++ lost) a Ho Hoka Hfr Hin) as (a' & out & got & -> & Hloc).
    { intros fs' ->. rewrite Hsb in Hib. by eapply bye_expected_a. }
    cbn [mbind res_bind]. destruct (endpoint_move own_a a b a' out got _ _ _ _ _ _ _ _ _ wf_a Ha Hab Hba Hin Hlost Hloc)
      as (Ha' & Hp & Hok' & dn' & td' & Hf1 & Hf2 & Hr).
    eexists. split; [reflexivity|]. do 4 (split; [done|]). exists dn', td', dnb, (tdb ++ out).
    split; [done|]. split; [done|]. split; [|done]. exact (inv_a_step _ _ _ _ _ _ _ _ _ _ Hia Hp Hib Hr).
  - pose proof Hab as (Hsa & _ & Hfr & lost & Hin & Hlost). rewrite Hsa in Hfr. apply Forall_app in Hfr as [_ Hfr].
    destruct (local_run_spec op tdb (outgoing a ++ lost) b Ho Hokb Hfr Hin) as (b' & out & got & -> & Hloc).
    { intros fs' ->. rewrite Hsa in Hia. by eapply bye_expected_b. }
    cbn [mbind res_bind]. destruct (endpoint_move own_b b a b' out got _ _ _ _ _ _ _ _ _ wf_b Hb Hba Hab Hin Hlost Hloc)
      as (Hb' & Hp & Hok' & dn' & td' & Hf1 & Hf2 & Hr).
    eexists. split; [reflexivity|]. do 4 (split; [done|]). exists dna, (tda ++ out), dn', td'.
    split; [done|]. split; [done|]. split; [done|]. exact (inv_b_step _ _ _ _ _ _ _ _ _ _ Hib Hp Hia Hr).
  - eexists. split; [reflexivity|]. do 4 (split; [done|]). exists dna, tda, dnb, tdb.
    split; [by apply flows_deliver|]. split; [by apply flows_other|]. done.
  - eexists. split; [reflexivity|]. do 4 (split; [done|]). exists dna, tda, dnb, tdb.
    split; [by apply flows_other|]. split; [by apply flows_deliver|]. done.
Qed.

Lemma session_run_inv os : ∀ s, Forall session_op_ok os → session_inv s → ∃ s', session_run os s = Ok s' ∧ session_inv s'.
Proof using wf_a wf_b.
  induction os as [|o os IH]; intros s Hos Hs; [by exists s|]. apply Forall_cons in Hos as [Ho Hos].
  destruct (session_step_inv o s Ho Hs) as (s1 & H1 & Hs1). destruct (IH s1 Hos Hs1) as (s2 & H2 & Hs2).
  exists s2. split; [cbn; by rewrite H1|done].
Qed.
End Roles.

(** ** Properties *)

(** The contents of the data frames of a sequence. *)
Definition payloads (fs : list Frame) : list (list byte) :=
  omap (λ f, match f with FData p => Some (readable p) | _ => None end) fs.

Lemma payloads_same dn got : Forall2 same_frame dn got → payloads dn = payloads got.
Proof.
  induction 1 as [|f g dn got Hs _ IH]; [done|]. unfold payloads in *. cbn. destruct f, g; try done; cbn in *; by rewrite ?Hs, IH.
Qed.

Lemma payloads_app fs gs : payloads (fs ++ gs) = payloads fs ++ payloads gs.
Proof. apply omap_app. Qed.

(** A channel that has just been created. *)
Definition fresh (c : TcpChannel) : Prop := chan_ok c ∧ incoming c = [] ∧ outgoing c = [] ∧ wf_socket (own_addr c).

Lemma session_start_inv a b x sid : fresh a → fresh b → state a = Requested x sid → state b = Initialising →
  session_inv (own_addr a) (own_addr b) sid (session_start a b).
Proof.
  intros (Hoka & Hia & Hoa & _) (Hokb & Hib & Hob & Hwb) Hsa Hsb. unfold session_start.
  destruct (initialise_spec (own_addr b) b Hokb Hsb) as (b' & -> & Hs & Hsb'). cbn [fst].
  pose proof (sends_emits _ _ _ Hs) as (_ & He & Hown & _).
  split; [done|]. split; [exact (sends_ok _ _ _ Hokb Hs)|]. split; [done|]. split; [done|].
  exists [], [FHello (mkHello (own_addr b))], [], []. split; [|split; [|split]].
  - split; [done|]. split; [done|]. split; [done|]. exists []. by rewrite (sends_incoming _ _ _ Hs), Hib, Hoa; auto.
  - split; [done|]. split; [done|]. split; [by apply Forall_singleton|]. exists []. by rewrite Hia, He, Hob, control_wires, app_nil_r; auto.
  - unfold inv_a, endpoint_inv. by rewrite Hsa.
  - unfold inv_b, endpoint_inv. by rewrite Hsb'.
Qed.

Lemma session_reachable a b x sid os : fresh a → fresh b → state a = Requested x sid → state b = Initialising →
  Forall session_op_ok os →
  ∃ s, session_run os (session_start a b) = Ok s ∧ session_inv (own_addr a) (own_addr b) sid s.
Proof.
  intros Ha Hb Hsa Hsb Hos. apply session_run_inv; [apply Ha|apply Hb|done|by eapply session_start_inv].
Qed.

(** An endpoint that has read the farewell has read everything. *)
Lemma heard_everything start peer sid pre_out pre_in s sent dn td : endpoint_inv start peer sid pre_out pre_in s sent dn →
  heard_bye s = true → speaks pre_in (dn ++ td) → td = [].
Proof.
  unfold endpoint_inv. intros Hinv Hb Hsp. destruct td as [|g td]; [done|].
  destruct (established s) as [[a i]|] eqn:He; [|by destruct s].
  destruct Hinv as (_ & _ & ds & es & _ & Hes & _ & ->).
  destruct (speaks_next _ _ _ _ _ _ Hsp Hes eq_refl) as [H _]. congruence.
Qed.


(** C2: Sessions deliver in order and a farewell comes last.  Under the same conditions,
    and with data frames that are not empty, at every point of every interleaving the data
    frames an endpoint has read are, in order, the first of those the other has handed
    over for sending; and once an endpoint has read the farewell it has read all of them,
    whichever side started to close.  What an endpoint still has queued when it closes is
    rejected to its dispatcher, the farewell with it, so that the other endpoint then
    never reads one. *)
Theorem session_delivers (a b : TcpChannel) (x : SocketAddr) (sid : SessionId) (os : list SessionOp) :
  fresh a → fresh b → state a = Requested x sid → state b = Initialising → Forall session_op_ok os →
  ∃ s, session_run os (session_start a b) = Ok s
  ∧ payloads (got_b s) `prefix_of` payloads (sent_a s) ∧ payloads (got_a s) `prefix_of` payloads (sent_b s)
  ∧ (heard_bye (state (eb s)) = true → payloads (got_b s) = payloads (sent_a s))
  ∧ (heard_bye (state (ea s)) = true → payloads (got_a s) = payloads (sent_b s)).
Proof.
  intros Ha Hb Hsa Hsb Hos. destruct (session_reachable a b x sid os Ha Hb Hsa Hsb Hos) as (s & Hr & Hinv).
  exists s. split; [done|]. destruct s as [ca cb sa sb ga gb].
  destruct Hinv as (_ & _ & _ & _ & dna & tda & dnb & tdb & (-> & Hgb & _) & (-> & Hga & _) & Hia & Hib).
  cbn [ea eb sent_a sent_b got_a got_b]. rewrite <-(payloads_same _ _ Hgb), <-(payloads_same _ _ Hga), !payloads_app.
  pose proof (inv_a_speaks _ _ _ _ _ _ Hia) as Hspa. pose proof (inv_b_speaks _ _ _ _ _ _ Hib) as Hspb.
  split_and!; [by eexists|by eexists|intros Hbye..].
  - rewrite (heard_everything _ _ _ _ _ _ _ _ tdb Hib Hbye Hspa). by rewrite app_nil_r.
  - rewrite (heard_everything _ _ _ _ _ _ _ _ tda Hia Hbye Hspb). by rewrite app_nil_r.
Qed.
End Session.

(** ** Witnesses *)
Section Examples.
Context {B : BytesApi} {U : UuidApi}.

Definition example_addr (i : Z) : SocketAddr := MkSocketAddr (V4 i) 8080.

Definition example_endpoint (own : Z) (s : ChannelState) : TcpChannel :=
  new_channel (mkStream [] [] [] [IoBytes 100] None true false) 3 (example_addr 0) (new_chunk 0 64) s (example_addr own)
    (mkConfig 64 1 4 16) true.

Definition example_payload : ChunkLease := new_lease [1; 2; 3]%Z 9.

Definition example_read : LocalOp :=
  OpRead (λ _ _, 0) (mkPool [new_chunk 1 64] 1 64 64 4 2) [IoBytes 100] [IoBytes 100].

(** A handshake, one message, and a close started by the requester. *)
Definition example_ops : list SessionOp :=
  [BtoA 100; OnA example_read; AtoB 100; OnB example_read; BtoA 100; OnA example_read;
   OnA (OpSend (FrameBytes (wire (FData example_payload))) example_payload); OnA (OpWrite [IoBytes 100]);
   AtoB 100; OnB example_read; OnA (OpClose [IoBytes 100]); AtoB 100; OnB example_read; BtoA 100; OnA example_read].

Lemma example_endpoint_fresh own s : (0 ≤ own < 256)%Z → fresh (example_endpoint own s).
Proof.
  intros Ho. split; [|split; [done|split; [done|split; [split; cbn; lia|split; cbn; lia]]]].
  split; [|split; [|split; [by constructor|done]]].
  - unfold wf_decode. cbn. split_and!; done || lia.
  - unfold roomy, chunk_len. cbn. lia.
Qed.

Lemma example_ops_ok : Forall session_op_ok example_ops.
Proof.
  assert (op_ok example_read) as Hr.
  { split; [split; [cbn; lia|]|by repeat constructor]. constructor; [vm_compute; lia|done]. }
  assert (frame_ok (FData example_payload)) as Hf.
  { split; [apply new_lease_wf|]. vm_compute. split; [lia|done]. }
  unfold example_ops. repeat (apply Forall_cons; split; [|]); try done; by repeat constructor.
Qed.
End Examples.

Abbreviation example_session :=
  (session_start (B := be_bytes_api) (U := uuid128_api)
     (example_endpoint 1 (Requested (U := uuid128_api) (example_addr 2) (mk_uuid128 7))) (example_endpoint 2 Initialising)).


Lemma session_delivers_witness :
  ∃ s, session_run example_ops example_session = Ok s ∧ payloads (got_b s) = payloads (sent_a s)
  ∧ payloads (got_b s) = [[1; 2; 3]%Z].
Proof.
  destruct (session_delivers (B := be_bytes_api) (U := uuid128_api) _ _ _ _ example_ops
    (example_endpoint_fresh (B := be_bytes_api) 1 (Requested (U := uuid128_api) (example_addr 2) (mk_uuid128 7)) ltac:(lia)) (example_endpoint_fresh (B := be_bytes_api) 2 Initialising ltac:(lia))
    eq_refl eq_refl example_ops_ok) as (s & Hr & _ & _ & Hb & _).
  exists s. split; [exact Hr|]. split.
  - apply Hb. transitivity (match session_run example_ops example_session with Ok s => heard_bye (state (eb s)) | _ => false end);
      [by rewrite Hr|vm_compute; reflexivity].
  - transitivity (match session_run example_ops example_session with Ok s => payloads (got_b s) | _ => [] end);
      [by rewrite Hr|vm_compute; reflexivity].
Defined.
