(* ===== verification/Udp.v ===== *)
(** * UDP

    Model of [UdpState] ([network/src/transport/udp_state.rs]): the queue of
    outgoing datagrams and the decoding of incoming ones, which share one decode
    buffer.  As for TCP, the outcomes of the socket calls are chosen by the
    environment; a datagram that is longer than the slice it is received into is
    cut off, as the operating systems do. *)

From S2P Require Import Prelude Extern ChunkLease Frames Buffers DecodeBuffer Serialisation Messages Channel.

Definition MAX_PACKET_SIZE : nat := Z.to_nat 65535.

Inductive Datagram := Received (bs : list byte) (from : SocketAddr) | RecvError (k : ErrorKind).

Record UdpSocket := mkUdpSocket {
  recvs : list Datagram;                       (** outcomes of the next [recv_from]s *)
  send_outcomes : list IoOutcome;
  datagrams : list (SocketAddr * list byte);   (** sent, oldest first *)
}.

Section Udp.
Context {B : BytesApi} {U : UuidApi}.

Record UdpState := mkUdp {
  udp_socket : UdpSocket;
  udp_outbound_queue : list (SocketAddr * SerialisedFrame);
  udp_input_buffer : DecodeBuffer;
  incoming_messages : list NetMessage;
  max_packet_size : nat;
}.

Definition new_udp (socket : UdpSocket) (buffer_chunk : BufferChunk) (config : BufferConfig) : UdpState :=
  mkUdp socket [] (new_decode buffer_chunk config) [] (Nat.min (cfg_chunk_size config) MAX_PACKET_SIZE).

Definition set_socket s (u : UdpState) := mkUdp s (udp_outbound_queue u) (udp_input_buffer u) (incoming_messages u) (max_packet_size u).
Definition upd_udp_queue f (u : UdpState) := mkUdp (udp_socket u) (f (udp_outbound_queue u)) (udp_input_buffer u) (incoming_messages u) (max_packet_size u).
Definition set_udp_input d (u : UdpState) := mkUdp (udp_socket u) (udp_outbound_queue u) d (incoming_messages u) (max_packet_size u).
Definition push_incoming m (u : UdpState) := mkUdp (udp_socket u) (udp_outbound_queue u) (udp_input_buffer u) (incoming_messages u ++ [m]) (max_packet_size u).

Definition pending_messages (u : UdpState) : nat := length (udp_outbound_queue u).
Definition udp_enqueue_serialised (addr : SocketAddr) (frame : SerialisedFrame) (u : UdpState) : UdpState :=
  upd_udp_queue (λ q, q ++ [(addr, frame)]) u.

(** ** Sending *)

(** [Buf::copy_to_bytes] of a [ChunkRef]: the loop over [chunk] and [advance]. *)
Fixpoint ref_read_loop (fuel : nat) (c : ChunkRef) (n : nat) : res Empty_set (list byte) :=
  match n, fuel with
  | O, _ => Ok []
  | _, O => Panic
  | _, S fuel =>
      src ← ref_chunk c;
      let cnt := Nat.min (length src) n in
      rest ← ref_read_loop fuel (ref_advance c cnt) (n - cnt);
      Ok (take cnt src ++ rest)
  end.

Definition make_contiguous (f : SerialisedFrame) : res Empty_set SerialisedFrame :=
  let len := frame_len f in
  bytes ← frame_chunk f;
  if decide (length bytes < len) then
    match f with
    | FrameLease c => '(bs, _) ← read_bytes c len; Ok (FrameBytes bs)
    | FrameRef c => bs ← ref_read_loop len c len; Ok (FrameBytes bs)
    | FrameBytes _ => Panic
    end
  else Ok f.

Definition send_to (bs : list byte) (addr : SocketAddr) (s : UdpSocket) : UdpSocket * res ErrorKind nat :=
  match send_outcomes s with
  | [] => (s, Err WouldBlock)
  | IoError k :: os => (mkUdpSocket (recvs s) os (datagrams s), Err k)
  | IoBytes n :: os =>
      let n := Nat.min n (length bs) in
      (mkUdpSocket (recvs s) os (datagrams s ++ [(addr, take n bs)]), Ok n)
  end.

Definition on_socket {A} (f : UdpSocket → UdpSocket * res ErrorKind A) : St UdpState ErrorKind A := λ u,
  let '(s, r) := f (udp_socket u) in (set_socket s u, r).

Fixpoint write_loop (fuel sent_bytes interrupts : nat) : St UdpState ErrorKind nat :=
  match fuel with
  | O => st_panic
  | S fuel =>
      u ← st_get;
      match udp_outbound_queue u with
      | [] => mret sent_bytes
      | (addr, frame) :: q =>
          _ ← st_modify (upd_udp_queue (λ _, q));
          frame ← st_lift (lift_panic_ (make_contiguous frame));
          bytes ← st_lift (lift_panic_ (frame_chunk frame));
          r ← st_try (on_socket (send_to bytes addr));
          match r with
          | inl n =>
              _ ← st_lift (assert_ (bool_decide (n = frame_len frame)));
              write_loop fuel (sent_bytes + n) interrupts
          | inr WouldBlock =>
              _ ← st_modify (upd_udp_queue (cons (addr, frame)));
              mret sent_bytes
          | inr Interrupted =>
              _ ← st_modify (upd_udp_queue (cons (addr, frame)));
              if decide (MAX_INTERRUPTS ≤ S interrupts) then st_lift (Err Interrupted)
              else write_loop fuel sent_bytes (S interrupts)
          | inr err =>
              _ ← st_modify (upd_udp_queue (cons (addr, frame)));
              st_lift (Err err)
          end
      end
  end.

Definition try_write : St UdpState ErrorKind nat := λ u, write_loop (S (length (send_outcomes (udp_socket u)))) 0 0 u.

(** ** Receiving *)
Definition recv_from (len : nat) (s : UdpSocket) : UdpSocket * res ErrorKind (list byte) :=
  match recvs s with
  | [] => (s, Err WouldBlock)
  | RecvError k :: rs => (mkUdpSocket rs (send_outcomes s) (datagrams s), Err k)
  | Received bs _ :: rs => (mkUdpSocket rs (send_outcomes s) (datagrams s), Ok (take len bs))
  end.

(** Errors and unexpected frames are logged. *)
Definition decode_message : St UdpState ErrorKind () := λ u,
  let '(d, r) := get_frame (udp_input_buffer u) in
  let u := set_udp_input d u in
  match r with
  | Ok (FData payload) =>
      match deserialise_chunk_lease payload with
      | Ok envelope => (push_incoming envelope u, Ok ())
      | Err _ => (u, Ok ())
      | Panic => (u, Panic)
      end
  | Ok _ | Err _ => (u, Ok ())
  | Panic => (u, Panic)
  end.

Context (refs : UdpState → Refs).

Definition udp_swap_buffer : St (UdpState * BufferPool) ErrorKind () := λ '(u, p),
  match get_buffer (refs u) p with
  | (p, Some buffer) =>
      match swap_buffer (refs u) (udp_input_buffer u) buffer with
      | Ok (d, old) => ((set_udp_input d u, return_buffer p old), Ok ())
      | Err e => match e with end
      | Panic => ((u, p), Panic)
      end
  | (p, None) => ((u, p), Ok ())
  end.

Definition on_udp {A} (m : St UdpState ErrorKind A) : St (UdpState * BufferPool) ErrorKind A := λ '(u, p),
  let '(u, r) := m u in ((u, p), r).

Definition udp_writeable_len : St (UdpState * BufferPool) ErrorKind nat :=
  u ← st_get; st_lift (writeable_len (udp_input_buffer u.1)).

(** The rest of a round once there is room for a packet. *)
Definition receive_packet : St (UdpState * BufferPool) ErrorKind (list byte + ErrorKind) :=
  u ← st_get;
  w ← st_lift (is_writeable (udp_input_buffer u.1));
  if w : bool then
    len ← st_lift (writeable_len (udp_input_buffer u.1));
    st_try (on_udp (on_socket (recv_from len)))
  else st_lift (Err InvalidInput).

Fixpoint read_loop_udp (fuel interrupts : nat) : St (UdpState * BufferPool) ErrorKind () :=
  match fuel with
  | O => st_panic
  | S fuel =>
      room ← udp_writeable_len;
      u ← st_get;
      _ ← st_when (bool_decide (room < max_packet_size u.1)) udp_swap_buffer;
      room ← udp_writeable_len;
      if decide (room < max_packet_size u.1) then st_lift (Err InvalidInput)
      else
        r ← receive_packet;
        match r with
        | inl [] => mret ()
        | inl bs =>
            u ← st_get;
            o ← st_lift (lift_panic_ (fill (udp_input_buffer u.1) bs));
            match o with
            | Some d =>
                _ ← on_udp (st_modify (set_udp_input d));
                _ ← on_udp decode_message;
                read_loop_udp fuel interrupts
            | None => st_panic
            end
        | inr WouldBlock => mret ()
        | inr Interrupted =>
            if decide (MAX_INTERRUPTS ≤ S interrupts) then st_lift (Err Interrupted)
            else read_loop_udp fuel (S interrupts)
        | inr err => st_lift (Err err)
        end
  end.

Definition try_read : St (UdpState * BufferPool) ErrorKind () := λ '(u, p),
  read_loop_udp (S (length (recvs (udp_socket u)))) 0 (u, p).

(** ** Sending whole frames *)
Lemma ref_read_loop_spec fuel c n : wf_ref c → n ≤ ref_remaining c → n ≤ fuel →
  ref_read_loop fuel c n = Ok (take n (drop (ref_read_pointer c) (ref_bytes c))).
Proof.
  revert c n. induction fuel as [|fuel IH]; intros c n Hw Hn Hf; [by destruct n; [|lia]|].
  destruct n as [|n]; [done|]. cbn [ref_read_loop]. unfold ref_chunk. unfold ref_remaining in Hn.
  destruct (ref_get_chunk_at_spec c (ref_read_pointer c) Hw) as (x & rest & Hx & Hd); [lia|]. rewrite Hx. cbn [mbind res_bind].
  assert (0 < length x) as Hpos.
  { destruct x; [|cbn; lia]. exfalso. clear -Hx Hw. revert Hx. generalize (ref_read_pointer c). revert Hw.
    induction c as [x r h k m|x r h k t m IH] using ref_ind; intros Hw pos; cbn in Hw; cbn [ref_get_chunk_at].
    - destruct Hw as [-> _]. case_decide; [done|]. intros [= Hx%(f_equal length)]. rewrite length_drop in Hx. cbn in Hx. lia.
    - destruct Hw as (-> & Ht & _). case_decide; [by apply IH|]. intros [= Hx%(f_equal length)].
      rewrite length_drop in Hx. cbn in Hx. lia. }
  assert (wf_ref (ref_advance c (length x `min` S n)) ∧ ref_bytes (ref_advance c (length x `min` S n)) = ref_bytes c
    ∧ ref_read_pointer (ref_advance c (length x `min` S n)) = ref_read_pointer c + length x `min` S n
    ∧ ref_chain_len (ref_advance c (length x `min` S n)) = ref_chain_len c) as (Hw' & Hb' & Hr' & Hl') by (by destruct c).
  rewrite IH; [|done|unfold ref_remaining; lia|lia]. cbn [mbind res_bind]. rewrite Hb', Hr', <-drop_drop, Hd. f_equal.
  destruct (decide (S n ≤ length x)) as [Hle|Hgt].
  - rewrite Nat.min_r by lia. rewrite Nat.sub_diag. cbn [take]. by rewrite app_nil_r, take_app_le.
  - rewrite Nat.min_l by lia. rewrite take_ge, drop_app_length by lia. by rewrite take_app_ge by lia.
Qed.

Lemma make_contiguous_spec f : frame_wf f →
  ∃ f', make_contiguous f = Ok f' ∧ frame_wf f' ∧ frame_bytes f' = frame_bytes f ∧ frame_chunk f' = Ok (frame_bytes f)
    ∧ frame_len f' = length (frame_bytes f).
Proof.
  intros Hw. destruct (frame_chunk_spec f Hw) as (bs & rest & Hc & Hb). unfold make_contiguous. rewrite Hc. cbn [mbind res_bind].
  pose proof (frame_len_bytes f Hw) as Hl. case_decide as Hlt.
  - assert (∀ x, x = frame_bytes f → ∃ f', (Ok (FrameBytes x) : res Empty_set _) = Ok f' ∧ frame_wf f' ∧ frame_bytes f' = frame_bytes f
      ∧ frame_chunk f' = Ok (frame_bytes f) ∧ frame_len f' = length (frame_bytes f)) as Hfin by (intros x ->; by eexists).
    destruct f as [x|c|c]; cbn in Hc, Hw, Hl, Hlt |- *.
    + injection Hc as ->. lia.
    + destruct Hw as [Hw _]. rewrite (read_bytes_spec c (remaining c) Hw). rewrite decide_True by lia.
      cbn [mbind res_bind]. apply Hfin. cbn. by rewrite take_ge by lia.
    + destruct Hw as [Hw _]. rewrite ref_read_loop_spec by (done || lia). apply Hfin. cbn. by rewrite take_ge by lia.
  - exists f. split_and!; try done. rewrite Hc. f_equal. apply (f_equal length) in Hb as Hbl. rewrite length_app in Hbl.
    assert (rest = []) as -> by (apply length_zero_iff_nil; lia). by rewrite Hb, app_nil_r.
Qed.

(** The operating system takes whole datagrams of up to [n] bytes. *)
Definition whole (n : nat) (o : IoOutcome) : Prop := match o with IoBytes k => n ≤ k | IoError _ => True end.

Definition packet (x : SocketAddr * SerialisedFrame) : SocketAddr * list byte := (x.1, frame_bytes x.2).

(** What a loop over the queue [q] leaves and has sent. *)
Definition written (u : UdpState) (p : UdpState * res ErrorKind nat) : Prop :=
  p.2 ≠ Panic ∧ udp_input_buffer p.1 = udp_input_buffer u ∧ incoming_messages p.1 = incoming_messages u
  ∧ Forall (λ x, frame_wf x.2) (udp_outbound_queue p.1)
  ∧ ∃ sent, datagrams (udp_socket p.1) = datagrams (udp_socket u) ++ sent
      ∧ packet <$> udp_outbound_queue u = sent ++ (packet <$> udp_outbound_queue p.1).

Lemma written_trans u u1 p sent : udp_input_buffer u1 = udp_input_buffer u → incoming_messages u1 = incoming_messages u →
  datagrams (udp_socket u1) = datagrams (udp_socket u) ++ sent →
  packet <$> udp_outbound_queue u = sent ++ (packet <$> udp_outbound_queue u1) → written u1 p → written u p.
Proof.
  intros H1 H2 H3 H4 (P1 & P2 & P3 & P4 & sent' & P5 & P6). split_and!; try done; try congruence.
  exists (sent ++ sent'). by rewrite P5, H3, H4, P6, !app_assoc.
Qed.

Lemma write_loop_spec n fuel : ∀ sent interrupts u, length (send_outcomes (udp_socket u)) < fuel →
  Forall (λ x, frame_wf x.2 ∧ length (frame_bytes x.2) ≤ n) (udp_outbound_queue u) →
  Forall (whole n) (send_outcomes (udp_socket u)) → written u (write_loop fuel sent interrupts u).
Proof.
  induction fuel as [|fuel IH]; intros sent interrupts u Hf Hq Ho; [lia|]. cbn [write_loop].
  unfold mbind at 1, st_bind at 1, st_get at 1. destruct (udp_outbound_queue u) as [|[addr f] q] eqn:Hqu.
  { unfold written. cbn. rewrite Hqu. split_and!; try done. exists []. by rewrite app_nil_r. }
  apply Forall_cons in Hq as [[Hw Hn] Hq]. cbn [fst snd] in Hw, Hn. unfold mbind at 1, st_bind at 1, st_modify at 1.
  destruct (make_contiguous_spec f Hw) as (f' & Hm & Hw' & Hb & Hc & Hl).
  unfold mbind at 1, st_bind at 1, st_lift at 1. rewrite Hm. cbn [lift_panic_].
  unfold mbind at 1, st_bind at 1, st_lift at 1. rewrite Hc. cbn [lift_panic_].
  unfold mbind at 1, st_bind at 1, st_try at 1, on_socket at 1, send_to at 1. cbn [udp_socket upd_udp_queue].
  assert (Forall (λ x, frame_wf x.2) q) as Hqw by (eapply Forall_impl; [exact Hq|]; by intros ? []).
  assert (∀ s, datagrams s = datagrams (udp_socket u) → ∀ r, r ≠ Panic →
    written u (upd_udp_queue (cons (addr, f')) (set_socket s (upd_udp_queue (λ _, q) u)), r)) as Hkeep.
  { intros s Hs r Hr. unfold written. cbn. rewrite Hqu. split_and!; try done; [by apply Forall_cons|]. exists [].
    rewrite app_nil_r. split; [done|]. cbn. unfold packet at 1 3. cbn. by rewrite Hb. }
  destruct (send_outcomes (udp_socket u)) as [|[k|k] os] eqn:Hos.
  - apply Hkeep; done.
  - apply Forall_cons in Ho as [Hk Ho]. cbn in Hk. rewrite Nat.min_r by lia. rewrite take_ge by lia.
    unfold mbind at 1, st_bind at 1, st_lift at 1. rewrite bool_decide_true by lia. cbn [assert_].
    eapply (written_trans u _ _ [(addr, frame_bytes f)]); [| | | |apply IH]; try done; [by rewrite Hqu|cbn; cbn in Hf; lia].
  - apply Forall_cons in Ho as [_ Ho]. destruct k; try (by apply Hkeep).
    unfold mbind at 1, st_bind at 1, st_modify at 1. case_decide; [by apply Hkeep|].
    eapply (written_trans u _ _ []); [| | | |apply IH]; try done; [by rewrite app_nil_r| |cbn; cbn in Hf; lia|].
    + rewrite Hqu. cbn. unfold packet at 1 3. cbn. by rewrite Hb.
    + apply Forall_cons. cbn. by rewrite Hb.
Qed.

(** ** Receiving whole frames *)
Definition udp_ok (u : UdpState) : Prop :=
  wf_decode (udp_input_buffer u) ∧ 8 < chunk_len (buffer (udp_input_buffer u)).

(** All but the buffer. *)
Definition udp_frame (u u' : UdpState) : Prop :=
  udp_socket u' = udp_socket u ∧ udp_outbound_queue u' = udp_outbound_queue u
  ∧ incoming_messages u' = incoming_messages u ∧ max_packet_size u' = max_packet_size u.

Lemma make_room b u p : udp_ok u → pool_roomy p →
  ∃ u' p', st_when b udp_swap_buffer (u, p) = ((u', p'), Ok ()) ∧ udp_ok u' ∧ pool_roomy p' ∧ udp_frame u u'
    ∧ stream (udp_input_buffer u') = stream (udp_input_buffer u).
Proof.
  intros [Hw Hl] Hp. destruct b; [|by exists u, p]. cbn [st_when]. unfold udp_swap_buffer.
  pose proof (get_buffer_roomy (refs u) p Hp) as Hg. destruct (get_buffer (refs u) p) as [p' [c|]]; destruct Hg as [Hp' Hc];
    [|by exists u, p'].
  destruct Hc as [Hlc Hfc]. destruct (swap_buffer_spec (refs u) (udp_input_buffer u) c Hw Hfc) as (d & o & -> & Hwd & Hsd & _ & Hcl & ->).
  do 2 eexists. split; [reflexivity|]. split; [split; cbn; [done|lia]|]. split; [by apply return_buffer_roomy|]. done.
Qed.

(** The datagram [bs] carries the message [m]. *)
Definition carries (bs : list byte) (m : NetMessage) : Prop :=
  ∃ l src dst id hb mb c, bs = wire (FData l) ∧ frame_ok (FData l) ∧ readable l = hb ++ mb
    ∧ deserialise_head (readable l) = Ok (src, dst, id, mb) ∧ m = with_chunk_ref id src dst c ∧ ref_bytes c = mb.

(** A data frame at the front of the buffer whose payload is a message. *)
Definition is_message (bs : list byte) : Prop :=
  ∃ l src dst id hb mb, bs = wire (FData l) ∧ frame_ok (FData l) ∧ readable l = hb ++ mb
    ∧ deserialise_head (readable l) = Ok (src, dst, id, mb).

Lemma decode_message_spec u bs rest : udp_ok u → is_message bs → stream (udp_input_buffer u) = bs ++ rest →
  ∃ d m, decode_message u = (push_incoming m (set_udp_input d u), Ok ()) ∧ carries bs m
    ∧ udp_ok (set_udp_input d u) ∧ stream d = rest.
Proof.
  intros [Hw Hl] (l & src & dst & id & hb & mb & -> & Hf & Hb & Hd) Hs. unfold decode_message.
  pose proof (get_frame_home (udp_input_buffer u)) as Hh.
  destruct (get_frame_good _ _ _ Hw Hf Hs) as (d & fr & Hg & [Hsame Hok] & Hwd & Hsd). rewrite Hg in *. cbn in Hh.
  destruct fr as [l'| | | |]; try done. cbn in Hsame. destruct Hok as [Hwl _].
  rewrite Hsame in Hd, Hb.
  destruct (deserialise_lease_spec l' src dst id mb (readable l') Hwl eq_refl Hd (ex_intro _ hb Hb)) as (c & -> & _ & _ & Hc).
  do 2 eexists. split; [reflexivity|]. split; [|split; [|done]].
  - exists l, src, dst, id, hb, mb, c. rewrite Hsame. done.
  - split; [done|]. cbn. destruct Hh as (-> & _). done.
Qed.

(** Datagrams that each hold one message and fit the buffer. *)
Definition message_datagram (n : nat) (x : Datagram) : Prop :=
  match x with Received bs _ => is_message bs ∧ length bs ≤ n | RecvError _ => False end.
Definition delivered_as (x : Datagram) (m : NetMessage) : Prop :=
  match x with Received bs _ => carries bs m | RecvError _ => False end.

(** What reading the datagrams of [u] leaves. *)
Definition read_datagrams (u : UdpState) (x : (UdpState * BufferPool) * res ErrorKind ()) : Prop :=
  let u' := x.1.1 in
  x.2 ≠ Panic ∧ udp_ok u' ∧ stream (udp_input_buffer u') = [] ∧ udp_outbound_queue u' = udp_outbound_queue u
  ∧ ∃ dn ms, recvs (udp_socket u) = dn ++ recvs (udp_socket u') ∧ incoming_messages u' = incoming_messages u ++ ms
      ∧ Forall2 delivered_as dn ms ∧ (x.2 = Ok () → recvs (udp_socket u') = []).

Lemma is_message_nonempty bs : is_message bs → bs ≠ [].
Proof. intros (l & _ & _ & _ & _ & _ & -> & _). apply wire_not_nil. Qed.

Lemma read_loop_udp_spec fuel : ∀ interrupts u p, udp_ok u → pool_roomy p → stream (udp_input_buffer u) = [] →
  Forall (message_datagram (max_packet_size u)) (recvs (udp_socket u)) → length (recvs (udp_socket u)) < fuel →
  read_datagrams u (read_loop_udp fuel interrupts (u, p)).
Proof.
  induction fuel as [|fuel IH]; intros interrupts u p Hok Hp Hs Hall Hf; [lia|]. cbn [read_loop_udp].
  unfold mbind at 1, st_bind at 1, udp_writeable_len at 1. unfold mbind at 1, st_bind at 1, st_get at 1, st_lift at 1. cbn [fst].
  rewrite writeable_len_Ok by apply Hok. unfold mbind at 1, st_bind at 1, st_get at 1. cbn [fst].
  set (b := bool_decide _). destruct (make_room b u p Hok Hp) as (u1 & p1 & Hm & Hok1 & Hp1 & (Hso & Hq & Hi & Hmx) & Hs1).
  unfold mbind at 1, st_bind at 1. rewrite Hm. unfold mbind at 1, st_bind at 1, udp_writeable_len at 1.
  unfold mbind at 1, st_bind at 1, st_get at 1, st_lift at 1. cbn [fst]. rewrite writeable_len_Ok by apply Hok1.
  assert (∀ k, read_datagrams u ((u1, p1), Err k)) as Herr.
  { intros k. unfold read_datagrams. cbn [fst snd]. do 4 (split; [done || congruence|]). exists [], [].
    by rewrite Hso, Hi, app_nil_r. }
  destruct (decide _) as [Hlt|Hroom]; [apply Herr|]. rewrite <-Hmx in Hroom.
  unfold mbind at 1, st_bind at 1, receive_packet at 1. unfold mbind at 1, st_bind at 1, st_get at 1.
  unfold mbind at 1, st_bind at 1, st_lift at 1. cbn [fst]. rewrite is_writeable_Ok by apply Hok1.
  destruct (writeable (udp_input_buffer u1)) eqn:Hwr; [|apply Herr].
  unfold mbind at 1, st_bind at 1, st_lift at 1. rewrite writeable_len_Ok by apply Hok1.
  unfold st_try at 1, on_udp at 1, on_socket at 1, recv_from. rewrite Hso.
  destruct (recvs (udp_socket u)) as [|x rs] eqn:Hrs.
  { unfold read_datagrams. cbn. do 4 (split; [done || congruence|]). exists [], []. by rewrite Hrs, Hi, !app_nil_r. }
  apply Forall_cons in Hall as [Hx Hall]. destruct x as [bs from|k]; [|done]. destruct Hx as [Hmsg Hbs].
  rewrite take_ge by lia. pose proof (is_message_nonempty bs Hmsg) as Hne. destruct bs as [|z zs] eqn:Hz; [done|]. rewrite <-Hz in *.
  set (s' := mkUdpSocket rs _ _). unfold mbind at 1, st_bind at 1, st_get at 1. cbn [fst].
  unfold mbind at 1, st_bind at 1, st_lift at 1. change (udp_input_buffer (set_socket s' u1)) with (udp_input_buffer u1).
  destruct Hok1 as [Hw1 Hl1]. destruct (fill_spec (udp_input_buffer u1) bs Hw1) as (o & Hfill & Ho); [destruct Hw1 as [[_ ?] _]; lia|].
  rewrite Hfill. cbn [lift_panic_].
  destruct o as [d|]; [|unfold writeable in Hwr; apply bool_decide_eq_true in Hwr; lia].
  destruct Ho as (Hwd & Hsd & Hcd). rewrite Hs1, Hs in Hsd. cbn [app] in Hsd.
  unfold mbind at 1, st_bind at 1, on_udp at 1, st_modify at 1. set (u2 := set_udp_input d (set_socket s' u1)).
  destruct (decode_message_spec u2 bs []) as (d3 & m & Hdec & Hcar & Hok3 & Hs3);
    [split; cbn; [done|lia]|done|by rewrite app_nil_r|].
  unfold mbind at 1, st_bind at 1, on_udp at 1. rewrite Hdec.
  assert (read_datagrams (push_incoming m (set_udp_input d3 u2)) (read_loop_udp fuel interrupts (push_incoming m (set_udp_input d3 u2), p1))) as Hrec.
  { apply IH; try done; cbn; [by rewrite Hmx|cbn in Hf; lia]. }
  destruct Hrec as (H1 & H2 & H3 & H4 & dn & ms & H5 & H6 & H7 & H8). split; [done|]. split; [done|]. split; [done|].
  split; [rewrite H4; exact Hq|]. exists (Received bs from :: dn), (m :: ms). cbn in H5, H6. rewrite Hrs, H6, Hi, <-app_assoc.
  split; [cbn; by f_equal|]. split; [done|]. split; [by constructor|done].
Qed.

Lemma sent_datagrams n from (q : list (SocketAddr * SerialisedFrame)) sent rest :
  Forall (λ x, is_message (frame_bytes x.2) ∧ length (frame_bytes x.2) ≤ n) q → packet <$> q = sent ++ rest →
  Forall (message_datagram n) ((λ d, Received d.2 from) <$> sent).
Proof.
  intros Hq He. rewrite Forall_fmap. assert (Forall (λ d, is_message d.2 ∧ length d.2 ≤ n) (packet <$> q)) as Hp by (by rewrite Forall_fmap).
  rewrite He in Hp. by apply Forall_app in Hp as [Hp _].
Qed.

Lemma delivered_packets from (q : list (SocketAddr * SerialisedFrame)) sent rest dn more ms : packet <$> q = sent ++ rest →
  (λ d, Received d.2 from) <$> sent = dn ++ more → Forall2 delivered_as dn ms →
  Forall2 (λ x m, carries (frame_bytes x.2) m) (take (length ms) q) ms.
Proof.
  intros He Hd Hf. pose proof (Forall2_length _ _ _ Hf) as Hl. rewrite <-Hl.
  assert (dn = take (length dn) ((λ d : SocketAddr * list byte, Received d.2 from) <$> (packet <$> q))) as Hdn.
  { rewrite He, fmap_app, Hd, <-app_assoc, take_app_length. done. }
  rewrite Hdn in Hf at 1. rewrite <-!fmap_take, !Forall2_fmap_l in Hf. exact Hf.
Qed.
End Udp.

(** C38: Datagrams carry messages.  Writing sends the frames of the queue, whole and in
    order, up to the first the socket does not take, and keeps the rest; a receiver whose
    buffer is empty, whose maximum packet size is at least the length of every frame and
    whose chunks are large enough turns every datagram it reads into the message the frame
    was made from, in order.  Neither panics, and reading leaves datagrams behind only
    with an error. *)
Theorem udp_delivers {B : BytesApi} {U : UuidApi} (refs : UdpState → Refs) (n : nat) (ua ub : UdpState) (p : BufferPool) (from : SocketAddr) :
  Forall (λ x, frame_wf x.2 ∧ length (frame_bytes x.2) ≤ n) (udp_outbound_queue ua) →
  Forall (λ x, is_message (frame_bytes x.2) ∧ length (frame_bytes x.2) ≤ n) (udp_outbound_queue ua) →
  Forall (whole n) (send_outcomes (udp_socket ua)) → datagrams (udp_socket ua) = [] →
  udp_ok ub → stream (udp_input_buffer ub) = [] → n ≤ max_packet_size ub → pool_roomy p →
  ∃ ua' r, try_write ua = (ua', r) ∧ r ≠ Panic
  ∧ packet <$> udp_outbound_queue ua = datagrams (udp_socket ua') ++ (packet <$> udp_outbound_queue ua')
  ∧ (recvs (udp_socket ub) = (λ d, Received d.2 from) <$> datagrams (udp_socket ua') →
     ∃ ub' p' r' ms, try_read refs (ub, p) = ((ub', p'), r') ∧ r' ≠ Panic
       ∧ incoming_messages ub' = incoming_messages ub ++ ms
       ∧ Forall2 (λ x m, carries (frame_bytes x.2) m) (take (length ms) (udp_outbound_queue ua)) ms
       ∧ (r' = Ok () → length ms = length (datagrams (udp_socket ua')))).
Proof.
  intros Hq Hm Ho Hd Hok Hs Hn Hp. pose proof (write_loop_spec n _ 0 0 ua (Nat.lt_succ_diag_r _) Hq Ho) as (H1 & _ & _ & _ & sent & H2 & H3).
  unfold try_write. destruct (write_loop _ 0 0 ua) as [ua' r]. cbn [fst snd] in *. rewrite Hd in H2. cbn [app] in H2. subst sent.
  exists ua', r. do 3 (split; [done|]). intros Hr. unfold try_read.
  pose proof (sent_datagrams n from _ _ _ Hm H3) as Hall. rewrite <-Hr in Hall.
  destruct (read_loop_udp_spec refs (S (length (recvs (udp_socket ub)))) 0 ub p) as (R1 & _ & _ & _ & dn & ms & R2 & R3 & R4 & R5);
    [done..| |lia|].
  { eapply Forall_impl; [exact Hall|]. intros [bs f|k]; [|done]. cbn. intros [??]. split; [done|lia]. }
  destruct (read_loop_udp _ _ 0 (ub, p)) as [[ub' p'] r']. cbn [fst snd] in *. exists ub', p', r', ms. do 3 (split; [done|]).
  rewrite Hr in R2. split; [by eapply delivered_packets|]. intros ->. rewrite (R5 eq_refl), app_nil_r in R2.
  rewrite <-(Forall2_length _ _ _ R4), <-R2, length_fmap. done.
Qed.

(** Datagrams share one decode buffer.  When a datagram is cut off after its frame head, the bytes that are
    missing are taken from the next datagram: whatever that datagram held, the buffer then starts in the middle of
    its frame, and nothing puts it back in step. *)
Theorem truncated_datagram_desynchronises {B : BytesApi} {U : UuidApi} (u : UdpState) (l g : ChunkLease) (s m : list byte) :
  udp_ok u → frame_ok (FData l) → wire (FData l) = s ++ m → FRAME_HEAD_LEN ≤ length s → 0 < length m < length (wire (FData g)) →
  stream (udp_input_buffer u) = s ++ wire (FData g) →
  stream (udp_input_buffer (decode_message u).1) = drop (length m) (wire (FData g)).
Proof.
  intros [Hw _] Hf Hwire Hls [Hm0 Hm] Hs. set (w := wire (FData g)) in *.
  assert (∃ body, s = head_bytes (frame_head (FData l)) ++ body) as [body Hb].
  { exists (drop FRAME_HEAD_LEN s). rewrite <-(take_drop FRAME_HEAD_LEN s) at 1. f_equal.
    apply (f_equal (take FRAME_HEAD_LEN)) in Hwire. unfold wire in Hwire.
    rewrite <-(length_head_bytes (frame_head (FData l))) in Hwire at 1. rewrite take_app_length in Hwire.
    rewrite Hwire. rewrite take_app_le by lia. done. }
  set (l' := new_lease (body ++ take (length m) w) 0).
  assert (length (readable l) = length (body ++ take (length m) w)) as Hlen.
  { apply (f_equal length) in Hwire. unfold wire in Hwire. rewrite Hb, !length_app in Hwire. cbn [frame_body] in Hwire.
    rewrite length_app, length_take. lia. }
  assert (readable l' = body ++ take (length m) w) as Hrd by (exact (proj2 (new_lease_wf _ 0))).
  assert (remaining l' = remaining l) as Hrem.
  { rewrite <-!length_readable by (apply Hf || apply new_lease_wf). by rewrite Hlen, Hrd. }
  assert (frame_ok (FData l')) as Hf'.
  { destruct Hf as (_ & H1 & H2). split; [apply new_lease_wf|]. rewrite Hrem. done. }
  assert (stream (udp_input_buffer u) = wire (FData l') ++ drop (length m) w) as Hs'.
  { rewrite Hs, Hb. unfold wire. unfold frame_head. cbn [frame_body frame_type]. rewrite Hrd, <-Hlen, <-!app_assoc. by rewrite take_drop. }
  unfold decode_message. destruct (get_frame_full _ _ _ Hw Hf' Hs') as (d & fr & -> & _ & _ & Hd).
  destruct fr as [q| | | |]; try done. by destruct (deserialise_chunk_lease q).
Qed.

(** ** Witnesses *)
Section Examples.
Context {U : UuidApi}.

Definition example_udp_addr : SocketAddr := MkSocketAddr (V4 1) 8080.
Definition example_datagram : list byte := wire (FData example_received).
Definition example_sender : UdpState :=
  upd_udp_queue (λ _, [(example_udp_addr, FrameBytes example_datagram)])
    (new_udp (mkUdpSocket [] [IoBytes 100] []) (new_chunk 0 128) (mkConfig 128 1 2 16)).
Definition example_receiver (rs : list Datagram) : UdpState :=
  new_udp (mkUdpSocket rs [] []) (new_chunk 0 128) (mkConfig 128 1 2 16).

Lemma example_datagram_ok : frame_ok (FData example_received).
Proof. split; [apply new_lease_wf|vm_compute; split; [lia|done]]. Qed.

Lemma example_is_message : is_message example_datagram.
Proof.
  exists example_received, (example_path "a"), (example_path "b"), serialisation_ids.STR,
    (take (length example_body - length example_content) example_body), example_content.
  split; [done|]. split; [exact example_datagram_ok|]. split; [reflexivity|].
  destruct (deserialise_head_spec (example_path "a") (example_path "b") serialisation_ids.STR example_content
    (proj1 example_path_fits) (proj1 (proj2 example_path_fits))) as (sb & db & H1 & H2 & H3); [vm_compute; split; congruence|].
  destruct example_path_bytes as (sb' & db' & _ & H1' & H2' & _ & -> & -> & _).
  rewrite H1 in H1'. rewrite H2 in H2'. simplify_eq. exact H3.
Qed.

Lemma example_length : length example_datagram ≤ 100.
Proof. unfold example_datagram, wire. rewrite length_app, length_head_bytes. vm_compute. lia. Qed.

Lemma example_udp_ok rs : udp_ok (example_receiver rs).
Proof. split; [unfold wf_decode, chunk_len; cbn; split_and!; done || lia|unfold chunk_len; cbn; lia]. Qed.

Definition example_pool : BufferPool := mkPool [new_chunk 1 128] 2 128 128 2 2.

Lemma example_pool_roomy : pool_roomy example_pool.
Proof. split; [cbn; lia|]. constructor; [vm_compute; lia|done]. Qed.
End Examples.

Lemma udp_delivers_witness :
  let U := uuid128_api in
  let receiver := example_receiver [Received example_datagram example_udp_addr] in
  ∃ ua' r ub' p' m, try_write example_sender = (ua', r) ∧ r ≠ Panic
  ∧ udp_outbound_queue ua' = [] ∧ datagrams (udp_socket ua') = [(example_udp_addr, example_datagram)]
  ∧ try_read (λ _ _, 0) (receiver, example_pool) = ((ub', p'), Ok ())
  ∧ incoming_messages ub' = [m] ∧ carries example_datagram m.
Proof.
  intros U receiver.
  destruct (udp_delivers (λ _ _, 0) 100 example_sender receiver example_pool example_udp_addr)
    as (ua' & r & H1 & H2 & H3 & H4).
  - constructor; [|done]. split; [done|exact example_length].
  - constructor; [|done]. split; [exact example_is_message|exact example_length].
  - constructor; [cbn; lia|done].
  - reflexivity.
  - apply example_udp_ok.
  - reflexivity.
  - vm_compute. lia.
  - exact example_pool_roomy.
  - assert (udp_outbound_queue (try_write example_sender).1 = []) as Hq by (vm_compute; reflexivity).
    rewrite H1 in Hq. cbn [fst] in Hq. rewrite Hq, app_nil_r in H3. cbn in H3.
    destruct H4 as (ub' & p' & r' & ms & R1 & R2 & R3 & R4 & R5); [by rewrite <-H3|].
    assert ((try_read (λ _ _, 0) (receiver, example_pool)).2 = Ok ()) as Hr by (vm_compute; reflexivity).
    rewrite R1 in Hr. cbn [snd] in Hr. subst r'. specialize (R5 eq_refl). rewrite <-H3 in R5.
    destruct ms as [|m [|m' ms]]; [done| |done]. inversion R4 as [|?? ?? Hc]; subst.
    exists ua', r, ub', p', m. split_and!; [exact H1|exact H2|exact Hq|by rewrite <-H3|exact R1|exact R3|exact Hc].
Defined.

(** The buffer after a datagram that was cut off by three bytes and a whole one. *)
Definition example_cut : UdpState :=
  let w := take 44 (example_datagram (U := uuid128_api)) in
  set_udp_input (mkDecode (mkChunk 0 (w ++ example_datagram (U := uuid128_api) ++ replicate 60 0%Z) false)
    (44 + length (example_datagram (U := uuid128_api))) 0 None None (mkConfig 160 1 2 16)) (example_receiver []).

Lemma truncated_datagram_desynchronises_witness :
  stream (udp_input_buffer (decode_message (U := uuid128_api) example_cut).1)
  = drop 3 (example_datagram (U := uuid128_api)).
Proof.
  apply (truncated_datagram_desynchronises example_cut example_received example_received
    (take 44 example_datagram) (drop 44 example_datagram)).
  - split; [|unfold chunk_len; vm_compute; lia]. unfold wf_decode, chunk_len. vm_compute. repeat split; lia || done.
  - exact example_datagram_ok.
  - symmetry. apply take_drop.
  - vm_compute. lia.
  - vm_compute. lia.
  - vm_compute. reflexivity.
Defined.
