(* ===== verification/NetworkThread.v ===== *)
(** * The network thread

    Model of [NetworkThread] and its builder
    ([network/src/transport/network_thread.rs]): the table of channels, the
    events of the poll loop and of the dispatcher, accepting and requesting
    connections, merging of simultaneous connection attempts, the connection
    limits, blocking and shutdown.

    An [Rc<RefCell<TcpChannel>>] is the token of its channel: the channels are
    kept in a heap by token, and a channel that is mutably borrowed is recorded
    until the borrow ends, since a second borrow panics.  The environment
    supplies the connections that arrive, the outcomes of connection attempts,
    the sockets behind the channels (see [Channel]) and the lookup table at each
    time it is loaded; what the thread tells the dispatcher and local actors is
    recorded.  Polling registration only fails with a log message and has no
    effect on the state, but for the listener. *)

From S2P Require Import Prelude Extern Paths Serialisation Routing ActorStore ChunkLease Frames EncodeBuffer Buffers DecodeBuffer Messages BlockList.
From S2P Require Import Dispatcher Channel Udp.

(** ** The [lru] crate

    A cache of keys, most recently used first.  [lru_put] of a new key drops the
    least recently used one when the cache is full. *)
Class LruApi := {
  Lru : Type;
  lru_new : nat → Lru;
  lru_keys : Lru → list nat;
  lru_cap : Lru → nat;
  lru_get : nat → Lru → Lru;
  lru_put : nat → Lru → Lru;
  lru_pop : nat → Lru → Lru;
  lru_new_keys : ∀ n, lru_keys (lru_new n) = [];
  lru_new_cap : ∀ n, lru_cap (lru_new n) = n;
  lru_get_keys : ∀ k l, lru_keys (lru_get k l) =
    if decide (k ∈ lru_keys l) then k :: filter (.≠ k) (lru_keys l) else lru_keys l;
  lru_get_cap : ∀ k l, lru_cap (lru_get k l) = lru_cap l;
  lru_put_keys : ∀ k l, lru_keys (lru_put k l) =
    if decide (k ∈ lru_keys l) then k :: filter (.≠ k) (lru_keys l)
    else k :: take (lru_cap l - 1) (lru_keys l);
  lru_put_cap : ∀ k l, lru_cap (lru_put k l) = lru_cap l;
  lru_pop_keys : ∀ k l, lru_keys (lru_pop k l) = filter (.≠ k) (lru_keys l);
  lru_pop_cap : ∀ k l, lru_cap (lru_pop k l) = lru_cap l;
}.

#[global, program] Instance list_lru : LruApi := {
  Lru := nat * list nat;
  lru_new := λ n, (n, []);
  lru_keys := snd;
  lru_cap := fst;
  lru_get := λ k l, (l.1, if decide (k ∈ l.2) then k :: filter (.≠ k) l.2 else l.2);
  lru_put := λ k l, (l.1, if decide (k ∈ l.2) then k :: filter (.≠ k) l.2 else k :: take (l.1 - 1) l.2);
  lru_pop := λ k l, (l.1, filter (.≠ k) l.2);
}.
Solve All Obligations with done.

Record EventWithRetries := mkEvent { ev_token : nat; readable_ev : bool; writeable_ev : bool; retries : Z }.

Definition writeable_with_token (token : nat) : EventWithRetries := mkEvent token false true 0.

(** [retries] is a [u8]. *)
Definition get_retry_event (e : EventWithRetries) : EventWithRetries :=
  mkEvent (ev_token e) (readable_ev e) (writeable_ev e) (wrap 8 (retries e + 1)).

Definition TCP_SERVER : nat := 0.
Definition UDP_SOCKET : nat := 1.
Definition DISPATCHER : nat := 2.
Definition START_TOKEN : nat := 3.

(** The fields of [NetworkConfig] that the thread reads. *)
Record ThreadConfig := mkThreadConfig {
  tc_buffer_config : BufferConfig;
  tc_custom_allocator : option nat;
  tc_tcp_nodelay : bool;
  tc_max_connection_retry_attempts : Z;
  tc_connection_retry_interval : Z;
  tc_soft_connection_limit : nat;
  tc_hard_connection_limit : nat;
}.

Section Thread.
Context {B : BytesApi} {U : UuidApi} {N : IpNetApi} {L : LruApi}.

Abbreviation ThreadEvent := (DispatchEvent DispatchData IpNet).
Abbreviation DispatcherEvent := (NetworkDispatcherEvent DispatchData IpNet).
Abbreviation Store := (ActorStore (M := NetMessage)).

Record NetworkThread := mkThread {
  nt_addr : SocketAddr;
  channels : gmap nat TcpChannel;   (** the channels, by token: an [Rc] is the token of its channel *)
  borrowed : gset nat;   (** channels that are mutably borrowed *)
  address_map : gmap SocketAddr nat;
  token_map : Lru;
  next_tok : nat;   (** [token] *)
  input_queue : list ThreadEvent;
  thread_pool : BufferPool;
  stopped : bool;
  promised : bool;   (** whether [shutdown_promise] is still to be completed *)
  network_config : ThreadConfig;
  retry_queue : list EventWithRetries;
  out_of_buffers : bool;
  thread_encode : EncodeBuffer.EncodeBuffer;
  block_list : BlockList;
  udp_state : option UdpState;
  to_dispatcher : list DispatcherEvent;   (** told to the dispatcher, oldest first *)
  deliveries : list (DynActorRef * NetMessage);   (** enqueued with local actors, oldest first *)
  loads : nat;   (** how often the lookup table was loaded *)
  listening : bool;   (** whether the listener is registered *)
  backlog : list (TcpStream * SocketAddr * bool);   (** connections waiting to be accepted *)
  connects : list (option TcpStream);   (** outcomes of the next calls of [TcpStream::connect] *)
}.

Definition upd_channels (f : gmap nat TcpChannel → gmap nat TcpChannel) (s : NetworkThread) : NetworkThread :=
  mkThread (nt_addr s) (f (channels s)) (borrowed s) (address_map s) (token_map s) (next_tok s) (input_queue s)
    (thread_pool s) (stopped s) (promised s) (network_config s) (retry_queue s) (out_of_buffers s) (thread_encode s)
    (block_list s) (udp_state s) (to_dispatcher s) (deliveries s) (loads s) (listening s) (backlog s) (connects s).
Definition upd_borrowed (f : gset nat → gset nat) (s : NetworkThread) : NetworkThread :=
  mkThread (nt_addr s) (channels s) (f (borrowed s)) (address_map s) (token_map s) (next_tok s) (input_queue s)
    (thread_pool s) (stopped s) (promised s) (network_config s) (retry_queue s) (out_of_buffers s) (thread_encode s)
    (block_list s) (udp_state s) (to_dispatcher s) (deliveries s) (loads s) (listening s) (backlog s) (connects s).
Definition upd_address_map (f : gmap SocketAddr nat → gmap SocketAddr nat) (s : NetworkThread) : NetworkThread :=
  mkThread (nt_addr s) (channels s) (borrowed s) (f (address_map s)) (token_map s) (next_tok s) (input_queue s)
    (thread_pool s) (stopped s) (promised s) (network_config s) (retry_queue s) (out_of_buffers s) (thread_encode s)
    (block_list s) (udp_state s) (to_dispatcher s) (deliveries s) (loads s) (listening s) (backlog s) (connects s).
Definition upd_token_map (f : Lru → Lru) (s : NetworkThread) : NetworkThread :=
  mkThread (nt_addr s) (channels s) (borrowed s) (address_map s) (f (token_map s)) (next_tok s) (input_queue s)
    (thread_pool s) (stopped s) (promised s) (network_config s) (retry_queue s) (out_of_buffers s) (thread_encode s)
    (block_list s) (udp_state s) (to_dispatcher s) (deliveries s) (loads s) (listening s) (backlog s) (connects s).
Definition upd_next_tok (f : nat → nat) (s : NetworkThread) : NetworkThread :=
  mkThread (nt_addr s) (channels s) (borrowed s) (address_map s) (token_map s) (f (next_tok s)) (input_queue s)
    (thread_pool s) (stopped s) (promised s) (network_config s) (retry_queue s) (out_of_buffers s) (thread_encode s)
    (block_list s) (udp_state s) (to_dispatcher s) (deliveries s) (loads s) (listening s) (backlog s) (connects s).
Definition upd_input_queue (f : list ThreadEvent → list ThreadEvent) (s : NetworkThread) : NetworkThread :=
  mkThread (nt_addr s) (channels s) (borrowed s) (address_map s) (token_map s) (next_tok s) (f (input_queue s))
    (thread_pool s) (stopped s) (promised s) (network_config s) (retry_queue s) (out_of_buffers s) (thread_encode s)
    (block_list s) (udp_state s) (to_dispatcher s) (deliveries s) (loads s) (listening s) (backlog s) (connects s).
Definition upd_thread_pool (f : BufferPool → BufferPool) (s : NetworkThread) : NetworkThread :=
  mkThread (nt_addr s) (channels s) (borrowed s) (address_map s) (token_map s) (next_tok s) (input_queue s) (f
    (thread_pool s)) (stopped s) (promised s) (network_config s) (retry_queue s) (out_of_buffers s) (thread_encode
    s) (block_list s) (udp_state s) (to_dispatcher s) (deliveries s) (loads s) (listening s) (backlog s) (connects
    s).
Definition upd_stopped (f : bool → bool) (s : NetworkThread) : NetworkThread :=
  mkThread (nt_addr s) (channels s) (borrowed s) (address_map s) (token_map s) (next_tok s) (input_queue s)
    (thread_pool s) (f (stopped s)) (promised s) (network_config s) (retry_queue s) (out_of_buffers s)
    (thread_encode s) (block_list s) (udp_state s) (to_dispatcher s) (deliveries s) (loads s) (listening s) (backlog
    s) (connects s).
Definition upd_promised (f : bool → bool) (s : NetworkThread) : NetworkThread :=
  mkThread (nt_addr s) (channels s) (borrowed s) (address_map s) (token_map s) (next_tok s) (input_queue s)
    (thread_pool s) (stopped s) (f (promised s)) (network_config s) (retry_queue s) (out_of_buffers s)
    (thread_encode s) (block_list s) (udp_state s) (to_dispatcher s) (deliveries s) (loads s) (listening s) (backlog
    s) (connects s).
Definition upd_retry_queue (f : list EventWithRetries → list EventWithRetries) (s : NetworkThread) : NetworkThread :=
  mkThread (nt_addr s) (channels s) (borrowed s) (address_map s) (token_map s) (next_tok s) (input_queue s)
    (thread_pool s) (stopped s) (promised s) (network_config s) (f (retry_queue s)) (out_of_buffers s)
    (thread_encode s) (block_list s) (udp_state s) (to_dispatcher s) (deliveries s) (loads s) (listening s) (backlog
    s) (connects s).
Definition upd_out_of_buffers (f : bool → bool) (s : NetworkThread) : NetworkThread :=
  mkThread (nt_addr s) (channels s) (borrowed s) (address_map s) (token_map s) (next_tok s) (input_queue s)
    (thread_pool s) (stopped s) (promised s) (network_config s) (retry_queue s) (f (out_of_buffers s))
    (thread_encode s) (block_list s) (udp_state s) (to_dispatcher s) (deliveries s) (loads s) (listening s) (backlog
    s) (connects s).
Definition upd_thread_encode (f : EncodeBuffer.EncodeBuffer → EncodeBuffer.EncodeBuffer) (s : NetworkThread) : NetworkThread :=
  mkThread (nt_addr s) (channels s) (borrowed s) (address_map s) (token_map s) (next_tok s) (input_queue s)
    (thread_pool s) (stopped s) (promised s) (network_config s) (retry_queue s) (out_of_buffers s) (f (thread_encode
    s)) (block_list s) (udp_state s) (to_dispatcher s) (deliveries s) (loads s) (listening s) (backlog s) (connects
    s).
Definition upd_block_list (f : BlockList → BlockList) (s : NetworkThread) : NetworkThread :=
  mkThread (nt_addr s) (channels s) (borrowed s) (address_map s) (token_map s) (next_tok s) (input_queue s)
    (thread_pool s) (stopped s) (promised s) (network_config s) (retry_queue s) (out_of_buffers s) (thread_encode s)
    (f (block_list s)) (udp_state s) (to_dispatcher s) (deliveries s) (loads s) (listening s) (backlog s) (connects
    s).
Definition upd_udp_state (f : option UdpState → option UdpState) (s : NetworkThread) : NetworkThread :=
  mkThread (nt_addr s) (channels s) (borrowed s) (address_map s) (token_map s) (next_tok s) (input_queue s)
    (thread_pool s) (stopped s) (promised s) (network_config s) (retry_queue s) (out_of_buffers s) (thread_encode s)
    (block_list s) (f (udp_state s)) (to_dispatcher s) (deliveries s) (loads s) (listening s) (backlog s) (connects
    s).
Definition upd_to_dispatcher (f : list DispatcherEvent → list DispatcherEvent) (s : NetworkThread) : NetworkThread :=
  mkThread (nt_addr s) (channels s) (borrowed s) (address_map s) (token_map s) (next_tok s) (input_queue s)
    (thread_pool s) (stopped s) (promised s) (network_config s) (retry_queue s) (out_of_buffers s) (thread_encode s)
    (block_list s) (udp_state s) (f (to_dispatcher s)) (deliveries s) (loads s) (listening s) (backlog s) (connects
    s).
Definition upd_deliveries (f : list (DynActorRef * NetMessage) → list (DynActorRef * NetMessage)) (s : NetworkThread) : NetworkThread :=
  mkThread (nt_addr s) (channels s) (borrowed s) (address_map s) (token_map s) (next_tok s) (input_queue s)
    (thread_pool s) (stopped s) (promised s) (network_config s) (retry_queue s) (out_of_buffers s) (thread_encode s)
    (block_list s) (udp_state s) (to_dispatcher s) (f (deliveries s)) (loads s) (listening s) (backlog s) (connects
    s).
Definition upd_loads (f : nat → nat) (s : NetworkThread) : NetworkThread :=
  mkThread (nt_addr s) (channels s) (borrowed s) (address_map s) (token_map s) (next_tok s) (input_queue s)
    (thread_pool s) (stopped s) (promised s) (network_config s) (retry_queue s) (out_of_buffers s) (thread_encode s)
    (block_list s) (udp_state s) (to_dispatcher s) (deliveries s) (f (loads s)) (listening s) (backlog s) (connects
    s).
Definition upd_listening (f : bool → bool) (s : NetworkThread) : NetworkThread :=
  mkThread (nt_addr s) (channels s) (borrowed s) (address_map s) (token_map s) (next_tok s) (input_queue s)
    (thread_pool s) (stopped s) (promised s) (network_config s) (retry_queue s) (out_of_buffers s) (thread_encode s)
    (block_list s) (udp_state s) (to_dispatcher s) (deliveries s) (loads s) (f (listening s)) (backlog s) (connects
    s).
Definition upd_backlog (f : list (TcpStream * SocketAddr * bool) → list (TcpStream * SocketAddr * bool)) (s : NetworkThread) : NetworkThread :=
  mkThread (nt_addr s) (channels s) (borrowed s) (address_map s) (token_map s) (next_tok s) (input_queue s)
    (thread_pool s) (stopped s) (promised s) (network_config s) (retry_queue s) (out_of_buffers s) (thread_encode s)
    (block_list s) (udp_state s) (to_dispatcher s) (deliveries s) (loads s) (listening s) (f (backlog s)) (connects
    s).
Definition upd_connects (f : list (option TcpStream) → list (option TcpStream)) (s : NetworkThread) : NetworkThread :=
  mkThread (nt_addr s) (channels s) (borrowed s) (address_map s) (token_map s) (next_tok s) (input_queue s)
    (thread_pool s) (stopped s) (promised s) (network_config s) (retry_queue s) (out_of_buffers s) (thread_encode s)
    (block_list s) (udp_state s) (to_dispatcher s) (deliveries s) (loads s) (listening s) (backlog s) (f (connects
    s)).

Abbreviation nt := (St NetworkThread ErrorKind).

(** The leases alive, which include those the thread holds. *)
Context (refs : NetworkThread → Refs).
(** The lookup table at the [n]-th load. *)
Context (lookup : nat → Store) (default_hasher : ActorPath → Z) (implicit_routes : bool).
(** How a message's serialiser splits what it writes. *)
Context (cuts : list byte → list (list byte)).
(** What a failed serialisation leaves in the encode buffer. *)
Context (after_error : DispatchData → EncodeBuffer.EncodeBuffer → EncodeBuffer.EncodeBuffer).
(** The session identifier drawn for a token. *)
Context (new_unique : nat → SessionId).

(** ** Channels and borrows *)
Definition get_chan (t : nat) : nt TcpChannel :=
  s ← st_get; match channels s !! t with Some c => mret c | None => st_panic end.
Definition set_chan (t : nat) (c : TcpChannel) (s : NetworkThread) : NetworkThread := upd_channels <[t := c]> s.

(** A method of a channel. *)
Definition on_chan {A} (t : nat) (m : St TcpChannel ErrorKind A) : nt A := λ s,
  match channels s !! t with
  | Some c => let '(c, r) := m c in (set_chan t c s, r)
  | None => (s, Panic)
  end.
Definition modify_chan (t : nat) (f : TcpChannel → TcpChannel) : nt () := on_chan t (st_modify f).

(** [rc.borrow_mut()] for the extent of [m]. *)
Definition with_borrow {A} (t : nat) (m : nt A) : nt A := λ s,
  if decide (t ∈ borrowed s) then (s, Panic)
  else
    let '(s, r) := m (upd_borrowed (λ b, {[t]} ∪ b) s) in
    (upd_borrowed (λ b, b ∖ {[t]}) s, r).

(** [rc.borrow()]. *)
Definition borrow_shared (t : nat) : nt TcpChannel :=
  s ← st_get; if decide (t ∈ borrowed s) then st_panic else get_chan t.

Definition tokens (s : NetworkThread) : list nat := lru_keys (token_map s).

(** ** Talking to the dispatcher and the buffer pool *)
Definition notify_network_status (ev : NetworkStatus IpNet) : nt () :=
  st_modify (upd_to_dispatcher (λ l, l ++ [Network ev])).
Definition reject_dispatch_data (address : SocketAddr) (data : DispatchData) : nt () :=
  st_modify (upd_to_dispatcher (λ l, l ++ [RejectedData address data])).

Definition thread_get_buffer : nt (option BufferChunk) := λ s,
  let '(p, b) := get_buffer (refs s) (thread_pool s) in (upd_thread_pool (λ _, p) s, Ok b).
Definition thread_return_buffer (b : BufferChunk) : nt () := st_modify (upd_thread_pool (λ p, return_buffer p b)).

(** [BufferChunk::new(0)]. *)
Definition empty_chunk : nt BufferChunk := λ s,
  let p := thread_pool s in
  (upd_thread_pool (λ p, mkPool (pool p) (pool_size p) (alloc_size p) (pool_chunk_size p) (max_pool_size p) (S (next_id p))) s,
   Ok (new_chunk (next_id p) 0)).

(** ** The tables *)
Definition update_lru (t : nat) : nt () := st_modify (upd_token_map (lru_get t)).
Definition get_channel_by_token (t : nat) : nt (option nat) :=
  s ← st_get;
  _ ← update_lru t;
  mret (if decide (t ∈ tokens s) then Some t else None).
Definition get_channel_by_address (a : SocketAddr) : nt (option nat) := s ← st_get; mret (address_map s !! a).
Definition reregister_channel_address (old new : SocketAddr) : nt () :=
  s ← st_get;
  match address_map s !! old with
  | Some t => st_modify (upd_address_map (λ m, <[new := t]> (delete old m)))
  | None => mret ()
  end.

Definition deregister_channel (t : nat) : nt () :=
  c ← get_chan t; st_modify (upd_token_map (lru_pop (token c))).

Definition drop_channel (t : nat) : nt () :=
  _ ← deregister_channel t;
  c ← get_chan t;
  _ ← st_modify (upd_address_map (delete (address c)));
  _ ← modify_chan t channel_shutdown;
  buffer ← empty_chunk;
  s ← st_get;
  old ← on_chan t (channel_swap_buffer (refs s) buffer);
  thread_return_buffer old.

Definition reject_outbound_for_channel (t : nat) : nt () :=
  frames ← on_chan t (λ c, let '(c, q) := take_outbound c in (c, Ok q));
  c ← get_chan t;
  st_for frames (λ rejected_frame, reject_dispatch_data (address c) (DSerialised rejected_frame)).

(** [let _ = channel.send_bye()]. *)
Definition lost_connection (t : nat) : nt () :=
  c ← get_chan t;
  _ ← match channel_session_id c with
      | Some id => notify_network_status (ConnectionLost (with_socket Tcp (address c)) id)
      | None => mret ()
      end;
  _ ← reject_outbound_for_channel t;
  _ ← on_chan t (ignore_result send_bye);
  _ ← deregister_channel t;
  modify_chan t channel_shutdown.

Definition retry_event (e : EventWithRetries) : nt () :=
  s ← st_get;
  if (retries e <=? tc_max_connection_retry_attempts (network_config s))%Z then
    st_modify (upd_retry_queue (λ q, q ++ [get_retry_event e]))
  else
    o ← get_channel_by_token (ev_token e);
    match o with Some t => with_borrow t (lost_connection t) | None => mret () end.

Definition enqueue_writeable_event (t : nat) : nt () :=
  st_modify (upd_retry_queue (λ q, q ++ [writeable_with_token t])).

(** ** Closing and the connection limits *)
Definition close_connection (addr : SocketAddr) : nt () :=
  o ← get_channel_by_address addr;
  match o with
  | Some t =>
      with_borrow t (
        c ← get_chan t;
        if connected c then
          _ ← on_chan t initiate_graceful_shutdown;
          update_lru (token c)
        else drop_channel t)
  | None => mret ()
  end.

Definition is_active (s : NetworkThread) (t : nat) : bool :=
  if decide (t ∈ borrowed s) then true else match channels s !! t with Some c => connected c | None => false end.
Definition count_active_connections (s : NetworkThread) : nat := length (filter (λ t, is_active s t = true) (tokens s)).

(** The loop over the channels, least recently used first. *)
Fixpoint close_first_connected (ts : list nat) : nt () :=
  match ts with
  | [] => mret ()
  | t :: ts =>
      c ← borrow_shared t;
      if connected c then
        _ ← notify_network_status SoftConnectionLimitExceeded;
        close_connection (address c)
      else close_first_connected ts
  end.

Definition check_soft_connection_limit : nt () :=
  s ← st_get;
  let limit := tc_soft_connection_limit (network_config s) in
  if bool_decide (limit < length (tokens s)) && bool_decide (limit < count_active_connections s)
  then close_first_connected (reverse (tokens s))
  else mret ().

Definition check_hard_connection_limit : nt bool :=
  s ← st_get;
  if decide (tc_hard_connection_limit (network_config s) ≤ length (tokens s)) then
    _ ← notify_network_status HardConnectionLimitReached; mret true
  else mret false.

(** ** New connections *)
Definition store_stream (stream : TcpStream) (address : SocketAddr) (state : ChannelState) (buffer : BufferChunk) : nt () :=
  s ← st_get;
  let t := next_tok s in
  let channel := new_channel stream t address buffer state (nt_addr s) (tc_buffer_config (network_config s))
                   (tc_tcp_nodelay (network_config s)) in
  match initialise (nt_addr s) channel with
  | (channel, Ok _) =>
      _ ← st_modify (set_chan t channel);
      _ ← st_modify (upd_address_map <[address := t]>);
      _ ← st_modify (upd_token_map (lru_put t));
      st_modify (upd_next_tok S)
  | _ => st_panic
  end.

(** [TcpStream::connect]. *)
Definition tcp_connect : nt (option TcpStream) := λ s,
  match connects s with
  | [] => (s, Ok None)
  | o :: os => (upd_connects (λ _, os) s, Ok o)
  end.

(** The part of [request_stream] after the address was found to be free. *)
Definition open_stream (address : SocketAddr) : nt () :=
  full ← check_hard_connection_limit;
  if full : bool then mret ()
  else
    b ← thread_get_buffer;
    match b with
    | Some buffer =>
        r ← tcp_connect;
        match r with
        | Some stream =>
            s ← st_get;
            store_stream stream address (Requested address (new_unique (next_tok s))) buffer
        | None => thread_return_buffer buffer
        end
    | None => st_modify (upd_out_of_buffers (λ _, true))
    end.

Definition request_stream (address : SocketAddr) : nt () :=
  o ← get_channel_by_address address;
  match o with
  | Some t =>
      go ← with_borrow t (
             c ← get_chan t;
             match state c with
             | ChConnected _ _ | ChClosed _ _ => mret false
             | _ => _ ← drop_channel t; mret true
             end);
      if go : bool then open_stream address else mret ()
  | None => open_stream address
  end.

(** [stream.shutdown(Shutdown::Both)?]; the flag says whether it succeeds. *)
Definition refuse (ok : bool) : nt () := if ok then mret () else st_lift (Err OtherKind).

(** [while let Ok((stream, address)) = self.tcp_listener.accept()]. *)
Fixpoint accept_loop (incoming : list (TcpStream * SocketAddr * bool)) : nt () :=
  match incoming with
  | [] => mret ()
  | (stream, address, shutdown_ok) :: incoming =>
      _ ← st_modify (upd_backlog (λ _, incoming));
      s ← st_get;
      _ ← if ip_addr_is_blocked (block_list s) (sa_ip address) then refuse shutdown_ok
          else
            full ← check_hard_connection_limit;
            if full : bool then refuse shutdown_ok
            else
              b ← thread_get_buffer;
              match b with
              | Some buffer => store_stream stream address Initialising buffer
              | None => refuse shutdown_ok
              end;
      accept_loop incoming
  end.

Definition receive_stream : nt () := s ← st_get; accept_loop (backlog s).

(** ** Incoming frames *)
Definition deliver_net_message (envelope : NetMessage) : nt () :=
  s ← st_get;
  _ ← st_modify (upd_loads S);
  r ← st_lift (lift_panic_ (get_by_actor_path Messages.sender default_hasher implicit_routes (lookup (loads s)) (receiver envelope)));
  match r with
  | LRef actor => st_modify (upd_deliveries (λ l, l ++ [(actor, envelope)]))
  | LGroup group =>
      d ← st_lift (lift_panic_ (group_route group envelope));
      st_modify (upd_deliveries (λ l, l ++ d.2))
  | LNone | LErr _ => mret ()
  end.

(** [deserialise_chunk_lease(buf).expect("s11n errors")]. *)
Definition handle_data_frame (data : ChunkLease) (session : SessionId) : nt () :=
  match deserialise_chunk_lease data with
  | Ok envelope => deliver_net_message (set_session envelope session)
  | _ => st_panic
  end.

Definition handle_hello (t : nat) (hello : Hello) : nt () :=
  s ← st_get;
  if socket_addr_is_blocked (block_list s) (hello_addr hello) then drop_channel t
  else
    c ← get_chan t;
    _ ← reregister_channel_address (address c) (hello_addr hello);
    on_chan t (channel_handle_hello hello).

(** The decision between the channel [t], on which [start] arrived, and the
    channel [o] registered for the same host: whether [t] is started. *)
Definition merge_channels (t o : nat) (start : Start) : nt bool :=
  other_state ← on_chan o read_state;
  match other_state with
  | ChConnected _ _ =>
      c ← get_chan o;
      if (messages c =? 0)%Z then _ ← drop_channel t; mret false
      else _ ← lost_connection o; mret true
  | Requested _ other_id | Initialised _ other_id =>
      if (uuid_as_u128 (start_id start) <? uuid_as_u128 other_id)%Z then _ ← drop_channel t; mret false
      else _ ← drop_channel o; mret true
  | _ => _ ← drop_channel o; mret true
  end.

Definition handle_start (event : EventWithRetries) (t : nat) (start : Start) : nt () :=
  s ← st_get;
  if socket_addr_is_blocked (block_list s) (start_addr start) then drop_channel t
  else
    other ← get_channel_by_address (start_addr start);
    go ← match other with
         | Some o => with_borrow o (merge_channels t o start)
         | None => mret true
         end;
    if go : bool then
      c ← get_chan t;
      _ ← reregister_channel_address (address c) (start_addr start);
      _ ← on_chan t (channel_handle_start start);
      _ ← retry_event event;
      _ ← check_soft_connection_limit;
      notify_network_status (ConnectionEstablished (with_socket Tcp (start_addr start)) (start_id start))
    else mret ().

Definition handle_bye (t : nat) : nt () :=
  c ← get_chan t;
  match state c with
  | ChClosed addr id =>
      _ ← deregister_channel t;
      _ ← notify_network_status (ConnectionClosed (with_socket Tcp addr) id);
      reject_outbound_for_channel t
  | CloseReceived _ _ => mret ()
  | _ => drop_channel t
  end.

(** [channel.read_frame(&self.buffer_pool)]. *)
Definition thread_read_frame (t : nat) : nt (option Frame) := λ s,
  match channels s !! t with
  | Some c =>
      let '(c, p, r) := read_frame (λ c, refs (set_chan t c s)) (S (S (length (reads (stream_ c))))) (c, thread_pool s) in
      (upd_thread_pool (λ _, p) (set_chan t c s), r)
  | None => (s, Panic)
  end.

(** The loop of [read_tcp]; it returns whether the event is to be retried once
    the channel is released. *)
Fixpoint read_loop (fuel : nat) (event : EventWithRetries) (t : nat) : nt bool :=
  match fuel with
  | O => st_panic
  | S fuel =>
      r ← st_try (thread_read_frame t);
      match r with
      | inl None => mret false
      | inl (Some (FData data)) =>
          c ← get_chan t;
          match channel_session_id c with
          | Some id => _ ← handle_data_frame data id; read_loop fuel event t
          | None => st_panic
          end
      | inl (Some (FStart start)) => _ ← handle_start event t start; mret false
      | inl (Some (FHello hello)) => _ ← handle_hello t hello; read_loop fuel event t
      | inl (Some FAck) =>
          _ ← check_soft_connection_limit;
          c ← get_chan t;
          match channel_session_id c with
          | Some id =>
              _ ← notify_network_status (ConnectionEstablished (with_socket Tcp (address c)) id);
              read_loop fuel event t
          | None => st_panic
          end
      | inl (Some FBye) => _ ← handle_bye t; mret false
      | inr InvalidInput => _ ← st_modify (upd_out_of_buffers (λ _, true)); mret true
      | inr ConnectionReset => _ ← lost_connection t; mret false
      | inr _ => mret false
      end
  end.

(** Every round of the loop takes at least a frame head from what has arrived. *)
Definition read_fuel (c : TcpChannel) : nat := S (length (incoming c)).

Definition read_tcp (event : EventWithRetries) : nt () :=
  o ← get_channel_by_token (ev_token event);
  match o with
  | Some t =>
      retry ← with_borrow t (c ← get_chan t; read_loop (read_fuel c) event t);
      st_when retry (retry_event event)
  | None => mret ()
  end.

Definition write_tcp (token : nat) : nt () :=
  o ← get_channel_by_token token;
  match o with
  | Some t =>
      with_borrow t (
        r ← st_try (on_chan t try_drain);
        match r with
        | inr BrokenPipe => lost_connection t
        | inl _ =>
            c ← get_chan t;
            match state c with
            | CloseReceived addr id =>
                _ ← modify_chan t (set_chan_state (ChClosed addr id));
                _ ← deregister_channel t;
                _ ← notify_network_status (ConnectionClosed (with_socket Tcp (address c)) id);
                reject_outbound_for_channel t
            | _ => mret ()
            end
        | inr _ => mret ()
        end)
  | None => mret ()
  end.

(** ** Sending *)
Definition serialise_dispatch_data (data : DispatchData) : nt (SerialisedFrame + SerError) := λ s,
  match data with
  | DSerialised frame => (s, Ok (inl frame))
  | _ =>
      match get_buffer_encoder (refs s) (thread_encode s) with
      | Ok (inl (e, err)) => (upd_thread_encode (λ _, e) s, Ok (inr err))
      | Ok (inr enc) =>
          match into_serialised cuts (refs s) data enc with
          | Ok (enc, frame) => (upd_thread_encode (λ _, drop_encoder enc) s, Ok (inl frame))
          | Err err => (upd_thread_encode (after_error data) s, Ok (inr err))
          | Panic => (s, Panic)
          end
      | _ => (s, Panic)
      end
  end.

(** [Err(e) if out_of_buffers(&e)]; other errors are logged. *)
Definition note_ser_error (e : SerError) : nt () :=
  match e with NoBuffersAvailable => st_modify (upd_out_of_buffers (λ _, true)) | _ => mret () end.

Definition send_tcp_message (address : SocketAddr) (data : DispatchData) : nt () :=
  o ← get_channel_by_address address;
  match o with
  | Some t =>
      with_borrow t (
        c ← get_chan t;
        _ ← update_lru (token c);
        if connected c then
          r ← serialise_dispatch_data data;
          match r with
          | inl frame =>
              _ ← modify_chan t (enqueue_serialised frame);
              enqueue_writeable_event (token c)
          | inr e => note_ser_error e
          end
        else reject_dispatch_data address data)
  | None => reject_dispatch_data address data
  end.

(** A method of the UDP state, taken out of the thread. *)
Definition send_udp_message (address : SocketAddr) (data : DispatchData) : nt () :=
  s ← st_get;
  match udp_state s with
  | Some u =>
      _ ← st_modify (upd_udp_state (λ _, None));
      r ← serialise_dispatch_data data;
      match r with
      | inl frame =>
          match try_write (udp_enqueue_serialised address frame u) with
          | (_, Panic) => st_panic
          | (u, _) => st_modify (upd_udp_state (λ _, Some u))
          end
      | inr e => _ ← note_ser_error e; st_modify (upd_udp_state (λ _, Some u))
      end
  | None => reject_dispatch_data address data
  end.

Definition write_udp (u : UdpState) : nt UdpState :=
  match try_write u with
  | (_, Panic) => st_panic
  | (u, _) => mret u
  end.

Definition clear_incoming (u : UdpState) : UdpState :=
  mkUdp (udp_socket u) (udp_outbound_queue u) (udp_input_buffer u) [] (max_packet_size u).

Definition read_udp (u : UdpState) (event : EventWithRetries) : nt UdpState :=
  s ← st_get;
  let '(u, p, r) := try_read (λ _, refs s) (u, thread_pool s) in
  _ ← st_modify (upd_thread_pool (λ _, p));
  _ ← match r with
      | Ok _ => mret ()
      | Err InvalidInput =>
          _ ← st_modify (upd_out_of_buffers (λ _, true));
          retry_event event
      | Err _ => mret ()
      | Panic => st_panic
      end;
  _ ← st_for (incoming_messages u) deliver_net_message;
  mret (clear_incoming u).

(** ** Blocking *)
Definition drop_blocked (socket_addr : SocketAddr) : nt () :=
  o ← get_channel_by_address socket_addr;
  match o with
  | Some t =>
      with_borrow t (
        c ← get_chan t;
        _ ← st_when (connected c) (notify_network_status (ConnectionDropped (with_socket Tcp socket_addr)));
        drop_channel t)
  | None => mret ()
  end.

(** The registered addresses that satisfy [P] and are blocked. *)
Definition blocked_sockets (P : SocketAddr → bool) (s : NetworkThread) : list SocketAddr :=
  filter (λ a, P a && socket_addr_is_blocked (block_list s) a = true) (map_to_list (address_map s)).*1.

Definition block_ip_addr (ip : IpAddr) : nt () :=
  s ← st_get;
  let '(b, changed) := list_block_ip_addr (block_list s) ip in
  _ ← st_modify (upd_block_list (λ _, b));
  _ ← st_when changed (
        s ← st_get;
        st_for (blocked_sockets (λ a, bool_decide (sa_ip a = ip)) s) drop_blocked);
  notify_network_status (BlockedIp ip).

Definition block_socket_addr (socket_addr : SocketAddr) : nt () :=
  s ← st_get;
  let '(b, changed) := list_block_socket_addr (block_list s) socket_addr in
  _ ← st_modify (upd_block_list (λ _, b));
  _ ← st_when changed (
        o ← get_channel_by_address socket_addr;
        match o with Some t => with_borrow t (drop_channel t) | None => mret () end);
  notify_network_status (BlockedSystem (with_socket Tcp socket_addr)).

Definition allow_ip_addr (ip : IpAddr) : nt () :=
  _ ← st_modify (upd_block_list (λ b, (list_allow_ip_addr b ip).1));
  notify_network_status (AllowedIp ip).

Definition allow_socket_addr (socket_addr : SocketAddr) : nt () :=
  s ← st_get;
  let '(b, changed) := list_allow_socket_addr (block_list s) socket_addr in
  _ ← st_modify (upd_block_list (λ _, b));
  st_when changed (notify_network_status (AllowedSystem (with_socket Tcp socket_addr))).

Definition block_ip_net (net : IpNet) : nt () :=
  _ ← st_modify (upd_block_list (λ b, list_block_ip_net b net));
  s ← st_get;
  _ ← st_for (blocked_sockets (λ a, ip_net_contains net (sa_ip a)) s) drop_blocked;
  notify_network_status (BlockedIpNet net).

Definition allow_ip_net (net : IpNet) : nt () :=
  _ ← st_modify (upd_block_list (λ b, list_allow_ip_net b net));
  notify_network_status (AllowedIpNet net).

(** ** Stopping *)

(** [self.address_map.drain()], with the channels in some order. *)
Definition drain_address_map : nt (list nat) := λ s, (upd_address_map (λ _, ∅) s, Ok (map_to_list (address_map s)).*2).

Definition stop : nt () :=
  ts ← drain_address_map;
  _ ← st_for ts (λ t, with_borrow t (
        _ ← on_chan t initiate_graceful_shutdown;
        c ← get_chan t;
        st_modify (upd_token_map (lru_pop (token c)))));
  s ← st_get;
  _ ← st_lift (assert_ (listening s));
  _ ← st_modify (upd_listening (λ _, false));
  _ ← st_modify (upd_udp_state (λ _, None));
  st_modify (upd_stopped (λ _, true)).

Definition kill : nt () :=
  ts ← drain_address_map;
  _ ← st_for ts (λ t, with_borrow t (modify_chan t channel_kill));
  stop.

(** ** Events *)
Definition handle_closed_ack (address : SocketAddr) : nt () :=
  o ← get_channel_by_address address;
  match o with
  | Some t => with_borrow t (c ← get_chan t; if connected c then mret () else drop_channel t)
  | None => mret ()
  end.

Definition handle_dispatch_event (event : ThreadEvent) : nt () :=
  match event with
  | SendTcp address data => send_tcp_message address data
  | SendUdp address data => send_udp_message address data
  | StopThread => stop
  | KillThread => kill
  | Connect addr =>
      s ← st_get;
      if socket_addr_is_blocked (block_list s) addr then mret () else request_stream addr
  | ClosedAck addr => handle_closed_ack addr
  | Close addr => close_connection addr
  | BlockSocket addr => block_socket_addr addr
  | BlockIpAddr ip => block_ip_addr ip
  | AllowSocket addr => allow_socket_addr addr
  | AllowIpAddr ip => allow_ip_addr ip
  | BlockIpNet net => block_ip_net net
  | AllowIpNet net => allow_ip_net net
  end.

(** [while let Ok(event) = self.input_queue.try_recv()]: handling an event adds
    none to the queue. *)
Definition receive_dispatch : nt () := λ s,
  (st_for (input_queue s) (λ event,
     _ ← st_modify (upd_input_queue (drop 1)); handle_dispatch_event event)) s.

Definition handle_udp_event (event : EventWithRetries) : nt () :=
  s ← st_get;
  match udp_state s with
  | Some u =>
      _ ← st_modify (upd_udp_state (λ _, None));
      u ← if writeable_ev event then write_udp u else mret u;
      u ← if readable_ev event then read_udp u event else mret u;
      st_modify (upd_udp_state (λ _, Some u))
  | None => mret ()
  end.

Definition handle_event (event : EventWithRetries) : nt () :=
  if decide (ev_token event = TCP_SERVER) then _ ← st_try receive_stream; mret ()
  else if decide (ev_token event = UDP_SOCKET) then handle_udp_event event
  else if decide (ev_token event = DISPATCHER) then receive_dispatch
  else
    _ ← st_when (writeable_ev event) (write_tcp (ev_token event));
    st_when (readable_ev event) (read_tcp event).

(** The events of one round until the thread is stopped, which completes the
    shutdown promise; whether the thread goes on. *)
Fixpoint handle_events (events : list EventWithRetries) : nt bool :=
  match events with
  | [] => mret true
  | event :: events =>
      _ ← handle_event event;
      s ← st_get;
      if stopped s then _ ← st_modify (upd_promised (λ _, false)); mret false
      else handle_events events
  end.

(** One round of [run]: the events reported by the poll and those to be retried. *)
Definition run_round (polled : list EventWithRetries) : nt bool :=
  s ← st_get;
  _ ← st_modify (upd_retry_queue (λ _, []));
  handle_events (polled ++ retry_queue s).

(** [get_poll_timeout], in milliseconds. *)
Definition get_poll_timeout (s : NetworkThread) : option Z :=
  if out_of_buffers s then Some (tc_connection_retry_interval (network_config s))
  else if decide (retry_queue s = []) then None
  else Some 0%Z.

(** [Drop for NetworkThread], when the thread unwinds; every borrow has ended. *)
Definition drop_thread : nt () := λ s,
  if stopped s then (s, Ok ())
  else st_for (reverse (tokens s)) (λ t,
         _ ← st_modify (upd_token_map (lru_pop t)); with_borrow t (drop_channel t)) (upd_borrowed (λ _, ∅) s).

(** [NetworkThreadBuilder::build] with the bound address and the sockets. *)
Definition build (addr : SocketAddr) (config : ThreadConfig) (udp_socket : UdpSocket) (init_refs : Refs)
    (backlog : list (TcpStream * SocketAddr * bool)) (connects : list (option TcpStream)) : res Empty_set NetworkThread :=
  buffer_pool ← pool_with_config (tc_buffer_config config) (tc_custom_allocator config);
  encode_buffer ← encode_with_config init_refs (tc_buffer_config config) (tc_custom_allocator config) false;
  match get_buffer init_refs buffer_pool with
  | (buffer_pool, Some udp_buffer) =>
      _ ← assert_ (bool_decide (0 < tc_hard_connection_limit config));
      Ok (mkThread addr ∅ ∅ ∅ (lru_new (tc_hard_connection_limit config)) START_TOKEN [] buffer_pool false true config []
            false encode_buffer default_block_list (Some (new_udp udp_socket udp_buffer (tc_buffer_config config))) [] [] 0 true
            backlog connects)
  | (_, None) => Panic
  end.
End Thread.
