(* ===== verification/Boot.v ===== *)
(** * Starting the network

    Model of the configuration of the network dispatcher ([NetworkConfig] in
    [network/src/dispatcher.rs]) and of how it becomes a running network: binding the
    listener ([bind_with_retries], [NetworkThreadBuilder::new] in
    [network/src/transport/network_thread.rs]), starting the thread and waiting for it
    ([run_network_thread], [Bridge::new] in [network/src/transport/mod.rs]).

    What the operating system answers is in a record.  The promise with which the thread
    reports is known by when it is completed: in time, after the dispatcher has given up
    waiting and dropped the future, or between the two.  Addresses and numbers are in
    their ranges; an allocator is known by the size of its chunks. *)

From S2P Require Import Prelude Extern Paths Serialisation Routing ActorStore ChunkLease Frames EncodeBuffer Buffers Messages BlockList.
From S2P Require Import Dispatcher Channel Udp NetworkThread.

(** ** Configuration *)
Module defaults.
Definition RETRY_CONNECTIONS_INTERVAL : Z := 5000.
Definition BOOT_TIMEOUT : Z := 5000.
Definition MAX_RETRY_ATTEMPTS : Z := 10.
Definition SOFT_CONNECTION_LIMIT : nat := Z.to_nat 1000.
Definition HARD_CONNECTION_LIMIT : nat := Z.to_nat 1100.
End defaults.

Record NetSettings := mkSettings {
  ns_addr : SocketAddr;
  ns_transport : Transport;
  ns_buffer_config : BufferConfig;
  ns_custom_allocator : option nat;
  ns_tcp_nodelay : bool;
  ns_max_connection_retry_attempts : Z;
  ns_connection_retry_interval : Z;
  ns_boot_timeout : Z;
  ns_soft_connection_limit : nat;
  ns_hard_connection_limit : nat;
}.

Definition settings_new (addr : SocketAddr) : NetSettings :=
  mkSettings addr Tcp default_config None true defaults.MAX_RETRY_ATTEMPTS defaults.RETRY_CONNECTIONS_INTERVAL
    defaults.BOOT_TIMEOUT defaults.SOFT_CONNECTION_LIMIT defaults.HARD_CONNECTION_LIMIT.

Definition settings_set_buffer_config (c : BufferConfig) (s : NetSettings) : NetSettings :=
  let '(mkSettings a t _ al nd ra ri bt so ha) := s in mkSettings a t c al nd ra ri bt so ha.
Definition settings_with_socket (addr : SocketAddr) (s : NetSettings) : NetSettings :=
  let '(mkSettings _ t c al nd ra ri bt so ha) := s in mkSettings addr t c al nd ra ri bt so ha.
Definition set_tcp_nodelay (b : bool) (s : NetSettings) : NetSettings :=
  let '(mkSettings a t c al _ ra ri bt so ha) := s in mkSettings a t c al b ra ri bt so ha.
Definition set_max_connection_retry_attempts (n : Z) (s : NetSettings) : NetSettings :=
  let '(mkSettings a t c al nd _ ri bt so ha) := s in mkSettings a t c al nd n ri bt so ha.
Definition set_connection_retry_interval (n : Z) (s : NetSettings) : NetSettings :=
  let '(mkSettings a t c al nd ra _ bt so ha) := s in mkSettings a t c al nd ra n bt so ha.
Definition set_boot_timeout (n : Z) (s : NetSettings) : NetSettings :=
  let '(mkSettings a t c al nd ra ri _ so ha) := s in mkSettings a t c al nd ra ri n so ha.
Definition set_soft_connection_limit (n : nat) (s : NetSettings) : NetSettings :=
  let '(mkSettings a t c al nd ra ri bt _ ha) := s in mkSettings a t c al nd ra ri bt n ha.
Definition set_hard_connection_limit (n : nat) (s : NetSettings) : NetSettings :=
  let '(mkSettings a t c al nd ra ri bt so _) := s in mkSettings a t c al nd ra ri bt so n.

Definition settings_with_buffer_config (addr : SocketAddr) (c : BufferConfig) : res Empty_set NetSettings :=
  _ ← validate c;
  Ok (settings_set_buffer_config c (settings_new addr)).

Definition settings_with_custom_allocator (addr : SocketAddr) (c : BufferConfig) (allocator : nat)
    : res Empty_set NetSettings :=
  _ ← validate c;
  Ok (mkSettings addr Tcp c (Some allocator) true defaults.MAX_RETRY_ATTEMPTS defaults.RETRY_CONNECTIONS_INTERVAL
        defaults.BOOT_TIMEOUT defaults.SOFT_CONNECTION_LIMIT defaults.HARD_CONNECTION_LIMIT).

(** [127.0.0.1:0]. *)
Definition settings_default : NetSettings :=
  mkSettings (MkSocketAddr (V4 (127 * 2 ^ 24 + 1)) 0) Tcp default_config None true defaults.MAX_RETRY_ATTEMPTS
    defaults.RETRY_CONNECTIONS_INTERVAL defaults.BOOT_TIMEOUT defaults.SOFT_CONNECTION_LIMIT
    defaults.HARD_CONNECTION_LIMIT.

(** What the dispatcher and the network thread read of it. *)
Definition dispatcher_config (s : NetSettings) : NetworkConfig :=
  mkNetworkConfig (ns_addr s) (ns_transport s) (ns_max_connection_retry_attempts s).
Definition thread_config (s : NetSettings) : ThreadConfig :=
  mkThreadConfig (ns_buffer_config s) (ns_custom_allocator s) (ns_tcp_nodelay s)
    (ns_max_connection_retry_attempts s) (ns_connection_retry_interval s)
    (ns_soft_connection_limit s) (ns_hard_connection_limit s).

(** [NetworkConfig::build] and [NetworkDispatcher::with_config]. *)
Definition build_dispatcher {D IpNet} `{!UuidApi} (s : NetSettings) : NetworkDispatcher D IpNet :=
  new_dispatcher (dispatcher_config s).

(** ** The operating system *)
Inductive Timing := InTime | AsTheWaitEnds | TooLate.

Record Os := mkOs {
  os_poll : bool;                         (** [Poll::new()] *)
  os_waker : bool;                        (** [Waker::new(..)] *)
  os_binds : list (option SocketAddr);    (** the calls of [TcpListener::bind]: the address a listener got *)
  os_local_addr : bool;                   (** [tcp_listener.local_addr()] *)
  os_spawn : bool;                        (** starting a thread *)
  os_udp : option UdpSocket;              (** [UdpSocket::bind(..)] *)
  os_register : bool;                     (** registering the two sockets *)
  os_timing : Timing;                     (** when the thread completes its promise *)
}.

Definition MAX_BIND_RETRIES : nat := 5.

(** The outcome and the calls that are left; calls that are not listed fail. *)
Fixpoint bind_with_retries (retries : nat) (binds : list (option SocketAddr))
    : res NetworkBridgeError SocketAddr * list (option SocketAddr) :=
  let '(outcome, binds) := match binds with [] => (None, []) | b :: binds => (b, binds) end in
  match outcome with
  | Some listener => (Ok listener, binds)
  | None => match retries with S n => bind_with_retries n binds | O => (Err Dispatcher.IoError, binds) end
  end.

Section Boot.
Context {B : BytesApi} {U : UuidApi} {N : IpNetApi} {L : LruApi}.
Context (refs : Refs) (backlog0 : list (TcpStream * SocketAddr * bool)) (connects0 : list (option TcpStream)).

Record Builder := mkBuilder { bd_address : SocketAddr; bd_waker : option (); bd_config : ThreadConfig }.

(** [NetworkThreadBuilder::new]. *)
Definition builder_new (os : Os) (address : SocketAddr) (s : NetSettings) : res NetworkBridgeError Builder :=
  _ ← assert_ (os_poll os);
  _ ← assert_ (os_waker os);
  listener ← (bind_with_retries MAX_BIND_RETRIES (os_binds os)).1;
  if os_local_addr os then Ok (mkBuilder listener (Some ()) (thread_config s)) else Err Dispatcher.IoError.

Definition take_waker (b : Builder) : option () * Builder := (bd_waker b, mkBuilder (bd_address b) None (bd_config b)).

(** [NetworkThreadBuilder::build], the calls of the operating system included. *)
Definition builder_build (os : Os) (b : Builder) : res Empty_set NetworkThread :=
  match os_udp os with
  | None => Panic
  | Some udp_socket =>
      _ ← assert_ (os_register os);
      build (bd_address b) (bd_config b) udp_socket refs backlog0 connects0
  end.

(** What is left when starting the network has returned or panicked: the thread that
    runs, the promise it kept, and what the dispatcher is told. *)
Record Booted := mkBooted {
  bt_thread : option NetworkThread;
  bt_started : bool;
  bt_told : list (NetworkStatus IpNet);
}.

(** [run_network_thread]: the closure of the thread, up to the start of its loop. *)
Definition run_network_thread (os : Os) (b : Builder) : Booted * bool :=
  if os_spawn os then
    match builder_build os b with
    | Ok thread =>
        match os_timing os with
        | InTime => (mkBooted (Some thread) true [], true)
        | AsTheWaitEnds => (mkBooted (Some thread) false [], true)
        | TooLate => (mkBooted None false [CriticalNetworkFailure], true)   (** [complete().expect(..)] *)
        end
    | _ => (mkBooted None false [CriticalNetworkFailure], true)
    end
  else (mkBooted None false [], false).

Definition bridge_new (os : Os) (address : SocketAddr) (s : NetSettings)
    : Booted * res Empty_set (Bridge DispatchData IpNet * SocketAddr) :=
  match builder_new os address s with
  | Ok builder =>
      let bound_address := bd_address builder in
      match take_waker builder with
      | (Some _, builder) =>
          let '(booted, spawned) := run_network_thread os builder in
          if spawned && bt_started booted
          then (booted, Ok (mkBridge [] true 0 (Some bound_address), bound_address))
          else (booted, Panic)
      | (None, _) => (mkBooted None false [], Panic)
      end
  | _ => (mkBooted None false [], Panic)
  end.

(** The parameter of [Dispatcher.start_bridge]. *)
Definition bind_socket (os : SocketAddr → Os) (s : NetSettings) (address : SocketAddr) : option SocketAddr :=
  match (bridge_new (os address) address s).2 with Ok (_, bound) => Some bound | _ => None end.

(** ** Binding *)
Lemma bind_with_retries_spec n binds a : (bind_with_retries n binds).1 = Ok a ↔
  ∃ k, k ≤ n ∧ binds !! k = Some (Some a) ∧ ∀ j, j < k → mjoin (binds !! j) = None.
Proof.
  revert binds. induction n as [|n IH]; intros [|[b|] binds]; cbn.
  - split; [done|]. intros (k & _ & H & _). by rewrite lookup_nil in H.
  - split.
    + intros [= ->]. exists 0. split_and!; [lia|done|]. lia.
    + intros (k & Hk & Hb & _). replace k with 0 in Hb by lia. cbn in Hb. congruence.
  - split; [done|]. intros (k & Hk & Hb & _). by replace k with 0 in Hb by lia.
  - rewrite IH. split; intros (k & _ & H & _); by rewrite lookup_nil in H.
  - split.
    + intros [= ->]. exists 0. split_and!; [lia|done|]. lia.
    + intros (k & Hk & Hb & Hj). destruct k; [cbn in Hb; congruence|]. by specialize (Hj 0 ltac:(lia)).
  - rewrite IH. split.
    + intros (k & Hk & Hb & Hj). exists (S k). split_and!; [lia|done|]. intros [|j] ?; [done|]. apply Hj. lia.
    + intros ([|k] & Hk & Hb & Hj); [done|]. exists k. split_and!; [lia|done|]. intros j ?. apply (Hj (S j)). lia.
Qed.

Lemma bind_succeeds n binds :
  (∃ a, (bind_with_retries n binds).1 = Ok a) ↔ ∃ k a, k ≤ n ∧ binds !! k = Some (Some a).
Proof.
  split.
  - intros (a & (k & Hk & Hb & _)%bind_with_retries_spec). eauto.
  - intros (k & a & Hk & Hb). revert binds k Hk Hb. induction n as [|n IH]; intros binds k Hk Hb.
    + replace k with 0 in Hb by lia. destruct binds as [|[b|] binds]; [done| |done]. by exists b.
    + destruct binds as [|[b|] binds]; [done|by exists b|]. destruct k as [|k]; [done|].
      cbn. apply (IH binds k); [lia|done].
Qed.

(** ** Settings that boot *)
Definition settings_valid (s : NetSettings) : Prop :=
  validate (E := Empty_set) (ns_buffer_config s) = Ok () ∧ 0 < ns_hard_connection_limit s.

(** A new pool has a chunk to give, whatever leases there are elsewhere. *)
Lemma fresh_pool_lends {E} c al (p : BufferPool) : pool_with_config (E := E) c al = Ok p →
  ∃ p' b, get_buffer refs p = (p', Some b).
Proof.
  unfold pool_with_config. destruct (validate c) as [[]| |] eqn:Hv; [|done..]. cbn [mbind res_bind].
  intros [= <-]. unfold get_buffer, try_reclaim. cbn [pool].
  assert (2 ≤ cfg_max_chunk_count c) as Hmax by (unfold validate in Hv; repeat case_decide; done || lia).
  destruct (cfg_initial_chunk_count c) as [|n].
  - cbn. unfold increase_pool. cbn. rewrite decide_False by lia. eauto.
  - rewrite seq_S, foldl_app. cbn. eauto.
Qed.

Lemma build_outcome addr cfg udp :
  (∃ t, build addr cfg udp refs backlog0 connects0 = Ok t)
  ↔ validate (E := Empty_set) (tc_buffer_config cfg) = Ok () ∧ 0 < tc_hard_connection_limit cfg.
Proof.
  unfold build, encode_with_config.
  destruct (pool_with_config (E := Empty_set) (tc_buffer_config cfg) (tc_custom_allocator cfg)) as [p|[]|] eqn:Hp.
  - destruct (fresh_pool_lends _ _ p Hp) as (p' & b & Hb). cbn [mbind res_bind]. rewrite Hb. cbn [mbind res_bind].
    assert (validate (E := Empty_set) (tc_buffer_config cfg) = Ok ()) as Hv.
    { unfold pool_with_config in Hp. by destruct (validate _) as [[]| |]. }
    destruct (decide (0 < tc_hard_connection_limit cfg)) as [Hh|Hh].
    + rewrite bool_decide_true by done. cbn. split; [done|eauto].
    + rewrite bool_decide_false by done. cbn. split; [by intros [? ?]|by intros [_ ?]].
  - cbn. split; [by intros [? ?]|]. intros [Hv _]. unfold pool_with_config in Hp. by rewrite Hv in Hp.
Qed.

(** What starting needs of the operating system. *)
Definition granted (os : Os) : Prop :=
  os_poll os = true ∧ os_waker os = true ∧ os_local_addr os = true ∧ os_spawn os = true ∧ os_register os = true
  ∧ is_Some (os_udp os) ∧ ∃ k a, k ≤ MAX_BIND_RETRIES ∧ os_binds os !! k = Some (Some a).

Lemma builder_new_spec os address s b : builder_new os address s = Ok b ↔
  os_poll os = true ∧ os_waker os = true ∧ os_local_addr os = true
  ∧ (bind_with_retries MAX_BIND_RETRIES (os_binds os)).1 = Ok (bd_address b)
  ∧ b = mkBuilder (bd_address b) (Some ()) (thread_config s).
Proof.
  unfold builder_new. destruct (os_poll os), (os_waker os); cbn [assert_ mbind res_bind]; try (split; [done|by intros (? & ? & _)]).
  destruct ((bind_with_retries MAX_BIND_RETRIES (os_binds os)).1) as [a|e|]; cbn [mbind res_bind];
    try (split; [done|by intros (_ & _ & _ & ? & _)]).
  destruct (os_local_addr os); [|split; [done|by intros (_ & _ & ? & _)]]. destruct b as [ba bw bc]. cbn. split.
  - by intros [= -> <- <-].
  - by intros (_ & _ & _ & [= ->] & [= -> ->]).
Qed.

Lemma builder_build_spec os b t : builder_build os b = Ok t →
  os_register os = true ∧ is_Some (os_udp os) ∧ nt_addr t = bd_address b ∧ network_config t = bd_config b
  ∧ validate (E := Empty_set) (tc_buffer_config (bd_config b)) = Ok () ∧ 0 < tc_hard_connection_limit (bd_config b).
Proof.
  unfold builder_build. destruct (os_udp os) as [udp|]; [|done]. destruct (os_register os); [|done]. cbn [assert_ mbind res_bind].
  intros Hb. assert (∃ t, build (bd_address b) (bd_config b) udp refs backlog0 connects0 = Ok t) as Hex by eauto.
  apply build_outcome in Hex. unfold build in Hb. inv_ok. case_match; [|done]. inv_ok. cbn. eauto 10.
Qed.

Lemma builder_builds os b udp : os_udp os = Some udp → os_register os = true →
  validate (E := Empty_set) (tc_buffer_config (bd_config b)) = Ok () → 0 < tc_hard_connection_limit (bd_config b) →
  ∃ t, builder_build os b = Ok t.
Proof. intros Hu Hr Hv Hh. unfold builder_build. rewrite Hu, Hr. cbn. by apply build_outcome. Qed.

(** The thread and the bridge. *)
Lemma bridge_new_eq os address s :
  bridge_new os address s =
  match builder_new os address s with
  | Ok b => let '(booted, spawned) := run_network_thread os (mkBuilder (bd_address b) None (thread_config s)) in
      (booted, if spawned && bt_started booted
               then Ok (mkBridge [] true 0 (Some (bd_address b)), bd_address b) else Panic)
  | _ => (mkBooted None false [], Panic)
  end.
Proof.
  unfold bridge_new. destruct (builder_new os address s) as [b| |] eqn:Hb; [|done..].
  apply builder_new_spec in Hb as (_ & _ & _ & _ & ->). cbn [take_waker bd_waker bd_address bd_config].
  destruct (run_network_thread _ _) as [booted spawned]. by destruct (spawned && bt_started booted).
Qed.

Lemma run_network_thread_started os b :
  let '(booted, spawned) := run_network_thread os b in
  (spawned && bt_started booted = true ↔
     os_spawn os = true ∧ os_timing os = InTime ∧ ∃ t, builder_build os b = Ok t)
  ∧ (bt_started booted = true → spawned = true)
  ∧ (bt_started booted = true → ∃ t, builder_build os b = Ok t ∧ bt_thread booted = Some t ∧ bt_told booted = [])
  ∧ (bt_started booted = false → os_timing os ≠ AsTheWaitEnds → bt_thread booted = None).
Proof.
  unfold run_network_thread. destruct (os_spawn os); [|by cbn; split_and!; [split; [done|by intros (? & _)]|done..]].
  destruct (builder_build os b) as [t|[]|]; [|by cbn; split_and!; [split; [done|by intros (_ & _ & ? & ?)]|done..]].
  destruct (os_timing os); cbn; split_and!; try done; try (split; [done|by intros (_ & ? & _)]); [|eauto].
  split; [eauto|done].
Qed.

(** Starting the network: the bridge is made exactly when the settings are valid, the
    operating system grants what is asked for, a listener within the retries included, and
    the thread starts in time.  Then a thread runs that is bound to the first address that
    could be bound, has the settings and has reported no failure, and the bridge knows the
    address and has an empty queue.  Otherwise starting panics, and no thread is left
    running unless the thread completes its start at the moment the wait for it ends. *)
Theorem network_boots (os : Os) (address : SocketAddr) (s : NetSettings) :
  let '(booted, r) := bridge_new os address s in
  ((∃ x, r = Ok x) ↔ settings_valid s ∧ granted os ∧ os_timing os = InTime)
  ∧ (∀ bridge bound, r = Ok (bridge, bound) →
       (∃ k, k ≤ MAX_BIND_RETRIES ∧ os_binds os !! k = Some (Some bound) ∧ ∀ j, j < k → mjoin (os_binds os !! j) = None)
       ∧ bridge = mkBridge [] true 0 (Some bound)
       ∧ ∃ t, bt_thread booted = Some t ∧ nt_addr t = bound ∧ network_config t = thread_config s ∧ bt_told booted = [])
  ∧ (r = Panic → os_timing os ≠ AsTheWaitEnds → bt_thread booted = None).
Proof.
  rewrite bridge_new_eq. destruct (builder_new os address s) as [b|e|] eqn:Hb.
  2,3: split_and!; [split; [by intros [? ?]|]|done..]; intros (Hv & (Hp & Hw & Hl & _ & _ & _ & Hk) & _);
    apply bind_succeeds in Hk as (a & Ha); assert (builder_new os address s = Ok (mkBuilder a (Some ()) (thread_config s)))
      as Hok by (by apply builder_new_spec); congruence.
  apply builder_new_spec in Hb as (Hp & Hw & Hl & Hbind & Hbeq).
  set (b' := mkBuilder (bd_address b) None (thread_config s)).
  pose proof (run_network_thread_started os b') as Hrun. destruct (run_network_thread os b') as [booted spawned].
  destruct Hrun as (Hiff & Hspn & Hst & Hno). destruct (spawned && bt_started booted) eqn:Hs.
  - assert (bt_started booted = true) as Hstart by (by apply andb_true_iff in Hs as [_ ?]).
    destruct (proj1 Hiff eq_refl) as (Hsp & Htm & _). destruct (Hst Hstart) as (t & Ht & Hth & Htold).
    apply builder_build_spec in Ht as (Hr & Hu & Ha & Hc & Hv & Hh).
    split_and!; [|intros bridge bound [= <- <-]|done].
    + split; [intros _|eauto]. split; [done|]. split; [|done]. unfold granted. split_and!; try done.
      apply bind_succeeds. eauto.
    + split_and!; [by apply bind_with_retries_spec|done|]. eauto.
  - split_and!; [split; [by intros [? ?]|]|done|].
    + intros (Hv & (_ & _ & _ & Hsp & Hr & [udp Hu] & _) & Htm).
      destruct (builder_builds os b' udp Hu Hr (proj1 Hv) (proj2 Hv)) as [t Ht].
      assert (false = true) by (apply Hiff; eauto). done.
    + intros _ Htm. destruct (bt_started booted) eqn:Hstart; [|by apply Hno].
      by rewrite (Hspn eq_refl) in Hs.
Qed.
End Boot.

(** ** Chains of setters *)
Inductive Setting :=
| SSocket (a : SocketAddr) | SBuffer (c : BufferConfig) | SNodelay (b : bool) | SAttempts (n : Z) | SInterval (n : Z)
| STimeout (n : Z) | SSoft (n : nat) | SHard (n : nat).

Definition apply_setting (s : NetSettings) (x : Setting) : NetSettings :=
  match x with
  | SSocket a => settings_with_socket a s
  | SBuffer c => settings_set_buffer_config c s
  | SNodelay b => set_tcp_nodelay b s
  | SAttempts n => set_max_connection_retry_attempts n s
  | SInterval n => set_connection_retry_interval n s
  | STimeout n => set_boot_timeout n s
  | SSoft n => set_soft_connection_limit n s
  | SHard n => set_hard_connection_limit n s
  end.

(** What was set last, if at all. *)
Definition last_set {A} (pick : Setting → option A) (l : list Setting) : option A := last (omap pick l).
Definition buffer_of (x : Setting) : option BufferConfig := if x is SBuffer c then Some c else None.
Definition hard_of (x : Setting) : option nat := if x is SHard n then Some n else None.

Lemma last_set_snoc {A} (pick : Setting → option A) l x d :
  default d (last_set pick (l ++ [x])) = default (default d (last_set pick l)) (pick x).
Proof.
  unfold last_set. rewrite omap_app. cbn. destruct (pick x) as [a|]; [by rewrite last_snoc|by rewrite app_nil_r].
Qed.

Lemma settings_fold l s :
  ns_buffer_config (foldl apply_setting s l) = default (ns_buffer_config s) (last_set buffer_of l)
  ∧ ns_hard_connection_limit (foldl apply_setting s l) = default (ns_hard_connection_limit s) (last_set hard_of l).
Proof.
  induction l as [|x l IH] using rev_ind; [done|]. rewrite foldl_snoc, !last_set_snoc.
  destruct IH as [<- <-]. by destruct x, (foldl apply_setting s l).
Qed.

(** The constructors give settings that boot, and setters can make them unusable in two
    ways only: through buffers that [with_buffer_config] would have refused, and through a
    hard limit of zero; the last call decides. *)
Theorem settings_stay_valid (s : NetSettings) (l : list Setting) :
  settings_valid (foldl apply_setting s l)
  ↔ validate (E := Empty_set) (default (ns_buffer_config s) (last_set buffer_of l)) = Ok ()
    ∧ 0 < default (ns_hard_connection_limit s) (last_set hard_of l).
Proof. unfold settings_valid. destruct (settings_fold l s) as [-> ->]. done. Qed.

Lemma constructed_settings_valid :
  (∀ a, settings_valid (settings_new a)) ∧ settings_valid settings_default
  ∧ (∀ a c s, settings_with_buffer_config a c = Ok s → settings_valid s ∧ ns_buffer_config s = c)
  ∧ ∀ a c al s, settings_with_custom_allocator a c al = Ok s → settings_valid s ∧ ns_custom_allocator s = Some al.
Proof.
  assert (validate (E := Empty_set) default_config = Ok ()) as Hd.
  { unfold validate, default_config. cbn [cfg_max_chunk_count cfg_initial_chunk_count cfg_chunk_size cfg_encode_buf_min_free_space].
    rewrite !decide_False by lia. done. }
  assert (0 < defaults.HARD_CONNECTION_LIMIT) as Hh by (unfold defaults.HARD_CONNECTION_LIMIT; lia).
  split_and!; [intros a; exact (conj Hd Hh)|exact (conj Hd Hh)| |]; unfold settings_with_buffer_config, settings_with_custom_allocator.
  - intros a c s. destruct (validate c) as [[]| |] eqn:Hv; [|done..]. intros [= <-]. exact (conj (conj Hv Hh) eq_refl).
  - intros a c al s. destruct (validate c) as [[]| |] eqn:Hv; [|done..]. intros [= <-]. exact (conj (conj Hv Hh) eq_refl).
Qed.

Section Outcomes.
Context {B : BytesApi} {U : UuidApi} {N : IpNetApi} {L : LruApi}.
Context (refs : Refs) (backlog0 : list (TcpStream * SocketAddr * bool)) (connects0 : list (option TcpStream)).
Notation bridge_new := (bridge_new refs backlog0 connects0).

(** A hard limit of zero is accepted by its setter; the network then never starts. *)
Theorem zero_limit_never_boots os address s : (bridge_new os address (set_hard_connection_limit 0 s)).2 = Panic.
Proof.
  rewrite bridge_new_eq. destruct (builder_new os address _) as [b| |]; [|done..].
  set (b' := mkBuilder (bd_address b) None (thread_config (set_hard_connection_limit 0 s))).
  pose proof (run_network_thread_started refs backlog0 connects0 os b') as Hr.
  destruct (run_network_thread refs backlog0 connects0 os b') as [booted spawned].
  destruct Hr as (Hiff & _). destruct (spawned && bt_started booted); [|done].
  destruct (proj1 Hiff eq_refl) as (_ & _ & t & Ht). apply builder_build_spec in Ht as (_ & _ & _ & _ & _ & Hh).
  destruct s. cbn in Hh. lia.
Qed.

(** When the thread completes its start as the wait for it ends, it runs without a
    bridge: nothing can reach it or stop it any more, and it holds the port. *)
Theorem thread_without_bridge os address s : settings_valid s → granted os → os_timing os = AsTheWaitEnds →
  let '(booted, r) := bridge_new os address s in r = Panic ∧ ∃ t, bt_thread booted = Some t ∧ bt_told booted = [].
Proof.
  intros [Hv Hh] (Hp & Hw & Hl & Hs & Hr & [udp Hu] & Hk) Ht. rewrite bridge_new_eq.
  apply bind_succeeds in Hk as [a Ha].
  assert (builder_new os address s = Ok (mkBuilder a (Some ()) (thread_config s))) as -> by (by apply builder_new_spec).
  unfold run_network_thread. rewrite Hs. cbn [bd_address].
  destruct (builder_builds refs backlog0 connects0 os (mkBuilder a None (thread_config s)) udp Hu Hr Hv Hh) as [t ->].
  rewrite Ht. cbn. eauto.
Qed.

(** What the dispatcher assumes of starting the bridge. *)
Corollary bridge_restarts (os : SocketAddr → Os) (s : NetSettings) : settings_valid s →
  (∀ a, granted (os a) ∧ os_timing (os a) = InTime) → ∀ a, is_Some (bind_socket refs backlog0 connects0 os s a).
Proof.
  intros Hv Hos a. destruct (Hos a) as [Hg Ht]. unfold bind_socket.
  destruct (bridge_new (os a) a s) as [booted r] eqn:Hb. cbn [snd].
  assert (∃ x, r = Ok x) as [[br bd] ->]; [|eauto]. rewrite bridge_new_eq in Hb.
  destruct Hg as (Hp & Hw & Hl & Hs & Hr & [udp Hu] & Hk). apply bind_succeeds in Hk as [ad Ha].
  assert (builder_new (os a) a s = Ok (mkBuilder ad (Some ()) (thread_config s))) as He by (by apply builder_new_spec).
  rewrite He in Hb. unfold run_network_thread in Hb. rewrite Hs in Hb. cbn [bd_address] in Hb.
  destruct (builder_builds refs backlog0 connects0 (os a) (mkBuilder ad None (thread_config s)) udp Hu Hr (proj1 Hv) (proj2 Hv)) as [t Ht'].
  rewrite Ht', Ht in Hb. injection Hb as _ <-. cbn. eauto.
Qed.
End Outcomes.

(** A listener that is bound at the second attempt. *)
Definition example_os (t : Timing) : Os :=
  mkOs true true [None; Some (MkSocketAddr (V4 1) 8080)] true true (Some (mkUdpSocket [] [] [])) true t.
Definition example_settings : NetSettings :=
  settings_set_buffer_config (mkConfig 128 1 4 16) (set_hard_connection_limit 3 (settings_new (MkSocketAddr (V4 1) 0))).

Example example_boots {B : BytesApi} {U : UuidApi} {N : IpNetApi} {L : LruApi} :
  settings_valid example_settings ∧ granted (example_os InTime)
  ∧ (bridge_new (λ _, 0) [] [] (example_os InTime) (ns_addr example_settings) example_settings).2
    = Ok (mkBridge [] true 0 (Some (MkSocketAddr (V4 1) 8080)), MkSocketAddr (V4 1) 8080).
Proof.
  split_and!; [split; [done|vm_compute; lia]| |done]. unfold granted. split_and!; try done.
  exists 1, (MkSocketAddr (V4 1) 8080). split; [vm_compute; lia|done].
Qed.
