(* ===== verification/ThreadSafety.v ===== *)
(** * Connections of the network thread

    Every event handler of the network thread keeps the tables of channels
    consistent and within the hard limit, and a channel only leaves them when its
    connection is over. *)

From S2P Require Import Prelude Extern Paths Serialisation Routing ActorStore ChunkLease Frames EncodeBuffer Buffers DecodeBuffer Messages BlockList.
From S2P Require Import Dispatcher Channel Udp NetworkThread.

(** ** Channels that are over *)
Section Channels.
Context {B : BytesApi} {U : UuidApi}.

Definition closed_state (s : ChannelState) : bool := match s with ChClosed _ _ | ChError _ => true | _ => false end.

(** The socket was shut down, or the session was closed or failed. *)
Definition over (c : TcpChannel) : bool := stream_shut (stream_ c) || closed_state (state c).

(** The identity of a channel stays and its socket is not reopened. *)
Definition same_channel (c c' : TcpChannel) : Prop :=
  token c' = token c ∧ (stream_shut (stream_ c) = true → stream_shut (stream_ c') = true).

(** Nor does a session that is over start again. *)
Definition chan_keeps (c c' : TcpChannel) : Prop :=
  same_channel c c' ∧ (closed_state (state c) = true → closed_state (state c') = true).

#[export] Instance same_channel_pre : PreOrder same_channel.
Proof. split; [done|]. intros x y z [H1 H2] [H3 H4]. split; [congruence|auto]. Qed.

#[export] Instance chan_keeps_pre : PreOrder chan_keeps.
Proof. split; [done|]. intros x y z [H1 H2] [H3 H4]. split; [by etrans|auto]. Qed.

Lemma chan_keeps_over c c' : chan_keeps c c' → over c = true → over c' = true.
Proof. intros [[_ H1] H2]. unfold over. rewrite !orb_true_iff. intuition. Qed.

Lemma respects_keeps {A} (m : St TcpChannel ErrorKind A) : respects same_channel m →
  (∀ c, closed_state (state c) = true → closed_state (state (m c).1) = true) → respects chan_keeps m.
Proof. intros Hm Hc c Hp. split; [by apply Hm|apply Hc]. Qed.

(** Sending leaves the state alone. *)
Definition same_state (c c' : TcpChannel) : Prop := same_channel c c' ∧ state c' = state c.

#[export] Instance same_state_pre : PreOrder same_state.
Proof. split; [done|]. intros x y z [H1 H2] [H3 H4]. split; [by etrans|congruence]. Qed.

Lemma same_state_keeps {A} (m : St TcpChannel ErrorKind A) : respects same_state m → respects chan_keeps m.
Proof. intros Hm c Hp. destruct (Hm c Hp) as [H1 H2]. split; [done|]. by rewrite H2. Qed.

Lemma same_state_channel {A} (m : St TcpChannel ErrorKind A) : respects same_state m → respects same_channel m.
Proof. intros Hm c Hp. by destruct (Hm c Hp). Qed.

Lemma on_stream_same {A} (f : TcpStream → TcpStream * res ErrorKind A) :
  (∀ s, stream_shut (f s).1 = stream_shut s) → respects same_state (on_stream f).
Proof.
  intros Hf c _. unfold on_stream. specialize (Hf (stream_ c)). destruct (f (stream_ c)) as [s r]. cbn in *.
  split; [split; [done|cbn; congruence]|done].
Qed.

Lemma upd_queue_same f : respects same_state (st_modify (upd_queue f) : St TcpChannel ErrorKind ()).
Proof. by apply respects_modify. Qed.
Hint Resolve upd_queue_same : kompact.

Lemma write_serialized_same f : respects same_state (write_serialized f).
Proof.
  unfold write_serialized. respects. apply on_stream_same. intros s. unfold stream_write. by destruct (writes s) as [|[]].
Qed.
Hint Resolve write_serialized_same : kompact.

Lemma drain_loop_same fuel : ∀ sent interrupts, respects same_state (drain_loop fuel sent interrupts).
Proof. induction fuel as [|fuel IH]; intros sent interrupts; cbn [drain_loop]; respects. Qed.

Lemma try_drain_same : respects same_state try_drain.
Proof. intros c. apply drain_loop_same. Qed.
Hint Resolve try_drain_same : kompact.

Lemma send_frame_same f : respects same_state (send_frame f).
Proof. unfold send_frame, ignore_result. respects. Qed.
Hint Resolve send_frame_same : kompact.

Lemma send_bye_same : respects same_state send_bye.
Proof. unfold send_bye. respects. Qed.
Hint Resolve send_bye_same : kompact.

Lemma set_state_same s : respects same_channel (st_modify (set_chan_state s) : St TcpChannel ErrorKind ()).
Proof. by apply respects_modify. Qed.
Lemma set_address_same a : respects same_channel (st_modify (set_address a) : St TcpChannel ErrorKind ()).
Proof. by apply respects_modify. Qed.
Hint Resolve set_state_same set_address_same same_state_channel : kompact.

Lemma set_nodelay_same : respects same_state set_nodelay.
Proof. unfold set_nodelay. respects. Qed.
Hint Resolve set_nodelay_same : kompact.

(** The handshake and the close do nothing to a session that is over. *)
Local Ltac handshake_step :=
  apply respects_keeps; unfold ignore_result; [respects|];
  intros c Hc; unfold mbind, st_bind, st_get; by destruct (state c) eqn:Hs; cbn; rewrite ?Hs.

Lemma handle_hello_keeps h : respects chan_keeps (channel_handle_hello h).
Proof. unfold channel_handle_hello. handshake_step. Qed.
Lemma handle_start_keeps st : respects chan_keeps (channel_handle_start st).
Proof. unfold channel_handle_start. handshake_step. Qed.
Lemma handle_ack_keeps : respects chan_keeps handle_ack.
Proof. unfold handle_ack. handshake_step. Qed.
Lemma handle_bye_keeps : respects chan_keeps channel_handle_bye.
Proof. unfold channel_handle_bye. handshake_step. Qed.
Lemma graceful_shutdown_keeps : respects chan_keeps initiate_graceful_shutdown.
Proof. unfold initiate_graceful_shutdown. handshake_step. Qed.
Lemma initialise_same a : respects same_state (initialise a).
Proof. unfold initialise. respects. Qed.

Lemma read_state_keeps : respects chan_keeps read_state.
Proof.
  apply respects_keeps; unfold read_state, mbind, st_bind, st_get, st_modify, take_error.
  - intros c _. by destruct (stream_error (stream_ c)).
  - intros c Hc. by destruct (stream_error (stream_ c)).
Qed.

Lemma shutdown_over c : over (channel_shutdown c) = true ∧ chan_keeps c (channel_shutdown c).
Proof. unfold channel_shutdown, over, chan_keeps, same_channel. cbn. destruct (state c) eqn:Hs; cbn; rewrite ?Hs; auto. Qed.

(** Reading. *)
Lemma receive_loop_same fuel : ∀ interrupts, respects same_state (receive_loop fuel interrupts).
Proof.
  induction fuel as [|fuel IH]; intros interrupts; cbn [receive_loop]; respects.
  - apply on_stream_same. intros s. unfold stream_read. by destruct (reads s) as [|[]].
  - by apply respects_modify.
Qed.

Lemma channel_receive_keeps : respects chan_keeps channel_receive.
Proof. apply same_state_keeps. intros c. apply receive_loop_same. Qed.

Lemma on_input_keeps {E A} (f : DecodeBuffer → DecodeBuffer * res E A) g : respects chan_keeps (on_input f g).
Proof. intros c _. unfold on_input. by destruct (f (input_buffer c)). Qed.

Lemma channel_decode_keeps c : chan_keeps c (channel_decode c).1.
Proof. unfold channel_decode. destruct (get_frame (input_buffer c)) as [d [[]| |]]; done. Qed.

Lemma handle_decoded_keeps : respects chan_keeps handle_decoded.
Proof.
  intros c Hp. pose proof (channel_decode_keeps c) as Hd. unfold handle_decoded in *.
  destruct (channel_decode c) as [c1 [[| | | |]|[]|]]; cbn [fst] in Hd; try done.
  - etrans; [exact Hd|]. revert Hp. apply (respects_bind chan_keeps); [apply handle_ack_keeps|]. intros []. apply respects_ret. exact _.
  - etrans; [exact Hd|]. revert Hp. apply (respects_bind chan_keeps); [apply handle_bye_keeps|]. intros []. apply respects_ret. exact _.
Qed.

Lemma channel_swap_keeps refs b : respects chan_keeps (channel_swap_buffer refs b).
Proof. intros c _. unfold channel_swap_buffer. by destruct (DecodeBuffer.swap_buffer refs (input_buffer c) b) as [[]| |]. Qed.

(** The channel of a pair of a channel and the pool. *)
Definition pair_keeps (x y : TcpChannel * BufferPool) : Prop := chan_keeps x.1 y.1.

#[export] Instance pair_keeps_pre : PreOrder pair_keeps.
Proof. unfold pair_keeps. split; [by intros [c p]|]. intros x y z H1 H2. by etrans. Qed.

Lemma on_channel_keeps {A} (m : St TcpChannel ErrorKind A) : respects chan_keeps m → respects pair_keeps (on_channel m).
Proof. intros Hm [c p] Hp. specialize (Hm c). unfold on_channel, pair_keeps in *. destruct (m c) as [c' r]. by apply Hm. Qed.

Lemma with_pool_keeps {A} (f : BufferPool → BufferPool * A) : respects pair_keeps (with_pool f).
Proof. intros [c p] _. unfold with_pool, pair_keeps. by destruct (f p). Qed.
Hint Resolve on_channel_keeps with_pool_keeps handle_decoded_keeps channel_receive_keeps channel_swap_keeps : kompact.

Lemma read_frame_keeps refs fuel : respects pair_keeps (read_frame refs fuel).
Proof.
  induction fuel as [|fuel IH]; cbn [read_frame]; respects; apply on_channel_keeps; apply on_input_keeps.
Qed.
End Channels.

(** ** The thread *)
Section Thread.
Context {B : BytesApi} {U : UuidApi} {N : IpNetApi} {L : LruApi}.

Abbreviation nt := (St NetworkThread ErrorKind).

(** The tables fit together and the connections are within the hard limit. *)
Definition thread_inv (s : NetworkThread) : Prop :=
  lru_cap (token_map s) = tc_hard_connection_limit (network_config s)
  ∧ length (tokens s) ≤ tc_hard_connection_limit (network_config s)
  ∧ NoDup (tokens s)
  ∧ (∀ t, t ∈ tokens s → is_Some (channels s !! t))
  ∧ (∀ a t, address_map s !! a = Some t → is_Some (channels s !! t))
  ∧ (∀ t c, channels s !! t = Some c → token c = t ∧ t < next_tok s).

Definition settled (s : NetworkThread) (t : nat) : Prop := ∃ c, channels s !! t = Some c ∧ over c = true.

(** From [s] to [s'] the invariant is kept, and the channels that left the table,
    but for those in [X], are over. *)
Definition evolves (X : nat → Prop) (s s' : NetworkThread) : Prop :=
  thread_inv s →
  thread_inv s' ∧ network_config s' = network_config s ∧ (stopped s = true → stopped s' = true)
  ∧ (∀ t, settled s t → settled s' t)
  ∧ (∀ t, t ∈ tokens s → X t ∨ t ∈ tokens s' ∨ settled s' t ∨ stopped s' = true).

#[export] Instance evolves_pre X : PreOrder (evolves X).
Proof.
  split; [intros s Hi; split_and!; auto|]. intros x y z Hxy Hyz Hx.
  destruct (Hxy Hx) as (Hy & C1 & S1 & D1 & T1). destruct (Hyz Hy) as (Hz & C2 & S2 & D2 & T2).
  split; [done|]. split; [congruence|]. split; [auto|]. split; [auto|]. intros t Ht.
  destruct (T1 t Ht) as [|[H|[H|H]]]; [auto|by apply T2|auto|auto 6].
Qed.

Lemma evolves_mono (X Y : nat → Prop) {A} (m : nt A) : (∀ t, X t → Y t) → respects (evolves X) m → respects (evolves Y) m.
Proof.
  intros HXY Hm s Hp Hi. destruct (Hm s Hp Hi) as (H1 & H2 & H3 & H4 & H5). split_and!; try done.
  intros t Ht. destruct (H5 t Ht); auto.
Qed.

(** Changes to other parts of the thread. *)
Definition idle (s s' : NetworkThread) : Prop :=
  channels s' = channels s ∧ token_map s' = token_map s ∧ address_map s' = address_map s
  ∧ next_tok s' = next_tok s ∧ network_config s' = network_config s ∧ stopped s' = stopped s.

Lemma idle_evolves X s s' : idle s s' → evolves X s s'.
Proof.
  intros (E1 & E2 & E3 & E4 & E5 & E6) Hi. unfold thread_inv, settled, tokens in *. rewrite E1, E2, E3, E4, E5, E6.
  split_and!; auto; apply Hi.
Qed.

Lemma respects_idle X f : (∀ s, idle s (f s)) → respects (evolves X) (st_modify f : nt ()).
Proof. intros Hf s _. apply idle_evolves, Hf. Qed.
#[local] Hint Extern 1 (respects (evolves _) (st_modify _)) => (apply respects_idle; done) : kompact.

(** Operations on one channel. *)
Lemma set_chan_evolves X s t c c' : channels s !! t = Some c → chan_keeps c c' → evolves X s (set_chan t c' s).
Proof.
  intros Hc Hk (H1 & H2 & H3 & H4 & H5 & H6).
  assert (∀ t', is_Some (channels s !! t') → is_Some (channels (set_chan t c' s) !! t')) as Hdom.
  { intros t' Ht'. cbn. destruct (decide (t = t')) as [->|Hne]; [by rewrite lookup_insert_eq|by rewrite lookup_insert_ne]. }
  split; [split_and!; cbn; try done|split_and!; cbn; auto].
  - intros t' Ht'. by apply Hdom, H4.
  - intros a t' Ha. by eapply Hdom, H5.
  - intros t' d Hd. destruct (decide (t = t')) as [<-|Hne].
    + rewrite lookup_insert_eq in Hd. injection Hd as <-. destruct (H6 t c Hc) as [<- ?]. by destruct Hk as [[-> _] _].
    + rewrite lookup_insert_ne in Hd by done. by apply H6.
  - intros t' (d & Hd & Ho). destruct (decide (t = t')) as [<-|Hne].
    + exists c'. cbn. rewrite lookup_insert_eq. split; [done|]. rewrite Hc in Hd. injection Hd as <-.
      exact (chan_keeps_over _ _ Hk Ho).
    + exists d. cbn. by rewrite lookup_insert_ne.
Qed.

Lemma on_chan_evolves X {A} t (m : St TcpChannel ErrorKind A) : respects chan_keeps m → respects (evolves X) (on_chan t m).
Proof.
  intros Hm s Hp. unfold on_chan in *. destruct (channels s !! t) as [c|] eqn:Hc; [|done]. specialize (Hm c).
  destruct (m c) as [c' r]. cbn in *. by eapply set_chan_evolves, Hm.
Qed.

Lemma modify_chan_evolves X t f : (∀ c, chan_keeps c (f c)) → respects (evolves X) (modify_chan t f).
Proof. intros Hf. apply on_chan_evolves. by apply respects_modify. Qed.

Lemma with_borrow_evolves X {A} t (m : nt A) : respects (evolves X) m → respects (evolves X) (with_borrow t m).
Proof.
  intros Hm s Hp. unfold with_borrow in *. case_decide; [done|].
  set (s0 := upd_borrowed _ s) in *. specialize (Hm s0). destruct (m s0) as [s1 r]. cbn in *.
  etrans; [apply (idle_evolves X s s0); done|]. etrans; [by apply Hm|]. by apply idle_evolves.
Qed.

(** [respects] through borrows. *)
Local Ltac evolve := repeat (progress (respects; try apply with_borrow_evolves)).

Lemma get_chan_evolves X t : respects (evolves X) (get_chan t : nt TcpChannel).
Proof. unfold get_chan. respects. Qed.
Hint Resolve with_borrow_evolves get_chan_evolves : kompact.

Lemma update_lru_evolves X t : respects (evolves X) (update_lru t : nt ()).
Proof.
  intros s _ (H1 & H2 & H3 & H4 & H5 & H6). unfold update_lru, st_modify. cbn [fst].
  assert (∀ t', t' ∈ lru_keys (lru_get t (token_map s)) ↔ t' ∈ tokens s) as Hin.
  { intros t'. rewrite lru_get_keys. unfold tokens. case_decide; [|done].
    rewrite elem_of_cons, list_elem_of_filter. destruct (decide (t' = t)) as [->|]; naive_solver. }
  assert (NoDup (lru_keys (lru_get t (token_map s)))) as Hnd.
  { rewrite lru_get_keys. case_decide; [|done]. constructor; [|by apply NoDup_filter]. rewrite list_elem_of_filter. naive_solver. }
  assert (tokens (upd_token_map (lru_get t) s) ≡ₚ tokens s) as Hperm.
  { by apply NoDup_Permutation; [..|intros t'; apply Hin]. }
  split; [split_and!; cbn; try done|split_and!; cbn; auto].
  - by rewrite lru_get_cap.
  - by rewrite Hperm.
  - intros t' Ht'. by apply H4, Hin.
  - intros t' Ht'. right; left. by apply Hin.
Qed.
Hint Resolve update_lru_evolves : kompact.

Lemma get_channel_by_token_evolves X t : respects (evolves X) (get_channel_by_token t : nt _).
Proof. unfold get_channel_by_token. respects. Qed.
Lemma get_channel_by_address_evolves X a : respects (evolves X) (get_channel_by_address a : nt _).
Proof. unfold get_channel_by_address. respects. Qed.
Hint Resolve get_channel_by_token_evolves get_channel_by_address_evolves : kompact.

(** The address map only loses entries or moves them. *)
Lemma address_map_evolves X f : (∀ m a t, f m !! a = Some t → ∃ a', m !! a' = Some t) →
  respects (evolves X) (st_modify (upd_address_map f) : nt ()).
Proof.
  intros Hf s _ (H1 & H2 & H3 & H4 & H5 & H6). split; [split_and!; try done|split_and!; auto].
  intros a t Ha. destruct (Hf _ _ _ Ha) as [a' Ha']. by eapply H5.
Qed.

Lemma delete_address_evolves X a : respects (evolves X) (st_modify (upd_address_map (delete a)) : nt ()).
Proof. apply address_map_evolves. intros m a' t [_ H]%lookup_delete_Some. eauto. Qed.

Lemma reregister_evolves X old new : respects (evolves X) (reregister_channel_address old new : nt ()).
Proof.
  intros s Hp. unfold reregister_channel_address, mbind, st_bind, st_get in *.
  destruct (address_map s !! old) as [t|] eqn:Ho; [|reflexivity].
  intros (H1 & H2 & H3 & H4 & H5 & H6). split; [split_and!; try done|split_and!; auto].
  intros a t' Ha. cbn in Ha. apply lookup_insert_Some in Ha as [[_ <-]|[_ [_ Ha]%lookup_delete_Some]]; by eapply H5.
Qed.
Hint Resolve delete_address_evolves reregister_evolves : kompact.

Lemma pop_evolves s t : evolves (.= t) s (upd_token_map (lru_pop t) s).
Proof.
  intros (H1 & H2 & H3 & H4 & H5 & H6).
  assert (∀ t', t' ∈ tokens (upd_token_map (lru_pop t) s) ↔ t' ≠ t ∧ t' ∈ tokens s) as Hin.
  { intros t'. unfold tokens. cbn. by rewrite lru_pop_keys, list_elem_of_filter. }
  split; [split_and!; try done|split_and!; auto].
  - cbn. by rewrite lru_pop_cap.
  - unfold tokens. cbn. rewrite lru_pop_keys. etrans; [apply length_filter|exact H2].
  - unfold tokens. cbn. rewrite lru_pop_keys. by apply NoDup_filter.
  - intros t' [_ Ht']%Hin. by apply H4.
  - intros t' Ht'. destruct (decide (t' = t)); [auto|]. right; left. by apply Hin.
Qed.

Lemma deregister_evolves t : respects (evolves (.= t)) (deregister_channel t : nt ()).
Proof.
  intros s Hp Hi. unfold deregister_channel, get_chan, mbind, st_bind, st_get in *.
  destruct (channels s !! t) as [c|] eqn:Hc; [|done]. cbn.
  pose proof Hi as (_ & _ & _ & _ & _ & H6). destruct (H6 t c Hc) as [-> _]. by apply pop_evolves.
Qed.

(** ** Ending a connection *)

(** After [m], unless it panics, the channel [t] is over. *)
Definition ends (t : nat) {A} (m : nt A) : Prop := ∀ s, thread_inv s → (m s).2 ≠ Panic → settled (m s).1 t.
Definition no_err {A} (m : nt A) : Prop := ∀ s e, (m s).2 ≠ Err e.

Lemma ends_evolves X t {A} (m : nt A) : respects (evolves (λ x, x = t ∨ X x)) m → ends t m → respects (evolves X) m.
Proof.
  intros Hm He s Hp Hi. destruct (Hm s Hp Hi) as (H1 & H2 & H3 & H4 & H5). split_and!; try done.
  intros t' Ht'. destruct (H5 t' Ht') as [[->|]|]; auto 6.
Qed.

Lemma ends_bind_l X t {A A'} (m : nt A) (f : A → nt A') : respects (evolves X) m → ends t m → (∀ a, respects (evolves X) (f a)) → ends t (m ≫= f).
Proof.
  intros Hr Hm Hf s Hi Hp. specialize (Hm s Hi). specialize (Hr s). unfold mbind, st_bind in *. destruct (m s) as [s1 [a|e|]]; cbn in *; try done; [|by apply Hm].
  destruct (Hr ltac:(done) Hi) as (Hi1 & _). destruct (Hf a s1 Hp Hi1) as (_ & _ & _ & H & _). apply H, Hm. done.
Qed.

Lemma ends_bind_r X t {A A'} (m : nt A) (f : A → nt A') : no_err m → respects (evolves X) m → (∀ a, ends t (f a)) → ends t (m ≫= f).
Proof.
  intros Hn Hm Hf s Hi Hp. specialize (Hn s). specialize (Hm s). unfold mbind, st_bind in *. destruct (m s) as [s1 [a|e|]]; cbn in *; try done.
  - apply Hf; [|done]. by apply Hm.
  - by destruct (Hn e).
Qed.

Lemma no_err_bind {A A'} (m : nt A) (f : A → nt A') : no_err m → (∀ a, no_err (f a)) → no_err (m ≫= f).
Proof.
  intros Hm Hf s e. specialize (Hm s e). unfold mbind, st_bind. destruct (m s) as [s1 [a|e'|]]; cbn in *; [apply Hf|intros [= ->]; by destruct Hm|done].
Qed.
Lemma no_err_ret {A} (a : A) : no_err (mret a : nt A).
Proof. done. Qed.
Lemma no_err_get_chan t : no_err (get_chan t : nt _).
Proof. intros s e. unfold get_chan, mbind, st_bind, st_get. by destruct (channels s !! t). Qed.
Lemma no_err_modify f : no_err (st_modify f : nt ()).
Proof. done. Qed.
Lemma no_err_on_chan {A} t (m : St TcpChannel ErrorKind A) : (∀ c e, (m c).2 ≠ Err e) → no_err (on_chan t m : nt _).
Proof. intros Hm s e. unfold on_chan. destruct (channels s !! t) as [c|]; [|done]. specialize (Hm c e). by destruct (m c). Qed.
Lemma no_err_for {A} (l : list A) (f : A → nt ()) : (∀ a, no_err (f a)) → no_err (st_for l f).
Proof. intros Hf. induction l; cbn [st_for]; [done|]. by apply no_err_bind. Qed.

Lemma ends_shutdown t : ends t (modify_chan t channel_shutdown : nt ()).
Proof.
  intros s Hi Hp. unfold modify_chan, on_chan in *. destruct (channels s !! t) as [c|]; [|done].
  exists (channel_shutdown c). cbn. rewrite lookup_insert_eq. split; [done|]. apply shutdown_over.
Qed.

Lemma shutdown_evolves X t : respects (evolves X) (modify_chan t channel_shutdown : nt ()).
Proof. apply modify_chan_evolves. intros c. apply shutdown_over. Qed.

Context (refs : NetworkThread → Refs).

Lemma empty_chunk_evolves X : respects (evolves X) (empty_chunk : nt _).
Proof. intros s _. by apply idle_evolves. Qed.
Lemma return_buffer_evolves X b : respects (evolves X) (thread_return_buffer b : nt ()).
Proof. unfold thread_return_buffer. respects. Qed.
Lemma get_buffer_evolves X : respects (evolves X) (thread_get_buffer refs : nt _).
Proof. intros s _. unfold thread_get_buffer. destruct (get_buffer (refs s) (thread_pool s)) as [p b]. by apply idle_evolves. Qed.
Lemma notify_evolves X ev : respects (evolves X) (notify_network_status ev : nt ()).
Proof. unfold notify_network_status. respects. Qed.
Lemma reject_evolves X a d : respects (evolves X) (reject_dispatch_data a d : nt ()).
Proof. unfold reject_dispatch_data. respects. Qed.
Hint Resolve empty_chunk_evolves return_buffer_evolves get_buffer_evolves notify_evolves reject_evolves shutdown_evolves : kompact.

Lemma swap_evolves X t s b : respects (evolves X) (on_chan t (channel_swap_buffer (refs s) b) : nt _).
Proof. apply on_chan_evolves, channel_swap_keeps. Qed.
Hint Resolve swap_evolves : kompact.

Lemma deregister_weak X t : respects (evolves (λ x, x = t ∨ X x)) (deregister_channel t : nt ()).
Proof. eapply evolves_mono; [|apply deregister_evolves]. auto. Qed.
Hint Resolve deregister_weak : kompact.

Lemma no_err_deregister t : no_err (deregister_channel t).
Proof. apply no_err_bind; [apply no_err_get_chan|]. intros c. apply no_err_modify. Qed.

Lemma drop_channel_evolves X t : respects (evolves X) (drop_channel refs t).
Proof.
  apply (ends_evolves X t); unfold drop_channel; [respects|].
  apply (ends_bind_r (.= t)); [apply no_err_deregister|apply deregister_evolves|]. intros [].
  apply (ends_bind_r (λ _, False)); [apply no_err_get_chan|respects|]. intros c.
  apply (ends_bind_r (λ _, False)); [apply no_err_modify|respects|]. intros [].
  apply (ends_bind_l (λ _, False)); [respects|apply ends_shutdown|]. respects.
Qed.
Hint Resolve drop_channel_evolves : kompact.

Lemma reject_outbound_evolves X t : respects (evolves X) (reject_outbound_for_channel t : nt ()).
Proof. unfold reject_outbound_for_channel. respects. by apply on_chan_evolves. Qed.
Lemma no_err_reject_outbound t : no_err (reject_outbound_for_channel t).
Proof.
  apply no_err_bind; [by apply no_err_on_chan|]. intros q. apply no_err_bind; [apply no_err_get_chan|]. intros c.
  by apply no_err_for.
Qed.
Hint Resolve reject_outbound_evolves : kompact.

Lemma bye_evolves X t : respects (evolves X) (on_chan t (ignore_result send_bye) : nt ()).
Proof.
  apply on_chan_evolves, same_state_keeps. unfold ignore_result. apply respects_bind; [exact _|apply respects_try, send_bye_same|].
  intros r. apply respects_ret. exact _.
Qed.
Lemma no_err_ignore {A} (m : St TcpChannel ErrorKind A) c e : (ignore_result m c).2 ≠ Err e.
Proof. unfold ignore_result, mbind, st_bind, st_try. by destruct (m c) as [c' []]. Qed.
Hint Resolve bye_evolves : kompact.

Lemma lost_connection_evolves X t : respects (evolves X) (lost_connection t).
Proof.
  apply (ends_evolves X t); unfold lost_connection; [respects|].
  apply (ends_bind_r (λ _, False)); [apply no_err_get_chan|respects|]. intros c.
  apply (ends_bind_r (λ _, False)); [by destruct (channel_session_id c)|respects|]. intros [].
  apply (ends_bind_r (λ _, False)); [apply no_err_reject_outbound|respects|]. intros [].
  apply (ends_bind_r (λ _, False)); [apply no_err_on_chan, no_err_ignore|respects|]. intros [].
  apply (ends_bind_r (.= t)); [apply no_err_deregister|apply deregister_evolves|]. intros []. apply ends_shutdown.
Qed.
Hint Resolve lost_connection_evolves : kompact.

Lemma retry_event_evolves X e : respects (evolves X) (retry_event e).
Proof. unfold retry_event. respects. Qed.
Lemma enqueue_writeable_evolves X t : respects (evolves X) (enqueue_writeable_event t : nt ()).
Proof. unfold enqueue_writeable_event. respects. Qed.
Hint Resolve retry_event_evolves enqueue_writeable_evolves : kompact.

Lemma graceful_evolves X t : respects (evolves X) (on_chan t initiate_graceful_shutdown : nt ()).
Proof. apply on_chan_evolves, graceful_shutdown_keeps. Qed.
Hint Resolve graceful_evolves : kompact.

Lemma close_connection_evolves X a : respects (evolves X) (close_connection refs a).
Proof. unfold close_connection. evolve. Qed.
Hint Resolve close_connection_evolves : kompact.

Lemma close_first_evolves X ts : respects (evolves X) (close_first_connected refs ts).
Proof. induction ts as [|t ts IH]; cbn [close_first_connected]; unfold borrow_shared; respects. Qed.
Hint Resolve close_first_evolves : kompact.

Lemma check_soft_evolves X : respects (evolves X) (check_soft_connection_limit refs).
Proof. unfold check_soft_connection_limit. respects. Qed.
Lemma check_hard_evolves X : respects (evolves X) (check_hard_connection_limit : nt _).
Proof. unfold check_hard_connection_limit. respects. Qed.
Hint Resolve check_soft_evolves check_hard_evolves : kompact.

(** *** Opening connections *)
Definition has_room (s : NetworkThread) : Prop := length (tokens s) < tc_hard_connection_limit (network_config s).

(** [m] keeps the invariant when there is room for a connection. *)
Definition within (X : nat → Prop) {A} (m : nt A) : Prop :=
  ∀ s, has_room s → (m s).2 ≠ Panic → evolves X s (m s).1.

Lemma evolves_within X {A} (m : nt A) : respects (evolves X) m → within X m.
Proof. intros Hm s _. apply Hm. Qed.

Lemma within_bind X {A A'} (m : nt A) (f : A → nt A') : respects idle m → (∀ a, within X (f a)) → within X (m ≫= f).
Proof.
  intros Hm Hf s Hr Hp. specialize (Hm s). unfold mbind, st_bind in *. destruct (m s) as [s1 [a|e|]]; cbn in *; try done.
  - specialize (Hm ltac:(done)). etrans; [by apply idle_evolves|]. apply Hf; [|done].
    destruct Hm as (_ & E & _ & _ & C & _). unfold has_room, tokens. by rewrite E, C.
  - by apply idle_evolves, Hm.
Qed.

Lemma check_hard_within X (m0 m : nt ()) : respects (evolves X) m0 → within X m →
  respects (evolves X) (full ← check_hard_connection_limit; if full : bool then m0 else m).
Proof.
  intros Hm0 Hm s Hp. unfold check_hard_connection_limit, mbind, st_bind, st_get in *. case_decide as Hl.
  - etrans; [|by apply Hm0]. by apply idle_evolves.
  - apply Hm; [|done]. unfold has_room. lia.
Qed.

Lemma store_stream_within X stream a st b : within X (store_stream stream a st b).
Proof.
  intros s Hr Hp Hi. pose proof Hi as (H1 & H2 & H3 & H4 & H5 & H6). unfold store_stream, mbind, st_bind, st_get, st_modify in *.
  pose proof (initialise_same (nt_addr s) (new_channel stream (next_tok s) a b st (nt_addr s) (tc_buffer_config (network_config s))
    (tc_tcp_nodelay (network_config s)))) as Hin. destruct (initialise _ _) as [c [[]| |]]; try done. cbn [fst snd] in *.
  destruct (Hin ltac:(done)) as [[Htok _] _]. cbn in Htok. clear Hin Hp.
  assert (next_tok s ∉ tokens s) as Hnew by (intros Hn; destruct (H4 _ Hn) as [d Hd]; destruct (H6 _ _ Hd); lia).
  assert (channels s !! next_tok s = None) as Hfree.
  { destruct (channels s !! next_tok s) as [d|] eqn:Hd; [|done]. destruct (H6 _ _ Hd). lia. }
  assert (lru_keys (lru_put (next_tok s) (token_map s)) = next_tok s :: tokens s) as Hk.
  { rewrite lru_put_keys, decide_False by done. f_equal. apply take_ge. unfold has_room, tokens in *. lia. }
  assert (∀ t, is_Some (channels s !! t) → is_Some (<[next_tok s := c]> (channels s) !! t)) as Hdom.
  { intros t Ht. by apply lookup_insert_is_Some'; right. }
  split; [split_and!|split_and!]; unfold tokens in *; cbn.
  - by rewrite lru_put_cap.
  - rewrite Hk. cbn. unfold has_room, tokens in Hr. lia.
  - rewrite Hk. by constructor.
  - intros t. rewrite Hk, elem_of_cons. intros [->|Ht]; [by rewrite lookup_insert_eq|]. by apply Hdom, H4.
  - intros a' t. rewrite lookup_insert_Some. intros [[_ <-]|[_ Ha]]; [by rewrite lookup_insert_eq|]. by eapply Hdom, H5.
  - intros t d. rewrite lookup_insert_Some. intros [[<- <-]|[_ Hd]]; [split; [done|lia]|]. destruct (H6 t d Hd). split; [done|lia].
  - done.
  - done.
  - intros t (d & Hd & Ho). exists d. split; [|done]. cbn. rewrite lookup_insert_ne; [done|]. congruence.
  - intros t Ht. right; left. rewrite Hk. by constructor.
Qed.

Lemma get_buffer_idle : respects idle (thread_get_buffer refs : nt _).
Proof. intros s _. unfold thread_get_buffer. by destruct (get_buffer (refs s) (thread_pool s)) as [p b]. Qed.
Lemma connect_idle : respects idle (tcp_connect : nt _).
Proof. intros s _. unfold tcp_connect. by destruct (connects s). Qed.
Lemma get_idle : respects idle (st_get : nt _).
Proof. done. Qed.

Context (new_unique : nat → SessionId).

Lemma open_stream_evolves X a : respects (evolves X) (open_stream refs new_unique a).
Proof.
  unfold open_stream. apply check_hard_within; [evolve|]. apply within_bind; [apply get_buffer_idle|]. intros [b|].
  - apply within_bind; [apply connect_idle|]. intros [stream|]; [|apply evolves_within; evolve].
    apply within_bind; [apply get_idle|]. intros s. apply store_stream_within.
  - apply evolves_within. evolve.
Qed.
Hint Resolve open_stream_evolves : kompact.

Lemma request_stream_evolves X a : respects (evolves X) (request_stream refs new_unique a).
Proof. unfold request_stream. evolve. Qed.
Hint Resolve request_stream_evolves : kompact.

Lemma refuse_evolves X ok : respects (evolves X) (refuse ok : nt ()).
Proof. unfold refuse. evolve. Qed.
Hint Resolve refuse_evolves : kompact.

Lemma accept_one_evolves X stream a ok : respects (evolves X) (
  full ← check_hard_connection_limit;
  if full : bool then refuse ok
  else
    b ← thread_get_buffer refs;
    match b with
    | Some buffer => store_stream stream a Initialising buffer
    | None => refuse ok
    end).
Proof.
  apply check_hard_within; [evolve|]. apply within_bind; [apply get_buffer_idle|].
  intros [b|]; [apply store_stream_within|apply evolves_within; evolve].
Qed.

Lemma accept_loop_evolves X incoming : respects (evolves X) (accept_loop refs incoming).
Proof.
  induction incoming as [|[[stream a] ok] incoming IH]; cbn [accept_loop]; [evolve|].
  do 2 (apply respects_bind; [exact _|evolve|intros ?]). apply respects_bind; [exact _| |done].
  destruct (ip_addr_is_blocked _ _); [evolve|apply accept_one_evolves].
Qed.

Lemma receive_stream_evolves X : respects (evolves X) (receive_stream refs).
Proof. unfold receive_stream. apply respects_bind; [exact _|evolve|]. intros s. apply accept_loop_evolves. Qed.
Hint Resolve receive_stream_evolves : kompact.

(** *** Frames *)
Context (lookup : nat → ActorStore (M := NetMessage)) (default_hasher : ActorPath → Z) (implicit_routes : bool).

Lemma deliver_evolves X m : respects (evolves X) (deliver_net_message lookup default_hasher implicit_routes m : nt ()).
Proof. unfold deliver_net_message. evolve. Qed.
Hint Resolve deliver_evolves : kompact.

Lemma data_frame_evolves X d id : respects (evolves X) (handle_data_frame lookup default_hasher implicit_routes d id : nt ()).
Proof. unfold handle_data_frame. evolve. Qed.

Lemma hello_evolves X t h : respects (evolves X) (handle_hello refs t h).
Proof. unfold handle_hello. evolve. apply on_chan_evolves, handle_hello_keeps. Qed.

Lemma merge_evolves X t o st : respects (evolves X) (merge_channels refs t o st).
Proof. unfold merge_channels. evolve. apply on_chan_evolves, read_state_keeps. Qed.
Hint Resolve data_frame_evolves hello_evolves merge_evolves : kompact.

Lemma start_evolves X e t st : respects (evolves X) (NetworkThread.handle_start refs e t st).
Proof. unfold NetworkThread.handle_start. evolve. apply on_chan_evolves, handle_start_keeps. Qed.
Hint Resolve start_evolves : kompact.

(** A session that is closed leaves the table. *)
Lemma closed_evolves X t s c (m : nt ()) : channels s !! t = Some c → over c = true → respects (evolves (λ x, x = t ∨ X x)) m →
  (m s).2 ≠ Panic → evolves X s (m s).1.
Proof.
  intros Hc Ho Hm Hp Hi. destruct (Hm s Hp Hi) as (H1 & H2 & H3 & H4 & H5). split_and!; try done.
  intros t' Ht'. destruct (H5 t' Ht') as [[->|]|]; auto. right; right; left. apply H4. by exists c.
Qed.

Lemma bye_frame_evolves X t : respects (evolves X) (NetworkThread.handle_bye refs t).
Proof.
  intros s. unfold NetworkThread.handle_bye, get_chan. unfold mbind at 1, st_bind at 1. unfold mbind at 1, st_bind at 1, st_get.
  unfold mbind at 3, st_bind at 3. unfold mbind at 3, st_bind at 3. intros Hp.
  destruct (channels s !! t) as [c|] eqn:Hc; [|done]. cbn [mret st_ret fst snd] in Hp |- *.
  destruct (state c) as [| | | | | |a id|] eqn:Hs; try reflexivity; try (revert Hp; apply drop_channel_evolves).
  revert Hp. apply (closed_evolves X t s c); [done|unfold over; rewrite Hs; apply orb_true_r|evolve].
Qed.
Hint Resolve bye_frame_evolves : kompact.

Lemma read_frame_evolves X t : respects (evolves X) (thread_read_frame refs t).
Proof.
  intros s Hp. unfold thread_read_frame in *. destruct (channels s !! t) as [c|] eqn:Hc; [|done].
  pose proof (read_frame_keeps (λ c, refs (set_chan t c s)) (S (S (length (reads (stream_ c))))) (c, thread_pool s)) as Hk.
  destruct (read_frame _ _ _) as [[c' p] r]. cbn in *. etrans; [by eapply set_chan_evolves, Hk|]. by apply idle_evolves.
Qed.
Hint Resolve read_frame_evolves : kompact.

Lemma read_loop_evolves X fuel e t : respects (evolves X) (read_loop refs lookup default_hasher implicit_routes fuel e t).
Proof. induction fuel as [|fuel IH]; cbn [read_loop]; evolve. Qed.
Hint Resolve read_loop_evolves : kompact.

Lemma read_tcp_evolves X e : respects (evolves X) (read_tcp refs lookup default_hasher implicit_routes e).
Proof. unfold read_tcp. evolve. Qed.
Hint Resolve read_tcp_evolves : kompact.

Lemma finish_evolves X t a id ad : respects (evolves X) (
  _ ← modify_chan t (set_chan_state (ChClosed a id));
  _ ← deregister_channel t;
  _ ← notify_network_status (ConnectionClosed ad id);
  reject_outbound_for_channel t : nt ()).
Proof.
  apply (ends_evolves X t); [evolve; by apply modify_chan_evolves|].
  apply (ends_bind_l (λ x, x = t ∨ X x)); [by apply modify_chan_evolves| |evolve].
  intros s Hi Hp. unfold modify_chan, on_chan in *. destruct (channels s !! t) as [c|]; [|done].
  eexists. cbn. rewrite lookup_insert_eq. split; [done|]. apply orb_true_r.
Qed.

Lemma write_tcp_evolves X t : respects (evolves X) (write_tcp t).
Proof.
  unfold write_tcp. apply respects_bind; [exact _|evolve|]. intros [t'|]; [|evolve]. apply with_borrow_evolves.
  apply respects_bind; [exact _|apply respects_try, on_chan_evolves, same_state_keeps, try_drain_same|].
  intros [n|[]]; try solve [evolve]. apply respects_bind; [exact _|evolve|]. intros c.
  destruct (state c); try solve [evolve]. apply finish_evolves.
Qed.
Hint Resolve write_tcp_evolves : kompact.

(** *** Sending *)
Context (cuts : list byte → list (list byte)).
Context (after_error : DispatchData → EncodeBuffer.EncodeBuffer → EncodeBuffer.EncodeBuffer).

Lemma serialise_evolves X d : respects (evolves X) (serialise_dispatch_data refs cuts after_error d).
Proof.
  intros s Hp. unfold serialise_dispatch_data in *. destruct d; try reflexivity;
    (destruct (get_buffer_encoder _ _) as [[[e err]|enc]| |]; try done; [by apply idle_evolves|]);
    (destruct (into_serialised _ _ _ _) as [[enc' f]| |]; try done; by apply idle_evolves).
Qed.
Hint Resolve serialise_evolves : kompact.

Lemma note_error_evolves X e : respects (evolves X) (note_ser_error e : nt ()).
Proof. unfold note_ser_error. evolve. Qed.
Lemma enqueue_evolves X t f : respects (evolves X) (modify_chan t (enqueue_serialised f) : nt ()).
Proof. by apply modify_chan_evolves. Qed.
Hint Resolve note_error_evolves enqueue_evolves : kompact.

Lemma send_tcp_evolves X a d : respects (evolves X) (send_tcp_message refs cuts after_error a d).
Proof. unfold send_tcp_message. evolve. Qed.
Lemma send_udp_evolves X a d : respects (evolves X) (send_udp_message refs cuts after_error a d).
Proof. unfold send_udp_message. evolve. Qed.
Hint Resolve send_tcp_evolves send_udp_evolves : kompact.

Lemma udp_event_evolves X e : respects (evolves X) (handle_udp_event refs lookup default_hasher implicit_routes e).
Proof. unfold handle_udp_event, write_udp, read_udp. evolve. Qed.
Hint Resolve udp_event_evolves : kompact.

(** *** Blocking and stopping *)
Lemma drop_blocked_evolves X a : respects (evolves X) (drop_blocked refs a).
Proof. unfold drop_blocked. evolve. Qed.
Hint Resolve drop_blocked_evolves : kompact.

Lemma block_ip_evolves X ip : respects (evolves X) (block_ip_addr refs ip).
Proof. unfold block_ip_addr. evolve. Qed.
Lemma block_socket_evolves X a : respects (evolves X) (block_socket_addr refs a).
Proof. unfold block_socket_addr. evolve. Qed.
Lemma block_net_evolves X n : respects (evolves X) (block_ip_net refs n).
Proof. unfold block_ip_net. evolve. Qed.
Lemma allow_ip_evolves X ip : respects (evolves X) (allow_ip_addr ip : nt ()).
Proof. unfold allow_ip_addr. evolve. Qed.
Lemma allow_socket_evolves X a : respects (evolves X) (allow_socket_addr a : nt ()).
Proof. unfold allow_socket_addr. evolve. Qed.
Lemma allow_net_evolves X n : respects (evolves X) (allow_ip_net n : nt ()).
Proof. unfold allow_ip_net. evolve. Qed.
Lemma closed_ack_evolves X a : respects (evolves X) (handle_closed_ack refs a).
Proof. unfold handle_closed_ack. evolve. Qed.
Hint Resolve block_ip_evolves block_socket_evolves block_net_evolves allow_ip_evolves allow_socket_evolves allow_net_evolves
  closed_ack_evolves : kompact.

Lemma drain_evolves X : respects (evolves X) (drain_address_map : nt _).
Proof.
  intros s _ (H1 & H2 & H3 & H4 & H5 & H6). split; [split_and!; try done|split_and!; auto].
Qed.
Hint Resolve drain_evolves : kompact.

Lemma no_err_with_borrow {A} t (m : nt A) : no_err m → no_err (with_borrow t m).
Proof.
  intros Hm s e. unfold with_borrow. case_decide; [done|]. specialize (Hm (upd_borrowed (λ b, {[t]} ∪ b) s) e). by destruct (m _).
Qed.

Lemma no_err_stop : no_err (stop : nt ()).
Proof.
  apply no_err_bind; [done|]. intros ts. apply no_err_bind.
  - apply no_err_for. intros t. apply no_err_with_borrow, no_err_bind.
    + apply no_err_on_chan. intros c e. unfold initiate_graceful_shutdown. unfold mbind at 1, st_bind at 1, st_get.
      destruct (state c); try done. unfold mbind at 1, st_bind at 1, st_modify. apply no_err_ignore.
    + intros []. apply no_err_bind; [apply no_err_get_chan|done].
  - intros [] s e. unfold mbind, st_bind, st_get, st_lift, st_modify. by destruct (listening s).
Qed.

Lemma stop_stops s : (stop s).2 = Ok () → stopped (stop s).1 = true.
Proof.
  unfold stop. intros H.
  do 4 (destruct (st_bind_Ok _ _ _ _ H) as (? & ? & _ & E); rewrite E in *; clear E). done.
Qed.

(** Once the thread has stopped, nothing is asked of the channels. *)
Lemma stop_evolves X : respects (evolves X) (stop : nt ()).
Proof.
  assert (respects (evolves (λ _, True)) (stop : nt ())) as Hw.
  { unfold stop. evolve.
    - eapply evolves_mono; [|intros s' _; apply pop_evolves]. done.
    - intros s _ Hi. split_and!; try done; auto. }
  intros s Hp Hi. destruct (Hw s Hp Hi) as (H1 & H2 & H3 & H4 & _). split_and!; try done. intros t _. do 3 right.
  apply stop_stops. pose proof (no_err_stop s) as Hn. destruct (stop s) as [s' [[]|e|]]; try done. by destruct (Hn e).
Qed.
Hint Resolve stop_evolves : kompact.

Lemma kill_evolves X : respects (evolves X) (kill : nt ()).
Proof. unfold kill. evolve. apply modify_chan_evolves. intros c. split; [split; [done|done]|done]. Qed.
Hint Resolve kill_evolves : kompact.

(** *** Events *)
Lemma dispatch_event_evolves X e : respects (evolves X) (handle_dispatch_event refs cuts after_error new_unique e).
Proof. unfold handle_dispatch_event. destruct e; evolve. Qed.
Hint Resolve dispatch_event_evolves : kompact.

Lemma receive_dispatch_evolves X : respects (evolves X) (receive_dispatch refs cuts after_error new_unique).
Proof. intros s. apply respects_for; [exact _|]. evolve. Qed.
Hint Resolve receive_dispatch_evolves : kompact.

Abbreviation on_event := (handle_event refs lookup default_hasher implicit_routes cuts after_error new_unique).
Abbreviation round := (run_round refs lookup default_hasher implicit_routes cuts after_error new_unique).

Lemma handle_event_evolves X e : respects (evolves X) (on_event e).
Proof. unfold handle_event. repeat case_decide; evolve. Qed.
Hint Resolve handle_event_evolves : kompact.

Lemma handle_events_evolves X es : respects (evolves X) (handle_events refs lookup default_hasher implicit_routes cuts after_error new_unique es).
Proof. induction es as [|e es IH]; cbn [handle_events]; evolve. Qed.
Hint Resolve handle_events_evolves : kompact.

Lemma run_round_evolves X es : respects (evolves X) (round es).
Proof. unfold run_round. evolve. Qed.

(** ** Runs *)

(** Between two rounds the environment moves bytes, chooses outcomes of socket
    calls, queues events of the dispatcher and offers connections. *)
Definition env_step (s s' : NetworkThread) : Prop :=
  token_map s' = token_map s ∧ address_map s' = address_map s ∧ next_tok s' = next_tok s
  ∧ network_config s' = network_config s ∧ stopped s' = stopped s
  ∧ (∀ t, channels s !! t = None → channels s' !! t = None)
  ∧ ∀ t c, channels s !! t = Some c → ∃ stream, channels s' !! t = Some (set_stream stream c)
      ∧ stream_shut stream = stream_shut (stream_ c).

Inductive thread_step (s : NetworkThread) : NetworkThread → Prop :=
| step_env s' : env_step s s' → thread_step s s'
| step_round polled s' r : round polled s = (s', r) → r ≠ Panic → thread_step s s'.

Lemma env_step_evolves X s s' : env_step s s' → evolves X s s'.
Proof.
  intros (E1 & E2 & E3 & E4 & E5 & E6 & E7) (H1 & H2 & H3 & H4 & H5 & H6).
  assert (∀ t, is_Some (channels s !! t) → is_Some (channels s' !! t)) as Hdom.
  { intros t [c Hc]. destruct (E7 t c Hc) as (st & -> & _). done. }
  unfold thread_inv, tokens. rewrite E1, E2, E3, E4, E5. split; [split_and!; eauto|split_and!; auto].
  - intros t c' Hc'. destruct (channels s !! t) as [c|] eqn:Hc; [|rewrite (E6 t Hc) in Hc'; done].
    destruct (E7 t c Hc) as (st & Hst & _). rewrite Hst in Hc'. injection Hc' as <-. by apply (H6 t c).
  - intros t (c & Hc & Ho). destruct (E7 t c Hc) as (st & Hst & Hsh). exists (set_stream st c). split; [done|].
    unfold over in *. cbn. by rewrite Hsh.
Qed.

Lemma thread_step_evolves X s s' : thread_step s s' → evolves X s s'.
Proof.
  intros [s1 Hs|polled s1 r Hr Hp]; [by apply env_step_evolves|].
  pose proof (run_round_evolves X polled s) as H. rewrite Hr in H. by apply H.
Qed.

Lemma thread_steps_evolve X s s' : rtc thread_step s s' → evolves X s s'.
Proof. induction 1 as [|x y z Hxy _ IH]; [reflexivity|]. etrans; [by apply thread_step_evolves|done]. Qed.

Lemma build_inv addr config socket rf bl cs s : build addr config socket rf bl cs = Ok s → thread_inv s.
Proof.
  unfold build. intros H. inv_ok. case_match; [|done]. inv_ok. unfold thread_inv, tokens. cbn.
  rewrite lru_new_keys, lru_new_cap. split_and!; try done; [cbn; lia|constructor|by intros t ?%elem_of_nil].
Qed.
End Thread.

(** C4: The connections of the network thread stay within the hard limit and none is lost from view.  From the start of
    the thread, for every sequence of poll events, dispatcher events, arriving connections and outcomes of socket calls,
    as long as the thread does not panic: there are never more channels than the configured limit, every channel in the
    table is the one its token names, and a channel that has left the table, which the cache behind it would also make
    room for by itself, was shut down, closed or failed, or the whole thread has stopped. *)
Theorem connection_table_safe {B : BytesApi} {U : UuidApi} {N : IpNetApi} {L : LruApi}
    (refs : NetworkThread → Refs) (lookup : nat → ActorStore (M := NetMessage)) (default_hasher : ActorPath → Z)
    (implicit_routes : bool) (cuts : list byte → list (list byte))
    (after_error : DispatchData → EncodeBuffer.EncodeBuffer → EncodeBuffer.EncodeBuffer) (new_unique : nat → SessionId)
    addr config socket rf bl cs (s0 s s' : NetworkThread) :
  let step := thread_step refs new_unique lookup default_hasher implicit_routes cuts after_error in
  build addr config socket rf bl cs = Ok s0 → rtc step s0 s → rtc step s s' →
  length (tokens s) ≤ tc_hard_connection_limit config
  ∧ (∀ t, t ∈ tokens s → ∃ c, channels s !! t = Some c ∧ token c = t)
  ∧ (∀ t, t ∈ tokens s → t ∈ tokens s' ∨ settled s' t ∨ stopped s' = true).
Proof.
  intros step Hb H1 H2. pose proof (build_inv _ _ _ _ _ _ _ Hb) as Hi.
  assert (network_config s0 = config) as Hcfg.
  { unfold build in Hb. inv_ok. case_match; [|done]. by inv_ok. }
  destruct (thread_steps_evolve _ _ _ _ _ _ _ (λ _, False) _ _ H1 Hi) as ((I1 & I2 & I3 & I4 & I5 & I6) & E1 & _).
  destruct (thread_steps_evolve _ _ _ _ _ _ _ (λ _, False) _ _ H2) as (_ & _ & _ & _ & T); [done|].
  rewrite E1, Hcfg in I2. split_and!; [done| |].
  - intros t Ht. destruct (I4 t Ht) as [c Hc]. exists c. split; [done|]. by destruct (I6 t c Hc).
  - intros t Ht. destruct (T t Ht) as [[]|]; done.
Qed.

(** A thread that accepts one connection and refuses the next at a limit of one. *)
Section Example.
Context {U : UuidApi}.

Definition example_stream : TcpStream := mkStream [] [] [] [] None true false.
Definition example_peer (i : Z) : SocketAddr := MkSocketAddr (V4 i) 8080.
Definition example_thread_config : ThreadConfig := mkThreadConfig (mkConfig 128 1 4 16) None true 3 100 1 1.
Definition example_build : res Empty_set NetworkThread :=
  build (example_peer 0) example_thread_config (mkUdpSocket [] [] []) (λ _, 0)
    [(example_stream, example_peer 1, true); (example_stream, example_peer 2, true)] [].
Definition example_accept : EventWithRetries := mkEvent TCP_SERVER true false 0.
End Example.

Abbreviation example_step :=
  (thread_step (U := uuid128_api) (λ _ _, 0) (λ n, mk_uuid128 (Z.of_nat n)) (λ _, new_store) (λ _, 0%Z) false (λ bs, [bs]) (λ _ e, e)).
Abbreviation example_round :=
  (run_round (U := uuid128_api) (λ _ _, 0) (λ _, new_store) (λ _, 0%Z) false (λ bs, [bs]) (λ _ e, e) (λ n, mk_uuid128 (Z.of_nat n))).

(** What the example evaluates to: no panic, and the tokens after a round. *)
Lemma example_computes :
  match example_build (U := uuid128_api) with
  | Ok s => let r := example_round [example_accept] s in
      (match r.2 with Panic => false | _ => true end, tokens r.1)
  | _ => (false, [])
  end = (true, [3]).
Proof. vm_compute. reflexivity. Qed.

Lemma connection_table_safe_witness :
  ∃ s0 s, example_build (U := uuid128_api) = Ok s0 ∧ rtc example_step s0 s ∧ tokens s = [3] ∧ length (tokens s) ≤ 1.
Proof.
  pose proof example_computes as Hc. destruct (example_build (U := uuid128_api)) as [s0| |] eqn:Hb; [|discriminate Hc..].
  destruct (example_round [example_accept] s0) as [s r] eqn:Hr. cbn [fst snd] in Hc. injection Hc as Hp Ht.
  assert (rtc example_step s0 s) as Hs by (apply rtc_once; eapply step_round; [exact Hr|by destruct r]).
  exists s0, s. do 3 (split; [done|]).
  exact (proj1 (connection_table_safe (U := uuid128_api) _ _ _ _ _ _ _ _ _ _ _ _ _ s0 s s Hb Hs (rtc_refl _ _))).
Defined.
