(* ===== verification/ThreadBehaviour.v ===== *)
(** * Behaviour of the network thread

    What single handlers of the network thread do: the merge of two connection
    attempts between the same hosts, the loss of a connection, and the frames
    that bring the thread down. *)

From S2P Require Import Prelude Extern Paths Serialisation Routing ActorStore ChunkLease Frames EncodeBuffer Buffers DecodeBuffer Messages BlockList.
From S2P Require Import Dispatcher Channel Udp NetworkThread ThreadSafety.

Section Behaviour.
Context {B : BytesApi} {U : UuidApi} {N : IpNetApi} {L : LruApi}.
Context (refs : NetworkThread → Refs).

Abbreviation nt := (St NetworkThread ErrorKind).

(** The parts of the thread that the channel operations leave alone. *)
Definition surroundings (s s' : NetworkThread) : Prop :=
  borrowed s' = borrowed s ∧ network_config s' = network_config s ∧ block_list s' = block_list s
  ∧ retry_queue s' = retry_queue s ∧ stopped s' = stopped s.

(** ** Steps of the monad *)
Lemma step_get {A} (f : NetworkThread → nt A) s : (s0 ← st_get; f s0) s = f s s.
Proof. done. Qed.
Lemma step_modify {A} g (f : () → nt A) s : (x ← st_modify g; f x) s = f () (g s).
Proof. done. Qed.
Lemma step_ret {A A'} (a : A) (f : A → nt A') s : (x ← mret a; f x) s = f a s.
Proof. done. Qed.
Lemma step_bind {A A'} (m : nt A) (f : A → nt A') s s1 a : m s = (s1, Ok a) → (x ← m; f x) s = f a s1.
Proof. intros H. unfold mbind, st_bind. by rewrite H. Qed.
Lemma get_chan_Some t c s : channels s !! t = Some c → get_chan t s = (s, Ok c).
Proof. intros H. unfold get_chan, mbind, st_bind, st_get. by rewrite H. Qed.
Lemma on_chan_Some {A} t c c' (m : St TcpChannel ErrorKind A) r s : channels s !! t = Some c → m c = (c', r) →
  on_chan t m s = (set_chan t c' s, r).
Proof. intros H Hm. unfold on_chan. by rewrite H, Hm. Qed.
Lemma with_borrow_Ok {A} t (m : nt A) s s' r : t ∉ borrowed s → m (upd_borrowed (λ b, {[t]} ∪ b) s) = (s', r) →
  with_borrow t m s = (upd_borrowed (λ b, b ∖ {[t]}) s', r).
Proof. intros Ht Hm. unfold with_borrow. by rewrite decide_False, Hm by done. Qed.

(** Both kinds of drop leave this. *)
Lemma drop_channel_spec s t c : channels s !! t = Some c → wf_decode (input_buffer c) →
  ∃ c' s', drop_channel refs t s = (s', Ok ()) ∧ channels s' = <[t := c']> (channels s) ∧ over c' = true
    ∧ address_map s' = delete (address c) (address_map s) ∧ token_map s' = lru_pop (token c) (token_map s)
    ∧ surroundings s s' ∧ to_dispatcher s' = to_dispatcher s.
Proof using B.
  intros Hc Hw. unfold drop_channel, deregister_channel, modify_chan.
  erewrite (step_bind _ _ s); [|erewrite step_bind by (by apply get_chan_Some); reflexivity].
  erewrite step_bind by (by apply get_chan_Some). rewrite step_modify.
  erewrite step_bind by (eapply on_chan_Some; [exact Hc|reflexivity]).
  unfold mbind at 1, st_bind at 1, empty_chunk at 1. rewrite step_get. set (s1 := upd_thread_pool _ _).
  set (b := new_chunk _ 0).
  assert (channels s1 !! t = Some (channel_shutdown c)) as Hc1 by (cbn; by rewrite lookup_insert_eq).
  assert (input_buffer (channel_shutdown c) = input_buffer c) as Hin by (unfold channel_shutdown; cbn; by destruct (state c)).
  destruct (swap_buffer_spec (refs s1) (input_buffer c) b Hw) as (d & o & Hsw & _); [done|].
  assert (channel_swap_buffer (refs s1) b (channel_shutdown c) = (set_input d (channel_shutdown c), Ok o)) as Hcs.
  { unfold channel_swap_buffer. by rewrite Hin, Hsw. }
  erewrite step_bind by (eapply on_chan_Some; [exact Hc1|exact Hcs]).
  exists (set_input d (channel_shutdown c)). eexists. split; [reflexivity|]. cbn.
  split; [by rewrite insert_insert_eq|]. split; [|done]. apply (shutdown_over c).
Qed.

(** ** Two connection attempts at the same time

    The thread has requested a connection to [peer], the channel [own] with
    session [id]; the [peer] has requested one too, which this side accepted as
    the channel [inn] from the transient address [eph].  The [Start] frame of the
    latter is being handled.  The own attempt is still in the handshake or, with [conn],
    acknowledged already, and no data has come in on it. *)
Definition attempt (conn : bool) (peer : SocketAddr) (id : SessionId) (c : TcpChannel) : Prop :=
  if conn then state c = ChConnected peer id ∧ messages c = 0%Z
  else state c = Requested peer id ∨ state c = Initialised peer id.

Record racing (conn : bool) (s : NetworkThread) (own inn : nat) (peer eph : SocketAddr) (id : SessionId) : Prop := {
  race_inv : thread_inv s;
  race_borrowed : borrowed s = {[inn]};
  race_own : ∃ c, channels s !! own = Some c ∧ address c = peer ∧ wf_decode (input_buffer c) ∧ stream_error (stream_ c) = None
    ∧ attempt conn peer id c;
  race_inn : ∃ c, channels s !! inn = Some c ∧ address c = eph ∧ chan_ok c ∧ state c = Initialising;
  race_map_own : address_map s !! peer = Some own;
  race_map_inn : address_map s !! eph = Some inn;
  race_allowed : socket_addr_is_blocked (block_list s) peer = false;
  race_soft : length (tokens s) ≤ tc_soft_connection_limit (network_config s);
}.

Lemma soft_limit_idle s : length (tokens s) ≤ tc_soft_connection_limit (network_config s) →
  check_soft_connection_limit refs s = (s, Ok ()).
Proof.
  intros Hl. unfold check_soft_connection_limit. rewrite step_get. by rewrite (bool_decide_false (_ < length _)) by lia.
Qed.

Lemma racing_neq conn s own inn peer eph id : racing conn s own inn peer eph id → own ≠ inn ∧ peer ≠ eph.
Proof.
  intros [_ _ (c & Hc & _ & _ & _ & Hs) (c' & Hc' & _ & _ & Hs') Ho Hi _ _].
  assert (own ≠ inn) as Hne.
  { intros ->. rewrite Hc in Hc'. injection Hc' as <-. unfold attempt in Hs. rewrite Hs' in Hs. by destruct conn, Hs. }
  split; [done|]. intros ->. rewrite Ho in Hi. by injection Hi.
Qed.

(** What reading the state does to a channel without a pending error. *)
Lemma read_state_quiet c : stream_error (stream_ c) = None →
  ∃ c', read_state c = (c', Ok (state c)) ∧ state c' = state c ∧ address c' = address c ∧ token c' = token c
    ∧ input_buffer c' = input_buffer c ∧ messages c' = messages c.
Proof.
  intros He. unfold read_state, mbind, st_bind, st_get, st_modify, take_error. rewrite He. by eexists.
Qed.

(** The decision: the session that is connected stays, or else the greater one. *)
Lemma merge_race conn s own inn peer eph id y : racing conn s own inn peer eph id →
  let keep := conn || (uuid_as_u128 y <? uuid_as_u128 id)%Z in
  ∃ s', with_borrow own (merge_channels refs inn own (mkStart peer y)) s = (s', Ok (negb keep)) ∧ borrowed s' = {[inn]}
    ∧ network_config s' = network_config s ∧ length (tokens s') ≤ length (tokens s)
    ∧ if keep
      then address_map s' = delete eph (address_map s) ∧ settled s' inn
           ∧ ∃ c, channels s' !! own = Some c ∧ channel_session_id c = Some id
      else address_map s' = delete peer (address_map s) ∧ settled s' own ∧ channels s' !! inn = channels s !! inn.
Proof using B.
  intros Hrace keep. destruct (racing_neq _ _ _ _ _ _ _ Hrace) as [Hne Hna].
  destruct Hrace as [Hinv Hb (c & Hc & Ha & Hw & He & Hs) (ci & Hci & Hai & (Hwi & _) & Hsi) Ho Hi _ _].
  destruct (read_state_quiet c He) as (c1 & Hr & Hs1 & Ha1 & Ht1 & Hin1 & Hm1).
  set (s0 := upd_borrowed (λ b, {[own]} ∪ b) s).
  set (s1 := set_chan own c1 s0).
  assert (on_chan own read_state s0 = (s1, Ok (state c))) as H0 by (eapply on_chan_Some; [exact Hc|exact Hr]).
  assert (channels s1 !! own = Some c1) as Hc1 by (cbn; by rewrite lookup_insert_eq).
  assert (channels s1 !! inn = Some ci) as Hci1 by (cbn; by rewrite lookup_insert_ne).
  assert (merge_channels refs inn own (mkStart peer y) s0
    = if keep then (_ ← drop_channel refs inn; mret false) s1
      else (_ ← drop_channel refs own; mret true) s1) as Hm.
  { unfold merge_channels, keep. erewrite step_bind by exact H0. unfold attempt in Hs. destruct conn; cbn [orb].
    - destruct Hs as [-> Hm0]. erewrite step_bind by (by apply get_chan_Some). by rewrite Hm1, Hm0.
    - destruct Hs as [-> | ->]; cbn [start_id]; by destruct (_ <? _)%Z. }
  assert (own ∉ borrowed s) as Hnb by (rewrite Hb; set_solver).
  assert (∀ t k, tokens (upd_borrowed k t) = tokens t) as Htk by done.
  destruct keep.
  - destruct (drop_channel_spec s1 inn ci Hci1 Hwi) as (c' & s' & Hd & D1 & D2 & D3 & D4 & (D5 & D6 & _) & _).
    erewrite step_bind in Hm by exact Hd. eexists. split; [by apply with_borrow_Ok|].
    split; [cbn; rewrite D5; cbn; rewrite Hb; set_solver|]. split; [done|].
    split; [rewrite Htk; unfold tokens; rewrite D4, lru_pop_keys; apply length_filter|]. rewrite Hai in D3.
    split; [done|]. split; [exists c'; cbn; by rewrite D1, lookup_insert_eq|].
    exists c1. cbn. rewrite D1, lookup_insert_ne by done. split; [done|].
    unfold channel_session_id. rewrite Hs1. unfold attempt in Hs. destruct conn; [by destruct Hs as [-> _]|by destruct Hs as [-> | ->]].
  - rewrite <-Hin1 in Hw. destruct (drop_channel_spec s1 own c1 Hc1 Hw) as (c' & s' & Hd & D1 & D2 & D3 & D4 & (D5 & D6 & _) & _).
    erewrite step_bind in Hm by exact Hd. eexists. split; [by apply with_borrow_Ok|].
    split; [cbn; rewrite D5; cbn; rewrite Hb; set_solver|]. split; [done|].
    split; [rewrite Htk; unfold tokens; rewrite D4, lru_pop_keys; apply length_filter|]. rewrite Ha1, Ha in D3.
    split; [done|]. split; [exists c'; cbn; by rewrite D1, lookup_insert_eq|].
    cbn. rewrite D1, lookup_insert_ne by done. by rewrite Hci, Hci1.
Qed.

(** The session with the host at [peer]. *)
Definition session_with (s : NetworkThread) (peer : SocketAddr) : option SessionId :=
  t ← address_map s !! peer; c ← channels s !! t; channel_session_id c.

Lemma handle_start_race conn s own inn peer eph id y ev : racing conn s own inn peer eph id →
  (retries ev <= tc_max_connection_retry_attempts (network_config s))%Z →
  let older := conn || (uuid_as_u128 y <? uuid_as_u128 id)%Z in
  ∃ s', NetworkThread.handle_start refs ev inn (mkStart peer y) s = (s', Ok ())
    ∧ session_with s' peer = Some (if older then id else y) ∧ settled s' (if older then inn else own).
Proof using B.
  intros Hrace Hret older. destruct (racing_neq _ _ _ _ _ _ _ Hrace) as [Hne Hna].
  destruct (merge_race conn s own inn peer eph id y Hrace) as (s1 & Hm & Hb1 & Hcfg & Hlen & Hout).
  destruct Hrace as [Hinv Hb _ (ci & Hci & Hai & Hoki & Hsi) Ho Hi Hal Hsoft].
  unfold NetworkThread.handle_start. rewrite step_get. cbn [start_addr]. rewrite Hal. unfold get_channel_by_address.
  erewrite (step_bind _ _ s) by (rewrite step_get, Ho; reflexivity). erewrite step_bind by exact Hm. fold older in Hout |- *.
  destruct older; cbn [negb].
  { destruct Hout as (H1 & H2 & c & H3 & H4). exists s1. split; [done|]. split; [|done].
    unfold session_with. rewrite H1, lookup_delete_ne, Ho by done. cbn. by rewrite H3. }
  destruct Hout as (H1 & H2 & H3). rewrite Hci in H3. erewrite step_bind by (by apply get_chan_Some). rewrite Hai.
  assert (reregister_channel_address eph peer s1 = (upd_address_map (λ m, <[peer := inn]> (delete eph m)) s1, Ok ())) as Hre.
  { unfold reregister_channel_address. rewrite step_get, H1, lookup_delete_ne, Hi by done. done. }
  erewrite step_bind by exact Hre.
  destruct (handle_start_spec (mkStart peer y) ci Hoki) as (c' & Hs' & Hc'). rewrite Hsi in Hc'. destruct Hc' as [_ Hc'].
  erewrite step_bind by (eapply on_chan_Some; [exact H3|exact Hs']).
  unfold retry_event. erewrite (step_bind _ _ _ _ ()); [|rewrite step_get; cbn [network_config set_chan upd_channels upd_address_map];
    rewrite Hcfg, (proj2 (Z.leb_le _ _) Hret); reflexivity].
  erewrite step_bind by (apply soft_limit_idle; cbn; rewrite Hcfg; unfold tokens in *; cbn; lia).
  eexists. split; [reflexivity|]. split.
  - unfold session_with. cbn. rewrite lookup_insert_eq. cbn. rewrite lookup_insert_eq. cbn. unfold channel_session_id. by rewrite Hc'.
  - destruct H2 as (d & Hd & Hov). exists d. split; [|done]. cbn. by rewrite lookup_insert_ne.
Qed.
(** ** Losing a connection *)
Definition rejection (a : SocketAddr) (f : SerialisedFrame) : NetworkDispatcherEvent DispatchData IpNet := RejectedData a (DSerialised f).

Lemma reject_all a q s : st_for q (λ f, reject_dispatch_data a (DSerialised f)) s
  = (upd_to_dispatcher (λ l, l ++ (rejection a <$> q)) s, Ok ()).
Proof.
  revert s. induction q as [|f q IH]; intros s; cbn [st_for].
  - unfold upd_to_dispatcher. cbn. rewrite app_nil_r. by destruct s.
  - erewrite step_bind by reflexivity. rewrite IH. f_equal. unfold upd_to_dispatcher. cbn. by rewrite <-app_assoc.
Qed.

(** The dispatcher gets every frame of the queue back, in order. *)
Lemma lost_connection_spec s t c a id : channels s !! t = Some c → queue_ok c → state c = ChConnected a id →
  ∃ s', lost_connection t s = (s', Ok ())
    ∧ to_dispatcher s' = to_dispatcher s ++ Network (ConnectionLost (with_socket Tcp (address c)) id)
                           :: (rejection (address c) <$> outbound_queue c).
Proof using B.
  intros Hc Hq Hs. unfold lost_connection. erewrite step_bind by (by apply get_chan_Some).
  unfold channel_session_id. rewrite Hs. cbn [state_session_id]. unfold notify_network_status. rewrite step_modify.
  set (s1 := upd_to_dispatcher _ s). set (c1 := upd_queue (λ _, []) c). set (s2 := set_chan t c1 s1).
  assert (channels s2 !! t = Some c1) as Hc2 by (cbn; by rewrite lookup_insert_eq).
  assert (reject_outbound_for_channel t s1 = (upd_to_dispatcher (λ l, l ++ (rejection (address c) <$> outbound_queue c)) s2, Ok ())) as Hr.
  { unfold reject_outbound_for_channel. erewrite step_bind by (eapply on_chan_Some; [exact Hc|reflexivity]).
    erewrite step_bind by (by apply get_chan_Some). apply reject_all. }
  erewrite step_bind by exact Hr. set (s3 := upd_to_dispatcher _ s2).
  destruct (send_bye_spec c1) as (c4 & r & Hb & Hnp & _); [by constructor|].
  assert (ignore_result send_bye c1 = (c4, Ok ())) as Hi.
  { unfold ignore_result, mbind, st_bind, st_try. rewrite Hb. by destruct r. }
  erewrite step_bind by (eapply on_chan_Some; [exact Hc2|exact Hi]). set (s4 := set_chan t c4 s3).
  assert (channels s4 !! t = Some c4) as Hc4 by (cbn; by rewrite lookup_insert_eq).
  unfold deregister_channel. erewrite (step_bind _ _ s4); [|erewrite step_bind by (by apply get_chan_Some); reflexivity].
  unfold modify_chan. eexists. split; [eapply on_chan_Some; [exact Hc4|reflexivity]|].
  cbn. by rewrite <-app_assoc.
Qed.

(** A write that takes part of a frame, and one that fails. *)
Lemma try_drain_broken c f q n ws bs : outbound_queue c = f :: q → queue_ok c → frame_chunk f = Ok bs → n ≤ length bs →
  n < frame_len f → writes (stream_ c) = IoBytes n :: IoError BrokenPipe :: ws →
  ∃ c', try_drain c = (c', Err BrokenPipe) ∧ outbound_queue c' = frame_advance f n :: q ∧ queue_ok c' ∧ state c' = state c
    ∧ address c' = address c ∧ token c' = token c.
Proof using B.
  intros Hq Hok Hbs Hn Hl Hw. unfold queue_ok in Hok. rewrite Hq in Hok. apply Forall_cons in Hok as [Hf Hok].
  destruct (frame_advance_spec f n Hf Hl) as [Hf' _]. destruct (frame_chunk_spec _ Hf') as (bs' & _ & Hbs' & _).
  unfold try_drain. rewrite Hw. cbn [length drain_loop]. unfold mbind at 1, st_bind at 1, st_get at 1. rewrite Hq.
  unfold mbind at 1, st_bind at 1, st_modify at 1. unfold mbind at 1, st_bind at 1, st_try at 1, write_serialized at 1.
  unfold mbind at 1, st_bind at 1, st_lift at 1. rewrite Hbs. cbn [lift_panic_]. unfold on_stream at 1, stream_write at 1.
  cbn [upd_queue stream_]. rewrite Hw. rewrite Nat.min_l by lia. unfold mbind at 1, st_bind at 1. rewrite bool_decide_true by done.
  cbn [st_when]. unfold st_modify at 1. unfold mbind at 1, st_bind at 1, st_get at 1. cbn [upd_queue outbound_queue set_stream].
  unfold mbind at 1, st_bind at 1, st_modify at 1. unfold mbind at 1, st_bind at 1, st_try at 1, write_serialized at 1.
  unfold mbind at 1, st_bind at 1, st_lift at 1. rewrite Hbs'. cbn [lift_panic_]. unfold on_stream at 1, stream_write at 1.
  cbn. eexists. split; [reflexivity|]. cbn. split; [done|]. split; [by apply Forall_cons|done].
Qed.

(** ** Frames of a host that has only connected *)
Lemma has_frame_true d f rest : wf_decode d → frame_ok f → stream d = wire f ++ rest →
  ∃ d', has_frame d = (d', Ok true) ∧ wf_decode d' ∧ stream d' = wire f ++ rest.
Proof using Type.
  intros Hw Hf Hs. pose proof (frame_head_bound f Hf) as Hb. unfold wire in Hs. rewrite <-app_assoc in Hs.
  destruct (decode_head_full d (frame_head f) (frame_body f ++ rest) Hw Hb Hs) as (d1 & Hd & Hw1 & Hn1 & Hp1).
  exists d1. unfold has_frame. rewrite Hd, Hn1, readable_len_Ok by done. split; [|split; [done|]].
  - rewrite bool_decide_true; [done|]. rewrite Hp1, length_app. cbn. lia.
  - unfold stream. rewrite Hn1, Hp1. unfold wire. by rewrite app_assoc.
Qed.

(** A frame that is already in the buffer of a channel in the handshake. *)
Lemma read_frame_buffered t s c f rest : channels s !! t = Some c → wf_decode (input_buffer c) → state c = Initialising →
  frame_ok f → f ≠ FBye → stream (input_buffer c) = wire f ++ rest →
  ∃ c' f', thread_read_frame refs t s = (set_chan t c' s, Ok (Some f')) ∧ same_frame f f' ∧ state c' = Initialising
    ∧ address c' = address c.
Proof using B.
  intros Hc Hw Hs Hf Hnb Hst. unfold thread_read_frame. rewrite Hc. cbn [read_frame].
  destruct (has_frame_true (input_buffer c) f rest Hw Hf Hst) as (d1 & Hh & Hw1 & Hs1).
  unfold mbind at 1, st_bind at 1, on_channel at 1, channel_has_frame, on_input. rewrite Hh. cbn [map_err].
  unfold on_channel at 1, handle_decoded, channel_decode. cbn [set_input input_buffer].
  destruct (get_frame_full d1 f rest Hw1 Hf Hs1) as (d2 & f' & Hg & Hsame & _). rewrite Hg.
  assert (∀ c', upd_thread_pool (λ _, thread_pool s) (set_chan t c' s) = set_chan t c' s) as Hp by (intros; by destruct s).
  destruct f', f; try done.
  - do 2 eexists. split; [by rewrite Hp|done].
  - do 2 eexists. split; [by rewrite Hp|done].
  - do 2 eexists. split; [by rewrite Hp|done].
  - unfold handle_ack, mbind, st_bind, st_get. cbn [set_input state]. rewrite Hs.
    exists (set_input d2 (set_input d1 c)), FAck. split; [reflexivity|done].
Qed.
(** A channel that was accepted and has not taken part in the handshake. *)
Record accepted (s : NetworkThread) (t : nat) (c : TcpChannel) : Prop := {
  acc_token : t ∈ tokens s;
  acc_idle : borrowed s = ∅;
  acc_channel : channels s !! t = Some c;
  acc_buffer : wf_decode (input_buffer c);
  acc_state : state c = Initialising;
  acc_map : address_map s !! address c = Some t;
  acc_allowed : socket_addr_is_blocked (block_list s) (address c) = false;
  acc_soft : length (tokens (upd_token_map (lru_get t) s)) ≤ tc_soft_connection_limit (network_config s);
}.

End Behaviour.

(** C16: Two hosts that connect to each other at the same time end up with one session.
    [a] and [b] are the hosts when they handle the [Start] frame of the connection that they
    accepted, which need not be at the same time.  The accepted channel is still
    initialising, the peer is not blocked, the soft connection limit is not exceeded and the
    event has retries left.  The connection that the host has requested itself is without a
    pending socket error and still in the handshake, or it is connected already and no data
    has come in on it; the latter only where the other host decides for this connection,
    since it is that decision which sends the acknowledgement.  Then both are registered with the
    same session, the one with the greater identifier, and it is the same one of the two
    connections that has ended on both sides.  (Where data has come in already, the code
    gives up the connection in use: [used_connection_replaced].) *)
Theorem simultaneous_connect_agrees {B : BytesApi} {U : UuidApi} {N : IpNetApi} {L : LruApi} (refs : NetworkThread → Refs)
    (a b : NetworkThread) (conn_a conn_b : bool) (own_a inn_a own_b inn_b : nat) (addr_a addr_b eph_a eph_b : SocketAddr)
    (x y : SessionId) (ev_a ev_b : EventWithRetries) :
  racing conn_a a own_a inn_a addr_b eph_a x → racing conn_b b own_b inn_b addr_a eph_b y → x ≠ y →
  (conn_a = true → uuid_as_u128 y < uuid_as_u128 x)%Z → (conn_b = true → uuid_as_u128 x < uuid_as_u128 y)%Z →
  (retries ev_a <= tc_max_connection_retry_attempts (network_config a))%Z →
  (retries ev_b <= tc_max_connection_retry_attempts (network_config b))%Z →
  ∃ a' b' z, NetworkThread.handle_start refs ev_a inn_a (mkStart addr_b y) a = (a', Ok ())
  ∧ NetworkThread.handle_start refs ev_b inn_b (mkStart addr_a x) b = (b', Ok ())
  ∧ session_with a' addr_b = Some z ∧ session_with b' addr_a = Some z
  ∧ (uuid_as_u128 x <= uuid_as_u128 z ∧ uuid_as_u128 y <= uuid_as_u128 z)%Z
  ∧ (z = x ∧ settled a' inn_a ∧ settled b' own_b ∨ z = y ∧ settled a' own_a ∧ settled b' inn_b).
Proof.
  intros Ha Hb Hxy Hca Hcb Hra Hrb.
  destruct (handle_start_race refs conn_a a own_a inn_a addr_b eph_a x y ev_a Ha Hra) as (a' & A1 & A2 & A3).
  destruct (handle_start_race refs conn_b b own_b inn_b addr_a eph_b y x ev_b Hb Hrb) as (b' & B1 & B2 & B3).
  assert (uuid_as_u128 x ≠ uuid_as_u128 y) as Hne.
  { intros He. apply Hxy. by rewrite <-(uuid_from_as_u128 x), <-(uuid_from_as_u128 y), He. }
  destruct (Z.ltb_spec (uuid_as_u128 y) (uuid_as_u128 x)), (Z.ltb_spec (uuid_as_u128 x) (uuid_as_u128 y)); try lia.
  - assert (conn_b = false) as -> by (destruct conn_b; [specialize (Hcb eq_refl); lia|done]). rewrite orb_true_r in *.
    exists a', b', x. split_and!; auto; lia.
  - assert (conn_a = false) as -> by (destruct conn_a; [specialize (Hca eq_refl); lia|done]). rewrite orb_true_r in *.
    exists a', b', y. split_and!; auto; lia.
Qed.

(** A second connection to a host ends the first one when that one is in use: the documentation of [handle_start]
    says that the new one is killed where the other has already started, but the code does so only while no data has
    come in on it.  Otherwise the established connection is reported as lost and what it has queued is rejected. *)
Theorem used_connection_replaced {B : BytesApi} {U : UuidApi} {N : IpNetApi} {L : LruApi} (refs : NetworkThread → Refs)
    (s : NetworkThread) (t o : nat) (c : TcpChannel) (a : SocketAddr) (id : SessionId) (start : Start) :
  channels s !! o = Some c → queue_ok c → stream_error (stream_ c) = None → state c = ChConnected a id → messages c ≠ 0%Z →
  ∃ s', merge_channels refs t o start s = (s', Ok true)
    ∧ to_dispatcher s' = to_dispatcher s ++ Network (ConnectionLost (with_socket Tcp (address c)) id)
                           :: (rejection (address c) <$> outbound_queue c).
Proof.
  intros Hc Hq He Hs Hm.
  assert (∃ c1, read_state c = (c1, Ok (state c)) ∧ state c1 = state c ∧ address c1 = address c
    ∧ outbound_queue c1 = outbound_queue c ∧ messages c1 = messages c) as (c1 & Hr & Hs1 & Ha1 & Hq1 & Hm1).
  { unfold read_state, mbind, st_bind, st_get, st_modify, take_error. rewrite He. by eexists. }
  set (s1 := set_chan o c1 s). assert (channels s1 !! o = Some c1) as Hc1 by (cbn; by rewrite lookup_insert_eq).
  destruct (lost_connection_spec s1 o c1 a id) as (s' & Hl & Hto); [done|unfold queue_ok; by rewrite Hq1|congruence|].
  exists s'. unfold merge_channels. erewrite step_bind by (eapply on_chan_Some; [exact Hc|exact Hr]). rewrite Hs.
  erewrite step_bind by (by apply get_chan_Some). rewrite Hm1, (proj2 (Z.eqb_neq _ _) Hm). erewrite step_bind by exact Hl.
  split; [done|]. by rewrite Hto, Ha1, Hq1.
Qed.

(** Frames that were written in part come back damaged.  When a connection breaks after the socket took the first [n]
    bytes of a frame, the dispatcher is given the connection's frames back to send them again, in order, but of the first
    one only the bytes that follow: on the next connection it is sent without its head. *)
Theorem partial_frame_rejected {B : BytesApi} {U : UuidApi} {N : IpNetApi} {L : LruApi} (s : NetworkThread) (t : nat)
    (c : TcpChannel) (a : SocketAddr) (id : SessionId) (f : SerialisedFrame) (q : list SerialisedFrame) (n : nat)
    (bs : list byte) (ws : list IoOutcome) :
  t ∈ tokens s → t ∉ borrowed s → channels s !! t = Some c → state c = ChConnected a id →
  outbound_queue c = f :: q → queue_ok c → frame_chunk f = Ok bs → n ≤ length bs → n < frame_len f →
  writes (stream_ c) = IoBytes n :: IoError BrokenPipe :: ws →
  ∃ s' f', write_tcp t s = (s', Ok ())
  ∧ to_dispatcher s' = to_dispatcher s ++ Network (ConnectionLost (with_socket Tcp (address c)) id)
                         :: rejection (address c) f' :: (rejection (address c) <$> q)
  ∧ frame_bytes f' = drop n (frame_bytes f).
Proof.
  intros Ht Hb Hc Hs Hq Hok Hbs Hn Hl Hw.
  destruct (try_drain_broken c f q n ws bs Hq Hok Hbs Hn Hl Hw) as (c1 & Hd & Hq1 & Hok1 & Hs1 & Ha1 & _).
  assert (frame_wf f) as Hf by (unfold queue_ok in Hok; rewrite Hq in Hok; by apply Forall_cons in Hok as [? _]).
  unfold write_tcp, get_channel_by_token. set (s0 := upd_token_map (lru_get t) s).
  erewrite (step_bind _ _ s s0 (Some t)); [|rewrite step_get; unfold update_lru; rewrite step_modify, decide_True by done; reflexivity].
  set (s1 := upd_borrowed (λ b, {[t]} ∪ b) s0). set (s2 := set_chan t c1 s1).
  destruct (lost_connection_spec s2 t c1 a id) as (s' & Hlost & Hto); [cbn; by rewrite lookup_insert_eq|done|congruence|].
  eexists. exists (frame_advance f n). split.
  - eapply with_borrow_Ok; [done|]. fold s1.
    assert (st_try (on_chan t try_drain) s1 = (s2, Ok (inr BrokenPipe))) as Htry.
    { unfold st_try. erewrite on_chan_Some by (exact Hc || exact Hd). done. }
    erewrite step_bind by exact Htry. exact Hlost.
  - split; [|by apply frame_advance_spec]. cbn. rewrite Hto, Hq1, Ha1. done.
Qed.

(** A host that has only connected can bring the network thread down.  On a channel that was accepted and has not
    taken part in the handshake, a data frame, an acknowledgement, or a [Start] frame that names the address the channel
    is already registered under makes the thread panic when it is read: no session is known to deliver the data with or
    to report, and the channel registered under the address is the one being read, which cannot be borrowed again. *)
Theorem hostile_frames_panic {B : BytesApi} {U : UuidApi} {N : IpNetApi} {L : LruApi} (refs : NetworkThread → Refs)
    (lookup : nat → ActorStore (M := NetMessage)) (default_hasher : ActorPath → Z) (implicit_routes : bool)
    (s : NetworkThread) (ev : EventWithRetries) (c : TcpChannel) (f : Frame) (rest : list byte) :
  accepted s (ev_token ev) c → frame_ok f → stream (input_buffer c) = wire f ++ rest →
  (∃ p, f = FData p) ∨ f = FAck ∨ (∃ id, f = FStart (mkStart (address c) id)) →
  (read_tcp refs lookup default_hasher implicit_routes ev s).2 = Panic.
Proof.
  intros [Ht Hb Hc Hw Hs Hmap Hbl Hsoft] Hf Hst Hcase. set (t := ev_token ev) in *.
  unfold read_tcp, get_channel_by_token. fold t. set (s0 := upd_token_map (lru_get t) s).
  erewrite (step_bind _ _ s s0 (Some t)); [|rewrite step_get; unfold update_lru; rewrite step_modify, decide_True by done; reflexivity].
  set (s1 := upd_borrowed (λ b, {[t]} ∪ b) s0).
  assert (channels s1 !! t = Some c) as Hc1 by done.
  destruct (read_frame_buffered refs t s1 c f rest Hc1 Hw Hs Hf) as (c' & f' & Hr & Hsame & Hs' & Ha'); [by destruct Hcase as [[p ->]|[->|[id ->]]]|done|].
  set (s2 := set_chan t c' s1) in *.
  assert (channels s2 !! t = Some c') as Hc2 by (cbn; by rewrite lookup_insert_eq).
  assert ((read_loop refs lookup default_hasher implicit_routes (read_fuel c) ev t s1).2 = Panic) as Hp.
  { unfold read_fuel. cbn [read_loop].
    erewrite (step_bind _ _ s1 s2 (inl (Some f'))) by (unfold st_try; by rewrite Hr).
    destruct Hcase as [[p ->]|[->|[id ->]]]; destruct f' as [p'|h'|st'| |]; try done.
    - erewrite step_bind by (by apply get_chan_Some). unfold channel_session_id. by rewrite Hs'.
    - erewrite step_bind by (by apply soft_limit_idle). erewrite step_bind by (by apply get_chan_Some).
      unfold channel_session_id. by rewrite Hs'.
    - cbn in Hsame. subst st'. unfold NetworkThread.handle_start. unfold mbind at 1, st_bind at 1. rewrite step_get.
      cbn [start_addr]. change (block_list s2) with (block_list s). rewrite Hbl. unfold get_channel_by_address.
      erewrite (step_bind _ _ s2) by (rewrite step_get; change (address_map s2) with (address_map s); rewrite Hmap; reflexivity).
      unfold mbind at 1, st_bind at 1, with_borrow. rewrite decide_True; [done|]. cbn. set_solver. }
  unfold mbind at 1, st_bind at 1, with_borrow. rewrite decide_False by (cbn; set_solver). fold s1.
  erewrite step_bind by (by apply get_chan_Some). by destruct (read_loop _ _ _ _ _ _ _ s1) as [s3 []].
Qed.

(** Two hosts that have just requested and accepted connections; the requested one may be acknowledged. *)
Section RaceExample.
Context {B : BytesApi} {U : UuidApi}.

Definition race_config : ThreadConfig := mkThreadConfig (mkConfig 64 1 4 16) None true 3 100 8 8.
Definition race_channel (tok id : nat) (addr own : SocketAddr) (st : ChannelState) : TcpChannel :=
  new_channel example_stream tok addr (new_chunk id 64) st own (tc_buffer_config race_config) true.
Definition race_state (conn : bool) (peer : SocketAddr) (id : SessionId) : ChannelState :=
  if conn then ChConnected peer id else Requested peer id.
Definition race_thread (conn : bool) (own peer eph : SocketAddr) (id : SessionId) : NetworkThread :=
  mkThread own {[3 := race_channel 3 0 peer own (race_state conn peer id); 4 := race_channel 4 1 eph own Initialising]} {[4]}
    {[peer := 3; eph := 4]} (8, [4; 3]) 5 [] (mkPool [] 2 64 64 4 2) false true race_config [] false
    (mkEncode (new_chunk 0 64) (mkPool [] 1 64 64 4 1) 0 0 false 16) default_block_list None [] [] 0 true [] [].

Lemma race_thread_racing conn own peer eph id : peer ≠ eph → racing conn (race_thread conn own peer eph id) 3 4 peer eph id.
Proof.
  intros Hne.
  assert (∀ tok id addr own st, wf_decode (input_buffer (race_channel tok id addr own st))) as Hwf.
  { intros. unfold wf_decode, chunk_len. cbn. split_and!; done || lia. }
  split.
  - unfold thread_inv, tokens. cbn. split_and!; try lia.
    + by apply (bool_decide_unpack (NoDup [4; 3])).
    + intros t. rewrite !elem_of_cons, elem_of_nil. intros [->|[->|[]]]; by eexists.
    + intros a t. rewrite lookup_insert_Some, lookup_singleton_Some. intros [[_ <-]|[_ [_ <-]]]; by eexists.
    + intros t c. rewrite lookup_insert_Some, lookup_singleton_Some. intros [[<- <-]|[_ [<- <-]]]; cbn; split; done || lia.
  - done.
  - exists (race_channel 3 0 peer own (race_state conn peer id)). do 2 (split; [done|]). split; [apply Hwf|]. split; [done|].
    destruct conn; [done|by left].
  - exists (race_channel 4 1 eph own Initialising). do 2 (split; [done|]). split; [|done]. split; [apply Hwf|].
    split; [split; unfold chunk_len; cbn; lia|]. split; [by constructor|done].
  - cbn. by rewrite lookup_insert_eq.
  - cbn. by rewrite lookup_insert_ne, lookup_singleton_eq.
  - unfold socket_addr_is_blocked. cbn [race_thread block_list default_block_list allowed_socket_addr blocked_socket_addr].
    rewrite !decide_False by set_solver. by destruct (sa_ip peer).
  - unfold tokens. cbn. lia.
Qed.
End RaceExample.

Lemma simultaneous_connect_agrees_witness :
  let addr i := MkSocketAddr (V4 i) 8080 in
  ∃ a' b' z,
    NetworkThread.handle_start (λ _ _, 0) (mkEvent 4 true false 0) 4 (mkStart (addr 2%Z) (mk_uuid128 9%Z))
      (race_thread (U := uuid128_api) false (addr 1%Z) (addr 2%Z) (addr 3%Z) (mk_uuid128 7%Z)) = (a', Ok ())
    ∧ NetworkThread.handle_start (λ _ _, 0) (mkEvent 4 true false 0) 4 (mkStart (addr 1%Z) (mk_uuid128 7%Z))
      (race_thread (U := uuid128_api) true (addr 2%Z) (addr 1%Z) (addr 4%Z) (mk_uuid128 9%Z)) = (b', Ok ())
    ∧ session_with a' (addr 2%Z) = Some z ∧ session_with b' (addr 1%Z) = Some z.
Proof.
  intros addr.
  destruct (simultaneous_connect_agrees (U := uuid128_api) (λ _ _, 0) (race_thread (U := uuid128_api) false (addr 1%Z) (addr 2%Z) (addr 3%Z) (mk_uuid128 7%Z))
    (race_thread (U := uuid128_api) true (addr 2%Z) (addr 1%Z) (addr 4%Z) (mk_uuid128 9%Z)) false true 3 4 3 4 (addr 1%Z) (addr 2%Z) (addr 3%Z) (addr 4%Z)
    (mk_uuid128 7%Z) (mk_uuid128 9%Z) (mkEvent 4 true false 0) (mkEvent 4 true false 0)) as (a' & b' & z & H1 & H2 & H3 & H4 & _).
  - by apply race_thread_racing.
  - by apply race_thread_racing.
  - intros H%(f_equal uuid_as_u128). vm_compute in H. discriminate H.
  - done.
  - intros _. vm_compute. reflexivity.
  - cbn. lia.
  - cbn. lia.
  - exists a', b', z. exact (conj H1 (conj H2 (conj H3 H4))).
Defined.

(** A thread with one channel. *)
Section SingleExample.
Context {B : BytesApi} {U : UuidApi}.

Definition single_thread (c : TcpChannel) : NetworkThread :=
  mkThread (own_addr c) {[3 := c]} ∅ {[address c := 3]} (8, [3]) 4 [] (mkPool [] 1 64 64 4 1) false true race_config [] false
    (mkEncode (new_chunk 0 64) (mkPool [] 1 64 64 4 1) 0 0 false 16) default_block_list None [] [] 0 true [] [].

Definition single_addr (i : Z) : SocketAddr := MkSocketAddr (V4 i) 8080.

(** Three of five bytes are taken, then the connection breaks. *)
Definition broken_channel (id : SessionId) : TcpChannel :=
  mkChannel (mkStream [] [] [] [IoBytes 3; IoError BrokenPipe] None true false) [FrameBytes [1; 2; 3; 4; 5]%Z] 3 (single_addr 2)
    (new_decode (new_chunk 0 64) (tc_buffer_config race_config)) (ChConnected (single_addr 2) id) 0 (single_addr 1) true.

(** The buffer holds an acknowledgement. *)
Definition hostile_channel : TcpChannel :=
  mkChannel example_stream [] 3 (single_addr 2)
    (mkDecode (mkChunk 0 (wire FAck ++ replicate 30 0%Z) false) (length (wire FAck)) 0 None None (tc_buffer_config race_config))
    Initialising 0 (single_addr 1) true.

Lemma hostile_wf : wf_decode (input_buffer hostile_channel).
Proof.
  unfold wf_decode, chunk_len. cbn [hostile_channel input_buffer read_offset write_offset buffer data locked chain_head next_frame_head].
  rewrite length_app. split_and!; done || lia.
Qed.

Lemma hostile_stream : stream (input_buffer hostile_channel) = wire FAck ++ [].
Proof.
  unfold stream, pending, chain_bytes. cbn [hostile_channel input_buffer next_frame_head chain_head write_offset read_offset buffer data].
  rewrite Nat.sub_0_r, drop_0, app_nil_r. cbn [app]. apply take_app_length.
Qed.
End SingleExample.

Lemma partial_frame_rejected_witness :
  ∃ s', write_tcp (U := uuid128_api) 3 (single_thread (broken_channel (U := uuid128_api) (mk_uuid128 7%Z))) = (s', Ok ())
  ∧ length (to_dispatcher s') = 2.
Proof.
  destruct (partial_frame_rejected (U := uuid128_api) (single_thread (broken_channel (U := uuid128_api) (mk_uuid128 7%Z))) 3 (broken_channel (U := uuid128_api) (mk_uuid128 7%Z))
    (single_addr 2) (mk_uuid128 7%Z) (FrameBytes [1; 2; 3; 4; 5]%Z) [] 3 [1; 2; 3; 4; 5]%Z []) as (s' & f' & H1 & H2 & H3).
  - by constructor.
  - apply not_elem_of_empty.
  - reflexivity.
  - reflexivity.
  - reflexivity.
  - by repeat constructor.
  - reflexivity.
  - cbn. lia.
  - cbn. lia.
  - reflexivity.
  - exists s'. split; [exact H1|]. by rewrite H2.
Defined.

Lemma hostile_frames_panic_witness :
  (read_tcp (U := uuid128_api) (λ _ _, 0) (λ _, new_store) (λ _, 0%Z) false (mkEvent 3 true false 0) (single_thread hostile_channel)).2
  = Panic.
Proof.
  apply (hostile_frames_panic (U := uuid128_api) _ _ _ _ (single_thread hostile_channel) (mkEvent 3 true false 0) hostile_channel FAck []).
  - split; [by constructor|reflexivity|reflexivity|apply hostile_wf|reflexivity|reflexivity|reflexivity|vm_compute; lia].
  - exact I.
  - apply hostile_stream.
  - by right; left.
Defined.
